(* ===== verification/_CoqProject ===== *)
-Q . S2P
Prelude.v
External.v
Cbor.v
CborFacts.v
Types.v
Core.v
Log.v
Transport.v
Files.v
Ingest.v
Metrics.v
Peers.v
PeersFacts.v
Swarm.v
Fetch.v
FetchFacts.v
Bridge.v
BridgeFacts.v
Startup.v
Mls.v
MlsFacts.v
RsGroup.v
RsGroupFacts.v
Client.v
ClientFacts.v
Threads.v
ThreadsFacts.v
Vault.v
VaultFacts.v
Cli.v
CliFacts.v
Delivery.v
