(* ===== verification/Prelude.v ===== *)
(** * SPEX: a verification library

    SPEX is a messaging system in Rust: clients exchange encrypted messages in
    threads, over a peer-to-peer network or over an HTTP bridge.  This library
    is a shallow embedding of its code (under src/) in Rocq with the theorems
    that say what the code does.  This file, the root, holds the documentation
    of the whole library and the definitions and tactics all files share.

    ** The program and its model

    Every file that models code names its source and keeps the source's names.
    Files ending in [Facts] hold lemmas and theorems.

    - [Prelude]: bytes, machine integers ([wrap], [wadd], saturating
      arithmetic; Rust's [u64] is [Z] with its bounds as hypotheses), [result]
      with the notation [let?], the tactic [bool_to_prop].
    - [External]: the third-party crates as classes (SHA-256, Ed25519, Argon2id,
      hex, base64, ChaCha20-Poly1305), with the documented behaviour as separate
      law classes and one concrete instance of each in [Reference].
    - [Cbor], [CborFacts]: spex-core/src/cbor.rs, the canonical encoder on
      which hashes and signatures rest.
    - [Types]: spex-core/src/types.rs, the protocol records and their maps.
    - [Core]: hash.rs, sign.rs, pow.rs, validation.rs, aead_ad.rs, mls_ext.rs
      and utils.rs of spex-core.
    - [Log]: spex-core/src/log.rs, the checkpoint log with its Merkle frontier.
    - [Transport]: spex-transport chunking.rs, transport.rs and the correlation
      identifiers of telemetry.rs.
    - [Files]: the operating system as the program sees it, and the snapshot
      file of transport.rs.
    - [Ingest]: spex-transport ingest.rs and inbox.rs.
    - [Metrics]: the counters, rates and health classes of spex-transport
      (p2p.rs, telemetry.rs).
    - [Peers], [PeersFacts]: the node of p2p.rs, its peers, their reputation,
      the persisted snapshot, startup and dialling.
    - [Swarm]: the loops of p2p.rs that drive the swarm, listen addresses and
      the timeouts that adapt to connectivity.
    - [Fetch], [FetchFacts]: the loops of p2p.rs that wait for the network.
    - [Bridge], [BridgeFacts]: spex-bridge/src/lib.rs, the HTTP service over
      SQLite.
    - [Startup]: spex-bridge/src/lib.rs and main.rs, the migration of the
      database, the pool of connections and the main program.
    - [Mls], [MlsFacts]: spex-mls/src/lib.rs, groups, commits and messages.
    - [RsGroup], [RsGroupFacts]: spex-mls/src/lib.rs, the wrappers around the
      clients and groups of mls-rs, which is the class [MlsLib] with the laws
      [MlsLibLaws] and a concrete instance.  The wrapper is an instance of the
      interface [Mls.MlsRs] that the resynchronization code is written against.
    - [Client], [ClientFacts]: spex-client/src/lib.rs, identities, contact
      cards, requests, grants, the log of keys.
    - [Threads], [ThreadsFacts]: spex-client/src/lib.rs, threads and messages.
    - [Vault], [VaultFacts]: spex-client/src/lib.rs, the encrypted state file.
    - [Cli], [CliFacts]: spex-cli/main.rs, one process of the command line.
    - [Delivery]: the routes of the bridge ([app]) and the client of inbox.rs
      against that server; the two sides joined.

    A message crosses all of this: [Threads] seals it in an envelope with the
    group secret of [Mls] and the signature of [Core], writes it with [Cbor],
    cuts it into chunks with [Transport]; the chunks travel through [Fetch] and
    [Peers], or through [Ingest] and [Bridge]; the receiver's [Threads] puts it
    together, checks and opens it.  [thread_message_delivered] composes these
    parts over the transport cache, [bridge_message_received] over the bridge,
    with other requests interleaved; [foreign_item_blocks_inbox] shows what the
    latter's assumption on the other items of the inbox is needed for.

    ** How code becomes definitions

    - A function that may fail returns [result]; one that may panic returns an
      [option] around it, [None] being the panic ([Vault] and [Cli] use [Stop]).
    - State is passed explicitly.  An operation that may fail half-way returns
      the state it leaves also with an error.
    - Concurrency: a bridge handler is a program of atomic SQL statements
      ([Bridge.prog]); [Bridge.step] interleaves the statements of different
      requests, and [BridgeFacts.prog_ok] is the logic for what survives.  The
      pool of connections is a step relation ([Startup.pool_step]) in which
      tasks step between taking the lock and opening a connection.
    - Files and crashes: a program of [Files.io] runs on a system where any call
      may fail, possibly half-way, and the process may die between and during
      calls ([Files.exec]).
    - The network and the clock: a loop of [Fetch] takes the list of events in
      the order they arrive with the clock readings around them; a theorem
      about every such list is about every behaviour of the network.
    - Randomness and time are arguments, one per call of the source.
    - Integers keep their width: sums of counters and scores wrap as in a
      release build; where a theorem needs the absence of overflow, the bound
      is a hypothesis ([scores_bounded] shows it for seventy million reports).
    - Fuel: few recursions are not structural.  [Log.append_loop] runs at most
      one step per bit of the 64-bit entry count, [Threads.utf8_valid] and
      [Vault.strip_all] consume a byte per step and take the length as fuel;
      [Cbor.decode_item] needs the depth of the value, and the theorems about it
      assume that much; the paging loop of [Ingest] needs one page per stored
      item, which [inbox_scan_complete] assumes and [Delivery.scan_inbox] gives, so
      that the theorems show the loop returns.

    ** What the theorems show

    - Encodings: canonical bytes determine values, are read back, and do not
      depend on map order; envelopes, logs, snapshots and the state file make
      round trips.
    - Integrity: equal Merkle roots mean equal logs, a manifest determines its
      payload, a fetch returns the published payload or an error, an opened
      envelope whose extensions keep off the field numbers was signed by a member
      over all its fields; each up to collisions of SHA-256 on the
      strings concerned.
    - Authorization: an accepted request, card or slot passed every check; work
      done for one request does not carry over to another.
    - Types: what is decoded from any item the CBOR parser hands over has its
      fields at their widths.
    - Invariants over all executions: bridge tables and the connection pool
      under any interleaving, groups under any sequence of operations, the
      configuration of an mls-rs group in the members that only use the wrapper's
      commits, scores under any reports,
      counters under any recovery.
    - Refinement and equivalence: the incremental Merkle root is the rebuilt
      one; log comparison decides the prefix order; a client's thread follows
      the group it stands for; a session of processes on the encrypted state
      file does what the same commands do on a state in memory.
    - Termination and liveness: fetching, announcing, resynchronization and
      paging end; delivered chunks are recovered, stored items are paged out, and
      messages published over the bridge are received.
    - Crashes: a snapshot write leaves the old or the new snapshot; a startup
      of the bridge that fails half-way is completed by the next one.
    - Gaps, stated as theorems about the code as it is: repeated chunks cannot
      be recovered, a wrong record ends the query of its chunk, a removed member
      can still derive the next secret, a proposal that is refused as a commit is
      committed later, sending resets the epoch of a thread,
      forged requests use up another user's limit, one item that is no envelope
      blocks an inbox, a member of a thread forges messages of another, an interrupted save loses the
      client's state, a poll over the bridge reads another inbox than messages
      are published to, and others in the files named above.

    ** Not modelled

    Argument parsing (clap) and what axum does before a route (its requests
    carry decoded paths, bodies and queries); the construction of the
    libp2p swarm, which only configures that library, and the jitter of retry
    delays, which influences when events arrive; accessors that return a field;
    the derived serde implementations, which are parameters with a round-trip
    law; log output; fuzz targets and benchmarks. *)
From Stdlib Require Import ZArith Lia Ascii Strings.Byte.
From stdpp Require Import base list gmap strings sorting numbers.

#[local] Open Scope Z_scope.

(** ** Bytes

    A Rust [u8] is Stdlib's [byte]; a [Vec<u8>] or [&[u8]] is a list of them. *)

Abbreviation bytes := (list byte).

Definition byte_to_Z (b : byte) : Z := Z.of_N (Byte.to_N b).

Definition byte_of_Z (z : Z) : byte :=
  default x00 (Byte.of_N (Z.to_N (z mod 256))).

#[global] Arguments byte_to_Z : simpl never.
#[global] Arguments byte_of_Z : simpl never.

#[global] Instance byte_eq_decision : EqDecision byte := Byte.byte_eq_dec.

#[global] Instance byte_countable : Countable byte :=
  inj_countable Byte.to_N Byte.of_N Byte.of_to_N.

(** [str.as_bytes()]. *)
Definition as_bytes (s : string) : bytes := String.list_byte_of_string s.

(** Lexicographic [Ord] of byte slices. *)
Fixpoint bytes_cmp (a b : bytes) : comparison :=
  match a, b with
  | [], [] => Eq
  | [], _ :: _ => Lt
  | _ :: _, [] => Gt
  | x :: a', y :: b' =>
      match byte_to_Z x ?= byte_to_Z y with
      | Eq => bytes_cmp a' b'
      | c => c
      end
  end.

Definition bytes_leb (a b : bytes) : bool :=
  match bytes_cmp a b with Gt => false | _ => true end.

(** ** Fixed-width integers

    An integer of width [w] is a [Z]; the operations write out what the Rust
    operator does at the limits of the width. *)

Definition umax (w : Z) : Z := 2 ^ w - 1.
Definition fits (w z : Z) : Prop := 0 <= z < 2 ^ w.
Definition fits_b (w z : Z) : bool := (0 <=? z) && (z <? 2 ^ w).

(** [x as uW], and the operators in the wrapping build. *)
Definition wrap (w z : Z) : Z := z mod 2 ^ w.
Definition wrap_i (w z : Z) : Z := (z + 2 ^ (w - 1)) mod 2 ^ w - 2 ^ (w - 1).
Definition wadd (w a b : Z) : Z := wrap w (a + b).

Definition saturating_add (w a b : Z) : Z := Z.min (a + b) (umax w).
Definition saturating_sub (a b : Z) : Z := Z.max (a - b) 0.
Definition saturating_mul (w a b : Z) : Z := Z.min (a * b) (umax w).
Definition checked_add (w a b : Z) : option Z :=
  if a + b <=? umax w then Some (a + b) else None.

(** [len()] of a vector. *)
Definition zlen {A} (l : list A) : Z := Z.of_nat (length l).

(** [to_be_bytes] of an integer of [n] bytes, and [from_be_bytes]. *)
Fixpoint to_be_bytes (n : nat) (v : Z) : bytes :=
  match n with
  | O => []
  | S k => byte_of_Z (Z.shiftr v (8 * Z.of_nat k)) :: to_be_bytes k v
  end.

Definition from_be_bytes (bs : bytes) : Z :=
  fold_left (λ acc b, acc * 256 + byte_to_Z b) bs 0.

(** ** Results

    Rust's [Result<A, E>]. *)

Inductive result (E A : Type) : Type :=
| Ok (a : A)
| Err (e : E).
Arguments Ok {E A} a.
Arguments Err {E A} e.

Declare Scope spex_scope.
Delimit Scope spex_scope with spex.
#[global] Open Scope spex_scope.

(** The [?] operator: bind with early return of the error. *)
Notation "'let?' x ':=' e 'in' k" :=
  (match e with Ok x => k | Err er => Err er end)
  (at level 10, x pattern, e at level 100, k at level 200,
   format "'let?'  x  ':='  e  'in' '//' k") : spex_scope.

(** The same on a computation that can also panic. *)
Notation "'let!?' x ':=' e 'in' k" :=
  (match e with None => None | Some (Err er) => Some (Err er) | Some (Ok x) => k end)
  (at level 10, x pattern, e at level 100, k at level 200,
   format "'let!?'  x  ':='  e  'in' '//' k") : spex_scope.

Definition map_err {E F A} (f : E → F) (r : result E A) : result F A :=
  match r with Ok a => Ok a | Err e => Err (f e) end.

Definition ok_or {E A} (o : option A) (e : E) : result E A :=
  match o with Some a => Ok a | None => Err e end.

Definition result_ok {E A} (r : result E A) : option A :=
  match r with Ok a => Some a | Err _ => None end.

Definition is_ok {E A} (r : result E A) : bool :=
  match r with Ok _ => true | Err _ => false end.

(** [iter().map(f).collect::<Result<Vec<_>, _>>()] and the [for] loops with [?]. *)
Fixpoint try_map {E A B} (f : A → result E B) (l : list A) : result E (list B) :=
  match l with
  | [] => Ok []
  | x :: l' =>
      let? y := f x in
      let? ys := try_map f l' in
      Ok (y :: ys)
  end.

Fixpoint try_fold {E A S} (f : S → A → result E S) (s : S) (l : list A) : result E S :=
  match l with
  | [] => Ok s
  | x :: l' =>
      let? s' := f s x in
      try_fold f s' l'
  end.

(** ** Stable sorting

    [slice::sort_by] is a stable sort: the insertion sort below keeps elements
    that compare equal in their original order. *)

Fixpoint insert_by {A} (leb : A → A → bool) (x : A) (l : list A) : list A :=
  match l with
  | [] => [x]
  | y :: l' => if leb x y then x :: l else y :: insert_by leb x l'
  end.

Fixpoint sort_by {A} (leb : A → A → bool) (l : list A) : list A :=
  match l with
  | [] => []
  | x :: l' => insert_by leb x (sort_by leb l')
  end.

Fixpoint dedup {A} `{EqDecision A} (l : list A) : list A :=
  match l with
  | [] => []
  | x :: l' =>
      match l' with
      | y :: _ => if decide (x = y) then dedup l' else x :: dedup l'
      | [] => [x]
      end
  end.

(** ** Ordered maps

    [BTreeMap<u64, V>] as its ascending list of entries. *)

Fixpoint btree_insert {V} (k : Z) (v : V) (m : list (Z * V)) : list (Z * V) :=
  match m with
  | [] => [(k, v)]
  | (k', v') :: m' =>
      if k <? k' then (k, v) :: m
      else if k =? k' then (k, v) :: m'
      else (k', v') :: btree_insert k v m'
  end.

Definition btree_insert_all {V} (m ext : list (Z * V)) : list (Z * V) :=
  fold_left (λ acc kv, btree_insert kv.1 kv.2 acc) ext m.

Fixpoint btree_get {V} (k : Z) (m : list (Z * V)) : option V :=
  match m with
  | [] => None
  | (k', v') :: m' => if k =? k' then Some v' else btree_get k m'
  end.

(** * Lemmas *)

(** ** Automation *)

Create HintDb spex discriminated.

(** Splits a hypothesis that says a chain of [let?] returned, one binder at a
    time, and drops the branches that returned an error. *)
Ltac inv_result :=
  repeat match goal with
  | H : match ?e with Ok _ => _ | Err _ => _ end = _ |- _ =>
      let E := fresh "E" in destruct e eqn:E; try discriminate H
  | H : Ok _ = Ok _ |- _ => injection H; clear H; intros; subst
  | H : Err _ = Err _ |- _ => injection H; clear H; intros; subst
  | H : map_err _ ?e = Ok _ |- _ =>
      let E := fresh "E" in destruct e eqn:E; simpl in H; try discriminate H
  | H : ok_or ?e _ = Ok _ |- _ =>
      let E := fresh "E" in destruct e eqn:E; simpl in H; try discriminate H
  end.

(** Turns boolean comparisons on [Z] and [nat] into propositions. *)
Ltac bool_to_prop :=
  repeat match goal with
  | H : (_ && _) = true |- _ => apply andb_true_iff in H; destruct H
  | H : (_ || _) = false |- _ => apply orb_false_iff in H; destruct H
  | H : (_ <=? _) = true |- _ => apply Z.leb_le in H
  | H : (_ <=? _) = false |- _ => apply Z.leb_gt in H
  | H : (_ <? _) = true |- _ => apply Z.ltb_lt in H
  | H : (_ <? _) = false |- _ => apply Z.ltb_ge in H
  | H : (_ =? _) = true |- _ => apply Z.eqb_eq in H
  | H : (_ =? _) = false |- _ => apply Z.eqb_neq in H
  end.

(** Decides that a closed number fits its width. *)
Ltac fits_eval := split; vm_compute; [discriminate | reflexivity].

(** ** Bytes *)

Lemma byte_to_Z_bounds b : 0 <= byte_to_Z b < 256.
Proof. unfold byte_to_Z. pose proof (Byte.to_N_bounded b). lia. Qed.

Lemma byte_to_of_Z z : byte_to_Z (byte_of_Z z) = z mod 256.
Proof.
  unfold byte_to_Z, byte_of_Z.
  pose proof (Z.mod_pos_bound z 256 ltac:(lia)) as Hb.
  destruct (Byte.of_N (Z.to_N (z mod 256))) as [b|] eqn:E; simpl.
  - apply Byte.to_of_N in E. rewrite E. lia.
  - apply Byte.of_N_None_iff in E. lia.
Qed.

Lemma byte_of_to_Z b : byte_of_Z (byte_to_Z b) = b.
Proof.
  unfold byte_of_Z, byte_to_Z. pose proof (Byte.to_N_bounded b).
  rewrite Z.mod_small by lia. rewrite N2Z.id, Byte.of_to_N. done.
Qed.

Lemma byte_to_Z_inj b1 b2 : byte_to_Z b1 = byte_to_Z b2 → b1 = b2.
Proof. intros H. rewrite <-(byte_of_to_Z b1), H. apply byte_of_to_Z. Qed.

Lemma byte_of_Z_inj_small a b :
  0 <= a < 256 → 0 <= b < 256 → byte_of_Z a = byte_of_Z b → a = b.
Proof.
  intros Ha Hb H. apply (f_equal byte_to_Z) in H.
  rewrite !byte_to_of_Z, !Z.mod_small in H by lia. done.
Qed.

Lemma as_bytes_inj s1 s2 : as_bytes s1 = as_bytes s2 → s1 = s2.
Proof.
  unfold as_bytes. intros H.
  rewrite <-(String.string_of_list_byte_of_string s1), H.
  apply String.string_of_list_byte_of_string.
Qed.

#[export] Hint Resolve byte_to_Z_bounds : spex.

(** ** Big-endian integers *)

Lemma length_to_be_bytes n v : length (to_be_bytes n v) = n.
Proof. induction n as [|n IH]; simpl; [done | by rewrite IH]. Qed.

Lemma from_be_bytes_acc bs acc :
  fold_left (λ acc b, acc * 256 + byte_to_Z b) bs acc
  = acc * 2 ^ (8 * zlen bs) + from_be_bytes bs.
Proof.
  unfold from_be_bytes. revert acc. induction bs as [|b bs IH]; intros acc; cbn [fold_left].
  - unfold zlen; simpl. lia.
  - rewrite IH, (IH (0 * 256 + byte_to_Z b)).
    replace (8 * zlen (b :: bs)) with (8 + 8 * zlen bs) by (unfold zlen; simpl; lia).
    rewrite Z.pow_add_r by (unfold zlen; lia). change (2 ^ 8) with 256. lia.
Qed.

Lemma from_be_bytes_cons b bs :
  from_be_bytes (b :: bs) = byte_to_Z b * 2 ^ (8 * zlen bs) + from_be_bytes bs.
Proof.
  unfold from_be_bytes at 1. cbn [fold_left]. rewrite from_be_bytes_acc.
  by rewrite Z.mul_0_l, Z.add_0_l.
Qed.

Lemma zlen_to_be_bytes n v : zlen (to_be_bytes n v) = Z.of_nat n.
Proof. unfold zlen. by rewrite length_to_be_bytes. Qed.

Lemma from_to_be_bytes n v :
  from_be_bytes (to_be_bytes n v) = v mod 2 ^ (8 * Z.of_nat n).
Proof.
  induction n as [|n IH]; [simpl; by rewrite Z.mod_1_r |].
  simpl to_be_bytes. rewrite from_be_bytes_cons, IH, byte_to_of_Z, zlen_to_be_bytes.
  rewrite Z.shiftr_div_pow2 by lia.
  replace (8 * Z.of_nat (S n)) with (8 * Z.of_nat n + 8) by lia.
  rewrite Z.pow_add_r by lia. change (2 ^ 8) with 256.
  rewrite Z.rem_mul_r by lia. lia.
Qed.

Lemma from_to_be_bytes_fits n v :
  fits (8 * Z.of_nat n) v → from_be_bytes (to_be_bytes n v) = v.
Proof. intros [??]. rewrite from_to_be_bytes. by apply Z.mod_small. Qed.

Lemma to_be_bytes_inj n v1 v2 :
  fits (8 * Z.of_nat n) v1 → fits (8 * Z.of_nat n) v2 →
  to_be_bytes n v1 = to_be_bytes n v2 → v1 = v2.
Proof.
  intros H1 H2 H. apply (f_equal from_be_bytes) in H.
  by rewrite !from_to_be_bytes_fits in H.
Qed.

Lemma from_be_bytes_bounds bs : 0 <= from_be_bytes bs < 2 ^ (8 * zlen bs).
Proof.
  induction bs as [|b bs IH]; [done|].
  rewrite from_be_bytes_cons. pose proof (byte_to_Z_bounds b).
  replace (8 * zlen (b :: bs)) with (8 + 8 * zlen bs) by (unfold zlen; simpl; lia).
  rewrite Z.pow_add_r by (unfold zlen; lia). change (2 ^ 8) with 256. nia.
Qed.

Lemma from_be_bytes_lt bs : from_be_bytes bs < 2 ^ (8 * Z.of_nat (length bs)).
Proof. apply from_be_bytes_bounds. Qed.

Lemma app_inj_len {A} (l1 l2 k1 k2 : list A) :
  length l1 = length l2 → l1 ++ k1 = l2 ++ k2 → l1 = l2 ∧ k1 = k2.
Proof. intros Hl H. by apply app_inj_1 in H. Qed.

(** ** Stable sorting *)

Section sorting.
Context {A : Type} (leb : A → A → bool).

Lemma insert_by_Permutation x l : insert_by leb x l ≡ₚ x :: l.
Proof.
  induction l as [|y l IH]; simpl; [done|].
  destruct (leb x y); [done|]. rewrite IH. apply Permutation_swap.
Qed.

Lemma sort_by_Permutation l : sort_by leb l ≡ₚ l.
Proof.
  induction l as [|x l IH]; simpl; [done|].
  by rewrite insert_by_Permutation, IH.
Qed.

Lemma length_sort_by l : length (sort_by leb l) = length l.
Proof. by rewrite sort_by_Permutation. Qed.

(** A stable sort leaves a sorted list as it is. *)
Lemma sort_by_sorted_id l :
  StronglySorted (λ x y, leb x y = true) l → sort_by leb l = l.
Proof.
  induction 1 as [|x l Hs IH Hx]; simpl; [done|]. rewrite IH.
  destruct l as [|y l]; simpl; [done|].
  inversion Hx as [|? ? Hxy]; subst. by rewrite Hxy.
Qed.

Context (leb_total : ∀ x y, leb x y = true ∨ leb y x = true).
Context (leb_trans : ∀ x y z, leb x y = true → leb y z = true → leb x z = true).

Lemma insert_by_sorted x l :
  StronglySorted (λ x y, leb x y = true) l →
  StronglySorted (λ x y, leb x y = true) (insert_by leb x l).
Proof.
  induction 1 as [|y l Hs IH Hy]; simpl; [repeat constructor|].
  destruct (leb x y) eqn:E.
  - constructor; [by constructor|]. constructor; [done|].
    eapply List.Forall_impl; [|exact Hy]. eauto.
  - constructor; [done|]. rewrite insert_by_Permutation. constructor; [|done].
    destruct (leb_total x y); congruence.
Qed.

Lemma sort_by_sorted l : StronglySorted (λ x y, leb x y = true) (sort_by leb l).
Proof.
  induction l as [|x l IH]; simpl; [constructor | by apply insert_by_sorted].
Qed.

Lemma sort_by_idem l : sort_by leb (sort_by leb l) = sort_by leb l.
Proof. apply sort_by_sorted_id, sort_by_sorted. Qed.

(** Two sorted permutations agree when only equal elements tie. *)
Lemma sorted_Permutation_unique l1 l2 :
  (∀ x y, x ∈ l1 → y ∈ l1 → leb x y = true → leb y x = true → x = y) →
  StronglySorted (λ x y, leb x y = true) l1 →
  StronglySorted (λ x y, leb x y = true) l2 →
  l1 ≡ₚ l2 → l1 = l2.
Proof.
  intros Hanti Hs1. revert l2.
  induction Hs1 as [|x l1 Hs1 IH Hx]; intros l2 Hs2 Hp.
  { by apply Permutation_nil_l in Hp. }
  destruct Hs2 as [|y l2 Hs2 Hy]; [by apply Permutation_nil_r in Hp|].
  assert (x = y) as ->.
  { assert (y ∈ x :: l1) as Hin1 by (rewrite Hp; left).
    assert (x ∈ y :: l2) as Hin2 by (rewrite <-Hp; left).
    apply elem_of_cons in Hin1 as [?|Hin1]; [done|].
    apply elem_of_cons in Hin2 as [?|Hin2]; [done|].
    rewrite List.Forall_forall in Hx, Hy.
    apply Hanti; [left|by right| |].
    - by apply Hx, list_elem_of_In.
    - by apply Hy, list_elem_of_In. }
  f_equal. apply IH; [|done|by apply Permutation_cons_inv in Hp].
  intros a b Ha Hb. apply Hanti; by right.
Qed.

End sorting.

(** ** Ordered maps *)

Definition btree_ok {V} (m : list (Z * V)) : Prop :=
  StronglySorted (λ a b, a.1 < b.1) m.

Section btree.
Context {V : Type}.
Implicit Types (m : list (Z * V)) (k : Z) (v : V).

Lemma btree_insert_keys k v m x :
  x ∈ btree_insert k v m → x = (k, v) ∨ x ∈ m.
Proof.
  induction m as [|[k' v'] m IH]; simpl.
  - rewrite list_elem_of_singleton. auto.
  - destruct (k <? k'); [rewrite elem_of_cons; tauto|].
    destruct (k =? k'); rewrite !elem_of_cons; tauto.
Qed.

Lemma btree_insert_ok k v m : btree_ok m → btree_ok (btree_insert k v m).
Proof.
  unfold btree_ok. induction 1 as [|[k' v'] m Hs IH Hm]; simpl; [repeat constructor|].
  destruct (k <? k') eqn:E1; [|destruct (k =? k') eqn:E2]; bool_to_prop.
  - constructor; [by constructor|]. constructor; [done|].
    eapply List.Forall_impl; [|exact Hm]. simpl. lia.
  - subst. by constructor.
  - constructor; [done|]. rewrite List.Forall_forall in Hm |- *.
    intros x [->|Hx]%list_elem_of_In%btree_insert_keys.
    + simpl. lia.
    + by apply Hm, list_elem_of_In.
Qed.

Lemma btree_get_insert k k' v m :
  btree_get k (btree_insert k' v m) = if k =? k' then Some v else btree_get k m.
Proof.
  induction m as [|[k2 v2] m IH]; simpl; [done|].
  destruct (k' <? k2) eqn:E1; simpl; [done|].
  destruct (k' =? k2) eqn:E2; simpl; bool_to_prop; subst.
  - by destruct (k =? k2).
  - rewrite IH. destruct (k =? k2) eqn:E3; bool_to_prop; [|done].
    subst. destruct (k2 =? k') eqn:E4; bool_to_prop; [congruence|done].
Qed.

Lemma btree_get_lt k m :
  Forall (λ a, k < a.1) m → btree_get k m = None.
Proof.
  induction 1 as [|[k' v'] m Hk Hm IH]; simpl in *; [done|].
  destruct (k =? k') eqn:E; bool_to_prop; [lia|done].
Qed.

Lemma btree_get_elem k v m : btree_ok m → (k, v) ∈ m ↔ btree_get k m = Some v.
Proof.
  induction 1 as [|[k' v'] m Hs IH Hm]; simpl.
  { split; [intros H; by apply not_elem_of_nil in H | done]. }
  rewrite elem_of_cons, IH. destruct (k =? k') eqn:E; bool_to_prop; subst.
  - rewrite (btree_get_lt k' m Hm). split; [intros [?|?]; congruence | left; congruence].
  - split; [intros [?|?]; congruence | auto].
Qed.

Lemma btree_ext m1 m2 :
  btree_ok m1 → btree_ok m2 → (∀ k, btree_get k m1 = btree_get k m2) → m1 = m2.
Proof.
  intros Hs1. revert m2. induction Hs1 as [|[k1 v1] m1 Hs1 IH Hm1]; intros m2 Hs2 Hg.
  { destruct Hs2 as [|[k2 v2] m2 _ _]; [done|].
    specialize (Hg k2). simpl in Hg. by rewrite Z.eqb_refl in Hg. }
  destruct Hs2 as [|[k2 v2] m2 Hs2 Hm2].
  { specialize (Hg k1). simpl in Hg. by rewrite Z.eqb_refl in Hg. }
  assert (k1 = k2) as ->.
  { pose proof (Hg k1) as H1. pose proof (Hg k2) as H2. simpl in H1, H2.
    rewrite Z.eqb_refl in H1, H2.
    destruct (k1 =? k2) eqn:E12; bool_to_prop; [done|].
    destruct (k2 =? k1) eqn:E21; bool_to_prop; [done|].
    destruct (Z.lt_trichotomy k1 k2) as [Hlt|[?|Hlt]]; [|done|].
    - rewrite btree_get_lt in H1; [done|]. eapply List.Forall_impl; [|exact Hm2]. simpl; lia.
    - rewrite btree_get_lt in H2; [done|]. eapply List.Forall_impl; [|exact Hm1]. simpl; lia. }
  assert (v1 = v2) as ->.
  { specialize (Hg k2). simpl in Hg. rewrite Z.eqb_refl in Hg. congruence. }
  f_equal. apply IH; [done|]. intros k. specialize (Hg k). simpl in Hg.
  destruct (k =? k2) eqn:E; [|done]. bool_to_prop; subst.
  by rewrite !btree_get_lt.
Qed.

Lemma btree_insert_all_ok m ext : btree_ok m → btree_ok (btree_insert_all m ext).
Proof.
  unfold btree_insert_all. revert m. induction ext as [|[k v] ext IH]; intros m Hm; simpl.
  - done.
  - by apply IH, btree_insert_ok.
Qed.

Lemma btree_get_insert_all k m ext :
  btree_ok ext →
  btree_get k (btree_insert_all m ext)
  = match btree_get k ext with Some v => Some v | None => btree_get k m end.
Proof.
  unfold btree_insert_all. intros Hs. revert m.
  induction Hs as [|[k' v'] ext Hs IH Hx]; intros m; simpl; [done|].
  rewrite IH, btree_get_insert. destruct (k =? k') eqn:E; [|done].
  bool_to_prop; subst. by rewrite btree_get_lt.
Qed.

End btree.

#[export] Hint Resolve btree_insert_ok btree_insert_all_ok : spex.
#[export] Hint Extern 1 (btree_ok []) => constructor : spex.

(** ** Fallible loops *)

Lemma try_map_Ok {E A B} (f : A → result E B) l ys :
  try_map f l = Ok ys ↔ Forall2 (λ x y, f x = Ok y) l ys.
Proof.
  revert ys. induction l as [|x l IH]; intros ys; simpl.
  - split; [intros [= <-]; constructor | by inversion 1].
  - split.
    + intros H. destruct (f x) eqn:Ex; [|done]. destruct (try_map f l) eqn:El; [|done].
      injection H as <-. constructor; [done|]. by apply IH.
    + inversion 1 as [|? y ? ys' Hx Hl]; subst. rewrite Hx.
      by rewrite (proj2 (IH ys') Hl).
Qed.

Lemma try_fold_app {E A S} (f : S → A → result E S) s l1 l2 :
  try_fold f s (l1 ++ l2)
  = match try_fold f s l1 with Ok s' => try_fold f s' l2 | Err e => Err e end.
Proof.
  revert s. induction l1 as [|x l1 IH]; intros s; simpl; [done|].
  destruct (f s x); [apply IH | done].
Qed.
