(* ===== verification/External.v ===== *)
(** * Third-party code the program calls

    The cryptographic and encoding crates (sha2, ed25519-dalek, argon2, hex,
    base64, chacha20poly1305) are not part of the repository.  Each is a class of operations,
    an argument of every definition that uses it, and a separate class of the
    documented behaviour a theorem may rely on.  The error values of these
    crates are known to the program only through [to_string()], so they are
    strings here.

    Module [Reference] holds one concrete implementation of each class; it
    shows that the stated behaviour is satisfiable and lets the examples run. *)
From Stdlib Require Import ZArith Lia Ascii Strings.Byte.
From stdpp Require Import base list gmap strings numbers.
From S2P Require Import Prelude.

#[local] Open Scope Z_scope.

(** [spex_core::error::SpexError]. *)
Inductive SpexError : Type :=
| InvalidLength (what : string)
| SigVerifyFailed
| Argon2Error (e : string)
| Argon2PasswordHash (e : string)
| HexError (e : string)
| CborError (e : string)
| CborIntegerOutOfRange
| CborNotCanonical
| InvalidInput (e : string).

#[global] Instance SpexError_eq_dec : EqDecision SpexError.
Proof. solve_decision. Defined.

(** The [#[error(...)]] display strings. *)
Definition spex_error_to_string (e : SpexError) : string :=
  match e with
  | InvalidLength s => "invalid length: " +:+ s
  | SigVerifyFailed => "signature verification failed"
  | Argon2Error s => "argon2 error: " +:+ s
  | Argon2PasswordHash s => "argon2 password hash error: " +:+ s
  | HexError s => "hex decode failed: " +:+ s
  | CborError s => "CBOR error: " +:+ s
  | CborIntegerOutOfRange => "CBOR integer out of range for canonical encoding"
  | CborNotCanonical => "CBOR is not CTAP2 canonical"
  | InvalidInput s => "invalid input: " +:+ s
  end.

(** ** sha2 *)

Class Sha256 := sha256 : bytes → bytes.

Class Sha256Laws `{Sha256} : Prop :=
  sha256_length : ∀ d, length (sha256 d) = 32%nat.

(** No two distinct members of [I] have the same digest. *)
Definition collision_free `{Sha256} (I : list bytes) : Prop :=
  ∀ x y, x ∈ I → y ∈ I → sha256 x = sha256 y → x = y.

(** ** ed25519-dalek

    A signing key is its 32-byte seed, a verifying key its 32-byte encoding,
    a signature its 64 bytes. *)

Class Ed25519 := {
  ed_verifying_key : bytes → bytes;
  ed_sign : bytes → bytes → bytes;
  (** [VerifyingKey::from_bytes] accepts the encoding *)
  ed_key_from_bytes : bytes → result string unit;
  (** [verify_strict] of a message and signature under a key *)
  ed_verify_strict : bytes → bytes → bytes → bool;
}.

Class Ed25519Laws `{Ed25519} : Prop := {
  ed_verifying_key_length : ∀ sk, length sk = 32%nat → length (ed_verifying_key sk) = 32%nat;
  ed_sign_length : ∀ sk m, length sk = 32%nat → length (ed_sign sk m) = 64%nat;
  ed_key_valid : ∀ sk, length sk = 32%nat → ed_key_from_bytes (ed_verifying_key sk) = Ok tt;
  ed_sign_verifies : ∀ sk m, length sk = 32%nat →
    ed_verify_strict (ed_verifying_key sk) m (ed_sign sk m) = true;
}.

(** ** argon2 (Argon2id, version 0x13) *)

Class Argon2 := {
  (** [Params::new(memory, iterations, parallelism, Some(output_len))] *)
  argon2_params_new : Z → Z → Z → Z → result string unit;
  (** [hash_password_into(password, salt, out)] under those parameters *)
  argon2_hash : Z → Z → Z → Z → bytes → bytes → result string bytes;
}.

Class Argon2Laws `{Argon2} : Prop :=
  argon2_hash_length : ∀ m t p n pwd salt out,
    argon2_hash m t p n pwd salt = Ok out → zlen out = n.

(** ** hex *)

Class Hex := {
  hex_encode : bytes → string;
  hex_decode : string → result string bytes;
}.

Class HexLaws `{Hex} : Prop :=
  hex_decode_encode : ∀ b, hex_decode (hex_encode b) = Ok b.

(** ASCII upper-casing of the letters a to f. *)
Definition upper_hex_digit (c : ascii) : ascii :=
  let n := N_of_ascii c in
  if (N.leb 97 n && N.leb n 102)%N then ascii_of_N (n - 32) else c.

Fixpoint upper_hex (s : string) : string :=
  match s with
  | EmptyString => EmptyString
  | String c s' => String (upper_hex_digit c) (upper_hex s')
  end.

(** [hex::decode] accepts upper and lower case digits. *)
Class HexCaseLaws `{Hex} : Prop :=
  hex_decode_upper : ∀ s b, hex_decode s = Ok b → hex_decode (upper_hex s) = Ok b.

(** ** base64 (the STANDARD engine) *)

Class Base64 := {
  b64_encode : bytes → string;
  b64_decode : string → result string bytes;
}.

Class Base64Laws `{Base64} : Prop :=
  b64_decode_encode : ∀ b, b64_decode (b64_encode b) = Ok b.

(** ** chacha20poly1305 *)

Class Aead := {
  (** [encrypt(key, nonce, aad, plaintext)] *)
  aead_encrypt : bytes → bytes → bytes → bytes → result unit bytes;
  aead_decrypt : bytes → bytes → bytes → bytes → result unit bytes;
}.

Class AeadLaws `{Aead} : Prop :=
  aead_decrypt_encrypt : ∀ key nonce aad pt ct,
    aead_encrypt key nonce aad pt = Ok ct → aead_decrypt key nonce aad ct = Ok pt.

Section derived.
Context `{Hx : Hex} `{HxL : !HexLaws} `{B6 : Base64} `{B6L : !Base64Laws}.

Lemma hex_encode_inj a b : hex_encode a = hex_encode b → a = b.
Proof.
  intros H. apply (f_equal hex_decode) in H. rewrite !hex_decode_encode in H. congruence.
Qed.

Lemma b64_encode_inj a b : b64_encode a = b64_encode b → a = b.
Proof.
  intros H. apply (f_equal b64_decode) in H. rewrite !b64_decode_encode in H. congruence.
Qed.

End derived.

(** ** One concrete implementation of every class *)

Module Reference.

(** A 64-bit polynomial checksum, padded to 256 bits, in place of SHA-256. *)
Definition digest (d : bytes) : bytes :=
  replicate 24 x00 ++
  to_be_bytes 8 (fold_left (λ acc b, Z.land (acc * 257 + byte_to_Z b + 1) (2 ^ 64 - 1)) d 0).

Lemma length_digest d : length (digest d) = 32%nat.
Proof. unfold digest. by rewrite length_app, length_to_be_bytes. Qed.

Definition sign (sk m : bytes) : bytes := digest (sk ++ m) ++ digest (m ++ sk).

Definition verify (vk m sg : bytes) : bool := bool_decide (sg = sign vk m).

Definition kdf (m t p n : Z) (pwd salt : bytes) : result string bytes :=
  if n <? 0 then Err "OutputTooShort"
  else Ok (to_be_bytes (Z.to_nat n)
             (from_be_bytes (digest (pwd ++ salt ++ to_be_bytes 8 (m + t + p))))).

Definition hex_digit (n : Z) : ascii :=
  ascii_of_N (Z.to_N (if n <? 10 then 48 + n else 87 + n)).

Definition hex_value (c : ascii) : option Z :=
  let n := Z.of_N (N_of_ascii c) in
  if (48 <=? n) && (n <=? 57) then Some (n - 48)
  else if (97 <=? n) && (n <=? 102) then Some (n - 87)
  else if (65 <=? n) && (n <=? 70) then Some (n - 55)
  else None.

Fixpoint hex_enc (b : bytes) : string :=
  match b with
  | [] => EmptyString
  | x :: b' =>
      String (hex_digit (byte_to_Z x / 16))
        (String (hex_digit (byte_to_Z x mod 16)) (hex_enc b'))
  end.

Fixpoint hex_dec (s : string) : result string bytes :=
  match s with
  | EmptyString => Ok []
  | String _ EmptyString => Err "Odd number of digits"
  | String h (String l s') =>
      match hex_value h, hex_value l with
      | Some a, Some b => let? r := hex_dec s' in Ok (byte_of_Z (a * 16 + b) :: r)
      | _, _ => Err "Invalid character"
      end
  end.

Definition seal (key nonce aad pt : bytes) : result unit bytes :=
  Ok (digest (key ++ nonce ++ aad ++ pt) ++ pt).

Definition open (key nonce aad ct : bytes) : result unit bytes :=
  let pt := drop 32 ct in
  if decide (take 32 ct = digest (key ++ nonce ++ aad ++ pt)) then Ok pt else Err tt.

#[export] Instance sha256_ref : Sha256 := digest.
#[export] Instance ed25519_ref : Ed25519 :=
  {| ed_verifying_key sk := sk; ed_sign := sign;
     ed_key_from_bytes _ := Ok tt; ed_verify_strict := verify |}.
#[export] Instance argon2_ref : Argon2 :=
  {| argon2_params_new _ _ _ _ := Ok tt; argon2_hash := kdf |}.
#[export] Instance hex_ref : Hex := {| hex_encode := hex_enc; hex_decode := hex_dec |}.
#[export] Instance base64_ref : Base64 := {| b64_encode := hex_enc; b64_decode := hex_dec |}.

#[export] Instance aead_ref : Aead := {| aead_encrypt := seal; aead_decrypt := open |}.

#[export] Instance aead_ref_laws : AeadLaws.
Proof.
  intros key nonce aad pt ct. cbn [aead_encrypt aead_decrypt aead_ref]. unfold seal, open.
  intros Hs. assert (ct = digest (key ++ nonce ++ aad ++ pt) ++ pt) as -> by congruence.
  rewrite take_app_length', drop_app_length' by (symmetry; apply length_digest).
  by rewrite decide_True.
Qed.

#[export] Instance sha256_ref_laws : Sha256Laws.
Proof. exact length_digest. Qed.

#[export] Instance ed25519_ref_laws : Ed25519Laws.
Proof.
  split; cbn [ed_verifying_key ed_sign ed_key_from_bytes ed_verify_strict ed25519_ref].
  - done.
  - intros sk m _. unfold sign. by rewrite length_app, !length_digest.
  - done.
  - intros sk m _. unfold verify. by apply bool_decide_eq_true.
Qed.

#[export] Instance argon2_ref_laws : Argon2Laws.
Proof.
  intros m t p n pwd salt out. simpl. unfold kdf.
  destruct (n <? 0) eqn:E; [done|]. bool_to_prop. intros [= <-].
  rewrite zlen_to_be_bytes. lia.
Qed.

Lemma hex_dec_enc b : hex_dec (hex_enc b) = Ok b.
Proof.
  induction b as [|x b IH]; [done|]. simpl. rewrite IH.
  destruct x; reflexivity.
Qed.

Lemma hex_value_upper c : hex_value (upper_hex_digit c) = hex_value c.
Proof. destruct c as [[] [] [] [] [] [] [] []]; reflexivity. Qed.

Lemma hex_dec_upper n s : (String.length s <= n)%nat → hex_dec (upper_hex s) = hex_dec s.
Proof.
  revert s. induction n as [|n IH]; intros [|h [|l s]] Hl; simpl in *; try done; try lia.
  rewrite !hex_value_upper, IH by lia. done.
Qed.

#[export] Instance hex_ref_laws : HexLaws := hex_dec_enc.
#[export] Instance base64_ref_laws : Base64Laws := hex_dec_enc.
#[export] Instance hex_ref_case_laws : HexCaseLaws.
Proof. intros s b H. simpl. by rewrite (hex_dec_upper (String.length s)). Qed.

End Reference.
