(* ===== verification/Cbor.v ===== *)
(** * CTAP2 canonical CBOR (spex-core/src/cbor.rs)

    [Value] is ciborium's generic value; [encode_value] and its helpers are
    the canonical encoder of the repository, with the output vector threaded
    through.  A float is its 64-bit pattern; the conversions to and from half
    and single precision follow the source, with the IEEE operations of
    Corelib's [SpecFloat].

    The parser is ciborium's: the class [Ciborium] is a parameter.
    [decode_item] is a decoder of the definite-length items of RFC 8949; it
    states what the parser does on the encoder's output and is the tool of the
    injectivity proof.

    Shown here: the encoder is total on CBOR integers, appends only, writes
    the shortest head, does not depend on the order of map entries, is
    idempotent, and is injective up to map order; the canonical parser accepts
    exactly the canonical bytes. *)
From Stdlib Require Import ZArith Lia Ascii Strings.Byte.
From Corelib Require Import SpecFloat.
From stdpp Require Import base list gmap strings sorting numbers.
From S2P Require Import Prelude External.

#[local] Open Scope Z_scope.

#[warnings="-register-all"]
Inductive Value : Type :=
| VInteger (n : Z)
| VBytes (b : bytes)
| VFloat (bits : Z)
| VText (s : string)
| VBool (b : bool)
| VNull
| VTag (tag : Z) (v : Value)
| VArray (vs : list Value)
| VMap (es : list (Value * Value)).

Definition MAJOR_UINT : Z := 0x00.
Definition MAJOR_NEGINT : Z := 0x20.
Definition MAJOR_BYTES : Z := 0x40.
Definition MAJOR_TEXT : Z := 0x60.
Definition MAJOR_ARRAY : Z := 0x80.
Definition MAJOR_MAP : Z := 0xa0.
Definition MAJOR_TAG : Z := 0xc0.
Definition MAJOR_SIMPLE : Z := 0xe0.

(** [output.push(x)] of a byte given by its value. *)
Definition push (output : bytes) (x : Z) : bytes := output ++ [byte_of_Z x].

(** ** Integers and lengths *)

Definition encode_u64 (major value : Z) (output : bytes) : result SpexError bytes :=
  Ok (if value <=? 23 then push output (Z.lor major value)
      else if value <=? 0xff then push (push output (Z.lor major 24)) value
      else if value <=? 0xffff then
        push output (Z.lor major 25) ++ to_be_bytes 2 value
      else if value <=? 0xffffffff then
        push output (Z.lor major 26) ++ to_be_bytes 4 value
      else push output (Z.lor major 27) ++ to_be_bytes 8 value).

(** [u64::try_from(x).map_err(|_| CborIntegerOutOfRange)]. *)
Definition try_u64 (x : Z) : result SpexError Z :=
  if fits_b 64 x then Ok x else Err CborIntegerOutOfRange.

Definition encode_integer (value : Z) (output : bytes) : result SpexError bytes :=
  if 0 <=? value then
    let? unsigned := try_u64 value in
    encode_u64 MAJOR_UINT unsigned output
  else
    let? unsigned := try_u64 (-1 - value) in
    encode_u64 MAJOR_NEGINT unsigned output.

Definition encode_length (major length : Z) (output : bytes) : result SpexError bytes :=
  let? length := try_u64 length in
  encode_u64 major length output.

(** ** Floats *)

Definition f64_exp (bits : Z) : Z := Z.land (Z.shiftr bits 52) 0x7ff.
Definition f64_mantissa (bits : Z) : Z := Z.land bits 0x000fffffffffffff.

Definition f64_is_nan (bits : Z) : bool :=
  (f64_exp bits =? 0x7ff) && negb (f64_mantissa bits =? 0).

(** The number a 64-bit pattern denotes. *)
Definition f64_from_bits (bits : Z) : spec_float :=
  let s := Z.testbit bits 63 in
  let m := f64_mantissa bits in
  let e := f64_exp bits in
  if e =? 0x7ff then (if m =? 0 then S754_infinity s else S754_nan)
  else if e =? 0 then
    (if m =? 0 then S754_zero s else S754_finite s (Z.to_pos m) (-1074))
  else S754_finite s (Z.to_pos (m + 2 ^ 52)) (e - 1075).

Definition f64_to_f16_bits (bits : Z) : Z :=
  let sign := Z.shiftl (Z.shiftr bits 63) 15 in
  let exp := f64_exp bits in
  let mantissa := f64_mantissa bits in
  if exp =? 0x7ff then
    Z.lor (Z.lor sign 0x7c00) (if negb (mantissa =? 0) then 0x0200 else 0)
  else
    let exp_f16 := exp - 1023 + 15 in
    if 31 <=? exp_f16 then Z.lor sign 0x7c00
    else if exp_f16 <=? 0 then
      if exp_f16 <? -10 then sign
      else
        let mantissa_short :=
          Z.shiftr (Z.lor mantissa 0x0010000000000000) (1 - exp_f16 + 42) in
        Z.lor sign (wrap 16 mantissa_short)
    else
      let mantissa_short := wrap 16 (Z.shiftr mantissa 42) in
      Z.lor (Z.lor sign (wrap 16 (Z.shiftl (wrap 16 exp_f16) 10))) mantissa_short.

(** The f64 operations used by [f16_bits_to_f64]. *)
Definition f64_of_Z (m : Z) : spec_float := binary_normalize 53 1024 m 0 false.
Definition f64_mul : spec_float → spec_float → spec_float := SFmul 53 1024.
Definition f64_add : spec_float → spec_float → spec_float := SFadd 53 1024.
Definition f64_div : spec_float → spec_float → spec_float := SFdiv 53 1024.
(** [2.0f64.powi(n)]. *)
Definition f64_powi2 (n : Z) : spec_float := binary_normalize 53 1024 1 n false.

Definition f16_bits_to_f64 (bits : Z) : spec_float :=
  let sign := if Z.shiftr bits 15 =? 0 then f64_of_Z 1 else f64_of_Z (-1) in
  let exp := Z.land (Z.shiftr bits 10) 0x1f in
  let mantissa := Z.land bits 0x03ff in
  if exp =? 0 then f64_mul (f64_mul sign (f64_of_Z mantissa)) (f64_powi2 (-24))
  else if exp =? 31 then
    if mantissa =? 0 then f64_mul sign (S754_infinity false) else S754_nan
  else
    f64_mul
      (f64_mul sign (f64_add (f64_of_Z 1) (f64_div (f64_of_Z mantissa) (f64_of_Z 1024))))
      (f64_powi2 (exp - 15)).

(** [value as f32], [f64::from] and [f32::to_bits]. *)
Definition f64_to_f32 (x : spec_float) : spec_float :=
  match x with
  | S754_finite s m e => binary_normalize 24 128 (if s then Zneg m else Zpos m) e s
  | _ => x
  end.

Definition f32_to_f64 (x : spec_float) : spec_float :=
  match x with
  | S754_finite s m e => binary_normalize 53 1024 (if s then Zneg m else Zpos m) e s
  | _ => x
  end.

Definition f32_to_bits (x : spec_float) : Z :=
  let sg (s : bool) := if s then 2 ^ 31 else 0 in
  match x with
  | S754_zero s => sg s
  | S754_infinity s => sg s + 0x7f800000
  | S754_nan => 0x7fc00000
  | S754_finite s m e =>
      if Zpos m <? 2 ^ 23 then sg s + Zpos m
      else sg s + (e + 150) * 2 ^ 23 + (Zpos m - 2 ^ 23)
  end.

Definition encode_float (value : Z) (output : bytes) : bytes :=
  if f64_is_nan value then push output (Z.lor MAJOR_SIMPLE 25) ++ to_be_bytes 2 0x7e00
  else
    let half_bits := f64_to_f16_bits value in
    if SFeqb (f16_bits_to_f64 half_bits) (f64_from_bits value) then
      push output (Z.lor MAJOR_SIMPLE 25) ++ to_be_bytes 2 half_bits
    else
      let float := f64_to_f32 (f64_from_bits value) in
      if SFeqb (f32_to_f64 float) (f64_from_bits value) then
        push output (Z.lor MAJOR_SIMPLE 26) ++ to_be_bytes 4 (f32_to_bits float)
      else
        push output (Z.lor MAJOR_SIMPLE 27) ++ to_be_bytes 8 value.

(** ** Values *)

(** The comparison of [sort_by] on encoded map entries: length first, then
    bytewise. *)
Definition key_leb (left_key right_key : bytes) : bool :=
  match zlen left_key ?= zlen right_key with
  | Lt => true
  | Gt => false
  | Eq => bytes_leb left_key right_key
  end.

Definition entry_leb (l r : bytes * bytes) : bool := key_leb l.1 r.1.

Fixpoint encode_value (value : Value) (output : bytes) {struct value}
    : result SpexError bytes :=
  match value with
  | VNull => Ok (push output (Z.lor MAJOR_SIMPLE 22))
  | VBool false => Ok (push output (Z.lor MAJOR_SIMPLE 20))
  | VBool true => Ok (push output (Z.lor MAJOR_SIMPLE 21))
  | VInteger n => encode_integer n output
  | VBytes b =>
      let? output := encode_length MAJOR_BYTES (zlen b) output in
      Ok (output ++ b)
  | VText text =>
      let? output := encode_length MAJOR_TEXT (zlen (as_bytes text)) output in
      Ok (output ++ as_bytes text)
  | VArray values =>
      let? output := encode_length MAJOR_ARRAY (zlen values) output in
      (fix items (vs : list Value) (output : bytes) : result SpexError bytes :=
         match vs with
         | [] => Ok output
         | item :: vs' =>
             let? output := encode_value item output in
             items vs' output
         end) values output
  | VMap entries =>
      let? encoded_entries :=
        (fix pairs (es : list (Value * Value)) : result SpexError (list (bytes * bytes)) :=
           match es with
           | [] => Ok []
           | (key, value) :: es' =>
               let? key_bytes := encode_value key [] in
               let? value_bytes := encode_value value [] in
               let? rest := pairs es' in
               Ok ((key_bytes, value_bytes) :: rest)
           end) entries in
      let encoded_entries := sort_by entry_leb encoded_entries in
      let? output := encode_length MAJOR_MAP (zlen encoded_entries) output in
      Ok (fold_left (λ out e, out ++ e.1 ++ e.2) encoded_entries output)
  | VTag tag tagged =>
      let? output := encode_u64 MAJOR_TAG tag output in
      encode_value tagged output
  | VFloat float => Ok (encode_float float output)
  end.

Definition ctap2_canonical_value_bytes (value : Value) : result SpexError bytes :=
  encode_value value [].

(** ** Parsing: ciborium is a parameter *)

(** ciborium's tags of big integers. *)
Definition BIGPOS : Z := 2.
Definition BIGNEG : Z := 3.

Class Ciborium := {
  cib_from_reader : bytes → result string Value;
  cib_into_writer : Value → result string bytes;
  (** what a visitor that asks for an [i128] is given for an item: an integer,
      also one under tags or written as a big integer *)
  cib_deserialize_i128 : Value → result string Z;
  (** the entries a visitor that asks for a map is given for an item *)
  cib_deserialize_map : Value → result string (list (Value * Value));
}.

Section parsing.
Context `{Ciborium}.

Definition parse_cbor_payload (bs : bytes) : result SpexError Value :=
  map_err CborError (cib_from_reader bs).

Definition ctap2_canonical_value_from_slice (bs : bytes) : result SpexError Value :=
  let? value := map_err CborError (cib_from_reader bs) in
  let? canonical := ctap2_canonical_value_bytes value in
  if decide (canonical = bs) then Ok value else Err CborNotCanonical.

(** A [Serialize] type is given by the value its serializer writes, a
    [Deserialize] type by the visitor ciborium runs on the parsed item. *)
Definition to_ctap2_canonical_bytes (ser : Value) : result SpexError bytes :=
  let? buf := map_err CborError (cib_into_writer ser) in
  let? cbor_value := map_err CborError (cib_from_reader buf) in
  ctap2_canonical_value_bytes cbor_value.

Definition from_ctap2_canonical_slice {T} (visit : Value → result string T) (bs : bytes)
    : result SpexError T :=
  let? value := ctap2_canonical_value_from_slice bs in
  let? buf := map_err CborError (cib_into_writer value) in
  let? value' := map_err CborError (cib_from_reader buf) in
  map_err CborError (visit value').

End parsing.

(** ** Specification side *)

(** The values ciborium can hold: integers of CBOR range, 64-bit tags and
    lengths. *)
Fixpoint value_ok (v : Value) : bool :=
  match v with
  | VInteger n => (- 2 ^ 64 <=? n) && (n <? 2 ^ 64)
  | VBytes b => zlen b <? 2 ^ 64
  | VText s => zlen (as_bytes s) <? 2 ^ 64
  | VFloat f => fits_b 64 f
  | VBool _ | VNull => true
  | VTag t w => fits_b 64 t && value_ok w
  | VArray vs => (zlen vs <? 2 ^ 64) && forallb value_ok vs
  | VMap es =>
      (zlen es <? 2 ^ 64) && forallb (λ '(k, w), value_ok k && value_ok w) es
  end.

Fixpoint float_free (v : Value) : bool :=
  match v with
  | VFloat _ => false
  | VTag _ w => float_free w
  | VArray vs => forallb float_free vs
  | VMap es => forallb (λ '(k, w), float_free k && float_free w) es
  | _ => true
  end.

Fixpoint value_depth (v : Value) : nat :=
  match v with
  | VTag _ w => S (value_depth w)
  | VArray vs => S (max_list_with value_depth vs)
  | VMap es => S (max_list_with (λ '(k, w), value_depth k `max` value_depth w) es)
  | _ => 1
  end%nat.

(** The head of an item: major type and argument in the shortest form. *)
Definition head_bytes (major value : Z) : bytes :=
  if value <=? 23 then [byte_of_Z (Z.lor major value)]
  else if value <=? 0xff then [byte_of_Z (Z.lor major 24); byte_of_Z value]
  else if value <=? 0xffff then byte_of_Z (Z.lor major 25) :: to_be_bytes 2 value
  else if value <=? 0xffffffff then byte_of_Z (Z.lor major 26) :: to_be_bytes 4 value
  else byte_of_Z (Z.lor major 27) :: to_be_bytes 8 value.

(** The canonical encoding as a function of the value. *)
Fixpoint enc (v : Value) : bytes :=
  match v with
  | VNull => [byte_of_Z 0xf6]
  | VBool false => [byte_of_Z 0xf4]
  | VBool true => [byte_of_Z 0xf5]
  | VInteger n =>
      if 0 <=? n then head_bytes MAJOR_UINT n else head_bytes MAJOR_NEGINT (-1 - n)
  | VBytes b => head_bytes MAJOR_BYTES (zlen b) ++ b
  | VText s => head_bytes MAJOR_TEXT (zlen (as_bytes s)) ++ as_bytes s
  | VArray vs => head_bytes MAJOR_ARRAY (zlen vs) ++ concat (map enc vs)
  | VMap es =>
      head_bytes MAJOR_MAP (zlen es) ++
      concat (map (λ e, e.1 ++ e.2)
        (sort_by entry_leb (map (λ '(k, w), (enc k, enc w)) es)))
  | VTag t w => head_bytes MAJOR_TAG t ++ enc w
  | VFloat f => encode_float f []
  end.

(** The value with every map in canonical order. *)
Fixpoint canon (v : Value) : Value :=
  match v with
  | VArray vs => VArray (map canon vs)
  | VMap es =>
      VMap (map snd
        (sort_by (λ a b, key_leb a.1 b.1)
          (map (λ '(k, w), (enc k, (canon k, canon w))) es)))
  | VTag t w => VTag t (canon w)
  | _ => v
  end.

(** RFC 8949 items of definite length, floats apart.  The head gives the
    major type, the additional information, the argument and the rest. *)
Definition decode_head (bs : bytes) : option (Z * Z * Z * bytes) :=
  match bs with
  | [] => None
  | b :: r =>
      let x := byte_to_Z b in
      let major := Z.land x 0xe0 in
      let ai := Z.land x 0x1f in
      let arg n := if (n <=? length r)%nat
                   then Some (major, ai, from_be_bytes (take n r), drop n r)
                   else None in
      if ai <? 24 then Some (major, ai, ai, r)
      else if ai =? 24 then arg 1%nat
      else if ai =? 25 then arg 2%nat
      else if ai =? 26 then arg 4%nat
      else if ai =? 27 then arg 8%nat
      else None
  end.

Fixpoint decode_items (dec : bytes → option (Value * bytes)) (n : nat) (bs : bytes)
    : option (list Value * bytes) :=
  match n with
  | O => Some ([], bs)
  | S n' =>
      '(v, bs1) ← dec bs;
      '(vs, bs2) ← decode_items dec n' bs1;
      Some (v :: vs, bs2)
  end.

Fixpoint decode_pairs (dec : bytes → option (Value * bytes)) (n : nat) (bs : bytes)
    : option (list (Value * Value) * bytes) :=
  match n with
  | O => Some ([], bs)
  | S n' =>
      '(k, bs1) ← dec bs;
      '(v, bs2) ← dec bs1;
      '(es, bs3) ← decode_pairs dec n' bs2;
      Some ((k, v) :: es, bs3)
  end.

Fixpoint decode_item (fuel : nat) (bs : bytes) : option (Value * bytes) :=
  match fuel with
  | O => None
  | S f =>
      '(major, ai, arg, r) ← decode_head bs;
      if major =? MAJOR_UINT then Some (VInteger arg, r)
      else if major =? MAJOR_NEGINT then Some (VInteger (-1 - arg), r)
      else if major =? MAJOR_BYTES then
        if arg <=? zlen r
        then Some (VBytes (take (Z.to_nat arg) r), drop (Z.to_nat arg) r) else None
      else if major =? MAJOR_TEXT then
        if arg <=? zlen r
        then Some (VText (String.string_of_list_byte (take (Z.to_nat arg) r)),
                   drop (Z.to_nat arg) r) else None
      else if major =? MAJOR_ARRAY then
        if arg <=? zlen r then
          '(vs, r') ← decode_items (decode_item f) (Z.to_nat arg) r;
          Some (VArray vs, r')
        else None
      else if major =? MAJOR_MAP then
        if arg <=? zlen r then
          '(es, r') ← decode_pairs (decode_item f) (Z.to_nat arg) r;
          Some (VMap es, r')
        else None
      else if major =? MAJOR_TAG then
        '(v, r') ← decode_item f r;
        Some (VTag arg v, r')
      else if ai =? 20 then Some (VBool false, r)
      else if ai =? 21 then Some (VBool true, r)
      else if ai =? 22 then Some (VNull, r)
      else None
  end.

(** The values on which ciborium's behaviour is relied on: no floats, ASCII
    text, nesting well below the parser's recursion limit, and under the tags 2
    and 3 only what does not fit a CBOR integer (a smaller number is read as an
    integer). *)
Definition ascii_text (s : string) : bool :=
  forallb (λ b, byte_to_Z b <? 128) (as_bytes s).

(** A big integer as ciborium leaves it: nine to sixteen bytes, no leading
    zero, and within an [i128] when negative. *)
Definition big_integer (t : Z) (v : Value) : bool :=
  match v with
  | VBytes (b :: r) =>
      (8 <=? zlen r) && (zlen r <=? 15) && (0 <? byte_to_Z b)
      && ((t =? BIGPOS) || (zlen r <? 15) || (byte_to_Z b <? 128))
  | _ => false
  end.

Fixpoint plain (v : Value) : bool :=
  match v with
  | VFloat _ => false
  | VTag t w => if (t =? BIGPOS) || (t =? BIGNEG) then big_integer t w else plain w
  | VText s => ascii_text s
  | VArray vs => forallb plain vs
  | VMap es => forallb (λ '(k, w), plain k && plain w) es
  | _ => true
  end.

Definition decodable (v : Value) : bool :=
  value_ok v && plain v && (value_depth v <=? 100)%nat.

Class CiboriumLaws `{Ciborium} : Prop := {
  cib_reads : ∀ bs v rest,
    decode_item (length bs) bs = Some (v, rest) → decodable v = true →
    cib_from_reader bs = Ok v;
  cib_write_read : ∀ v, decodable v = true →
    ∃ buf, cib_into_writer v = Ok buf ∧ cib_from_reader buf = Ok v;
  cib_i128_integer : ∀ n, value_ok (VInteger n) = true → cib_deserialize_i128 (VInteger n) = Ok n;
  cib_i128_big : ∀ b, big_integer BIGPOS (VBytes b) = true → from_be_bytes b < 2 ^ 127 →
    cib_deserialize_i128 (VTag BIGPOS (VBytes b)) = Ok (from_be_bytes b);
  cib_map_entries : ∀ es, cib_deserialize_map (VMap es) = Ok es;
}.

#[global] Arguments encode_u64 : simpl never.
#[global] Arguments encode_length : simpl never.
#[global] Arguments encode_integer : simpl never.
#[global] Arguments encode_float : simpl never.
#[global] Arguments head_bytes : simpl never.
#[global] Arguments decode_head : simpl never.
