(* ===== verification/CborFacts.v ===== *)
(** * Properties of the CTAP2 canonical encoder

    The lemmas behind the claims on [Cbor.encode_value]: the order on encoded
    keys, the equation of the encoder with [Cbor.enc], the decoding of heads
    and items, and the theorems of the component. *)
From Stdlib Require Import ZArith Lia Ascii Strings.Byte.
From Corelib Require Import SpecFloat.
From stdpp Require Import base list gmap strings sorting numbers.
From S2P Require Import Prelude External Cbor.

#[local] Open Scope Z_scope.

(** ** Induction over nested values *)

Section value_ind.
Context (P : Value → Prop).
Context (HInteger : ∀ n, P (VInteger n)) (HBytes : ∀ b, P (VBytes b))
  (HFloat : ∀ f, P (VFloat f)) (HText : ∀ s, P (VText s))
  (HBool : ∀ b, P (VBool b)) (HNull : P VNull)
  (HTag : ∀ t v, P v → P (VTag t v))
  (HArray : ∀ vs, Forall P vs → P (VArray vs))
  (HMap : ∀ es, Forall (λ e, P e.1 ∧ P e.2) es → P (VMap es)).

Fixpoint Value_nested_ind (v : Value) : P v :=
  match v with
  | VInteger n => HInteger n
  | VBytes b => HBytes b
  | VFloat f => HFloat f
  | VText s => HText s
  | VBool b => HBool b
  | VNull => HNull
  | VTag t w => HTag t w (Value_nested_ind w)
  | VArray vs =>
      HArray vs ((fix go (l : list Value) : Forall P l :=
        match l with
        | [] => Forall_nil_2 _
        | x :: l' => Forall_cons_2 _ _ _ (Value_nested_ind x) (go l')
        end) vs)
  | VMap es =>
      HMap es ((fix go (l : list (Value * Value)) : Forall (λ e, P e.1 ∧ P e.2) l :=
        match l with
        | [] => Forall_nil_2 _
        | (k, w) :: l' =>
            Forall_cons_2 (λ e, P e.1 ∧ P e.2) (k, w) _
              (conj (Value_nested_ind k) (Value_nested_ind w)) (go l')
        end) es)
  end.

End value_ind.

(** ** The order on encoded keys *)

Lemma bytes_cmp_refl a : bytes_cmp a a = Eq.
Proof. induction a as [|x a IH]; simpl; [done|]. by rewrite Z.compare_refl. Qed.

Lemma bytes_cmp_eq a b : bytes_cmp a b = Eq → a = b.
Proof.
  revert b. induction a as [|x a IH]; intros [|y b]; simpl; try done.
  destruct (byte_to_Z x ?= byte_to_Z y) eqn:E; try done. intros Hab.
  apply Z.compare_eq, byte_to_Z_inj in E. by rewrite E, (IH b).
Qed.

Lemma bytes_cmp_antisym a b : bytes_cmp b a = CompOpp (bytes_cmp a b).
Proof.
  revert b. induction a as [|x a IH]; intros [|y b]; simpl; try done.
  rewrite (Z.compare_antisym (byte_to_Z x)).
  destruct (byte_to_Z x ?= byte_to_Z y); simpl; [apply IH|done|done].
Qed.

Lemma bytes_leb_total a b : bytes_leb a b = true ∨ bytes_leb b a = true.
Proof.
  unfold bytes_leb. rewrite (bytes_cmp_antisym a b). destruct (bytes_cmp a b); simpl; auto.
Qed.

Lemma bytes_leb_trans a b c :
  bytes_leb a b = true → bytes_leb b c = true → bytes_leb a c = true.
Proof.
  unfold bytes_leb. revert b c.
  induction a as [|x a IH]; intros [|y b] [|z c]; simpl; try done.
  destruct (Z.compare_spec (byte_to_Z x) (byte_to_Z y)); try done;
    destruct (Z.compare_spec (byte_to_Z y) (byte_to_Z z)); try done;
    destruct (Z.compare_spec (byte_to_Z x) (byte_to_Z z)); try done; try lia.
  apply IH.
Qed.

Lemma key_leb_total a b : key_leb a b = true ∨ key_leb b a = true.
Proof.
  unfold key_leb. rewrite (Z.compare_antisym (zlen a) (zlen b)).
  destruct (zlen a ?= zlen b); simpl; auto using bytes_leb_total.
Qed.

Lemma key_leb_trans a b c : key_leb a b = true → key_leb b c = true → key_leb a c = true.
Proof.
  unfold key_leb.
  destruct (Z.compare_spec (zlen a) (zlen b)); try done;
    destruct (Z.compare_spec (zlen b) (zlen c)); try done;
    destruct (Z.compare_spec (zlen a) (zlen c)); try done; try lia.
  apply bytes_leb_trans.
Qed.

Lemma key_leb_antisym a b : key_leb a b = true → key_leb b a = true → a = b.
Proof.
  unfold key_leb, bytes_leb. rewrite (Z.compare_antisym (zlen a) (zlen b)).
  destruct (zlen a ?= zlen b); simpl; try done. rewrite (bytes_cmp_antisym a b).
  destruct (bytes_cmp a b) eqn:E; simpl; try done. intros _ _. by apply bytes_cmp_eq.
Qed.

Lemma sort_by_map {A B} (f : A → B) leb l :
  sort_by leb (map f l) = map f (sort_by (λ x y, leb (f x) (f y)) l).
Proof.
  assert (∀ x l, insert_by leb (f x) (map f l)
                 = map f (insert_by (λ x y, leb (f x) (f y)) x l)) as Hins.
  { intros x l'. induction l' as [|y l' IH]; simpl; [done|].
    destruct (leb (f x) (f y)); simpl; [done|]. by rewrite IH. }
  induction l as [|x l IH]; simpl; [done|]. by rewrite IH, Hins.
Qed.

(** ** The encoder appends [enc v] *)

Lemma encode_u64_head major v out :
  encode_u64 major v out = Ok (out ++ head_bytes major v).
Proof.
  unfold encode_u64, head_bytes, push.
  repeat case_match; f_equal; by rewrite <-?app_assoc.
Qed.

Lemma encode_length_head major n out :
  0 <= n < 2 ^ 64 → encode_length major n out = Ok (out ++ head_bytes major n).
Proof.
  intros Hn. unfold encode_length, try_u64, fits_b.
  replace (0 <=? n) with true by lia. replace (n <? 2 ^ 64) with true by lia.
  apply encode_u64_head.
Qed.

Lemma encode_integer_enc n out :
  - 2 ^ 64 <= n < 2 ^ 64 → encode_integer n out = Ok (out ++ enc (VInteger n)).
Proof.
  intros Hn. unfold encode_integer, try_u64, fits_b. simpl.
  destruct (0 <=? n) eqn:E; bool_to_prop.
  - replace (n <? 2 ^ 64) with true by lia. apply encode_u64_head.
  - replace (0 <=? -1 - n) with true by lia. replace (-1 - n <? 2 ^ 64) with true by lia.
    apply encode_u64_head.
Qed.

Lemma encode_float_app f out : encode_float f out = out ++ encode_float f [].
Proof.
  unfold encode_float, push. repeat case_match; by rewrite <-?app_assoc.
Qed.

Lemma fold_left_app_concat {A} (g : A → bytes) l out :
  fold_left (λ o x, o ++ g x) l out = out ++ concat (map g l).
Proof.
  revert out. induction l as [|x l IH]; intros out; simpl; [by rewrite app_nil_r|].
  by rewrite IH, <-app_assoc.
Qed.

Lemma zlen_nonneg {A} (l : list A) : 0 <= zlen l.
Proof. unfold zlen. lia. Qed.

#[export] Hint Resolve zlen_nonneg : spex.

Lemma zlen_map {A B} (f : A → B) l : zlen (map f l) = zlen l.
Proof. unfold zlen. by rewrite length_map. Qed.

Lemma zlen_sort_by {A} (leb : A → A → bool) l : zlen (sort_by leb l) = zlen l.
Proof. unfold zlen. by rewrite length_sort_by. Qed.

Lemma encode_value_enc v out :
  value_ok v = true → encode_value v out = Ok (out ++ enc v).
Proof.
  revert out.
  induction v as [n|b|f|s|[]| |t v IH|vs IH|es IH] using Value_nested_ind;
    intros out Hok; simpl in Hok; bool_to_prop.
  - by apply encode_integer_enc.
  - cbn [encode_value enc]. rewrite encode_length_head by auto with spex. by rewrite <-app_assoc.
  - cbn [encode_value enc]. by rewrite encode_float_app.
  - cbn [encode_value enc]. rewrite encode_length_head by auto with spex. by rewrite <-app_assoc.
  - done.
  - done.
  - done.
  - cbn [encode_value enc]. rewrite encode_u64_head, IH by done. by rewrite <-app_assoc.
  - cbn [encode_value enc]. rewrite encode_length_head by auto with spex. rewrite app_assoc.
    generalize (out ++ head_bytes MAJOR_ARRAY (zlen vs)).
    induction IH as [|v vs Hv IH IHvs]; intros o; simpl; [by rewrite app_nil_r|].
    simpl in *; bool_to_prop. rewrite Hv by done.
    rewrite IHvs by (done || unfold zlen in *; simpl in *; lia). by rewrite <-app_assoc.
  - cbn [encode_value enc].
    assert (∀ es', Forall (λ e, (∀ out, value_ok e.1 = true →
                encode_value e.1 out = Ok (out ++ enc e.1)) ∧
              (∀ out, value_ok e.2 = true →
                encode_value e.2 out = Ok (out ++ enc e.2))) es' →
              forallb (λ '(k, w), value_ok k && value_ok w) es' = true →
      (fix pairs (es : list (Value * Value)) : result SpexError (list (bytes * bytes)) :=
           match es with
           | [] => Ok []
           | (key, value) :: es' =>
               let? key_bytes := encode_value key [] in
               let? value_bytes := encode_value value [] in
               let? rest := pairs es' in
               Ok ((key_bytes, value_bytes) :: rest)
           end) es' = Ok (map (λ '(k, w), (enc k, enc w)) es')) as Hpairs.
    { induction 1 as [|[k w] es' [Hk Hw] Hes' IHes]; simpl; intros Hok; [done|].
      bool_to_prop. simpl in *. rewrite Hk, Hw by done. simpl. by rewrite IHes. }
    rewrite (Hpairs es IH) by done.
    rewrite zlen_sort_by, zlen_map, encode_length_head by auto with spex.
    rewrite (fold_left_app_concat (λ e : bytes * bytes, e.1 ++ e.2)).
    by rewrite <-app_assoc.
Qed.

(** ** Decoding heads *)

Definition majors : list Z :=
  [MAJOR_UINT; MAJOR_NEGINT; MAJOR_BYTES; MAJOR_TEXT; MAJOR_ARRAY; MAJOR_MAP;
   MAJOR_TAG; MAJOR_SIMPLE].

Lemma head_byte_split major a :
  In major majors → 0 <= a < 32 →
  Z.land (byte_to_Z (byte_of_Z (Z.lor major a))) 0xe0 = major ∧
  Z.land (byte_to_Z (byte_of_Z (Z.lor major a))) 0x1f = a.
Proof.
  intros Hm Ha.
  assert (forallb (λ m, forallb (λ a,
      (Z.land (byte_to_Z (byte_of_Z (Z.lor m a))) 0xe0 =? m) &&
      (Z.land (byte_to_Z (byte_of_Z (Z.lor m a))) 0x1f =? a))
      (map Z.of_nat (seq 0 32))) majors = true) as Hall by (vm_compute; done).
  rewrite forallb_forall in Hall. specialize (Hall _ Hm).
  rewrite forallb_forall in Hall.
  specialize (Hall a). rewrite andb_true_iff, !Z.eqb_eq in Hall. apply Hall.
  apply in_map_iff. exists (Z.to_nat a). rewrite in_seq. lia.
Qed.

Lemma take_drop_be n v rest :
  fits (8 * Z.of_nat n) v →
  from_be_bytes (take n (to_be_bytes n v ++ rest)) = v ∧
  drop n (to_be_bytes n v ++ rest) = rest.
Proof.
  intros Hv. rewrite take_app_length', drop_app_length' by (by rewrite length_to_be_bytes).
  by rewrite from_to_be_bytes_fits.
Qed.

Lemma decode_head_wide major a n v rest :
  In major majors → (a, n) ∈ [(24, 1%nat); (25, 2%nat); (26, 4%nat); (27, 8%nat)] →
  fits (8 * Z.of_nat n) v →
  decode_head (byte_of_Z (Z.lor major a) :: to_be_bytes n v ++ rest)
  = Some (major, a, v, rest).
Proof.
  intros Hm Ha Hv. unfold decode_head.
  assert (0 <= a < 32) as Hr.
  { repeat (apply elem_of_cons in Ha as [[= -> _]|Ha]; [lia|]). by apply not_elem_of_nil in Ha. }
  destruct (head_byte_split major a Hm Hr) as [-> ->].
  assert ((n <=? length (to_be_bytes n v ++ rest))%nat = true) as Hlen.
  { apply Nat.leb_le. rewrite length_app, length_to_be_bytes. lia. }
  pose proof (take_drop_be n v rest Hv) as [Ht Hd].
  repeat (apply elem_of_cons in Ha as [[= -> ->]|Ha];
    [cbn [Z.ltb Z.eqb Z.compare Pos.compare Pos.compare_cont Pos.eqb];
     by rewrite Hlen, Ht, Hd|]).
  by apply not_elem_of_nil in Ha.
Qed.

Lemma decode_head_head major v rest :
  In major majors → 0 <= v < 2 ^ 64 →
  ∃ ai, decode_head (head_bytes major v ++ rest) = Some (major, ai, v, rest).
Proof.
  intros Hm Hv. unfold head_bytes.
  destruct (v <=? 23) eqn:E1; [|destruct (v <=? 0xff) eqn:E2;
    [|destruct (v <=? 0xffff) eqn:E3; [|destruct (v <=? 0xffffffff) eqn:E4]]]; bool_to_prop.
  - exists v. cbn [app]. unfold decode_head.
    destruct (head_byte_split major v Hm ltac:(lia)) as [-> ->].
    by replace (v <? 24) with true by lia.
  - exists 24. change [byte_of_Z (Z.lor major 24); byte_of_Z v]
      with (byte_of_Z (Z.lor major 24) :: [byte_of_Z v]).
    replace [byte_of_Z v] with (to_be_bytes 1 v) by (simpl; by rewrite Z.shiftr_0_r).
    cbn [app]. apply decode_head_wide; [done|apply list_elem_of_In; simpl; tauto|unfold fits; simpl; lia].
  - exists 25. cbn [app]. apply decode_head_wide; [done|apply list_elem_of_In; simpl; tauto|unfold fits; simpl; lia].
  - exists 26. cbn [app]. apply decode_head_wide; [done|apply list_elem_of_In; simpl; tauto|unfold fits; simpl; lia].
  - exists 27. cbn [app]. apply decode_head_wide; [done|apply list_elem_of_In; simpl; tauto|unfold fits; simpl; lia].
Qed.

Lemma head_bytes_nonempty major v : (1 <= length (head_bytes major v))%nat.
Proof. unfold head_bytes. repeat case_match; simpl; lia. Qed.

(** ** Map entries in canonical order *)

Definition enc_entry (e : Value * Value) : bytes * bytes := (enc e.1, enc e.2).
Definition canon_entry (e : Value * Value) : Value * Value := (canon e.1, canon e.2).

Definition sorted_entries (es : list (Value * Value)) : list (Value * Value) :=
  sort_by (λ x y, key_leb (enc x.1) (enc y.1)) es.

Lemma sort_by_ext {A} (f g : A → A → bool) l :
  (∀ x y, f x y = g x y) → sort_by f l = sort_by g l.
Proof.
  intros Hfg.
  assert (∀ x l, insert_by f x l = insert_by g x l) as Hins.
  { intros x l'. induction l' as [|y l' IH]; simpl; [done|]. by rewrite Hfg, IH. }
  induction l as [|x l IH]; simpl; [done|]. by rewrite IH, Hins.
Qed.

Lemma map_pair_ext {A B C} (f : A * B → C) l : map (λ '(a, b), f (a, b)) l = map f l.
Proof. apply map_ext. by intros [a b]. Qed.

Lemma enc_VMap es :
  enc (VMap es)
  = head_bytes MAJOR_MAP (zlen es) ++
    concat (map (λ e, e.1 ++ e.2) (map enc_entry (sorted_entries es))).
Proof.
  cbn [enc]. rewrite (map_pair_ext enc_entry), sort_by_map. done.
Qed.

Lemma canon_VMap es : canon (VMap es) = VMap (map canon_entry (sorted_entries es)).
Proof.
  cbn [canon]. rewrite (map_pair_ext (λ e, (enc e.1, canon_entry e))), sort_by_map.
  by rewrite map_map.
Qed.

Lemma sorted_entries_Permutation es : sorted_entries es ≡ₚ es.
Proof. apply sort_by_Permutation. Qed.

Lemma zlen_sorted_entries es : zlen (sorted_entries es) = zlen es.
Proof. apply zlen_sort_by. Qed.

(** ** Encoding in the given order

    [raw_enc] writes a value without reordering its maps, as a plain CBOR
    writer does; the canonical encoding is [raw_enc] of the canonical value. *)

Fixpoint raw_enc (v : Value) : bytes :=
  match v with
  | VArray vs => head_bytes MAJOR_ARRAY (zlen vs) ++ concat (map raw_enc vs)
  | VMap es =>
      head_bytes MAJOR_MAP (zlen es) ++
      concat (map (λ '(k, w), raw_enc k ++ raw_enc w) es)
  | VTag t w => head_bytes MAJOR_TAG t ++ raw_enc w
  | _ => enc v
  end.

Definition raw_entry (e : Value * Value) : bytes := raw_enc e.1 ++ raw_enc e.2.

Lemma raw_enc_VMap es :
  raw_enc (VMap es) = head_bytes MAJOR_MAP (zlen es) ++ concat (map raw_entry es).
Proof. cbn [raw_enc]. by rewrite (map_pair_ext raw_entry). Qed.

Lemma enc_raw v : enc v = raw_enc (canon v).
Proof.
  induction v as [n|b|f|s|[]| |t v IH|vs IH|es IH] using Value_nested_ind; try done.
  - cbn [canon enc raw_enc]. by rewrite IH.
  - cbn [canon enc raw_enc]. rewrite zlen_map, map_map. do 2 f_equal.
    by apply map_ext_Forall.
  - rewrite canon_VMap, enc_VMap, raw_enc_VMap, zlen_map, zlen_sorted_entries, !map_map.
    do 2 f_equal. apply map_ext_Forall. rewrite sorted_entries_Permutation.
    eapply List.Forall_impl; [|exact IH]. intros [k w] [Hk Hw].
    unfold raw_entry. simpl in *. congruence.
Qed.

(** ** Decoding items *)

Lemma encode_float_nonempty f : (1 <= length (encode_float f []))%nat.
Proof.
  unfold encode_float, push. cbv zeta.
  destruct (f64_is_nan f); [|destruct (SFeqb _ _); [|destruct (SFeqb _ _)]];
    rewrite !length_app; cbn [length]; lia.
Qed.

Lemma length_head_app major v l : (1 <= length (head_bytes major v ++ l))%nat.
Proof. rewrite length_app. pose proof (head_bytes_nonempty major v). lia. Qed.

Lemma raw_enc_nonempty v : (1 <= length (raw_enc v))%nat.
Proof.
  destruct v as [n|b|f|s|[]| |t v|vs|es]; cbn [raw_enc enc];
    try apply length_head_app; try apply encode_float_nonempty; try apply le_n.
  case_match; apply head_bytes_nonempty.
Qed.

Lemma length_concat_ge {A} (g : A → bytes) l :
  (∀ x, (1 <= length (g x))%nat) → (length l <= length (concat (map g l)))%nat.
Proof.
  intros Hg. induction l as [|x l IH]; simpl; [lia|]. rewrite length_app.
  pose proof (Hg x). lia.
Qed.

(** The guard of the decoder on element counts holds on encoder output. *)
Lemma count_guard {A} (g : A → bytes) l rest :
  (∀ x, (1 <= length (g x))%nat) →
  (zlen l <=? zlen (concat (map g l) ++ rest)) = true.
Proof.
  intros Hg. apply Z.leb_le. unfold zlen. rewrite length_app.
  pose proof (length_concat_ge g l Hg). lia.
Qed.

Lemma zlen_to_nat {A} (l : list A) : Z.to_nat (zlen l) = length l.
Proof. unfold zlen. lia. Qed.

Lemma decode_blob (b rest : bytes) :
  (zlen b <=? zlen (b ++ rest)) = true ∧
  take (Z.to_nat (zlen b)) (b ++ rest) = b ∧ drop (Z.to_nat (zlen b)) (b ++ rest) = rest.
Proof.
  rewrite zlen_to_nat, take_app_length, drop_app_length. split; [|done].
  apply Z.leb_le. unfold zlen. rewrite length_app. lia.
Qed.

Lemma decode_simple a rest :
  0 <= a < 24 →
  decode_head (byte_of_Z (Z.lor MAJOR_SIMPLE a) :: rest) = Some (MAJOR_SIMPLE, a, a, rest).
Proof.
  intros Ha. unfold decode_head.
  destruct (head_byte_split MAJOR_SIMPLE a ltac:(simpl; tauto) ltac:(lia)) as [-> ->].
  by replace (a <? 24) with true by lia.
Qed.

(** [decodes dec v]: [dec] reads [raw_enc v] back as [v] and stops right
    after it. *)
Definition decodes (dec : bytes → option (Value * bytes)) (v : Value) : Prop :=
  ∀ rest, dec (raw_enc v ++ rest) = Some (v, rest).

Lemma decode_items_raw dec vs rest :
  Forall (decodes dec) vs →
  decode_items dec (length vs) (concat (map raw_enc vs) ++ rest) = Some (vs, rest).
Proof.
  induction 1 as [|v vs Hv Hvs IH]; simpl; [done|].
  rewrite <-app_assoc, Hv. simpl. by rewrite IH.
Qed.

Lemma decode_pairs_raw dec es rest :
  Forall (λ e, decodes dec e.1 ∧ decodes dec e.2) es →
  decode_pairs dec (length es) (concat (map raw_entry es) ++ rest) = Some (es, rest).
Proof.
  induction 1 as [|[k w] es [Hk Hw] Hes IH]; [done|]. simpl in *. unfold raw_entry at 1.
  simpl. rewrite <-!app_assoc, Hk. simpl. rewrite Hw. simpl. by rewrite IH.
Qed.

Lemma decodes_integer fuel n :
  - 2 ^ 64 <= n < 2 ^ 64 → decodes (decode_item (S fuel)) (VInteger n).
Proof.
  intros Hn rest. cbn [raw_enc enc]. destruct (0 <=? n) eqn:E; bool_to_prop;
    [destruct (decode_head_head MAJOR_UINT n rest) as [ai Hh]
    |destruct (decode_head_head MAJOR_NEGINT (-1 - n) rest) as [ai Hh]];
    try (simpl; tauto); try lia; cbn [decode_item]; rewrite Hh; cbn; [done|].
  by replace (-1 - (-1 - n)) with n by lia.
Qed.

Lemma decodes_bytes fuel b : zlen b < 2 ^ 64 → decodes (decode_item (S fuel)) (VBytes b).
Proof.
  intros Hb rest.
  destruct (decode_head_head MAJOR_BYTES (zlen b) (b ++ rest)) as [ai Hh];
    [simpl; tauto|auto with spex|].
  destruct (decode_blob b rest) as (Hg & Ht & Hr).
  cbn [raw_enc enc decode_item]. rewrite <-app_assoc, Hh. cbn -[zlen Z.leb Z.to_nat].
  by rewrite Hg, Ht, Hr.
Qed.

Lemma decodes_text fuel s :
  zlen (as_bytes s) < 2 ^ 64 → decodes (decode_item (S fuel)) (VText s).
Proof.
  intros Hb rest.
  destruct (decode_head_head MAJOR_TEXT (zlen (as_bytes s)) (as_bytes s ++ rest))
    as [ai Hh]; [simpl; tauto|auto with spex|].
  destruct (decode_blob (as_bytes s) rest) as (Hg & Ht & Hr).
  cbn [raw_enc enc decode_item]. rewrite <-app_assoc, Hh. cbn -[zlen Z.leb Z.to_nat].
  rewrite Hg, Ht, Hr. unfold as_bytes. by rewrite String.string_of_list_byte_of_string.
Qed.

Lemma decodes_tag fuel t v :
  fits_b 64 t = true → decodes (decode_item fuel) v →
  decodes (decode_item (S fuel)) (VTag t v).
Proof.
  intros Ht Hv rest. unfold fits_b in Ht. bool_to_prop.
  destruct (decode_head_head MAJOR_TAG t (raw_enc v ++ rest)) as [ai Hh];
    [simpl; tauto|lia|].
  cbn [raw_enc decode_item]. rewrite <-app_assoc, Hh. cbn -[decode_item]. by rewrite Hv.
Qed.

Lemma decodes_array fuel vs :
  zlen vs < 2 ^ 64 → Forall (decodes (decode_item fuel)) vs →
  decodes (decode_item (S fuel)) (VArray vs).
Proof.
  intros Hlen Hvs rest.
  destruct (decode_head_head MAJOR_ARRAY (zlen vs) (concat (map raw_enc vs) ++ rest))
    as [ai Hh]; [simpl; tauto|auto with spex|].
  cbn [raw_enc decode_item]. rewrite <-app_assoc, Hh.
  cbn -[zlen Z.leb Z.to_nat decode_item].
  rewrite count_guard by auto using raw_enc_nonempty.
  by rewrite zlen_to_nat, decode_items_raw.
Qed.

Lemma decodes_map fuel es :
  zlen es < 2 ^ 64 →
  Forall (λ e, decodes (decode_item fuel) e.1 ∧ decodes (decode_item fuel) e.2) es →
  decodes (decode_item (S fuel)) (VMap es).
Proof.
  intros Hlen Hes rest.
  destruct (decode_head_head MAJOR_MAP (zlen es) (concat (map raw_entry es) ++ rest))
    as [ai Hh]; [simpl; tauto|auto with spex|].
  cbn [decode_item]. rewrite raw_enc_VMap, <-app_assoc, Hh.
  cbn -[zlen Z.leb Z.to_nat decode_item].
  rewrite count_guard.
  2:{ intros e. unfold raw_entry. rewrite length_app.
      pose proof (raw_enc_nonempty e.1). lia. }
  by rewrite zlen_to_nat, decode_pairs_raw.
Qed.

Lemma forallb_Forall_iff {A} (f : A → bool) l :
  forallb f l = true ↔ Forall (λ x, f x = true) l.
Proof. by rewrite forallb_forall, List.Forall_forall. Qed.

Lemma forallb_pairs_iff (f : Value → bool) es :
  forallb (λ '(k, w), f k && f w) es = true ↔
  Forall (λ e, f e.1 = true ∧ f e.2 = true) es.
Proof.
  rewrite forallb_Forall_iff. split; intros H; (eapply List.Forall_impl; [|exact H]);
    intros [k w]; simpl; rewrite andb_true_iff; tauto.
Qed.

Lemma max_list_with_le {A} (f : A → nat) l n :
  (max_list_with f l <= n)%nat ↔ Forall (λ x, (f x <= n)%nat) l.
Proof.
  split.
  - induction l as [|x l IH]; simpl; intros; constructor; [lia|]. apply IH. lia.
  - induction 1; simpl; lia.
Qed.

Lemma value_depth_VMap es n :
  (value_depth (VMap es) <= S n)%nat ↔
  Forall (λ e, (value_depth e.1 <= n)%nat ∧ (value_depth e.2 <= n)%nat) es.
Proof.
  cbn [value_depth]. rewrite <-Nat.succ_le_mono, max_list_with_le.
  split; intros H; (eapply List.Forall_impl; [|exact H]); intros [k w]; simpl; lia.
Qed.

Lemma decode_item_raw v fuel :
  value_ok v = true → float_free v = true → (value_depth v <= fuel)%nat →
  decodes (decode_item fuel) v.
Proof.
  revert fuel.
  induction v as [n|b|f|s|[]| |t v IH|vs IH|es IH] using Value_nested_ind;
    intros fuel Hok Hff Hd; simpl in Hok, Hff; bool_to_prop;
    (destruct fuel as [|fuel]; [simpl in Hd; lia|]);
    auto using decodes_integer, decodes_bytes, decodes_text.
  - done.
  - intros rest. cbn [raw_enc enc decode_item app]. by rewrite (decode_simple 21) by lia.
  - intros rest. cbn [raw_enc enc decode_item app]. by rewrite (decode_simple 20) by lia.
  - intros rest. cbn [raw_enc enc decode_item app]. by rewrite (decode_simple 22) by lia.
  - apply decodes_tag; [done|]. apply IH; [done..|simpl in Hd; lia].
  - apply decodes_array; [done|]. rewrite forallb_Forall_iff in *.
    cbn [value_depth] in Hd. rewrite <-Nat.succ_le_mono, max_list_with_le in Hd.
    rewrite List.Forall_forall in *. intros v Hv. apply IH; auto.
  - apply decodes_map; [done|]. rewrite forallb_pairs_iff in *.
    rewrite value_depth_VMap in Hd. rewrite List.Forall_forall in *. intros e He.
    specialize (IH e He) as [IHk IHw]. specialize (Hff e He) as [??].
    specialize (Hd e He) as [??].
    match goal with H : ∀ x, In x es → value_ok _ = true ∧ _ |- _ =>
      specialize (H e He) as [??] end.
    split; [apply IHk | apply IHw]; auto.
Qed.

(** ** Canonical order is a fixed point *)

Lemma sorted_entries_sorted es :
  StronglySorted (λ x y, key_leb (enc x.1) (enc y.1) = true) (sorted_entries es).
Proof.
  apply (sort_by_sorted (λ x y, key_leb (enc x.1) (enc y.1))).
  - intros x y. apply key_leb_total.
  - intros x y z. apply key_leb_trans.
Qed.

Lemma sorted_entries_unique es1 es2 :
  es1 ≡ₚ es2 → NoDup (map (λ e, enc e.1) es1) → sorted_entries es1 = sorted_entries es2.
Proof.
  intros Hp Hnd.
  apply (sorted_Permutation_unique (λ x y, key_leb (enc x.1) (enc y.1)));
    [|apply sorted_entries_sorted..|by rewrite !sorted_entries_Permutation].
  intros x y Hx Hy Hxy Hyx. pose proof (key_leb_antisym _ _ Hxy Hyx) as Henc.
  rewrite sorted_entries_Permutation in Hx, Hy.
  apply list_elem_of_lookup in Hx as [i Hi]. apply list_elem_of_lookup in Hy as [j Hj].
  assert (i = j) as ->; [|congruence].
  eapply (NoDup_lookup _ _ _ (enc x.1) Hnd); rewrite list_lookup_fmap;
    [by rewrite Hi | rewrite Hj; simpl; congruence].
Qed.

Lemma zlen_Permutation {A} (l1 l2 : list A) : l1 ≡ₚ l2 → zlen l1 = zlen l2.
Proof. unfold zlen. by intros ->. Qed.

Lemma value_ok_entries es :
  value_ok (VMap es) = true ↔
  zlen es < 2 ^ 64 ∧ Forall (λ e, value_ok e.1 = true ∧ value_ok e.2 = true) es.
Proof. cbn [value_ok]. by rewrite andb_true_iff, Z.ltb_lt, forallb_pairs_iff. Qed.

Lemma enc_canon v : enc (canon v) = enc v.
Proof.
  induction v as [n|b|f|s|[]| |t v IH|vs IH|es IH] using Value_nested_ind; try done.
  - cbn [canon enc]. by rewrite IH.
  - cbn [canon enc]. rewrite zlen_map, map_map. do 2 f_equal.
    induction IH; simpl; congruence.
  - rewrite canon_VMap, !enc_VMap, zlen_map, zlen_sorted_entries. do 3 f_equal.
    assert (Forall (λ e, enc_entry (canon_entry e) = enc_entry e) (sorted_entries es)) as He.
    { rewrite sorted_entries_Permutation. eapply List.Forall_impl; [|exact IH].
      intros [k w] [Hk Hw]. unfold enc_entry, canon_entry. simpl in *. congruence. }
    unfold sorted_entries at 1. rewrite sort_by_map.
    rewrite sort_by_sorted_id, map_map.
    + by apply map_ext_Forall.
    + pose proof (sorted_entries_sorted es) as Hs.
      induction Hs as [|e l Hs IHs Hle]; [constructor|].
      inversion He as [|? ? He1 He2]; subst. constructor; [by apply IHs|].
      rewrite List.Forall_forall in *. intros y Hy. specialize (Hle y Hy).
      specialize (He2 y Hy). unfold enc_entry, canon_entry in *. simpl in *. congruence.
Qed.

(** Lifting a predicate on the entries to the canonical entries. *)
Lemma Forall_canon_entries (P Q : Value → Prop) es :
  Forall (λ e, (P e.1 → Q (canon e.1)) ∧ (P e.2 → Q (canon e.2))) es →
  Forall (λ e, P e.1 ∧ P e.2) es →
  Forall (λ e, Q e.1 ∧ Q e.2) (map canon_entry (sorted_entries es)).
Proof.
  rewrite Forall_map, sorted_entries_Permutation, !List.Forall_forall.
  intros IH H e He. specialize (H e He) as [??]. specialize (IH e He) as [??].
  simpl. auto.
Qed.

Lemma value_ok_canon v : value_ok v = true → value_ok (canon v) = true.
Proof.
  induction v as [n|b|f|s|[]| |t v IH|vs IH|es IH] using Value_nested_ind; try done.
  - cbn [canon value_ok]. rewrite !andb_true_iff. tauto.
  - cbn [canon value_ok]. rewrite zlen_map, !andb_true_iff, !forallb_Forall_iff, Forall_map.
    intros [? H]. split; [done|]. rewrite List.Forall_forall in *. auto.
  - rewrite canon_VMap, !value_ok_entries, zlen_map, zlen_sorted_entries.
    intros [? H]. split; [done|]. exact (Forall_canon_entries (λ v, value_ok v = true) (λ v, value_ok v = true) es IH H).
Qed.

Lemma float_free_canon v : float_free v = true → float_free (canon v) = true.
Proof.
  induction v as [n|b|f|s|[]| |t v IH|vs IH|es IH] using Value_nested_ind; try done.
  - cbn [canon float_free]. rewrite !forallb_Forall_iff, Forall_map, !List.Forall_forall.
    rewrite List.Forall_forall in IH. auto.
  - rewrite canon_VMap. cbn [float_free]. rewrite !forallb_pairs_iff.
    exact (Forall_canon_entries (λ v, float_free v = true)
             (λ v, float_free v = true) es IH).
Qed.

Lemma big_integer_bytes t v : big_integer t v = true → ∃ b, v = VBytes b.
Proof. destruct v; try done. by eexists. Qed.

Lemma plain_canon v : plain v = true → plain (canon v) = true.
Proof.
  induction v as [n|b|f|s|[]| |t v IH|vs IH|es IH] using Value_nested_ind; try done.
  - cbn [canon plain]. destruct (_ || _); [|done].
    intros H. by destruct (big_integer_bytes t v H) as [? ->].
  - cbn [canon plain]. rewrite !forallb_Forall_iff, Forall_map, !List.Forall_forall.
    rewrite List.Forall_forall in IH. auto.
  - rewrite canon_VMap. cbn [plain]. rewrite !forallb_pairs_iff.
    exact (Forall_canon_entries (λ v, plain v = true) (λ v, plain v = true) es IH).
Qed.

Lemma plain_float_free v : plain v = true → float_free v = true.
Proof.
  induction v as [n|b|f|s|[]| |t v IH|vs IH|es IH] using Value_nested_ind; try done.
  - cbn [plain float_free]. destruct (_ || _); [|done].
    intros H. by destruct (big_integer_bytes t v H) as [? ->].
  - cbn [plain float_free]. rewrite !forallb_Forall_iff, !List.Forall_forall.
    rewrite List.Forall_forall in IH. auto.
  - cbn [plain float_free]. rewrite !forallb_pairs_iff, !List.Forall_forall.
    rewrite List.Forall_forall in IH. intros H e He.
    specialize (H e He) as [??]. specialize (IH e He) as [??]. auto.
Qed.

Lemma value_depth_canon v n : (value_depth v <= n)%nat → (value_depth (canon v) <= n)%nat.
Proof.
  revert n.
  induction v as [m|b|f|s|[]| |t v IH|vs IH|es IH] using Value_nested_ind; try done;
    intros [|n] Hn; try (simpl in Hn; lia).
  - cbn [canon value_depth] in *. apply le_n_S, IH. lia.
  - cbn [canon value_depth] in *. rewrite <-Nat.succ_le_mono, max_list_with_le in *.
    rewrite Forall_map. rewrite List.Forall_forall in *. intros x Hx.
    apply (IH x Hx). auto.
  - rewrite canon_VMap, value_depth_VMap. rewrite value_depth_VMap in Hn.
    refine (Forall_canon_entries (λ v, value_depth v <= n)%nat
              (λ v, value_depth v <= n)%nat es _ Hn).
    eapply List.Forall_impl; [|exact IH]. intros e [??]. auto.
Qed.

Lemma max_list_with_length {A} (f : A → nat) (g : A → bytes) l :
  Forall (λ x, (f x <= length (g x))%nat) l →
  (max_list_with f l <= length (concat (map g l)))%nat.
Proof. induction 1; simpl; [lia|]. rewrite length_app. lia. Qed.

Lemma value_depth_raw v : (value_depth v <= length (raw_enc v))%nat.
Proof.
  induction v as [n|b|f|s|[]| |t v IH|vs IH|es IH] using Value_nested_ind;
    try (cbn [value_depth]; apply raw_enc_nonempty).
  - cbn [value_depth raw_enc]. rewrite length_app.
    pose proof (head_bytes_nonempty MAJOR_TAG t). lia.
  - cbn [value_depth raw_enc]. rewrite length_app.
    pose proof (head_bytes_nonempty MAJOR_ARRAY (zlen vs)).
    pose proof (max_list_with_length _ _ _ IH). lia.
  - rewrite raw_enc_VMap, length_app. pose proof (head_bytes_nonempty MAJOR_MAP (zlen es)).
    cbn [value_depth].
    assert (Forall (λ e : Value * Value, (let '(k, w) := e in
              value_depth k `max` value_depth w) <= length (raw_entry e))%nat es) as He.
    { eapply List.Forall_impl; [|exact IH]. intros [k w] [? ?].
      unfold raw_entry. simpl in *. rewrite length_app. lia. }
    pose proof (max_list_with_length _ _ _ He). lia.
Qed.

Lemma value_depth_canon_enc v : (value_depth (canon v) <= length (enc v))%nat.
Proof. rewrite enc_raw. apply value_depth_raw. Qed.

Lemma decode_item_enc v fuel rest :
  value_ok v = true → float_free v = true → (value_depth (canon v) <= fuel)%nat →
  decode_item fuel (enc v ++ rest) = Some (canon v, rest).
Proof.
  intros Hok Hff Hd. rewrite enc_raw.
  apply decode_item_raw; auto using value_ok_canon, float_free_canon.
Qed.

Lemma enc_canon_inj v1 v2 :
  value_ok v1 = true → value_ok v2 = true →
  float_free v1 = true → float_free v2 = true →
  enc v1 = enc v2 → canon v1 = canon v2.
Proof.
  intros Hok1 Hok2 Hf1 Hf2 He.
  pose proof (decode_item_enc v1 _ [] Hok1 Hf1 (value_depth_canon_enc v1)) as H1.
  pose proof (decode_item_enc v2 _ [] Hok2 Hf2 (value_depth_canon_enc v2)) as H2.
  rewrite He in H1. congruence.
Qed.

Lemma ctap2_bytes_enc v :
  value_ok v = true → ctap2_canonical_value_bytes v = Ok (enc v).
Proof. apply encode_value_enc. Qed.

(** ** The parser on canonical bytes *)

Lemma decodable_canon v : decodable v = true → decodable (canon v) = true.
Proof.
  unfold decodable. rewrite !andb_true_iff, !Nat.leb_le. intros [[Hok Hp] Hd].
  auto using value_ok_canon, plain_canon, value_depth_canon.
Qed.

Lemma decodable_parts v :
  decodable v = true → value_ok v = true ∧ float_free v = true.
Proof.
  unfold decodable. rewrite !andb_true_iff. intros [[? ?] _]. auto using plain_float_free.
Qed.

(** A writer that keeps the order of entries and a reader of definite-length
    items that skips tags where an integer or a map is asked for: one
    implementation of the interface. *)
Fixpoint ref_i128 (v : Value) : result string Z :=
  match v with
  | VInteger n => Ok n
  | VTag t (VBytes b) =>
      let raw := from_be_bytes b in
      if negb (raw <? 2 ^ 127) then Err "integer too large"
      else if t =? BIGPOS then Ok raw
      else if t =? BIGNEG then Ok (-1 - raw)
      else Err "invalid type: expected integer"
  | VTag _ w => ref_i128 w
  | _ => Err "invalid type: expected integer"
  end.

Fixpoint ref_map (v : Value) : result string (list (Value * Value)) :=
  match v with
  | VMap es => Ok es
  | VTag _ w => ref_map w
  | _ => Err "invalid type: expected map"
  end.

#[export] Instance ciborium_ref : Ciborium :=
  {| cib_from_reader bs :=
       match decode_item (length bs) bs with
       | Some (v, _) => Ok v
       | None => Err "Semantic(None, invalid item)"
       end;
     cib_into_writer v := Ok (raw_enc v);
     cib_deserialize_i128 := ref_i128;
     cib_deserialize_map := ref_map |}.

#[export] Instance ciborium_ref_laws : CiboriumLaws.
Proof.
  split; cbn [cib_from_reader cib_into_writer ciborium_ref].
  - by intros bs v rest -> _.
  - intros v Hv. destruct (decodable_parts v Hv) as [Hok Hff].
    exists (raw_enc v). split; [done|].
    pose proof (decode_item_raw v _ Hok Hff (value_depth_raw v) []) as Hdec.
    rewrite app_nil_r in Hdec. by rewrite Hdec.
  - done.
  - intros b _ Hb. cbn. by replace (from_be_bytes b <? _) with true by (symmetry; by apply Z.ltb_lt).
  - done.
Qed.

Section reader.
Context `{C : Ciborium} `{CL : !CiboriumLaws}.

Lemma reader_enc v extra :
  decodable v = true → cib_from_reader (enc v ++ extra) = Ok (canon v).
Proof.
  intros Hv. destruct (decodable_parts v Hv) as [Hok Hff].
  eapply cib_reads; [|by apply decodable_canon].
  apply decode_item_enc; [done..|]. rewrite length_app.
  pose proof (value_depth_canon_enc v). lia.
Qed.

Lemma from_slice_enc v :
  decodable v = true → ctap2_canonical_value_from_slice (enc v) = Ok (canon v).
Proof.
  intros Hv. destruct (decodable_parts v Hv) as [Hok _].
  unfold ctap2_canonical_value_from_slice, ctap2_canonical_value_bytes.
  pose proof (reader_enc v [] Hv) as Hr. rewrite app_nil_r in Hr. rewrite Hr. simpl.
  rewrite encode_value_enc by auto using value_ok_canon. rewrite enc_canon.
  by rewrite decide_True.
Qed.

(** Serializing a value and canonicalizing what the writer produced gives the
    canonical bytes of the value. *)
Lemma to_canonical_enc v :
  decodable v = true → to_ctap2_canonical_bytes v = Ok (enc v).
Proof.
  intros Hv. destruct (decodable_parts v Hv) as [Hok _].
  unfold to_ctap2_canonical_bytes, ctap2_canonical_value_bytes.
  destruct (cib_write_read v Hv) as (buf & -> & Hr). simpl. rewrite Hr. simpl.
  by rewrite encode_value_enc.
Qed.

Lemma from_canonical_slice_enc {T} (visit : Value → result string T) v :
  decodable v = true →
  from_ctap2_canonical_slice visit (enc v) = map_err CborError (visit (canon v)).
Proof.
  intros Hv. unfold from_ctap2_canonical_slice. rewrite from_slice_enc by done.
  destruct (cib_write_read (canon v) (decodable_canon v Hv)) as (buf & -> & Hr).
  simpl. by rewrite Hr.
Qed.

End reader.

(** Acceptance by the canonical parser, whatever the reader is. *)
Lemma from_slice_Ok `{Ciborium} bs v :
  value_ok v = true → ctap2_canonical_value_from_slice bs = Ok v → bs = enc v.
Proof.
  unfold ctap2_canonical_value_from_slice, ctap2_canonical_value_bytes. intros Hok.
  destruct (map_err _ _) as [w|] eqn:E1; [|done].
  destruct (encode_value w []) as [c|] eqn:E2; [|done].
  case_decide; intros [= ->]. subst. rewrite encode_value_enc in E2 by done.
  by injection E2.
Qed.

(** ** Float vectors of RFC 8949, appendix A *)

Example float_1_5 : encode_float 0x3ff8000000000000 [] = [xf9; x3e; x00].
Proof. vm_compute. reflexivity. Qed.

Example float_smallest_half : encode_float 0x3e70000000000000 [] = [xf9; x00; x01].
Proof. vm_compute. reflexivity. Qed.

Example float_100000 : encode_float 0x40f86a0000000000 [] = [xfa; x47; xc3; x50; x00].
Proof. vm_compute. reflexivity. Qed.

Example float_1_1 :
  encode_float 0x3ff199999999999a [] = [xfb; x3f; xf1; x99; x99; x99; x99; x99; x9a].
Proof. vm_compute. reflexivity. Qed.

Example float_minus_infinity : encode_float 0xfff0000000000000 [] = [xf9; xfc; x00].
Proof. vm_compute. reflexivity. Qed.

(** ** Claims *)

(** C4: on every value ciborium can hold (floats apart), the canonical bytes
    decode, with any continuation, to that value with its maps in canonical
    order, and the decoder stops exactly at their end. *)
Theorem canonical_bytes_roundtrip v bs rest :
  value_ok v = true → float_free v = true →
  ctap2_canonical_value_bytes v = Ok bs →
  decode_item (length bs) (bs ++ rest) = Some (canon v, rest).
Proof.
  unfold ctap2_canonical_value_bytes. intros Hok Hff He.
  rewrite encode_value_enc in He by done. injection He as <-.
  apply decode_item_enc; auto using value_depth_canon_enc.
Qed.

(** The canonical encoding is injective up to the order of map entries:
    equal bytes are the encodings of equal canonical values. *)
Theorem canonical_bytes_injective v1 v2 bs :
  value_ok v1 = true → value_ok v2 = true →
  float_free v1 = true → float_free v2 = true →
  ctap2_canonical_value_bytes v1 = Ok bs → ctap2_canonical_value_bytes v2 = Ok bs →
  canon v1 = canon v2.
Proof.
  intros Hok1 Hok2 Hf1 Hf2 He1 He2.
  rewrite ctap2_bytes_enc in He1, He2 by done. simplify_eq. by apply enc_canon_inj.
Qed.

(** Canonicalization is idempotent and total: every value in range has
    canonical bytes, and reordering its maps canonically does not change them. *)
Theorem canonical_bytes_idempotent v :
  value_ok v = true →
  ∃ bs, ctap2_canonical_value_bytes v = Ok bs ∧
        ctap2_canonical_value_bytes (canon v) = Ok bs.
Proof.
  intros Hok. exists (enc v). unfold ctap2_canonical_value_bytes.
  rewrite !encode_value_enc by auto using value_ok_canon. by rewrite enc_canon.
Qed.

(** The canonical bytes of a map do not depend on the order in which its
    entries were inserted, when its keys encode differently. *)
Theorem canonical_map_order_irrelevant es1 es2 :
  value_ok (VMap es1) = true → es1 ≡ₚ es2 → NoDup (map (λ e, enc e.1) es1) →
  ctap2_canonical_value_bytes (VMap es1) = ctap2_canonical_value_bytes (VMap es2).
Proof.
  intros Hok Hp Hnd.
  assert (value_ok (VMap es2) = true) as Hok2.
  { rewrite value_ok_entries in *. by rewrite <-(zlen_Permutation es1 es2), <-Hp. }
  unfold ctap2_canonical_value_bytes. rewrite !encode_value_enc by done.
  by rewrite !enc_VMap, (sorted_entries_unique es1 es2), (zlen_Permutation es1 es2).
Qed.

(** The head the encoder writes is the shortest of all heads that carry
    the same major type and argument. *)
Theorem encode_u64_shortest major v ai bs out :
  0 <= v < 2 ^ 64 → decode_head bs = Some (major, ai, v, []) →
  encode_u64 major v [] = Ok out → (length out <= length bs)%nat.
Proof.
  intros Hv Hd He. rewrite encode_u64_head in He. injection He as <-. simpl.
  unfold decode_head in Hd. destruct bs as [|b r]; [done|].
  set (x := byte_to_Z b) in *. pose proof (Z.land_nonneg x 0x1f) as Hn.
  assert (∀ n, (n <=? length r)%nat = true → drop n r = [] →
          from_be_bytes (take n r) < 2 ^ (8 * Z.of_nat n) ∧ length r = n) as Harg.
  { intros n Hle%Nat.leb_le Hdr. assert (length r = n) as <-.
    { apply (f_equal length) in Hdr. rewrite length_drop in Hdr. simpl in Hdr. lia. }
    rewrite take_ge by done. split; [|done]. apply from_be_bytes_lt. }
  unfold head_bytes. simpl length.
  repeat case_match; simplify_eq; bool_to_prop; rewrite ?length_cons, ?length_to_be_bytes;
    simpl length; try lia;
    destruct (Harg _ ltac:(eassumption) ltac:(done)) as [Hlt Hlen]; simpl in Hlt; lia.
Qed.

(** The canonical parser accepts the canonical bytes of a value and
    nothing longer: on those bytes it returns the value in canonical order,
    and with any trailing byte it answers [CborNotCanonical]. *)
Theorem canonical_slice_exact `{CiboriumLaws} v bs extra :
  decodable v = true → ctap2_canonical_value_bytes v = Ok bs →
  ctap2_canonical_value_from_slice (bs ++ extra)
  = if decide (extra = []) then Ok (canon v) else Err CborNotCanonical.
Proof.
  intros Hv He. pose proof (decodable_parts v Hv) as [Hok _].
  unfold ctap2_canonical_value_bytes in He. rewrite encode_value_enc in He by done.
  injection He as <-. simpl. case_decide as Hx.
  - subst. rewrite app_nil_r. by apply from_slice_enc.
  - unfold ctap2_canonical_value_from_slice, ctap2_canonical_value_bytes.
    rewrite reader_enc by done. simpl.
    rewrite encode_value_enc by auto using value_ok_canon. rewrite enc_canon.
    rewrite decide_False; [done|]. intros Hn. apply (f_equal length) in Hn.
    simpl in Hn. rewrite length_app in Hn. destruct extra; [done|]. simpl in Hn. lia.
Qed.

(** C30: canonical bytes are not malleable: two accepted inputs that mean the
    same value up to map order are the same bytes, whatever the parser is. *)
Theorem canonical_slice_not_malleable `{Ciborium} bs1 bs2 v1 v2 :
  value_ok v1 = true → value_ok v2 = true →
  ctap2_canonical_value_from_slice bs1 = Ok v1 →
  ctap2_canonical_value_from_slice bs2 = Ok v2 →
  canon v1 = canon v2 → bs1 = bs2.
Proof.
  intros Hok1 Hok2 H1%from_slice_Ok H2%from_slice_Ok Hc; [|done..].
  by rewrite H1, H2, <-(enc_canon v1), <-(enc_canon v2), Hc.
Qed.

(** ** Witnesses *)

(** A two-key map given out of canonical order. *)
Definition sample_value : Value :=
  VMap [(VInteger 10, VBytes [x01; x02]); (VInteger 1, VText "spex");
        (VText "k", VArray [VBool true; VNull; VInteger (-300)])].

Lemma canonical_bytes_roundtrip_witness :
  decode_item (length (enc sample_value)) (enc sample_value ++ [xff])
  = Some (canon sample_value, [xff]).
Proof. apply (canonical_bytes_roundtrip sample_value); reflexivity. Defined.

Lemma canonical_bytes_injective_witness :
  canon (VMap [(VInteger 1, VNull); (VInteger 0, VNull)])
  = canon (VMap [(VInteger 0, VNull); (VInteger 1, VNull)]).
Proof.
  apply (canonical_bytes_injective _ _ [xa2; x00; xf6; x01; xf6]); reflexivity.
Defined.

Lemma canonical_bytes_idempotent_witness :
  ∃ bs, ctap2_canonical_value_bytes sample_value = Ok bs ∧
        ctap2_canonical_value_bytes (canon sample_value) = Ok bs.
Proof. apply (canonical_bytes_idempotent sample_value). reflexivity. Defined.

Lemma canonical_map_order_irrelevant_witness :
  ctap2_canonical_value_bytes (VMap [(VInteger 1, VNull); (VInteger 0, VNull)])
  = ctap2_canonical_value_bytes (VMap [(VInteger 0, VNull); (VInteger 1, VNull)]).
Proof.
  apply (canonical_map_order_irrelevant [(VInteger 1, VNull); (VInteger 0, VNull)]);
    [reflexivity | apply Permutation_swap | ].
  apply (bool_decide_eq_true_1 (NoDup _)). vm_compute. reflexivity.
Defined.

Lemma encode_u64_shortest_witness : (length [x05] <= length [x18; x05])%nat.
Proof.
  apply (encode_u64_shortest 0 5 24 [x18; x05] [x05]); [lia | reflexivity | reflexivity].
Defined.

Lemma canonical_slice_exact_witness :
  ctap2_canonical_value_from_slice (enc sample_value) = Ok (canon sample_value) ∧
  ctap2_canonical_value_from_slice (enc sample_value ++ [x00]) = Err CborNotCanonical.
Proof.
  split.
  - apply (canonical_slice_exact sample_value (enc sample_value) []); reflexivity.
  - apply (canonical_slice_exact sample_value (enc sample_value) [x00]); reflexivity.
Defined.

Lemma canonical_slice_not_malleable_witness : [xa1; x01; xf6] = [xa1; x01; xf6].
Proof.
  apply (canonical_slice_not_malleable _ _ (VMap [(VInteger 1, VNull)])
           (VMap [(VInteger 1, VNull)])); vm_compute; reflexivity.
Defined.
