(* ===== verification/Types.v ===== *)
(** * Protocol records and their CBOR maps (spex-core/src/types.rs)

    Every record of the protocol is written as a CBOR map from field numbers
    to values.  The Rust code builds a [BTreeMap<u64, Value>], inserts the
    fields, then the extensions, and turns it into a [Value::Map]; here the
    map is its ascending list of entries.  [Envelope] is the one record with a
    hand-written deserializer, [visit_map].

    Shown here: field maps in ascending order are already in canonical order;
    an envelope is read back from its canonical bytes; a decoded envelope has its
    fields at their types, but not always its extensions above them; the canonical
    bytes of an envelope and of a grant determine every field when its extensions
    use unreserved numbers, and do not when an extension reuses a reserved one. *)
From Stdlib Require Import ZArith Lia Ascii Strings.Byte.
From stdpp Require Import base list gmap strings sorting numbers.
From S2P Require Import Prelude External Cbor CborFacts.

#[local] Open Scope Z_scope.

Definition key_to_cbor (k : Z) : Value := VInteger k.

Record ProtoSuite := mkProtoSuite {
  ps_major : Z;
  ps_minor : Z;
  ps_ciphersuite_id : Z;
}.

(** The trait with its provided method. *)
Class Ctap2Cbor (A : Type) := to_cbor_value : A → Value.

Definition ctap2_bytes_of {A} `{Ctap2Cbor A} (x : A) : result SpexError bytes :=
  ctap2_canonical_value_bytes (to_cbor_value x).

(** [Value::Map(map.into_iter().map(|(k, v)| (key_to_cbor(k), v)).collect())]. *)
Definition map_value (m : list (Z * Value)) : Value :=
  VMap (map (λ kv, (key_to_cbor kv.1, kv.2)) m).

(** [if let Some(x) = field { map.insert(k, f(x)); }] *)
Definition insert_opt {A} (k : Z) (f : A → Value) (o : option A) (m : list (Z * Value))
    : list (Z * Value) :=
  match o with Some x => btree_insert k (f x) m | None => m end.

(** ** Records *)

Record InviteToken := mkInviteToken {
  inv_major : Z;
  inv_minor : Z;
  inv_requires_puzzle : bool;
  inv_extensions : list (Z * Value);
}.

#[export] Instance InviteToken_cbor : Ctap2Cbor InviteToken := λ t,
  let m := btree_insert 0 (VInteger (inv_major t)) [] in
  let m := btree_insert 1 (VInteger (inv_minor t)) m in
  let m := btree_insert 2 (VBool (inv_requires_puzzle t)) m in
  map_value (btree_insert_all m (inv_extensions t)).

Record ContactCard := mkContactCard {
  card_user_id : bytes;
  card_verifying_key : bytes;
  card_device_id : bytes;
  card_device_nonce : bytes;
  card_issued_at : Z;
  card_invite : option InviteToken;
  card_signature : option bytes;
  card_extensions : list (Z * Value);
}.

Definition ContactCard_map (c : ContactCard) : list (Z * Value) :=
  let m := btree_insert 0 (VBytes (card_user_id c)) [] in
  let m := btree_insert 1 (VBytes (card_verifying_key c)) m in
  let m := btree_insert 2 (VBytes (card_device_id c)) m in
  let m := btree_insert 3 (VBytes (card_device_nonce c)) m in
  let m := btree_insert 4 (VInteger (card_issued_at c)) m in
  let m := insert_opt 5 to_cbor_value (card_invite c) m in
  let m := insert_opt 6 VBytes (card_signature c) m in
  btree_insert_all m (card_extensions c).

#[export] Instance ContactCard_cbor : Ctap2Cbor ContactCard := λ c,
  map_value (ContactCard_map c).

Record GrantToken := mkGrantToken {
  grant_user_id : bytes;
  grant_role : Z;
  grant_flags : option Z;
  grant_expires_at : option Z;
  grant_extensions : list (Z * Value);
}.

Definition GrantToken_map (g : GrantToken) : list (Z * Value) :=
  let m := btree_insert 0 (VBytes (grant_user_id g)) [] in
  let m := btree_insert 1 (VInteger (grant_role g)) m in
  let m := insert_opt 2 VInteger (grant_flags g) m in
  let m := insert_opt 3 VInteger (grant_expires_at g) m in
  btree_insert_all m (grant_extensions g).

#[export] Instance GrantToken_cbor : Ctap2Cbor GrantToken := λ g,
  map_value (GrantToken_map g).

Record ThreadConfig := mkThreadConfig {
  cfg_proto_major : Z;
  cfg_proto_minor : Z;
  cfg_ciphersuite_id : Z;
  cfg_flags : Z;
  cfg_thread_id : bytes;
  cfg_grants : list GrantToken;
  cfg_extensions : list (Z * Value);
}.

Definition ThreadConfig_map (c : ThreadConfig) : list (Z * Value) :=
  let m := btree_insert 0 (VInteger (cfg_proto_major c)) [] in
  let m := btree_insert 1 (VInteger (cfg_proto_minor c)) m in
  let m := btree_insert 2 (VInteger (cfg_ciphersuite_id c)) m in
  let m := btree_insert 3 (VInteger (cfg_flags c)) m in
  let m := btree_insert 4 (VBytes (cfg_thread_id c)) m in
  let m := btree_insert 5 (VArray (map to_cbor_value (cfg_grants c))) m in
  btree_insert_all m (cfg_extensions c).

#[export] Instance ThreadConfig_cbor : Ctap2Cbor ThreadConfig := λ c,
  map_value (ThreadConfig_map c).

Record Envelope := mkEnvelope {
  env_thread_id : bytes;
  env_epoch : Z;
  env_seq : Z;
  env_sender_user_id : bytes;
  env_ciphertext : bytes;
  env_signature : option bytes;
  env_extensions : list (Z * Value);
}.

Definition Envelope_map (e : Envelope) : list (Z * Value) :=
  let m := btree_insert 0 (VBytes (env_thread_id e)) [] in
  let m := btree_insert 1 (VInteger (env_epoch e)) m in
  let m := btree_insert 2 (VInteger (env_seq e)) m in
  let m := btree_insert 3 (VBytes (env_sender_user_id e)) m in
  let m := btree_insert 4 (VBytes (env_ciphertext e)) m in
  let m := insert_opt 5 VBytes (env_signature e) m in
  btree_insert_all m (env_extensions e).

#[export] Instance Envelope_cbor : Ctap2Cbor Envelope := λ e,
  map_value (Envelope_map e).

(** ** Reading an envelope *)

Definition value_as_bytes (value : Value) (field : string) : result string bytes :=
  match value with
  | VBytes b => Ok b
  | _ => Err ("invalid " +:+ field +:+ " field (expected bytes)")
  end.

Definition value_as_u64 (value : Value) (field : string) : result string Z :=
  match value with
  | VInteger n =>
      if 0 <=? n then
        if n <? 2 ^ 64 then Ok n else Err ("invalid " +:+ field +:+ " field range")
      else Err ("invalid " +:+ field +:+ " field (expected unsigned integer)")
  | _ => Err ("invalid " +:+ field +:+ " field (expected unsigned integer)")
  end.

Definition value_as_u32 (value : Value) (field : string) : result string Z :=
  let? raw := value_as_u64 value field in
  if raw <? 2 ^ 32 then Ok raw else Err ("invalid " +:+ field +:+ " field range").

(** The locals of [visit_map]. *)
Record EnvelopeVisitor := mkEnvelopeVisitor {
  ev_thread_id : option bytes;
  ev_epoch : option Z;
  ev_seq : option Z;
  ev_sender_user_id : option bytes;
  ev_ciphertext : option bytes;
  ev_signature : option bytes;
  ev_extensions : list (Z * Value);
}.

Definition visitor_init : EnvelopeVisitor :=
  mkEnvelopeVisitor None None None None None None [].

(** One turn of the loop of [visit_map]. *)
Definition visit_entry `{Ciborium} (s : EnvelopeVisitor) (kv : Value * Value)
    : result string EnvelopeVisitor :=
  let '(mkEnvelopeVisitor t e q u c g x) := s in
  let? key := cib_deserialize_i128 kv.1 in
  let value := kv.2 in
  if key =? 0 then
    let? t := value_as_bytes value "thread_id" in
    Ok (mkEnvelopeVisitor (Some t) e q u c g x)
  else if key =? 1 then
    let? e := value_as_u32 value "epoch" in
    Ok (mkEnvelopeVisitor t (Some e) q u c g x)
  else if key =? 2 then
    let? q := value_as_u64 value "seq" in
    Ok (mkEnvelopeVisitor t e (Some q) u c g x)
  else if key =? 3 then
    let? u := value_as_bytes value "sender_user_id" in
    Ok (mkEnvelopeVisitor t e q (Some u) c g x)
  else if key =? 4 then
    let? c := value_as_bytes value "ciphertext" in
    Ok (mkEnvelopeVisitor t e q u (Some c) g x)
  else if key =? 5 then
    let? g := value_as_bytes value "signature" in
    Ok (mkEnvelopeVisitor t e q u c (Some g) x)
  else if 0 <=? key then
    Ok (mkEnvelopeVisitor t e q u c g (btree_insert (wrap 64 key) value x))
  else Err "negative extension key".

Definition missing_field (field : string) : string := "missing field `" +:+ field +:+ "`".

Definition visit_finish (s : EnvelopeVisitor) : result string Envelope :=
  let? t := ok_or (ev_thread_id s) (missing_field "thread_id") in
  let? e := ok_or (ev_epoch s) (missing_field "epoch") in
  let? q := ok_or (ev_seq s) (missing_field "seq") in
  let? u := ok_or (ev_sender_user_id s) (missing_field "sender_user_id") in
  let? c := ok_or (ev_ciphertext s) (missing_field "ciphertext") in
  Ok (mkEnvelope t e q u c (ev_signature s) (ev_extensions s)).

Definition visit_map `{Ciborium} (entries : list (Value * Value)) : result string Envelope :=
  let? s := try_fold visit_entry visitor_init entries in
  visit_finish s.

(** [Envelope::deserialize]: [deserialize_map] runs the visitor on the entries
    of the item. *)
Definition Envelope_deserialize `{Ciborium} (v : Value) : result string Envelope :=
  let? entries := cib_deserialize_map v in
  visit_map entries.

Definition to_fixed (N : nat) (bs : bytes) : result SpexError bytes :=
  if decide (length bs = N) then Ok bs else Err (InvalidLength "fixed array").

(** * Lemmas *)

(** ** Field numbers in ascending order are in canonical order *)

Lemma bytes_cmp_be a b :
  length a = length b → bytes_cmp a b = (from_be_bytes a ?= from_be_bytes b).
Proof.
  revert b. induction a as [|x a IH]; intros [|y b] Hl; try done.
  injection Hl as Hl. cbn [bytes_cmp]. rewrite !from_be_bytes_cons. pose proof (from_be_bytes_bounds a) as Ha.
  pose proof (from_be_bytes_bounds b) as Hb. unfold zlen in *. rewrite <-Hl in *.
  set (B := 2 ^ (8 * Z.of_nat (length a))) in *.
  destruct (Z.compare_spec (byte_to_Z x) (byte_to_Z y)) as [->| |].
  - rewrite IH by done. symmetry.
    destruct (Z.compare_spec (from_be_bytes a) (from_be_bytes b)) as [->| |].
    + apply Z.compare_refl.
    + apply Z.compare_lt_iff. lia.
    + apply Z.compare_gt_iff. lia.
  - symmetry. apply Z.compare_lt_iff. nia.
  - symmetry. apply Z.compare_gt_iff. nia.
Qed.

Lemma key_leb_be c n a b :
  0 <= a <= b → b < 2 ^ (8 * Z.of_nat n) →
  key_leb (c :: to_be_bytes n a) (c :: to_be_bytes n b) = true.
Proof.
  intros Ha Hb. unfold key_leb, bytes_leb, zlen. simpl length.
  rewrite !length_to_be_bytes, Z.compare_refl. simpl bytes_cmp. rewrite Z.compare_refl.
  rewrite bytes_cmp_be by (by rewrite !length_to_be_bytes).
  rewrite !from_to_be_bytes_fits by (unfold fits; lia).
  destruct (Z.compare_spec a b); try done; lia.
Qed.

Lemma key_leb_shorter a b : (length a < length b)%nat → key_leb a b = true.
Proof.
  intros H. unfold key_leb, zlen. assert (Z.of_nat (length a) < Z.of_nat (length b)) as Hz by lia.
  apply Z.compare_lt_iff in Hz. by rewrite Hz.
Qed.

Lemma key_leb_single a b :
  0 <= a <= b → b <= 23 → key_leb [byte_of_Z (Z.lor 0 a)] [byte_of_Z (Z.lor 0 b)] = true.
Proof.
  intros Ha Hb. change (Z.lor 0 a) with a. change (Z.lor 0 b) with b.
  unfold key_leb, bytes_leb, zlen. simpl.
  rewrite !byte_to_of_Z, !Z.mod_small by lia.
  destruct (Z.compare_spec a b); try done; lia.
Qed.

Lemma head_uint_leb a b :
  0 <= a <= b → b < 2 ^ 64 →
  key_leb (head_bytes MAJOR_UINT a) (head_bytes MAJOR_UINT b) = true.
Proof.
  intros Ha Hb. unfold head_bytes, MAJOR_UINT.
  replace [byte_of_Z (Z.lor 0 24); byte_of_Z a]
    with (byte_of_Z (Z.lor 0 24) :: to_be_bytes 1 a) by (simpl; by rewrite Z.shiftr_0_r).
  replace [byte_of_Z (Z.lor 0 24); byte_of_Z b]
    with (byte_of_Z (Z.lor 0 24) :: to_be_bytes 1 b) by (simpl; by rewrite Z.shiftr_0_r).
  repeat case_match; bool_to_prop; try lia;
    first [ apply key_leb_single; lia
          | apply key_leb_be; simpl; lia
          | apply key_leb_shorter; rewrite ?length_cons, ?length_to_be_bytes; simpl; lia ].
Qed.

(** A field map: ascending keys of 64 bits. *)
Definition fields_ok (m : list (Z * Value)) : Prop :=
  btree_ok m ∧ Forall (λ kv, fits 64 kv.1) m.

Definition field_entry (kv : Z * Value) : Value * Value := (key_to_cbor kv.1, kv.2).

Lemma sorted_field_entries m :
  fields_ok m → sorted_entries (map field_entry m) = map field_entry m.
Proof.
  intros [Hs Hk]. apply sort_by_sorted_id. unfold btree_ok in Hs.
  induction Hs as [|[k v] m Hs IH Hm]; simpl; [constructor|].
  inversion Hk as [|? ? Hk1 Hk2]; subst. constructor; [by apply IH|].
  rewrite Forall_map, !List.Forall_forall in *. intros [k' v'] Hin.
  specialize (Hm _ Hin). specialize (Hk2 _ Hin). unfold fits in *. simpl in *.
  unfold enc. replace (0 <=? k) with true by lia. replace (0 <=? k') with true by lia.
  apply head_uint_leb; lia.
Qed.

Definition canon_fields (m : list (Z * Value)) : list (Z * Value) :=
  map (λ kv, (kv.1, canon kv.2)) m.

Lemma canon_map_value m :
  fields_ok m → canon (map_value m) = map_value (canon_fields m).
Proof.
  intros Hm. unfold map_value. fold field_entry.
  change (map (λ kv : Z * Value, (key_to_cbor kv.1, kv.2))) with (map field_entry).
  rewrite canon_VMap, sorted_field_entries by done.
  unfold canon_fields. rewrite !map_map. done.
Qed.

Lemma map_value_inj m1 m2 : map_value m1 = map_value m2 → m1 = m2.
Proof.
  unfold map_value. intros [= H]. revert m2 H.
  induction m1 as [|[k v] m1 IH]; intros [|[k2 v2] m2] H; simplify_eq/=; [done|].
  f_equal. by apply IH.
Qed.

Lemma btree_get_canon_fields k m :
  btree_get k (canon_fields m) = option_map canon (btree_get k m).
Proof. induction m as [|[k' v] m IH]; simpl; [done|]. by destruct (k =? k'). Qed.

(** The canonical bytes of a field map determine its entries, up to the map
    order inside the values. *)
Lemma enc_map_value_inj m1 m2 :
  fields_ok m1 → fields_ok m2 →
  value_ok (map_value m1) = true → value_ok (map_value m2) = true →
  float_free (map_value m1) = true → float_free (map_value m2) = true →
  enc (map_value m1) = enc (map_value m2) → canon_fields m1 = canon_fields m2.
Proof.
  intros Hm1 Hm2 Ho1 Ho2 Hf1 Hf2 He. apply map_value_inj.
  rewrite <-!canon_map_value by done. by apply enc_canon_inj.
Qed.

(** ** Extensions above the reserved numbers *)

Lemma btree_insert_above {V} k (v : V) m :
  Forall (λ kv, kv.1 < k) m → btree_insert k v m = m ++ [(k, v)].
Proof.
  induction 1 as [|[k' v'] m Hk Hm IH]; simpl in *; [done|].
  replace (k <? k') with false by lia. replace (k =? k') with false by lia. by rewrite IH.
Qed.

Lemma btree_insert_all_above {V} (m ext : list (Z * V)) n :
  Forall (λ kv, kv.1 < n) m → btree_ok ext → Forall (λ kv, n <= kv.1) ext →
  btree_insert_all m ext = m ++ ext.
Proof.
  unfold btree_insert_all. intros Hm Hs Hext. revert n m Hm Hext.
  induction Hs as [|[k v] ext Hs IH Hx]; intros n m Hm Hext; simpl; [by rewrite app_nil_r|].
  inversion Hext as [|? ? Hk Hext']; subst. simpl in Hk.
  rewrite btree_insert_above, (IH (k + 1)).
  - by rewrite <-app_assoc.
  - apply Forall_app. split; [|repeat constructor; simpl; lia].
    eapply List.Forall_impl; [|exact Hm]. simpl. lia.
  - eapply List.Forall_impl; [|exact Hx]. simpl. lia.
  - eapply List.Forall_impl; [|exact Hm]. simpl. lia.
Qed.

Definition ext_ok (reserved : Z) (ext : list (Z * Value)) : Prop :=
  btree_ok ext ∧ Forall (λ kv, reserved <= kv.1 < 2 ^ 64) ext.

Lemma canon_fields_ext_ok n ext : ext_ok n ext → ext_ok n (canon_fields ext).
Proof.
  intros [Hs Hk]. split; [|unfold canon_fields; by rewrite Forall_map].
  unfold btree_ok, canon_fields in *. induction Hs as [|[k v] m Hs IH Hm]; simpl; [constructor|].
  inversion Hk; subst. constructor; [by apply IH|]. by rewrite Forall_map.
Qed.

(** The fields that precede the extensions. *)
Definition env_fields (e : Envelope) : list (Z * Value) :=
  [(0, VBytes (env_thread_id e)); (1, VInteger (env_epoch e)); (2, VInteger (env_seq e));
   (3, VBytes (env_sender_user_id e)); (4, VBytes (env_ciphertext e))] ++
  match env_signature e with Some s => [(5, VBytes s)] | None => [] end.

Lemma Envelope_map_eq e :
  ext_ok 6 (env_extensions e) → Envelope_map e = env_fields e ++ env_extensions e.
Proof.
  intros [Hs Hk]. unfold Envelope_map, env_fields.
  destruct (env_signature e); simpl;
    (rewrite (btree_insert_all_above _ _ 6); [done| |done|]);
    try (repeat constructor; simpl; lia);
    eapply List.Forall_impl; try exact Hk; simpl; lia.
Qed.

Definition env_wf (e : Envelope) : Prop :=
  fits 32 (env_epoch e) ∧ fits 64 (env_seq e) ∧ ext_ok 6 (env_extensions e).

Lemma StronglySorted_app {A} (R : A → A → Prop) l1 l2 :
  StronglySorted R l1 → StronglySorted R l2 → (∀ x y, In x l1 → In y l2 → R x y) →
  StronglySorted R (l1 ++ l2).
Proof.
  induction 1 as [|x l1 Hs IH Hx]; intros H2 H; simpl; [done|].
  constructor.
  - apply IH; [done|]. intros; apply H; simpl; auto.
  - apply Forall_app. split; [done|]. apply List.Forall_forall. intros y Hy.
    apply H; simpl; auto.
Qed.

(** Fields below [n] followed by extensions from [n] on. *)
Lemma fields_ok_app n m ext :
  btree_ok m → Forall (λ kv, 0 <= kv.1 < n) m → n <= 2 ^ 64 → 0 <= n → ext_ok n ext →
  fields_ok (m ++ ext).
Proof.
  intros Hm Hk Hn Hn0 [Hs Hx]. split.
  - apply StronglySorted_app; [done..|]. rewrite List.Forall_forall in Hk, Hx.
    intros x y H1%Hk H2%Hx. lia.
  - apply Forall_app. split; (eapply List.Forall_impl; [|eassumption]); unfold fits; simpl; lia.
Qed.

Lemma env_fields_ok e : ext_ok 6 (env_extensions e) → fields_ok (Envelope_map e).
Proof.
  intros Hx. rewrite Envelope_map_eq by done. apply (fields_ok_app 6); try done;
    unfold env_fields, btree_ok; destruct (env_signature e);
    repeat constructor; simpl; lia.
Qed.

(** The envelope with the maps inside its extension values in canonical order. *)
Definition env_canon (e : Envelope) : Envelope :=
  mkEnvelope (env_thread_id e) (env_epoch e) (env_seq e) (env_sender_user_id e)
    (env_ciphertext e) (env_signature e) (canon_fields (env_extensions e)).

Lemma key_read `{CiboriumLaws} k : fits 64 k → cib_deserialize_i128 (key_to_cbor k) = Ok k.
Proof.
  intros [? ?]. apply cib_i128_integer. cbn. rewrite andb_true_iff, Z.leb_le, Z.ltb_lt. lia.
Qed.

Lemma visit_extensions `{CiboriumLaws} ext t e q u c g x :
  Forall (λ kv, 6 <= kv.1 < 2 ^ 64) ext →
  try_fold visit_entry (mkEnvelopeVisitor t e q u c g x) (map field_entry ext)
  = Ok (mkEnvelopeVisitor t e q u c g (btree_insert_all x ext)).
Proof.
  intros Hall. revert x. induction Hall as [|[k v] ext Hk Hext IH]; intros x; [done|].
  cbn [map field_entry try_fold visit_entry fst snd]. simpl in Hk.
  rewrite key_read by (unfold fits; lia).
  replace (k =? 0) with false by lia. replace (k =? 1) with false by lia.
  replace (k =? 2) with false by lia. replace (k =? 3) with false by lia.
  replace (k =? 4) with false by lia. replace (k =? 5) with false by lia.
  replace (0 <=? k) with true by lia. unfold wrap. rewrite Z.mod_small by lia.
  apply IH.
Qed.

Lemma btree_insert_all_nil {V} (ext : list (Z * V)) : btree_ok ext → btree_insert_all [] ext = ext.
Proof.
  intros Hs. apply btree_ext; [auto with spex|done|]. intros k.
  rewrite btree_get_insert_all by done. by destruct (btree_get k ext).
Qed.

Lemma value_as_u64_fits n f : fits 64 n → value_as_u64 (VInteger n) f = Ok n.
Proof.
  intros [? ?]. unfold value_as_u64. replace (0 <=? n) with true by lia.
  by replace (n <? 2 ^ 64) with true by lia.
Qed.

Lemma value_as_u32_fits n f : fits 32 n → value_as_u32 (VInteger n) f = Ok n.
Proof.
  intros [? ?]. unfold value_as_u32. rewrite value_as_u64_fits by (unfold fits; lia).
  by replace (n <? 2 ^ 32) with true by lia.
Qed.

#[local] Arguments value_as_u64 : simpl never.
#[local] Arguments value_as_u32 : simpl never.

Lemma visit_map_fields `{CiboriumLaws} e :
  env_wf e → visit_map (map field_entry (env_fields e ++ env_extensions e)) = Ok e.
Proof.
  intros (He & Hq & [Hs Hx]). unfold visit_map, env_fields.
  rewrite map_app, try_fold_app.
  destruct e as [t ep q u c g x]; simpl in *.
  repeat (first [rewrite cib_i128_integer by done | rewrite value_as_u32_fits by done
                |rewrite value_as_u64_fits by done]; simpl).
  destruct g; simpl; rewrite ?cib_i128_integer by done; simpl; (rewrite visit_extensions; [|done]);
    rewrite btree_insert_all_nil by done; done.
Qed.

Lemma canon_fields_app a b : canon_fields (a ++ b) = canon_fields a ++ canon_fields b.
Proof. apply map_app. Qed.

Lemma Envelope_deserialize_canon `{CiboriumLaws} e :
  env_wf e → Envelope_deserialize (canon (to_cbor_value e)) = Ok (env_canon e).
Proof.
  intros (He & Hq & Hx). unfold Envelope_deserialize, to_cbor_value, Envelope_cbor.
  rewrite canon_map_value by (by apply env_fields_ok).
  rewrite Envelope_map_eq, canon_fields_app by done.
  replace (canon_fields (env_fields e)) with (env_fields (env_canon e)).
  2:{ unfold env_fields. simpl. by destruct (env_signature e). }
  unfold map_value. rewrite cib_map_entries. apply (visit_map_fields (env_canon e)).
  split; [done|split; [done|]]. by apply canon_fields_ext_ok.
Qed.

(** The canonical bytes of an envelope are read back. *)
Lemma envelope_bytes_read `{CiboriumLaws} (e : Envelope) bs :
  env_wf e → decodable (to_cbor_value e) = true → ctap2_bytes_of e = Ok bs →
  from_ctap2_canonical_slice Envelope_deserialize bs = Ok (env_canon e).
Proof.
  intros Hwf Hd He. unfold ctap2_bytes_of in He.
  rewrite ctap2_bytes_enc in He by (by apply decodable_parts).
  assert (bs = enc (to_cbor_value e)) as -> by congruence.
  rewrite from_canonical_slice_enc by done. by rewrite Envelope_deserialize_canon.
Qed.

(** ** Whatever is decoded is well-typed *)

Lemma value_as_u64_Ok v f n : value_as_u64 v f = Ok n → fits 64 n.
Proof.
  unfold value_as_u64. destruct v as [z| | | | | | | |]; try done.
  destruct (0 <=? z) eqn:E1; [|done]. destruct (z <? 2 ^ 64) eqn:E2; [|done].
  intros [= <-]. bool_to_prop. by split.
Qed.

Lemma value_as_u32_Ok v f n : value_as_u32 v f = Ok n → fits 32 n.
Proof.
  unfold value_as_u32. destruct (value_as_u64 v f) as [m|] eqn:E; [|done].
  apply value_as_u64_Ok in E as [? _]. destruct (m <? 2 ^ 32) eqn:E2; [|done].
  intros [= <-]. bool_to_prop. by split.
Qed.

(** The locals of [visit_map] at the types of the fields they become, with
    extension numbers from [n] on. *)
Record visitor_wf (n : Z) (s : EnvelopeVisitor) : Prop := {
  vw_epoch : ∀ e, ev_epoch s = Some e → fits 32 e;
  vw_seq : ∀ q, ev_seq s = Some q → fits 64 q;
  vw_extensions : ext_ok n (ev_extensions s);
}.

Lemma ext_ok_insert n k v ext :
  ext_ok n ext → n <= k < 2 ^ 64 → ext_ok n (btree_insert k v ext).
Proof.
  intros [Hs Hx] Hk. split; [auto with spex|]. rewrite List.Forall_forall in Hx |- *.
  intros kv [->|Hin]%list_elem_of_In%btree_insert_keys; [done|]. by apply Hx, list_elem_of_In.
Qed.

Lemma wrap_bounds k : 0 <= wrap 64 k < 2 ^ 64.
Proof. apply Z.mod_pos_bound. lia. Qed.

(** [n] bounds the numbers of the extensions among the keys read. *)
Definition numbered_from `{Ciborium} (n : Z) (kv : Value * Value) : Prop :=
  ∀ k, cib_deserialize_i128 kv.1 = Ok k → 6 <= k → n <= wrap 64 k.

Lemma visit_entry_wf `{Ciborium} n s kv s' :
  visitor_wf n s → numbered_from n kv → visit_entry s kv = Ok s' → visitor_wf n s'.
Proof.
  intros [He Hq Hx] Hn. destruct s as [t e q u c g x], kv as [k v]. cbn in *.
  destruct (cib_deserialize_i128 k) as [key|] eqn:Ek; [|done].
  specialize (Hn key Ek). pose proof (wrap_bounds key).
  repeat match goal with
  | |- context [if ?b then _ else _] => destruct b eqn:?
  | |- context [match value_as_bytes ?v ?f with _ => _ end] => destruct (value_as_bytes v f)
  | |- context [match value_as_u32 ?v ?f with _ => _ end] => destruct (value_as_u32 v f) eqn:?
  | |- context [match value_as_u64 ?v ?f with _ => _ end] => destruct (value_as_u64 v f) eqn:?
  end; try done; intros [= <-]; split; cbn; try done.
  - intros z [= <-]. by eapply value_as_u32_Ok.
  - intros z [= <-]. by eapply value_as_u64_Ok.
  - bool_to_prop. apply ext_ok_insert; [done|]. lia.
Qed.

Lemma visit_entries_wf `{Ciborium} n es s s' :
  visitor_wf n s → Forall (numbered_from n) es →
  try_fold visit_entry s es = Ok s' → visitor_wf n s'.
Proof.
  intros Hs He. revert s Hs. induction He as [|kv es Hk _ IH]; intros s Hs; cbn [try_fold].
  - by intros [= <-].
  - destruct (visit_entry s kv) as [s1|] eqn:E; [|done]. apply IH. by eapply visit_entry_wf.
Qed.

Lemma visit_map_wf `{Ciborium} n es e :
  Forall (numbered_from n) es → visit_map es = Ok e →
  fits 32 (env_epoch e) ∧ fits 64 (env_seq e) ∧ ext_ok n (env_extensions e).
Proof.
  intros Hes. unfold visit_map, visit_finish.
  destruct (try_fold visit_entry visitor_init es) as [s|] eqn:E; [|done].
  apply (visit_entries_wf n) in E as [He Hq Hx]; [| |done].
  - destruct s as [[t|] [ep|] [q|] [u|] [c|] g x]; cbn in *; try done. intros [= <-].
    split_and!; cbn; [by apply He|by apply Hq|done].
  - split; cbn; [done..|]. split; constructor.
Qed.

(** ** The bytes of an envelope *)

Lemma env_fields_inj e1 e2 ext1 ext2 :
  Forall (λ kv, 6 <= kv.1 < 2 ^ 64) ext1 → Forall (λ kv, 6 <= kv.1 < 2 ^ 64) ext2 →
  env_fields e1 ++ ext1 = env_fields e2 ++ ext2 →
  env_thread_id e1 = env_thread_id e2 ∧ env_epoch e1 = env_epoch e2 ∧ env_seq e1 = env_seq e2 ∧
  env_sender_user_id e1 = env_sender_user_id e2 ∧ env_ciphertext e1 = env_ciphertext e2 ∧
  env_signature e1 = env_signature e2 ∧ ext1 = ext2.
Proof.
  unfold env_fields. intros H1 H2 Heq.
  destruct (env_signature e1), (env_signature e2); simpl in Heq; destruct H1; destruct H2;
    simplify_eq/=; repeat split; try done; exfalso; lia.
Qed.

(** The canonical bytes of an envelope whose extensions keep to unreserved
    numbers determine all its fields. *)
Lemma envelope_enc_inj e1 e2 :
  ext_ok 6 (env_extensions e1) → ext_ok 6 (env_extensions e2) →
  value_ok (to_cbor_value e1) = true → value_ok (to_cbor_value e2) = true →
  float_free (to_cbor_value e1) = true → float_free (to_cbor_value e2) = true →
  enc (to_cbor_value e1) = enc (to_cbor_value e2) → env_canon e1 = env_canon e2.
Proof.
  intros Hx1 Hx2 Ho1 Ho2 Hf1 Hf2 He.
  apply enc_map_value_inj in He; [|by try apply env_fields_ok..].
  rewrite !Envelope_map_eq, !canon_fields_app in He by done.
  assert (∀ e, canon_fields (env_fields e) = env_fields e) as Hc.
  { intros e. unfold env_fields. by destruct (env_signature e). }
  rewrite !Hc in He.
  apply env_fields_inj in He as (? & ? & ? & ? & ? & ? & ?);
    [|apply (canon_fields_ext_ok 6); done..].
  unfold env_canon. congruence.
Qed.

(** ** Grants *)

Definition grant_wf (g : GrantToken) : Prop :=
  ext_ok 4 (grant_extensions g) ∧
  value_ok (to_cbor_value g) = true ∧ float_free (to_cbor_value g) = true.

Definition grant_fields (g : GrantToken) : list (Z * Value) :=
  [(0, VBytes (grant_user_id g)); (1, VInteger (grant_role g))] ++
  match grant_flags g with Some f => [(2, VInteger f)] | None => [] end ++
  match grant_expires_at g with Some t => [(3, VInteger t)] | None => [] end.

Lemma GrantToken_map_eq g :
  ext_ok 4 (grant_extensions g) → GrantToken_map g = grant_fields g ++ grant_extensions g.
Proof.
  intros [Hs Hk]. unfold GrantToken_map, grant_fields.
  destruct (grant_flags g), (grant_expires_at g); simpl;
    (rewrite (btree_insert_all_above _ _ 4); [done| |done|]);
    try (repeat constructor; simpl; lia);
    eapply List.Forall_impl; try exact Hk; simpl; lia.
Qed.

Lemma grant_fields_ok g : ext_ok 4 (grant_extensions g) → fields_ok (GrantToken_map g).
Proof.
  intros Hx. rewrite GrantToken_map_eq by done. apply (fields_ok_app 4); try done;
    unfold grant_fields, btree_ok; destruct (grant_flags g), (grant_expires_at g);
    repeat constructor; simpl; lia.
Qed.

Definition grant_canon (g : GrantToken) : GrantToken :=
  mkGrantToken (grant_user_id g) (grant_role g) (grant_flags g) (grant_expires_at g)
    (canon_fields (grant_extensions g)).

Lemma grant_fields_inj g1 g2 ext1 ext2 :
  Forall (λ kv, 4 <= kv.1 < 2 ^ 64) ext1 → Forall (λ kv, 4 <= kv.1 < 2 ^ 64) ext2 →
  grant_fields g1 ++ ext1 = grant_fields g2 ++ ext2 →
  grant_user_id g1 = grant_user_id g2 ∧ grant_role g1 = grant_role g2 ∧
  grant_flags g1 = grant_flags g2 ∧ grant_expires_at g1 = grant_expires_at g2 ∧
  ext1 = ext2.
Proof.
  unfold grant_fields. intros H1 H2 H.
  destruct (grant_flags g1), (grant_flags g2), (grant_expires_at g1), (grant_expires_at g2);
    simpl in H; destruct H1; destruct H2; simplify_eq/=; repeat split; try done; exfalso; lia.
Qed.

Lemma grant_enc_inj g1 g2 :
  grant_wf g1 → grant_wf g2 →
  enc (to_cbor_value g1) = enc (to_cbor_value g2) → grant_canon g1 = grant_canon g2.
Proof.
  intros (Hx1 & Ho1 & Hf1) (Hx2 & Ho2 & Hf2) He.
  apply enc_map_value_inj in He; [|by try apply grant_fields_ok..].
  rewrite !GrantToken_map_eq, !canon_fields_app in He by done.
  assert (∀ g, canon_fields (grant_fields g) = grant_fields g) as Hc.
  { intros g. unfold grant_fields. by destruct (grant_flags g), (grant_expires_at g). }
  rewrite !Hc in He.
  apply grant_fields_inj in He as (? & ? & ? & ? & ?);
    [|apply (canon_fields_ext_ok 4); done..].
  unfold grant_canon. congruence.
Qed.

(** ** Claims *)

(** C31: an envelope is read back from its canonical bytes: every field, the
    optional signature and all extensions survive (the maps nested in extension
    values come back in canonical order).  The extensions must have numbers above
    those of the fields, and values of the kind ciborium reads back as they are: no
    floats, ASCII text, at most a hundred levels, and under the tags 2 and 3 only
    numbers too big for a CBOR integer. *)
Theorem envelope_roundtrip `{CiboriumLaws} (e : Envelope) bs :
  env_wf e → decodable (to_cbor_value e) = true →
  ctap2_bytes_of e = Ok bs →
  from_ctap2_canonical_slice Envelope_deserialize bs = Ok (env_canon e).
Proof.
  apply envelope_bytes_read.
Qed.

(** C32: whatever item the parser hands over, an envelope that is decoded from it has
    its fields at their types: an epoch of 32 bits, a sequence number of 64, and
    extensions with distinct numbers of 64 bits in ascending order.  If all keys of
    the item are below 2^64, none of the extensions has the number of a field; a
    bigger key is cut to 64 bits and can have one. *)
Theorem decoded_envelope_typed `{Ciborium} v e :
  Envelope_deserialize v = Ok e →
  fits 32 (env_epoch e) ∧ fits 64 (env_seq e) ∧ ext_ok 0 (env_extensions e) ∧
  ∃ es, cib_deserialize_map v = Ok es ∧
    ((∀ kv k, kv ∈ es → cib_deserialize_i128 kv.1 = Ok k → k < 2 ^ 64) → env_wf e).
Proof.
  unfold Envelope_deserialize. destruct (cib_deserialize_map v) as [es|]; [|done]. intros He.
  destruct (visit_map_wf 0 es e) as (H1 & H2 & H3); [|done|].
  { apply List.Forall_forall. intros kv _ k _ _. apply wrap_bounds. }
  split_and!; [done..|]. exists es. split; [done|]. intros Hk.
  apply (visit_map_wf 6 es); [|done]. apply List.Forall_forall.
  intros kv Hin%list_elem_of_In k Hr Hk6. unfold wrap. specialize (Hk kv k Hin Hr).
  rewrite Z.mod_small; lia.
Qed.

(** The canonical bytes of a grant whose extensions keep to unreserved
    numbers determine user, role, flags, expiry and extensions. *)
Theorem grant_bytes_binding (g1 g2 : GrantToken) bs :
  grant_wf g1 → grant_wf g2 →
  ctap2_bytes_of g1 = Ok bs → ctap2_bytes_of g2 = Ok bs →
  grant_canon g1 = grant_canon g2.
Proof.
  intros H1 H2 He1 He2. unfold ctap2_bytes_of in *.
  rewrite ctap2_bytes_enc in He1 by apply H1. rewrite ctap2_bytes_enc in He2 by apply H2.
  apply grant_enc_inj; congruence.
Qed.

(** Nothing stops an extension from using a reserved number: an extension
    numbered 1 replaces the role in the map that is hashed and signed, so two
    grants that differ in their role have the same canonical bytes. *)
Theorem grant_extension_shadows_role uid r1 r2 flags expires v :
  ctap2_bytes_of (mkGrantToken uid r1 flags expires [(1, v)])
  = ctap2_bytes_of (mkGrantToken uid r2 flags expires [(1, v)]).
Proof. by destruct flags, expires. Qed.

(** ** Witnesses *)

Definition sample_envelope : Envelope :=
  mkEnvelope (replicate 32 x11) 7 42 (replicate 20 x33) [x01; x02; x03] (Some [xaa])
    [(6, VText "ext"); (300, VBool true)].

Lemma env_wf_sample : env_wf sample_envelope.
Proof.
  split; [|split; [|split]]; try (unfold fits; simpl; lia);
    repeat constructor; simpl; lia.
Qed.

Lemma envelope_roundtrip_witness :
  from_ctap2_canonical_slice Envelope_deserialize (enc (to_cbor_value sample_envelope))
  = Ok sample_envelope.
Proof.
  apply (envelope_roundtrip sample_envelope);
    [exact env_wf_sample | vm_compute; reflexivity | vm_compute; reflexivity].
Defined.

Lemma decoded_envelope_typed_witness :
  fits 32 (env_epoch sample_envelope) ∧ ext_ok 0 (env_extensions sample_envelope).
Proof.
  destruct (decoded_envelope_typed (to_cbor_value sample_envelope) sample_envelope)
    as (H1 & _ & H3 & _); [vm_compute; reflexivity|]. split; assumption.
Defined.

Definition sample_grant : GrantToken :=
  mkGrantToken [x01; x02] 2 (Some 1) (Some 1000) [(4, VInteger 9)].

Lemma grant_wf_sample : grant_wf sample_grant.
Proof.
  split; [split|split]; try reflexivity; repeat constructor; simpl; lia.
Qed.

Lemma grant_bytes_binding_witness : grant_canon sample_grant = grant_canon sample_grant.
Proof.
  apply (grant_bytes_binding _ _ (enc (to_cbor_value sample_grant)));
    [exact grant_wf_sample | exact grant_wf_sample | reflexivity | reflexivity].
Defined.
