(* ===== verification/Core.v ===== *)
(** * Hashing, signatures, proof of work, grants (spex-core)

    The files hash.rs, sign.rs, pow.rs, validation.rs, aead_ad.rs, mls_ext.rs
    and utils.rs of spex-core.  SHA-256, Ed25519 and Argon2id are the classes
    of [External]; the default features are modelled, so SHA-256 is the one
    [HashId].

    Shown here: a grant signed by its issuer validates exactly until it
    expires, and validation of a signature binds every field of the grant; the
    puzzle a client computes is accepted under the same parameters and weaker
    parameters are refused; the associated data and the MLS extensions
    determine their parts. *)
From Stdlib Require Import ZArith Lia Ascii Strings.Byte.
From stdpp Require Import base list gmap strings sorting numbers.
From S2P Require Import Prelude External Cbor CborFacts Types.

#[local] Open Scope Z_scope.

(** ** utils.rs *)

Definition u16be (v : Z) : bytes := to_be_bytes 2 v.
Definition u32be (v : Z) : bytes := to_be_bytes 4 v.
Definition u64be (v : Z) : bytes := to_be_bytes 8 v.

(** ** hash.rs *)

Inductive HashId : Type := HashSha256.

Definition hash_id_as_u16 (h : HashId) : Z := match h with HashSha256 => 1 end.

Section hash.
Context `{Sha256} `{Ciborium}.

Definition hash_bytes (hash_id : HashId) (data : bytes) : bytes :=
  match hash_id with HashSha256 => sha256 data end.

Definition hash_ctap2_cbor (hash_id : HashId) (ser : Value) : result SpexError bytes :=
  let? cbor := to_ctap2_canonical_bytes ser in
  Ok (hash_bytes hash_id cbor).

Definition hash_ctap2_cbor_value {A} `{Ctap2Cbor A} (hash_id : HashId) (value : A)
    : result SpexError bytes :=
  let? cbor := ctap2_bytes_of value in
  Ok (hash_bytes hash_id cbor).

End hash.

(** ** sign.rs *)

Section sign.
Context `{Sha256} `{Ed25519} `{Ciborium}.

Definition ed25519_signing_key_from_seed (seed32 : bytes) : result SpexError bytes :=
  if decide (length seed32 = 32%nat) then Ok seed32
  else Err (InvalidLength "ed25519 seed must be 32 bytes").

Definition ed25519_verify_key (signing : bytes) : bytes := ed_verifying_key signing.

Definition ed25519_sign_hash (signing msg_hash : bytes) : bytes := ed_sign signing msg_hash.

Definition ed25519_verify_hash (verify msg_hash sig : bytes) : result SpexError unit :=
  if ed_verify_strict verify msg_hash sig then Ok tt else Err SigVerifyFailed.

Definition ed25519_sign_ctap2_cbor (signing : bytes) (hash_id : HashId) (ser : Value)
    : result SpexError bytes :=
  let? cbor := to_ctap2_canonical_bytes ser in
  Ok (ed25519_sign_hash signing (hash_bytes hash_id cbor)).

Definition ed25519_verify_ctap2_cbor (verify : bytes) (hash_id : HashId) (ser : Value)
    (sig : bytes) : result SpexError unit :=
  let? cbor := to_ctap2_canonical_bytes ser in
  ed25519_verify_hash verify (hash_bytes hash_id cbor) sig.

Definition ed25519_sign_ctap2_cbor_value {A} `{Ctap2Cbor A} (signing : bytes)
    (hash_id : HashId) (value : A) : result SpexError bytes :=
  let? cbor := ctap2_bytes_of value in
  Ok (ed25519_sign_hash signing (hash_bytes hash_id cbor)).

Definition ed25519_verify_ctap2_cbor_value {A} `{Ctap2Cbor A} (verify : bytes)
    (hash_id : HashId) (value : A) (sig : bytes) : result SpexError unit :=
  let? cbor := ctap2_bytes_of value in
  ed25519_verify_hash verify (hash_bytes hash_id cbor) sig.

End sign.

(** ** pow.rs *)

Definition SALT_CONTEXT : bytes := as_bytes "spex.pow.recipient.salt.v1".

Record PowParams := mkPowParams {
  memory_kib : Z;
  iterations : Z;
  parallelism : Z;
  output_len : Z;
}.

Definition pow_minimum : PowParams :=
  {| memory_kib := 64 * 1024; iterations := 3; parallelism := 1; output_len := 32 |}.

Definition pow_default : PowParams := pow_minimum.

Definition meets_minimum (p : PowParams) : bool :=
  let minimum := pow_minimum in
  (memory_kib minimum <=? memory_kib p) && (iterations minimum <=? iterations p).

Record PowNonceParams := mkPowNonceParams { nonce_len : Z }.

Definition pow_nonce_default : PowNonceParams := {| nonce_len := 32 |}.

(** The operating system's generator fills a buffer of the given length. *)
Definition generate_pow_nonce (os_rng : Z → bytes) (params : PowNonceParams) : bytes :=
  os_rng (nonce_len params).

Definition validate_pow_nonce (nonce : bytes) (params : PowNonceParams)
    : result SpexError unit :=
  if negb (zlen nonce =? nonce_len params) then Err (InvalidLength "pow nonce") else Ok tt.

Definition build_puzzle_input (nonce payload : bytes) : bytes := nonce ++ payload.

Section pow.
Context `{Sha256} `{Argon2}.

Definition to_argon2 (p : PowParams) : result SpexError unit :=
  map_err Argon2Error
    (argon2_params_new (memory_kib p) (iterations p) (parallelism p) (output_len p)).

Definition derive_recipient_salt_with_context (recipient_key context : bytes) : bytes :=
  sha256 (context ++ recipient_key).

Definition derive_recipient_salt (recipient_key : bytes) : bytes :=
  derive_recipient_salt_with_context recipient_key SALT_CONTEXT.

Definition generate_puzzle_output (recipient_key puzzle_input : bytes) (params : PowParams)
    : result SpexError bytes :=
  let salt := derive_recipient_salt recipient_key in
  let? _ := to_argon2 params in
  map_err Argon2Error
    (argon2_hash (memory_kib params) (iterations params) (parallelism params)
       (output_len params) puzzle_input salt).

Definition verify_puzzle_output (recipient_key puzzle_input expected : bytes)
    (params : PowParams) : result SpexError bool :=
  if negb (meets_minimum params) then
    Err (InvalidInput "pow params below minimum requirements")
  else if negb (zlen expected =? output_len params) then
    Err (InvalidLength "argon2 output")
  else
    let? derived := generate_puzzle_output recipient_key puzzle_input params in
    Ok (bool_decide (derived = expected)).

End pow.

(** ** validation.rs *)

Inductive GrantPowValidationError : Type :=
| GrantExpired
| GrantInvalid
| PowTooWeak
| PowInvalid
| ValidationCore (e : SpexError).

Section validation.
Context `{Sha256} `{Ed25519} `{Argon2}.

Definition validate_grant_token (now : Z) (grant : GrantToken)
    (verifying_key signature : bytes) : result GrantPowValidationError unit :=
  let check :=
    let? hash := map_err ValidationCore (hash_ctap2_cbor_value HashSha256 grant) in
    let? _ := map_err (λ _, GrantInvalid)
                (ed25519_verify_hash verifying_key hash signature) in
    Ok tt in
  match grant_expires_at grant with
  | Some expires_at => if expires_at <=? now then Err GrantExpired else check
  | None => check
  end.

Definition validate_pow_puzzle (recipient_key puzzle_input puzzle_output : bytes)
    (params minimum : PowParams) : result GrantPowValidationError unit :=
  if (memory_kib params <? memory_kib minimum)
     || (iterations params <? iterations minimum)
     || (parallelism params <? parallelism minimum)
     || (output_len params <? output_len minimum)
  then Err PowTooWeak
  else
    let? valid := map_err ValidationCore
      (verify_puzzle_output recipient_key puzzle_input puzzle_output params) in
    if negb valid then Err PowInvalid else Ok tt.

End validation.

(** ** aead_ad.rs *)

Definition build_ad (thread_id : bytes) (epoch : Z) (cfg_hash : bytes) (suite : ProtoSuite)
    (seq : Z) (sender_userid : bytes) : bytes :=
  let out := thread_id in
  let out := out ++ u32be epoch in
  let out := out ++ cfg_hash in
  let out := out ++ u16be (ps_major suite) in
  let out := out ++ u16be (ps_minor suite) in
  let out := out ++ u16be (ps_ciphersuite_id suite) in
  let out := out ++ u64be seq in
  out ++ sender_userid.

(** ** mls_ext.rs *)

Definition EXT_SPEX_PROTO_SUITE : Z := 0xF0A0.
Definition EXT_SPEX_CFG_HASH : Z := 0xF0A1.

Definition ext_proto_suite_bytes (major minor ciphersuite_id flags : Z) : bytes :=
  let data := u16be major ++ u16be minor ++ u16be ciphersuite_id ++ [byte_of_Z flags] in
  u16be EXT_SPEX_PROTO_SUITE ++ u16be (wrap 16 (zlen data)) ++ data.

(** [None] is the panic of [assert!(cfg_hash.len() <= 255)]. *)
Definition ext_cfg_hash_bytes (hash_id : Z) (cfg_hash : bytes) : option bytes :=
  if zlen cfg_hash <=? 255 then
    let data := u16be hash_id ++ [byte_of_Z (wrap 8 (zlen cfg_hash))] ++ cfg_hash in
    Some (u16be EXT_SPEX_CFG_HASH ++ u16be (wrap 16 (zlen data)) ++ data)
  else None.

(** * Lemmas *)

Section grants.
Context `{Sha256} `{Ed25519} `{Argon2}.

(** What validation of a grant decides. *)
Definition grant_live (now : Z) (g : GrantToken) : bool :=
  match grant_expires_at g with Some t => now <? t | None => true end.

Definition grant_digest (g : GrantToken) : bytes := sha256 (enc (to_cbor_value g)).

Lemma grant_hash g :
  value_ok (to_cbor_value g) = true →
  hash_ctap2_cbor_value HashSha256 g = Ok (grant_digest g).
Proof.
  intros Hok. unfold hash_ctap2_cbor_value, ctap2_bytes_of.
  by rewrite ctap2_bytes_enc.
Qed.

Lemma validate_grant_token_eq now g vk sg :
  value_ok (to_cbor_value g) = true →
  validate_grant_token now g vk sg
  = if negb (grant_live now g) then Err GrantExpired
    else if ed_verify_strict vk (grant_digest g) sg then Ok tt else Err GrantInvalid.
Proof.
  intros Hok. unfold validate_grant_token. rewrite grant_hash by done. simpl.
  unfold ed25519_verify_hash, grant_live.
  destruct (grant_expires_at g) as [t|]; simpl.
  - rewrite Z.leb_antisym. destruct (now <? t); simpl; [|done].
    by destruct (ed_verify_strict _ _ _).
  - by destruct (ed_verify_strict _ _ _).
Qed.

Lemma validate_pow_puzzle_iff `{!Argon2Laws} rk input out params minimum :
  validate_pow_puzzle rk input out params minimum = Ok tt ↔
  memory_kib minimum <= memory_kib params ∧ iterations minimum <= iterations params ∧
  parallelism minimum <= parallelism params ∧ output_len minimum <= output_len params ∧
  meets_minimum params = true ∧
  generate_puzzle_output rk input params = Ok out.
Proof.
  unfold validate_pow_puzzle, verify_puzzle_output. split.
  - destruct (_ || _) eqn:E; [done|]. bool_to_prop.
    destruct (meets_minimum params); [|done]. destruct (zlen out =? _) eqn:El; [|done]. simpl.
    destruct (generate_puzzle_output rk input params) as [d|]; [|done]. simpl.
    case_bool_decide; [subst; done|done].
  - intros (Hm & Hi & Hp & Ho & Hmin & Hg). rewrite Hmin, Hg.
    replace (memory_kib params <? _) with false by lia.
    replace (iterations params <? _) with false by lia.
    replace (parallelism params <? _) with false by lia.
    replace (output_len params <? _) with false by lia. simpl.
    assert (zlen out = output_len params) as ->.
    { unfold generate_puzzle_output in Hg. destruct (to_argon2 params); [|done].
      destruct (argon2_hash _ _ _ _ _ _) eqn:Ea; [|done]. injection Hg as <-.
      by eapply argon2_hash_length. }
    rewrite Z.eqb_refl. simpl. by rewrite bool_decide_true.
Qed.

End grants.

Lemma length_u16be v : length (u16be v) = 2%nat.
Proof. apply length_to_be_bytes. Qed.
Lemma length_u32be v : length (u32be v) = 4%nat.
Proof. apply length_to_be_bytes. Qed.
Lemma length_u64be v : length (u64be v) = 8%nat.
Proof. apply length_to_be_bytes. Qed.

Lemma u16be_inj a b : fits 16 a → fits 16 b → u16be a = u16be b → a = b.
Proof. apply (to_be_bytes_inj 2). Qed.
Lemma u32be_inj a b : fits 32 a → fits 32 b → u32be a = u32be b → a = b.
Proof. apply (to_be_bytes_inj 4). Qed.
Lemma u64be_inj a b : fits 64 a → fits 64 b → u64be a = u64be b → a = b.
Proof. apply (to_be_bytes_inj 8). Qed.

(** ** Claims *)

Section claims.
Context `{S : Sha256} `{D : Ed25519} `{A : Argon2}.

(** A grant signed by the issuer over its canonical hash validates under
    the issuer's key exactly while it is not expired; the expiry instant itself
    is already too late. *)
Theorem signed_grant_validates `{!Ed25519Laws} sk g sg now :
  length sk = 32%nat → value_ok (to_cbor_value g) = true →
  ed25519_sign_ctap2_cbor_value sk HashSha256 g = Ok sg →
  validate_grant_token now g (ed25519_verify_key sk) sg
  = if grant_live now g then Ok tt else Err GrantExpired.
Proof.
  intros Hsk Hok Hs. unfold ed25519_sign_ctap2_cbor_value, ctap2_bytes_of in Hs.
  rewrite ctap2_bytes_enc in Hs by done. simplify_eq.
  rewrite validate_grant_token_eq by done. destruct (grant_live now g); [|done].
  unfold ed25519_verify_key, ed25519_sign_hash, grant_digest. simpl.
  by rewrite ed_sign_verifies.
Qed.

(** The hash a grant signature covers binds the whole grant: two grants
    with the same hash agree in every field, unless their encodings are a
    collision of the hash function. *)
Theorem grant_hash_binding g1 g2 h :
  grant_wf g1 → grant_wf g2 →
  collision_free [enc (to_cbor_value g1); enc (to_cbor_value g2)] →
  hash_ctap2_cbor_value HashSha256 g1 = Ok h →
  hash_ctap2_cbor_value HashSha256 g2 = Ok h →
  grant_canon g1 = grant_canon g2.
Proof.
  intros H1 H2 Hcf Hh1 Hh2. rewrite grant_hash in Hh1 by apply H1.
  rewrite grant_hash in Hh2 by apply H2. apply grant_enc_inj; [done..|].
  apply Hcf; [left|right; left|]. unfold grant_digest in *. congruence.
Qed.

(** The proof of work accepts an output exactly when the parameters reach
    both the required and the built-in minimum and the output is what Argon2id
    computes for that recipient and input. *)
Theorem pow_puzzle_accepts_iff `{!Argon2Laws} rk input out params minimum :
  validate_pow_puzzle rk input out params minimum = Ok tt ↔
  memory_kib minimum <= memory_kib params ∧ iterations minimum <= iterations params ∧
  parallelism minimum <= parallelism params ∧ output_len minimum <= output_len params ∧
  meets_minimum params = true ∧
  generate_puzzle_output rk input params = Ok out.
Proof. apply validate_pow_puzzle_iff. Qed.

End claims.

(** The associated data determines every one of its parts: thread, epoch,
    configuration hash, protocol suite, sequence number and sender. *)
Theorem build_ad_injective t1 e1 c1 s1 q1 u1 t2 e2 c2 s2 q2 u2 :
  length t1 = 32%nat → length t2 = 32%nat → length c1 = 32%nat → length c2 = 32%nat →
  fits 32 e1 → fits 32 e2 → fits 64 q1 → fits 64 q2 →
  fits 16 (ps_major s1) → fits 16 (ps_major s2) →
  fits 16 (ps_minor s1) → fits 16 (ps_minor s2) →
  fits 16 (ps_ciphersuite_id s1) → fits 16 (ps_ciphersuite_id s2) →
  build_ad t1 e1 c1 s1 q1 u1 = build_ad t2 e2 c2 s2 q2 u2 →
  t1 = t2 ∧ e1 = e2 ∧ c1 = c2 ∧ s1 = s2 ∧ q1 = q2 ∧ u1 = u2.
Proof.
  intros Ht1 Ht2 Hc1 Hc2 He1 He2 Hq1 Hq2 Ha1 Ha2 Hb1 Hb2 Hd1 Hd2 H.
  unfold build_ad in H. rewrite <-!app_assoc in H.
  apply app_inj_len in H as [-> H]; [|congruence].
  apply app_inj_len in H as [He H]; [|by rewrite !length_u32be].
  apply app_inj_len in H as [-> H]; [|congruence].
  do 3 (apply app_inj_len in H as [?H H]; [|by rewrite !length_u16be]).
  apply app_inj_len in H as [Hq ->]; [|by rewrite !length_u64be].
  apply u32be_inj in He; [|done..]. apply u64be_inj in Hq; [|done..].
  destruct s1 as [a1 b1 d1], s2 as [a2 b2 d2]; simpl in *.
  by rewrite (u16be_inj a1 a2), (u16be_inj b1 b2), (u16be_inj d1 d2).
Qed.

(** ** Witnesses *)

Import Reference.

Lemma signed_grant_validates_witness :
  validate_grant_token 999 sample_grant (ed25519_verify_key (replicate 32 x07))
    (ed25519_sign_hash (replicate 32 x07) (grant_digest sample_grant)) = Ok tt ∧
  validate_grant_token 1000 sample_grant (ed25519_verify_key (replicate 32 x07))
    (ed25519_sign_hash (replicate 32 x07) (grant_digest sample_grant)) = Err GrantExpired.
Proof.
  split; [apply (signed_grant_validates (replicate 32 x07) sample_grant _ 999)
         |apply (signed_grant_validates (replicate 32 x07) sample_grant _ 1000)];
    reflexivity.
Defined.

Lemma grant_hash_binding_witness : grant_canon sample_grant = grant_canon sample_grant.
Proof.
  apply (grant_hash_binding sample_grant sample_grant (grant_digest sample_grant));
    [exact grant_wf_sample | exact grant_wf_sample | | reflexivity | reflexivity].
  intros x y Hx Hy _.
  apply elem_of_cons in Hx as [->|Hx]; [|apply list_elem_of_singleton in Hx as ->];
  (apply elem_of_cons in Hy as [->|Hy]; [|apply list_elem_of_singleton in Hy as ->]); done.
Defined.

Lemma pow_puzzle_accepts_iff_witness :
  validate_pow_puzzle [x01] [x02] (default [] (result_ok
    (generate_puzzle_output [x01] [x02] pow_default))) pow_default pow_minimum = Ok tt.
Proof.
  apply (proj2 (pow_puzzle_accepts_iff [x01] [x02] _ pow_default pow_minimum)).
  repeat split; simpl; lia.
Defined.

Lemma build_ad_injective_witness : [x05] = [x05] ∧ 3 = 3.
Proof.
  destruct (build_ad_injective (replicate 32 x00) 3 (replicate 32 x01) (mkProtoSuite 1 0 1) 9
    [x05] (replicate 32 x00) 3 (replicate 32 x01) (mkProtoSuite 1 0 1) 9 [x05])
    as (? & ? & _ & _ & _ & ?); try reflexivity; try (unfold fits; simpl; lia).
  done.
Defined.
