(* ===== verification/Log.v ===== *)
(** * The checkpoint log (spex-core/src/log.rs)

    An append-only list of key checkpoints, recovery keys and revocations with
    an incremental Merkle frontier.  [append_leaf] is the loop of the source
    on the frontier, [root] its fold; [log_ser] and [log_de] stand for the
    serializer and deserializer serde derives.

    The specification side builds the tree itself: [tree] with [th] its hash,
    [inc] the binary-counter increment on a frontier of perfect trees.

    Shown here: appending keeps the frontier in step with the entries and
    returns the root a rebuild would compute; equal roots mean equal entries
    unless SHA-256 collides on the hashed strings; comparison of two logs
    decides the prefix order; export and import are inverse. *)
From Stdlib Require Import ZArith Lia Ascii Strings.Byte.
From stdpp Require Import base list gmap strings sorting numbers.
From S2P Require Import Prelude External Cbor CborFacts Types Core.

#[local] Open Scope Z_scope.

(** ** Entries *)

Record KeyCheckpoint := mkKeyCheckpoint {
  kc_user_id : bytes;
  kc_verifying_key : bytes;
  kc_device_id : bytes;
  kc_issued_at : Z;
}.

#[export] Instance KeyCheckpoint_cbor : Ctap2Cbor KeyCheckpoint := λ k,
  let m := btree_insert 0 (VBytes (kc_user_id k)) [] in
  let m := btree_insert 1 (VBytes (kc_verifying_key k)) m in
  let m := btree_insert 2 (VBytes (kc_device_id k)) m in
  let m := btree_insert 3 (VInteger (kc_issued_at k)) m in
  map_value m.

Record RecoveryKey := mkRecoveryKey {
  rk_user_id : bytes;
  rk_recovery_key : bytes;
  rk_issued_at : Z;
}.

#[export] Instance RecoveryKey_cbor : Ctap2Cbor RecoveryKey := λ k,
  let m := btree_insert 0 (VBytes (rk_user_id k)) [] in
  let m := btree_insert 1 (VBytes (rk_recovery_key k)) m in
  let m := btree_insert 2 (VInteger (rk_issued_at k)) m in
  map_value m.

Record RevocationDeclaration := mkRevocationDeclaration {
  rv_user_id : bytes;
  rv_revoked_key_hash : bytes;
  rv_revoked_at : Z;
  rv_recovery_key_hash : option bytes;
  rv_reason : option string;
}.

#[export] Instance RevocationDeclaration_cbor : Ctap2Cbor RevocationDeclaration := λ r,
  let m := btree_insert 0 (VBytes (rv_user_id r)) [] in
  let m := btree_insert 1 (VBytes (rv_revoked_key_hash r)) m in
  let m := btree_insert 2 (VInteger (rv_revoked_at r)) m in
  let m := insert_opt 3 VBytes (rv_recovery_key_hash r) m in
  let m := insert_opt 4 VText (rv_reason r) m in
  map_value m.

Inductive CheckpointEntry : Type :=
| CKey (k : KeyCheckpoint)
| CRecovery (k : RecoveryKey)
| CRevocation (r : RevocationDeclaration).

#[export] Instance CheckpointEntry_cbor : Ctap2Cbor CheckpointEntry := λ e,
  let m :=
    match e with
    | CKey k => btree_insert 1 (to_cbor_value k) (btree_insert 0 (VInteger 0) [])
    | CRecovery k => btree_insert 1 (to_cbor_value k) (btree_insert 0 (VInteger 1) [])
    | CRevocation r => btree_insert 1 (to_cbor_value r) (btree_insert 0 (VInteger 2) [])
    end in
  map_value m.

#[export] Instance KeyCheckpoint_eq_dec : EqDecision KeyCheckpoint.
Proof. solve_decision. Defined.
#[export] Instance RecoveryKey_eq_dec : EqDecision RecoveryKey.
Proof. solve_decision. Defined.
#[export] Instance RevocationDeclaration_eq_dec : EqDecision RevocationDeclaration.
Proof. solve_decision. Defined.
#[export] Instance CheckpointEntry_eq_dec : EqDecision CheckpointEntry.
Proof. solve_decision. Defined.

Inductive LogConsistency : Type := Identical | LocalBehind | LocalAhead | Diverged.

(** ** The Merkle frontier *)

Record MerkleState := mkMerkleState {
  frontier : list (option bytes);
  leaf_count : Z;
}.

Definition merkle_new : MerkleState := {| frontier := []; leaf_count := 0 |}.

(** The width of [usize]; the loop of [append_leaf] shifts an index of that
    width to the right at every turn. *)
Definition usize_bits : nat := 64.

Section merkle.
Context `{Sha256}.

Definition hash_node (left right : bytes) : bytes :=
  hash_bytes HashSha256 (x01 :: left ++ right).

Definition leaf_hash (entry : CheckpointEntry) : result SpexError bytes :=
  let? encoded := ctap2_canonical_value_bytes (to_cbor_value entry) in
  Ok (hash_bytes HashSha256 (x00 :: encoded)).

(** The fold of [root] over the occupied levels, from the top down. *)
Definition root_step (root : option bytes) (hash : bytes) : option bytes :=
  Some (match root with None => hash | Some accum => hash_node hash accum end).

Definition root (st : MerkleState) : bytes :=
  default [] (fold_left root_step (omap id (rev (frontier st))) None).

(** The [while index & 1 == 1] loop: the level reached, the carried hash and
    the frontier with the merged levels taken. *)
Fixpoint append_loop (fuel : nat) (index : Z) (level : nat) (carry : bytes)
    (fr : list (option bytes)) : nat * bytes * list (option bytes) :=
  match fuel with
  | O => (level, carry, fr)
  | S f =>
      if Z.land index 1 =? 1 then
        match fr !! level with
        | Some (Some sibling) =>
            append_loop f (Z.shiftr index 1) (S level) (hash_node sibling carry)
              (<[level := None]> fr)
        | _ => append_loop f (Z.shiftr index 1) (S level) carry fr
        end
      else (level, carry, fr)
  end.

(** [resize_with(level + 1, || None)] when too short, then the assignment. *)
Definition place (level : nat) (carry : bytes) (fr : list (option bytes))
    : list (option bytes) :=
  let fr := if (length fr <=? level)%nat
            then fr ++ replicate (S level - length fr) None else fr in
  <[level := Some carry]> fr.

Definition append_leaf (st : MerkleState) (leaf : bytes) : MerkleState * bytes :=
  let '(level, carry, fr) :=
    append_loop usize_bits (leaf_count st) 0 leaf (frontier st) in
  let st' := {| frontier := place level carry fr;
                leaf_count := wadd 64 (leaf_count st) 1 |} in
  (st', root st').

Definition merkle_from_entries (entries : list CheckpointEntry)
    : result SpexError MerkleState :=
  try_fold (λ st entry,
    let? leaf := leaf_hash entry in
    Ok (append_leaf st leaf).1) merkle_new entries.

(** ** The log *)

Record CheckpointLog := mkCheckpointLog {
  entries : list CheckpointEntry;
  merkle_state : MerkleState;
}.

Definition log_new : CheckpointLog := {| entries := []; merkle_state := merkle_new |}.

Definition rebuild_merkle_state (log : CheckpointLog) : result SpexError CheckpointLog :=
  let? st := merkle_from_entries (entries log) in
  Ok {| entries := entries log; merkle_state := st |}.

Definition ensure_merkle_state (log : CheckpointLog) : result SpexError CheckpointLog :=
  if leaf_count (merkle_state log) =? zlen (entries log) then Ok log
  else rebuild_merkle_state log.

Definition append_with_root (log : CheckpointLog) (entry : CheckpointEntry)
    : result SpexError (CheckpointLog * bytes) :=
  let? log := ensure_merkle_state log in
  let? leaf := leaf_hash entry in
  let '(st, r) := append_leaf (merkle_state log) leaf in
  Ok ({| entries := entries log ++ [entry]; merkle_state := st |}, r).

Definition log_append (log : CheckpointLog) (entry : CheckpointEntry)
    : result SpexError CheckpointLog :=
  let? lr := append_with_root log entry in
  Ok lr.1.

Definition merkle_root (log : CheckpointLog) : result SpexError bytes :=
  match entries log with
  | [] => Ok []
  | _ =>
      if leaf_count (merkle_state log) =? zlen (entries log)
      then Ok (root (merkle_state log))
      else
        let? st := merkle_from_entries (entries log) in
        Ok (root st)
  end.

Definition is_prefix_of (self other : CheckpointLog) : bool :=
  if zlen (entries other) <? zlen (entries self) then false
  else forallb (λ lr, bool_decide (lr.1 = lr.2)) (zip (entries self) (entries other)).

Definition compare_with (self other : CheckpointLog) : LogConsistency :=
  if decide (entries self = entries other) then Identical
  else if is_prefix_of self other then LocalBehind
  else if is_prefix_of other self then LocalAhead
  else Diverged.

End merkle.

(** ** Serialization *)

(** The entries the Rust types can hold: 64-bit times and lengths, fewer of
    them than a [Vec] can hold. *)
Definition entry_time (e : CheckpointEntry) : Z :=
  match e with
  | CKey k => kc_issued_at k
  | CRecovery k => rk_issued_at k
  | CRevocation r => rv_revoked_at r
  end.

Definition entry_ok (e : CheckpointEntry) : Prop :=
  value_ok (to_cbor_value e) = true ∧ fits 64 (entry_time e).

Definition entries_ok (es : list CheckpointEntry) : Prop :=
  Forall entry_ok es ∧ zlen es < 2 ^ 63.

(** The code serde derives for the log: the value its serializer writes and
    the visitor of its deserializer. *)
Class LogSerde := {
  log_ser : list CheckpointEntry → Value;
  log_de : Value → result string (list CheckpointEntry);
}.

(** What is relied on: reading a written log gives it back, wherever the
    writer put the map entries. *)
Class LogSerdeLaws `{LogSerde} : Prop :=
  log_de_ser : ∀ es, entries_ok es → log_de (canon (log_ser es)) = Ok es.

Section serialization.
Context `{Sha256} `{Ciborium} `{LogSerde} `{Base64}.

Definition to_cbor_bytes (log : CheckpointLog) : result SpexError bytes :=
  to_ctap2_canonical_bytes (log_ser (entries log)).

(** The [#[serde(skip)]] field is left at its default. *)
Definition from_cbor_bytes (bs : bytes) : result SpexError CheckpointLog :=
  let? value := map_err CborError (cib_from_reader bs) in
  let? es := map_err CborError (log_de value) in
  rebuild_merkle_state {| entries := es; merkle_state := merkle_new |}.

Definition export_base64 (log : CheckpointLog) : result SpexError string :=
  let? bs := to_cbor_bytes log in
  Ok (b64_encode bs).

Definition import_base64 (encoded : string) : result SpexError CheckpointLog :=
  let? bs := map_err InvalidInput (b64_decode encoded) in
  from_cbor_bytes bs.

End serialization.

(** * Specification: the tree behind the frontier *)

Inductive tree : Type :=
| Leaf (e : bytes)
| Node (l r : tree).

Fixpoint leaves (t : tree) : list bytes :=
  match t with Leaf e => [e] | Node l r => leaves l ++ leaves r end.

Fixpoint perfect (d : nat) (t : tree) : Prop :=
  match d, t with
  | O, Leaf _ => True
  | S d', Node l r => perfect d' l ∧ perfect d' r
  | _, _ => False
  end.

Fixpoint left_depth (t : tree) : nat :=
  match t with Leaf _ => 0 | Node l _ => S (left_depth l) end.

(** Adding a tree at the lowest level of a frontier: a binary counter. *)
Fixpoint inc (t : tree) (ts : list (option tree)) : list (option tree) :=
  match ts with
  | [] => [Some t]
  | None :: ts' => Some t :: ts'
  | Some l :: ts' => None :: inc (Node l t) ts'
  end.

Fixpoint count (ts : list (option tree)) : Z :=
  match ts with
  | [] => 0
  | o :: ts' => match o with Some _ => 1 | None => 0 end + 2 * count ts'
  end.

Fixpoint frontier_leaves (ts : list (option tree)) : list bytes :=
  match ts with
  | [] => []
  | o :: ts' => frontier_leaves ts' ++ match o with Some t => leaves t | None => [] end
  end.

(** Level [i] of a frontier that starts at level [k] holds a perfect tree of
    depth [k + i]. *)
Fixpoint wf_from (k : nat) (ts : list (option tree)) : Prop :=
  match ts with
  | [] => True
  | o :: ts' => match o with Some t => perfect k t | None => True end ∧ wf_from (S k) ts'
  end.

Fixpoint root_tree (ts : list (option tree)) : option tree :=
  match ts with
  | [] => None
  | o :: ts' =>
      match o, root_tree ts' with
      | None, r => r
      | Some t, None => Some t
      | Some t, Some r => Some (Node t r)
      end
  end.

Definition frontier_of (encs : list bytes) : list (option tree) :=
  fold_left (λ ts e, inc (Leaf e) ts) encs [].

(** ** The counter *)

Lemma count_inc t ts : count (inc t ts) = count ts + 1.
Proof.
  revert t. induction ts as [|[l|] ts IH]; intros t; simpl; [done| |lia].
  rewrite IH. lia.
Qed.

Lemma count_nonneg ts : 0 <= count ts.
Proof. induction ts as [|[l|] ts IH]; simpl; lia. Qed.

Lemma frontier_leaves_inc t ts :
  frontier_leaves (inc t ts) = frontier_leaves ts ++ leaves t.
Proof.
  revert t. induction ts as [|[l|] ts IH]; intros t; simpl; [done| |].
  - rewrite IH. simpl. by rewrite app_nil_r, app_assoc.
  - by rewrite app_nil_r.
Qed.

Lemma wf_from_inc k t ts : perfect k t → wf_from k ts → wf_from k (inc t ts).
Proof.
  revert k t. induction ts as [|[l|] ts IH]; intros k t Ht; simpl; [done| |tauto].
  intros [Hl Hts]. split; [done|]. by apply IH.
Qed.

Lemma frontier_of_app encs e : frontier_of (encs ++ [e]) = inc (Leaf e) (frontier_of encs).
Proof. unfold frontier_of. by rewrite fold_left_app. Qed.

Lemma frontier_of_facts encs :
  count (frontier_of encs) = zlen encs ∧
  frontier_leaves (frontier_of encs) = encs ∧ wf_from 0 (frontier_of encs).
Proof.
  induction encs as [|e encs (IHc & IHl & IHw)] using rev_ind; [done|].
  rewrite frontier_of_app, count_inc, frontier_leaves_inc, IHc, IHl.
  unfold zlen. rewrite length_app. simpl. split; [lia|]. split; [done|].
  by apply wf_from_inc.
Qed.

(** ** The source's loop is the counter *)

Section simulation.
Context `{Sha256}.

Fixpoint th (t : tree) : bytes :=
  match t with
  | Leaf e => sha256 (x00 :: e)
  | Node l r => hash_node (th l) (th r)
  end.

Abbreviation hashes ts := (map (option_map th) ts).

Lemma land_1_odd z : Z.land (1 + 2 * z) 1 = 1 ∧ Z.shiftr (1 + 2 * z) 1 = z.
Proof.
  change (Z.land (1 + 2 * z) 1) with (Z.land (1 + 2 * z) (Z.ones 1)).
  rewrite Z.land_ones, Z.shiftr_div_pow2 by lia.
  change (2 ^ 1) with 2. split; [|symmetry; apply Z.div_unique with 1; lia].
  symmetry. apply Z.mod_unique with z; lia.
Qed.

Lemma land_1_even z : Z.land (0 + 2 * z) 1 = 0.
Proof.
  change (Z.land (0 + 2 * z) 1) with (Z.land (0 + 2 * z) (Z.ones 1)).
  rewrite Z.land_ones by lia. change (2 ^ 1) with 2.
  symmetry. apply Z.mod_unique with z; lia.
Qed.

Lemma insert_mid {A} (pre : list A) x y post :
  <[length pre := y]> (pre ++ x :: post) = pre ++ y :: post.
Proof. induction pre; simpl; [done|]. by f_equal. Qed.

Lemma append_loop_inc fuel t ts pre :
  count ts < 2 ^ Z.of_nat fuel →
  (let '(level, carry, fr) :=
     append_loop fuel (count ts) (length pre) (th t) (pre ++ hashes ts) in
   place level carry fr) = pre ++ hashes (inc t ts).
Proof.
  revert fuel t pre. induction ts as [|[l|] ts IH]; intros fuel t pre Hf.
  - assert (append_loop fuel (count []) (length pre) (th t) (pre ++ hashes [])
            = (length pre, th t, pre)) as ->.
    { simpl. rewrite app_nil_r. by destruct fuel. }
    unfold place. rewrite Nat.leb_refl.
    replace (S (length pre) - length pre)%nat with 1%nat by lia. apply insert_mid.
  - destruct fuel as [|fuel]; [pose proof (count_nonneg ts); simpl in Hf; lia|].
    cbn [count append_loop]. destruct (land_1_odd (count ts)) as [-> ->]. simpl map.
    rewrite list_lookup_middle by done. simpl. rewrite insert_mid.
    replace (S (length pre)) with (length (pre ++ [@None bytes]))
      by (rewrite length_app; simpl; lia).
    change (hash_node (th l) (th t)) with (th (Node l t)).
    replace (pre ++ None :: hashes ts) with ((pre ++ [None]) ++ hashes ts)
      by (by rewrite <-app_assoc).
    rewrite IH; [by rewrite <-app_assoc|].
    rewrite Nat2Z.inj_succ, Z.pow_succ_r in Hf by lia. simpl in Hf. lia.
  - cbn [count]. assert (append_loop fuel (0 + 2 * count ts) (length pre) (th t)
        (pre ++ hashes (None :: ts)) = (length pre, th t, pre ++ hashes (None :: ts))) as ->.
    { destruct fuel; [done|]. cbn [append_loop]. by rewrite land_1_even. }
    unfold place. simpl map. rewrite length_app. simpl length.
    replace (_ <=? _)%nat with false by (symmetry; apply Nat.leb_gt; lia).
    apply insert_mid.
Qed.

Lemma root_hashes ts c :
  root {| frontier := hashes ts; leaf_count := c |} = default [] (option_map th (root_tree ts)).
Proof.
  unfold root. simpl.
  assert (fold_left root_step (omap id (rev (hashes ts))) None
          = option_map th (root_tree ts)) as ->; [|done].
  induction ts as [|o ts IH]; [done|]. simpl.
  rewrite omap_app, fold_left_app, IH.
  destruct o as [t|], (root_tree ts) as [r|]; done.
Qed.

Definition state_of (encs : list bytes) : MerkleState :=
  {| frontier := hashes (frontier_of encs); leaf_count := zlen encs |}.

Lemma append_leaf_state encs e :
  zlen encs < 2 ^ 63 →
  append_leaf (state_of encs) (sha256 (x00 :: e))
  = (state_of (encs ++ [e]), root (state_of (encs ++ [e]))).
Proof.
  intros Hlen. destruct (frontier_of_facts encs) as (Hc & _ & _).
  pose proof (append_loop_inc usize_bits (Leaf e) (frontier_of encs) []) as Hl.
  simpl app in Hl. simpl length in Hl. simpl th in Hl. rewrite Hc in Hl.
  unfold append_leaf. simpl frontier. simpl leaf_count.
  destruct (append_loop usize_bits (zlen encs) 0 _ _) as [[level carry] fr].
  rewrite Hl by (unfold usize_bits; lia).
  assert (wadd 64 (zlen encs) 1 = zlen (encs ++ [e])) as ->.
  { unfold wadd, wrap, zlen in *. rewrite length_app, Z.mod_small; simpl; lia. }
  unfold state_of. by rewrite frontier_of_app.
Qed.

End simulation.

(** ** Entries and their encodings *)

Definition entry_enc (e : CheckpointEntry) : bytes := enc (to_cbor_value e).

Lemma map_value_canon_id m :
  fields_ok m → Forall (λ kv, canon kv.2 = kv.2) m → canon (map_value m) = map_value m.
Proof.
  intros Hm Hc. rewrite canon_map_value by done. f_equal. unfold canon_fields.
  induction Hc as [|[k v] m Hv Hc IH]; simpl in *; [done|].
  rewrite Hv, IH; [done|]. destruct Hm as [Hs Hk].
  split; [by inversion Hs | by inversion Hk].
Qed.

Ltac ground_fields :=
  split; [repeat constructor; simpl; lia | repeat constructor; unfold fits; simpl; lia].

Lemma entry_canon e : canon (to_cbor_value e) = to_cbor_value e.
Proof.
  destruct e as [[u v d t]|[u k t]|[u h t rh rs]]; unfold to_cbor_value at 1 2, CheckpointEntry_cbor;
    (apply map_value_canon_id; [ground_fields|]); repeat constructor; simpl;
    (apply map_value_canon_id; [try (destruct rh, rs); ground_fields|]);
    try destruct rh; try destruct rs; repeat constructor.
Qed.

Lemma entry_float_free e : float_free (to_cbor_value e) = true.
Proof.
  destruct e as [[u v d t]|[u k t]|[u h t [rh|] [rs|]]]; reflexivity.
Qed.

Lemma to_cbor_value_entry_inj (e1 e2 : CheckpointEntry) :
  to_cbor_value e1 = to_cbor_value e2 → e1 = e2.
Proof.
  destruct e1 as [[]|[]|[? ? ? [?|] [?|]]], e2 as [[]|[]|[? ? ? [?|] [?|]]];
    intros H; vm_compute in H; simplify_eq; reflexivity.
Qed.

Lemma entry_enc_inj e1 e2 :
  entry_ok e1 → entry_ok e2 → entry_enc e1 = entry_enc e2 → e1 = e2.
Proof.
  intros [H1 _] [H2 _] He. apply to_cbor_value_entry_inj.
  rewrite <-(entry_canon e1), <-(entry_canon e2).
  apply enc_canon_inj; auto using entry_float_free.
Qed.

Lemma map_entry_enc_inj es1 es2 :
  Forall entry_ok es1 → Forall entry_ok es2 →
  map entry_enc es1 = map entry_enc es2 → es1 = es2.
Proof.
  intros H1. revert es2. induction H1 as [|e es He Hes IH]; intros [|e2 es2] He2 Hm; try done.
  injection Hm as Hm1 Hm2. inversion He2; subst.
  f_equal; [by apply entry_enc_inj | by apply IH].
Qed.

(** ** A tree is determined by its hash *)

Section binding.
Context `{Sha256} `{!Sha256Laws}.

Definition preimage (t : tree) : bytes :=
  match t with Leaf e => x00 :: e | Node l r => x01 :: th l ++ th r end.

(** The strings hashed to compute the hash of a tree. *)
Fixpoint preimages (t : tree) : list bytes :=
  preimage t :: match t with Leaf _ => [] | Node l r => preimages l ++ preimages r end.

Lemma th_preimage t : th t = sha256 (preimage t).
Proof. by destruct t. Qed.

Lemma preimage_in t : In (preimage t) (preimages t).
Proof. destruct t; simpl; auto. Qed.

Lemma length_th t : length (th t) = 32%nat.
Proof. destruct t; apply sha256_length. Qed.

Lemma th_inj (I : list bytes) t1 t2 :
  collision_free I → incl (preimages t1) I → incl (preimages t2) I →
  th t1 = th t2 → t1 = t2.
Proof.
  intros Hcf. revert t2.
  induction t1 as [e1|l1 IHl r1 IHr]; intros t2 H1 H2 Hth.
  all: rewrite !th_preimage in Hth; apply Hcf in Hth;
    [|apply list_elem_of_In, H1, preimage_in | apply list_elem_of_In, H2, preimage_in].
  all: destruct t2 as [e2|l2 r2]; simplify_eq/=; try done.
  apply app_inj_len in Hth as [Hl Hr]; [|by rewrite !length_th].
  f_equal; [apply IHl | apply IHr]; try done; intros x Hx;
    solve [apply H1; simpl; rewrite in_app_iff; auto | apply H2; simpl; rewrite in_app_iff; auto].
Qed.

End binding.

Lemma perfect_left_depth d t : perfect d t → left_depth t = d.
Proof.
  revert t. induction d as [|d IH]; intros [e|l r]; simpl; try done.
  intros [Hl _]. by rewrite (IH l).
Qed.

Lemma root_tree_shape k ts t :
  wf_from k ts → root_tree ts = Some t →
  (k <= left_depth t)%nat ∧ (left_depth t = k → perfect k t).
Proof.
  revert k t. induction ts as [|o ts IH]; intros k t; simpl; [done|]. intros [Ho Hts].
  destruct o as [a|], (root_tree ts) as [r|] eqn:Er; intros [= <-].
  - simpl. rewrite (perfect_left_depth _ _ Ho). lia.
  - by rewrite (perfect_left_depth _ _ Ho).
  - destruct (IH _ _ Hts eq_refl). lia.
Qed.

Lemma root_tree_None ts : root_tree ts = None → frontier_leaves ts = [].
Proof.
  induction ts as [|[a|] ts IH]; simpl; [done| |].
  - by destruct (root_tree ts).
  - intros Hr. by rewrite IH.
Qed.

(** A root that hangs a lower tree [b] on the left of [r] is not the root of a
    frontier whose lowest tree is one level higher, and not a perfect tree. *)
Lemma left_hung_not_perfect k b r :
  perfect k b → (S k <= left_depth r)%nat → ~ perfect (S k) (Node b r).
Proof.
  simpl. intros _ Hr [_ Hp]. apply perfect_left_depth in Hp. lia.
Qed.

Lemma root_shape_conflict k b ts1 r :
  perfect k b → wf_from (S k) ts1 → (∀ r', r = Some r' → (S k <= left_depth r')%nat) →
  root_tree ts1 = Some (match r with Some r' => Node b r' | None => b end) → False.
Proof.
  intros Hb Hts1 Hr Hroot. destruct (root_tree_shape _ _ _ Hts1 Hroot) as [Hd Hp].
  destruct r as [r'|]; simpl in *.
  - rewrite (perfect_left_depth _ _ Hb) in *.
    apply (left_hung_not_perfect k b r' Hb); [by apply Hr | by apply Hp].
  - rewrite (perfect_left_depth _ _ Hb) in Hd. lia.
Qed.

Lemma root_tree_inj k ts1 ts2 :
  wf_from k ts1 → wf_from k ts2 → root_tree ts1 = root_tree ts2 →
  frontier_leaves ts1 = frontier_leaves ts2.
Proof.
  revert k ts2. induction ts1 as [|o1 ts1 IH]; intros k [|o2 ts2] H1 H2 Hr; try done.
  - symmetry. by apply root_tree_None.
  - by apply root_tree_None.
  - destruct H1 as [Ho1 H1], H2 as [Ho2 H2]. simpl in Hr.
    pose proof (λ t, root_tree_shape _ _ t H1) as Hs1.
    pose proof (λ t, root_tree_shape _ _ t H2) as Hs2.
    destruct o1 as [a|], o2 as [b|]; simpl.
    + destruct (root_tree ts1) as [r1|] eqn:E1, (root_tree ts2) as [r2|] eqn:E2; simplify_eq/=.
      * by rewrite (IH (S k) ts2).
      * exfalso. apply (left_hung_not_perfect k a r1); [done|by apply Hs1|].
        destruct k; [done|]. simpl in Ho2. destruct Ho2 as [_ Ho2].
        apply perfect_left_depth in Ho2. destruct (Hs1 _ eq_refl). lia.
      * exfalso. destruct k; [done|]. simpl in Ho1. destruct Ho1 as [_ Ho1].
        apply perfect_left_depth in Ho1. destruct (Hs2 _ eq_refl). lia.
      * by rewrite (root_tree_None ts1), (root_tree_None ts2).
    + exfalso. apply (root_shape_conflict k a ts2 (root_tree ts1) Ho1 H2).
      * intros r' Hr'. by apply Hs1.
      * by destruct (root_tree ts1).
    + exfalso. apply (root_shape_conflict k b ts1 (root_tree ts2) Ho2 H1).
      * intros r' Hr'. by apply Hs2.
      * by destruct (root_tree ts2).
    + by rewrite (IH (S k) ts2).
Qed.

(** ** Logs *)

Section logs.
Context `{Sha256}.

Definition log_tree (es : list CheckpointEntry) : option tree :=
  root_tree (frontier_of (map entry_enc es)).

(** The strings hashed for the Merkle root of the entries. *)
Definition log_preimages (es : list CheckpointEntry) : list bytes :=
  match log_tree es with Some t => preimages t | None => [] end.

(** The cached state is either out of date by its count or that of the entries. *)
Definition log_ok (log : CheckpointLog) : Prop :=
  leaf_count (merkle_state log) = zlen (entries log) →
  merkle_state log = state_of (map entry_enc (entries log)).

Lemma leaf_hash_ok e : entry_ok e → leaf_hash e = Ok (sha256 (x00 :: entry_enc e)).
Proof. intros [He _]. unfold leaf_hash. by rewrite ctap2_bytes_enc. Qed.

Lemma merkle_from_entries_ok es :
  entries_ok es → merkle_from_entries es = Ok (state_of (map entry_enc es)).
Proof.
  intros [He Hl]. unfold merkle_from_entries.
  induction es as [|e es IH] using rev_ind; [done|].
  apply Forall_app in He as [He He1]. inversion He1; subst.
  assert (zlen es < 2 ^ 63) by (unfold zlen in *; rewrite length_app in Hl; simpl in Hl; lia).
  rewrite try_fold_app, IH by done. simpl. rewrite leaf_hash_ok by done.
  rewrite append_leaf_state by (by rewrite zlen_map). by rewrite map_app.
Qed.

Lemma merkle_root_ok log :
  log_ok log → entries_ok (entries log) →
  merkle_root log = Ok (default [] (option_map th (log_tree (entries log)))).
Proof.
  intros Hok He. unfold merkle_root.
  assert (∀ es, root (state_of (map entry_enc es)) = default [] (option_map th (log_tree es)))
    as Hroot by (intros es; apply root_hashes).
  destruct (entries log) as [|e es] eqn:E; [done|]. rewrite <-E in *.
  destruct (_ =? _) eqn:Ec; bool_to_prop.
  - by rewrite (Hok Ec), Hroot.
  - by rewrite merkle_from_entries_ok, Hroot.
Qed.

Lemma ensure_merkle_state_ok log :
  log_ok log → entries_ok (entries log) →
  ensure_merkle_state log
  = Ok {| entries := entries log; merkle_state := state_of (map entry_enc (entries log)) |}.
Proof.
  intros Hok He. unfold ensure_merkle_state, rebuild_merkle_state.
  destruct (_ =? _) eqn:Ec; bool_to_prop.
  - rewrite <-(Hok Ec). by destruct log.
  - by rewrite merkle_from_entries_ok.
Qed.

Lemma forallb_zip_prefix (l k : list CheckpointEntry) :
  (length l <= length k)%nat →
  forallb (λ lr, bool_decide (lr.1 = lr.2)) (zip l k) = true ↔ l `prefix_of` k.
Proof.
  revert k. induction l as [|x l IH]; intros [|y k] Hl; simpl in *; try lia.
  - split; [intros _; apply prefix_nil | done].
  - split; [intros _; apply prefix_nil | done].
  - rewrite andb_true_iff, IH, bool_decide_eq_true by lia. split.
    + intros [-> Hp]. by apply prefix_cons.
    + intros Hp. split; [by apply prefix_cons_inv_1 in Hp | by apply prefix_cons_inv_2 in Hp].
Qed.

Lemma is_prefix_of_iff a b :
  is_prefix_of a b = true ↔ entries a `prefix_of` entries b.
Proof.
  unfold is_prefix_of, zlen. destruct (_ <? _) eqn:E; bool_to_prop.
  - split; [done|]. intros Hp%prefix_length. lia.
  - apply forallb_zip_prefix. lia.
Qed.

End logs.

(** ** The derived serializer

    serde's data model for the derives of the source: a struct is a map from
    field names, an enum a map with the variant's name, a [Vec<u8>] an array
    of integers, an absent option null. *)

Module DerivedSerde.

Definition bytes_ser (b : bytes) : Value := VArray (map (λ x, VInteger (byte_to_Z x)) b).

Definition opt_ser {A} (f : A → Value) (o : option A) : Value :=
  match o with Some x => f x | None => VNull end.

Definition entry_ser (e : CheckpointEntry) : Value :=
  match e with
  | CKey k =>
      VMap [(VText "Key", VMap
        [(VText "user_id", bytes_ser (kc_user_id k));
         (VText "verifying_key", bytes_ser (kc_verifying_key k));
         (VText "device_id", bytes_ser (kc_device_id k));
         (VText "issued_at", VInteger (kc_issued_at k))])]
  | CRecovery k =>
      VMap [(VText "Recovery", VMap
        [(VText "user_id", bytes_ser (rk_user_id k));
         (VText "recovery_key", bytes_ser (rk_recovery_key k));
         (VText "issued_at", VInteger (rk_issued_at k))])]
  | CRevocation r =>
      VMap [(VText "Revocation", VMap
        [(VText "user_id", bytes_ser (rv_user_id r));
         (VText "revoked_key_hash", bytes_ser (rv_revoked_key_hash r));
         (VText "revoked_at", VInteger (rv_revoked_at r));
         (VText "recovery_key_hash", opt_ser bytes_ser (rv_recovery_key_hash r));
         (VText "reason", opt_ser VText (rv_reason r))])]
  end.

Definition entries_ser (es : list CheckpointEntry) : Value :=
  VMap [(VText "entries", VArray (map entry_ser es))].

Definition field_value (name : string) (kv : Value * Value) : list Value :=
  match kv.1 with
  | VText s => if decide (s = name) then [kv.2] else []
  | _ => []
  end.

Definition field_values (name : string) (es : list (Value * Value)) : list Value :=
  concat (map (field_value name) es).

Definition get_field (name : string) (es : list (Value * Value)) : result string Value :=
  match field_values name es with
  | [] => Err (missing_field name)
  | [v] => Ok v
  | _ => Err ("duplicate field `" +:+ name +:+ "`")
  end.

Definition byte_de (v : Value) : result string byte :=
  match v with
  | VInteger n => if fits_b 8 n then Ok (byte_of_Z n) else Err "invalid value: expected u8"
  | _ => Err "invalid type: expected u8"
  end.

Definition bytes_de (v : Value) : result string bytes :=
  match v with
  | VArray vs => try_map byte_de vs
  | _ => Err "invalid type: expected a sequence"
  end.

Definition u64_de (v : Value) : result string Z :=
  match v with
  | VInteger n => if fits_b 64 n then Ok n else Err "invalid value: expected u64"
  | _ => Err "invalid type: expected u64"
  end.

Definition text_de (v : Value) : result string string :=
  match v with VText s => Ok s | _ => Err "invalid type: expected a string" end.

Definition opt_de {A} (f : Value → result string A) (v : Value) : result string (option A) :=
  match v with VNull => Ok None | _ => let? x := f v in Ok (Some x) end.

Definition read {A} (f : Value → result string A) (name : string)
    (es : list (Value * Value)) : result string A :=
  let? v := get_field name es in f v.

Definition entry_de (v : Value) : result string CheckpointEntry :=
  match v with
  | VMap [(VText variant, VMap es)] =>
      if decide (variant = "Key"%string) then
        let? u := read bytes_de "user_id" es in
        let? k := read bytes_de "verifying_key" es in
        let? d := read bytes_de "device_id" es in
        let? t := read u64_de "issued_at" es in
        Ok (CKey (mkKeyCheckpoint u k d t))
      else if decide (variant = "Recovery"%string) then
        let? u := read bytes_de "user_id" es in
        let? k := read bytes_de "recovery_key" es in
        let? t := read u64_de "issued_at" es in
        Ok (CRecovery (mkRecoveryKey u k t))
      else if decide (variant = "Revocation"%string) then
        let? u := read bytes_de "user_id" es in
        let? h := read bytes_de "revoked_key_hash" es in
        let? t := read u64_de "revoked_at" es in
        let? rh := read (opt_de bytes_de) "recovery_key_hash" es in
        let? rs := read (opt_de text_de) "reason" es in
        Ok (CRevocation (mkRevocationDeclaration u h t rh rs))
      else Err ("unknown variant `" +:+ variant +:+ "`")
  | _ => Err "invalid type: expected an enum"
  end.

Definition entries_de (v : Value) : result string (list CheckpointEntry) :=
  match v with
  | VMap es =>
      let? w := get_field "entries" es in
      match w with
      | VArray vs => try_map entry_de vs
      | _ => Err "invalid type: expected a sequence"
      end
  | _ => Err "invalid type: expected struct CheckpointLog"
  end.

#[export] Instance log_serde : LogSerde := {| log_ser := entries_ser; log_de := entries_de |}.

Lemma field_values_Permutation name es1 es2 :
  es1 ≡ₚ es2 → field_values name es1 ≡ₚ field_values name es2.
Proof. unfold field_values. by intros ->. Qed.

Lemma get_field_Permutation name es1 es2 :
  es1 ≡ₚ es2 → get_field name es1 = get_field name es2.
Proof.
  intros Hp%(field_values_Permutation name). unfold get_field.
  destruct (field_values name es1) as [|v [|w l]] eqn:E1.
  - by apply Permutation_nil in Hp as ->.
  - by apply Permutation_length_1_inv in Hp as ->.
  - apply Permutation_length in Hp.
    by destruct (field_values name es2) as [|v' [|w' l']].
Qed.

Lemma field_values_canon name es :
  field_values name (map canon_entry es) = map canon (field_values name es).
Proof.
  unfold field_values. rewrite concat_map, !map_map. f_equal. apply map_ext.
  intros [k v]. unfold field_value. destruct k; simpl; try done. by case_decide.
Qed.

Lemma read_canon {A} (f : Value → result string A) name es :
  read f name (map canon_entry (sorted_entries es)) = read (λ v, f (canon v)) name es.
Proof.
  unfold read. rewrite (get_field_Permutation name _ (map canon_entry es))
    by (by rewrite sorted_entries_Permutation).
  unfold get_field. rewrite field_values_canon.
  by destruct (field_values name es) as [|v [|w l]].
Qed.

Lemma bytes_de_ser b :
  bytes_de (VArray (map canon (map (λ x, VInteger (byte_to_Z x)) b))) = Ok b.
Proof.
  unfold bytes_de. rewrite map_map. apply try_map_Ok.
  induction b as [|x b IH]; constructor; [|done]. simpl.
  pose proof (byte_to_Z_bounds x). unfold fits_b.
  replace (0 <=? byte_to_Z x) with true by lia.
  replace (byte_to_Z x <? 2 ^ 8) with true by lia. simpl. by rewrite byte_of_to_Z.
Qed.

Lemma u64_de_ok n : fits 64 n → u64_de (VInteger n) = Ok n.
Proof.
  intros [??]. unfold u64_de, fits_b. replace (0 <=? n) with true by lia.
  by replace (n <? 2 ^ 64) with true by lia.
Qed.

#[local] Arguments bytes_ser : simpl never.
#[local] Arguments bytes_de : simpl never.
#[local] Arguments u64_de : simpl never.

Lemma entry_de_ser e : entry_ok e → entry_de (canon (entry_ser e)) = Ok e.
Proof.
  intros [_ Ht].
  destruct e as [[u k d t]|[u k t]|[u h t rh rs]]; unfold entry_ser;
    rewrite canon_VMap; cbn [sorted_entries sort_by insert_by map];
    unfold canon_entry at 1; cbn [fst snd]; rewrite canon_VMap; cbn [entry_de canon]; rewrite !read_canon; unfold read; simpl in *;
    repeat (rewrite ?bytes_de_ser, ?u64_de_ok by done; simpl); try done.
  destruct rh as [rh|], rs as [rs|]; simpl; try done;
    by rewrite bytes_de_ser.
Qed.

#[export] Instance log_serde_laws : LogSerdeLaws.
Proof.
  intros es [He _]. cbn [log_ser log_de log_serde]. unfold entries_ser.
  rewrite canon_VMap. cbn [sorted_entries sort_by insert_by map].
  unfold canon_entry. cbn [fst snd].
  change (entries_de _) with (try_map entry_de (map canon (map entry_ser es))).
  rewrite map_map. apply try_map_Ok.
  induction He as [|e es He Hes IH]; constructor; [by apply entry_de_ser|done].
Qed.

End DerivedSerde.

(** ** Export and import *)

Section export_import.
Context `{SH : Sha256}.

Lemma import_export_ok `{CiboriumLaws} `{LogSerdeLaws} `{Base64Laws} log text :
  log_ok log → entries_ok (entries log) → decodable (log_ser (entries log)) = true →
  export_base64 log = Ok text →
  ∃ log', import_base64 text = Ok log' ∧ entries log' = entries log ∧ log_ok log' ∧
          merkle_root log' = merkle_root log.
Proof.
  intros Hok He Hd Hx. unfold export_base64, to_cbor_bytes in Hx.
  rewrite to_canonical_enc in Hx by done. simplify_eq.
  unfold import_base64, from_cbor_bytes. rewrite b64_decode_encode. cbn [map_err].
  pose proof (reader_enc (log_ser (entries log)) [] Hd) as Hr. rewrite app_nil_r in Hr.
  rewrite Hr. cbn [map_err]. rewrite log_de_ser by done. cbn [map_err].
  unfold rebuild_merkle_state. cbn [entries]. rewrite merkle_from_entries_ok by done.
  eexists. split; [done|]. split; [done|].
  match goal with |- log_ok ?l ∧ _ => assert (log_ok l) as Hok' by done end.
  split; [done|]. by rewrite !merkle_root_ok.
Qed.

Lemma append_with_root_ok log e :
  log_ok log → entries_ok (entries log ++ [e]) →
  ∃ log' r st,
    append_with_root log e = Ok (log', r) ∧ log_ok log' ∧
    entries log' = entries log ++ [e] ∧
    merkle_from_entries (entries log') = Ok st ∧ merkle_state log' = st ∧ root st = r.
Proof.
  intros Hok He. pose proof He as [[He1 He2]%Forall_app Hl].
  assert (entries_ok (entries log)) as Hes.
  { split; [done|]. unfold zlen in *. rewrite length_app in Hl. simpl in Hl. lia. }
  unfold append_with_root. rewrite ensure_merkle_state_ok by done.
  inversion He2; subst. rewrite leaf_hash_ok by done. cbn [merkle_state entries].
  rewrite append_leaf_state by (rewrite zlen_map; apply Hes).
  eexists _, _, _. split; [done|]. cbn [merkle_state entries]. split; [|split; [done|]].
  - intros _. cbn [merkle_state entries]. by rewrite map_app.
  - rewrite merkle_from_entries_ok by done. by rewrite map_app.
Qed.

Lemma log_append_ok log e :
  log_ok log → entries_ok (entries log ++ [e]) →
  ∃ log', log_append log e = Ok log' ∧ log_ok log' ∧ entries log' = entries log ++ [e].
Proof.
  intros Hok He. destruct (append_with_root_ok log e Hok He) as (log' & r & st & Ha & ? & ? & _).
  exists log'. unfold log_append. by rewrite Ha.
Qed.

Lemma log_append_entries log e log' :
  log_append log e = Ok log' → entries log' = entries log ++ [e].
Proof.
  unfold log_append, append_with_root, ensure_merkle_state, rebuild_merkle_state. intros Ha.
  destruct (_ =? _).
  - destruct (leaf_hash e); [|done]. destruct (append_leaf _ _). by simplify_eq/=.
  - destruct (merkle_from_entries _); [|done]. destruct (leaf_hash e); [|done].
    destruct (append_leaf _ _). by simplify_eq/=.
Qed.

End export_import.

(** ** Claims *)

Section claims.
Context `{S : Sha256}.

(** C5: appending an entry keeps the cached frontier in step with the entries
    (also from a log whose cache is missing), and the root it returns is the
    root recomputed from the entries alone. *)
Theorem append_root_is_rebuilt_root log e :
  log_ok log → entries_ok (entries log ++ [e]) →
  ∃ log' r st,
    append_with_root log e = Ok (log', r) ∧ log_ok log' ∧
    entries log' = entries log ++ [e] ∧
    merkle_from_entries (entries log') = Ok st ∧ merkle_state log' = st ∧ root st = r.
Proof. apply append_with_root_ok. Qed.

(** C19: the Merkle root binds the whole log: two logs with the same root have
    the same entries, in the same order and number, unless SHA-256 collides on
    the strings hashed for these two roots. *)
Theorem merkle_root_binding `{!Sha256Laws} log1 log2 r :
  log_ok log1 → log_ok log2 → entries_ok (entries log1) → entries_ok (entries log2) →
  collision_free (log_preimages (entries log1) ++ log_preimages (entries log2)) →
  merkle_root log1 = Ok r → merkle_root log2 = Ok r → entries log1 = entries log2.
Proof.
  intros Hok1 Hok2 He1 He2 Hcf Hr1 Hr2.
  rewrite merkle_root_ok in Hr1, Hr2 by done.
  destruct (frontier_of_facts (map entry_enc (entries log1))) as (_ & Hl1 & Hw1).
  destruct (frontier_of_facts (map entry_enc (entries log2))) as (_ & Hl2 & Hw2).
  unfold log_preimages, log_tree in *.
  assert (root_tree (frontier_of (map entry_enc (entries log1)))
          = root_tree (frontier_of (map entry_enc (entries log2)))) as Hroot.
  { destruct (root_tree (frontier_of (map entry_enc (entries log1)))) as [t1|],
      (root_tree (frontier_of (map entry_enc (entries log2)))) as [t2|];
      simpl in *; try done.
    - f_equal. apply (th_inj (preimages t1 ++ preimages t2)); [done|..];
        [intros x Hx; apply in_app_iff; auto..|congruence].
    - pose proof (length_th t1) as Hlen. by replace (th t1) with (@nil byte) in Hlen by congruence.
    - pose proof (length_th t2) as Hlen. by replace (th t2) with (@nil byte) in Hlen by congruence. }
  apply (root_tree_inj 0) in Hroot; [|done..]. rewrite Hl1, Hl2 in Hroot.
  apply map_entry_enc_inj; [apply He1|apply He2|done].
Qed.

(** Comparison of two logs decides the append-only order: equal, a strict
    prefix one way or the other, or a fork. *)
Theorem compare_with_decides (a b : CheckpointLog) :
  match compare_with a b with
  | Identical => entries a = entries b
  | LocalBehind => ∃ e es, entries b = entries a ++ e :: es
  | LocalAhead => ∃ e es, entries a = entries b ++ e :: es
  | Diverged => ~ entries a `prefix_of` entries b ∧ ~ entries b `prefix_of` entries a
  end.
Proof.
  unfold compare_with. case_decide as Heq; [done|].
  destruct (is_prefix_of a b) eqn:E1; [|destruct (is_prefix_of b a) eqn:E2].
  - apply is_prefix_of_iff in E1 as [[|e es] Hes]; [|eauto].
    rewrite app_nil_r in Hes. congruence.
  - apply is_prefix_of_iff in E2 as [[|e es] Hes]; [|eauto].
    rewrite app_nil_r in Hes. congruence.
  - rewrite <-!is_prefix_of_iff. by rewrite E1, E2.
Qed.

(** C33: importing an exported log gives a log with the same entries whose
    cache is in step and whose Merkle root is the one before export.  The texts of
    the entries are ASCII. *)
Theorem log_export_import `{CiboriumLaws} `{LogSerdeLaws} `{Base64Laws} log text :
  log_ok log → entries_ok (entries log) → decodable (log_ser (entries log)) = true →
  export_base64 log = Ok text →
  ∃ log', import_base64 text = Ok log' ∧ entries log' = entries log ∧ log_ok log' ∧
          merkle_root log' = merkle_root log.
Proof. apply import_export_ok. Qed.

End claims.

(** ** Witnesses *)

Import Reference DerivedSerde.

Definition sample_key (n : byte) : CheckpointEntry :=
  CKey (mkKeyCheckpoint [n] [x01; x02] [x03] 1700000000).

Definition sample_entries : list CheckpointEntry :=
  [sample_key x0a; CRecovery (mkRecoveryKey [x0a] [x09] 5);
   CRevocation (mkRevocationDeclaration [x0a] [x07] 6 None (Some "lost"%string))].

(** A log whose cache was skipped by the deserializer. *)
Definition sample_log : CheckpointLog :=
  {| entries := sample_entries; merkle_state := merkle_new |}.

Lemma sample_log_ok : log_ok sample_log.
Proof. done. Qed.

Lemma sample_entries_ok : entries_ok sample_entries.
Proof.
  split; [|reflexivity]. repeat constructor; vm_compute; congruence.
Qed.

Lemma append_root_is_rebuilt_root_witness :
  ∃ log' r st,
    append_with_root {| entries := [sample_key x0a]; merkle_state := merkle_new |}
      (sample_key x0b) = Ok (log', r) ∧ log_ok log' ∧
    entries log' = [sample_key x0a; sample_key x0b] ∧
    merkle_from_entries (entries log') = Ok st ∧ merkle_state log' = st ∧ root st = r.
Proof.
  apply (append_root_is_rebuilt_root
    {| entries := [sample_key x0a]; merkle_state := merkle_new |} (sample_key x0b)).
  - discriminate.
  - split; [repeat constructor; vm_compute; congruence | reflexivity].
Defined.

Lemma merkle_root_binding_witness : entries sample_log = sample_entries.
Proof.
  refine (merkle_root_binding sample_log
    {| entries := sample_entries; merkle_state := state_of (map entry_enc sample_entries) |}
    _ _ _ _ _ _ _ _).
  - exact sample_log_ok.
  - intros _. reflexivity.
  - exact sample_entries_ok.
  - exact sample_entries_ok.
  - assert (forallb (λ x, forallb (λ y,
        negb (bool_decide (sha256 x = sha256 y)) || bool_decide (x = y))
        (log_preimages sample_entries)) (log_preimages sample_entries) = true) as Hall
      by (vm_compute; reflexivity).
    rewrite forallb_forall in Hall. intros x y Hx%list_elem_of_In Hy%list_elem_of_In Hxy.
    assert (∀ z, In z (log_preimages (entries sample_log) ++ log_preimages sample_entries)
                 → In z (log_preimages sample_entries)) as Hin.
    { intros z Hz. by apply in_app_iff in Hz as [Hz|Hz]. }
    specialize (Hall x (Hin x Hx)). rewrite forallb_forall in Hall.
    specialize (Hall y (Hin y Hy)). rewrite bool_decide_true in Hall by done.
    by apply bool_decide_eq_true in Hall.
  - vm_compute. reflexivity.
  - vm_compute. reflexivity.
Defined.

Lemma log_export_import_witness :
  ∃ log', import_base64 (match export_base64 sample_log with Ok t => t | Err _ => "" end)
          = Ok log' ∧ entries log' = sample_entries ∧ log_ok log' ∧
          merkle_root log' = merkle_root sample_log.
Proof.
  apply (log_export_import sample_log);
    [exact sample_log_ok | exact sample_entries_ok | vm_compute; reflexivity
    | vm_compute; reflexivity].
Defined.
