(* ===== verification/Transport.v ===== *)
(** * Chunked transport (spex-transport: chunking.rs, transport.rs, telemetry.rs)

    A payload is cut into hash-addressed chunks; a manifest lists the hashes in
    order with the total length; the receiver fetches the chunks by hash,
    checks them and puts the payload together.  Kademlia, gossipsub and
    serde_json are parameters; a record store is a map from keys to values.
    The panics of the source (a chunk size of zero) are [None].

    Shown here: publishing and recovering gives the payload back exactly when
    no two chunks are equal, and the recovery of a payload with two equal
    chunks is refused by the manifest check; a manifest determines the payload
    whoever supplies the chunks; the random walk bounds the influence of each
    source; snapshots are encoded independently of the order of peers. *)
From Stdlib Require Import ZArith Lia Ascii Strings.Byte.
From stdpp Require Import base list gmap strings sorting numbers pretty.
From S2P Require Import Prelude External Cbor CborFacts Types Core.

#[local] Open Scope Z_scope.

(** ** error.rs *)

Inductive TransportError : Type :=
| Libp2p (e : string)
| GossipPublish (e : string)
| Serialization (e : string)
| CborDecode (e : SpexError)
| Http (e : string)
| BridgePayload
| MissingChunk (hash : string)
| ChunkHashMismatch (index : Z)
| ChunkIndexMismatch (expected actual : Z)
| InvalidManifest (e : string)
| PayloadLengthMismatch (expected actual : Z)
| InvalidPayload (e : string)
| InvalidTtl
| TGrantInvalid
| TGrantExpired
| TPowTooWeak
| TPowInvalid.

(** ** chunking.rs *)

Record Chunk := mkChunk { ch_index : Z; ch_hash : bytes; ch_data : bytes }.

Record ChunkingConfig := mkChunkingConfig { chunk_size : Z; cc_hash_id : HashId }.

Definition chunking_default : ChunkingConfig :=
  {| chunk_size := 32 * 1024; cc_hash_id := HashSha256 |}.

(** [data.chunks(n)] for [n > 0]: consecutive pieces of [n] bytes, the last
    possibly shorter. *)
Fixpoint slice_chunks (fuel : nat) (n : nat) (data : bytes) : list bytes :=
  match fuel, data with
  | O, _ | _, [] => []
  | S f, _ => take n data :: slice_chunks f n (drop n data)
  end.

Definition enumerate {A} (l : list A) : list (Z * A) :=
  zip (map Z.of_nat (seq 0 (length l))) l.

Section chunking.
Context `{Sha256}.

(** [None] is the panic of [chunks(0)]. *)
Definition chunk_data (config : ChunkingConfig) (data : bytes) : option (list Chunk) :=
  match data with
  | [] => Some []
  | _ =>
      if chunk_size config =? 0 then None
      else Some (map (λ '(index, chunk),
             {| ch_index := index; ch_hash := hash_bytes (cc_hash_id config) chunk;
                ch_data := chunk |})
             (enumerate (slice_chunks (length data) (Z.to_nat (chunk_size config)) data)))
  end.

(** [sort_unstable_by_key] leaves the order of equal keys open; the stable
    order is one of its results, and the only one when the indices differ. *)
Definition reassemble_chunks (chunks : list Chunk) : bytes :=
  concat (map ch_data (sort_by (λ a b, ch_index a <=? ch_index b) chunks)).

End chunking.

(** ** transport.rs: manifests *)

Record ChunkDescriptor := mkChunkDescriptor { cd_index : Z; cd_hash : bytes }.

Record ChunkManifest := mkChunkManifest {
  cm_chunks : list ChunkDescriptor;
  cm_total_len : Z;
}.

Record TransportConfig := mkTransportConfig {
  tc_chunking : ChunkingConfig;
  tc_gossip_topic : string;
  tc_record_ttl_secs : Z;
}.

Definition transport_default : TransportConfig :=
  {| tc_chunking := chunking_default; tc_gossip_topic := "spex/transport";
     tc_record_ttl_secs := 60 * 60 |}.

#[export] Instance ChunkDescriptor_eq_dec : EqDecision ChunkDescriptor.
Proof. solve_decision. Defined.
#[export] Instance ChunkManifest_eq_dec : EqDecision ChunkManifest.
Proof. solve_decision. Defined.

(** Decimal rendering of a number in a message. *)
Definition show_Z (z : Z) : string := pretty z.

(** [Display] of [TransportError]. *)
Definition transport_error_to_string (e : TransportError) : string :=
  match e with
  | Libp2p s => "libp2p error: " +:+ s
  | GossipPublish s => "gossipsub publish error: " +:+ s
  | Serialization s => "serialization error: " +:+ s
  | CborDecode e => "cbor decode error: " +:+ spex_error_to_string e
  | Http s => "http error: " +:+ s
  | BridgePayload => "inbox bridge returned invalid payload"
  | MissingChunk h => "missing chunk for hash " +:+ h
  | ChunkHashMismatch i => "chunk hash mismatch for index " +:+ show_Z i
  | ChunkIndexMismatch e a =>
      "chunk index mismatch (expected " +:+ show_Z e +:+ ", got " +:+ show_Z a +:+ ")"
  | InvalidManifest s => "invalid manifest: " +:+ s
  | PayloadLengthMismatch e a =>
      "payload length mismatch (expected " +:+ show_Z e +:+ ", got " +:+ show_Z a +:+ ")"
  | InvalidPayload s => "invalid payload: " +:+ s
  | InvalidTtl => "bridge rejected ttl policy"
  | TGrantInvalid => "grant signature invalid"
  | TGrantExpired => "grant expired"
  | TPowTooWeak => "pow parameters below minimum"
  | TPowInvalid => "pow puzzle invalid"
  end.

(** The loop of [validate_manifest] with its two hash sets. *)
Fixpoint check_descriptors (ds : list ChunkDescriptor) (indices : gset Z)
    (hashes : gset bytes) : result TransportError unit :=
  match ds with
  | [] => Ok tt
  | d :: ds' =>
      if decide (cd_index d ∈ indices) then
        Err (InvalidManifest ("duplicate chunk index " +:+ show_Z (cd_index d)))
      else if decide (cd_hash d ∈ hashes) then
        Err (InvalidManifest "duplicate chunk hash")
      else check_descriptors ds' ({[cd_index d]} ∪ indices) ({[cd_hash d]} ∪ hashes)
  end.

Definition validate_manifest (manifest : ChunkManifest) : result TransportError unit :=
  if bool_decide (cm_chunks manifest = []) && (0 <? cm_total_len manifest) then
    Err (InvalidManifest "empty manifest for non-empty payload")
  else check_descriptors (cm_chunks manifest) ∅ ∅.

Section manifests.
Context `{Sha256} `{Hex}.

Definition manifest_of (chunks : list Chunk) (payload : bytes) : ChunkManifest :=
  {| cm_chunks := map (λ c, {| cd_index := ch_index c; cd_hash := ch_hash c |}) chunks;
     cm_total_len := zlen payload |}.

(** The lookup and hash check of one descriptor. *)
Definition recover_chunk (store : gmap bytes bytes) (config : TransportConfig)
    (d : ChunkDescriptor) : result TransportError Chunk :=
  let? data := ok_or (store !! cd_hash d) (MissingChunk (hex_encode (cd_hash d))) in
  let computed := hash_bytes (cc_hash_id (tc_chunking config)) data in
  if decide (computed = cd_hash d)
  then Ok {| ch_index := cd_index d; ch_hash := cd_hash d; ch_data := data |}
  else Err (ChunkHashMismatch (cd_index d)).

Definition recover_chunks_from_store (manifest : ChunkManifest)
    (store : gmap bytes bytes) (config : TransportConfig)
    : result TransportError (list Chunk) :=
  let? _ := validate_manifest manifest in
  try_map (recover_chunk store config) (cm_chunks manifest).

(** A query result carries a record or ends the query. *)
Inductive GetRecordOk : Type :=
| FoundRecord (key value : bytes)
| FinishedWithNoAdditionalRecord.

Definition collect_payloads (results : list GetRecordOk) : gmap bytes bytes :=
  fold_left (λ payloads r,
    match r with
    | FoundRecord key value => <[key := value]> payloads
    | FinishedWithNoAdditionalRecord => payloads
    end) results ∅.

Definition collect_manifest_chunks (manifest : ChunkManifest) (results : list GetRecordOk)
    (config : TransportConfig) : result TransportError (list Chunk) :=
  let? _ := validate_manifest manifest in
  try_map (recover_chunk (collect_payloads results) config) (cm_chunks manifest).

(** [by_hash.entry(hash).or_insert_with(..)] after the hash check. *)
Definition index_chunk (config : TransportConfig) (by_hash : gmap bytes Chunk) (c : Chunk)
    : result TransportError (gmap bytes Chunk) :=
  let computed := hash_bytes (cc_hash_id (tc_chunking config)) (ch_data c) in
  if decide (computed = ch_hash c) then
    Ok (match by_hash !! ch_hash c with
        | Some _ => by_hash
        | None => <[ch_hash c := c]> by_hash
        end)
  else Err (ChunkHashMismatch (ch_index c)).

Definition order_chunk (by_hash : gmap bytes Chunk) (d : ChunkDescriptor)
    : result TransportError Chunk :=
  let? chunk := ok_or (by_hash !! cd_hash d) (MissingChunk (hex_encode (cd_hash d))) in
  if negb (ch_index chunk =? cd_index d)
  then Err (ChunkIndexMismatch (cd_index d) (ch_index chunk))
  else Ok chunk.

Definition reassemble_chunks_with_manifest (manifest : ChunkManifest) (chunks : list Chunk)
    (config : TransportConfig) : result TransportError bytes :=
  let? _ := validate_manifest manifest in
  let? by_hash := try_fold (index_chunk config) ∅ chunks in
  let? ordered := try_map (order_chunk by_hash) (cm_chunks manifest) in
  let payload := reassemble_chunks ordered in
  if negb (zlen payload =? cm_total_len manifest)
  then Err (PayloadLengthMismatch (cm_total_len manifest) (zlen payload))
  else Ok payload.

Definition reassemble_payload_from_store (manifest : ChunkManifest)
    (store : gmap bytes bytes) (config : TransportConfig) : result TransportError bytes :=
  let? chunks := recover_chunks_from_store manifest store config in
  reassemble_chunks_with_manifest manifest chunks config.

Definition reconstruct_envelope `{Ciborium} (manifest : ChunkManifest) (chunks : list Chunk)
    (config : TransportConfig) : result TransportError Envelope :=
  let? payload := reassemble_chunks_with_manifest manifest chunks config in
  map_err CborDecode (from_ctap2_canonical_slice Envelope_deserialize payload).

End manifests.

(** ** telemetry.rs: correlation identifiers *)

Record OperationCorrelation := mkOperationCorrelation {
  correlation_id : string;
  used_minimal_context : bool;
}.

Section telemetry.
Context `{Sha256} `{Hex}.

Definition derive_operation_correlation_id (operation : string) (context : bytes) : string :=
  let material := as_bytes "spex-op-v1|" ++ as_bytes operation ++ as_bytes "|" ++ context in
  hex_encode (take 16 (hash_bytes HashSha256 material)).

Definition derive_minimal_correlation_id (operation : string) : string :=
  derive_operation_correlation_id operation (as_bytes "missing-context").

Definition derive_operation_correlation (operation : string) (context : option bytes)
    : OperationCorrelation :=
  match context with
  | Some (b :: bs) =>
      {| correlation_id := derive_operation_correlation_id operation (b :: bs);
         used_minimal_context := false |}
  | _ =>
      {| correlation_id := derive_minimal_correlation_id operation;
         used_minimal_context := true |}
  end.

Definition reassemble_correlation_id (manifest : ChunkManifest) : string :=
  correlation_id (derive_operation_correlation "reassemble"
    (Some (to_be_bytes 8 (cm_total_len manifest) ++
           to_be_bytes 8 (zlen (cm_chunks manifest))))).

End telemetry.

(** ** transport.rs: the network *)

(** Kademlia, gossipsub and serde_json, with the operations the code calls. *)
Class Network := {
  kad : Type;
  kad_put_record : kad → bytes → bytes → Z → kad;
  kad_start_providing : kad → bytes → kad;
  kad_get_closest_peers : kad → bytes → kad;
  kad_get_record : kad → bytes → kad * Z;
  gossip : Type;
  gossip_publish : gossip → string → bytes → result string gossip;
  manifest_to_json : ChunkManifest → result string bytes;
  manifest_from_json : bytes → result string ChunkManifest;
}.

Section network.
Context `{Sha256} `{Hex} `{Network}.

Record TransportComponents := mkTransportComponents {
  tp_kademlia : kad;
  tp_gossip : gossip;
}.

Definition manifest_payload (manifest : ChunkManifest) : result TransportError bytes :=
  map_err Serialization (manifest_to_json manifest).

Definition parse_manifest_from_gossip (payload : bytes)
    : result TransportError ChunkManifest :=
  map_err Serialization (manifest_from_json payload).

Fixpoint recover_manifest_from_gossip (payloads : list bytes)
    : result TransportError ChunkManifest :=
  match payloads with
  | [] => Err (InvalidManifest "no valid gossipsub manifest found")
  | payload :: rest =>
      match parse_manifest_from_gossip payload with
      | Ok manifest =>
          if is_ok (validate_manifest manifest) then Ok manifest
          else recover_manifest_from_gossip rest
      | Err _ => recover_manifest_from_gossip rest
      end
  end.

Definition store_chunk_record (config : TransportConfig) (k : kad) (chunk : Chunk) : kad :=
  let k := kad_put_record k (ch_hash chunk) (ch_data chunk) (tc_record_ttl_secs config) in
  kad_start_providing k (ch_hash chunk).

Definition publish_chunks (k : kad) (config : TransportConfig) (chunks : list Chunk) : kad :=
  fold_left (store_chunk_record config) chunks k.

Definition publish_manifest (g : gossip) (config : TransportConfig)
    (manifest : ChunkManifest) : result TransportError gossip :=
  let? payload := manifest_payload manifest in
  map_err GossipPublish (gossip_publish g (tc_gossip_topic config) payload).

(** The components after the call, also on an error (the chunks stay stored);
    [None] is the panic of [chunk_data]. *)
Definition publish_payload (components : TransportComponents) (config : TransportConfig)
    (payload : bytes) : option (TransportComponents * result TransportError ChunkManifest) :=
  chunks ← chunk_data (tc_chunking config) payload;
  let manifest := manifest_of chunks payload in
  let k := publish_chunks (tp_kademlia components) config chunks in
  Some (match publish_manifest (tp_gossip components) config manifest with
        | Ok g => (mkTransportComponents k g, Ok manifest)
        | Err e => (mkTransportComponents k (tp_gossip components), Err e)
        end).

Definition start_manifest_chunk_queries (k : kad) (manifest : ChunkManifest)
    : kad * list Z :=
  fold_left (λ '(k, ids) d,
    let '(k, id) := kad_get_record k (cd_hash d) in (k, ids ++ [id]))
    (cm_chunks manifest) (k, []).

Definition replicate_manifest (k : kad) (config : TransportConfig)
    (manifest : ChunkManifest) : kad :=
  fold_left (λ k d,
    let k := kad_put_record k (cd_hash d) [] (tc_record_ttl_secs config) in
    kad_start_providing k (cd_hash d)) (cm_chunks manifest) k.

Definition passive_replicate_chunks (k : kad) (config : TransportConfig)
    (chunks : list Chunk) : kad :=
  fold_left (store_chunk_record config) chunks k.

Definition renew_chunk_ttl (k : kad) (config : TransportConfig)
    (chunks : list Chunk) : kad :=
  fold_left (store_chunk_record config) chunks k.

Definition random_walk_with_key (k : kad) (random_key_bytes : bytes) : kad * bytes :=
  (kad_get_closest_peers k random_key_bytes, random_key_bytes).

Definition robust_random_walk_with_seed (k : kad) (seed : bytes) (steps : Z)
    : kad * list bytes :=
  fold_left (λ '(k, record_keys) step,
    let derived := hash_bytes HashSha256 (seed ++ to_be_bytes 8 step) in
    (kad_get_closest_peers k derived, record_keys ++ [derived]))
    (map Z.of_nat (seq 0 (Z.to_nat (Z.max steps 1)))) (k, []).

(** [random_bytes] are the 32 bytes drawn. *)
Definition random_walk (k : kad) (random_bytes : bytes) : kad :=
  (robust_random_walk_with_seed k random_bytes 3).1.

End network.

(** ** Random walks with sources *)

Record WalkState := mkWalkState {
  source_counts : gmap string Z;
  used_material : gset bytes;
  walk_keys : list bytes;
}.

Section walk.
Context `{Sha256}.

Definition walk_origin (sources : list string) (step : nat) : string :=
  default "unknown"%string (sources !! (step mod (length sources `max` 1))%nat).

(** One turn of the loop.  The counter entry is created even when the source
    is skipped. *)
Definition walk_step (seed : bytes) (sources : list string) (limit : Z)
    (st : WalkState) (step : nat) : WalkState :=
  let origin := walk_origin sources step in
  let count := default 0 (source_counts st !! origin) in
  let counts := <[origin := count]> (source_counts st) in
  if limit <=? count then mkWalkState counts (used_material st) (walk_keys st)
  else
    let derived := hash_bytes HashSha256
      (seed ++ as_bytes origin ++ to_be_bytes 8 (Z.of_nat step)) in
    if decide (derived ∈ used_material st) then
      mkWalkState counts (used_material st) (walk_keys st)
    else mkWalkState (<[origin := count + 1]> counts) ({[derived]} ∪ used_material st)
           (walk_keys st ++ [derived]).

Definition robust_random_walk_with_sources (seed : bytes) (steps : Z)
    (sources : list string) (max_per_source : Z) : list bytes :=
  walk_keys (fold_left (walk_step seed sources (Z.max max_per_source 1))
    (seq 0 (Z.to_nat (Z.max steps 1))) (mkWalkState ∅ ∅ [])).

End walk.

(** ** Bootstrap snapshots *)

Record PersistedPeer := mkPersistedPeer {
  pp_peer_id : string;
  pp_addresses : list string;
  pp_last_seen : Z;
  pp_origin_tag : string;
}.

Record PersistedPeerReputation := mkPersistedPeerReputation {
  pr_peer_id : string;
  pr_score : Z;
  pr_timeout_penalties : Z;
  pr_invalid_payload_penalties : Z;
  pr_inconsistent_response_penalties : Z;
  pr_probation_until : option Z;
  pr_banned_until : option Z;
}.

Record PersistedBootstrapState := mkPersistedBootstrapState {
  bs_known_peers : list PersistedPeer;
  bs_bootstrap_addrs : list string;
  bs_manifests : list ChunkManifest;
  bs_index_keys : list string;
  bs_peer_reputation : list PersistedPeerReputation;
}.

Definition bootstrap_empty : PersistedBootstrapState :=
  mkPersistedBootstrapState [] [] [] [] [].

(** [String]'s [Ord]. *)
Definition string_leb (a b : string) : bool := bytes_leb (as_bytes a) (as_bytes b).

Definition sort_dedup (l : list string) : list string := dedup (sort_by string_leb l).

Definition manifest_leb (l r : ChunkManifest) : bool :=
  match cm_total_len l ?= cm_total_len r with
  | Lt => true
  | Gt => false
  | Eq => zlen (cm_chunks l) <=? zlen (cm_chunks r)
  end.

Definition canonical_snapshot (s : PersistedBootstrapState) : PersistedBootstrapState :=
  {| bs_known_peers :=
       map (λ p, mkPersistedPeer (pp_peer_id p) (sort_dedup (pp_addresses p))
                   (pp_last_seen p) (pp_origin_tag p))
         (sort_by (λ l r, string_leb (pp_peer_id l) (pp_peer_id r)) (bs_known_peers s));
     bs_bootstrap_addrs := sort_dedup (bs_bootstrap_addrs s);
     bs_manifests := sort_by manifest_leb (bs_manifests s);
     bs_index_keys := sort_dedup (bs_index_keys s);
     bs_peer_reputation :=
       sort_by (λ l r, string_leb (pr_peer_id l) (pr_peer_id r)) (bs_peer_reputation s) |}.

(** serde_json on snapshots. *)
Class SnapshotJson := {
  snapshot_to_json : PersistedBootstrapState → result string bytes;
  snapshot_from_json : bytes → result string PersistedBootstrapState;
}.

Section snapshots.
Context `{SnapshotJson}.

Definition encode_bootstrap_snapshot (snapshot : PersistedBootstrapState)
    : result TransportError bytes :=
  map_err Serialization (snapshot_to_json (canonical_snapshot snapshot)).

Definition decode_bootstrap_snapshot (payload : bytes)
    : result TransportError PersistedBootstrapState :=
  map_err Serialization (snapshot_from_json payload).

End snapshots.

(** * Lemmas *)

(** ** Chunks of a payload *)

Lemma slice_chunks_concat fuel n data :
  (0 < n)%nat → (length data <= fuel)%nat → concat (slice_chunks fuel n data) = data.
Proof.
  intros Hn. revert data. induction fuel as [|f IH]; intros [|b data] Hl; simpl in Hl; try done.
  - lia.
  - cbn [slice_chunks concat]. rewrite IH.
    + apply take_drop.
    + rewrite length_drop. simpl length. lia.
Qed.

Lemma slice_chunks_cons fuel n data :
  data ≠ [] → slice_chunks (S fuel) n data = take n data :: slice_chunks fuel n (drop n data).
Proof. by destruct data. Qed.

Lemma slice_chunks_twice c :
  c ≠ [] → slice_chunks (length (c ++ c)) (length c) (c ++ c) = [c; c].
Proof.
  intros Hne. destruct c as [|b t] eqn:E; [done|]. rewrite <-E in *.
  replace (length (c ++ c)) with (S (S (length t + length t)))%nat
    by (rewrite E, length_app; simpl; lia).
  rewrite slice_chunks_cons by (by rewrite E). rewrite take_app_length, drop_app_length.
  rewrite slice_chunks_cons by done. rewrite take_ge, drop_ge by done.
  by destruct (length t + length t)%nat.
Qed.

Lemma map_fst_enumerate {A} (l : list A) :
  map fst (enumerate l) = map Z.of_nat (seq 0 (length l)).
Proof. unfold enumerate. apply fst_zip. by rewrite length_map, length_seq. Qed.

Lemma map_snd_enumerate {A} (l : list A) : map snd (enumerate l) = l.
Proof. unfold enumerate. apply snd_zip. by rewrite length_map, length_seq. Qed.

Section chunk_lemmas.
Context `{Sha256}.

Definition chunk_hashed (c : Chunk) : Prop := ch_hash c = sha256 (ch_data c).

Lemma chunk_data_facts config data chunks :
  0 <= chunk_size config → chunk_data config data = Some chunks →
  map ch_index chunks = map Z.of_nat (seq 0 (length chunks)) ∧
  concat (map ch_data chunks) = data ∧ Forall chunk_hashed chunks.
Proof.
  intros Hs. unfold chunk_data. destruct data as [|b data]; [by intros [= <-]|].
  destruct (_ =? 0) eqn:E; [done|]. bool_to_prop. intros Hc.
  apply (inj Some) in Hc. subst chunks. set (l := slice_chunks _ _ _). rewrite !map_map, length_map.
  split; [|split].
  - rewrite (map_ext _ fst) by (by intros [? ?]). rewrite map_fst_enumerate.
    by rewrite <-(length_map snd), map_snd_enumerate.
  - rewrite (map_ext _ snd) by (by intros [? ?]). rewrite map_snd_enumerate.
    apply slice_chunks_concat; lia.
  - rewrite Forall_map. apply List.Forall_forall. intros [i c] _.
    unfold chunk_hashed. simpl. by destruct (cc_hash_id config).
Qed.

Lemma sorted_by_index chunks k :
  map ch_index chunks = map Z.of_nat (seq k (length chunks)) →
  StronglySorted (λ a b, (ch_index a <=? ch_index b) = true) chunks.
Proof.
  revert k. induction chunks as [|c chunks IH]; intros k Hi; [constructor|].
  simpl in Hi. injection Hi as Hc Hi. constructor; [by eapply IH|].
  apply List.Forall_forall. intros d Hd. apply (in_map ch_index) in Hd. rewrite Hi in Hd.
  apply in_map_iff in Hd as (j & Hj & Hin). apply in_seq in Hin. apply Z.leb_le. lia.
Qed.

Lemma reassemble_in_order chunks :
  map ch_index chunks = map Z.of_nat (seq 0 (length chunks)) →
  reassemble_chunks chunks = concat (map ch_data chunks).
Proof.
  intros Hi. unfold reassemble_chunks. by rewrite sort_by_sorted_id by (by eapply sorted_by_index).
Qed.

End chunk_lemmas.

(** ** Manifest validation *)

Lemma check_descriptors_Ok ds I Hs :
  check_descriptors ds I Hs = Ok tt ↔
  NoDup (map cd_index ds) ∧ NoDup (map cd_hash ds) ∧
  Forall (λ d, (cd_index d ∉ I) ∧ (cd_hash d ∉ Hs)) ds.
Proof.
  revert I Hs. induction ds as [|d ds IH]; intros I Hs; simpl.
  { split; [intros _; repeat constructor | done]. }
  rewrite !NoDup_cons, Forall_cons. case_decide as Hi; [split; [done|tauto]|].
  case_decide as Hh; [split; [done|tauto]|]. rewrite IH.
  assert (∀ (A : Type) (f : ChunkDescriptor → A), f d ∉ map f ds ↔ Forall (λ x, f x ≠ f d) ds)
    as Hnot.
  { intros A f. rewrite List.Forall_forall. split.
    - intros Hn x Hx He. apply Hn. rewrite <-He. by apply list_elem_of_In, in_map.
    - intros Hall Hin. apply list_elem_of_In, in_map_iff in Hin as (x & Hx & Hin). by eapply Hall. }
  rewrite !Hnot, !List.Forall_forall. split.
  - intros (H1 & H2 & H3).
    split; [split; [|done]|split; [split; [|done]|split; [done|]]];
      intros x Hx; specialize (H3 x Hx); rewrite !not_elem_of_union, !not_elem_of_singleton in H3;
      tauto.
  - intros ((H1 & H1') & (H2 & H2') & _ & H3). split; [done|split; [done|]].
    intros x Hx. specialize (H1 x Hx). specialize (H2 x Hx). specialize (H3 x Hx).
    rewrite !not_elem_of_union, !not_elem_of_singleton. tauto.
Qed.

Lemma check_descriptors_dup_hash ds I Hs :
  NoDup (map cd_index ds) → Forall (λ d, cd_index d ∉ I) ds →
  check_descriptors ds I Hs ≠ Ok tt →
  check_descriptors ds I Hs = Err (InvalidManifest "duplicate chunk hash").
Proof.
  revert I Hs. induction ds as [|d ds IH]; intros I Hs Hn Hf; simpl; [done|].
  inversion Hf as [|? ? Hd Hf']; subst. rewrite decide_False by done.
  case_decide; [done|]. simpl in Hn. apply NoDup_cons in Hn as [Hnd Hn].
  apply IH; [done|]. rewrite List.Forall_forall in *. intros x Hx.
  rewrite elem_of_union, elem_of_singleton. intros [He|?]; [|by eapply Hf'].
  apply Hnd. rewrite <-He. by apply list_elem_of_In, in_map.
Qed.

Lemma validate_manifest_Ok m :
  validate_manifest m = Ok tt ↔
  (cm_chunks m = [] → cm_total_len m <= 0) ∧
  NoDup (map cd_index (cm_chunks m)) ∧ NoDup (map cd_hash (cm_chunks m)).
Proof.
  unfold validate_manifest. case_bool_decide as He; simpl.
  - rewrite He. simpl. destruct (0 <? _) eqn:E; bool_to_prop.
    + split; [done|]. intros [Hl _]. specialize (Hl eq_refl). lia.
    + split; [|done]. intros _. repeat split; [intros _; lia|constructor..].
  - rewrite check_descriptors_Ok. split; [intros (? & ? & _); done|].
    intros (_ & ? & ?). split; [done|split; [done|]]. apply List.Forall_forall. intros d _.
    split; apply not_elem_of_empty.
Qed.

(** ** Recovery *)

Section recovery.
Context `{Sha256} `{Hex}.

Definition descriptor (c : Chunk) : ChunkDescriptor := mkChunkDescriptor (ch_index c) (ch_hash c).

(** The store answers the hash of every chunk with its data. *)
Definition store_has (store : gmap bytes bytes) (chunks : list Chunk) : Prop :=
  Forall (λ c, store !! ch_hash c = Some (ch_data c)) chunks.

Lemma hash_bytes_sha hid d : hash_bytes hid d = sha256 d.
Proof. by destruct hid. Qed.

Lemma recover_chunks_ok store config chunks :
  Forall chunk_hashed chunks → store_has store chunks →
  try_map (recover_chunk store config) (map descriptor chunks) = Ok chunks.
Proof.
  intros Hh Hs. apply try_map_Ok. induction Hh as [|c chunks Hc Hh IH]; [constructor|].
  inversion Hs as [|? ? Hlk Hs']; subst. constructor; [|by apply IH].
  unfold recover_chunk. simpl. rewrite Hlk. simpl. rewrite hash_bytes_sha, decide_True by done.
  by destruct c.
Qed.

(** What the index of the supplied chunks maps a hash to. *)
Definition index_ok (chunks : list Chunk) (by_hash : gmap bytes Chunk) : Prop :=
  ∀ h c, by_hash !! h = Some c → ch_hash c = h ∧ chunk_hashed c ∧ In c chunks.

Lemma index_chunks_ok config chunks all by_hash by_hash' :
  incl chunks all → index_ok all by_hash →
  try_fold (index_chunk config) by_hash chunks = Ok by_hash' → index_ok all by_hash'.
Proof.
  revert by_hash. induction chunks as [|c chunks IH]; intros by_hash Hi Hok; simpl.
  { by intros [= <-]. }
  unfold index_chunk at 1. rewrite hash_bytes_sha. case_decide as Hh; [|done].
  apply IH; [intros x Hx; apply Hi; simpl; auto|].
  destruct (by_hash !! ch_hash c) eqn:E; [done|]. intros h d.
  rewrite lookup_insert_Some. intros [[<- <-]|[_ Hd]]; [|by apply Hok].
  split; [done|]. split; [done|]. apply Hi. simpl. auto.
Qed.

Lemma index_chunks_distinct config chunks by_hash :
  Forall chunk_hashed chunks → NoDup (map ch_hash chunks) →
  Forall (λ c, by_hash !! ch_hash c = None) chunks →
  ∃ by_hash', try_fold (index_chunk config) by_hash chunks = Ok by_hash' ∧
    Forall (λ c, by_hash' !! ch_hash c = Some c) chunks ∧
    (∀ h, h ∉ map ch_hash chunks → by_hash' !! h = by_hash !! h).
Proof.
  intros Hh. revert by_hash. induction Hh as [|c chunks Hc Hh IH]; intros by_hash Hn Hf.
  { exists by_hash. repeat constructor. }
  simpl in Hn. apply NoDup_cons in Hn as [Hnc Hn]. inversion Hf as [|? ? Hcn Hf']; subst.
  cbn [try_fold]. unfold index_chunk at 1. rewrite hash_bytes_sha, decide_True by done.
  rewrite Hcn. destruct (IH (<[ch_hash c := c]> by_hash)) as (b & Hb & Hall & Hrest); [done|..].
  - rewrite List.Forall_forall in *. intros d Hd. rewrite lookup_insert_ne; [by apply Hf'|].
    intros He. apply Hnc. rewrite He. by apply list_elem_of_In, in_map.
  - exists b. split; [done|]. split.
    + constructor; [|done]. rewrite Hrest by done. by rewrite lookup_insert_eq.
    + intros h Hnot. simpl in Hnot. rewrite not_elem_of_cons in Hnot. destruct Hnot as [Hne Hnot].
      rewrite Hrest by done. by rewrite lookup_insert_ne.
Qed.

Lemma order_chunks_ok by_hash chunks :
  Forall (λ c, by_hash !! ch_hash c = Some c) chunks →
  try_map (order_chunk by_hash) (map descriptor chunks) = Ok chunks.
Proof.
  intros Hf. apply try_map_Ok. induction Hf as [|c chunks Hc Hf IH]; constructor; [|done].
  unfold order_chunk. simpl. rewrite Hc. simpl. by rewrite Z.eqb_refl.
Qed.

(** The ordered chunks are what the manifest asks for. *)
Lemma order_chunks_match all by_hash ds ordered :
  index_ok all by_hash → try_map (order_chunk by_hash) ds = Ok ordered →
  Forall2 (λ d c, ch_index c = cd_index d ∧ ch_hash c = cd_hash d ∧ chunk_hashed c ∧ In c all)
    ds ordered.
Proof.
  intros Hok Hm%try_map_Ok. eapply Forall2_impl; [exact Hm|]. intros d c Ho.
  unfold order_chunk in Ho. destruct (by_hash !! cd_hash d) as [e|] eqn:E; [|done]. simpl in Ho.
  destruct (ch_index e =? cd_index d) eqn:Ei; [|done]. bool_to_prop. injection Ho as <-.
  destruct (Hok _ _ E) as (? & ? & ?). done.
Qed.

Lemma reassemble_inv m chunks config p :
  reassemble_chunks_with_manifest m chunks config = Ok p →
  ∃ ordered, p = reassemble_chunks ordered ∧ zlen p = cm_total_len m ∧
    validate_manifest m = Ok tt ∧
    Forall2 (λ d c, ch_index c = cd_index d ∧ ch_hash c = cd_hash d ∧ chunk_hashed c ∧ In c chunks)
      (cm_chunks m) ordered.
Proof.
  unfold reassemble_chunks_with_manifest. intros Hr.
  destruct (validate_manifest m) as [[]|] eqn:Ev; [|done].
  destruct (try_fold _ _ _) as [b|] eqn:Eb; [|done].
  destruct (try_map _ _) as [o|] eqn:Eo; [|done]. simpl in Hr.
  destruct (_ =? _) eqn:El; [|done]. bool_to_prop. injection Hr as <-.
  exists o. split; [done|]. split; [done|]. split; [done|].
  eapply order_chunks_match; [|done]. refine (index_chunks_ok config chunks chunks ∅ b (incl_refl _) _ Eb).
  intros h c Hc. by rewrite lookup_empty in Hc.
Qed.

(** The chunks in manifest order are determined by what their hashes stand for. *)
Lemma ordered_chunks_unique chunks1 chunks2 ds : ∀ o1 o2,
  (∀ c1 c2, In c1 chunks1 → In c2 chunks2 → sha256 (ch_data c1) = sha256 (ch_data c2) →
     ch_data c1 = ch_data c2) →
  Forall2 (λ d c, ch_index c = cd_index d ∧ ch_hash c = cd_hash d ∧ chunk_hashed c ∧ In c chunks1) ds o1 →
  Forall2 (λ d c, ch_index c = cd_index d ∧ ch_hash c = cd_hash d ∧ chunk_hashed c ∧ In c chunks2) ds o2 →
  o1 = o2.
Proof.
  intros o1 o2 Hcf Ho1. revert o2.
  induction Ho1 as [|d c1 ds o1 (Hi1 & Hh1 & Hc1 & Hin1) Ho1 IH]; intros o2 Ho2;
    inversion Ho2 as [|? c2 ? o2' (Hi2 & Hh2 & Hc2 & Hin2) Ho2']; subst; [done|].
  f_equal; [|by apply IH].
  assert (ch_data c1 = ch_data c2) as Hd by (unfold chunk_hashed in *; apply Hcf; congruence).
  destruct c1, c2; simpl in *. congruence.
Qed.

Lemma manifest_of_descriptors chunks payload :
  cm_chunks (manifest_of chunks payload) = map descriptor chunks.
Proof. done. Qed.

Lemma NoDup_indices (chunks : list Chunk) :
  map ch_index chunks = map Z.of_nat (seq 0 (length chunks)) → NoDup (map ch_index chunks).
Proof.
  intros ->. apply NoDup_fmap_2; [apply _|]. apply NoDup_seq.
Qed.

Lemma validate_published config payload chunks :
  0 <= chunk_size config → chunk_data config payload = Some chunks →
  validate_manifest (manifest_of chunks payload)
  = if decide (NoDup (map ch_hash chunks)) then Ok tt
    else Err (InvalidManifest "duplicate chunk hash").
Proof.
  intros Hs Hc. destruct (chunk_data_facts _ _ _ Hs Hc) as (Hi & Hd & _).
  pose proof (NoDup_indices _ Hi) as Hn.
  assert (map cd_index (map descriptor chunks) = map ch_index chunks) as Ei by (by rewrite map_map).
  assert (map cd_hash (map descriptor chunks) = map ch_hash chunks) as Eh by (by rewrite map_map).
  case_decide as Hnd.
  - apply validate_manifest_Ok. rewrite manifest_of_descriptors, Ei, Eh.
    split; [|done]. intros He. destruct chunks; [|done]. simpl in Hd.
    rewrite <-Hd. simpl. unfold zlen. simpl. lia.
  - unfold validate_manifest. rewrite manifest_of_descriptors.
    rewrite bool_decide_false; [|destruct chunks; [destruct Hnd; constructor|done]]. simpl.
    apply check_descriptors_dup_hash.
    + by rewrite Ei.
    + apply List.Forall_forall. intros d _. apply not_elem_of_empty.
    + rewrite check_descriptors_Ok, Eh. tauto.
Qed.

Lemma reassemble_published config payload chunks :
  0 <= chunk_size (tc_chunking config) → chunk_data (tc_chunking config) payload = Some chunks →
  NoDup (map ch_hash chunks) →
  reassemble_chunks_with_manifest (manifest_of chunks payload) chunks config = Ok payload.
Proof.
  intros Hs Hc Hn. destruct (chunk_data_facts _ _ _ Hs Hc) as (Hi & Hd & Hh).
  unfold reassemble_chunks_with_manifest.
  rewrite (validate_published _ _ _ Hs Hc), decide_True by done.
  destruct (index_chunks_distinct config chunks ∅) as (b & -> & Hb & _); [done..| |].
  { apply List.Forall_forall. intros c _. apply lookup_empty. }
  rewrite manifest_of_descriptors, order_chunks_ok by done.
  rewrite reassemble_in_order, Hd by done. simpl. by rewrite Z.eqb_refl.
Qed.

End recovery.

(** ** Walks *)

Section walks.
Context `{Sha256}.

Definition walk_key (seed : bytes) (p : string * nat) : bytes :=
  sha256 (seed ++ as_bytes p.1 ++ to_be_bytes 8 (Z.of_nat p.2)).

Definition picks_of (o : string) (picks : list (string * nat)) : list (string * nat) :=
  filter (λ p, p.1 = o) picks.

(** The keys collected so far are those of [picks], a list of sources and steps. *)
Record walk_inv (seed : bytes) (sources : list string) (limit : Z) (st : WalkState)
    (picks : list (string * nat)) : Prop := {
  wi_keys : walk_keys st = map (walk_key seed) picks;
  wi_origin : Forall (λ p, p.1 = walk_origin sources p.2) picks;
  wi_count : ∀ o, default 0 (source_counts st !! o) = zlen (picks_of o picks);
  wi_limit : ∀ o, zlen (picks_of o picks) <= limit;
  wi_used : ∀ k, k ∈ used_material st ↔ k ∈ walk_keys st;
  wi_nodup : NoDup (walk_keys st);
}.

Lemma default_insert_self (m : gmap string Z) o o' :
  default 0 (<[o := default 0 (m !! o)]> m !! o') = default 0 (m !! o').
Proof.
  destruct (decide (o = o')) as [->|]; [by rewrite lookup_insert_eq | by rewrite lookup_insert_ne].
Qed.

Lemma picks_of_app o picks p :
  zlen (picks_of o (picks ++ [p])) = zlen (picks_of o picks) + (if decide (p.1 = o) then 1 else 0).
Proof.
  unfold picks_of, zlen. rewrite filter_app, length_app. simpl.
  rewrite filter_cons, filter_nil. case_decide; simpl; lia.
Qed.

Lemma walk_step_inv seed sources limit st picks n :
  walk_inv seed sources limit st picks →
  ∃ picks', walk_inv seed sources limit (walk_step seed sources limit st n) picks'.
Proof.
  intros [Hk Ho Hc Hl Hu Hn]. unfold walk_step. cbv zeta.
  set (o := walk_origin sources n). set (key := hash_bytes _ _).
  assert (key = walk_key seed (o, n)) as Ekey by done.
  destruct (limit <=? default 0 (source_counts st !! o)) eqn:E; bool_to_prop.
  { exists picks. split; try done. intros o'. simpl. by rewrite default_insert_self. }
  case_decide as Hin.
  { exists picks. split; try done. intros o'. simpl. by rewrite default_insert_self. }
  exists (picks ++ [(o, n)]). split; simpl.
  - by rewrite map_app, Hk, Ekey.
  - apply Forall_app. split; [done|]. by repeat constructor.
  - intros o'. rewrite picks_of_app, <-Hc. simpl. rewrite insert_insert_eq.
    case_decide as Eo; [subst o'; by rewrite lookup_insert_eq | rewrite lookup_insert_ne by done; lia].
  - intros o'. rewrite picks_of_app. specialize (Hl o'). simpl. case_decide as Eo; [|lia].
    rewrite Hc, Eo in E. lia.
  - intros k. rewrite elem_of_union, elem_of_app, elem_of_singleton, list_elem_of_singleton, Hu.
    tauto.
  - apply NoDup_app. split; [done|]. split; [|apply NoDup_singleton].
    intros k Hkin Hks. apply list_elem_of_singleton in Hks as ->. apply Hin. by apply Hu.
Qed.

Lemma walk_fold_inv seed sources limit ns st picks :
  walk_inv seed sources limit st picks →
  ∃ picks', walk_inv seed sources limit (fold_left (walk_step seed sources limit) ns st) picks'.
Proof.
  revert st picks. induction ns as [|n ns IH]; intros st picks Hi; simpl; [eauto|].
  destruct (walk_step_inv _ _ _ _ _ n Hi) as [picks' Hi']. by eapply IH.
Qed.

Lemma walk_init_inv seed sources limit :
  0 <= limit → walk_inv seed sources limit (mkWalkState ∅ ∅ []) [].
Proof.
  intros Hl. split; simpl; try done; try constructor.
  intros Hk. by apply elem_of_empty in Hk. intros Hk. by apply not_elem_of_nil in Hk.
Qed.

End walks.

(** ** Snapshots *)

Lemma string_leb_total a b : string_leb a b = true ∨ string_leb b a = true.
Proof. apply bytes_leb_total. Qed.

Lemma string_leb_trans a b c :
  string_leb a b = true → string_leb b c = true → string_leb a c = true.
Proof. apply bytes_leb_trans. Qed.

Lemma string_leb_antisym a b : string_leb a b = true → string_leb b a = true → a = b.
Proof.
  unfold string_leb, bytes_leb. rewrite (bytes_cmp_antisym (as_bytes a) (as_bytes b)).
  destruct (bytes_cmp (as_bytes a) (as_bytes b)) eqn:E; try done.
  intros _ _. by apply as_bytes_inj, bytes_cmp_eq.
Qed.

Lemma dedup_cons {A} `{EqDecision A} (x y : A) l :
  dedup (x :: y :: l) = if decide (x = y) then dedup (y :: l) else x :: dedup (y :: l).
Proof. done. Qed.

Lemma elem_of_dedup {A} `{EqDecision A} (x : A) l : x ∈ dedup l ↔ x ∈ l.
Proof.
  induction l as [|y l IH]; [done|]. destruct l as [|z l]; [done|].
  rewrite dedup_cons. case_decide as E.
  - subst. rewrite IH, !elem_of_cons. tauto.
  - rewrite elem_of_cons, IH, !elem_of_cons. tauto.
Qed.

Lemma dedup_sorted (l : list string) :
  StronglySorted (λ a b, string_leb a b = true) l →
  StronglySorted (λ a b, string_leb a b = true) (dedup l) ∧ NoDup (dedup l).
Proof.
  induction 1 as [|x l Hs [IHs IHn] Hx]; [repeat constructor|].
  destruct l as [|y l]; [repeat constructor; apply not_elem_of_nil|].
  rewrite dedup_cons. case_decide as E; [done|].
  assert (∀ z, z ∈ dedup (y :: l) → string_leb x z = true) as Hle.
  { intros z Hz. rewrite elem_of_dedup in Hz. rewrite List.Forall_forall in Hx. by apply Hx, list_elem_of_In. }
  split.
  - constructor; [done|]. apply List.Forall_forall. intros z Hz. by apply Hle, list_elem_of_In.
  - constructor; [|done]. intros Hin. rewrite elem_of_dedup in Hin.
    apply elem_of_cons in Hin as [?|Hin]; [done|]. apply E, string_leb_antisym.
    + apply Hle, elem_of_dedup. left.
    + inversion Hs as [|? ? _ Hy]; subst. rewrite List.Forall_forall in Hy.
      by apply Hy, list_elem_of_In.
Qed.

(** [sort] then [dedup] depends on the set of elements only. *)
Lemma sort_dedup_ext l1 l2 : (∀ x, x ∈ l1 ↔ x ∈ l2) → sort_dedup l1 = sort_dedup l2.
Proof.
  intros Hx. unfold sort_dedup.
  pose proof (sort_by_sorted string_leb string_leb_total string_leb_trans) as Hsort.
  destruct (dedup_sorted _ (Hsort l1)) as [Hs1 Hn1].
  destruct (dedup_sorted _ (Hsort l2)) as [Hs2 Hn2].
  apply (sorted_Permutation_unique string_leb); [|done..|].
  - intros x y _ _. apply string_leb_antisym.
  - apply NoDup_Permutation; [done..|]. intros x. rewrite !elem_of_dedup.
    by rewrite !(sort_by_Permutation string_leb).
Qed.

(** Sorting by a key that no two elements share depends on the multiset only. *)
Lemma sort_by_key_ext {A} (key : A → string) l1 l2 :
  l1 ≡ₚ l2 → NoDup (map key l1) →
  sort_by (λ a b, string_leb (key a) (key b)) l1
  = sort_by (λ a b, string_leb (key a) (key b)) l2.
Proof.
  intros Hp Hn. set (leb := λ a b, string_leb (key a) (key b)).
  apply (sorted_Permutation_unique leb).
  - intros x y Hx Hy Hxy Hyx. pose proof (string_leb_antisym _ _ Hxy Hyx) as He.
    rewrite (sort_by_Permutation leb) in Hx, Hy.
    apply list_elem_of_lookup in Hx as [i Hi]. apply list_elem_of_lookup in Hy as [j Hj].
    assert (i = j) as ->; [|congruence].
    eapply (NoDup_lookup _ _ _ (key x) Hn); rewrite list_lookup_fmap;
      [by rewrite Hi | rewrite Hj; simpl; congruence].
  - apply sort_by_sorted; [intros; apply string_leb_total | intros ???; apply string_leb_trans].
  - apply sort_by_sorted; [intros; apply string_leb_total | intros ???; apply string_leb_trans].
  - by rewrite !sort_by_Permutation.
Qed.

(** ** Claims *)

Section claims.
Context `{SH : Sha256} `{HX : Hex} `{NW : Network}.

(** C6: a published payload is recovered from any store that holds its chunks,
    byte for byte, when no two chunks are equal; when two chunks have the same
    hash, every recovery of it is refused as an invalid manifest. *)
Theorem publish_then_recover comps comps' config payload chunks manifest store :
  0 <= chunk_size (tc_chunking config) →
  chunk_data (tc_chunking config) payload = Some chunks →
  publish_payload comps config payload = Some (comps', Ok manifest) →
  store_has store chunks →
  reassemble_payload_from_store manifest store config
  = if decide (NoDup (map ch_hash chunks)) then Ok payload
    else Err (InvalidManifest "duplicate chunk hash").
Proof.
  intros Hs Hc Hp Hst. unfold publish_payload in Hp. rewrite Hc in Hp. simpl in Hp.
  assert (manifest = manifest_of chunks payload) as ->.
  { destruct (publish_manifest _ _ _); simplify_eq. done. }
  destruct (chunk_data_facts _ _ _ Hs Hc) as (_ & _ & Hh).
  unfold reassemble_payload_from_store, recover_chunks_from_store.
  rewrite (validate_published _ _ _ Hs Hc). case_decide; [|done].
  rewrite manifest_of_descriptors, recover_chunks_ok by done.
  by apply reassemble_published.
Qed.

(** A payload made of a chunk repeated once can never be recovered, from
    any store and with any network: its own manifest is refused. *)
Theorem repeated_chunk_unrecoverable config c :
  c ≠ [] → zlen c = chunk_size (tc_chunking config) →
  ∃ chunks, chunk_data (tc_chunking config) (c ++ c) = Some chunks ∧
    ∀ store, reassemble_payload_from_store (manifest_of chunks (c ++ c)) store config
             = Err (InvalidManifest "duplicate chunk hash").
Proof.
  intros Hne Hlen.
  assert (0 <= chunk_size (tc_chunking config)) as Hs by (rewrite <-Hlen; apply zlen_nonneg).
  pose proof (slice_chunks_twice c Hne) as Hsl.
  destruct (chunk_data (tc_chunking config) (c ++ c)) as [chunks|] eqn:Ec.
  2:{ exfalso. unfold chunk_data in Ec. destruct (c ++ c) eqn:E; [done|].
      destruct (_ =? 0) eqn:E0; [|done]. bool_to_prop. rewrite E0 in Hlen.
      destruct c; [done|]. unfold zlen in Hlen. simpl in Hlen. lia. }
  exists chunks. split; [done|]. intros store.
  unfold reassemble_payload_from_store, recover_chunks_from_store.
  rewrite (validate_published _ _ _ Hs Ec), decide_False; [done|].
  unfold chunk_data in Ec. destruct (c ++ c) as [|x l] eqn:E; [by destruct c|].
  destruct (_ =? 0); [done|]. apply (inj Some) in Ec. subst chunks. rewrite <-Hlen.
  unfold zlen. rewrite Nat2Z.id, Hsl. simpl. rewrite NoDup_cons.
  intros [Hn _]. apply Hn. left.
Qed.

(** A manifest determines the payload: whoever supplies the chunks, in
    whatever order and with whatever extra chunks, two successful reassemblies
    give the same bytes unless the supplied data collide under SHA-256. *)
Theorem manifest_binds_payload manifest chunks1 chunks2 config p1 p2 :
  collision_free (map ch_data (chunks1 ++ chunks2)) →
  reassemble_chunks_with_manifest manifest chunks1 config = Ok p1 →
  reassemble_chunks_with_manifest manifest chunks2 config = Ok p2 →
  p1 = p2 ∧ zlen p1 = cm_total_len manifest.
Proof.
  intros Hcf H1 H2. apply reassemble_inv in H1 as (o1 & -> & Hlen & _ & Ho1).
  apply reassemble_inv in H2 as (o2 & -> & _ & _ & Ho2). split; [|done]. f_equal.
  eapply ordered_chunks_unique; [|exact Ho1|exact Ho2].
  intros c1 c2 Hc1 Hc2 Hh. apply Hcf; [..|done]; apply list_elem_of_In, in_map, in_app_iff; auto.
Qed.

(** In a walk over sources no source contributes more than the limit (at
    least one) of keys, every key comes from a step whose source is in turn,
    and no key is used twice. *)
Theorem walk_bounds_each_source seed steps sources max_per_source :
  ∃ picks,
    robust_random_walk_with_sources seed steps sources max_per_source
    = map (walk_key seed) picks ∧
    Forall (λ p, p.1 = walk_origin sources p.2) picks ∧
    (∀ o, zlen (picks_of o picks) <= Z.max max_per_source 1) ∧
    NoDup (map (walk_key seed) picks).
Proof.
  unfold robust_random_walk_with_sources.
  destruct (walk_fold_inv seed sources (Z.max max_per_source 1)
    (seq 0 (Z.to_nat (Z.max steps 1))) _ _ (walk_init_inv seed sources (Z.max max_per_source 1) ltac:(lia)))
    as [picks [Hk Ho Hc Hl Hu Hn]].
  exists picks. rewrite Hk in Hn |- *. done.
Qed.

End claims.

(** The encoding of a bootstrap snapshot does not depend on the order in
    which peers, reputations, addresses and index keys are listed, nor on
    repeated addresses and keys. *)
Theorem snapshot_encoding_order_free `{SnapshotJson} s1 s2 :
  bs_known_peers s1 ≡ₚ bs_known_peers s2 → NoDup (map pp_peer_id (bs_known_peers s1)) →
  bs_peer_reputation s1 ≡ₚ bs_peer_reputation s2 →
  NoDup (map pr_peer_id (bs_peer_reputation s1)) →
  (∀ a, a ∈ bs_bootstrap_addrs s1 ↔ a ∈ bs_bootstrap_addrs s2) →
  (∀ k, k ∈ bs_index_keys s1 ↔ k ∈ bs_index_keys s2) →
  bs_manifests s1 = bs_manifests s2 →
  encode_bootstrap_snapshot s1 = encode_bootstrap_snapshot s2.
Proof.
  intros Hp Hpn Hr Hrn Ha Hk Hm. unfold encode_bootstrap_snapshot, canonical_snapshot.
  by rewrite (sort_by_key_ext pp_peer_id _ _ Hp Hpn), (sort_by_key_ext pr_peer_id _ _ Hr Hrn),
    (sort_dedup_ext _ _ Ha), (sort_dedup_ext _ _ Hk), Hm.
Qed.

(** ** Witnesses *)

Import Reference.

(** A store and a topic in memory. *)
#[local] Instance memory_network : Network :=
  {| kad := gmap bytes bytes;
     kad_put_record k key value _ := <[key := value]> k;
     kad_start_providing k _ := k;
     kad_get_closest_peers k _ := k;
     kad_get_record k _ := (k, 0);
     gossip := list bytes;
     gossip_publish g _ p := Ok (g ++ [p]);
     manifest_to_json _ := Ok (as_bytes "{}");
     manifest_from_json _ := Err "unsupported"%string |}.

Definition small_config : TransportConfig :=
  {| tc_chunking := {| chunk_size := 4; cc_hash_id := HashSha256 |};
     tc_gossip_topic := "spex/transport"; tc_record_ttl_secs := 3600 |}.

Definition small_payload : bytes := as_bytes "spex payload".

Definition small_chunks : list Chunk :=
  default [] (chunk_data (tc_chunking small_config) small_payload).

Definition memory_components : TransportComponents :=
  @mkTransportComponents memory_network (∅ : gmap bytes bytes) ([] : list bytes).

Definition small_published : TransportComponents * result TransportError ChunkManifest :=
  default (memory_components, Err BridgePayload)
    (publish_payload memory_components small_config small_payload).

Lemma publish_then_recover_witness :
  reassemble_payload_from_store (manifest_of small_chunks small_payload)
    (tp_kademlia small_published.1) small_config
  = if decide (NoDup (map ch_hash small_chunks)) then Ok small_payload
    else Err (InvalidManifest "duplicate chunk hash").
Proof.
  apply (publish_then_recover memory_components small_published.1 small_config
           small_payload small_chunks);
    [vm_compute; congruence | vm_compute; reflexivity
    | vm_cast_no_check (@eq_refl _ (publish_payload memory_components small_config small_payload)) |].
  assert (forallb (λ c, bool_decide ((tp_kademlia small_published.1 : gmap bytes bytes)
      !! ch_hash c = Some (ch_data c))) small_chunks = true) as Hall by (vm_compute; reflexivity).
  rewrite forallb_forall in Hall. apply List.Forall_forall. intros c Hc.
  by apply (bool_decide_eq_true_1 _ (Hall c Hc)).
Defined.

Example small_payload_recovered :
  reassemble_payload_from_store (manifest_of small_chunks small_payload)
    (tp_kademlia small_published.1) small_config = Ok small_payload.
Proof. vm_compute. reflexivity. Qed.

Lemma repeated_chunk_unrecoverable_witness :
  ∃ chunks, chunk_data (tc_chunking small_config) (as_bytes "abcdabcd") = Some chunks ∧
    ∀ store, reassemble_payload_from_store (manifest_of chunks (as_bytes "abcdabcd")) store
               small_config = Err (InvalidManifest "duplicate chunk hash").
Proof.
  apply (repeated_chunk_unrecoverable small_config (as_bytes "abcd"));
    [discriminate | reflexivity].
Defined.

Lemma manifest_binds_payload_witness :
  small_payload = small_payload ∧ zlen small_payload = 12.
Proof.
  apply (manifest_binds_payload (manifest_of small_chunks small_payload) small_chunks
           (rev small_chunks) small_config); [|vm_compute; reflexivity..].
  assert (forallb (λ x, forallb (λ y,
      negb (bool_decide (sha256 x = sha256 y)) || bool_decide (x = y))
      (map ch_data (small_chunks ++ rev small_chunks)))
      (map ch_data (small_chunks ++ rev small_chunks)) = true) as Hall by (vm_compute; reflexivity).
  rewrite forallb_forall in Hall. intros x y Hx%list_elem_of_In Hy%list_elem_of_In Hxy.
  specialize (Hall x Hx). rewrite forallb_forall in Hall. specialize (Hall y Hy).
  rewrite bool_decide_true in Hall by done. by apply bool_decide_eq_true in Hall.
Defined.

#[local] Instance constant_json : SnapshotJson :=
  {| snapshot_to_json s := Ok (as_bytes (String.concat "," (bs_bootstrap_addrs s)));
     snapshot_from_json _ := Ok bootstrap_empty |}.

Lemma snapshot_encoding_order_free_witness :
  encode_bootstrap_snapshot (mkPersistedBootstrapState [] ["b"; "a"; "b"]%string [] [] [])
  = encode_bootstrap_snapshot (mkPersistedBootstrapState [] ["a"; "b"]%string [] [] []).
Proof.
  apply snapshot_encoding_order_free; simpl; try constructor; try done;
    rewrite !elem_of_cons; tauto.
Defined.
