(* ===== verification/Files.v ===== *)
(** * The operating system as the program sees it, and snapshot files

    Files, environment variables and the keychain entry, with the calls the
    program makes of them ([std::fs], [std::env], the keyring crate).  A piece
    of code that talks to the system is a program [io]; [run_io] runs it when
    every call does what it is asked, [exec] also lets calls fail, possibly
    half-way, and lets the process die at any point.  What a call may leave
    behind when it does not complete is [torn]: a write may leave any prefix of
    its data, a rename and a keychain update happen or do not.

    Paths are lists of components, in Unicode, and only regular files exist;
    creating directories therefore leaves no trace.

    The second part is the snapshot file of the peer-to-peer node
    (spex-transport/src/transport.rs, [write_bootstrap_snapshot_atomic] and
    [read_bootstrap_snapshot]).

    Shown here: writing a snapshot never damages the one before it, wherever it
    fails or stops: the file holds the old content or the complete new one; and
    a written snapshot is read back. *)
From Stdlib Require Import ZArith Lia Ascii Strings.Byte.
From stdpp Require Import base list gmap strings sorting numbers.
From S2P Require Import Prelude External Cbor CborFacts Types Core Transport.

#[local] Open Scope Z_scope.

(** ** Paths *)

Abbreviation Path := (list string).

(** [Path::parent], [Path::file_name], [Path::join] with one component. *)
Definition path_parent (p : Path) : option Path :=
  match p with [] => None | _ => Some (removelast p) end.

Definition last_component (p : Path) : option string := head (reverse p).

Definition file_name (p : Path) : option string :=
  match last_component p with
  | Some c => if decide (c = "..") then None else Some c
  | None => None
  end.

Definition path_join (p : Path) (name : string) : Path := p ++ [name].

(** The last dot of a name, and the name without its extension: a dot at the
    front does not start an extension. *)
Fixpoint rsplit_dot (s : string) : option (string * string) :=
  match s with
  | EmptyString => None
  | String c r =>
      match rsplit_dot r with
      | Some (before, after) => Some (String c before, after)
      | None => if decide (c = "."%char) then Some (EmptyString, r) else None
      end
  end.

Definition file_stem (name : string) : string :=
  match rsplit_dot name with
  | Some (before, _) => if decide (before = "") then name else before
  | None => name
  end.

(** [Path::with_extension] for a non-empty extension. *)
Definition with_extension (p : Path) (ext : string) : Path :=
  match file_name p with
  | None => p
  | Some name => removelast p ++ [file_stem name +:+ "." +:+ ext]
  end.

(** ** The system *)

Record Os := mkOs {
  os_files : gmap Path bytes;
  os_env : gmap string string;
  os_keychain : option string;
}.

Definition set_files (f : gmap Path bytes) (o : Os) : Os := mkOs f (os_env o) (os_keychain o).
Definition put_file (p : Path) (data : bytes) (o : Os) : Os :=
  set_files (<[p := data]> (os_files o)) o.

Inductive KeyringError : Type := NoEntry | KeyringFailure (e : string).

(** The calls that change something. *)
Inductive Syscall : Type :=
| CreateDirAll (p : Path)
| WriteFile (p : Path) (data : bytes)
| RenameFile (from to : Path)
| SetPassword (password : string).

(** What a call does when it succeeds; [None] where it cannot. *)
Definition sys_effect (c : Syscall) (o : Os) : option Os :=
  match c with
  | CreateDirAll _ => Some o
  | WriteFile p data => Some (put_file p data o)
  | RenameFile from to =>
      data ← os_files o !! from;
      Some (set_files (<[to := data]> (delete from (os_files o))) o)
  | SetPassword password => Some (mkOs (os_files o) (os_env o) (Some password))
  end.

(** What a call that does not complete may leave behind. *)
Inductive torn : Syscall → Os → Os → Prop :=
| torn_nothing c o : torn c o o
| torn_prefix p data n o : torn (WriteFile p data) o (put_file p (take n data) o)
| torn_effect c o o' : sys_effect c o = Some o' → torn c o o'.

(** ** Programs *)

Inductive io (A : Type) : Type :=
| Ret (a : A)
| ReadFile (p : Path) (k : result string bytes → io A)
| PathExists (p : Path) (k : bool → io A)
| EnvVar (name : string) (k : option string → io A)
| GetPassword (k : result KeyringError string → io A)
| Sys (c : Syscall) (k : result string unit → io A).
Arguments Ret {A} a.
Arguments ReadFile {A} p k.
Arguments PathExists {A} p k.
Arguments EnvVar {A} name k.
Arguments GetPassword {A} k.
Arguments Sys {A} c k.

Fixpoint io_bind {A B} (m : io A) (f : A → io B) : io B :=
  match m with
  | Ret a => f a
  | ReadFile p k => ReadFile p (λ r, io_bind (k r) f)
  | PathExists p k => PathExists p (λ r, io_bind (k r) f)
  | EnvVar n k => EnvVar n (λ r, io_bind (k r) f)
  | GetPassword k => GetPassword (λ r, io_bind (k r) f)
  | Sys c k => Sys c (λ r, io_bind (k r) f)
  end.

Notation "'let*' x ':=' m 'in' k" := (io_bind m (λ x, k))
  (at level 10, x pattern, m at level 100, k at level 200,
   format "'let*'  x  ':='  m  'in' '//' k") : spex_scope.

(** The same with an early return of the error. *)
Definition io_try {E A B} (m : io (result E A)) (f : A → io (result E B)) : io (result E B) :=
  io_bind m (λ r, match r with Ok a => f a | Err e => Ret (Err e) end).

Notation "'let*?' x ':=' m 'in' k" := (io_try m (λ x, k))
  (at level 10, x pattern, m at level 100, k at level 200,
   format "'let*?'  x  ':='  m  'in' '//' k") : spex_scope.

Definition sys {E} (f : string → E) (c : Syscall) : io (result E unit) :=
  Sys c (λ r, Ret (map_err f r)).

Definition read_result (o : Os) (p : Path) : result string bytes :=
  ok_or (os_files o !! p) "No such file or directory"%string.

Definition password_result (o : Os) : result KeyringError string :=
  ok_or (os_keychain o) NoEntry.

(** Running a program on a system where every call does what it can. *)
Fixpoint run_io {A} (m : io A) (o : Os) : Os * A :=
  match m with
  | Ret a => (o, a)
  | ReadFile p k => run_io (k (read_result o p)) o
  | PathExists p k => run_io (k (bool_decide (is_Some (os_files o !! p)))) o
  | EnvVar n k => run_io (k (os_env o !! n)) o
  | GetPassword k => run_io (k (password_result o)) o
  | Sys c k =>
      match sys_effect c o with
      | Some o' => run_io (k (Ok tt)) o'
      | None => run_io (k (Err "No such file or directory"%string)) o
      end
  end.

(** All executions: [exec m o o' r] ends in the state [o'], with an answer or,
    when the process dies, without one. *)
Inductive exec {A} : io A → Os → Os → option A → Prop :=
| exec_dies m o : exec m o o None
| exec_ret a o : exec (Ret a) o o (Some a)
| exec_read p k o o' r : exec (k (read_result o p)) o o' r → exec (ReadFile p k) o o' r
| exec_read_fails p k e o o' r : exec (k (Err e)) o o' r → exec (ReadFile p k) o o' r
| exec_exists p k o o' r :
    exec (k (bool_decide (is_Some (os_files o !! p)))) o o' r → exec (PathExists p k) o o' r
| exec_env n k o o' r : exec (k (os_env o !! n)) o o' r → exec (EnvVar n k) o o' r
| exec_password k o o' r : exec (k (password_result o)) o o' r → exec (GetPassword k) o o' r
| exec_password_fails k e o o' r :
    exec (k (Err (KeyringFailure e))) o o' r → exec (GetPassword k) o o' r
| exec_sys c k o o1 o' r :
    sys_effect c o = Some o1 → exec (k (Ok tt)) o1 o' r → exec (Sys c k) o o' r
| exec_sys_fails c k e o o1 o' r :
    torn c o o1 → exec (k (Err e)) o1 o' r → exec (Sys c k) o o' r
| exec_sys_dies c k o o1 : torn c o o1 → exec (Sys c k) o o1 None.

Lemma run_io_exec {A} (m : io A) o : exec m o (run_io m o).1 (Some (run_io m o).2).
Proof.
  revert o. induction m as [a|p k IH|p k IH|n k IH|k IH|c k IH]; intros o; cbn [run_io];
    try solve [constructor; apply IH].
  destruct (sys_effect c o) as [o1|] eqn:He.
  - eapply exec_sys; [exact He|apply IH].
  - eapply exec_sys_fails; [constructor|apply IH].
Qed.

Lemma run_io_bind {A B} (m : io A) (f : A → io B) o :
  run_io (io_bind m f) o = let '(o1, a) := run_io m o in run_io (f a) o1.
Proof.
  revert o. induction m as [a|p k IH|p k IH|n k IH|k IH|c k IH]; intros o;
    cbn [run_io io_bind]; try apply IH; [done|].
  destruct (sys_effect c o); apply IH.
Qed.

(** An execution of a sequence is an execution of its parts, unless it dies in
    the first. *)
Ltac bind_inv IH He lem :=
  inversion He; subst; [left; split; [apply exec_dies|reflexivity]|..];
  (edestruct IH as [[? ?]|(? & ? & ? & ?)];
   [eassumption|left; split; [|done]|right; do 2 eexists; split; [|eassumption]]);
  lem.

Lemma exec_bind_inv {A B} (m : io A) (f : A → io B) o o' r :
  exec (io_bind m f) o o' r →
  (exec m o o' None ∧ r = None) ∨ ∃ o1 a, exec m o o1 (Some a) ∧ exec (f a) o1 o' r.
Proof.
  revert o. induction m as [a|p k IH|p k IH|n k IH|k IH|c k IH]; intros o; cbn [io_bind]; intros He.
  - right. exists o, a. split; [constructor|done].
  - bind_inv IH He ltac:(solve [by apply exec_read | by eapply exec_read_fails]).
  - bind_inv IH He ltac:(by apply exec_exists).
  - bind_inv IH He ltac:(by apply exec_env).
  - bind_inv IH He ltac:(solve [by apply exec_password | by eapply exec_password_fails]).
  - inversion He; subst;
      [left; split; [apply exec_dies|reflexivity]| | |left; split; [by apply exec_sys_dies|done]];
      (edestruct IH as [[? ?]|(? & ? & ? & ?)];
       [eassumption|left; split; [|done]|right; do 2 eexists; split; [|eassumption]]);
      solve [by eapply exec_sys | by eapply exec_sys_fails].
Qed.

(** One call with an early return: it does not complete and the program stops
    there, or it completes and the program goes on. *)
Lemma exec_sys_try {E B} (f : string → E) c (k : unit → io (result E B)) o o' r :
  exec (io_try (sys f c) k) o o' r →
  (torn c o o' ∧ ∀ b, r ≠ Some (Ok b)) ∨
  ∃ o1, sys_effect c o = Some o1 ∧ exec (k tt) o1 o' r.
Proof.
  unfold io_try, sys. cbn [io_bind]. intros He. inversion He; subst.
  - left. split; [constructor|done].
  - right. by exists o1.
  - left. match goal with H : exec _ o1 o' r |- _ => inversion H; subst end; done.
  - left. done.
Qed.

(** ** Frames *)

(** Only the files in [ps] differ. *)
Record touches_only (ps : list Path) (o o' : Os) : Prop := {
  to_files : ∀ q, q ∉ ps → os_files o' !! q = os_files o !! q;
  to_env : os_env o' = os_env o;
  to_keychain : os_keychain o' = os_keychain o;
}.

Lemma touches_only_refl ps o : touches_only ps o o.
Proof. by split. Qed.

Lemma touches_only_trans ps o1 o2 o3 :
  touches_only ps o1 o2 → touches_only ps o2 o3 → touches_only ps o1 o3.
Proof.
  intros [F1 E1 K1] [F2 E2 K2]. split; [|congruence..].
  intros q Hq. by rewrite F2, F1.
Qed.

Lemma touches_only_put ps p data o : p ∈ ps → touches_only ps o (put_file p data o).
Proof.
  intros Hp. split; [|done..]. intros q Hq. cbn. apply lookup_insert_ne. by intros ->.
Qed.

Lemma torn_create p o o' : torn (CreateDirAll p) o o' → o' = o.
Proof. inversion 1; [done|]. cbn in *. congruence. Qed.

Lemma torn_write p data o o' :
  torn (WriteFile p data) o o' → o' = o ∨ ∃ d, o' = put_file p d o.
Proof. inversion 1; [by left|right; by eexists|right; exists data]. cbn in *. congruence. Qed.

Lemma rename_effect from to o o' :
  sys_effect (RenameFile from to) o = Some o' →
  ∃ data, os_files o !! from = Some data ∧ os_files o' !! to = Some data ∧
    touches_only [from; to] o o'.
Proof.
  cbn. destruct (os_files o !! from) as [data|] eqn:Hd; [|done]. cbn. intros [= <-].
  exists data. split; [done|]. cbn. split; [apply lookup_insert_eq|]. split; [|done..].
  cbn. intros q Hq. rewrite !not_elem_of_cons in Hq. destruct Hq as (? & ? & _).
  by rewrite lookup_insert_ne, lookup_delete_ne by congruence.
Qed.

(** ** Snapshot files (transport.rs) *)

#[export] Instance PersistedPeer_eq_dec : EqDecision PersistedPeer.
Proof. solve_decision. Defined.

#[export] Instance PersistedPeerReputation_eq_dec : EqDecision PersistedPeerReputation.
Proof. solve_decision. Defined.

#[export] Instance PersistedBootstrapState_eq_dec : EqDecision PersistedBootstrapState.
Proof. solve_decision. Defined.

Section snapshot_files.
Context `{SJ : SnapshotJson}.

Definition write_bootstrap_snapshot_atomic (path : Path) (snapshot : PersistedBootstrapState)
    : io (result TransportError unit) :=
  let*? payload := Ret (encode_bootstrap_snapshot snapshot) in
  let*? parent := Ret (ok_or (path_parent path) (InvalidPayload "snapshot path missing parent")) in
  let*? _ := sys Libp2p (CreateDirAll parent) in
  let*? name := Ret (ok_or (file_name path) (InvalidPayload "snapshot path missing file name")) in
  let temp_path := path_join parent (name +:+ ".tmp") in
  let*? _ := sys Libp2p (WriteFile temp_path payload) in
  let*? _ := sys Libp2p (RenameFile temp_path path) in
  Ret (Ok tt).

Definition read_bootstrap_snapshot (path : Path)
    : io (result TransportError PersistedBootstrapState) :=
  ReadFile path (λ r,
    Ret (let? payload := map_err Libp2p r in decode_bootstrap_snapshot payload)).

(** The temporary file of [write_bootstrap_snapshot_atomic]. *)
Definition temp_path (path : Path) : Path :=
  path_join (removelast path) (default "" (file_name path) +:+ ".tmp").

Lemma file_name_path path name : file_name path = Some name → path = removelast path ++ [name].
Proof.
  unfold file_name, last_component. destruct (reverse path) as [|c l] eqn:Hr; [done|].
  cbn [head]. case_decide; [done|]. intros [= ->].
  apply (f_equal reverse) in Hr. rewrite reverse_involutive, reverse_cons in Hr. subst.
  by rewrite removelast_last.
Qed.

Lemma string_app_nonempty (a b : string) : a +:+ b = a → b = "".
Proof. induction a as [|c a IH]; cbn; [done|]. intros [= H]. auto. Qed.

Lemma temp_path_ne path name : file_name path = Some name → temp_path path ≠ path.
Proof.
  intros Hn Ht. unfold temp_path, path_join in Ht. rewrite Hn in Ht. cbn [default from_option id] in Ht.
  rewrite (file_name_path path name Hn) in Ht at 2. apply app_inj_2 in Ht as [_ Ht]; [|done].
  injection Ht as Ht. by apply string_app_nonempty in Ht.
Qed.

(** What an execution of the write leaves behind: the file has its old content
    or the complete new one, and the new one if success is reported; nothing
    but the file and its temporary neighbour is touched. *)
Record write_outcome (path : Path) (s : PersistedBootstrapState) (o o' : Os)
    (r : option (result TransportError unit)) : Prop := {
  wo_touches : touches_only [path; temp_path path] o o';
  wo_file : os_files o' !! path = os_files o !! path ∨
    ∃ b, encode_bootstrap_snapshot s = Ok b ∧ os_files o' !! path = Some b;
  wo_success : r = Some (Ok tt) →
    ∃ b, encode_bootstrap_snapshot s = Ok b ∧ os_files o' !! path = Some b;
}.

Lemma exec_ret_inv {A} (a : A) o o' r : exec (Ret a) o o' r → o' = o ∧ (r = None ∨ r = Some a).
Proof. intros He. inversion He; subst; auto. Qed.

Lemma write_outcome_old path s o o' r :
  touches_only [path; temp_path path] o o' → os_files o' !! path = os_files o !! path →
  r ≠ Some (Ok tt) → write_outcome path s o o' r.
Proof. intros Ht Hf Hr. split; [exact Ht|by left|done]. Qed.

Lemma write_outcome_same path s o r : r ≠ Some (Ok tt) → write_outcome path s o o r.
Proof. intros. apply write_outcome_old; [apply touches_only_refl|done..]. Qed.

Lemma write_outcome_ret path s e o o' r :
  exec (Ret (Err e)) o o' r → write_outcome path s o o' r.
Proof. by intros [-> [-> | ->]]%exec_ret_inv; apply write_outcome_same. Qed.

Lemma write_outcome_renamed path s b o o' r :
  encode_bootstrap_snapshot s = Ok b →
  sys_effect (RenameFile (temp_path path) path) (put_file (temp_path path) b o) = Some o' →
  write_outcome path s o o' r.
Proof.
  intros Hb (b' & Hb' & Hnew & [F E K])%rename_effect. cbn in Hb'.
  rewrite lookup_insert_eq in Hb'. assert (b' = b) as -> by congruence.
  split; [|right; by exists b|by exists b].
  apply (touches_only_trans _ _ (put_file (temp_path path) b o));
    [apply touches_only_put; set_solver|]. split; [|done..].
  intros q Hq. apply F. rewrite !not_elem_of_cons in *. tauto.
Qed.

Lemma write_snapshot_exec path s o o' r :
  exec (write_bootstrap_snapshot_atomic path s) o o' r → write_outcome path s o o' r.
Proof.
  unfold write_bootstrap_snapshot_atomic. unfold io_try at 1. cbn [io_bind].
  destruct (encode_bootstrap_snapshot s) as [b|e] eqn:Hb; [|apply write_outcome_ret].
  unfold io_try at 1. cbn [io_bind].
  destruct (path_parent path) as [parent|] eqn:Hp; cbn [ok_or]; [|apply write_outcome_ret].
  intros [(->%torn_create & Hr)|(o1 & [= <-] & He)]%exec_sys_try;
    [by apply write_outcome_same|].
  revert He. unfold io_try at 1. cbn [io_bind].
  destruct (file_name path) as [name|] eqn:Hn; cbn [ok_or]; [|apply write_outcome_ret].
  assert (path_join parent (name +:+ ".tmp") = temp_path path) as ->.
  { unfold temp_path. rewrite Hn. destruct path; [done|]. by injection Hp as <-. }
  pose proof (temp_path_ne path name Hn) as Hne.
  assert (∀ d r', r' ≠ Some (Ok tt) → write_outcome path s o (put_file (temp_path path) d o) r') as Hput
    by (intros; apply write_outcome_old; [apply touches_only_put; set_solver|by apply lookup_insert_ne|done]).
  intros [([-> | [d ->]]%torn_write & Hr)|(o1 & [= <-] & He)]%exec_sys_try;
    [by apply write_outcome_same|by apply Hput|].
  apply exec_sys_try in He as [[Ht Hr]|(o2 & Ho2 & He)].
  - inversion Ht; subst; [by apply Hput|by eapply write_outcome_renamed].
  - apply exec_ret_inv in He as [-> _]. by eapply write_outcome_renamed.
Qed.

Lemma path_parent_Some path name :
  file_name path = Some name → path_parent path = Some (removelast path).
Proof. by destruct path. Qed.

(** On a system where calls succeed the snapshot is written. *)
Lemma run_write_snapshot path name s b o :
  file_name path = Some name → encode_bootstrap_snapshot s = Ok b →
  run_io (write_bootstrap_snapshot_atomic path s) o
  = (set_files (<[path := b]> (delete (temp_path path) (os_files o))) o, Ok tt).
Proof.
  intros Hn Hb. unfold write_bootstrap_snapshot_atomic, io_try, sys.
  rewrite Hb. cbn [io_bind]. rewrite (path_parent_Some path name Hn), Hn.
  cbn [ok_or io_bind map_err run_io sys_effect].
  assert (path_join (removelast path) (name +:+ ".tmp") = temp_path path) as ->
    by (unfold temp_path; by rewrite Hn).
  cbn [put_file set_files os_files]. rewrite lookup_insert_eq.
  cbn [mbind option_bind set_files os_files os_env os_keychain]. by rewrite delete_insert_eq.
Qed.

(** serde_json reads back the snapshots it writes. *)
Class SnapshotJsonLaws : Prop :=
  snapshot_json_roundtrip : ∀ s b, snapshot_to_json s = Ok b → snapshot_from_json b = Ok s.

Lemma decode_encode_snapshot `{!SnapshotJsonLaws} s b :
  encode_bootstrap_snapshot s = Ok b → decode_bootstrap_snapshot b = Ok (canonical_snapshot s).
Proof.
  unfold encode_bootstrap_snapshot, decode_bootstrap_snapshot.
  destruct (snapshot_to_json _) as [b'|] eqn:Hj; [|done]. cbn [map_err]. intros [= ->].
  by rewrite (snapshot_json_roundtrip _ _ Hj).
Qed.

(** What the snapshot file says. *)
Definition snapshot_at (o : Os) (path : Path) : result TransportError PersistedBootstrapState :=
  (run_io (read_bootstrap_snapshot path) o).2.

Lemma snapshot_at_file o o' path :
  os_files o' !! path = os_files o !! path → snapshot_at o' path = snapshot_at o path.
Proof.
  intros Hf. unfold snapshot_at, read_bootstrap_snapshot. cbn [run_io snd]. unfold read_result.
  by rewrite Hf.
Qed.

Lemma snapshot_at_new `{!SnapshotJsonLaws} o path s b :
  encode_bootstrap_snapshot s = Ok b → os_files o !! path = Some b →
  snapshot_at o path = Ok (canonical_snapshot s).
Proof.
  intros Hb Hf. unfold snapshot_at, read_bootstrap_snapshot. cbn [run_io snd]. unfold read_result.
  rewrite Hf. by apply decode_encode_snapshot.
Qed.

(** C8: writing a snapshot never damages the one before it: whichever of its
    calls fail, half-way or altogether, and wherever the process dies, reading
    the file gives what it gave before or the complete new snapshot in
    canonical order; it gives the new one whenever success was reported; no
    other file than the snapshot and its temporary neighbour changes. *)
Theorem snapshot_write_crash_safe `{!SnapshotJsonLaws} path s o o' r :
  exec (write_bootstrap_snapshot_atomic path s) o o' r →
  (snapshot_at o' path = snapshot_at o path ∨ snapshot_at o' path = Ok (canonical_snapshot s)) ∧
  (r = Some (Ok tt) → snapshot_at o' path = Ok (canonical_snapshot s)) ∧
  touches_only [path; temp_path path] o o'.
Proof.
  intros [Ht Hf Hs]%write_snapshot_exec. split_and!; [|..|done].
  - destruct Hf as [Hf|(b & Hb & Hf)]; [left; by apply snapshot_at_file|].
    right. by eapply snapshot_at_new.
  - intros (b & Hb & Hnew)%Hs. by eapply snapshot_at_new.
Qed.

End snapshot_files.

(** ** Witness *)

Module FileSamples.

(** serde_json on the empty snapshot and on one with an index key. *)
Definition key_snapshot : PersistedBootstrapState := mkPersistedBootstrapState [] [] [] ["ab"%string] [].

#[export] Instance two_snapshots : SnapshotJson := {|
  snapshot_to_json s :=
    if decide (s = key_snapshot) then Ok [x31]
    else if decide (s = bootstrap_empty) then Ok [x30] else Err "unknown"%string;
  snapshot_from_json b :=
    if decide (b = [x31]) then Ok key_snapshot
    else if decide (b = [x30]) then Ok bootstrap_empty else Err "expected value"%string;
|}.

#[export] Instance two_snapshots_laws : SnapshotJsonLaws.
Proof.
  intros s b. cbn. case_decide as Hk; [intros [= <-]; by subst|].
  case_decide as He; [intros [= <-]; by subst|done].
Qed.

(** A system with a snapshot, about to be overwritten. *)
Definition snapshot_path : Path := ["home"%string; "peers.json"%string].
Definition sample_os : Os := mkOs {[snapshot_path := [x30]]} ∅ None.

End FileSamples.
Import FileSamples.

(** The process dies after having created the temporary file: the old snapshot
    is still there. *)
Lemma snapshot_write_crash_safe_witness :
  snapshot_at (put_file (temp_path snapshot_path) [] sample_os) snapshot_path
  = snapshot_at sample_os snapshot_path ∨
  snapshot_at (put_file (temp_path snapshot_path) [] sample_os) snapshot_path
  = Ok (canonical_snapshot key_snapshot).
Proof.
  refine (proj1 (snapshot_write_crash_safe snapshot_path key_snapshot sample_os _ None _)).
  apply (exec_sys _ _ _ sample_os); [reflexivity|].
  apply exec_sys_dies. apply (torn_prefix (temp_path snapshot_path) [x31] 0 sample_os).
Defined.
