(* ===== verification/Ingest.v ===== *)
(** * Ingestion and the inbox client (spex-transport: ingest.rs, inbox.rs)

    Validation of grant and puzzle payloads received from peers, the building
    of bridge publish requests, the fallback from Kademlia to the bridge with
    its counters, and the paging loop of the bridge client.  The HTTP exchange
    is a parameter: a function from the cursor to the answer of the bridge.

    Shown here: a publish request built by the client passes ingestion exactly
    until its grant expires; the fallback never consults the bridge when
    Kademlia answered, and counts every attempt once. *)
From Stdlib Require Import ZArith Lia Ascii Strings.Byte.
From stdpp Require Import base list gmap strings sorting numbers.
From S2P Require Import Prelude External Cbor CborFacts Types Core Transport.

#[local] Open Scope Z_scope.

(** ** ingest.rs *)

Record PowParamsPayload := mkPowParamsPayload {
  pay_memory_kib : Z;
  pay_iterations : Z;
  pay_parallelism : Z;
  pay_output_len : Z;
}.

Definition pow_payload_default : PowParamsPayload :=
  let params := pow_default in
  mkPowParamsPayload (memory_kib params) (iterations params) (parallelism params)
    (output_len params).

Definition to_params (p : PowParamsPayload) : PowParams :=
  mkPowParams (pay_memory_kib p) (pay_iterations p) (pay_parallelism p) (pay_output_len p).

Record P2pGrantPayload := mkP2pGrantPayload {
  pg_user_id : string;
  pg_role : Z;
  pg_flags : option Z;
  pg_expires_at : option Z;
  pg_verifying_key : string;
  pg_signature : string;
}.

Record P2pPuzzlePayload := mkP2pPuzzlePayload {
  pz_recipient_key : string;
  pz_puzzle_input : string;
  pz_puzzle_output : string;
  pz_params : option PowParamsPayload;
}.

Definition map_validation_error (err : GrantPowValidationError) : TransportError :=
  match err with
  | GrantExpired => TGrantExpired
  | GrantInvalid => TGrantInvalid
  | PowTooWeak => TPowTooWeak
  | PowInvalid => TPowInvalid
  | ValidationCore e => CborDecode e
  end.

Section ingest.
Context `{Sha256} `{Ed25519} `{Argon2} `{Base64} `{Hex}.

Definition decode_base64 (value : string) : result TransportError bytes :=
  map_err InvalidPayload (b64_decode value).

Definition decode_fixed_bytes (N : nat) (value : string) : result TransportError bytes :=
  let? bs := decode_base64 value in
  if decide (length bs = N) then Ok bs else Err (InvalidPayload "invalid length").

Definition decode_signature (value : string) : result TransportError bytes :=
  decode_fixed_bytes 64 value.

Definition decode_verifying_key (value : string) : result TransportError bytes :=
  let? bs := decode_fixed_bytes 32 value in
  let? _ := map_err InvalidPayload (ed_key_from_bytes bs) in
  Ok bs.

Definition validate_p2p_grant_payload (now : Z) (payload : P2pGrantPayload)
    : result TransportError unit :=
  let? user_id := decode_base64 (pg_user_id payload) in
  let? verifying_key := decode_verifying_key (pg_verifying_key payload) in
  let? signature := decode_signature (pg_signature payload) in
  let grant := mkGrantToken user_id (pg_role payload) (pg_flags payload)
                 (pg_expires_at payload) [] in
  map_err map_validation_error (validate_grant_token now grant verifying_key signature).

Definition validate_p2p_puzzle_payload (payload : P2pPuzzlePayload)
    : result TransportError unit :=
  let? recipient_key := decode_base64 (pz_recipient_key payload) in
  let? puzzle_input := decode_base64 (pz_puzzle_input payload) in
  let? puzzle_output := decode_base64 (pz_puzzle_output payload) in
  let params := to_params (default pow_payload_default (pz_params payload)) in
  map_err map_validation_error
    (validate_pow_puzzle recipient_key puzzle_input puzzle_output params pow_minimum).

Definition ingest_validation_correlation_id (payload_hint : option bytes) : string :=
  correlation_id (derive_operation_correlation "ingest" payload_hint).

End ingest.

(** ** inbox.rs: scanning *)

Inductive InboxSource : Type := SourceKademlia | SourceBridge.

Record InboxScanRequest := mkInboxScanRequest { scan_record_key : bytes; scan_hashed_key : bytes }.

Record InboxScanResponse := mkInboxScanResponse {
  scan_items : list bytes;
  scan_source : InboxSource;
}.

(** The process-wide atomic counters. *)
Record FallbackCounters := mkFallbackCounters {
  fallback_total : Z;
  fallback_success : Z;
  fallback_failure : Z;
}.

Definition bridge_fallback_counters (c : FallbackCounters) : Z * Z * Z :=
  (fallback_total c, fallback_success c, fallback_failure c).

Definition derive_inbox_scan_key `{Sha256} (hash_id : HashId) (inbox_scan_key : bytes)
    : InboxScanRequest :=
  let hashed_key := hash_bytes hash_id inbox_scan_key in
  mkInboxScanRequest hashed_key hashed_key.

(** The Kademlia node with the query under way, and the query's identifier. *)
Definition start_inbox_scan `{Network} (kademlia : kad) (request : InboxScanRequest) : kad * Z :=
  kad_get_record kademlia (scan_record_key request).

Definition collect_inbox_items (r : GetRecordOk) : InboxScanResponse :=
  mkInboxScanResponse
    (match r with FoundRecord _ value => [value] | FinishedWithNoAdditionalRecord => [] end)
    SourceKademlia.

Record BridgeInboxResponse := mkBridgeInboxResponse {
  bir_items : list string;
  bir_next_cursor : option Z;
}.

Definition DEFAULT_BRIDGE_PAGE_LIMIT : Z := 100.

(** The loop of [scan_inbox]; [http] answers the page at a cursor.  [None] when
    the bridge never stops handing out cursors within [fuel] pages. *)
Fixpoint scan_inbox_loop `{Base64} (http : option Z → result TransportError BridgeInboxResponse)
    (fuel : nat) (cursor : option Z) (items : list bytes)
    : option (result TransportError InboxScanResponse) :=
  match fuel with
  | O => None
  | S f =>
      match http cursor with
      | Err e => Some (Err e)
      | Ok payload =>
          match try_map (λ item, map_err (λ _, BridgePayload) (b64_decode item))
                  (bir_items payload) with
          | Err e => Some (Err e)
          | Ok decoded =>
              match bir_next_cursor payload with
              | Some next_cursor => scan_inbox_loop http f (Some next_cursor) (items ++ decoded)
              | None => Some (Ok (mkInboxScanResponse (items ++ decoded) SourceBridge))
              end
          end
      end
  end.

(** [bridge] is the outcome of [scan_inbox] of the client, when there is one. *)
Definition resolve_inbox_with_fallback (counters : FallbackCounters)
    (kademlia_result : option GetRecordOk)
    (bridge : option (result TransportError InboxScanResponse))
    : FallbackCounters * result TransportError InboxScanResponse :=
  let fallback :=
    match bridge with
    | Some response =>
        let counters := mkFallbackCounters (wadd 64 (fallback_total counters) 1)
                          (fallback_success counters) (fallback_failure counters) in
        let counters :=
          match response with
          | Ok _ => mkFallbackCounters (fallback_total counters)
                      (wadd 64 (fallback_success counters) 1) (fallback_failure counters)
          | Err _ => mkFallbackCounters (fallback_total counters)
                      (fallback_success counters) (wadd 64 (fallback_failure counters) 1)
          end in
        (counters, response)
    | None => (counters, Ok (mkInboxScanResponse [] SourceKademlia))
    end in
  match kademlia_result with
  | Some r =>
      let response := collect_inbox_items r in
      if negb (bool_decide (scan_items response = [])) || negb (bool_decide (is_Some bridge))
      then (counters, Ok response) else fallback
  | None => fallback
  end.

(** ** inbox.rs: publishing *)

Record BridgePublishRequest := mkBridgePublishRequest {
  bpr_data : string;
  bpr_grant : P2pGrantPayload;
  bpr_puzzle : P2pPuzzlePayload;
  bpr_ttl_seconds : option Z;
}.

Record BridgeEnvelopePublishInput := mkBridgeEnvelopePublishInput {
  bi_sender_user_id : bytes;
  bi_recipient_key_seed : bytes;
  bi_envelope : bytes;
  bi_role : Z;
  bi_flags : option Z;
  bi_now_unix : Z;
  bi_grant_ttl_seconds : Z;
  bi_inbox_ttl_seconds : option Z;
  bi_pow_params : PowParams;
}.

Definition validation_error_to_string (e : GrantPowValidationError) : string :=
  match e with
  | GrantExpired => "grant expired"
  | GrantInvalid => "grant signature invalid"
  | PowTooWeak => "pow parameters below minimum"
  | PowInvalid => "pow puzzle invalid"
  | ValidationCore e => "core validation error: " +:+ spex_error_to_string e
  end.

Section publishing.
Context `{Sha256} `{Ed25519} `{Argon2} `{Base64}.

Definition publish_grant (input : BridgeEnvelopePublishInput) : GrantToken :=
  mkGrantToken (bi_sender_user_id input) (bi_role input) (bi_flags input)
    (Some (saturating_add 64 (bi_now_unix input) (bi_grant_ttl_seconds input))) [].

Definition build_bridge_publish_request (os_rng : Z → bytes) (signing_key : bytes)
    (input : BridgeEnvelopePublishInput) : result TransportError BridgePublishRequest :=
  let grant := publish_grant input in
  let? grant_hash := map_err CborDecode (hash_ctap2_cbor_value HashSha256 grant) in
  let signature := ed25519_sign_hash signing_key grant_hash in
  let verifying_key := ed25519_verify_key signing_key in
  let nonce := generate_pow_nonce os_rng pow_nonce_default in
  let puzzle_input := build_puzzle_input nonce (bi_recipient_key_seed input) in
  let? puzzle_output := map_err CborDecode
    (generate_puzzle_output (bi_recipient_key_seed input) puzzle_input (bi_pow_params input)) in
  let? _ := map_err (λ err, InvalidPayload (validation_error_to_string err))
    (validate_pow_puzzle (bi_recipient_key_seed input) puzzle_input puzzle_output
       (bi_pow_params input) pow_minimum) in
  Ok {| bpr_data := b64_encode (bi_envelope input);
        bpr_grant := mkP2pGrantPayload (b64_encode (grant_user_id grant)) (grant_role grant)
                       (grant_flags grant) (grant_expires_at grant)
                       (b64_encode verifying_key) (b64_encode signature);
        bpr_puzzle := mkP2pPuzzlePayload (b64_encode (bi_recipient_key_seed input))
                        (b64_encode puzzle_input) (b64_encode puzzle_output)
                        (Some (mkPowParamsPayload (memory_kib (bi_pow_params input))
                           (iterations (bi_pow_params input))
                           (parallelism (bi_pow_params input))
                           (output_len (bi_pow_params input))));
        bpr_ttl_seconds := bi_inbox_ttl_seconds input |}.

End publishing.

(** [str::contains]. *)
Definition str_contains (hay needle : string) : bool :=
  match String.index 0 needle hay with Some _ => true | None => false end.

(** The answer of [publish_to_inbox] from the status and the error body (the
    empty string when the body is not the expected JSON). *)
Definition publish_to_inbox_result (status : Z) (body : string) : result TransportError unit :=
  if (200 <=? status) && (status <? 300) then Ok tt
  else if (status =? 401) && str_contains body "grant expired" then Err TGrantExpired
  else if (status =? 401) && str_contains body "grant signature invalid" then Err TGrantInvalid
  else if (status =? 401) && str_contains body "puzzle validation failed" then Err TPowInvalid
  else if (status =? 400) && str_contains body "invalid inbox ttl" then Err InvalidTtl
  else Err (InvalidPayload body).

(** * Lemmas *)

Section facts.
Context `{SH : Sha256} `{ED : Ed25519} `{!Ed25519Laws} `{AR : Argon2} `{B6 : Base64}
  `{!Base64Laws}.

Lemma decode_base64_encode b : decode_base64 (b64_encode b) = Ok b.
Proof. unfold decode_base64. by rewrite b64_decode_encode. Qed.

Lemma decode_fixed_encode n b : length b = n → decode_fixed_bytes n (b64_encode b) = Ok b.
Proof.
  intros Hl. unfold decode_fixed_bytes. rewrite decode_base64_encode. by rewrite decide_True.
Qed.

Lemma decode_key_encode sk :
  length sk = 32%nat →
  decode_verifying_key (b64_encode (ed_verifying_key sk)) = Ok (ed_verifying_key sk).
Proof.
  intros Hl. unfold decode_verifying_key.
  rewrite decode_fixed_encode by (by apply ed_verifying_key_length). by rewrite ed_key_valid.
Qed.

Lemma build_request_inv rng sk input req :
  value_ok (to_cbor_value (publish_grant input)) = true →
  build_bridge_publish_request rng sk input = Ok req →
  ∃ out,
    let inp := build_puzzle_input (generate_pow_nonce rng pow_nonce_default)
                 (bi_recipient_key_seed input) in
    validate_pow_puzzle (bi_recipient_key_seed input) inp out (bi_pow_params input) pow_minimum
      = Ok tt ∧
    bpr_data req = b64_encode (bi_envelope input) ∧
    bpr_grant req = mkP2pGrantPayload (b64_encode (bi_sender_user_id input)) (bi_role input)
      (bi_flags input) (grant_expires_at (publish_grant input))
      (b64_encode (ed_verifying_key sk))
      (b64_encode (ed_sign sk (grant_digest (publish_grant input)))) ∧
    pz_recipient_key (bpr_puzzle req) = b64_encode (bi_recipient_key_seed input) ∧
    pz_puzzle_input (bpr_puzzle req) = b64_encode inp ∧
    pz_puzzle_output (bpr_puzzle req) = b64_encode out ∧
    option_map to_params (pz_params (bpr_puzzle req)) = Some (bi_pow_params input).
Proof.
  intros Hok. unfold build_bridge_publish_request. rewrite grant_hash by done. cbn [map_err].
  destruct (generate_puzzle_output _ _ _) as [out|]; [|done]. cbn [map_err].
  destruct (validate_pow_puzzle _ _ _ _ _) as [[]|] eqn:Ev; [|done]. cbn [map_err].
  intros [= <-]. exists out. cbn. repeat split; try done. by destruct (bi_pow_params input).
Qed.

End facts.

(** ** Claims *)

Section claims.
Context `{SH : Sha256} `{ED : Ed25519} `{!Ed25519Laws} `{AR : Argon2} `{B6 : Base64}
  `{!Base64Laws}.

(** A publish request the client builds is accepted by the receiving side:
    its puzzle passes, and its grant passes at every instant before the expiry
    it was given and at none after. *)
Theorem built_request_passes_ingest rng sk input req now :
  length sk = 32%nat → value_ok (to_cbor_value (publish_grant input)) = true →
  build_bridge_publish_request rng sk input = Ok req →
  validate_p2p_puzzle_payload (bpr_puzzle req) = Ok tt ∧
  validate_p2p_grant_payload now (bpr_grant req)
  = if now <? saturating_add 64 (bi_now_unix input) (bi_grant_ttl_seconds input)
    then Ok tt else Err TGrantExpired.
Proof.
  intros Hsk Hok Hb. destruct (build_request_inv _ _ _ _ Hok Hb)
    as (out & Hv & _ & Hg & Hr & Hi & Ho & Hp). split.
  - unfold validate_p2p_puzzle_payload. rewrite Hr, Hi, Ho, !decode_base64_encode.
    destruct (pz_params (bpr_puzzle req)) as [pp|]; [|done]. injection Hp as Hp. simpl default.
    rewrite Hp. by rewrite Hv.
  - unfold validate_p2p_grant_payload. rewrite Hg. cbn [pg_user_id pg_verifying_key pg_signature
      pg_role pg_flags pg_expires_at].
    rewrite decode_base64_encode, decode_key_encode by done. unfold decode_signature.
    rewrite decode_fixed_encode by (by apply ed_sign_length).
    change (mkGrantToken (bi_sender_user_id input) (bi_role input) (bi_flags input)
      (grant_expires_at (publish_grant input)) []) with (publish_grant input).
    rewrite validate_grant_token_eq by done. unfold grant_live, publish_grant at 1.
    cbn [grant_expires_at].
    destruct (now <? _); simpl; [|done]. by rewrite ed_sign_verifies.
Qed.

End claims.

(** The fallback uses Kademlia's items whenever there are any and does not
    touch the counters then; otherwise it counts one attempt and exactly one
    outcome, and answers with the bridge. *)
Theorem fallback_counts_once counters kad bridge :
  0 <= fallback_total counters < 2 ^ 64 - 1 →
  0 <= fallback_success counters < 2 ^ 64 - 1 → 0 <= fallback_failure counters < 2 ^ 64 - 1 →
  let '(counters', response) := resolve_inbox_with_fallback counters kad bridge in
  match kad, bridge with
  | Some (FoundRecord _ value), _ =>
      response = Ok (mkInboxScanResponse [value] SourceKademlia) ∧ counters' = counters
  | _, None =>
      response = Ok (mkInboxScanResponse [] SourceKademlia) ∧ counters' = counters
  | _, Some r =>
      response = r ∧
      fallback_total counters' = fallback_total counters + 1 ∧
      fallback_success counters' + fallback_failure counters'
      = fallback_success counters + fallback_failure counters + 1 ∧
      (fallback_success counters < fallback_success counters' ↔ is_ok r = true)
  end.
Proof.
  intros Ht Hs Hf. unfold resolve_inbox_with_fallback, wadd, wrap.
  destruct kad as [[key value|]|], bridge as [[resp|err]|]; simpl; try done;
    rewrite ?(Z.mod_small (_ + 1)) by lia; repeat split; try done; try lia.
Qed.

(** ** Witnesses *)

Import Reference.

Definition sample_input : BridgeEnvelopePublishInput :=
  mkBridgeEnvelopePublishInput (replicate 20 x01) (replicate 32 x02) [x09; x08] 1 None 100 30
    (Some 15) pow_default.

Definition sample_rng (n : Z) : bytes := replicate (Z.to_nat n) x5a.

Definition sample_request : BridgePublishRequest :=
  match build_bridge_publish_request sample_rng (replicate 32 x07) sample_input with
  | Ok r => r
  | Err _ => mkBridgePublishRequest "" (mkP2pGrantPayload "" 0 None None "" "")
               (mkP2pPuzzlePayload "" "" "" None) None
  end.

Lemma built_request_passes_ingest_witness :
  validate_p2p_puzzle_payload (bpr_puzzle sample_request) = Ok tt ∧
  validate_p2p_grant_payload 129 (bpr_grant sample_request) = Ok tt.
Proof.
  apply (built_request_passes_ingest sample_rng (replicate 32 x07) sample_input sample_request 129);
    [reflexivity | reflexivity | vm_compute; reflexivity].
Defined.

Lemma fallback_counts_once_witness :
  resolve_inbox_with_fallback (mkFallbackCounters 0 0 0) None (Some (Err BridgePayload))
  = (mkFallbackCounters 1 0 1, Err BridgePayload).
Proof.
  pose proof (fallback_counts_once (mkFallbackCounters 0 0 0) None (Some (Err BridgePayload))
    ltac:(simpl; lia) ltac:(simpl; lia) ltac:(simpl; lia)) as Hc.
  vm_compute in Hc |- *. reflexivity.
Defined.
