(* ===== verification/Metrics.v ===== *)
(** * Counters, rates and health (spex-transport: p2p.rs, telemetry.rs)

    The counters the peer-to-peer node keeps per class of operation, the rates
    derived from them in basis points, and the classification of network
    health.  The counters of one class (publish, query, recovery), flat fields
    of the source's record, are grouped in [OpMetrics].  A counter is a [u64]
    that wraps; the lock around the counters is taken to be free.

    The theorems are in [FetchFacts]. *)
From Stdlib Require Import ZArith Lia Ascii Strings.Byte.
From stdpp Require Import base list gmap strings sorting numbers.
From S2P Require Import Prelude External Cbor CborFacts Types Core Transport Ingest.

#[local] Open Scope Z_scope.

(** ** Counters *)

Record OpMetrics := mkOpMetrics {
  om_success : Z;
  om_timeout : Z;
  om_retries : Z;
  om_attempts : Z;
  om_latency_ms : list Z;
}.

Definition op_metrics_default : OpMetrics := mkOpMetrics 0 0 0 0 [].

Record P2pMetricsSnapshot := mkP2pMetricsSnapshot {
  pm_publish : OpMetrics;
  pm_query : OpMetrics;
  pm_recovery : OpMetrics;
  pm_fallback : FallbackCounters;
  pm_reassemble_failures : Z;
  pm_verification_failures : Z;
  pm_probation_transitions : Z;
  pm_ban_transitions : Z;
}.

Definition metrics_default : P2pMetricsSnapshot :=
  mkP2pMetricsSnapshot op_metrics_default op_metrics_default op_metrics_default
    (mkFallbackCounters 0 0 0) 0 0 0 0.

(** The three classes are named by strings; another name counts nothing. *)
Definition on_operation (operation : string) (f : OpMetrics → OpMetrics)
    (m : P2pMetricsSnapshot) : P2pMetricsSnapshot :=
  if decide (operation = "publish"%string) then
    mkP2pMetricsSnapshot (f (pm_publish m)) (pm_query m) (pm_recovery m) (pm_fallback m)
      (pm_reassemble_failures m) (pm_verification_failures m)
      (pm_probation_transitions m) (pm_ban_transitions m)
  else if decide (operation = "query"%string) then
    mkP2pMetricsSnapshot (pm_publish m) (f (pm_query m)) (pm_recovery m) (pm_fallback m)
      (pm_reassemble_failures m) (pm_verification_failures m)
      (pm_probation_transitions m) (pm_ban_transitions m)
  else if decide (operation = "recovery"%string) then
    mkP2pMetricsSnapshot (pm_publish m) (pm_query m) (f (pm_recovery m)) (pm_fallback m)
      (pm_reassemble_failures m) (pm_verification_failures m)
      (pm_probation_transitions m) (pm_ban_transitions m)
  else m.

Definition record_attempt (operation : string) : P2pMetricsSnapshot → P2pMetricsSnapshot :=
  on_operation operation (λ o, mkOpMetrics (om_success o) (om_timeout o) (om_retries o)
    (wadd 64 (om_attempts o) 1) (om_latency_ms o)).

Definition record_retry (operation : string) : P2pMetricsSnapshot → P2pMetricsSnapshot :=
  on_operation operation (λ o, mkOpMetrics (om_success o) (om_timeout o)
    (wadd 64 (om_retries o) 1) (om_attempts o) (om_latency_ms o)).

Definition record_timeout (operation : string) : P2pMetricsSnapshot → P2pMetricsSnapshot :=
  on_operation operation (λ o, mkOpMetrics (om_success o) (wadd 64 (om_timeout o) 1)
    (om_retries o) (om_attempts o) (om_latency_ms o)).

(** [latency] in milliseconds, as a [u128]. *)
Definition record_success (operation : string) (latency : Z)
    : P2pMetricsSnapshot → P2pMetricsSnapshot :=
  on_operation operation (λ o, mkOpMetrics (wadd 64 (om_success o) 1) (om_timeout o)
    (om_retries o) (om_attempts o) (om_latency_ms o ++ [wrap 64 latency])).

Definition record_reassemble_failure (m : P2pMetricsSnapshot) : P2pMetricsSnapshot :=
  mkP2pMetricsSnapshot (pm_publish m) (pm_query m) (pm_recovery m) (pm_fallback m)
    (wadd 64 (pm_reassemble_failures m) 1) (pm_verification_failures m)
    (pm_probation_transitions m) (pm_ban_transitions m).

Definition record_verification_failure (m : P2pMetricsSnapshot) : P2pMetricsSnapshot :=
  mkP2pMetricsSnapshot (pm_publish m) (pm_query m) (pm_recovery m) (pm_fallback m)
    (pm_reassemble_failures m) (wadd 64 (pm_verification_failures m) 1)
    (pm_probation_transitions m) (pm_ban_transitions m).

(** The counters of the node with those of the bridge fallback. *)
Definition metrics_snapshot (m : P2pMetricsSnapshot) (fallback : FallbackCounters)
    : P2pMetricsSnapshot :=
  mkP2pMetricsSnapshot (pm_publish m) (pm_query m) (pm_recovery m) fallback
    (pm_reassemble_failures m) (pm_verification_failures m)
    (pm_probation_transitions m) (pm_ban_transitions m).

(** ** Rates in basis points *)

(** [((part.saturating_mul(10_000)) / whole) as u32]. *)
Definition bps (part whole : Z) : Z := wrap 32 (saturating_mul 64 part 10000 / whole).

Definition rate_bps (part whole : Z) : Z := if whole =? 0 then 0 else bps part whole.

Definition publish_success_rate_bps (m : P2pMetricsSnapshot) : Z :=
  rate_bps (om_success (pm_publish m)) (om_attempts (pm_publish m)).
Definition recovery_timeout_rate_bps (m : P2pMetricsSnapshot) : Z :=
  rate_bps (om_timeout (pm_recovery m)) (om_attempts (pm_recovery m)).
Definition fallback_frequency_bps (m : P2pMetricsSnapshot) : Z :=
  rate_bps (fallback_total (pm_fallback m)) (om_attempts (pm_recovery m)).
Definition publish_retry_pressure_bps (m : P2pMetricsSnapshot) : Z :=
  rate_bps (om_retries (pm_publish m)) (om_attempts (pm_publish m)).
Definition recovery_retry_pressure_bps (m : P2pMetricsSnapshot) : Z :=
  rate_bps (om_retries (pm_recovery m)) (om_attempts (pm_recovery m)).

(** ** Health (telemetry.rs) *)

Inductive NetworkHealthStatus : Type := Healthy | Degraded | Critical.

Record NetworkHealthThresholds := mkNetworkHealthThresholds {
  min_connected_peers : Z;
  max_timeout_ratio_bps : Z;
  max_fallback_failure_ratio_bps : Z;
}.

Definition thresholds_default : NetworkHealthThresholds := mkNetworkHealthThresholds 2 2500 3000.

Record NetworkHealthIndicators := mkNetworkHealthIndicators {
  nh_connected_peers : Z;
  nh_known_peers : Z;
  nh_banned_peers : Z;
  nh_timeout_ratio_bps : Z;
  nh_fallback_failure_ratio_bps : Z;
  nh_status : NetworkHealthStatus;
}.

Definition health_status (thresholds : NetworkHealthThresholds)
    (connected timeout_ratio fallback_ratio : Z) : NetworkHealthStatus :=
  if (connected <? min_connected_peers thresholds)
     || (max_timeout_ratio_bps thresholds <? timeout_ratio)
     || (max_fallback_failure_ratio_bps thresholds <? fallback_ratio)
  then Critical
  else if (connected <=? saturating_add 64 (min_connected_peers thresholds) 1)
     || (max_timeout_ratio_bps thresholds / 2 <? timeout_ratio)
     || (max_fallback_failure_ratio_bps thresholds / 2 <? fallback_ratio)
  then Degraded
  else Healthy.

(** [banned] and [known] count the banned and the known peers. *)
Definition network_health_indicators (thresholds : NetworkHealthThresholds)
    (snapshot : P2pMetricsSnapshot) (banned known connected : Z) : NetworkHealthIndicators :=
  let timeout_total :=
    saturating_add 64 (saturating_add 64 (om_timeout (pm_publish snapshot))
      (om_timeout (pm_query snapshot))) (om_timeout (pm_recovery snapshot)) in
  let operation_total :=
    Z.max (saturating_add 64 (saturating_add 64 (om_attempts (pm_publish snapshot))
      (om_attempts (pm_query snapshot))) (om_attempts (pm_recovery snapshot))) 1 in
  let timeout_ratio := bps timeout_total operation_total in
  let fallback_failure_ratio :=
    bps (fallback_failure (pm_fallback snapshot))
      (Z.max (fallback_total (pm_fallback snapshot)) 1) in
  mkNetworkHealthIndicators connected known banned timeout_ratio fallback_failure_ratio
    (health_status thresholds connected timeout_ratio fallback_failure_ratio).
