(* ===== verification/Peers.v ===== *)
(** * The peer-to-peer node: peers and reputation (spex-transport/src/p2p.rs)

    What a node knows about other peers: their addresses, their reputation
    with probation and bans, and the snapshot in which this survives a
    restart.  Fetching and publishing are in [Fetch].

    libp2p is a parameter: peer identifiers with their text form, addresses
    with theirs, and the calls on the swarm.  An instant is a number of
    nanoseconds on the monotonic clock, a duration a number of nanoseconds; one
    operation reads each clock once ([Clock]).  Adding a configured duration to
    an instant is plain addition; adding one that comes from the snapshot file
    is checked ([instant_add]), and [None] is the panic of the source.

    A [HashMap] is a [gmap], iterated in the order of [map_to_list].

    The theorems are in [PeersFacts]. *)
From Stdlib Require Import ZArith Lia Ascii Strings.Byte.
From stdpp Require Import base list gmap strings sorting numbers.
From S2P Require Import Prelude External Cbor CborFacts Types Core Transport Files Ingest Metrics.

#[local] Open Scope Z_scope.

(** ** libp2p *)

Class PeerIds := {
  peer : Type;
  peer_eq_dec :: EqDecision peer;
  peer_countable :: Countable peer;
  peer_to_string : peer → string;
  peer_parse : string → option peer;
}.

Inductive Protocol `{PeerIds} : Type :=
| Ip4 (a : string)
| Ip6 (a : string)
| Dns (a : string)
| Dns4 (a : string)
| Dns6 (a : string)
| P2p (p : peer)
| OtherProtocol (s : string).

Abbreviation Multiaddr := (list Protocol).

#[export] Instance Protocol_eq_dec `{PeerIds} : EqDecision Protocol.
Proof. solve_decision. Defined.

Class P2pSwarm `{PeerIds} := {
  addr_to_string : Multiaddr → string;
  addr_parse : string → option Multiaddr;
  swarm : Type;
  sw_local_peer : swarm → peer;
  sw_connected : swarm → Z;
  sw_listen_on : swarm → Multiaddr → swarm * result string unit;
  sw_add_address : swarm → peer → Multiaddr → swarm;
  sw_add_explicit_peer : swarm → peer → swarm;
  sw_remove_explicit_peer : swarm → peer → swarm;
  sw_disconnect : swarm → peer → swarm;
  sw_dial : swarm → Multiaddr → swarm * result string unit;
  sw_bootstrap : swarm → swarm;
}.

(** ** Time *)

Definition second : Z := 1000000000.
Definition millis (n : Z) : Z := n * 1000000.
Definition seconds (n : Z) : Z := n * second.

(** One reading of the two clocks: the monotonic instant, and the system time
    relative to the epoch, both in nanoseconds. *)
Record Clock := mkClock { ck_now : Z; ck_system : Z }.

(** [SystemTime::now().duration_since(UNIX_EPOCH).map_or(0, as_secs)]. *)
Definition now_unix (ck : Clock) : Z := if ck_system ck <? 0 then 0 else ck_system ck / second.

(** [until.saturating_duration_since(now).as_secs()]. *)
Definition secs_until (now until : Z) : Z := Z.max (until - now) 0 / second.

(** [Instant + Duration]: seconds are kept in 64 signed bits. *)
Definition instant_add (now d : Z) : option Z :=
  if now + d <? seconds (2 ^ 63) then Some (now + d) else None.

(** ** Configuration *)

Section config.
Context `{PeerIds}.

Record P2pNodeConfig := mkP2pNodeConfig {
  pc_listen_addrs : list Multiaddr;
  pc_peers : list Multiaddr;
  pc_bootstrap_nodes : list Multiaddr;
  pc_publish_wait : Z;
  pc_query_timeout : Z;
  pc_manifest_wait : Z;
  pc_persistence_path : option Path;
  pc_peer_ban_duration : Z;
  pc_peer_probation_duration : Z;
  pc_score_recovery_per_minute : Z;
  pc_probation_score_threshold : Z;
  pc_ban_score_threshold : Z;
  pc_probation_clear_score : Z;
  pc_invalid_payload_ban_threshold : Z;
  pc_inconsistent_response_ban_threshold : Z;
}.

Inductive P2pRuntimeProfile : Type := Dev | Test_ | Prod.

Definition node_config_default : P2pNodeConfig :=
  mkP2pNodeConfig [[Ip4 "127.0.0.1"; OtherProtocol "tcp/0"]] [] []
    (seconds 2) (seconds 5) (seconds 5) None (seconds 30) (seconds 20)
    4 (-35) (-70) (-25) 2 4.

Definition for_profile (profile : P2pRuntimeProfile) : P2pNodeConfig :=
  let d := node_config_default in
  match profile with
  | Dev =>
      mkP2pNodeConfig (pc_listen_addrs d) (pc_peers d) (pc_bootstrap_nodes d)
        (seconds 1) (seconds 3) (seconds 3) (pc_persistence_path d)
        (pc_peer_ban_duration d) (pc_peer_probation_duration d) 6
        (pc_probation_score_threshold d) (pc_ban_score_threshold d) (pc_probation_clear_score d)
        (pc_invalid_payload_ban_threshold d) (pc_inconsistent_response_ban_threshold d)
  | Test_ =>
      mkP2pNodeConfig (pc_listen_addrs d) (pc_peers d) (pc_bootstrap_nodes d)
        (seconds 2) (seconds 4) (seconds 4) (pc_persistence_path d)
        (pc_peer_ban_duration d) (pc_peer_probation_duration d) 5
        (pc_probation_score_threshold d) (pc_ban_score_threshold d) (pc_probation_clear_score d)
        (pc_invalid_payload_ban_threshold d) (pc_inconsistent_response_ban_threshold d)
  | Prod =>
      mkP2pNodeConfig (pc_listen_addrs d) (pc_peers d) (pc_bootstrap_nodes d)
        (seconds 4) (seconds 8) (seconds 8) (pc_persistence_path d)
        (seconds 90) (seconds 45) 3
        (pc_probation_score_threshold d) (pc_ban_score_threshold d) (pc_probation_clear_score d)
        (pc_invalid_payload_ban_threshold d) (pc_inconsistent_response_ban_threshold d)
  end.

End config.

(** ** Reputation of one peer *)

Inductive PeerReputationState : Type := Neutral | Probation | Banned.

#[export] Instance PeerReputationState_eq_dec : EqDecision PeerReputationState.
Proof. solve_decision. Defined.

Record PeerScore := mkPeerScore {
  ps_score : Z;
  ps_timeout_penalties : Z;
  ps_invalid_payload_penalties : Z;
  ps_inconsistent_response_penalties : Z;
  ps_probation_until : option Z;
  ps_banned_until : option Z;
  ps_last_decay_at : Z;
}.

Definition neutral (now : Z) : PeerScore := mkPeerScore 0 0 0 0 None None now.

Definition set_score (score : Z) (s : PeerScore) : PeerScore :=
  mkPeerScore score (ps_timeout_penalties s) (ps_invalid_payload_penalties s)
    (ps_inconsistent_response_penalties s) (ps_probation_until s) (ps_banned_until s)
    (ps_last_decay_at s).

Definition set_timers (probation banned : option Z) (s : PeerScore) : PeerScore :=
  mkPeerScore (ps_score s) (ps_timeout_penalties s) (ps_invalid_payload_penalties s)
    (ps_inconsistent_response_penalties s) probation banned (ps_last_decay_at s).

Definition until_after (until : option Z) (now : Z) : bool :=
  match until with Some u => now <? u | None => false end.

Definition classify_peer_reputation_state (s : PeerScore) (now : Z) : PeerReputationState :=
  if until_after (ps_banned_until s) now then Banned
  else if until_after (ps_probation_until s) now then Probation
  else Neutral.

(** [i32] arithmetic: the cast, the product and the sum wrap, the division
    rounds towards zero. *)
Definition apply_score_decay (now recovery_per_minute : Z) (s : PeerScore) : PeerScore :=
  let elapsed_secs := secs_until (ps_last_decay_at s) now in
  if (elapsed_secs =? 0) || (recovery_per_minute <=? 0) then s
  else
    let recovered := Z.quot (wrap_i 32 (wrap_i 32 elapsed_secs * recovery_per_minute)) 60 in
    if 0 <? recovered then
      mkPeerScore (Z.min (wrap_i 32 (ps_score s + recovered)) 20)
        (ps_timeout_penalties s) (ps_invalid_payload_penalties s)
        (ps_inconsistent_response_penalties s) (ps_probation_until s) (ps_banned_until s) now
    else s.

(** The three penalties with their weights. *)
Inductive Misbehaviour : Type := Timeout_ | InvalidPayload_ | InconsistentResponse.

Definition penalty_of (m : Misbehaviour) : Z :=
  match m with Timeout_ => 8 | InvalidPayload_ => 30 | InconsistentResponse => 18 end.

Definition count_penalty (m : Misbehaviour) (s : PeerScore) : PeerScore :=
  match m with
  | Timeout_ =>
      mkPeerScore (ps_score s) (wadd 32 (ps_timeout_penalties s) 1)
        (ps_invalid_payload_penalties s) (ps_inconsistent_response_penalties s)
        (ps_probation_until s) (ps_banned_until s) (ps_last_decay_at s)
  | InvalidPayload_ =>
      mkPeerScore (ps_score s) (ps_timeout_penalties s)
        (wadd 32 (ps_invalid_payload_penalties s) 1) (ps_inconsistent_response_penalties s)
        (ps_probation_until s) (ps_banned_until s) (ps_last_decay_at s)
  | InconsistentResponse =>
      mkPeerScore (ps_score s) (ps_timeout_penalties s) (ps_invalid_payload_penalties s)
        (wadd 32 (ps_inconsistent_response_penalties s) 1)
        (ps_probation_until s) (ps_banned_until s) (ps_last_decay_at s)
  end.

Section score.
Context `{PeerIds}.

Definition reached_ban_threshold (cfg : P2pNodeConfig) (s : PeerScore) : bool :=
  (ps_score s <=? pc_ban_score_threshold cfg)
  || (pc_invalid_payload_ban_threshold cfg <=? ps_invalid_payload_penalties s)
  || (pc_inconsistent_response_ban_threshold cfg <=? ps_inconsistent_response_penalties s).

(** The new score of a penalized peer, and whether it is banned now. *)
Definition penalize (cfg : P2pNodeConfig) (now : Z) (m : Misbehaviour) (s : PeerScore)
    : PeerScore * bool :=
  let s := apply_score_decay now (pc_score_recovery_per_minute cfg) s in
  let s := count_penalty m (set_score (wrap_i 32 (ps_score s - penalty_of m)) s) in
  if reached_ban_threshold cfg s then
    (set_timers None (Some (now + pc_peer_ban_duration cfg)) s, true)
  else if ps_score s <=? pc_probation_score_threshold cfg then
    (set_timers (Some (now + pc_peer_probation_duration cfg)) (ps_banned_until s) s, false)
  else (s, false).

(** The score after a successful interaction. *)
Definition reward (cfg : P2pNodeConfig) (s : PeerScore) : PeerScore :=
  let s := set_score (Z.min (wrap_i 32 (ps_score s + 6)) 20) s in
  if pc_probation_clear_score cfg <? ps_score s then set_timers None (ps_banned_until s) s
  else s.

(** ** Persisted form *)

Definition instant_to_unix_seconds (ck : Clock) (instant : Z) : Z :=
  wadd 64 (now_unix ck) (secs_until (ck_now ck) instant).

Definition unix_seconds_to_instant (ck : Clock) (unix_seconds : Z) : option Z :=
  if unix_seconds <=? now_unix ck then Some (ck_now ck)
  else instant_add (ck_now ck) (seconds (unix_seconds - now_unix ck)).

Definition persist_peer_score (ck : Clock) (p : peer) (s : PeerScore) : PersistedPeerReputation :=
  mkPersistedPeerReputation (peer_to_string p) (ps_score s) (ps_timeout_penalties s)
    (ps_invalid_payload_penalties s) (ps_inconsistent_response_penalties s)
    (instant_to_unix_seconds ck <$> ps_probation_until s)
    (instant_to_unix_seconds ck <$> ps_banned_until s).

(** A timer of the snapshot; [None] is the panic. *)
Definition load_timer (ck : Clock) (t : option Z) : option (option Z) :=
  match t with
  | None => Some None
  | Some u => Some <$> unix_seconds_to_instant ck u
  end.

Definition load_peer_score (ck : Clock) (r : PersistedPeerReputation) : option PeerScore :=
  probation ← load_timer ck (pr_probation_until r);
  banned ← load_timer ck (pr_banned_until r);
  Some (mkPeerScore (pr_score r) (pr_timeout_penalties r) (pr_invalid_payload_penalties r)
          (pr_inconsistent_response_penalties r) probation banned (ck_now ck)).

End score.

(** ** The node *)

Inductive SnapshotLoadState : Type := NotConfigured | Missing | Loaded | QuarantinedRecovered.

Record SnapshotRecoveryStatus := mkSnapshotRecoveryStatus {
  sr_load_state : SnapshotLoadState;
  sr_restored_known_peers : Z;
  sr_restored_manifests : Z;
  sr_restored_index_keys : Z;
  sr_quarantined_snapshots : Z;
  sr_last_quarantined_path : option Path;
}.

Definition recovery_status_default : SnapshotRecoveryStatus :=
  mkSnapshotRecoveryStatus NotConfigured 0 0 0 0 None.

Definition set_load_state (l : SnapshotLoadState) (s : SnapshotRecoveryStatus)
    : SnapshotRecoveryStatus :=
  mkSnapshotRecoveryStatus l (sr_restored_known_peers s) (sr_restored_manifests s)
    (sr_restored_index_keys s) (sr_quarantined_snapshots s) (sr_last_quarantined_path s).

Section node.
Context `{PI : PeerIds} `{LP : !P2pSwarm} `{SJ : SnapshotJson}.

(** The transport without its chunking configuration and listen addresses. *)
Record P2pTransport := mkP2pTransport {
  nd_config : P2pNodeConfig;
  nd_swarm : swarm;
  nd_peer_store : gmap peer PersistedPeer;
  nd_known_manifests : list ChunkManifest;
  nd_known_index_keys : gset string;
  nd_peer_scores : gmap peer PeerScore;
  nd_persistence_warnings : list string;
  nd_recovery_status : SnapshotRecoveryStatus;
  nd_metrics : P2pMetricsSnapshot;
}.

Definition node_new (cfg : P2pNodeConfig) (sw : swarm) : P2pTransport :=
  mkP2pTransport cfg sw ∅ [] ∅ ∅ [] recovery_status_default metrics_default.

Definition set_swarm (sw : swarm) (n : P2pTransport) : P2pTransport :=
  mkP2pTransport (nd_config n) sw (nd_peer_store n) (nd_known_manifests n)
    (nd_known_index_keys n) (nd_peer_scores n) (nd_persistence_warnings n) (nd_recovery_status n) (nd_metrics n).
Definition set_peer_store (st : gmap peer PersistedPeer) (n : P2pTransport) : P2pTransport :=
  mkP2pTransport (nd_config n) (nd_swarm n) st (nd_known_manifests n)
    (nd_known_index_keys n) (nd_peer_scores n) (nd_persistence_warnings n) (nd_recovery_status n) (nd_metrics n).
Definition set_known (ms : list ChunkManifest) (ks : gset string) (n : P2pTransport)
    : P2pTransport :=
  mkP2pTransport (nd_config n) (nd_swarm n) (nd_peer_store n) ms ks
    (nd_peer_scores n) (nd_persistence_warnings n) (nd_recovery_status n) (nd_metrics n).
Definition set_peer_scores (sc : gmap peer PeerScore) (n : P2pTransport) : P2pTransport :=
  mkP2pTransport (nd_config n) (nd_swarm n) (nd_peer_store n) (nd_known_manifests n)
    (nd_known_index_keys n) sc (nd_persistence_warnings n) (nd_recovery_status n) (nd_metrics n).
Definition set_recovery_status (st : SnapshotRecoveryStatus) (n : P2pTransport) : P2pTransport :=
  mkP2pTransport (nd_config n) (nd_swarm n) (nd_peer_store n) (nd_known_manifests n)
    (nd_known_index_keys n) (nd_peer_scores n) (nd_persistence_warnings n) st (nd_metrics n).
Definition add_warning (w : string) (n : P2pTransport) : P2pTransport :=
  mkP2pTransport (nd_config n) (nd_swarm n) (nd_peer_store n) (nd_known_manifests n)
    (nd_known_index_keys n) (nd_peer_scores n) (nd_persistence_warnings n ++ [w])
    (nd_recovery_status n) (nd_metrics n).
Definition set_metrics (m : P2pMetricsSnapshot) (n : P2pTransport) : P2pTransport :=
  mkP2pTransport (nd_config n) (nd_swarm n) (nd_peer_store n) (nd_known_manifests n)
    (nd_known_index_keys n) (nd_peer_scores n) (nd_persistence_warnings n) (nd_recovery_status n) m.

(** ** Queries *)

Definition peer_score (n : P2pTransport) (p : peer) : Z :=
  match nd_peer_scores n !! p with Some s => ps_score s | None => 0 end.

Definition is_peer_banned (n : P2pTransport) (now : Z) (p : peer) : bool :=
  match nd_peer_scores n !! p with Some s => until_after (ps_banned_until s) now | None => false end.

Definition is_peer_probationary (n : P2pTransport) (now : Z) (p : peer) : bool :=
  match nd_peer_scores n !! p with
  | Some s => until_after (ps_probation_until s) now
  | None => false
  end.

Record PeerReputationSnapshot := mkPeerReputationSnapshot {
  rs_score : Z;
  rs_timeout_penalties : Z;
  rs_invalid_payload_penalties : Z;
  rs_inconsistent_response_penalties : Z;
  rs_state : PeerReputationState;
}.

Definition peer_reputation_snapshot (n : P2pTransport) (now : Z) (p : peer)
    : PeerReputationSnapshot :=
  match nd_peer_scores n !! p with
  | Some s =>
      mkPeerReputationSnapshot (ps_score s) (ps_timeout_penalties s)
        (ps_invalid_payload_penalties s) (ps_inconsistent_response_penalties s)
        (classify_peer_reputation_state s now)
  | None => mkPeerReputationSnapshot 0 0 0 0 Neutral
  end.

(** The origin tags of the peers a random walk may use. *)
Definition walk_origins (n : P2pTransport) (now : Z) : list string :=
  map (λ kp, pp_origin_tag kp.2)
    (filter (λ kp, let parsed := default (sw_local_peer (nd_swarm n)) (peer_parse (pp_peer_id kp.2)) in
                   negb (is_peer_banned n now parsed) && negb (is_peer_probationary n now parsed) = true)
       (map_to_list (nd_peer_store n))).

Definition random_walk_candidates `{Sha256} (n : P2pTransport) (now : Z) (seed : bytes)
    (steps max_per_origin : Z) : list bytes :=
  robust_random_walk_with_sources seed steps (walk_origins n now) max_per_origin.

Definition banned_peers (n : P2pTransport) (now : Z) : Z :=
  zlen (filter (λ kp, until_after (ps_banned_until kp.2) now = true)
          (map_to_list (nd_peer_scores n))).

Definition node_health (n : P2pTransport) (now : Z) (thresholds : NetworkHealthThresholds)
    (fallback : FallbackCounters) : NetworkHealthIndicators :=
  network_health_indicators thresholds (metrics_snapshot (nd_metrics n) fallback)
    (banned_peers n now) (Z.of_nat (size (nd_peer_store n))) (sw_connected (nd_swarm n)).

(** ** Persistence *)

Definition snapshot_of (ck : Clock) (n : P2pTransport) : PersistedBootstrapState :=
  let peers := map snd (map_to_list (nd_peer_store n)) in
  mkPersistedBootstrapState peers
    (map addr_to_string (pc_bootstrap_nodes (nd_config n)) ++ concat (map pp_addresses peers))
    (nd_known_manifests n)
    (elements (nd_known_index_keys n))
    (map (λ ps, persist_peer_score ck ps.1 ps.2) (map_to_list (nd_peer_scores n))).

Definition persist_state (ck : Clock) (n : P2pTransport) : io (result TransportError unit) :=
  match pc_persistence_path (nd_config n) with
  | None => Ret (Ok tt)
  | Some path => write_bootstrap_snapshot_atomic path (snapshot_of ck n)
  end.

Definition quarantine_path (ck : Clock) (path : Path) : Path :=
  with_extension path ("corrupt-" +:+ show_Z (now_unix ck) +:+ ".json").

Definition quarantine_corrupted_snapshot (ck : Clock) (path : Path)
    : io (result TransportError Path) :=
  let quarantined := quarantine_path ck path in
  let*? _ := sys Libp2p (RenameFile path quarantined) in
  Ret (Ok quarantined).

(** Runs [f] on every entry in turn; [None] is a panic in one of them. *)
Fixpoint insert_scores (ck : Clock) (rs : list PersistedPeerReputation)
    (scores : gmap peer PeerScore) : option (gmap peer PeerScore) :=
  match rs with
  | [] => Some scores
  | r :: rs' =>
      match peer_parse (pr_peer_id r) with
      | Some p => s ← load_peer_score ck r; insert_scores ck rs' (<[p := s]> scores)
      | None => insert_scores ck rs' scores
      end
  end.

Definition insert_peers (peers : list PersistedPeer) (store : gmap peer PersistedPeer)
    : gmap peer PersistedPeer :=
  fold_left (λ store p,
    match peer_parse (pp_peer_id p) with
    | Some id => <[id := p]> store
    | None => store
    end) peers store.

(** The node with the content of a snapshot. *)
Definition restore_snapshot (ck : Clock) (snapshot : PersistedBootstrapState) (n : P2pTransport)
    : option P2pTransport :=
  let status := nd_recovery_status n in
  let n := set_recovery_status
    (mkSnapshotRecoveryStatus Loaded (zlen (bs_known_peers snapshot))
       (zlen (bs_manifests snapshot)) (zlen (bs_index_keys snapshot))
       (sr_quarantined_snapshots status) (sr_last_quarantined_path status)) n in
  let n := set_known (bs_manifests snapshot) (list_to_set (bs_index_keys snapshot)) n in
  let n := set_peer_store (insert_peers (bs_known_peers snapshot) (nd_peer_store n)) n in
  scores ← insert_scores ck (bs_peer_reputation snapshot) (nd_peer_scores n);
  Some (set_peer_scores scores n).

(** The node after a corrupted snapshot was put aside. *)
Definition quarantined_node (quarantined : Path) (n : P2pTransport) : P2pTransport :=
  set_recovery_status
    (mkSnapshotRecoveryStatus QuarantinedRecovered 0 0 0
       (saturating_add 64 (sr_quarantined_snapshots (nd_recovery_status n)) 1)
       (Some quarantined)) n.

Definition load_persisted_state (ck : Clock) (n : P2pTransport)
    : io (option (P2pTransport * result TransportError unit)) :=
  match pc_persistence_path (nd_config n) with
  | None => Ret (Some (set_recovery_status
                         (set_load_state NotConfigured (nd_recovery_status n)) n, Ok tt))
  | Some path =>
      PathExists path (λ found,
        if negb found then
          Ret (Some (set_recovery_status (set_load_state Missing (nd_recovery_status n)) n, Ok tt))
        else
          let* snapshot := read_bootstrap_snapshot path in
          match snapshot with
          | Ok snapshot =>
              Ret (match restore_snapshot ck snapshot n with
                   | Some n' => Some (n', Ok tt)
                   | None => None
                   end)
          | Err err =>
              let* q := quarantine_corrupted_snapshot ck path in
              match q with
              | Err e => Ret (Some (n, Err e))
              | Ok quarantined =>
                  let* w := write_bootstrap_snapshot_atomic path bootstrap_empty in
                  match w with
                  | Err e => Ret (Some (n, Err e))
                  | Ok _ =>
                      Ret (Some (quarantined_node quarantined n,
                        Err (InvalidPayload ("corrupted persisted state detected and quarantined: "
                               +:+ transport_error_to_string err))))
                  end
              end
          end)
  end.

(** ** Observing and dialling peers *)

Definition observe_peer (ck : Clock) (p : peer) (addresses : list string) (origin_tag : string)
    (n : P2pTransport) : P2pTransport :=
  let entry := default (mkPersistedPeer (peer_to_string p) [] 0 origin_tag)
                 (nd_peer_store n !! p) in
  let addrs := fold_left (λ known a, if decide (a ∈ known) then known else known ++ [a])
                 addresses (pp_addresses entry) in
  set_peer_store
    (<[p := mkPersistedPeer (pp_peer_id entry) addrs (now_unix ck) origin_tag]>
       (nd_peer_store n)) n.

Definition infer_origin_tag (addr : Multiaddr) : string :=
  match addr with
  | Ip4 _ :: _ => "ip4"
  | Ip6 _ :: _ => "ip6"
  | Dns _ :: _ | Dns4 _ :: _ | Dns6 _ :: _ => "dns"
  | _ => "unknown"
  end.

(** The address before the first peer component, and the peer. *)
Fixpoint split_at_peer (addr base : Multiaddr) : option peer * Multiaddr :=
  match addr with
  | [] => (None, base)
  | P2p p :: _ => (Some p, base)
  | protocol :: rest => split_at_peer rest (base ++ [protocol])
  end.

Definition split_peer_addr (addr : Multiaddr) : result TransportError (peer * Multiaddr) :=
  let '(p, base) := split_at_peer addr [] in
  let? p := ok_or p (Libp2p "missing peer id") in
  Ok (p, base).

Definition persisted_bootstrap_addrs (n : P2pTransport) : list Multiaddr :=
  omap addr_parse (concat (map (λ kp, pp_addresses kp.2) (map_to_list (nd_peer_store n)))).

(** Registers and dials one peer. *)
Definition connect_peer (p : peer) (base addr : Multiaddr) (n : P2pTransport)
    : P2pTransport * result TransportError unit :=
  let sw := sw_add_explicit_peer (sw_add_address (nd_swarm n) p base) p in
  let '(sw, r) := sw_dial sw addr in
  (set_swarm sw n, map_err Libp2p r).

Definition dial_peer (ck : Clock) (addr : Multiaddr) (n : P2pTransport)
    : io (P2pTransport * result TransportError unit) :=
  match split_peer_addr addr with
  | Err e => Ret (n, Err e)
  | Ok (p, base) =>
      if is_peer_banned n (ck_now ck) p
      then Ret (n, Err (Libp2p "peer is temporarily banned"))
      else
        match connect_peer p base addr n with
        | (n, Err e) => Ret (n, Err e)
        | (n, Ok _) =>
            let n := observe_peer ck p [] "manual-dial" n in
            let* r := persist_state ck n in
            Ret (n, r)
        end
  end.

(** The loop of [configure_peers], with the bootstrap peers found so far. *)
Fixpoint configure_addresses (ck : Clock) (addrs : list Multiaddr) (bootstrap : list peer)
    (n : P2pTransport) : P2pTransport * result TransportError (list peer) :=
  match addrs with
  | [] => (n, Ok bootstrap)
  | addr :: rest =>
      match split_peer_addr addr with
      | Err e => (n, Err e)
      | Ok (p, base) =>
          if is_peer_banned n (ck_now ck) p then configure_addresses ck rest bootstrap n
          else
            match connect_peer p base addr n with
            | (n, Err e) => (n, Err e)
            | (n, Ok _) =>
                let n := observe_peer ck p [addr_to_string addr] (infer_origin_tag addr) n in
                let bootstrap :=
                  if decide (addr ∈ pc_bootstrap_nodes (nd_config n))
                  then bootstrap ++ [p] else bootstrap in
                configure_addresses ck rest bootstrap n
            end
      end
  end.

Definition configure_peers (ck : Clock) (n : P2pTransport)
    : io (P2pTransport * result TransportError unit) :=
  let addresses := pc_peers (nd_config n) ++ pc_bootstrap_nodes (nd_config n)
                     ++ persisted_bootstrap_addrs n in
  match configure_addresses ck addresses [] n with
  | (n, Err e) => Ret (n, Err e)
  | (n, Ok bootstrap_peers) =>
      let n := match bootstrap_peers with
               | [] => n
               | _ => set_swarm (sw_bootstrap (nd_swarm n)) n
               end in
      let* r := persist_state ck n in
      Ret (n, r)
  end.

Fixpoint listen_all (sw : swarm) (addrs : list Multiaddr)
    : swarm * result TransportError unit :=
  match addrs with
  | [] => (sw, Ok tt)
  | a :: rest =>
      match sw_listen_on sw a with
      | (sw, Ok _) => listen_all sw rest
      | (sw, Err e) => (sw, Err (Libp2p e))
      end
  end.

(** [P2pTransport::new] on a swarm that was built: [None] is a panic.  Waiting
    for the listen addresses changes nothing kept here. *)
Definition p2p_new (ck : Clock) (cfg : P2pNodeConfig) (sw : swarm)
    : io (option (result TransportError P2pTransport)) :=
  match listen_all sw (pc_listen_addrs cfg) with
  | (_, Err e) => Ret (Some (Err e))
  | (sw, Ok _) =>
      let* loaded := load_persisted_state ck (node_new cfg sw) in
      match loaded with
      | None => Ret None
      | Some (n, r) =>
          let n := match r with
                   | Ok _ => n
                   | Err err => add_warning (transport_error_to_string err) n
                   end in
          let* (n, r) := configure_peers ck n in
          match r with
          | Err e => Ret (Some (Err e))
          | Ok _ =>
              let* r := persist_state ck n in
              match r with
              | Err e => Ret (Some (Err e))
              | Ok _ => Ret (Some (Ok n))
              end
          end
      end
  end.

(** ** Penalties and rewards *)

Definition record_reputation_transition (st : PeerReputationState) (m : P2pMetricsSnapshot)
    : P2pMetricsSnapshot :=
  match st with
  | Probation =>
      mkP2pMetricsSnapshot (pm_publish m) (pm_query m) (pm_recovery m) (pm_fallback m)
        (pm_reassemble_failures m) (pm_verification_failures m)
        (wadd 64 (pm_probation_transitions m) 1) (pm_ban_transitions m)
  | Banned =>
      mkP2pMetricsSnapshot (pm_publish m) (pm_query m) (pm_recovery m) (pm_fallback m)
        (pm_reassemble_failures m) (pm_verification_failures m)
        (pm_probation_transitions m) (wadd 64 (pm_ban_transitions m) 1)
  | Neutral => m
  end.

(** The node after a penalty, before it is persisted. *)
Definition penalized (now : Z) (p : peer) (m : Misbehaviour) (n : P2pTransport) : P2pTransport :=
  let s := default (neutral now) (nd_peer_scores n !! p) in
  let previous_state := classify_peer_reputation_state s now in
  let '(s', banned) := penalize (nd_config n) now m s in
  let n := set_peer_scores (<[p := s']> (nd_peer_scores n)) n in
  let n := if banned
           then set_swarm (sw_remove_explicit_peer (sw_disconnect (nd_swarm n) p) p) n else n in
  let current_state := classify_peer_reputation_state s' now in
  if decide (previous_state = current_state) then n
  else set_metrics (record_reputation_transition current_state (nd_metrics n)) n.

(** The outcome of persisting is ignored. *)
Definition apply_penalty (ck : Clock) (p : peer) (m : Misbehaviour) (n : P2pTransport)
    : io P2pTransport :=
  let n := penalized (ck_now ck) p m n in
  let* _ := persist_state ck n in
  Ret n.

Definition report_timeout (ck : Clock) (p : peer) : P2pTransport → io P2pTransport :=
  apply_penalty ck p Timeout_.
Definition report_invalid_payload (ck : Clock) (p : peer) : P2pTransport → io P2pTransport :=
  apply_penalty ck p InvalidPayload_.
Definition report_inconsistent_response (ck : Clock) (p : peer) : P2pTransport → io P2pTransport :=
  apply_penalty ck p InconsistentResponse.

Definition rewarded (now : Z) (p : peer) (n : P2pTransport) : P2pTransport :=
  let s := default (neutral now) (nd_peer_scores n !! p) in
  set_peer_scores (<[p := reward (nd_config n) s]> (nd_peer_scores n)) n.

Definition report_successful_interaction (ck : Clock) (p : peer) (n : P2pTransport)
    : io P2pTransport :=
  let n := rewarded (ck_now ck) p n in
  let* _ := persist_state ck n in
  Ret n.

End node.
