(* ===== verification/PeersFacts.v ===== *)
(** * The peer-to-peer node: lemmas and theorems on peers

    About the definitions of [Peers].  Shown here: scores stay between thirty
    points per report below zero and twenty above, so the [i32] never wraps
    within seventy million reports; a penalty bans, puts on probation or leaves
    alone exactly as the thresholds say, and a banned peer is neither dialled
    nor a source of the random walk until its ban ends; a restart keeps what
    the node knew and shortens or lengthens a ban by less than two seconds; a
    snapshot that does not decode is put aside unharmed and replaced by an
    empty one.  Three results describe gaps: penalty counters are never
    forgotten, so that a peer once over a counter threshold is banned again by
    any later penalty; a snapshot with a timer in the far future makes the
    node panic at every start; and one persisted address without a peer
    identifier keeps the node from starting. *)
From Stdlib Require Import ZArith Lia Ascii Strings.Byte.
From stdpp Require Import base list gmap strings sorting numbers.
From S2P Require Import Prelude External Cbor CborFacts Types Core Transport Files Ingest Metrics.
From S2P Require Import Peers.

#[local] Open Scope Z_scope.

(** ** Scores *)

Lemma wrap_i_id w z : 0 < w → - 2 ^ (w - 1) <= z < 2 ^ (w - 1) → wrap_i w z = z.
Proof.
  intros Hw Hz. unfold wrap_i. assert (2 ^ w = 2 * 2 ^ (w - 1)) as Hp.
  { rewrite <- Z.pow_succ_r by lia. f_equal. lia. }
  rewrite Z.mod_small by lia. lia.
Qed.

Lemma wrap_i_range w z : 0 < w → - 2 ^ (w - 1) <= wrap_i w z < 2 ^ (w - 1).
Proof.
  intros Hw. unfold wrap_i. assert (2 ^ w = 2 * 2 ^ (w - 1)) as Hp.
  { rewrite <- Z.pow_succ_r by lia. f_equal. lia. }
  pose proof (Z.mod_pos_bound (z + 2 ^ (w - 1)) (2 ^ w) ltac:(lia)). lia.
Qed.

(** A score between [-lo] and 20. *)
Definition score_within (lo : Z) (s : PeerScore) : Prop := - lo <= ps_score s <= 20.

Lemma decay_score now rate s lo :
  lo <= 2 ^ 31 → score_within lo s → score_within lo (apply_score_decay now rate s).
Proof.
  intros Hlo [Hl Hu]. unfold apply_score_decay. destruct (_ || _); [by split|].
  set (x := wrap_i 32 _). assert (- 2 ^ 31 <= x < 2 ^ 31) as Hx by (apply (wrap_i_range 32); lia).
  destruct (0 <? _) eqn:Hr; [|by split]. apply Z.ltb_lt in Hr.
  assert (x ÷ 60 <= 2 ^ 31 / 60).
  { apply (Z.quot_le_mono x (2 ^ 31) 60); lia. }
  unfold score_within. cbn [ps_score].
  assert (2 ^ 31 / 60 < 2 ^ 30) by (by vm_compute).
  rewrite wrap_i_id by (change (2 ^ (32 - 1)) with (2 * 2 ^ 30) in *; change (2 ^ 31) with (2 * 2 ^ 30) in *; lia).
  lia.
Qed.

Lemma penalty_bounds m : 8 <= penalty_of m <= 30.
Proof. destruct m; cbn; lia. Qed.

Lemma count_penalty_score m s : ps_score (count_penalty m s) = ps_score s.
Proof. by destruct m. Qed.

Section scores.
Context `{PI : PeerIds}.
Implicit Types cfg : P2pNodeConfig.

Lemma penalize_score cfg now m s :
  ps_score (penalize cfg now m s).1
  = wrap_i 32 (ps_score (apply_score_decay now (pc_score_recovery_per_minute cfg) s)
               - penalty_of m).
Proof.
  unfold penalize. destruct (reached_ban_threshold _ _); [|destruct (_ <=? _)];
    cbn [fst]; unfold set_timers; cbn [ps_score]; by rewrite count_penalty_score.
Qed.

Lemma penalize_within cfg now m s lo :
  lo + 30 <= 2 ^ 31 → score_within lo s → score_within (lo + 30) (penalize cfg now m s).1.
Proof.
  intros Hlo Hs. unfold score_within. rewrite penalize_score.
  destruct (decay_score now (pc_score_recovery_per_minute cfg) s lo ltac:(lia) Hs) as [H1 H2].
  pose proof (penalty_bounds m). rewrite wrap_i_id; [lia|lia|].
  change (2 ^ (32 - 1)) with (2 ^ 31). assert (20 < 2 ^ 31) by (by vm_compute). lia.
Qed.

Lemma reward_within cfg s lo : lo <= 2 ^ 31 → score_within lo s → score_within lo (reward cfg s).
Proof.
  intros Hlo [H1 H2]. unfold reward.
  assert (score_within lo (set_score (Z.min (wrap_i 32 (ps_score s + 6)) 20) s)) as Hs.
  { unfold score_within. cbn. rewrite wrap_i_id; [lia|lia|].
    change (2 ^ (32 - 1)) with (2 ^ 31). assert (26 < 2 ^ 31) by (by vm_compute). lia. }
  by destruct (_ <? _).
Qed.

End scores.

(** ** Reports *)

Inductive Report : Type := Misbehaved (m : Misbehaviour) | Succeeded.

Section reports.
Context `{PI : PeerIds} `{LP : !P2pSwarm} `{SJ : SnapshotJson}.
Implicit Types n : P2pTransport.

(** The node after a report, before it is persisted. *)
Definition reported (now : Z) (p : peer) (r : Report) (n : P2pTransport) : P2pTransport :=
  match r with Misbehaved m => penalized now p m n | Succeeded => rewarded now p n end.

Definition run_reports (rs : list (Z * peer * Report)) (n : P2pTransport) : P2pTransport :=
  fold_left (λ n r, reported r.1.1 r.1.2 r.2 n) rs n.

Lemma run_reports_cons r rs n :
  run_reports (r :: rs) n = run_reports rs (reported r.1.1 r.1.2 r.2 n).
Proof. done. Qed.

Definition known_score (now : Z) (p : peer) (n : P2pTransport) : PeerScore :=
  default (neutral now) (nd_peer_scores n !! p).

Lemma penalized_scores now p m n :
  nd_peer_scores (penalized now p m n)
  = <[p := (penalize (nd_config n) now m (known_score now p n)).1]> (nd_peer_scores n).
Proof.
  unfold penalized, known_score. destruct (penalize _ _ _ _) as [s' b]. cbn [fst].
  destruct b; case_decide; done.
Qed.

Lemma penalized_config now p m n : nd_config (penalized now p m n) = nd_config n.
Proof. unfold penalized. destruct (penalize _ _ _ _) as [s' []]; by case_decide. Qed.

Lemma penalized_swarm now p m n :
  nd_swarm (penalized now p m n)
  = if (penalize (nd_config n) now m (known_score now p n)).2
    then sw_remove_explicit_peer (sw_disconnect (nd_swarm n) p) p else nd_swarm n.
Proof.
  unfold penalized, known_score. destruct (penalize _ _ _ _) as [s' []]; by case_decide.
Qed.

Definition scores_within (lo : Z) (n : P2pTransport) : Prop :=
  map_Forall (λ _, score_within lo) (nd_peer_scores n).

Lemma known_score_within lo now p n :
  0 <= lo → scores_within lo n → score_within lo (known_score now p n).
Proof.
  intros Hlo Hn. unfold known_score. destruct (nd_peer_scores n !! p) as [s|] eqn:Hs.
  - by apply (Hn p).
  - unfold score_within. cbn. lia.
Qed.

Lemma score_within_mono lo lo' s : lo <= lo' → score_within lo s → score_within lo' s.
Proof. unfold score_within. lia. Qed.

Lemma reported_within lo now p r n :
  0 <= lo → lo + 30 <= 2 ^ 31 → scores_within lo n → scores_within (lo + 30) (reported now p r n).
Proof.
  intros H0 Hlo Hn.
  assert (scores_within (lo + 30) n) as Hn'
    by (intros q s Hq; apply (score_within_mono lo); [lia|by apply (Hn q)]).
  pose proof (known_score_within lo now p n H0 Hn) as Hs. destruct r as [m|]; cbn [reported].
  - unfold scores_within. rewrite penalized_scores. apply map_Forall_insert_2; [|done].
    by apply penalize_within.
  - unfold rewarded. apply map_Forall_insert_2; [|done]. fold (known_score now p n).
    apply reward_within; [lia|]. apply (score_within_mono lo); [lia|done].
Qed.

Lemma run_reports_within rs : ∀ lo n,
  0 <= lo → lo + 30 * zlen rs <= 2 ^ 31 → scores_within lo n →
  scores_within (lo + 30 * zlen rs) (run_reports rs n).
Proof.
  unfold zlen. induction rs as [|[[now p] r] rs IH]; intros lo n H0 Hlo Hn.
  - cbn. by rewrite Z.add_0_r.
  - rewrite run_reports_cons. cbn [fst snd length] in *.
    replace (lo + 30 * Z.of_nat (S (length rs))) with (lo + 30 + 30 * Z.of_nat (length rs)) by lia.
    apply IH; [lia|lia|]. apply reported_within; [lia|lia|done].
Qed.

(** C25: after any reports about any peers, at any times, every score lies
    between -30 for each report and 20, as long as the reports number at most
    71 million: the 32-bit score does not wrap, and no peer can earn more than
    twenty points of credit. *)
Theorem scores_bounded rs n p :
  nd_peer_scores n = ∅ → zlen rs <= 71582788 →
  - (30 * zlen rs) <= peer_score (run_reports rs n) p <= 20.
Proof.
  intros Hn Hl. assert (scores_within (0 + 30 * zlen rs) (run_reports rs n)) as Hw.
  { apply run_reports_within; [lia|change (2 ^ 31) with 2147483648; lia|].
    unfold scores_within. rewrite Hn. apply map_Forall_empty. }
  unfold peer_score. destruct (_ !! p) as [s|] eqn:Hs.
  - pose proof (Hw p s Hs) as H. unfold score_within in H. lia.
  - unfold zlen. lia.
Qed.

(** ** What a penalty does *)

Lemma reached_set_timers cfg a b s :
  reached_ban_threshold cfg (set_timers a b s) = reached_ban_threshold cfg s.
Proof. done. Qed.

Lemma decay_timers now rate s :
  ps_banned_until (apply_score_decay now rate s) = ps_banned_until s ∧
  ps_probation_until (apply_score_decay now rate s) = ps_probation_until s.
Proof. unfold apply_score_decay. destruct (_ || _); [done|]. by destruct (_ <? _). Qed.

Lemma count_penalty_timers m s :
  ps_banned_until (count_penalty m s) = ps_banned_until s ∧
  ps_probation_until (count_penalty m s) = ps_probation_until s.
Proof. by destruct m. Qed.

(** The penalized score with its ban flag, and the timers it is left with. *)
Lemma penalize_cases cfg now m s s' b :
  penalize cfg now m s = (s', b) →
  b = reached_ban_threshold cfg s' ∧
  (ps_banned_until s', ps_probation_until s') =
    if reached_ban_threshold cfg s' then (Some (now + pc_peer_ban_duration cfg), None)
    else if ps_score s' <=? pc_probation_score_threshold cfg
    then (ps_banned_until s, Some (now + pc_peer_probation_duration cfg))
    else (ps_banned_until s, ps_probation_until s).
Proof.
  unfold penalize. set (s1 := apply_score_decay _ _ _). set (s2 := count_penalty m _).
  assert (ps_banned_until s2 = ps_banned_until s ∧ ps_probation_until s2 = ps_probation_until s)
    as [Hb Hp].
  { unfold s2. destruct (count_penalty_timers m (set_score (wrap_i 32 (ps_score s1 - penalty_of m)) s1))
      as [-> ->]. apply decay_timers. }
  destruct (reached_ban_threshold cfg s2) eqn:Hr; [|destruct (_ <=? _) eqn:Hq];
    intros [= <- <-]; rewrite ?reached_set_timers, ?Hr; (split; [done|]); cbn [ps_score set_timers];
    rewrite ?Hq, ?Hb, ?Hp; done.
Qed.

Lemma until_after_add now d : 0 < d → until_after (Some (now + d)) now = true.
Proof. intros. cbn. apply Z.ltb_lt. lia. Qed.

(** The score and the counters stay away from the ends of their machine types. *)
Record no_wrap (cfg : P2pNodeConfig) (now : Z) (s : PeerScore) : Prop := {
  nw_rate : 0 <= pc_score_recovery_per_minute cfg;
  nw_recovered : secs_until (ps_last_decay_at s) now * pc_score_recovery_per_minute cfg < 2 ^ 30;
  nw_score : - 2 ^ 30 <= ps_score s <= 20;
  nw_timeouts : 0 <= ps_timeout_penalties s < 2 ^ 31;
  nw_invalid : 0 <= ps_invalid_payload_penalties s < 2 ^ 31;
  nw_inconsistent : 0 <= ps_inconsistent_response_penalties s < 2 ^ 31;
}.

(** The points that have come back since the last decay. *)
Definition points_back (cfg : P2pNodeConfig) (now : Z) (s : PeerScore) : Z :=
  secs_until (ps_last_decay_at s) now * pc_score_recovery_per_minute cfg / 60.

Lemma secs_until_nonneg a b : 0 <= secs_until a b.
Proof. unfold secs_until. apply Z.div_pos; unfold second; lia. Qed.

Lemma decayed_score cfg now s :
  no_wrap cfg now s →
  ps_score (apply_score_decay now (pc_score_recovery_per_minute cfg) s)
  = if 0 <? points_back cfg now s then Z.min (ps_score s + points_back cfg now s) 20
    else ps_score s.
Proof.
  intros [Hr Hrec [Hs1 Hs2] _ _ _]. unfold apply_score_decay, points_back.
  pose proof (secs_until_nonneg (ps_last_decay_at s) now) as Hsec.
  set (secs := secs_until _ _) in *. set (rate := pc_score_recovery_per_minute cfg) in *.
  change (2 ^ 30) with 1073741824 in *.
  destruct (decide (secs = 0)) as [Hz|]; [rewrite Hz; done|].
  destruct (decide (rate = 0)) as [->|]; [by rewrite orb_true_r, Z.mul_0_r|].
  replace ((secs =? 0) || (rate <=? 0)) with false by lia.
  rewrite (wrap_i_id 32 secs) by (change (2 ^ (32 - 1)) with 2147483648; nia).
  rewrite (wrap_i_id 32 (secs * rate)) by (change (2 ^ (32 - 1)) with 2147483648; nia).
  rewrite Z.quot_div_nonneg by nia. destruct (0 <? secs * rate / 60) eqn:E; [|done].
  cbn [ps_score]. rewrite wrap_i_id; [done|lia|]. change (2 ^ (32 - 1)) with 2147483648.
  pose proof (Z.div_le_upper_bound (secs * rate) 60 1073741824). bool_to_prop. lia.
Qed.

Lemma decay_counters now rate s :
  ps_timeout_penalties (apply_score_decay now rate s) = ps_timeout_penalties s ∧
  ps_invalid_payload_penalties (apply_score_decay now rate s) = ps_invalid_payload_penalties s ∧
  ps_inconsistent_response_penalties (apply_score_decay now rate s)
  = ps_inconsistent_response_penalties s.
Proof. unfold apply_score_decay. destruct (_ || _); [done|]. by destruct (_ <? _). Qed.

(** How often a peer has misbehaved in each way, after one more time. *)
Definition counted (m m' : Misbehaviour) (count : Z) : Z :=
  match m, m' with
  | Timeout_, Timeout_ | InvalidPayload_, InvalidPayload_
  | InconsistentResponse, InconsistentResponse => count + 1
  | _, _ => count
  end.

Definition weight (m : Misbehaviour) : Z :=
  match m with Timeout_ => 8 | InvalidPayload_ => 30 | InconsistentResponse => 18 end.

Lemma penalize_numbers cfg now m s :
  no_wrap cfg now s →
  let s' := (penalize cfg now m s).1 in
  ps_score s' = (if 0 <? points_back cfg now s then Z.min (ps_score s + points_back cfg now s) 20
                 else ps_score s) - weight m ∧
  ps_timeout_penalties s' = counted m Timeout_ (ps_timeout_penalties s) ∧
  ps_invalid_payload_penalties s' = counted m InvalidPayload_ (ps_invalid_payload_penalties s) ∧
  ps_inconsistent_response_penalties s'
  = counted m InconsistentResponse (ps_inconsistent_response_penalties s).
Proof.
  intros Hw s'. pose proof (decayed_score cfg now s Hw) as Hd.
  assert (- 2 ^ 30 <= ps_score (apply_score_decay now (pc_score_recovery_per_minute cfg) s) <= 20) as Hb.
  { pose proof (nw_score _ _ _ Hw). rewrite Hd. destruct (0 <? points_back cfg now s) eqn:E; lia. }
  rewrite <-Hd. destruct (decay_counters now (pc_score_recovery_per_minute cfg) s) as (H1 & H2 & H3).
  rewrite <-H1, <-H2, <-H3. pose proof (nw_timeouts _ _ _ Hw) as Ht.
  pose proof (nw_invalid _ _ _ Hw) as Hi. pose proof (nw_inconsistent _ _ _ Hw) as Hc.
  rewrite <-H1 in Ht. rewrite <-H2 in Hi. rewrite <-H3 in Hc. clear Hd H1 H2 H3 Hw. unfold s', penalize.
  set (s1 := apply_score_decay _ _ _) in *. clearbody s1. change (2 ^ 30) with 1073741824 in Hb.
  set (s2 := count_penalty m _).
  assert (ps_score s2 = ps_score s1 - weight m ∧
    ps_timeout_penalties s2 = counted m Timeout_ (ps_timeout_penalties s1) ∧
    ps_invalid_payload_penalties s2 = counted m InvalidPayload_ (ps_invalid_payload_penalties s1) ∧
    ps_inconsistent_response_penalties s2
    = counted m InconsistentResponse (ps_inconsistent_response_penalties s1)).
  { unfold s2. destruct m; cbn; rewrite wrap_i_id by (change (2 ^ (32 - 1)) with 2147483648; lia);
      unfold wadd, wrap; rewrite ?Z.mod_small by (change (2 ^ 32) with 4294967296; lia); done. }
  destruct (reached_ban_threshold cfg s2); [done|]. by destruct (_ <=? _).
Qed.

(** C24: a penalty acts as the thresholds say.  The score first regains the points
    of the time passed, up to 20, then loses 8, 30 or 18 for a timeout, an invalid
    payload or an inconsistent response, whose count goes up by one.  If the score is
    at or below the ban threshold, or one of the counts of invalid payloads and
    inconsistent responses has reached its own, the peer is disconnected, no longer an
    explicit peer, and banned until exactly the end of the ban duration; otherwise an
    earlier ban stays as it was and the peer is put on probation for the probation
    duration if its score is at or below that threshold, and its probation stays as it
    was if not.  The other peers keep their scores.  Score and counts must be away from
    the ends of their machine types. *)
Theorem penalty_outcome now p m n :
  let cfg := nd_config n in
  let s := known_score now p n in
  let n' := penalized now p m n in
  let back := secs_until (ps_last_decay_at s) now * pc_score_recovery_per_minute cfg / 60 in
  let score := (if 0 <? back then Z.min (ps_score s + back) 20 else ps_score s) - weight m in
  let invalid := counted m InvalidPayload_ (ps_invalid_payload_penalties s) in
  let inconsistent := counted m InconsistentResponse (ps_inconsistent_response_penalties s) in
  no_wrap cfg now s →
  ∃ s', nd_peer_scores n' !! p = Some s' ∧ ps_score s' = score ∧
    ps_timeout_penalties s' = counted m Timeout_ (ps_timeout_penalties s) ∧
    ps_invalid_payload_penalties s' = invalid ∧
    ps_inconsistent_response_penalties s' = inconsistent ∧
    (if decide (score <= pc_ban_score_threshold cfg ∨
                pc_invalid_payload_ban_threshold cfg <= invalid ∨
                pc_inconsistent_response_ban_threshold cfg <= inconsistent)
     then ps_probation_until s' = None ∧
       nd_swarm n' = sw_remove_explicit_peer (sw_disconnect (nd_swarm n) p) p ∧
       ∀ t, is_peer_banned n' t p = true ↔ t < now + pc_peer_ban_duration cfg
     else nd_swarm n' = nd_swarm n ∧ ps_banned_until s' = ps_banned_until s ∧
       ps_probation_until s'
       = if decide (score <= pc_probation_score_threshold cfg)
         then Some (now + pc_peer_probation_duration cfg) else ps_probation_until s) ∧
    ∀ q, q ≠ p → nd_peer_scores n' !! q = nd_peer_scores n !! q.
Proof.
  intros cfg s n' back score invalid inconsistent Hw.
  pose proof (penalize_numbers cfg now m s Hw) as (Hs1 & Hs2 & Hs3 & Hs4).
  destruct (penalize cfg now m s) as [s1 b] eqn:Hp. cbn [fst] in *.
  pose proof (penalize_cases _ _ _ _ _ _ Hp) as [Hb Ht].
  assert (nd_peer_scores n' = <[p := s1]> (nd_peer_scores n)) as Hsc.
  { unfold n'. rewrite penalized_scores. fold cfg s. by rewrite Hp. }
  assert (nd_swarm n' = if b then sw_remove_explicit_peer (sw_disconnect (nd_swarm n) p) p
                        else nd_swarm n) as Hsw.
  { unfold n'. rewrite penalized_swarm. fold cfg s. by rewrite Hp. }
  exists s1. split; [rewrite Hsc; apply lookup_insert_eq|]. split_and!; [done..| |].
  - fold (points_back cfg now s) in back. fold back score in Hs1. fold invalid in Hs3.
    fold inconsistent in Hs4. unfold reached_ban_threshold in Hb, Ht.
    rewrite Hs1, Hs3, Hs4 in Hb, Ht. case_decide as Hd.
    + replace (_ || _ || _) with true in Hb, Ht by lia. injection Ht as Hu Hq. subst b.
      split_and!; [done..|]. intros t. unfold is_peer_banned. rewrite Hsc, lookup_insert_eq, Hu. cbn.
      apply Z.ltb_lt.
    + replace (_ || _ || _) with false in Hb, Ht by lia. subst b.
      case_decide; [replace (score <=? _) with true in Ht by lia
                   |replace (score <=? _) with false in Ht by lia]; by injection Ht as -> ->.
  - intros q Hq. rewrite Hsc. by apply lookup_insert_ne.
Qed.

(** A banned peer is left alone: while its ban lasts it is not dialled on
    request, the start of the node passes over its addresses, and a random walk
    does not use it, nor a peer on probation, as a source. *)
Theorem banned_peer_avoided ck n p base addr o :
  split_peer_addr addr = Ok (p, base) → is_peer_banned n (ck_now ck) p = true →
  run_io (dial_peer ck addr n) o = (o, (n, Err (Libp2p "peer is temporarily banned"))) ∧
  (∀ rest found, configure_addresses ck (addr :: rest) found n = configure_addresses ck rest found n) ∧
  (∀ tag, tag ∈ walk_origins n (ck_now ck) →
     ∃ q e, nd_peer_store n !! q = Some e ∧ pp_origin_tag e = tag ∧
       peer_parse (pp_peer_id e) ≠ Some p).
Proof.
  intros Hs Hb. split_and!.
  - unfold dial_peer. by rewrite Hs, Hb.
  - intros rest found. cbn [configure_addresses]. by rewrite Hs, Hb.
  - intros tag. unfold walk_origins. rewrite list_elem_of_fmap.
    intros ([q e] & -> & [Hok Hin]%list_elem_of_filter). cbn [snd] in *.
    exists q, e. split; [by apply elem_of_map_to_list|]. split; [done|]. intros Hq.
    rewrite Hq in Hok. cbn [default from_option id] in Hok. by rewrite Hb in Hok.
Qed.

(** ** Counters are not forgotten *)

Lemma penalize_invalid cfg now m s :
  ps_invalid_payload_penalties (penalize cfg now m s).1
  = match m with
    | InvalidPayload_ => wadd 32 (ps_invalid_payload_penalties s) 1
    | _ => ps_invalid_payload_penalties s
    end.
Proof.
  unfold penalize. destruct (reached_ban_threshold _ _); [|destruct (_ <=? _)]; cbn [fst];
    unfold set_timers; cbn [ps_invalid_payload_penalties]; destruct m; cbn;
    by rewrite (proj1 (proj2 (decay_counters _ _ _))).
Qed.

Definition invalid_count (n : P2pTransport) (p : peer) : Z :=
  match nd_peer_scores n !! p with Some s => ps_invalid_payload_penalties s | None => 0 end.

Lemma known_score_invalid now p n :
  ps_invalid_payload_penalties (known_score now p n) = invalid_count n p.
Proof. unfold known_score, invalid_count. by destruct (nd_peer_scores n !! p). Qed.

Lemma reward_invalid cfg s :
  ps_invalid_payload_penalties (reward cfg s) = ps_invalid_payload_penalties s.
Proof. unfold reward. by destruct (_ <? _). Qed.

Lemma reported_invalid now q r n p :
  fits 32 (invalid_count n p) → invalid_count n p + 1 < 2 ^ 32 →
  invalid_count n p <= invalid_count (reported now q r n) p <= invalid_count n p + 1.
Proof.
  intros Hf Hs. destruct (decide (q = p)) as [->|Hne]; cycle 1.
  { assert (nd_peer_scores (reported now q r n) !! p = nd_peer_scores n !! p) as Heq.
    { destruct r; cbn [reported]; [rewrite penalized_scores|]; by apply lookup_insert_ne. }
    unfold invalid_count. rewrite Heq. lia. }
  assert (nd_peer_scores (reported now p r n) !! p = Some (match r with
    | Misbehaved m => (penalize (nd_config n) now m (known_score now p n)).1
    | Succeeded => reward (nd_config n) (known_score now p n) end)) as Heq.
  { destruct r; cbn [reported]; [rewrite penalized_scores|]; apply lookup_insert_eq. }
  unfold invalid_count at 2 3. rewrite Heq. destruct r as [m|].
  - rewrite penalize_invalid, known_score_invalid. destruct m; try lia.
    unfold wadd, wrap. rewrite Z.mod_small; [lia|]. destruct Hf. lia.
  - rewrite reward_invalid, known_score_invalid. lia.
Qed.

Lemma reported_config now q r n : nd_config (reported now q r n) = nd_config n.
Proof. destruct r; [apply penalized_config|done]. Qed.

Lemma run_reports_invalid rs : ∀ n p,
  0 <= invalid_count n p → invalid_count n p + zlen rs < 2 ^ 32 →
  invalid_count n p <= invalid_count (run_reports rs n) p <= invalid_count n p + zlen rs ∧
  nd_config (run_reports rs n) = nd_config n.
Proof.
  unfold zlen. induction rs as [|[[now q] r] rs IH]; intros n p H0 Hl.
  - cbn. split; [lia|done].
  - rewrite run_reports_cons. cbn [fst snd length] in *.
    pose proof (reported_invalid now q r n p ltac:(unfold fits; lia) ltac:(lia)) as Hr.
    destruct (IH (reported now q r n) p ltac:(lia) ltac:(lia)) as [H1 H2].
    rewrite H2, reported_config. split; [lia|done].
Qed.

(** Penalty counters are never forgotten: once a peer has reached the
    threshold of invalid payloads, any later penalty, of any kind and after
    any number of successful interactions and any time, bans it again. *)
Theorem ban_counters_never_forget rs n p now m :
  let n' := run_reports rs n in
  pc_invalid_payload_ban_threshold (nd_config n) <= invalid_count n p →
  0 <= invalid_count n p → invalid_count n p + zlen rs + 1 < 2 ^ 32 →
  0 < pc_peer_ban_duration (nd_config n) →
  is_peer_banned (penalized now p m n') now p = true.
Proof.
  intros n' Hthr H0 Hl Hd. destruct (run_reports_invalid rs n p H0 ltac:(lia)) as [Hc Hcfg].
  unfold is_peer_banned. rewrite penalized_scores, lookup_insert_eq. fold n' in Hc, Hcfg.
  rewrite Hcfg. destruct (penalize _ now m (known_score now p n')) as [s1 b] eqn:Hp. cbn [fst].
  pose proof (penalize_cases _ _ _ _ _ _ Hp) as [_ Ht].
  assert (reached_ban_threshold (nd_config n) s1 = true) as Hr.
  { unfold reached_ban_threshold. apply orb_true_iff. left. apply orb_true_iff. right.
    apply Z.leb_le. pose proof (penalize_invalid (nd_config n) now m (known_score now p n')) as Hi.
    rewrite Hp, known_score_invalid in Hi. cbn [fst] in Hi. rewrite Hi.
    destruct m; try lia. unfold wadd, wrap. rewrite Z.mod_small; lia. }
  rewrite Hr in Ht. injection Ht as -> _. by apply until_after_add.
Qed.

(** ** Restart *)

(** Clock readings and timers far from the end of time. *)
Record clock_ok (ck : Clock) : Prop := {
  ck_ok_now : 0 <= ck_now ck < seconds (2 ^ 61);
  ck_ok_system : 0 <= ck_system ck < seconds (2 ^ 61);
}.

(** The timer [t] before a restart and [t'] after it: what is left of it
    differs from what should be left, given the time [d] that passed on the
    system clock, by less than two seconds. *)
Definition timer_restored (ck ck' : Clock) (t t' : option Z) : Prop :=
  match t, t' with
  | None, None => True
  | Some u, Some u' =>
      let left := Z.max (u - ck_now ck) 0 in
      let d := ck_system ck' - ck_system ck in
      let left' := u' - ck_now ck' in
      0 <= left' ∧ left - d - 2 * second < left' ∧ (left' = 0 ∨ left' < left - d + second)
  | _, _ => False
  end.

Lemma div_second z : second * (z / second) <= z < second * (z / second) + second.
Proof.
  unfold second. pose proof (Z.div_mod z 1000000000 ltac:(lia)).
  pose proof (Z.mod_pos_bound z 1000000000 ltac:(lia)). lia.
Qed.

Lemma timer_restart ck ck' u :
  clock_ok ck → clock_ok ck' → u < seconds (2 ^ 61) →
  ∃ u', unix_seconds_to_instant ck' (instant_to_unix_seconds ck u) = Some u' ∧
        timer_restored ck ck' (Some u) (Some u').
Proof.
  intros [[N1 N2] [S1 S2]] [[M1 M2] [T1 T2]] Hu.
  unfold unix_seconds_to_instant, instant_to_unix_seconds, now_unix, secs_until, timer_restored.
  rewrite (proj2 (Z.ltb_ge _ _) S1), (proj2 (Z.ltb_ge _ _) T1).
  set (left := Z.max (u - ck_now ck) 0). set (a := ck_system ck / second).
  set (b := ck_system ck' / second). set (q := left / second).
  pose proof (div_second (ck_system ck)) as Ha. pose proof (div_second (ck_system ck')) as Hb.
  pose proof (div_second left) as Hq. fold a in Ha. fold b in Hb. fold q in Hq.
  assert (0 <= left < seconds (2 ^ 61)) as Hl by (unfold left, seconds, second in *; lia).
  unfold seconds in *. change (2 ^ 61) with 2305843009213693952 in *.
  assert (0 < second) by (by vm_compute). assert (0 <= a) by nia. assert (0 <= b) by nia.
  assert (0 <= q) by nia. assert (a < 2305843009213693952) by nia.
  assert (q < 2305843009213693952) by nia.
  unfold wadd, wrap. change (2 ^ 64) with 18446744073709551616.
  rewrite Z.mod_small by lia. destruct (Z.leb_spec (a + q) b).
  - exists (ck_now ck'). split; [done|]. nia.
  - unfold instant_add, seconds. change (2 ^ 63) with 9223372036854775808.
    rewrite (proj2 (Z.ltb_lt _ _)) by nia. eexists. split; [done|]. nia.
Qed.

Lemma load_timer_persisted ck ck' t :
  clock_ok ck → clock_ok ck' → (∀ u, t = Some u → u < seconds (2 ^ 61)) →
  ∃ t', load_timer ck' (instant_to_unix_seconds ck <$> t) = Some t' ∧ timer_restored ck ck' t t'.
Proof.
  intros Hc Hc' Ht. destruct t as [u|]; [|by exists None].
  destruct (timer_restart ck ck' u Hc Hc' (Ht u eq_refl)) as (u' & Hu & Hr).
  exists (Some u'). cbn. rewrite Hu. done.
Qed.

(** A score before and after a restart. *)
Record score_restored (ck ck' : Clock) (s s' : PeerScore) : Prop := {
  sres_score : ps_score s' = ps_score s;
  sres_timeouts : ps_timeout_penalties s' = ps_timeout_penalties s;
  sres_invalid : ps_invalid_payload_penalties s' = ps_invalid_payload_penalties s;
  sres_inconsistent : ps_inconsistent_response_penalties s' = ps_inconsistent_response_penalties s;
  sres_probation : timer_restored ck ck' (ps_probation_until s) (ps_probation_until s');
  sres_banned : timer_restored ck ck' (ps_banned_until s) (ps_banned_until s');
}.

Definition timers_ok (s : PeerScore) : Prop :=
  (∀ u, ps_probation_until s = Some u → u < seconds (2 ^ 61)) ∧
  (∀ u, ps_banned_until s = Some u → u < seconds (2 ^ 61)).

Lemma load_persisted_score ck ck' p s :
  clock_ok ck → clock_ok ck' → timers_ok s →
  ∃ s', load_peer_score ck' (persist_peer_score ck p s) = Some s' ∧ score_restored ck ck' s s'.
Proof.
  intros Hc Hc' [Hp Hb]. unfold load_peer_score, persist_peer_score. cbn [pr_probation_until pr_banned_until].
  destruct (load_timer_persisted ck ck' _ Hc Hc' Hp) as (tp & -> & Htp).
  destruct (load_timer_persisted ck ck' _ Hc Hc' Hb) as (tb & -> & Htb).
  eexists. split; [done|]. by split.
Qed.

(** *** Rebuilding the maps *)

Lemma insert_peers_none l : ∀ st p,
  (∀ e, e ∈ l → peer_parse (pp_peer_id e) ≠ Some p) → insert_peers l st !! p = st !! p.
Proof.
  induction l as [|e l IH]; intros st p Hl; [done|]. cbn.
  change (fold_left _ l ?x) with (insert_peers l x). rewrite IH.
  - pose proof (Hl e ltac:(left)) as He. destruct (peer_parse _) as [q|]; [|done].
    apply lookup_insert_ne. congruence.
  - intros e' He'. apply Hl. by right.
Qed.

Lemma insert_peers_some l : ∀ st p e,
  e ∈ l → peer_parse (pp_peer_id e) = Some p →
  (∀ e', e' ∈ l → peer_parse (pp_peer_id e') = Some p → e' = e) →
  insert_peers l st !! p = Some e.
Proof.
  induction l as [|x l IH]; intros st p e Hin Hp Hu; [by apply not_elem_of_nil in Hin|]. cbn.
  change (fold_left _ l ?x) with (insert_peers l x). destruct (decide (e ∈ l)) as [Hl|Hl].
  - apply IH; [done..|]. intros e' He'. apply Hu. by right.
  - apply elem_of_cons in Hin as [<-|]; [|done]. rewrite Hp, insert_peers_none; [apply lookup_insert_eq|].
    intros e' He' Hp'. apply Hl. rewrite <- (Hu e'); [done|by right|done].
Qed.

Lemma insert_scores_none ck l : ∀ sc sc' p,
  insert_scores ck l sc = Some sc' →
  (∀ r, r ∈ l → peer_parse (pr_peer_id r) ≠ Some p) → sc' !! p = sc !! p.
Proof.
  induction l as [|r l IH]; intros sc sc' p Hi Hl; cbn in Hi; [congruence|].
  assert (∀ r', r' ∈ l → peer_parse (pr_peer_id r') ≠ Some p) as Hl' by (intros; apply Hl; by right).
  pose proof (Hl r ltac:(left)) as Hr. destruct (peer_parse _) as [q|]; [|by eapply IH].
  destruct (load_peer_score ck r) as [s|]; [|done]. cbn in Hi.
  rewrite (IH _ _ _ Hi Hl'). apply lookup_insert_ne. congruence.
Qed.

Lemma insert_scores_some ck l : ∀ sc sc' p r,
  insert_scores ck l sc = Some sc' → r ∈ l → peer_parse (pr_peer_id r) = Some p →
  (∀ r', r' ∈ l → peer_parse (pr_peer_id r') = Some p → r' = r) →
  sc' !! p = load_peer_score ck r.
Proof.
  induction l as [|x l IH]; intros sc sc' p r Hi Hin Hp Hu; [by apply not_elem_of_nil in Hin|].
  cbn in Hi. destruct (decide (r ∈ l)) as [Hl|Hl].
  - assert (∀ r', r' ∈ l → peer_parse (pr_peer_id r') = Some p → r' = r) as Hu'
      by (intros; apply Hu; [by right|done]).
    destruct (peer_parse (pr_peer_id x)); [|by eapply IH].
    destruct (load_peer_score ck x); [|done]. by eapply IH.
  - apply elem_of_cons in Hin as [<-|]; [|done]. rewrite Hp in Hi.
    destruct (load_peer_score ck r) as [s|]; [|done]. cbn in Hi.
    rewrite (insert_scores_none _ _ _ _ _ Hi); [apply lookup_insert_eq|].
    intros r' Hr' Hp'. apply Hl. rewrite <- (Hu r'); [done|by right|done].
Qed.

Lemma insert_scores_total ck l : ∀ sc,
  (∀ r, r ∈ l → is_Some (load_peer_score ck r)) → is_Some (insert_scores ck l sc).
Proof.
  induction l as [|r l IH]; intros sc Hl; [done|]. cbn.
  assert (∀ r', r' ∈ l → is_Some (load_peer_score ck r')) as Hl' by (intros; apply Hl; by right).
  destruct (peer_parse _); [|by apply IH]. destruct (Hl r ltac:(left)) as [s ->]. cbn. by apply IH.
Qed.

(** *** The snapshot of a node *)

(** Peer identifiers are read back from their text. *)
Class PeerIdLaws : Prop := peer_parse_to_string : ∀ p, peer_parse (peer_to_string p) = Some p.

Definition canonical_peer (e : PersistedPeer) : PersistedPeer :=
  mkPersistedPeer (pp_peer_id e) (sort_dedup (pp_addresses e)) (pp_last_seen e) (pp_origin_tag e).

(** Entries carry the identifier they are stored under, and timers are far from
    the end of time. *)
Record node_ok (n : P2pTransport) : Prop := {
  nk_store : ∀ p e, nd_peer_store n !! p = Some e → pp_peer_id e = peer_to_string p;
  nk_timers : ∀ p s, nd_peer_scores n !! p = Some s → timers_ok s;
}.

Lemma snapshot_peers ck n e :
  e ∈ bs_known_peers (canonical_snapshot (snapshot_of ck n)) ↔
  ∃ p e0, nd_peer_store n !! p = Some e0 ∧ e = canonical_peer e0.
Proof.
  cbn [canonical_snapshot snapshot_of bs_known_peers]. rewrite list_elem_of_fmap. split.
  - intros (e0 & -> & He). rewrite sort_by_Permutation, list_elem_of_fmap in He.
    destruct He as ([p e1] & -> & He%elem_of_map_to_list). by exists p, e1.
  - intros (p & e0 & He & ->). exists e0. split; [done|].
    rewrite sort_by_Permutation, list_elem_of_fmap. exists (p, e0).
    split; [done|]. by apply elem_of_map_to_list.
Qed.

Lemma snapshot_scores ck n r :
  r ∈ bs_peer_reputation (canonical_snapshot (snapshot_of ck n)) ↔
  ∃ p s, nd_peer_scores n !! p = Some s ∧ r = persist_peer_score ck p s.
Proof.
  cbn [canonical_snapshot snapshot_of bs_peer_reputation].
  rewrite sort_by_Permutation, list_elem_of_fmap. split.
  - intros ([p s] & -> & He%elem_of_map_to_list). by exists p, s.
  - intros (p & s & He & ->). exists (p, s). split; [done|]. by apply elem_of_map_to_list.
Qed.

Lemma restored_store `{!PeerIdLaws} ck n p :
  node_ok n →
  insert_peers (bs_known_peers (canonical_snapshot (snapshot_of ck n))) ∅ !! p
  = canonical_peer <$> nd_peer_store n !! p.
Proof.
  intros Hn. assert (∀ e q, e ∈ bs_known_peers (canonical_snapshot (snapshot_of ck n)) →
    peer_parse (pp_peer_id e) = Some q → ∃ e0, nd_peer_store n !! q = Some e0 ∧ e = canonical_peer e0)
    as Hin.
  { intros e q (q' & e0 & He & ->)%snapshot_peers Hp. cbn in Hp.
    rewrite (nk_store n Hn _ _ He), peer_parse_to_string in Hp. injection Hp as <-. by exists e0. }
  destruct (nd_peer_store n !! p) as [e0|] eqn:He; cbn [fmap option_fmap option_map].
  - apply insert_peers_some.
    + apply snapshot_peers. by exists p, e0.
    + cbn. by rewrite (nk_store n Hn _ _ He), peer_parse_to_string.
    + intros e' He' Hp. destruct (Hin e' p He' Hp) as (e1 & ? & ->). congruence.
  - rewrite insert_peers_none; [apply lookup_empty|]. intros e He' Hp.
    destruct (Hin e p He' Hp) as (e1 & ? & _). congruence.
Qed.

Lemma restored_scores `{!PeerIdLaws} ck ck' n :
  node_ok n → clock_ok ck → clock_ok ck' →
  ∃ sc, insert_scores ck' (bs_peer_reputation (canonical_snapshot (snapshot_of ck n))) ∅ = Some sc ∧
    ∀ p, option_Forall2 (score_restored ck ck') (nd_peer_scores n !! p) (sc !! p).
Proof.
  intros Hn Hc Hc'. set (l := bs_peer_reputation _).
  assert (∀ r q, r ∈ l → peer_parse (pr_peer_id r) = Some q →
    ∃ s, nd_peer_scores n !! q = Some s ∧ r = persist_peer_score ck q s) as Hin.
  { intros r q (q' & s & Hs & ->)%snapshot_scores Hp. cbn in Hp.
    rewrite peer_parse_to_string in Hp. injection Hp as <-. by exists s. }
  destruct (insert_scores_total ck' l ∅) as [sc Hsc].
  { intros r (q & s & Hs & ->)%snapshot_scores.
    destruct (load_persisted_score ck ck' q s Hc Hc' (nk_timers n Hn q s Hs)) as (s' & Hl & _). by exists s'. }
  exists sc. split; [done|]. intros p. destruct (nd_peer_scores n !! p) as [s|] eqn:Hs.
  - destruct (load_persisted_score ck ck' p s Hc Hc' (nk_timers n Hn p s Hs)) as (s' & Hl & Hr).
    rewrite (insert_scores_some _ _ _ _ p (persist_peer_score ck p s) Hsc).
    + rewrite Hl. by constructor.
    + apply snapshot_scores. by exists p, s.
    + apply peer_parse_to_string.
    + intros r' Hr' Hp. destruct (Hin r' p Hr' Hp) as (s1 & ? & ->). congruence.
  - rewrite (insert_scores_none _ _ _ _ p Hsc), lookup_empty; [constructor|].
    intros r Hr Hp. destruct (Hin r p Hr Hp) as (s & ? & _). congruence.
Qed.

Lemma restored_index_keys ck n :
  list_to_set (bs_index_keys (canonical_snapshot (snapshot_of ck n))) = nd_known_index_keys n.
Proof.
  cbn [canonical_snapshot snapshot_of bs_index_keys]. apply set_eq. intros k.
  unfold sort_dedup. by rewrite elem_of_list_to_set, elem_of_dedup, sort_by_Permutation, elem_of_elements.
Qed.

(** C11: a restart keeps what the node knew: a fresh node that loads the
    snapshot the old one wrote has the same index keys, the same manifests,
    the same peers with their addresses sorted, and for the same peers the
    same scores and counters; a ban or a probation has left what it should
    have, give or take less than two seconds, and ends at once if its time is
    over. *)
Theorem restart_keeps_state `{!PeerIdLaws} `{!SnapshotJsonLaws} ck ck' n n0 path name b o :
  node_ok n → clock_ok ck → clock_ok ck' →
  pc_persistence_path (nd_config n) = Some path → pc_persistence_path (nd_config n0) = Some path →
  file_name path = Some name → encode_bootstrap_snapshot (snapshot_of ck n) = Ok b →
  nd_peer_store n0 = ∅ → nd_peer_scores n0 = ∅ →
  let o1 := (run_io (persist_state ck n) o).1 in
  ∃ n', run_io (load_persisted_state ck' n0) o1 = (o1, Some (n', Ok tt)) ∧
    nd_known_index_keys n' = nd_known_index_keys n ∧
    nd_known_manifests n' ≡ₚ nd_known_manifests n ∧
    (∀ p, nd_peer_store n' !! p = canonical_peer <$> nd_peer_store n !! p) ∧
    (∀ p, option_Forall2 (score_restored ck ck') (nd_peer_scores n !! p) (nd_peer_scores n' !! p)) ∧
    sr_load_state (nd_recovery_status n') = Loaded.
Proof.
  intros Hn Hc Hc' Hp Hp0 Hname Hb Hst Hsc o1.
  destruct (restored_scores ck ck' n Hn Hc Hc') as (sc & Hi & Hsc').
  assert (os_files o1 !! path = Some b) as Hfile.
  { unfold o1, persist_state. rewrite Hp, (run_write_snapshot path name _ b o Hname Hb).
    cbn. apply lookup_insert_eq. }
  unfold load_persisted_state. rewrite Hp0. cbn [run_io]. rewrite Hfile.
  rewrite bool_decide_eq_true_2 by done. cbn [negb]. rewrite run_io_bind.
  assert (run_io (read_bootstrap_snapshot path) o1 = (o1, Ok (canonical_snapshot (snapshot_of ck n)))) as ->.
  { pose proof (snapshot_at_new o1 path _ b Hb Hfile) as Hat. unfold snapshot_at in Hat.
    by rewrite <- Hat. }
  cbn [run_io]. unfold restore_snapshot. cbn [nd_peer_scores nd_peer_store set_peer_store set_known
    set_recovery_status]. rewrite Hsc, Hst, Hi. cbn [mbind option_bind].
  eexists. split; [done|]. cbn [nd_known_index_keys nd_known_manifests nd_peer_store nd_peer_scores
    nd_recovery_status sr_load_state set_peer_scores set_peer_store set_known set_recovery_status].
  split_and!.
  - apply (restored_index_keys ck n).
  - apply sort_by_Permutation.
  - intros p. by apply restored_store.
  - done.
  - done.
Qed.

(** ** Snapshots that cannot be used *)

Lemma rsplit_dot_eq name b a :
  rsplit_dot name = Some (b, a) → name = b +:+ String "." a ∧ rsplit_dot a = None.
Proof.
  revert b a. induction name as [|c name IH]; intros b a; cbn; [done|].
  destruct (rsplit_dot name) as [[b' a']|] eqn:Hr.
  - intros [= <- <-]. destruct (IH b' a' eq_refl) as [-> Ha]. done.
  - case_decide as Hc; [|done]. intros [= <- <-]. by subst.
Qed.

Lemma rsplit_dot_cons c s : c = "."%char ∨ rsplit_dot s ≠ None → rsplit_dot (String c s) ≠ None.
Proof.
  intros Hc. cbn [rsplit_dot]. destruct (rsplit_dot s) as [[b a]|]; [discriminate|].
  destruct Hc as [Hc|Hc]; [|by destruct Hc]. rewrite decide_True by exact Hc. discriminate.
Qed.

Lemma rsplit_dot_app s t : rsplit_dot (s +:+ String "." t) ≠ None.
Proof.
  induction s as [|c s IH]; [apply rsplit_dot_cons; by left|].
  apply (rsplit_dot_cons c (s +:+ String "." t)). by right.
Qed.

Fixpoint last_char (s : string) : option ascii :=
  match s with
  | EmptyString => None
  | String c EmptyString => Some c
  | String _ r => last_char r
  end.

Lemma last_char_cons c s : s ≠ "" → last_char (String c s) = last_char s.
Proof. by destruct s. Qed.

Lemma last_char_app a b : b ≠ "" → last_char (a +:+ b) = last_char b.
Proof.
  intros Hb. induction a as [|c a IH]; [done|].
  change (String c a +:+ b) with (String c (a +:+ b)). rewrite last_char_cons; [done|].
  by destruct a.
Qed.

Definition quarantine_ext (ck : Clock) : string := "corrupt-" +:+ show_Z (now_unix ck) +:+ ".json".

Lemma quarantine_ext_dot ck : rsplit_dot (quarantine_ext ck) ≠ None.
Proof.
  unfold quarantine_ext. do 8 (apply (rsplit_dot_cons _ _); right). apply rsplit_dot_app.
Qed.

Lemma string_app_inv_head (a b c : string) : a +:+ b = a +:+ c → b = c.
Proof. induction a as [|x a IH]; cbn; [done|]. intros [= H]. auto. Qed.

Lemma show_json_nonempty s : s +:+ ".json" ≠ "".
Proof. by destruct s. Qed.

(** The quarantined file is neither the snapshot nor its temporary file. *)
Lemma quarantine_fresh ck path name :
  file_name path = Some name →
  quarantine_path ck path ≠ path ∧ quarantine_path ck path ≠ temp_path path.
Proof.
  intros Hn. unfold quarantine_path, with_extension, temp_path, path_join. rewrite Hn.
  cbn [default from_option id]. fold (quarantine_ext ck). split; intros Heq.
  - rewrite (file_name_path path name Hn) in Heq at 2. apply app_inj_2 in Heq as [_ Heq]; [|done].
    injection Heq as Heq. unfold file_stem in Heq.
    destruct (rsplit_dot name) as [[b a]|] eqn:Hr; [|by apply string_app_nonempty in Heq].
    case_decide; [by apply string_app_nonempty in Heq|].
    destruct (rsplit_dot_eq _ _ _ Hr) as [-> Ha]. apply string_app_inv_head in Heq.
    injection Heq as Heq. rewrite <- Heq in Ha. by apply (quarantine_ext_dot ck).
  - apply app_inj_2 in Heq as [_ Heq]; [|done]. injection Heq as Heq.
    apply (f_equal last_char) in Heq.
    rewrite (last_char_app _ ("." +:+ quarantine_ext ck)), (last_char_app name ".tmp") in Heq by done.
    unfold quarantine_ext in Heq.
    rewrite (last_char_app "." ("corrupt-" +:+ _)), (last_char_app "corrupt-") in Heq
      by (done || apply show_json_nonempty).
    rewrite last_char_app in Heq by done. discriminate Heq.
Qed.

Lemma load_found ck n path data o :
  pc_persistence_path (nd_config n) = Some path → os_files o !! path = Some data →
  run_io (load_persisted_state ck n) o
  = match snapshot_at o path with
    | Ok snapshot =>
        (o, match restore_snapshot ck snapshot n with Some n' => Some (n', Ok tt) | None => None end)
    | Err err =>
        run_io (let* q := quarantine_corrupted_snapshot ck path in
                match q with
                | Err e => Ret (Some (n, Err e))
                | Ok quarantined =>
                    let* w := write_bootstrap_snapshot_atomic path bootstrap_empty in
                    match w with
                    | Err e => Ret (Some (n, Err e))
                    | Ok _ =>
                        Ret (Some (quarantined_node quarantined n,
                          Err (InvalidPayload ("corrupted persisted state detected and quarantined: "
                                 +:+ transport_error_to_string err))))
                    end
                end) o
    end.
Proof.
  intros Hp Hf. unfold load_persisted_state. rewrite Hp. cbn [run_io]. rewrite Hf.
  rewrite bool_decide_eq_true_2 by done. cbn [negb]. rewrite run_io_bind.
  assert (run_io (read_bootstrap_snapshot path) o = (o, snapshot_at o path)) as -> by done.
  by destruct (snapshot_at o path).
Qed.

Lemma snapshot_at_data o path data :
  os_files o !! path = Some data → snapshot_at o path = decode_bootstrap_snapshot data.
Proof.
  intros Hf. unfold snapshot_at, read_bootstrap_snapshot. cbn [run_io snd]. unfold read_result.
  by rewrite Hf.
Qed.

(** A snapshot that does not decode is put aside and replaced: its bytes
    are found under the quarantine name, the snapshot file holds the empty
    snapshot, no other file is touched, the load reports the error and counts
    it, and the next start loads the empty snapshot. *)
Theorem corrupted_snapshot_quarantined `{!SnapshotJsonLaws} ck n path name bad err b0 o :
  pc_persistence_path (nd_config n) = Some path → file_name path = Some name →
  os_files o !! path = Some bad → decode_bootstrap_snapshot bad = Err err →
  encode_bootstrap_snapshot bootstrap_empty = Ok b0 →
  let q := quarantine_path ck path in
  ∃ o', run_io (load_persisted_state ck n) o
      = (o', Some (quarantined_node q n,
          Err (InvalidPayload ("corrupted persisted state detected and quarantined: "
                 +:+ transport_error_to_string err)))) ∧
    os_files o' !! q = Some bad ∧ snapshot_at o' path = Ok bootstrap_empty ∧
    touches_only [path; temp_path path; q] o o' ∧
    ∀ ck' n0, pc_persistence_path (nd_config n0) = Some path →
      ∃ n1, run_io (load_persisted_state ck' n0) o' = (o', Some (n1, Ok tt)) ∧
        sr_load_state (nd_recovery_status n1) = Loaded ∧
        nd_peer_store n1 = nd_peer_store n0 ∧ nd_peer_scores n1 = nd_peer_scores n0.
Proof.
  intros Hp Hname Hf Hdec Hb0 q. destruct (quarantine_fresh ck path name Hname) as [Hq1 Hq2].
  fold q in Hq1, Hq2.
  rewrite (load_found ck n path bad o Hp Hf), (snapshot_at_data _ _ _ Hf), Hdec.
  unfold quarantine_corrupted_snapshot, io_try, sys. cbn [io_bind run_io sys_effect]. rewrite Hf.
  cbn [mbind option_bind map_err]. fold q. set (o1 := set_files _ o). cbn [io_bind].
  rewrite run_io_bind, (run_write_snapshot path name bootstrap_empty b0 o1 Hname Hb0). cbn [run_io].
  set (o2 := set_files _ o1). exists o2.
  assert (os_files o2 !! path = Some b0) as Hf2 by apply lookup_insert_eq.
  assert (snapshot_at o2 path = Ok bootstrap_empty) as Hat by apply (snapshot_at_new o2 path _ b0 Hb0 Hf2).
  split_and!; [done| |done| |].
  - unfold o2. cbn. rewrite lookup_insert_ne, lookup_delete_ne by congruence. apply lookup_insert_eq.
  - split; [|done..]. intros p Hin. rewrite !not_elem_of_cons in Hin. destruct Hin as (? & ? & ? & _).
    unfold o2. cbn. by rewrite lookup_insert_ne, lookup_delete_ne, lookup_insert_ne, lookup_delete_ne
      by congruence.
  - intros ck' n0 Hp0. rewrite (load_found ck' n0 path b0 o2 Hp0 Hf2), Hat. eexists. split; [done|]. done.
Qed.

(** *** Timers in the far future *)

Lemma insert_scores_panics ck l : ∀ sc r p,
  r ∈ l → peer_parse (pr_peer_id r) = Some p → load_peer_score ck r = None →
  insert_scores ck l sc = None.
Proof.
  induction l as [|x l IH]; intros sc r p Hin Hp Hl; [by apply not_elem_of_nil in Hin|]. cbn.
  apply elem_of_cons in Hin as [<-|Hin]; [by rewrite Hp, Hl|].
  destruct (peer_parse (pr_peer_id x)); [|by eapply IH].
  destruct (load_peer_score ck x); [|done]. by eapply IH.
Qed.

(** The instants of a snapshot are not saturated: a snapshot that names a
    ban more than [2^63] seconds ahead, which the file format allows, makes the
    load panic, and leaves the snapshot in place for the next start. *)
Theorem far_ban_panics ck n path data snapshot r p u o :
  pc_persistence_path (nd_config n) = Some path → os_files o !! path = Some data →
  decode_bootstrap_snapshot data = Ok snapshot → r ∈ bs_peer_reputation snapshot →
  peer_parse (pr_peer_id r) = Some p → pr_banned_until r = Some u →
  0 <= ck_now ck → now_unix ck + 2 ^ 63 <= u →
  run_io (load_persisted_state ck n) o = (o, None).
Proof.
  intros Hp Hf Hdec Hr Hparse Hu Hnow Hfar.
  rewrite (load_found ck n path data o Hp Hf), (snapshot_at_data _ _ _ Hf), Hdec.
  unfold restore_snapshot. rewrite (insert_scores_panics ck _ _ r p Hr Hparse); [done|].
  unfold load_peer_score. destruct (load_timer ck (pr_probation_until r)) as [t|]; [|done].
  rewrite Hu. cbn [mbind option_bind load_timer]. unfold unix_seconds_to_instant.
  rewrite (proj2 (Z.leb_gt _ _)) by lia. unfold instant_add, seconds, second.
  rewrite (proj2 (Z.ltb_ge _ _)) by lia. done.
Qed.

(** *** Addresses without a peer *)

Lemma observe_config ck p l tag n : nd_config (observe_peer ck p l tag n) = nd_config n.
Proof. done. Qed.

Lemma configure_fails ck addr e addrs : ∀ found n,
  addr ∈ addrs → split_peer_addr addr = Err e →
  ∃ n' e', configure_addresses ck addrs found n = (n', Err e').
Proof.
  induction addrs as [|a addrs IH]; intros found n Hin He; [by apply not_elem_of_nil in Hin|].
  cbn [configure_addresses]. destruct (split_peer_addr a) as [[p base]|e1] eqn:Ha; [|by eexists _, _].
  apply elem_of_cons in Hin as [->|Hin]; [congruence|].
  destruct (is_peer_banned _ _ _); [by apply IH|].
  destruct (connect_peer p base a n) as [n1 [[]|e1]]; [by apply IH|by eexists _, _].
Qed.

(** One persisted address without a peer identifier keeps the node from
    starting: the start fails and leaves the snapshot as it is, so the next one
    fails as well. *)
Theorem bad_address_blocks_start ck cfg sw sw' path data snapshot n1 addr e o :
  pc_persistence_path cfg = Some path → os_files o !! path = Some data →
  decode_bootstrap_snapshot data = Ok snapshot →
  listen_all sw (pc_listen_addrs cfg) = (sw', Ok tt) →
  restore_snapshot ck snapshot (node_new cfg sw') = Some n1 →
  addr ∈ persisted_bootstrap_addrs n1 → split_peer_addr addr = Err e →
  ∃ e', run_io (p2p_new ck cfg sw) o = (o, Some (Err e')).
Proof.
  intros Hp Hf Hdec Hlisten Hres Hin He. unfold p2p_new. rewrite Hlisten, run_io_bind.
  rewrite (load_found ck (node_new cfg sw') path data o Hp Hf), (snapshot_at_data _ _ _ Hf), Hdec, Hres.
  unfold configure_peers. rewrite run_io_bind.
  destruct (configure_fails ck addr e (pc_peers (nd_config n1) ++ pc_bootstrap_nodes (nd_config n1)
    ++ persisted_bootstrap_addrs n1) [] n1) as (n2 & e' & ->);
    [by rewrite !elem_of_app; auto|done|]. by exists e'.
Qed.

End reports.

(** ** Witnesses *)

Module PeerSamples.

#[export] Instance named_peers : PeerIds :=
  {| peer := string; peer_to_string := λ p, p; peer_parse := Some |}.

#[export] Instance named_peers_laws : PeerIdLaws.
Proof. done. Qed.

Definition bob : @peer named_peers := "bob"%string.

Definition bob_addr : Multiaddr := [Ip4 "10.0.0.2"; P2p bob].
Definition bare_addr : Multiaddr := [Ip4 "10.0.0.3"].

(** A swarm that only records the peers it was told to drop. *)
#[export] Instance recording_swarm : P2pSwarm := {|
  addr_to_string _ := "/ip4/10.0.0.2/p2p/bob"%string;
  addr_parse s :=
    if decide (s = "/ip4/10.0.0.2/p2p/bob"%string) then Some bob_addr
    else if decide (s = "/ip4/10.0.0.3"%string) then Some bare_addr else None;
  swarm := list string;
  sw_local_peer _ := "self"%string;
  sw_connected sw := zlen sw;
  sw_listen_on sw _ := (sw, Ok tt);
  sw_add_address sw _ _ := sw;
  sw_add_explicit_peer sw _ := sw;
  sw_remove_explicit_peer sw _ := sw;
  sw_disconnect sw p := sw ++ [p];
  sw_dial sw _ := (sw, Ok tt);
  sw_bootstrap sw := sw;
|}.

Definition sample_config : P2pNodeConfig :=
  mkP2pNodeConfig [] [] [] (seconds 2) (seconds 5) (seconds 5) (Some FileSamples.snapshot_path)
    (seconds 30) (seconds 20) 4 (-35) (-70) (-25) 2 4.

Definition idle_swarm : @swarm _ recording_swarm := [].

Definition fresh_node : P2pTransport := node_new sample_config idle_swarm.

(** At 100 seconds after the start bob has sent two invalid payloads. *)
Definition sample_clock : Clock := mkClock (seconds 100) (seconds 1700000000).
Definition later_clock : Clock := mkClock (seconds 5) (seconds 1700000010).
Definition two_invalid : list (Z * peer * Report) :=
  [(seconds 100, bob, Misbehaved InvalidPayload_);
   (seconds 100, bob, Misbehaved InvalidPayload_)].

Definition bob_entry : PersistedPeer :=
  mkPersistedPeer "bob" ["/ip4/10.0.0.2/p2p/bob"%string] 1700000000 "ip4".
Definition bob_banned : PeerScore :=
  mkPeerScore (-60) 0 2 0 None (Some (seconds 130)) (seconds 100).

Definition sample_node : P2pTransport :=
  set_peer_scores {[bob := bob_banned]}
    (set_peer_store {[bob := bob_entry]} fresh_node).

Definition sample_snapshot : PersistedBootstrapState := Eval vm_compute in
  canonical_snapshot (snapshot_of sample_clock sample_node).

(** The snapshot whose ban ends with the 64-bit clock, and one with an address
    that names no peer. *)
Definition far_snapshot : PersistedBootstrapState :=
  mkPersistedBootstrapState [] [] [] []
    [mkPersistedPeerReputation "bob" 0 0 0 0 None (Some (2 ^ 64 - 1))].
Definition bare_snapshot : PersistedBootstrapState :=
  mkPersistedBootstrapState [mkPersistedPeer "bob" ["/ip4/10.0.0.3"%string] 0 "ip4"] [] [] [] [].

(** serde_json on the snapshots of the examples. *)
#[export] Instance four_snapshots : SnapshotJson := {|
  snapshot_to_json s :=
    if decide (s = sample_snapshot) then Ok [x31]
    else if decide (s = bootstrap_empty) then Ok [x30] else Err "unknown"%string;
  snapshot_from_json b :=
    if decide (b = [x31]) then Ok sample_snapshot
    else if decide (b = [x30]) then Ok bootstrap_empty
    else if decide (b = [x32]) then Ok far_snapshot
    else if decide (b = [x33]) then Ok bare_snapshot else Err "expected value"%string;
|}.

#[export] Instance four_snapshots_laws : SnapshotJsonLaws.
Proof.
  intros s b. cbn. case_decide as Hk; [intros [= <-]; by subst|].
  case_decide as He; [intros [= <-]; by subst|done].
Qed.

Definition os_with (data : bytes) : Os := mkOs {[FileSamples.snapshot_path := data]} ∅ None.

Lemma sample_node_ok : node_ok sample_node.
Proof.
  split; cbn [nd_peer_store nd_peer_scores sample_node set_peer_scores set_peer_store].
  - by intros p e [<- <-]%lookup_singleton_Some.
  - intros p s [<- <-]%lookup_singleton_Some.
    split; [done|]. intros u [= <-]. by vm_compute.
Qed.

Lemma clocks_ok : clock_ok sample_clock ∧ clock_ok later_clock.
Proof. split; split; by vm_compute. Qed.

End PeerSamples.
Import PeerSamples.

Lemma scores_bounded_witness :
  - (30 * 2) <= peer_score (run_reports two_invalid fresh_node) bob <= 20.
Proof. apply (scores_bounded two_invalid fresh_node bob); by vm_compute. Defined.

Lemma sample_no_wrap : no_wrap (nd_config sample_node) (seconds 100) bob_banned.
Proof. split; vm_compute; try done; split; discriminate || reflexivity. Qed.

Lemma penalty_outcome_witness :
  let n' := penalized (seconds 100) bob InvalidPayload_ sample_node in
  nd_swarm n' = ["bob"%string] ∧
  ∀ t, is_peer_banned n' t bob = true ↔ t < seconds 100 + seconds 30.
Proof.
  destruct (penalty_outcome (seconds 100) bob InvalidPayload_ sample_node sample_no_wrap)
    as (s' & _ & _ & _ & _ & _ & Hout & _).
  rewrite decide_True in Hout by (left; vm_compute; discriminate).
  exact (proj2 Hout).
Defined.

Lemma banned_peer_avoided_witness :
  run_io (dial_peer sample_clock bob_addr sample_node) (os_with [x30])
  = (os_with [x30], (sample_node, Err (Libp2p "peer is temporarily banned"))).
Proof.
  apply (banned_peer_avoided sample_clock sample_node bob [Ip4 "10.0.0.2"] bob_addr
    (os_with [x30])); vm_compute; reflexivity.
Defined.

Lemma ban_counters_never_forget_witness :
  is_peer_banned (penalized (seconds 9000) bob Timeout_
    (run_reports (replicate 50 (seconds 8000, bob, Succeeded)) sample_node))
    (seconds 9000) bob = true.
Proof.
  apply (ban_counters_never_forget (replicate 50 (seconds 8000, bob, Succeeded))
    sample_node bob (seconds 9000) Timeout_); by vm_compute.
Defined.

Lemma restart_keeps_state_witness :
  let o1 := (run_io (persist_state sample_clock sample_node) (os_with [x30])).1 in
  ∃ n', run_io (load_persisted_state later_clock fresh_node) o1 = (o1, Some (n', Ok tt)) ∧
    nd_known_index_keys n' = nd_known_index_keys sample_node ∧
    nd_known_manifests n' ≡ₚ nd_known_manifests sample_node ∧
    (∀ p, nd_peer_store n' !! p = canonical_peer <$> nd_peer_store sample_node !! p) ∧
    (∀ p, option_Forall2 (score_restored sample_clock later_clock)
            (nd_peer_scores sample_node !! p) (nd_peer_scores n' !! p)) ∧
    sr_load_state (nd_recovery_status n') = Loaded.
Proof.
  apply (restart_keeps_state sample_clock later_clock sample_node fresh_node
    FileSamples.snapshot_path "peers.json" [x31] (os_with [x30]) sample_node_ok
    (proj1 clocks_ok) (proj2 clocks_ok)); vm_compute; reflexivity.
Defined.

Lemma corrupted_snapshot_quarantined_witness :
  ∃ o', os_files o' !! quarantine_path sample_clock FileSamples.snapshot_path = Some [x7b] ∧
    snapshot_at o' FileSamples.snapshot_path = Ok bootstrap_empty.
Proof.
  assert (decode_bootstrap_snapshot [x7b] = Err (Serialization "expected value")) as Hd
    by (vm_compute; reflexivity).
  assert (encode_bootstrap_snapshot bootstrap_empty = Ok [x30]) as He by (vm_compute; reflexivity).
  assert (os_files (os_with [x7b]) !! FileSamples.snapshot_path = Some [x7b]) as Hf
    by apply lookup_singleton_eq.
  destruct (corrupted_snapshot_quarantined sample_clock fresh_node FileSamples.snapshot_path
    "peers.json" [x7b] (Serialization "expected value") [x30] (os_with [x7b])
    eq_refl eq_refl Hf Hd He) as (o' & _ & Hq & Hs & _).
  exists o'. split; assumption.
Defined.

Lemma far_ban_panics_witness :
  run_io (load_persisted_state sample_clock fresh_node) (os_with [x32]) = (os_with [x32], None).
Proof.
  apply (far_ban_panics sample_clock fresh_node FileSamples.snapshot_path [x32] far_snapshot
    (mkPersistedPeerReputation "bob" 0 0 0 0 None (Some (2 ^ 64 - 1))) bob
    (2 ^ 64 - 1) (os_with [x32]));
    [reflexivity|reflexivity|reflexivity|left|reflexivity|reflexivity|by vm_compute|by vm_compute].
Defined.

Lemma bad_address_blocks_start_witness :
  ∃ e, run_io (p2p_new sample_clock sample_config idle_swarm) (os_with [x33])
       = (os_with [x33], Some (Err e)).
Proof.
  apply (bad_address_blocks_start sample_clock sample_config idle_swarm idle_swarm FileSamples.snapshot_path [x33]
    bare_snapshot (set_recovery_status (mkSnapshotRecoveryStatus Loaded 1 0 0 0 None)
      (set_peer_store {[bob := mkPersistedPeer "bob" ["/ip4/10.0.0.3"%string] 0 "ip4"]}
         fresh_node)) bare_addr (Libp2p "missing peer id"));
    [reflexivity|reflexivity|reflexivity|reflexivity| | |reflexivity].
  - vm_compute. reflexivity.
  - assert (persisted_bootstrap_addrs (set_recovery_status (mkSnapshotRecoveryStatus Loaded 1 0 0 0 None)
      (set_peer_store {[bob := mkPersistedPeer "bob" ["/ip4/10.0.0.3"%string] 0 "ip4"]}
         fresh_node)) = [bare_addr]) as -> by (vm_compute; reflexivity).
    left.
Defined.
