(* ===== verification/Swarm.v ===== *)
(** * The peer-to-peer node: waiting on the swarm (spex-transport/src/p2p.rs)

    The loops that only drive the swarm, the collection of listen addresses,
    the timeouts that adapt to connectivity, and the address a node advertises.
    As in [Fetch], what the network and the clock deliver is an argument; a loop
    whose list runs out before it is done is still waiting: [None].

    [Duration::mul_f64] is computed in binary64 arithmetic ([SpecFloat]) and
    rounded to the nearest nanosecond, ties to even, as the standard library
    does. *)
From Stdlib Require Import ZArith Lia Floats.SpecFloat.
From stdpp Require Import base list gmap strings numbers.
From S2P Require Import Prelude External Types Core Transport Files Ingest Metrics.
From S2P Require Import Peers.

#[local] Open Scope Z_scope.

(** ** Durations times a float *)

(** [n as f64] *)
Definition f64_of_Z (n : Z) : spec_float := binary_normalize 53 1024 n 0 false.

(** [(secs as f64) + (nanos as f64) / (1e9 as f64)] of a duration in nanoseconds *)
Definition as_secs_f64 (d : Z) : spec_float :=
  SFadd 53 1024 (f64_of_Z (d / second))
    (SFdiv 53 1024 (f64_of_Z (d mod second)) (f64_of_Z second)).

(** [a / b] to the nearest integer, ties to even. *)
Definition div_even (a b : Z) : Z :=
  let q := a / b in
  let r := a mod b in
  if 2 * r <? b then q
  else if b <? 2 * r then q + 1
  else if Z.even q then q else q + 1.

(** [Duration::from_secs_f64] in nanoseconds; [None] is its panic on a negative,
    infinite, undefined or too large number. *)
Definition from_secs_f64 (f : spec_float) : option Z :=
  match f with
  | S754_zero _ => Some 0
  | S754_finite false m e =>
      let n := if 0 <=? e then Zpos m * second * 2 ^ e
               else div_even (Zpos m * second) (2 ^ (- e)) in
      if n <? seconds (2 ^ 64) then Some n else None
  | _ => None
  end.

Definition mul_f64 (d : Z) (f : spec_float) : option Z :=
  from_secs_f64 (SFmul 53 1024 f (as_secs_f64 d)).

(** The literals [0.65] and [0.8]. *)
Definition f64_0_65 : spec_float := S754_finite false 5854679515581645 (-53).
Definition f64_0_8 : spec_float := S754_finite false 7205759403792794 (-53).

Definition tuned_timeout (base connected_peers : Z) : option Z :=
  if 4 <=? connected_peers then (λ d, Z.max d (millis 600)) <$> mul_f64 base f64_0_65
  else if 2 <=? connected_peers then (λ d, Z.max d (millis 800)) <$> mul_f64 base f64_0_8
  else Some base.

(** ** Events of the swarm *)

(** The events of the combined behaviour; identify events lose their content. *)
Inductive SpexBehaviourEvent (K G : Type) : Type :=
| EvKademlia (e : K)
| EvGossipsub (e : G)
| EvIdentify.
Arguments EvKademlia {K G} e.
Arguments EvGossipsub {K G} e.
Arguments EvIdentify {K G}.

Definition event_from_kademlia {K G} (e : K) : SpexBehaviourEvent K G := EvKademlia e.
Definition event_from_gossipsub {K G} (e : G) : SpexBehaviourEvent K G := EvGossipsub e.
Definition event_from_identify {K G I} (e : I) : SpexBehaviourEvent K G := EvIdentify.

(** What [tokio::select!] picks: the deadline, or the next event. *)
Inductive Pick (E : Type) : Type :=
| PickDeadline
| PickEvent (e : E).
Arguments PickDeadline {E}.
Arguments PickEvent {E} e.

(** [drive_swarm]: the handler's state after the events before the deadline. *)
Fixpoint drive_swarm {E S} (handler : E → S → S) (picks : list (Pick E)) (st : S) : option S :=
  match picks with
  | [] => None
  | PickDeadline :: _ => Some st
  | PickEvent e :: rest => drive_swarm handler rest (handler e st)
  end.

(** [drive_for]: events are ignored. *)
Definition drive_for {E} (picks : list (Pick E)) : option unit := drive_swarm (λ _ st, st) picks tt.

Section node.
Context `{HX : Hex} `{NW : Network} `{PI : PeerIds} `{LP : !P2pSwarm}.

Definition inbox_gossip_topic (hashed_key : bytes) : string :=
  "spex/transport/" +:+ hex_encode hashed_key.

(** [connected_peer_count() as u32] keeps the low 32 bits. *)
Definition tuned_timeouts (n : P2pTransport) : option (Z * Z * Z) :=
  let connected := wrap 32 (sw_connected (nd_swarm n)) in
  publish ← tuned_timeout (pc_publish_wait (nd_config n)) connected;
  query ← tuned_timeout (pc_query_timeout (nd_config n)) connected;
  manifest ← tuned_timeout (pc_manifest_wait (nd_config n)) connected;
  Some (publish, query, manifest).

Definition local_peer_multiaddr (n : P2pTransport) (base : Multiaddr) : Multiaddr :=
  base ++ [P2p (sw_local_peer (nd_swarm n))].

(** An event of the swarm as [collect_listen_addrs] sees it, with the clock
    when the loop condition was tested before it. *)
Inductive ListenEvent : Type :=
| NewListenAddr (address : Multiaddr)
| OtherSwarmEvent.

Fixpoint listen_loop (configured : nat) (deadline : Z) (events : list (Z * ListenEvent))
    (addrs : list Multiaddr) : option (list Multiaddr) :=
  match events with
  | [] => None
  | (tested, e) :: rest =>
      if tested <? deadline then
        match e with
        | NewListenAddr address =>
            let addrs := addrs ++ [address] in
            if (configured <=? length addrs)%nat then Some addrs
            else listen_loop configured deadline rest addrs
        | OtherSwarmEvent => listen_loop configured deadline rest addrs
        end
      else Some addrs
  end.

(** [collect_listen_addrs]: the listen addresses afterwards, given those known
    and the instant it starts. *)
Definition collect_listen_addrs (n : P2pTransport) (started : Z) (events : list (Z * ListenEvent))
    (listen_addrs : list Multiaddr) : option (list Multiaddr) :=
  if negb (length listen_addrs =? 0)%nat then Some listen_addrs
  else listen_loop (length (pc_listen_addrs (nd_config n))) (started + seconds 2) events
         listen_addrs.

(** [publish_chunks] of the node: the records are stored, then the swarm is
    driven for the publish wait. *)
Definition node_publish_chunks {E} (config : TransportConfig) (chunks : list Chunk)
    (picks : list (Pick E)) (k : kad) (n : P2pTransport)
    : option (kad * result TransportError unit) :=
  _ ← tuned_timeouts n;
  _ ← drive_for picks;
  Some (publish_chunks k config chunks, Ok tt).

(** ** Properties *)

Definition listen_addrs_of (events : list (Z * ListenEvent)) : list Multiaddr :=
  omap (λ te, match te.2 with NewListenAddr a => Some a | OtherSwarmEvent => None end) events.

Lemma listen_loop_spec configured deadline events addrs r :
  listen_loop configured deadline events addrs = Some r →
  ∃ seen rest, events = seen ++ rest ∧ r = addrs ++ listen_addrs_of seen ∧
    Forall (λ te, te.1 < deadline) seen ∧
    ((∃ last, listen_addrs_of seen = last ∧ (configured <= length r)%nat ∧ last ≠ []) ∨
     (∃ te more, rest = te :: more ∧ deadline <= te.1)).
Proof.
  revert addrs. induction events as [|[t e] events IH]; intros addrs; [done|]. cbn [listen_loop].
  destruct (Z.ltb_spec t deadline) as [Ht|Ht].
  2:{ intros [= <-]. exists [], ((t, e) :: events). cbn. rewrite app_nil_r.
      split_and!; [done..|]. right. by exists (t, e), events. }
  destruct e as [a|].
  - destruct (Nat.leb_spec configured (length (addrs ++ [a]))) as [Hl|Hl].
    + intros [= <-]. exists [(t, NewListenAddr a)], events. cbn.
      split_and!; [done..|by repeat constructor|]. left. by eexists.
    + intros (seen & rest & -> & -> & Hs & Hd)%IH. exists ((t, NewListenAddr a) :: seen), rest.
      cbn. rewrite <-(assoc_L (++)). split_and!; [done..|by constructor|].
      destruct Hd as [(l & <- & Hl' & _)|Hd]; [|by right]. left. eexists. split_and!; [done| |done].
      by rewrite <-(assoc_L (++)) in Hl'.
  - intros (seen & rest & -> & -> & Hs & Hd)%IH. exists ((t, OtherSwarmEvent) :: seen), rest.
    cbn. split_and!; [done..|by constructor|done].
Qed.

Lemma split_at_peer_plain base p more acc :
  Forall (λ q, ∀ x, q ≠ P2p x) base →
  split_at_peer (base ++ P2p p :: more) acc = (Some p, acc ++ base).
Proof.
  intros Hb. revert acc. induction Hb as [|q base Hq _ IH]; intros acc; cbn.
  - by rewrite app_nil_r.
  - destruct q; try (by rewrite IH, <-(assoc_L (++))). by destruct (Hq p0).
Qed.

(** The address a node advertises splits into its peer and the base address,
    which is what another node dials. *)
Theorem advertised_address_dialable n base :
  Forall (λ q, ∀ x, q ≠ P2p x) base →
  split_peer_addr (local_peer_multiaddr n base) = Ok (sw_local_peer (nd_swarm n), base).
Proof.
  intros Hb. unfold split_peer_addr, local_peer_multiaddr. by rewrite split_at_peer_plain.
Qed.

(** Collecting listen addresses yields the addresses announced, in their order,
    until as many as configured are there; the deadline is only noticed when a
    further event arrives, so that a silent network leaves the node waiting. *)
Theorem listen_addresses_collected n started events r :
  collect_listen_addrs n started events [] = Some r →
  ∃ seen rest, events = seen ++ rest ∧ r = listen_addrs_of seen ∧
    Forall (λ te, te.1 < started + seconds 2) seen ∧
    ((length (pc_listen_addrs (nd_config n)) <= length r)%nat ∨
     ∃ te more, rest = te :: more ∧ started + seconds 2 <= te.1).
Proof.
  unfold collect_listen_addrs. cbn [length Nat.eqb negb].
  intros (seen & rest & -> & -> & Hs & Hd)%listen_loop_spec. exists seen, rest.
  split_and!; [done..|]. destruct Hd as [(l & _ & Hl & _)|Hd]; [by left|by right].
Qed.

End node.

(** ** Timeouts of the built-in profiles *)

(** A percentage of a duration in whole nanoseconds. *)
Definition percent (p d : Z) : Z := d * p / 100.

Definition percent_exact (k : Z) : bool :=
  bool_decide (mul_f64 (seconds k) f64_0_65 = Some (percent 65 (seconds k))) &&
  bool_decide (mul_f64 (seconds k) f64_0_8 = Some (percent 80 (seconds k))).

(** The rounded products are exact on whole seconds up to a minute. *)
Lemma percent_exact_minute : forallb percent_exact (seqZ 0 61) = true.
Proof. vm_compute. reflexivity. Qed.

(** For durations of whole seconds up to a minute, and so for the timeouts of the
    built-in profiles, the floating-point tuning is the integer percentage: all of
    it below two connected peers, 80 percent but at least 0.8 s with two or three,
    65 percent but at least 0.6 s from four on. *)
Theorem tuned_timeout_percent k connected :
  0 <= k <= 60 →
  tuned_timeout (seconds k) connected
  = Some (if 4 <=? connected then Z.max (percent 65 (seconds k)) (millis 600)
          else if 2 <=? connected then Z.max (percent 80 (seconds k)) (millis 800)
          else seconds k).
Proof.
  intros Hk. assert (In k (seqZ 0 61)) as Hin by (apply list_elem_of_In, elem_of_seqZ; lia).
  pose proof (proj1 (forallb_forall _ _) percent_exact_minute k Hin) as He.
  apply andb_prop in He as [H1 H2]. apply bool_decide_eq_true in H1, H2.
  unfold tuned_timeout. rewrite H1, H2. by destruct (4 <=? connected), (2 <=? connected).
Qed.

Lemma tuned_timeout_percent_witness : tuned_timeout (seconds 5) 4 = Some (millis 3250).
Proof. apply (tuned_timeout_percent 5 4). lia. Defined.
