(* ===== verification/Fetch.v ===== *)
(** * The peer-to-peer node: fetching and publishing (spex-transport/src/p2p.rs)

    The loops that wait for the network: fetching the chunks of a manifest from
    the DHT, announcing a manifest to inbox topics, and recovering the payloads
    announced on a topic.  What the network and the clock deliver is an
    argument: the list of events in the order they arrive, each with the clock
    readings the loop makes around it ([Tick]), and the answers of gossipsub.
    A loop whose list runs out before it is done is still waiting: [None].

    The delays between retries only move the clock, so they are kept up to
    their jitter ([capped_delay]) and the deadlines are arguments.

    The theorems are in [FetchFacts]. *)
From Stdlib Require Import ZArith Lia Ascii Strings.Byte.
From stdpp Require Import base list gmap strings sorting numbers.
From S2P Require Import Prelude External Cbor CborFacts Types Core Transport Files Ingest Metrics.
From S2P Require Import Peers.

#[local] Open Scope Z_scope.

(** ** Retry policy *)

Record AdaptiveRetryConfig := mkAdaptiveRetryConfig {
  ar_base_delay : Z;
  ar_max_delay : Z;
  ar_max_retries : Z;
}.

Definition adaptive_retry `{PeerIds} (cfg : P2pNodeConfig) : AdaptiveRetryConfig :=
  mkAdaptiveRetryConfig (millis 150)
    (Z.min (Z.max (pc_publish_wait cfg) (pc_query_timeout cfg)) (seconds 2)) 6.

(** The delay of an attempt before jitter; a [Duration] holds at most 2^64
    seconds less a nanosecond. *)
Definition capped_delay (retry : AdaptiveRetryConfig) (attempt : Z) : Z :=
  let exponent := Z.min (2 ^ Z.min attempt 20) (umax 32) in
  Z.min (ar_max_delay retry) (Z.min (ar_base_delay retry * exponent) (seconds (2 ^ 64) - 1)).

(** ** Events *)

Inductive QueryResult : Type :=
| GetRecord (r : GetRecordOk)
| GetRecordFailed
| OtherQuery.

Inductive SwarmEvent : Type :=
| OutboundQueryProgressed (id : Z) (result : QueryResult)
| OtherEvent.

(** An event, with the clock when the loop condition was tested before it and
    when the event was handled. *)
Record Tick := mkTick { tk_tested : Z; tk_event : SwarmEvent; tk_handled : Z }.

Section fetch.
Context `{SH : Sha256} `{HX : Hex} `{NW : Network}.

Definition extract_records (r : GetRecordOk) (expected : gset bytes) (hash_id : HashId)
    : gmap bytes bytes :=
  match r with
  | FoundRecord hash value =>
      if decide (hash ∈ expected) then
        if decide (hash_bytes hash_id value = hash) then {[hash := value]} else ∅
      else ∅
  | FinishedWithNoAdditionalRecord => ∅
  end.

Record FetchState := mkFetchState {
  fs_kad : kad;
  fs_pending : gmap Z bytes;
  fs_store : gmap bytes bytes;
  fs_retries : gmap bytes Z;
  fs_metrics : P2pMetricsSnapshot;
}.

Definition expected_hashes (manifest : ChunkManifest) : gset bytes :=
  list_to_set (map cd_hash (cm_chunks manifest)).

(** One query per descriptor. *)
Definition start_query (kp : kad * gmap Z bytes) (d : ChunkDescriptor) : kad * gmap Z bytes :=
  let '(k, id) := kad_get_record kp.1 (cd_hash d) in (k, <[id := cd_hash d]> kp.2).

Definition fetch_init (k : kad) (m : P2pMetricsSnapshot) (manifest : ChunkManifest) : FetchState :=
  let '(k, pending) := fold_left start_query (cm_chunks manifest) (k, ∅) in
  mkFetchState k pending ∅ ∅ (record_attempt "query" m).

(** A query that ended without a record is asked again, up to [max_retries]
    times per chunk. *)
Definition retry_query (max_retries id : Z) (st : FetchState) : FetchState :=
  match fs_pending st !! id with
  | None => st
  | Some hash =>
      let attempt := default 0 (fs_retries st !! hash) in
      if attempt <? max_retries then
        let '(k, new_id) := kad_get_record (fs_kad st) hash in
        mkFetchState k (<[new_id := hash]> (fs_pending st)) (fs_store st)
          (<[hash := attempt + 1]> (fs_retries st)) (record_retry "query" (fs_metrics st))
      else
        mkFetchState (fs_kad st) (fs_pending st) (fs_store st)
          (<[hash := attempt]> (fs_retries st)) (fs_metrics st)
  end.

Definition drop_query (id : Z) (st : FetchState) : FetchState :=
  mkFetchState (fs_kad st) (delete id (fs_pending st)) (fs_store st) (fs_retries st)
    (fs_metrics st).

Definition add_records (records : gmap bytes bytes) (st : FetchState) : FetchState :=
  mkFetchState (fs_kad st) (fs_pending st) (records ∪ fs_store st) (fs_retries st)
    (fs_metrics st).

Definition fetch_event (expected : gset bytes) (hash_id : HashId) (max_retries deadline : Z)
    (t : Tick) (st : FetchState) : FetchState :=
  match tk_event t with
  | OtherEvent => st
  | OutboundQueryProgressed id result =>
      drop_query id
        (match result with
         | GetRecord (FoundRecord key value) =>
             add_records (extract_records (FoundRecord key value) expected hash_id) st
         | GetRecord FinishedWithNoAdditionalRecord =>
             if tk_handled t <? deadline then retry_query max_retries id st else st
         | _ => st
         end)
  end.

Fixpoint fetch_loop (expected : gset bytes) (hash_id : HashId) (max_retries deadline : Z)
    (ticks : list Tick) (st : FetchState) : option FetchState :=
  if decide (fs_pending st = ∅) then Some st
  else
    match ticks with
    | [] => None
    | t :: ticks' =>
        if tk_tested t <? deadline
        then fetch_loop expected hash_id max_retries deadline ticks'
               (fetch_event expected hash_id max_retries deadline t st)
        else Some st
    end.

(** [elapsed] is the latency the success is recorded with. *)
Definition fetch_finish (elapsed : Z) (st : FetchState)
    : kad * P2pMetricsSnapshot * result TransportError (gmap bytes bytes) :=
  if decide (fs_pending st = ∅)
  then (fs_kad st, record_success "query" elapsed (fs_metrics st), Ok (fs_store st))
  else (fs_kad st, record_timeout "query" (fs_metrics st),
        Err (Libp2p "timed out waiting for DHT records")).

Definition fetch_manifest_chunks (config : TransportConfig) (max_retries deadline elapsed : Z)
    (ticks : list Tick) (manifest : ChunkManifest) (k : kad) (m : P2pMetricsSnapshot)
    : option (kad * P2pMetricsSnapshot * result TransportError (gmap bytes bytes)) :=
  st ← fetch_loop (expected_hashes manifest) (cc_hash_id (tc_chunking config)) max_retries
         deadline ticks (fetch_init k m manifest);
  Some (fetch_finish elapsed st).

Definition recover_payload_from_manifest (config : TransportConfig)
    (max_retries deadline elapsed : Z) (ticks : list Tick) (manifest : ChunkManifest)
    (k : kad) (m : P2pMetricsSnapshot)
    : option (kad * P2pMetricsSnapshot * result TransportError bytes) :=
  '(k, m, r) ← fetch_manifest_chunks config max_retries deadline elapsed ticks manifest k m;
  Some (k, m, let? store := r in reassemble_payload_from_store manifest store config).

(** ** Recovering the payloads of an inbox *)

(** What happens while the chunks of one announced manifest are fetched. *)
Record FetchRun := mkFetchRun { fr_deadline : Z; fr_elapsed : Z; fr_ticks : list Tick }.

(** The loop over the received gossip messages: messages that do not parse or
    whose chunks do not arrive count as verification failures. *)
Fixpoint recover_messages (config : TransportConfig) (max_retries : Z)
    (messages : list (bytes * FetchRun)) (k : kad) (m : P2pMetricsSnapshot)
    (recovered : list bytes) : option (kad * P2pMetricsSnapshot * list bytes) :=
  match messages with
  | [] => Some (k, m, recovered)
  | (message, run) :: rest =>
      match parse_manifest_from_gossip message with
      | Err _ => recover_messages config max_retries rest k (record_verification_failure m) recovered
      | Ok manifest =>
          '(k, m, r) ← fetch_manifest_chunks config max_retries (fr_deadline run) (fr_elapsed run)
                         (fr_ticks run) manifest k m;
          match r with
          | Err _ => recover_messages config max_retries rest k (record_verification_failure m) recovered
          | Ok store =>
              match reassemble_payload_from_store manifest store config with
              | Err _ => recover_messages config max_retries rest k (record_reassemble_failure m) recovered
              | Ok payload => recover_messages config max_retries rest k m (recovered ++ [payload])
              end
          end
      end
  end.

(** The part of [recover_payloads_for_inbox] after the subscription succeeded
    and before the state is persisted; [resubscriptions] counts the turns of
    the listening loop that subscribed again. *)
Definition recover_inbox (config : TransportConfig) (max_retries : Z) (resubscriptions : nat)
    (messages : list (bytes * FetchRun)) (elapsed : Z) (k : kad) (m : P2pMetricsSnapshot)
    : option (kad * P2pMetricsSnapshot * list bytes) :=
  let m := record_attempt "recovery" m in
  let m := Nat.iter resubscriptions (record_retry "recovery") m in
  '(k, m, recovered) ← recover_messages config max_retries messages k m [];
  Some (k, match recovered with
           | [] => record_timeout "recovery" m
           | _ => record_success "recovery" elapsed m
           end, recovered).

(** ** Announcing a manifest *)

Inductive PublishAnswer : Type :=
| Published
| NoPeersSubscribedToTopic
| PublishFailed (e : string).

(** The publishing loop for one topic: the answers of gossipsub, each with the
    clock when it is handled. *)
Fixpoint publish_loop (max_retries deadline attempts : Z) (answers : list (PublishAnswer * Z))
    (m : P2pMetricsSnapshot) : option (P2pMetricsSnapshot * result TransportError unit) :=
  match answers with
  | [] => None
  | (Published, _) :: _ => Some (m, Ok tt)
  | (NoPeersSubscribedToTopic, now) :: rest =>
      if (now <? deadline) && (attempts <? max_retries)
      then publish_loop max_retries deadline (attempts + 1) rest (record_retry "publish" m)
      else Some (record_timeout "publish" m,
                 Err (Libp2p "manifest publish timed out waiting for peers"))
  | (PublishFailed e, _) :: _ => Some (m, Err (GossipPublish e))
  end.

(** What happens while one inbox key is served. *)
Record TopicRun := mkTopicRun {
  tr_subscribed : result string unit;
  tr_deadline : Z;
  tr_answers : list (PublishAnswer * Z);
}.

Fixpoint publish_topics (max_retries : Z) (runs : list TopicRun) (m : P2pMetricsSnapshot)
    : option (P2pMetricsSnapshot * result TransportError unit) :=
  match runs with
  | [] => Some (m, Ok tt)
  | run :: rest =>
      match tr_subscribed run with
      | Err e => Some (m, Err (Libp2p e))
      | Ok _ =>
          '(m, r) ← publish_loop max_retries (tr_deadline run) 0 (tr_answers run) m;
          match r with
          | Err e => Some (m, Err e)
          | Ok _ => publish_topics max_retries rest m
          end
      end
  end.

End fetch.

Section node_operations.
Context `{SH : Sha256} `{HX : Hex} `{NW : Network} `{PI : PeerIds} `{LP : !P2pSwarm}
  `{SJ : SnapshotJson}.

(** [publish_to_inboxes]: one [TopicRun] per inbox key. *)
Definition publish_to_inboxes (ck : Clock) (config : TransportConfig) (max_retries elapsed : Z)
    (inbox_keys : list (bytes * TopicRun)) (manifest : ChunkManifest) (chunks : list Chunk)
    (k : kad) (n : P2pTransport) : option (kad * io (P2pTransport * result TransportError unit)) :=
  let n := set_known (nd_known_manifests n ++ [manifest])
             (list_to_set (map (λ kr, hex_encode kr.1) inbox_keys) ∪ nd_known_index_keys n) n in
  let n := set_metrics (record_attempt "publish" (nd_metrics n)) n in
  let k := publish_chunks k config chunks in
  match manifest_payload manifest with
  | Err e => Some (k, Ret (n, Err e))
  | Ok _ =>
      '(m, r) ← publish_topics max_retries (map snd inbox_keys) (nd_metrics n);
      let n := set_metrics m n in
      Some (k, match r with
               | Err e => Ret (n, Err e)
               | Ok _ =>
                   let* r := persist_state ck n in
                   match r with
                   | Err e => Ret (n, Err e)
                   | Ok _ => Ret (set_metrics (record_success "publish" elapsed (nd_metrics n)) n, Ok tt)
                   end
               end)
  end.

(** [recover_payloads_for_inbox]. *)
Definition recover_payloads_for_inbox (ck : Clock) (config : TransportConfig) (max_retries : Z)
    (inbox_key : bytes) (subscribed : result string unit) (resubscriptions : nat)
    (messages : list (bytes * FetchRun)) (elapsed : Z) (k : kad) (n : P2pTransport)
    : option (kad * io (P2pTransport * result TransportError (list bytes))) :=
  let n := set_known (nd_known_manifests n) ({[hex_encode inbox_key]} ∪ nd_known_index_keys n) n in
  match subscribed with
  | Err e => Some (k, Ret (n, Err (Libp2p e)))
  | Ok _ =>
      '(k, m, recovered) ← recover_inbox config max_retries resubscriptions messages elapsed k
                             (nd_metrics n);
      let n := set_metrics m n in
      Some (k, let* r := persist_state ck n in
               Ret (n, let? _ := r in Ok recovered))
  end.

End node_operations.
