(* ===== verification/FetchFacts.v ===== *)
(** * The peer-to-peer node: lemmas and theorems on fetching and publishing

    About the definitions of [Fetch] and [Metrics].  Shown here: whatever
    records the network serves, a fetch returns the published payload or an
    error, unless SHA-256 collides; a payload whose chunks are delivered is
    recovered; the number of answers a fetch waits for and the number of
    announcements are bounded; every recovery is counted once, with one
    outcome, and the rates derived from the counters are at most 10,000; health
    never improves when things get worse.  One result describes a gap: a record
    with the wrong content ends the query for its chunk, and the fetch reports
    success without the chunk. *)
From Stdlib Require Import ZArith Lia Ascii Strings.Byte.
From stdpp Require Import base list gmap strings sorting numbers.
From S2P Require Import Prelude External Cbor CborFacts Types Core Transport Files Ingest Metrics.
From S2P Require Import Peers Fetch.

#[local] Open Scope Z_scope.

Ltac app_sub := intros ?; rewrite ?elem_of_app; tauto.

(** ** What a fetch stores *)

(** The record values a list of events carries. *)
Definition tick_value (t : Tick) : option bytes :=
  match tk_event t with
  | OutboundQueryProgressed _ (GetRecord (FoundRecord _ value)) => Some value
  | _ => None
  end.
Definition tick_values (ticks : list Tick) : list bytes := omap tick_value ticks.

Lemma tick_values_cons t ticks : tick_values (t :: ticks) = tick_values [t] ++ tick_values ticks.
Proof. unfold tick_values. cbn. by destruct (tick_value t). Qed.

Section fetch_facts.
Context `{SH : Sha256} `{HX : Hex} `{NW : Network}.

(** Every stored value is one of [values], under its hash, and was asked for. *)
Definition store_sound (expected : gset bytes) (values : list bytes) (store : gmap bytes bytes) : Prop :=
  map_Forall (λ h v, h ∈ expected ∧ sha256 v = h ∧ v ∈ values) store.

Lemma store_sound_mono expected vs vs' store :
  vs ⊆ vs' → store_sound expected vs store → store_sound expected vs' store.
Proof. intros Hsub Hs h v Hv. destruct (Hs h v Hv) as (? & ? & ?). auto. Qed.

Lemma retry_query_store r id st : fs_store (retry_query r id st) = fs_store st.
Proof.
  unfold retry_query. destruct (fs_pending st !! id); [|done]. destruct (_ <? _); [|done].
  by destruct (kad_get_record _ _).
Qed.

Lemma fetch_event_sound expected hid r dl t st vs :
  store_sound expected vs (fs_store st) →
  store_sound expected (tick_values [t] ++ vs) (fs_store (fetch_event expected hid r dl t st)).
Proof.
  intros Hs. assert (store_sound expected (tick_values [t] ++ vs) (fs_store st)) as Hs'
    by (eapply store_sound_mono; [|done]; app_sub).
  unfold fetch_event. destruct (tk_event t) as [id [[key value|]| |]|] eqn:He; try done.
  - unfold drop_query, add_records. cbn [fs_store]. apply map_Forall_union_2; [|done].
    unfold extract_records. case_decide; [|apply map_Forall_empty].
    case_decide as Hh; [|apply map_Forall_empty]. apply map_Forall_singleton.
    split; [done|]. split; [by destruct hid|]. unfold tick_values, tick_value. cbn. rewrite He. left.
  - unfold drop_query. cbn [fs_store]. destruct (_ <? _); [by rewrite retry_query_store|done].
Qed.

Lemma fetch_loop_sound expected hid r dl ticks : ∀ st st' vs,
  store_sound expected vs (fs_store st) → fetch_loop expected hid r dl ticks st = Some st' →
  store_sound expected (tick_values ticks ++ vs) (fs_store st').
Proof.
  induction ticks as [|t ticks IH]; intros st st' vs Hs; cbn [fetch_loop]; case_decide;
    try done; try (intros [= <-]; eapply store_sound_mono; [|done]; app_sub).
  destruct (_ <? _); [|intros [= <-]; eapply store_sound_mono; [|done]; app_sub].
  intros Hl. apply (store_sound_mono _ (tick_values ticks ++ tick_values [t] ++ vs)).
  - rewrite (tick_values_cons t ticks). app_sub.
  - eapply IH; [by apply fetch_event_sound|done].
Qed.

Lemma fetch_init_store k m manifest : fs_store (fetch_init k m manifest) = ∅.
Proof. unfold fetch_init. by destruct (fold_left _ _ _). Qed.

Lemma fetch_manifest_chunks_sound config r dl el ticks manifest k m k' m' store :
  fetch_manifest_chunks config r dl el ticks manifest k m = Some (k', m', Ok store) →
  store_sound (expected_hashes manifest) (tick_values ticks) store.
Proof.
  unfold fetch_manifest_chunks. destruct (fetch_loop _ _ _ _ _ _) as [st|] eqn:Hl; [|done].
  cbn [mbind option_bind]. unfold fetch_finish. case_decide; [|done]. intros Hs.
  assert (fs_store st = store) as <- by congruence. rewrite <- (app_nil_r (tick_values ticks)).
  eapply fetch_loop_sound; [|done]. rewrite fetch_init_store. apply map_Forall_empty.
Qed.

(** What was put together from a sound store is what the manifest was made of. *)
Lemma reassembled_is_published config payload chunks store expected values p :
  0 <= chunk_size (tc_chunking config) → chunk_data (tc_chunking config) payload = Some chunks →
  NoDup (map ch_hash chunks) → collision_free (values ++ map ch_data chunks) →
  store_sound expected values store →
  reassemble_payload_from_store (manifest_of chunks payload) store config = Ok p → p = payload.
Proof.
  intros Hs Hc Hn Hcf Hst. unfold reassemble_payload_from_store.
  destruct (recover_chunks_from_store _ _ _) as [cs|] eqn:Hrec; [|done]. intros Hp.
  pose proof (reassemble_published config payload chunks Hs Hc Hn) as Hpub.
  apply reassemble_inv in Hp as (o1 & -> & _ & _ & Ho1).
  apply reassemble_inv in Hpub as (o2 & -> & _ & _ & Ho2). f_equal.
  assert (∀ c, c ∈ cs → ch_data c ∈ values) as Hvals.
  { unfold recover_chunks_from_store in Hrec. destruct (validate_manifest _); [|done].
    apply try_map_Ok in Hrec. intros c Hc'.
    apply list_elem_of_lookup in Hc' as [i Hi].
    destruct (Forall2_lookup_r _ _ _ _ _ Hrec Hi) as (d & _ & Hd). unfold recover_chunk in Hd.
    destruct (store !! cd_hash d) as [v|] eqn:Hv; [|done]. cbn [ok_or] in Hd.
    case_decide; [|done]. injection Hd as <-. cbn. by apply (Hst _ _ Hv). }
  eapply ordered_chunks_unique; [|exact Ho1|exact Ho2].
  intros c1 c2 Hc1 Hc2 Hh. apply Hcf; [..|done]; apply elem_of_app.
  - left. apply Hvals. by apply list_elem_of_In.
  - right. by apply list_elem_of_In, in_map.
Qed.

(** C9: whatever records the network serves, in whatever order, and however
    often it fails, recovering a published payload by its manifest gives that
    payload or an error, unless SHA-256 collides on the served values and the
    chunks. *)
Theorem fetch_returns_published config r dl el ticks payload chunks k m k' m' p :
  0 <= chunk_size (tc_chunking config) → chunk_data (tc_chunking config) payload = Some chunks →
  NoDup (map ch_hash chunks) → collision_free (tick_values ticks ++ map ch_data chunks) →
  recover_payload_from_manifest config r dl el ticks (manifest_of chunks payload) k m
  = Some (k', m', Ok p) → p = payload.
Proof.
  intros Hs Hc Hn Hcf. unfold recover_payload_from_manifest.
  destruct (fetch_manifest_chunks _ _ _ _ _ _ _ _) as [[[k1 m1] [store|]]|] eqn:Hf; [|done..].
  cbn [mbind option_bind]. intros Hp.
  assert (reassemble_payload_from_store (manifest_of chunks payload) store config = Ok p) as Hr
    by congruence.
  eapply reassembled_is_published; [done..| |exact Hr]. by eapply fetch_manifest_chunks_sound.
Qed.

(** ** Delivery *)

(** Query identifiers are handed out in ascending order. *)
Class QueryIdLaws := {
  kad_next : kad → Z;
  kad_get_record_id : ∀ k h, (kad_get_record k h).2 = kad_next k;
  kad_get_record_next : ∀ k h, kad_next k < kad_next (kad_get_record k h).1;
}.

(** The identifiers of the queries for the chunks of a manifest. *)
Fixpoint query_ids (k : kad) (ds : list ChunkDescriptor) : list Z :=
  match ds with
  | [] => []
  | d :: ds' => (kad_get_record k (cd_hash d)).2 :: query_ids (kad_get_record k (cd_hash d)).1 ds'
  end.

(** The event that answers the query [id] with the chunk [c] at time [t]. *)
Definition delivery (t : Z) (ic : Z * Chunk) : Tick :=
  mkTick t (OutboundQueryProgressed ic.1
    (GetRecord (FoundRecord (ch_hash ic.2) (ch_data ic.2)))) t.















(** ** How long a fetch can take *)

Lemma sum_list_with_ext {A} (f g : A → nat) l :
  (∀ x, x ∈ l → f x = g x) → sum_list_with f l = sum_list_with g l.
Proof.
  induction l as [|x l IH]; cbn; intros Hfg; [done|]. rewrite Hfg by left. f_equal.
  apply IH. intros y Hy. apply Hfg. by right.
Qed.

Lemma sum_list_with_const {A} (f : A → nat) n l :
  (∀ x, f x = n) → sum_list_with f l = (length l * n)%nat.
Proof. intros Hf. induction l as [|x l IH]; cbn; [done|]. by rewrite Hf, IH. Qed.

Lemma sum_list_with_dec {A} (f g : A → nat) x l :
  NoDup l → x ∈ l → f x = S (g x) → (∀ y, y ≠ x → f y = g y) →
  sum_list_with f l = S (sum_list_with g l).
Proof.
  intros Hnd Hin Hx Hy. induction Hnd as [|y l Hyl Hnd IH]; [by apply not_elem_of_nil in Hin|]. cbn.
  apply elem_of_cons in Hin as [->|Hin].
  - rewrite Hx, (sum_list_with_ext f g l); [lia|]. intros z Hz. apply Hy. by intros ->.
  - rewrite IH by done. rewrite Hy; [lia|]. by intros ->.
Qed.

Lemma size_insert_le `{Countable K} {A} (m : gmap K A) k v : (size (<[k := v]> m) <= S (size m))%nat.
Proof.
  destruct (m !! k) as [w|] eqn:Hk.
  - rewrite map_size_insert_Some by (by eexists). lia.
  - by rewrite map_size_insert_None.
Qed.

Lemma size_delete_Some `{Countable K} {A} (m : gmap K A) k v :
  m !! k = Some v → size m = S (size (delete k m)).
Proof.
  intros Hk. rewrite <- (insert_delete_id m k v Hk) at 1.
  apply map_size_insert_None, lookup_delete_eq.
Qed.

(** What is left to do: pending queries and retries. *)
Definition retries_left (max_retries : Z) (retries : gmap bytes Z) (h : bytes) : nat :=
  Z.to_nat (max_retries - default 0 (retries !! h)).

Definition budget (expected : gset bytes) (max_retries : Z) (st : FetchState) : nat :=
  (size (fs_pending st) + sum_list_with (retries_left max_retries (fs_retries st)) (elements expected))%nat.

Definition fetch_inv (expected : gset bytes) (st : FetchState) : Prop :=
  map_Forall (λ _ h, h ∈ expected) (fs_pending st) ∧ map_Forall (λ _ a, 0 <= a) (fs_retries st).

(** Whether an event answers a pending query. *)
Definition answers (t : Tick) (st : FetchState) : bool :=
  match tk_event t with
  | OutboundQueryProgressed id _ => bool_decide (is_Some (fs_pending st !! id))
  | OtherEvent => false
  end.

Lemma drop_query_budget expected r id st :
  fetch_inv expected st →
  fetch_inv expected (drop_query id st) ∧
  budget expected r st
  = (budget expected r (drop_query id st) + if bool_decide (is_Some (fs_pending st !! id)) then 1 else 0)%nat.
Proof.
  intros [Hp Hr]. split; [split; [by apply map_Forall_delete|done]|].
  unfold budget. cbn [drop_query fs_pending]. case_bool_decide as Hs.
  - destruct Hs as [h Hh]. rewrite (size_delete_Some _ _ _ Hh). cbn [drop_query fs_retries]. lia.
  - rewrite delete_id by (by apply eq_None_not_Some). cbn [drop_query fs_retries]. lia.
Qed.

(** A retry of [h] uses one of the retries left; counting it without one leaves
    them as they are. *)
Lemma retries_spent (expected : gset bytes) r m h :
  let a := default 0 (m !! h) in
  h ∈ expected → 0 <= a < r →
  sum_list_with (retries_left r m) (elements expected)
  = S (sum_list_with (retries_left r (<[h := a + 1]> m)) (elements expected)).
Proof.
  intros a Hh Ha. apply (sum_list_with_dec _ _ h);
    [apply NoDup_elements|by apply elem_of_elements|..]; unfold retries_left.
  - rewrite lookup_insert_eq. cbn [default from_option id]. fold a. lia.
  - intros y Hy. by rewrite lookup_insert_ne.
Qed.

Lemma retries_kept (expected : gset bytes) r m h :
  sum_list_with (retries_left r (<[h := default 0 (m !! h)]> m)) (elements expected)
  = sum_list_with (retries_left r m) (elements expected).
Proof.
  apply sum_list_with_ext. intros y _. unfold retries_left.
  destruct (decide (y = h)) as [->|Hne]; [by rewrite lookup_insert_eq|by rewrite lookup_insert_ne].
Qed.

(** Asking again: the answered query is dropped afterwards. *)
Lemma retry_query_budget expected r id st :
  fetch_inv expected st →
  fetch_inv expected (drop_query id (retry_query r id st)) ∧
  (budget expected r (drop_query id (retry_query r id st))
   + (if bool_decide (is_Some (fs_pending st !! id)) then 1 else 0) <= budget expected r st)%nat.
Proof.
  intros Hinv. pose proof Hinv as [Hp Hr]. unfold retry_query.
  destruct (fs_pending st !! id) as [h|] eqn:Hid; cycle 1.
  { pose proof (drop_query_budget expected r id st Hinv) as [? Hb]. rewrite Hid in Hb. split; [done|lia]. }
  rewrite bool_decide_eq_true_2 by done. set (a := default 0 (fs_retries st !! h)).
  assert (0 <= a) as Ha by (unfold a; destruct (fs_retries st !! h) as [z|] eqn:Hz; [by apply (Hr h)|done]).
  destruct (a <? r) eqn:Har.
  - apply Z.ltb_lt in Har. destruct (kad_get_record _ h) as [k new_id].
    split; [split; [apply map_Forall_delete, map_Forall_insert_2; [by apply (Hp id)|done]
                   |apply map_Forall_insert_2; [lia|done]]|].
    unfold budget. cbn [drop_query fs_pending fs_retries].
    rewrite (retries_spent expected r (fs_retries st) h (Hp id h Hid) ltac:(fold a; lia)). fold a.
    rewrite (size_delete_Some _ _ _ Hid). destruct (decide (new_id = id)) as [->|Hne].
    + rewrite delete_insert_eq. lia.
    + rewrite delete_insert_ne by done. pose proof (size_insert_le (delete id (fs_pending st)) new_id h). lia.
  - set (st1 := mkFetchState _ _ _ _ _).
    assert (fetch_inv expected st1) as Hinv' by (split; [done|by apply map_Forall_insert_2]).
    pose proof (drop_query_budget expected r id st1 Hinv') as [? Hb]. split; [done|].
    change (fs_pending st1) with (fs_pending st) in Hb. rewrite Hid, bool_decide_eq_true_2 in Hb by done.
    enough (budget expected r st1 = budget expected r st) by lia.
    unfold budget, st1, a. cbn [fs_pending fs_retries]. by rewrite retries_kept.
Qed.

Lemma fetch_event_budget expected hid r dl t st :
  fetch_inv expected st →
  fetch_inv expected (fetch_event expected hid r dl t st) ∧
  (budget expected r (fetch_event expected hid r dl t st)
   + (if answers t st then 1 else 0) <= budget expected r st)%nat.
Proof.
  intros Hinv. unfold fetch_event, answers.
  destruct (tk_event t) as [id res|]; [|split; [done|lia]].
  assert (∀ st1, fs_pending st1 = fs_pending st → fs_retries st1 = fs_retries st →
    fetch_inv expected (drop_query id st1) ∧
    (budget expected r (drop_query id st1)
     + (if bool_decide (is_Some (fs_pending st !! id)) then 1 else 0) <= budget expected r st)%nat) as Hdrop.
  { intros st1 H1 H2. assert (fetch_inv expected st1) as Hinv1 by (unfold fetch_inv; by rewrite H1, H2).
    pose proof (drop_query_budget expected r id st1 Hinv1) as [? Hb]. split; [done|].
    rewrite H1 in Hb. assert (budget expected r st1 = budget expected r st) as He
      by (unfold budget; by rewrite H1, H2). lia. }
  destruct res as [[key value|]| |]; try (by apply Hdrop).
  destruct (_ <? _); [by apply retry_query_budget|by apply Hdrop].
Qed.

(** The events that answer a pending query, as long as the fetch runs. *)
Fixpoint fetch_answers (expected : gset bytes) (hid : HashId) (r dl : Z) (ticks : list Tick)
    (st : FetchState) : nat :=
  if decide (fs_pending st = ∅) then O
  else
    match ticks with
    | [] => O
    | t :: ticks' =>
        if tk_tested t <? dl
        then ((if answers t st then 1 else 0)
              + fetch_answers expected hid r dl ticks' (fetch_event expected hid r dl t st))%nat
        else O
    end.

Lemma fetch_answers_budget expected hid r dl ticks : ∀ st,
  fetch_inv expected st → (fetch_answers expected hid r dl ticks st <= budget expected r st)%nat.
Proof.
  induction ticks as [|t ticks IH]; intros st Hinv; cbn [fetch_answers]; case_decide; [lia..|].
  destruct (_ <? _); [|lia].
  destruct (fetch_event_budget expected hid r dl t st Hinv) as [Hinv' Hb].
  specialize (IH _ Hinv'). lia.
Qed.

Lemma start_queries_inv (ds : list ChunkDescriptor) (expected : gset bytes) : ∀ kp : kad * gmap Z bytes,
  map_Forall (λ _ h, h ∈ expected) kp.2 → (∀ d, d ∈ ds → cd_hash d ∈ expected) →
  map_Forall (λ _ h, h ∈ expected) (fold_left start_query ds kp).2 ∧
  (size (fold_left start_query ds kp).2 <= size kp.2 + length ds)%nat.
Proof.
  induction ds as [|d ds IH]; intros kp Hkp Hds; cbn [fold_left length]; [split; [done|lia]|].
  assert (map_Forall (λ _ h, h ∈ expected) (start_query kp d).2) as Hkp'.
  { unfold start_query. destruct (kad_get_record _ _). apply map_Forall_insert_2; [apply Hds; left|done]. }
  assert (size (start_query kp d).2 <= S (size kp.2))%nat as Hsz
    by (unfold start_query; destruct (kad_get_record _ _); apply size_insert_le).
  destruct (IH _ Hkp') as [H1 H2]; [intros; apply Hds; by right|]. split; [done|lia].
Qed.

(** C21: a fetch is over after a bounded number of answers: however the network
    behaves, at most one answer per chunk and, for every distinct chunk, as
    many more as retries are allowed concern a query the fetch waits for. *)
Theorem fetch_work_bounded config r dl ticks manifest k m :
  0 <= r →
  (fetch_answers (expected_hashes manifest) (cc_hash_id (tc_chunking config)) r dl ticks
     (fetch_init k m manifest)
   <= length (cm_chunks manifest) + size (expected_hashes manifest) * Z.to_nat r)%nat.
Proof.
  intros Hr. set (expected := expected_hashes manifest).
  destruct (start_queries_inv (cm_chunks manifest) expected (k, ∅)) as [Hp Hsz];
    [apply map_Forall_empty|intros d Hd; unfold expected, expected_hashes;
     rewrite elem_of_list_to_set; by apply list_elem_of_fmap_2|].
  assert (fetch_inv expected (fetch_init k m manifest) ∧
    (size (fs_pending (fetch_init k m manifest)) <= length (cm_chunks manifest))%nat ∧
    fs_retries (fetch_init k m manifest) = ∅) as (Hinv & Hsz' & Hret).
  { unfold fetch_init. destruct (fold_left _ _ _) as [k' p]. cbn [snd fs_pending fs_retries] in *.
    split; [split; [done|apply map_Forall_empty]|]. rewrite map_size_empty in Hsz. split; [lia|done]. }
  pose proof (fetch_answers_budget expected (cc_hash_id (tc_chunking config)) r dl ticks _ Hinv) as Hb.
  unfold budget in Hb. rewrite Hret in Hb.
  assert (sum_list_with (retries_left r ∅) (elements expected) = size expected * Z.to_nat r)%nat as Hs.
  { rewrite (sum_list_with_const _ (Z.to_nat r)); [done|]. intros h. unfold retries_left.
    by rewrite lookup_empty, Z.sub_0_r. }
  lia.
Qed.

(** ** Counting *)

Lemma on_publish f m :
  on_operation "publish" f m
  = mkP2pMetricsSnapshot (f (pm_publish m)) (pm_query m) (pm_recovery m) (pm_fallback m)
      (pm_reassemble_failures m) (pm_verification_failures m)
      (pm_probation_transitions m) (pm_ban_transitions m).
Proof. done. Qed.

Lemma on_query f m :
  on_operation "query" f m
  = mkP2pMetricsSnapshot (pm_publish m) (f (pm_query m)) (pm_recovery m) (pm_fallback m)
      (pm_reassemble_failures m) (pm_verification_failures m)
      (pm_probation_transitions m) (pm_ban_transitions m).
Proof. done. Qed.

Lemma on_recovery f m :
  on_operation "recovery" f m
  = mkP2pMetricsSnapshot (pm_publish m) (pm_query m) (f (pm_recovery m)) (pm_fallback m)
      (pm_reassemble_failures m) (pm_verification_failures m)
      (pm_probation_transitions m) (pm_ban_transitions m).
Proof. done. Qed.

(** Outcomes do not exceed attempts, and nothing has wrapped. *)
Record op_ok (o : OpMetrics) : Prop := {
  op_success : 0 <= om_success o;
  op_timeout : 0 <= om_timeout o;
  op_total : om_success o + om_timeout o <= om_attempts o < 2 ^ 64;
}.

Record metrics_ok (m : P2pMetricsSnapshot) : Prop := {
  mo_publish : op_ok (pm_publish m);
  mo_query : op_ok (pm_query m);
  mo_recovery : op_ok (pm_recovery m);
}.

(** The outcome and attempt counters of a class. *)
Definition counted (o : OpMetrics) : Z * Z * Z := (om_attempts o, om_success o, om_timeout o).

(** [m'] differs from [m] in the retries of class [operation] only. *)
Record only_retries (operation : string) (m m' : P2pMetricsSnapshot) : Prop := {
  or_publish : counted (pm_publish m') = counted (pm_publish m);
  or_query : counted (pm_query m') = counted (pm_query m);
  or_recovery : counted (pm_recovery m') = counted (pm_recovery m);
  or_verification : pm_verification_failures m' = pm_verification_failures m;
  or_reassemble : pm_reassemble_failures m' = pm_reassemble_failures m;
}.

Lemma only_retries_refl c m : only_retries c m m.
Proof. by split. Qed.

Lemma only_retries_step c m m' :
  only_retries c m m' → only_retries c m (record_retry c m').
Proof.
  intros [H1 H2 H3 H4 H5]. unfold record_retry, on_operation.
  repeat case_decide; split; unfold counted in *; cbn; congruence.
Qed.

Lemma only_retries_iter c j m : only_retries c m (Nat.iter j (record_retry c) m).
Proof. induction j as [|j IH]; [apply only_retries_refl|]. by apply only_retries_step. Qed.

Lemma fetch_loop_metrics expected hid r dl ticks : ∀ st st' m,
  only_retries "query" m (fs_metrics st) → fetch_loop expected hid r dl ticks st = Some st' →
  only_retries "query" m (fs_metrics st').
Proof.
  induction ticks as [|t ticks IH]; intros st st' m Hm; cbn [fetch_loop]; case_decide;
    try done; try (by intros [= <-]). destruct (_ <? _); [|by intros [= <-]].
  apply IH. unfold fetch_event. destruct (tk_event t) as [id [[key value|]| |]|]; try done.
  cbn [drop_query fs_metrics]. destruct (_ <? _); [|done]. unfold retry_query.
  destruct (fs_pending st !! id); [|done]. destruct (_ <? _); [|done].
  destruct (kad_get_record _ _). by apply only_retries_step.
Qed.

Lemma op_ok_counted o o' : counted o' = counted o → op_ok o → op_ok o'.
Proof. unfold counted. intros [= H1 H2 H3] [? ? ?]. split; congruence || lia. Qed.

(** What one fetch does to the counters. *)
Record fetch_counted (m m' : P2pMetricsSnapshot) : Prop := {
  fc_publish : counted (pm_publish m') = counted (pm_publish m);
  fc_recovery : counted (pm_recovery m') = counted (pm_recovery m);
  fc_query : op_ok (pm_query m');
  fc_attempts : om_attempts (pm_query m') = om_attempts (pm_query m) + 1;
  fc_outcomes : om_success (pm_query m') + om_timeout (pm_query m')
    = om_success (pm_query m) + om_timeout (pm_query m) + 1;
  fc_verification : pm_verification_failures m' = pm_verification_failures m;
  fc_reassemble : pm_reassemble_failures m' = pm_reassemble_failures m;
}.

Lemma wadd_one z : 0 <= z → z + 1 < 2 ^ 64 → wadd 64 z 1 = z + 1.
Proof. intros. unfold wadd, wrap. apply Z.mod_small. lia. Qed.

Lemma fetch_counts config r dl el ticks manifest k m k' m' res :
  op_ok (pm_query m) → om_attempts (pm_query m) + 1 < 2 ^ 64 →
  fetch_manifest_chunks config r dl el ticks manifest k m = Some (k', m', res) → fetch_counted m m'.
Proof.
  intros [Hs Ht [Ha _]] Hlt. unfold fetch_manifest_chunks.
  destruct (fetch_loop _ _ _ _ _ _) as [st|] eqn:Hl; [|done]. cbn [mbind option_bind]. intros Hf.
  assert (only_retries "query" (record_attempt "query" m) (fs_metrics st)) as [O1 O2 O3 O4 O5].
  { eapply fetch_loop_metrics; [|exact Hl]. unfold fetch_init.
    destruct (fold_left _ _ _). apply only_retries_refl. }
  unfold record_attempt in O1, O2, O3, O4, O5. rewrite on_query in O1, O2, O3, O4, O5.
  injection O2 as Q1 Q2 Q3. rewrite wadd_one in Q1 by lia. unfold fetch_finish in Hf.
  case_decide; injection Hf as <- <- <-; unfold record_success, record_timeout; rewrite on_query;
    (split; [exact O1|exact O3|split| | |exact O4|exact O5]; cbn;
     rewrite ?Q1, ?Q2, ?Q3, ?wadd_one by lia; lia).
Qed.

(** Room in the counters for [n] more events. *)
Record room (n : Z) (m : P2pMetricsSnapshot) : Prop := {
  rm_query : op_ok (pm_query m);
  rm_attempts : om_attempts (pm_query m) + n < 2 ^ 64;
  rm_verification : 0 <= pm_verification_failures m;
  rm_verification_room : pm_verification_failures m + n < 2 ^ 64;
  rm_reassemble : 0 <= pm_reassemble_failures m;
  rm_reassemble_room : pm_reassemble_failures m + n < 2 ^ 64;
}.

Definition failures (m : P2pMetricsSnapshot) : Z :=
  pm_verification_failures m + pm_reassemble_failures m.

Record messages_counted (n : Z) (recovered recovered' : list bytes) (m m' : P2pMetricsSnapshot)
    : Prop := {
  mc_publish : counted (pm_publish m') = counted (pm_publish m);
  mc_recovery : counted (pm_recovery m') = counted (pm_recovery m);
  mc_query : op_ok (pm_query m');
  mc_total : zlen recovered' + failures m' = zlen recovered + failures m + n;
}.

(** A message that fails, before or after its chunks were fetched. *)
Lemma room_verification n m :
  room (n + 1) m → 0 <= n →
  room n (record_verification_failure m) ∧ failures (record_verification_failure m) = failures m + 1.
Proof.
  intros [H1 H2 H3 H4 H5 H6] Hn. unfold failures. split; [split|]; cbn; rewrite ?wadd_one by lia;
    done || lia.
Qed.

Lemma room_reassemble n m :
  room (n + 1) m → 0 <= n →
  room n (record_reassemble_failure m) ∧ failures (record_reassemble_failure m) = failures m + 1.
Proof.
  intros [H1 H2 H3 H4 H5 H6] Hn. unfold failures. split; [split|]; cbn; rewrite ?wadd_one by lia;
    done || lia.
Qed.

Lemma recover_messages_counts config r messages : ∀ k m recovered k' m' recovered',
  room (2 * zlen messages) m →
  recover_messages config r messages k m recovered = Some (k', m', recovered') →
  messages_counted (zlen messages) recovered recovered' m m'.
Proof.
  unfold zlen. induction messages as [|[msg run] messages IH]; intros k m rec k' m' rec' Hroom.
  { cbn. intros Hr. assert (m' = m ∧ rec' = rec) as [-> ->] by (split; congruence).
    split; [done|done|apply Hroom|unfold zlen; lia]. }
  cbn [recover_messages length] in *. rewrite Nat2Z.inj_succ in *.
  assert (∀ m1 rec1, room (2 * Z.of_nat (length messages)) m1 → counted (pm_publish m1) = counted (pm_publish m) →
    counted (pm_recovery m1) = counted (pm_recovery m) → zlen rec1 + failures m1 = zlen rec + failures m + 1 →
    ∀ k1, recover_messages config r messages k1 m1 rec1 = Some (k', m', rec') →
    messages_counted (Z.succ (Z.of_nat (length messages))) rec rec' m m') as Hnext.
  { intros m1 rec1 Hroom1 Hp Hv Ht k1 Hr. destruct (IH _ _ _ _ _ _ Hroom1 Hr) as [P1 P2 P3 P4].
    split; [congruence|congruence|done|lia]. }
  assert (room (2 * Z.of_nat (length messages) + 1) m ∧ room (2 * Z.of_nat (length messages) + 1 + 1) m)
    as [Hroom1 Hroom2] by (destruct Hroom; split; split; done || lia).
  destruct (parse_manifest_from_gossip msg) as [manifest|e]; cycle 1.
  { destruct (room_verification _ m Hroom1 ltac:(lia)) as [? ?].
    intros Hr. refine (Hnext _ _ _ _ _ _ _ Hr); [done..|lia]. }
  destruct (fetch_manifest_chunks _ _ _ _ _ _ _ _) as [[[k1 m1] res]|] eqn:Hf; [|done].
  cbn [mbind option_bind].
  pose proof (fetch_counts _ _ _ _ _ _ _ _ _ _ _ (rm_query _ _ Hroom)
    ltac:(destruct Hroom; lia) Hf) as [F1 F2 F3 F4 F5 F6 F7].
  assert (room (2 * Z.of_nat (length messages) + 1) m1) as Hroom3
    by (destruct Hroom2; split; rewrite ?F4, ?F6, ?F7; done || lia).
  assert (failures m1 = failures m) as Hfail by (unfold failures; lia).
  destruct res as [store|e]; cycle 1.
  { destruct (room_verification _ m1 Hroom3 ltac:(lia)) as [? ?].
    intros Hr. refine (Hnext _ _ _ _ _ _ _ Hr); [done..|lia]. }
  destruct (reassemble_payload_from_store _ _ _) as [payload|e]; cycle 1.
  { destruct (room_reassemble _ m1 Hroom3 ltac:(lia)) as [? ?].
    intros Hr. refine (Hnext _ _ _ _ _ _ _ Hr); [done..|lia]. }
  intros Hr. refine (Hnext _ _ _ _ _ _ _ Hr); [destruct Hroom3; split; done || lia|done..|].
  unfold zlen. rewrite length_app. cbn [length]. lia.
Qed.

(** A recovery is accounted for: it counts as one attempt with one
    outcome, a timeout exactly when nothing was recovered; every received
    message is recovered, a verification failure or a reassembly failure; and
    in every class of operations outcomes still do not exceed attempts. *)
Theorem recovery_accounting config r res messages el k m k' m' recovered :
  metrics_ok m → om_attempts (pm_recovery m) + 1 < 2 ^ 64 →
  room (2 * zlen messages) m →
  recover_inbox config r res messages el k m = Some (k', m', recovered) →
  metrics_ok m' ∧
  om_attempts (pm_recovery m') = om_attempts (pm_recovery m) + 1 ∧
  (om_success (pm_recovery m'), om_timeout (pm_recovery m'))
  = match recovered with
    | [] => (om_success (pm_recovery m), om_timeout (pm_recovery m) + 1)
    | _ => (om_success (pm_recovery m) + 1, om_timeout (pm_recovery m))
    end ∧
  zlen recovered + failures m' = zlen messages + failures m.
Proof.
  intros [Hp Hq Hv] Hatt Hroom. unfold recover_inbox.
  set (m1 := Nat.iter _ _ _). assert (only_retries "recovery" (record_attempt "recovery" m) m1)
    as [O1 O2 O3 O4 O5] by apply only_retries_iter.
  unfold record_attempt in O1, O2, O3, O4, O5. rewrite on_recovery in O1, O2, O3, O4, O5.
  injection O3 as V1 V2 V3. destruct Hv as [Vs Vt [Va Vb]]. rewrite wadd_one in V1 by lia.
  injection O2 as Q1 Q2 Q3.
  assert (room (2 * zlen messages) m1) as Hroom1.
  { destruct Hroom as [R1 R2 R3 R4 R5 R6].
    split; [by apply (op_ok_counted (pm_query m)); [unfold counted; congruence|]|..];
      rewrite ?Q1, ?O4, ?O5; cbn; first [done | lia]. }
  destruct (recover_messages _ _ _ _ _ _) as [[[k2 m2] rec]|] eqn:Hr; [|done].
  cbn [mbind option_bind]. intros Hres.
  destruct (recover_messages_counts _ _ _ _ _ _ _ _ _ Hroom1 Hr) as [P1 P2 P3 P4].
  injection P2 as W1 W2 W3.
  assert (failures m1 = failures m) as Hfail by (unfold failures; rewrite O4, O5; done).
  assert (rec = recovered) as -> by congruence.
  assert (m' = match recovered with [] => record_timeout "recovery" m2
               | _ => record_success "recovery" el m2 end) as -> by congruence.
  assert (op_ok (pm_publish m2)) as Hp2 by (apply (op_ok_counted (pm_publish m)); [exact (eq_trans P1 O1)|done]).
  change (zlen ([] : list bytes)) with 0 in P4.
  destruct recovered; unfold record_timeout, record_success; rewrite on_recovery; unfold failures in *; cbn;
    rewrite ?W1, ?W2, ?W3, ?V1, ?V2, ?V3, ?wadd_one by lia;
    (split_and!; [split; [done|done|split]; cbn; rewrite ?W1, ?W2, ?W3, ?V1, ?V2, ?V3, ?wadd_one by lia; lia
                 |lia|done|unfold zlen in *; cbn in *; lia]).
Qed.

(** ** A record with the wrong content *)

Lemma wrong_record_extracted expected hid key v c :
  expected = {[ch_hash c]} → sha256 v ≠ ch_hash c →
  extract_records (FoundRecord key v) expected hid = ∅.
Proof.
  intros -> Hv. unfold extract_records. case_decide as Hk; [|done].
  apply elem_of_singleton in Hk as ->. rewrite decide_False; [done|]. by destruct hid.
Qed.

(** One peer that answers first with the wrong bytes makes a chunk
    unavailable: the query for the chunk ends there, no retry is made, whatever
    events follow, the fetch is counted as a success, and the recovery fails
    with a missing chunk. *)
Theorem wrong_record_ends_query config r dl el t rest payload c k m key v :
  0 <= chunk_size (tc_chunking config) → chunk_data (tc_chunking config) payload = Some [c] →
  tk_event t = OutboundQueryProgressed (kad_get_record k (ch_hash c)).2 (GetRecord (FoundRecord key v)) →
  tk_tested t < dl → sha256 v ≠ ch_hash c →
  recover_payload_from_manifest config r dl el (t :: rest) (manifest_of [c] payload) k m
  = Some ((kad_get_record k (ch_hash c)).1, record_success "query" el (record_attempt "query" m),
          Err (MissingChunk (hex_encode (ch_hash c)))).
Proof.
  intros Hs Hc Ht Hdl Hv. set (manifest := manifest_of [c] payload).
  assert (expected_hashes manifest = {[ch_hash c]}) as He
    by (unfold expected_hashes; cbn; by rewrite (right_id_L ∅ (∪))).
  unfold recover_payload_from_manifest, fetch_manifest_chunks.
  assert (fetch_init k m manifest
    = mkFetchState (kad_get_record k (ch_hash c)).1 {[(kad_get_record k (ch_hash c)).2 := ch_hash c]}
        ∅ ∅ (record_attempt "query" m)) as ->.
  { unfold fetch_init, start_query. cbn. by destruct (kad_get_record k (ch_hash c)). }
  cbn [fetch_loop fs_pending]. rewrite decide_False by apply map_non_empty_singleton.
  rewrite (proj2 (Z.ltb_lt _ _) Hdl). unfold fetch_event. rewrite Ht.
  rewrite (wrong_record_extracted _ _ key v c He Hv).
  set (st := drop_query _ _). assert (fs_pending st = ∅) as Hp by (unfold st; cbn; apply delete_singleton_eq).
  assert (fetch_loop (expected_hashes manifest) (cc_hash_id (tc_chunking config)) r dl rest st = Some st)
    as -> by (destruct rest; cbn [fetch_loop]; by rewrite decide_True).
  cbn [mbind option_bind]. unfold fetch_finish. rewrite decide_True by done.
  assert (fs_store st = ∅) as -> by (unfold st; cbn; apply (left_id_L ∅ (∪))).
  unfold reassemble_payload_from_store, recover_chunks_from_store, manifest.
  rewrite (validate_published _ _ _ Hs Hc), decide_True by (apply NoDup_singleton).
  do 2 f_equal.
Qed.

End fetch_facts.

(** ** Announcing a manifest *)

Lemma publish_loop_steps r dl answers : ∀ attempts m,
  0 <= attempts <= r → r - attempts < zlen answers →
  ∃ j res, Z.of_nat j <= r - attempts ∧
    publish_loop r dl attempts answers m
    = Some (match res with
            | Err (Libp2p _) => record_timeout "publish" (Nat.iter j (record_retry "publish") m)
            | _ => Nat.iter j (record_retry "publish") m
            end, res).
Proof.
  unfold zlen. induction answers as [|[a now] answers IH]; intros attempts m Ha Hlen;
    cbn [length publish_loop] in *; [lia|].
  destruct a as [| |e].
  - exists O, (Ok tt). split; [lia|done].
  - destruct ((now <? dl) && (attempts <? r)) eqn:Hgo.
    + apply andb_true_iff in Hgo as [_ Hr%Z.ltb_lt].
      destruct (IH (attempts + 1) (record_retry "publish" m)) as (j & res & Hj & ->); [lia..|].
      exists (S j), res. split; [lia|]. by rewrite Nat.iter_succ_r.
    + exists O, (Err (Libp2p "manifest publish timed out waiting for peers")). split; [lia|done].
  - exists O, (Err (GossipPublish e)). split; [lia|done].
Qed.

(** Announcing a manifest ends: after at most [max_retries] retries
    gossipsub has accepted the message, refused it, or the announcement is
    given up; the counters show exactly these retries, and one timeout when
    it was given up. *)
Theorem announcement_returns r dl answers m :
  0 <= r < zlen answers →
  ∃ j res, Z.of_nat j <= r ∧
    publish_loop r dl 0 answers m
    = Some (match res with
            | Err (Libp2p _) => record_timeout "publish" (Nat.iter j (record_retry "publish") m)
            | _ => Nat.iter j (record_retry "publish") m
            end, res).
Proof.
  intros Hr. destruct (publish_loop_steps r dl answers 0 m) as (j & res & Hj & Hp); [lia..|].
  exists j, res. split; [lia|done].
Qed.

(** ** Rates and health *)

Lemma bps_exact part whole :
  0 <= part <= whole → 0 < whole → part * 10000 < 2 ^ 64 →
  bps part whole = part * 10000 / whole ∧ bps part whole <= 10000.
Proof.
  intros Hp Hw Hov. assert (part * 10000 / whole <= 10000) as Hle.
  { apply Z.div_le_upper_bound; nia. }
  assert (0 <= part * 10000 / whole) as H0 by (apply Z.div_pos; lia).
  unfold bps, saturating_mul, umax. rewrite Z.min_l by lia. unfold wrap. rewrite Z.mod_small; lia.
Qed.

(** The rates a node reports are what they say: while every class has at
    most one outcome per attempt and the counters are below 2^64 / 10,000, the
    success rate of publishing and the timeout rate of recovery are the exact
    ratios in basis points, rounded down, and at most 10,000. *)
Theorem rates_exact m :
  metrics_ok m → om_attempts (pm_publish m) * 10000 < 2 ^ 64 → om_attempts (pm_recovery m) * 10000 < 2 ^ 64 →
  publish_success_rate_bps m = om_success (pm_publish m) * 10000 / Z.max (om_attempts (pm_publish m)) 1 ∧
  recovery_timeout_rate_bps m = om_timeout (pm_recovery m) * 10000 / Z.max (om_attempts (pm_recovery m)) 1 ∧
  publish_success_rate_bps m <= 10000 ∧ recovery_timeout_rate_bps m <= 10000.
Proof.
  assert (∀ part whole, 0 <= part <= whole → whole * 10000 < 2 ^ 64 →
    rate_bps part whole = part * 10000 / Z.max whole 1 ∧ rate_bps part whole <= 10000) as Hrate.
  { intros part whole Hp Hw. unfold rate_bps. destruct (Z.eqb_spec whole 0) as [->|Hne].
    - assert (part = 0) as -> by lia. done.
    - rewrite Z.max_l by lia. apply bps_exact; lia. }
  intros [[] _ []] H1 H2. unfold publish_success_rate_bps, recovery_timeout_rate_bps.
  destruct (Hrate (om_success (pm_publish m)) (om_attempts (pm_publish m))) as [? ?]; [lia..|].
  destruct (Hrate (om_timeout (pm_recovery m)) (om_attempts (pm_recovery m))) as [? ?]; [lia..|].
  done.
Qed.

Definition severity (s : NetworkHealthStatus) : Z :=
  match s with Healthy => 0 | Degraded => 1 | Critical => 2 end.

Lemma severity_ordered (a b a' b' : bool) :
  (a = true → a' = true) → (b = true → b' = true) →
  severity (if a then Critical else if b then Degraded else Healthy)
  <= severity (if a' then Critical else if b' then Degraded else Healthy).
Proof.
  intros Ha Hb. destruct a, b; rewrite ?Ha, ?Hb by done; cbn; try lia; destruct a'; cbn; try lia;
    destruct b'; cbn; lia.
Qed.

(** Health never improves when things get worse. *)
Theorem health_monotone th c c' t t' f f' :
  c' <= c → t <= t' → f <= f' →
  severity (health_status th c t f) <= severity (health_status th c' t' f').
Proof.
  intros Hc Ht Hf. unfold health_status.
  apply severity_ordered; rewrite !orb_true_iff, ?Z.ltb_lt, ?Z.leb_le; lia.
Qed.

(** ** Samples and witnesses *)

Module FetchSamples.
Export Reference.

(** A network that numbers its queries; its JSON writes the one manifest of
    the examples as a digit. *)
Definition sample_payload : bytes := as_bytes "spex payload".
Definition sample_chunks : list Chunk := Eval vm_compute in
  default [] (chunk_data (tc_chunking small_config) sample_payload).
Definition sample_manifest : ChunkManifest := manifest_of sample_chunks sample_payload.

#[export] Instance counting_network : Network :=
  {| kad := Z;
     kad_put_record k _ _ _ := k;
     kad_start_providing k _ := k;
     kad_get_closest_peers k _ := k;
     kad_get_record k _ := (k + 1, k);
     gossip := unit;
     gossip_publish g _ _ := Ok g;
     manifest_to_json _ := Ok [x31];
     manifest_from_json b :=
       if decide (b = [x31]) then Ok sample_manifest else Err "expected value"%string |}.

#[export] Instance counting_network_ids : @QueryIdLaws counting_network.
Proof. refine {| kad_next := ((λ k : Z, k) : @kad counting_network → Z) |}; intros k h; cbn; [done|lia]. Defined.

Definition first_query : @kad counting_network := 7.

(** The chunks, delivered in reverse order 10 milliseconds after the start. *)
Definition sample_answers : list (Z * Chunk) :=
  reverse (zip (query_ids first_query (map descriptor sample_chunks)) sample_chunks).
Definition sample_ticks : list Tick := Eval vm_compute in map (delivery 10) sample_answers.

Definition no_record (id : Z) : Tick :=
  mkTick 10 (OutboundQueryProgressed id (GetRecord FinishedWithNoAdditionalRecord)) 10.

(** A payload of one chunk, and a first answer with other bytes. *)
Definition one_chunk : Chunk := Eval vm_compute in
  default (mkChunk 0 [] []) (chunk_data (tc_chunking small_config) [x61; x62] ≫= head).
Definition wrong_tick : Tick :=
  mkTick 10 (OutboundQueryProgressed 7 (GetRecord (FoundRecord (ch_hash one_chunk) [x63]))) 10.

Lemma fetched_samples_collision_free :
  collision_free (tick_values sample_ticks ++ map ch_data sample_chunks).
Proof.
  set (all := tick_values sample_ticks ++ map ch_data sample_chunks).
  assert (forallb (λ x, forallb (λ y, negb (bool_decide (sha256 x = sha256 y)) || bool_decide (x = y)) all)
    all = true) as Hall by (vm_compute; reflexivity).
  rewrite forallb_forall in Hall. intros x y Hx%list_elem_of_In Hy%list_elem_of_In Hxy.
  specialize (Hall x Hx). rewrite forallb_forall in Hall. specialize (Hall y Hy).
  rewrite bool_decide_true in Hall by done. by apply bool_decide_eq_true in Hall.
Qed.

Lemma sample_chunks_distinct : NoDup (map ch_hash sample_chunks).
Proof. apply (bool_decide_eq_true_1 _). vm_compute. reflexivity. Qed.

Lemma metrics_default_ok : metrics_ok metrics_default.
Proof. repeat split; cbn; lia. Qed.

End FetchSamples.
Import FetchSamples.

Lemma fetch_returns_published_witness : sample_payload = sample_payload.
Proof.
  apply (fetch_returns_published small_config 6 100 10 sample_ticks sample_payload sample_chunks
    first_query metrics_default 10
    (record_success "query" 10 (record_attempt "query" metrics_default)));
    [by vm_compute|vm_compute; reflexivity|apply sample_chunks_distinct
    |apply fetched_samples_collision_free|vm_compute; reflexivity].
Defined.




(** Two answers without a record, then the chunks. *)
Lemma fetch_work_bounded_witness :
  (fetch_answers (expected_hashes sample_manifest) HashSha256 6 100
     ([no_record 7; no_record 10] ++ sample_ticks) (fetch_init first_query metrics_default sample_manifest)
   <= 21)%nat.
Proof.
  apply (fetch_work_bounded small_config 6 100 ([no_record 7; no_record 10] ++ sample_ticks)
    sample_manifest first_query metrics_default). lia.
Defined.

(** One message that does not parse and one that is recovered. *)
Lemma recovery_accounting_witness :
  ∃ k' m' recovered,
    recover_inbox small_config 6 2 [([x30], mkFetchRun 100 10 []); ([x31], mkFetchRun 100 10 sample_ticks)]
      50 first_query metrics_default = Some (k', m', recovered) ∧
    zlen recovered + failures m' = 2.
Proof.
  do 3 eexists. split; [vm_compute; reflexivity|].
  apply (recovery_accounting small_config 6 2
    [([x30], mkFetchRun 100 10 []); ([x31], mkFetchRun 100 10 sample_ticks)] 50 first_query metrics_default 10);
    [apply metrics_default_ok|by vm_compute| |vm_compute; reflexivity].
  split; [apply metrics_default_ok|..]; by vm_compute.
Defined.

Lemma wrong_record_ends_query_witness :
  recover_payload_from_manifest small_config 6 100 10 [wrong_tick; delivery 10 (7, one_chunk)]
    (manifest_of [one_chunk] [x61; x62]) first_query metrics_default
  = Some (8, record_success "query" 10 (record_attempt "query" metrics_default),
          Err (MissingChunk (hex_encode (ch_hash one_chunk)))).
Proof.
  apply (wrong_record_ends_query small_config 6 100 10 wrong_tick [delivery 10 (7, one_chunk)]
    [x61; x62] one_chunk first_query metrics_default (ch_hash one_chunk) [x63]);
    [by vm_compute|vm_compute; reflexivity|reflexivity|by vm_compute|].
  apply (bool_decide_eq_true_1 _). vm_compute. reflexivity.
Defined.

Lemma announcement_returns_witness :
  ∃ j res, Z.of_nat j <= 2 ∧
    publish_loop 2 100 0 [(NoPeersSubscribedToTopic, 10); (Published, 20); (Published, 30)] metrics_default
    = Some (match res with
            | Err (Libp2p _) => record_timeout "publish" (Nat.iter j (record_retry "publish") metrics_default)
            | _ => Nat.iter j (record_retry "publish") metrics_default
            end, res).
Proof. apply announcement_returns. by vm_compute. Defined.

Lemma rates_exact_witness :
  let m := record_success "publish" 5 (record_attempt "publish" metrics_default) in
  publish_success_rate_bps m <= 10000 ∧ recovery_timeout_rate_bps m <= 10000.
Proof.
  apply (rates_exact (record_success "publish" 5 (record_attempt "publish" metrics_default)));
    [|by vm_compute..]. repeat split; cbn; by vm_compute.
Defined.
