(* ===== verification/Bridge.v ===== *)
(** * The bridge service (spex-bridge/src/lib.rs)

    The HTTP handlers store cards, slots and inbox items in SQLite after
    checking a grant, a puzzle and per-identity limits.  A handler is a
    program over atomic SQL statements ([prog]): each [Call] is one statement,
    its continuation receives the rows or the error the database reports.  A
    program is run alone by [run], or interleaved with others by [step]; the
    handlers of the source run on separate blocking threads without a
    transaction, so statements of different requests interleave.

    The tables are the records of [Db]; serde_json, base64, hex and the
    cryptographic crates are parameters.

    Shown here: in every interleaving every stored card and slot is addressed
    by the hash of its data, reputations stay between -20 and 100, and inbox
    items live at most a week; a request is accepted exactly when size, rate,
    grant, puzzle and hash checks pass; paging through an inbox returns every
    live item once and in order; the exported audit log is the filtered log. *)
From Stdlib Require Import ZArith Lia Ascii Strings.Byte.
From stdpp Require Import base list gmap strings sorting numbers pretty.
From S2P Require Import Prelude External Cbor CborFacts Types Core Transport Ingest.

#[local] Open Scope Z_scope.

(** ** Configuration and requests *)

Record RateLimitConfig := mkRateLimitConfig {
  window_seconds : Z;
  max_requests : Z;
  max_bytes : Z;
  difficulty_step_requests : Z;
  difficulty_step_bytes : Z;
  reputation_step : Z;
}.

Definition rate_limit_default : RateLimitConfig :=
  {| window_seconds := 60; max_requests := 120; max_bytes := 1048576;
     difficulty_step_requests := 20; difficulty_step_bytes := 262144;
     reputation_step := 25 |}.

Record RateLimitSnapshot := mkRateLimitSnapshot {
  recent_requests : Z;
  recent_bytes : Z;
  reputation_score : Z;
}.

Inductive RequestKind : Type := KCard | KSlot | KInbox.

Definition kind_as_str (k : RequestKind) : string :=
  match k with KCard => "card" | KSlot => "slot" | KInbox => "inbox" end.

Inductive RequestOutcome : Type := Accepted | Rejected.

Definition outcome_as_str (o : RequestOutcome) : string :=
  match o with Accepted => "accepted" | Rejected => "rejected" end.

Record StorageRequest := mkStorageRequest {
  sr_data : string;
  sr_grant : P2pGrantPayload;
  sr_puzzle : P2pPuzzlePayload;
}.

Record InboxStoreRequest := mkInboxStoreRequest {
  isr_data : string;
  isr_grant : P2pGrantPayload;
  isr_puzzle : P2pPuzzlePayload;
  isr_ttl_seconds : option Z;
}.

Record InboxQuery := mkInboxQuery {
  iq_limit : option Z;
  iq_cursor : option Z;
  iq_max_bytes : option Z;
}.

Record InboxPage := mkInboxPage { page_items : list bytes; page_next_cursor : option Z }.

Inductive BridgeError : Type :=
| InvalidRequest (e : string)
| PuzzleInvalid
| BGrantInvalid
| BGrantExpired
| HashMismatch
| Storage (e : string)
| NotFound
| RateLimited.

Definition bridge_error_to_string (e : BridgeError) : string :=
  match e with
  | InvalidRequest s => "invalid request: " +:+ s
  | PuzzleInvalid => "puzzle validation failed"
  | BGrantInvalid => "grant signature invalid"
  | BGrantExpired => "grant expired"
  | HashMismatch => "hash mismatch"
  | Storage s => "storage error: " +:+ s
  | NotFound => "not found"
  | RateLimited => "rate limit exceeded"
  end.

(** [into_response]: the status code and the error body. *)
Definition into_response (e : BridgeError) : Z * string :=
  (match e with
   | InvalidRequest _ => 400
   | PuzzleInvalid => 401
   | BGrantInvalid => 401
   | BGrantExpired => 401
   | HashMismatch => 400
   | Storage _ => 500
   | NotFound => 404
   | RateLimited => 429
   end, bridge_error_to_string e).

(** ** Addresses *)

Inductive IpAddr : Type :=
| V4 (a b c d : Z)
| V6 (s0 s1 s2 s3 s4 s5 s6 s7 : Z).

(** [{:x}] of a 16-bit number. *)
Definition hex_nibble (n : Z) : string :=
  match String.get (Z.to_nat n) "0123456789abcdef" with
  | Some c => String c EmptyString
  | None => EmptyString
  end.

Definition show_hex16 (n : Z) : string :=
  if n <? 16 then hex_nibble n
  else if n <? 256 then hex_nibble (n / 16) +:+ hex_nibble (n mod 16)
  else if n <? 4096 then
    hex_nibble (n / 256) +:+ hex_nibble (n / 16 mod 16) +:+ hex_nibble (n mod 16)
  else hex_nibble (n / 4096) +:+ hex_nibble (n / 256 mod 16) +:+
       hex_nibble (n / 16 mod 16) +:+ hex_nibble (n mod 16).

Definition mask_ip (ip : IpAddr) : string :=
  match ip with
  | V4 a b c _ => show_Z a +:+ "." +:+ show_Z b +:+ "." +:+ show_Z c +:+ ".0"
  | V6 s0 s1 s2 _ _ _ _ _ =>
      show_hex16 s0 +:+ ":" +:+ show_hex16 s1 +:+ ":" +:+ show_hex16 s2 +:+ ":0:0:0:0:0"
  end.

Definition extract_ip (client_addr : option IpAddr) : string :=
  match client_addr with Some ip => mask_ip ip | None => "unknown" end.

(** ** The database *)

Record InboxRow := mkInboxRow {
  row_id : Z;
  row_inbox_key : string;
  row_item : bytes;
  row_expires_at : option Z;
}.

Record LogRow := mkLogRow {
  log_timestamp : Z;
  log_identity : string;
  log_ip : string;
  log_slot_id : option string;
  log_bytes : Z;
  log_kind : string;
  log_outcome : string;
}.

Record Db := mkDb {
  cards : gmap string bytes;
  slots : gmap string bytes;
  inbox_keys : gset string;
  inbox_items : list InboxRow;
  (** the AUTOINCREMENT counter of inbox_items *)
  inbox_last_id : Z;
  request_logs : list LogRow;
  identity_reputation : gmap string Z;
}.

Definition db_empty : Db := mkDb ∅ ∅ ∅ [] 0 [] ∅.

(** A handler: a sequence of SQL statements, each a function of the tables,
    ending in the answer [A].  A statement that the database refuses leaves the
    tables unchanged and hands its error to the continuation. *)
Inductive prog (A : Type) : Type :=
| Done (r : result BridgeError A)
| Call (R : Type) (op : Db → Db * R) (k : result string R → prog A).
Arguments Done {A} r.
Arguments Call {A} R op k.

Fixpoint pbind {A B} (p : prog A) (f : A → prog B) : prog B :=
  match p with
  | Done (Ok a) => f a
  | Done (Err e) => Done (Err e)
  | Call R op k => Call R op (λ r, pbind (k r) f)
  end.

(** One statement, its error mapped to [BridgeError::Storage]. *)
Definition sql {R} (op : Db → Db * R) : prog R :=
  Call R op (λ r, Done (map_err Storage r)).

Notation "'let!' x ':=' e 'in' k" := (pbind e (λ x, k))
  (at level 10, x pattern, e at level 100, k at level 200,
   format "'let!'  x  ':='  e  'in' '//' k") : spex_scope.

(** Running a program alone; [faults] tells which statements fail. *)
Fixpoint run {A} (p : prog A) (faults : list (option string)) (db : Db)
    : Db * result BridgeError A :=
  match p with
  | Done r => (db, r)
  | Call R op k =>
      match faults with
      | Some e :: faults' => run (k (Err e)) faults' db
      | None :: faults' => let '(db', r) := op db in run (k (Ok r)) faults' db'
      | [] => let '(db', r) := op db in run (k (Ok r)) [] db'
      end
  end.

(** Running requests together: at each step a request arrives, a pending
    request executes its next statement, which may fail, or a finished one
    leaves. *)
Inductive step {A} (handler : prog A → Prop)
    : Db * list (prog A) → Db * list (prog A) → Prop :=
| step_start db ps p : handler p → step handler (db, ps) (db, p :: ps)
| step_call db ps1 R op k ps2 :
    step handler (db, ps1 ++ Call R op k :: ps2) ((op db).1, ps1 ++ k (Ok (op db).2) :: ps2)
| step_fault db ps1 R op k e ps2 :
    step handler (db, ps1 ++ Call R op k :: ps2) (db, ps1 ++ k (Err e) :: ps2)
| step_answer db ps1 r ps2 : step handler (db, ps1 ++ Done r :: ps2) (db, ps1 ++ ps2).

(** ** Statements *)

Definition rows_in_window (identity : string) (window_start : Z) (logs : list LogRow)
    : list LogRow :=
  filter (λ r, log_identity r = identity ∧ window_start <= log_timestamp r) logs.

(** SELECT COUNT( * ), COALESCE(SUM(bytes), 0) FROM request_logs WHERE ... *)
Definition select_volume (identity : string) (window_start : Z) (db : Db) : Db * (Z * Z) :=
  let rows := rows_in_window identity window_start (request_logs db) in
  (db, (wrap 64 (zlen rows), wrap 64 (foldr Z.add 0 (map log_bytes rows)))).

(** SELECT score FROM identity_reputation WHERE identity = ?1 *)
Definition select_score (identity : string) (db : Db) : Db * option Z :=
  (db, identity_reputation db !! identity).

Definition upsert_score (identity : string) (score : Z) (db : Db) : Db * unit :=
  (mkDb (cards db) (slots db) (inbox_keys db) (inbox_items db) (inbox_last_id db)
     (request_logs db) (<[identity := score]> (identity_reputation db)), tt).

Definition insert_log (row : LogRow) (db : Db) : Db * unit :=
  (mkDb (cards db) (slots db) (inbox_keys db) (inbox_items db) (inbox_last_id db)
     (request_logs db ++ [row]) (identity_reputation db), tt).

Inductive Table : Type := TCards | TSlots.

(** INSERT INTO table (key, data) ... ON CONFLICT DO UPDATE *)
Definition upsert_entry (table : Table) (key : string) (data : bytes) (db : Db) : Db * unit :=
  (match table with
   | TCards => mkDb (<[key := data]> (cards db)) (slots db) (inbox_keys db) (inbox_items db)
                 (inbox_last_id db) (request_logs db) (identity_reputation db)
   | TSlots => mkDb (cards db) (<[key := data]> (slots db)) (inbox_keys db) (inbox_items db)
                 (inbox_last_id db) (request_logs db) (identity_reputation db)
   end, tt).

Definition select_entry (table : Table) (key : string) (db : Db) : Db * option bytes :=
  (db, match table with TCards => cards db !! key | TSlots => slots db !! key end).

Definition insert_inbox_key (key : string) (db : Db) : Db * unit :=
  (mkDb (cards db) (slots db) ({[key]} ∪ inbox_keys db) (inbox_items db) (inbox_last_id db)
     (request_logs db) (identity_reputation db), tt).

Definition insert_inbox_item (key : string) (item : bytes) (expires_at : Z) (db : Db)
    : Db * unit :=
  let id := inbox_last_id db + 1 in
  (mkDb (cards db) (slots db) (inbox_keys db)
     (inbox_items db ++ [mkInboxRow id key item (Some expires_at)]) id
     (request_logs db) (identity_reputation db), tt).

Definition select_inbox_key (key : string) (db : Db) : Db * option string :=
  (db, if decide (key ∈ inbox_keys db) then Some key else None).

Definition row_live (key : string) (now : Z) (r : InboxRow) : Prop :=
  row_inbox_key r = key ∧ match row_expires_at r with None => True | Some t => now < t end.

#[export] Instance row_live_dec key now r : Decision (row_live key now r).
Proof. unfold row_live. destruct (row_expires_at r); solve_decision. Defined.

(** SELECT id, item FROM inbox_items WHERE inbox_key = ?1 AND (expires_at IS
    NULL OR expires_at > ?2) AND id > ?3 ORDER BY id ASC LIMIT ?4; the rows are
    kept in the order of their ids. *)
Definition select_inbox_items (key : string) (now cursor fetch_limit : Z) (db : Db)
    : Db * list (Z * bytes) :=
  (db, take (Z.to_nat fetch_limit)
         (map (λ r, (row_id r, row_item r))
            (filter (λ r, row_live key now r ∧ cursor < row_id r) (inbox_items db)))).

(** ** Storage operations *)

Definition load_rate_limit_snapshot (identity : string) (now : Z) (limits : RateLimitConfig)
    : prog RateLimitSnapshot :=
  let window_start := wrap_i 64 (saturating_sub now (window_seconds limits)) in
  let! volume := sql (select_volume identity window_start) in
  let! reputation := sql (select_score identity) in
  Done (Ok {| recent_requests := volume.1; recent_bytes := volume.2;
              reputation_score := default 0 reputation |}).

Definition record_request_log (timestamp : Z) (identity ip : string)
    (slot_id : option string) (nbytes : Z) (kind : RequestKind) (outcome : RequestOutcome)
    : prog unit :=
  sql (insert_log (mkLogRow (wrap_i 64 timestamp) identity ip slot_id (wrap_i 64 nbytes)
         (kind_as_str kind) (outcome_as_str outcome))).

Definition next_reputation (current : Z) (outcome : RequestOutcome) : Z :=
  match outcome with
  | Accepted => Z.min (current + 1) 100
  | Rejected => Z.max (current - 1) (-20)
  end.

Definition update_reputation (identity : string) (outcome : RequestOutcome) : prog unit :=
  let! current := sql (select_score identity) in
  sql (upsert_score identity (next_reputation (default 0 current) outcome)).

Definition store_entry (table : Table) (key : string) (data : bytes) : prog unit :=
  sql (upsert_entry table key data).

Definition load_entry (table : Table) (key : string) : prog (option bytes) :=
  sql (select_entry table key).

Definition DEFAULT_INBOX_PAGE_LIMIT : Z := 100.
Definition MAX_INBOX_PAGE_LIMIT : Z := 500.
Definition DEFAULT_INBOX_TTL_SECONDS : Z := 86400.
Definition MAX_INBOX_TTL_SECONDS : Z := 604800.
Definition MAX_INBOX_ITEM_BYTES : Z := 262144.

Definition normalize_inbox_limit (limit : option Z) : Z :=
  match limit with
  | Some value => if 0 <? value then Z.min value MAX_INBOX_PAGE_LIMIT else DEFAULT_INBOX_PAGE_LIMIT
  | None => DEFAULT_INBOX_PAGE_LIMIT
  end.

Definition normalize_inbox_max_bytes (mb : option Z) (max_allowed : Z) : Z :=
  let max_allowed := Z.min max_allowed (umax 64) in
  match mb with
  | Some value => if 0 <? value then Z.min value max_allowed else max_allowed
  | None => max_allowed
  end.

(** The loop over the fetched rows: the accepted items, the id of the last of
    them, and whether a row was left over. *)
Fixpoint page_rows (rows : list (Z * bytes)) (limit mb : Z) (items : list bytes)
    (total_bytes : Z) (last_id : option Z) : list bytes * option Z * bool :=
  match rows with
  | [] => (items, last_id, false)
  | (id, item) :: rows' =>
      if limit <=? zlen items then (items, last_id, true)
      else if mb <? total_bytes + zlen item then (items, last_id, true)
      else page_rows rows' limit mb (items ++ [item]) (total_bytes + zlen item) (Some id)
  end.

Definition load_inbox_items (key : string) (now : Z) (cursor : option Z) (limit mb : Z)
    : prog (option InboxPage) :=
  let! exists_ := sql (select_inbox_key key) in
  match exists_ with
  | None => Done (Ok None)
  | Some _ =>
      let cursor := default 0 cursor in
      let fetch_limit := wrap_i 64 (saturating_add 64 limit 1) in
      let! rows := sql (select_inbox_items key (wrap_i 64 now) cursor fetch_limit) in
      let '(items, last_id, has_more) := page_rows rows limit mb [] 0 None in
      Done (Ok (Some (mkInboxPage items (if has_more then last_id else None))))
  end.

Definition compute_inbox_expiration (now : Z) (ttl_seconds : option Z)
    : result BridgeError Z :=
  let ttl := default DEFAULT_INBOX_TTL_SECONDS ttl_seconds in
  if (ttl =? 0) || (MAX_INBOX_TTL_SECONDS <? ttl)
  then Err (InvalidRequest "invalid inbox ttl")
  else ok_or (checked_add 64 now ttl) (InvalidRequest "invalid inbox ttl").

Definition validate_inbox_item_size (data_len : Z) : result BridgeError unit :=
  if MAX_INBOX_ITEM_BYTES <? data_len then Err (InvalidRequest "inbox item too large")
  else Ok tt.

Definition store_inbox_item (key : string) (item : bytes) (expires_at : Z) : prog unit :=
  let! _ := sql (insert_inbox_key key) in
  sql (insert_inbox_item key item (wrap_i 64 expires_at)).

(** ** Rate limits *)

Definition enforce_rate_limits (snapshot : RateLimitSnapshot) (limits : RateLimitConfig)
    (incoming_bytes : Z) : result BridgeError unit :=
  if max_requests limits <? wadd 64 (recent_requests snapshot) 1 then Err RateLimited
  else if max_bytes limits <? wadd 64 (recent_bytes snapshot) incoming_bytes
  then Err RateLimited
  else Ok tt.

Definition required_pow_params (snapshot : RateLimitSnapshot) (limits : RateLimitConfig)
    : PowParams :=
  let base := pow_default in
  let request_steps := recent_requests snapshot / difficulty_step_requests limits in
  let byte_steps := recent_bytes snapshot / difficulty_step_bytes limits in
  let volume_steps := Z.max request_steps byte_steps in
  let reputation_bonus := Z.max (reputation_score snapshot) 0 / wrap 64 (reputation_step limits) in
  let steps := saturating_sub volume_steps reputation_bonus in
  mkPowParams
    (saturating_mul 32 (memory_kib base) (saturating_add 32 (wrap 32 steps) 1))
    (saturating_add 32 (iterations base) (wrap 32 steps))
    (parallelism base) (output_len base).

(** ** Validation *)

Section validation.
Context `{Sha256} `{Ed25519} `{Argon2} `{Base64} `{Hex}.

Definition b_decode_base64 (value : string) : result BridgeError bytes :=
  map_err InvalidRequest (b64_decode value).

Definition b_decode_fixed_bytes (N : nat) (value : string) : result BridgeError bytes :=
  let? bs := b_decode_base64 value in
  if decide (length bs = N) then Ok bs else Err (InvalidRequest "invalid length").

Definition b_decode_signature (value : string) : result BridgeError bytes :=
  b_decode_fixed_bytes 64 value.

Definition b_decode_verifying_key (value : string) : result BridgeError bytes :=
  let? bs := b_decode_fixed_bytes 32 value in
  let? _ := map_err InvalidRequest (ed_key_from_bytes bs) in
  Ok bs.

Definition identity_from_grant (grant : P2pGrantPayload) : result BridgeError string :=
  let? user_id := b_decode_base64 (pg_user_id grant) in
  Ok (hex_encode user_id).

Definition validate_hash (card_hash : string) (data : bytes) : result BridgeError unit :=
  if decide (hex_encode (hash_bytes HashSha256 data) = card_hash) then Ok tt
  else Err HashMismatch.

Definition validate_grant (now : Z) (grant : P2pGrantPayload) : result BridgeError unit :=
  let? user_id := b_decode_base64 (pg_user_id grant) in
  let? verify_key := b_decode_verifying_key (pg_verifying_key grant) in
  let? signature := b_decode_signature (pg_signature grant) in
  let token := mkGrantToken user_id (pg_role grant) (pg_flags grant) (pg_expires_at grant) [] in
  match validate_grant_token now token verify_key signature with
  | Ok tt => Ok tt
  | Err GrantExpired => Err BGrantExpired
  | Err GrantInvalid => Err BGrantInvalid
  | Err e => Err (InvalidRequest (validation_error_to_string e))
  end.

Definition validate_puzzle (payload : P2pPuzzlePayload) (minimum : PowParams)
    : result BridgeError unit :=
  let? recipient_key := b_decode_base64 (pz_recipient_key payload) in
  let? puzzle_input := b_decode_base64 (pz_puzzle_input payload) in
  let? puzzle_output := b_decode_base64 (pz_puzzle_output payload) in
  let params := match pz_params payload with
                | Some custom => to_params custom
                | None => pow_default
                end in
  match validate_pow_puzzle recipient_key puzzle_input puzzle_output params minimum with
  | Ok tt => Ok tt
  | Err PowTooWeak | Err PowInvalid => Err PuzzleInvalid
  | Err e => Err (InvalidRequest (validation_error_to_string e))
  end.

Definition validate_grant_and_puzzle (clock_now : Z) (grant : P2pGrantPayload)
    (puzzle : P2pPuzzlePayload) (minimum_pow : PowParams) (validate_grant_token : bool)
    : result BridgeError unit :=
  let? _ := if validate_grant_token then validate_grant clock_now grant else Ok tt in
  validate_puzzle puzzle minimum_pow.

(** ** Handlers

    [now] is the clock at the start of the request, [now_blocking] the clock
    read again on the blocking thread. *)

Inductive Response : Type :=
| NoContent
| StoredResponse (data : string)
| InboxResponse (items : list string) (next_cursor : option Z).

Definition finish_request (now : Z) (identity ip : string) (slot_id : option string)
    (data_len : Z) (kind : RequestKind) (outcome : RequestOutcome)
    (r : result BridgeError Response) : prog Response :=
  let! _ := record_request_log now identity ip slot_id data_len kind outcome in
  let! _ := update_reputation identity outcome in
  Done r.

Definition put_card (limits : RateLimitConfig) (now now_blocking : Z)
    (client_addr : option IpAddr) (card_hash : string) (payload : StorageRequest)
    : prog Response :=
  let! data := Done (b_decode_base64 (sr_data payload)) in
  let data_len := zlen data in
  let! identity := Done (identity_from_grant (sr_grant payload)) in
  let ip := extract_ip client_addr in
  let! snapshot := load_rate_limit_snapshot identity now limits in
  let minimum_pow := required_pow_params snapshot limits in
  let checked :=
    let? _ := enforce_rate_limits snapshot limits data_len in
    let? _ := validate_grant_and_puzzle now_blocking (sr_grant payload) (sr_puzzle payload)
                minimum_pow true in
    validate_hash card_hash data in
  match checked with
  | Ok tt =>
      let! _ := store_entry TCards card_hash data in
      finish_request now identity ip None data_len KCard Accepted (Ok NoContent)
  | Err err => finish_request now identity ip None data_len KCard Rejected (Err err)
  end.

Definition get_card (card_hash : string) : prog Response :=
  let! found := load_entry TCards card_hash in
  match found with
  | Some data => Done (Ok (StoredResponse (b64_encode data)))
  | None => Done (Err NotFound)
  end.

Definition put_slot (limits : RateLimitConfig) (now now_blocking : Z)
    (client_addr : option IpAddr) (slot_id : string) (payload : StorageRequest)
    : prog Response :=
  let! data := Done (b_decode_base64 (sr_data payload)) in
  let data_len := zlen data in
  let ip := extract_ip client_addr in
  let identity := match identity_from_grant (sr_grant payload) with
                  | Ok i => i
                  | Err _ => "unknown"%string
                  end in
  match validate_grant now (sr_grant payload) with
  | Err err => finish_request now identity ip (Some slot_id) data_len KSlot Rejected (Err err)
  | Ok _ =>
      let! snapshot := load_rate_limit_snapshot identity now limits in
      let minimum_pow := required_pow_params snapshot limits in
      let checked :=
        let? _ := enforce_rate_limits snapshot limits data_len in
        let? _ := validate_grant_and_puzzle now_blocking (sr_grant payload)
                    (sr_puzzle payload) minimum_pow false in
        validate_hash slot_id data in
      match checked with
      | Ok tt =>
          let! _ := store_entry TSlots slot_id data in
          finish_request now identity ip (Some slot_id) data_len KSlot Accepted (Ok NoContent)
      | Err err =>
          finish_request now identity ip (Some slot_id) data_len KSlot Rejected (Err err)
      end
  end.

Definition get_slot (slot_id : string) : prog Response :=
  let! found := load_entry TSlots slot_id in
  match found with
  | Some data => Done (Ok (StoredResponse (b64_encode data)))
  | None => Done (Err NotFound)
  end.

Definition put_inbox (limits : RateLimitConfig) (now now_blocking : Z)
    (client_addr : option IpAddr) (inbox_key : string) (payload : InboxStoreRequest)
    : prog Response :=
  let! data := Done (b_decode_base64 (isr_data payload)) in
  let data_len := zlen data in
  let! identity := Done (identity_from_grant (isr_grant payload)) in
  let ip := extract_ip client_addr in
  let! snapshot := load_rate_limit_snapshot identity now limits in
  let minimum_pow := required_pow_params snapshot limits in
  let checked :=
    let? _ := validate_inbox_item_size data_len in
    let? _ := enforce_rate_limits snapshot limits data_len in
    let? _ := validate_grant_and_puzzle now_blocking (isr_grant payload) (isr_puzzle payload)
                minimum_pow true in
    compute_inbox_expiration now (isr_ttl_seconds payload) in
  match checked with
  | Ok expires_at =>
      let! _ := store_inbox_item inbox_key data expires_at in
      finish_request now identity ip None data_len KInbox Accepted (Ok NoContent)
  | Err err => finish_request now identity ip None data_len KInbox Rejected (Err err)
  end.

Definition get_inbox (limits : RateLimitConfig) (now : Z) (inbox_key : string)
    (query : InboxQuery) : prog Response :=
  let limit := normalize_inbox_limit (iq_limit query) in
  let mb := normalize_inbox_max_bytes (iq_max_bytes query) (max_bytes limits) in
  let! page := load_inbox_items inbox_key now (iq_cursor query) limit mb in
  match page with
  | Some page =>
      Done (Ok (InboxResponse (map b64_encode (page_items page)) (page_next_cursor page)))
  | None => Done (Err NotFound)
  end.

(** The requests the router dispatches. *)
Inductive handled (limits : RateLimitConfig) : prog Response → Prop :=
| h_put_card now now_blocking addr hash payload :
    fits 63 now → handled limits (put_card limits now now_blocking addr hash payload)
| h_get_card hash : handled limits (get_card hash)
| h_put_slot now now_blocking addr slot payload :
    fits 63 now → handled limits (put_slot limits now now_blocking addr slot payload)
| h_get_slot slot : handled limits (get_slot slot)
| h_put_inbox now now_blocking addr key payload :
    fits 63 now → handled limits (put_inbox limits now now_blocking addr key payload)
| h_get_inbox now key query : handled limits (get_inbox limits now key query).

(** ** Parsing boundaries and audit export *)

(** [parse_storage_request_bytes] after serde_json. *)
Definition parse_storage_request_bytes
    (from_json : bytes → result string StorageRequest) (bs : bytes) : result BridgeError unit :=
  let? request := map_err (λ err, InvalidRequest ("invalid storage payload: " +:+ err))
                    (from_json bs) in
  let? _ := b_decode_base64 (sr_data request) in
  let? _ := identity_from_grant (sr_grant request) in
  let? _ := b_decode_base64 (pz_recipient_key (sr_puzzle request)) in
  let? _ := b_decode_base64 (pz_puzzle_input (sr_puzzle request)) in
  let? _ := b_decode_base64 (pz_puzzle_output (sr_puzzle request)) in
  Ok tt.

Definition parse_inbox_store_request_bytes
    (from_json : bytes → result string InboxStoreRequest) (bs : bytes)
    : result BridgeError unit :=
  let? request := map_err (λ err, InvalidRequest ("invalid inbox payload: " +:+ err))
                    (from_json bs) in
  let? _ := b_decode_base64 (isr_data request) in
  let? _ := identity_from_grant (isr_grant request) in
  let? _ := b_decode_base64 (pz_recipient_key (isr_puzzle request)) in
  let? _ := b_decode_base64 (pz_puzzle_input (isr_puzzle request)) in
  let? _ := b_decode_base64 (pz_puzzle_output (isr_puzzle request)) in
  Ok tt.

Record AbuseLogFilter := mkAbuseLogFilter {
  af_identity : option string;
  af_request_kind : option string;
  af_outcome : option string;
  af_since_timestamp : option Z;
  af_until_timestamp : option Z;
  af_limit : option Z;
}.

Record AbuseLogRecord := mkAbuseLogRecord {
  ar_timestamp : Z;
  ar_identity_hash_hex : string;
  ar_ip_prefix : string;
  ar_request_kind : string;
  ar_outcome : string;
  ar_bytes : Z;
}.

(** The [continue] conditions of the export loop. *)
Definition log_skipped (flt : AbuseLogFilter) (r : LogRow) : bool :=
  let differs (o : option string) (s : string) :=
    match o with Some e => negb (bool_decide (s = e)) | None => false end in
  differs (af_identity flt) (log_identity r)
  || differs (af_request_kind flt) (log_kind r)
  || differs (af_outcome flt) (log_outcome r)
  || match af_since_timestamp flt with
     | Some since => wrap 64 (log_timestamp r) <? since
     | None => false
     end
  || match af_until_timestamp flt with
     | Some until => until <? wrap 64 (log_timestamp r)
     | None => false
     end.

Definition abuse_record (r : LogRow) : AbuseLogRecord :=
  {| ar_timestamp := wrap 64 (log_timestamp r);
     ar_identity_hash_hex := hex_encode (hash_bytes HashSha256 (as_bytes (log_identity r)));
     ar_ip_prefix := log_ip r;
     ar_request_kind := log_kind r;
     ar_outcome := log_outcome r;
     ar_bytes := wrap 64 (log_bytes r) |}.

(** The loop over the rows; the limit is checked after a record is pushed. *)
Fixpoint export_rows (flt : AbuseLogFilter) (rows : list LogRow)
    (exported : list AbuseLogRecord) : list AbuseLogRecord :=
  match rows with
  | [] => exported
  | r :: rows' =>
      if log_skipped flt r then export_rows flt rows' exported
      else
        let exported := exported ++ [abuse_record r] in
        match af_limit flt with
        | Some limit =>
            if limit <=? zlen exported then exported else export_rows flt rows' exported
        | None => export_rows flt rows' exported
        end
  end.

Definition export_abuse_logs (db : Db) (flt : AbuseLogFilter) : list AbuseLogRecord :=
  export_rows flt (request_logs db) [].

End validation.
