(* ===== verification/BridgeFacts.v ===== *)
(** * Properties of the bridge

    Invariants over interleaved requests, the checks behind an accepted
    request, paging, and the audit export.

    [prog_ok I Q p] is a small program logic for [Bridge.prog]: every statement
    of [p] preserves the invariant [I] from any state that satisfies it, and a
    successful answer satisfies [Q].  It is stable under interference of other
    programs of the same kind, which is what [step_preserves] uses. *)
From Stdlib Require Import ZArith Lia Ascii Strings.Byte.
From stdpp Require Import base list gmap strings sorting numbers relations.
From S2P Require Import Prelude External Cbor CborFacts Types Core Transport Ingest Bridge.

#[local] Open Scope Z_scope.

(** ** A logic for interleaved programs *)

Fixpoint prog_ok {A} (I : Db → Prop) (Q : A → Prop) (p : prog A) : Prop :=
  match p with
  | Done (Ok a) => Q a
  | Done (Err _) => True
  | Call R op k =>
      (∀ db, I db → I (op db).1 ∧ prog_ok I Q (k (Ok (op db).2))) ∧
      (∀ e, prog_ok I Q (k (Err e)))
  end.

Section logic.
Context (I : Db → Prop).

Lemma prog_ok_bind {A B} (P : A → Prop) (Q : B → Prop) p f :
  prog_ok I P p → (∀ a, P a → prog_ok I Q (f a)) → prog_ok I Q (pbind p f).
Proof.
  intros Hp Hf. induction p as [[a|e]|R op k IH]; simpl in *; [by apply Hf|done|].
  destruct Hp as [H1 H2]. split; [|by intros e; apply IH].
  intros db Hdb. destruct (H1 db Hdb). split; [done|by apply IH].
Qed.

Lemma prog_ok_sql {R} (Q : R → Prop) (op : Db → Db * R) :
  (∀ db, I db → I (op db).1 ∧ Q (op db).2) → prog_ok I Q (sql op).
Proof. intros H. split; [|done]. intros db Hdb. by apply H. Qed.

(** A statement that only reads. *)
Lemma prog_ok_read {R} (Q : R → Prop) (op : Db → Db * R) :
  (∀ db, (op db).1 = db) → (∀ db, I db → Q (op db).2) → prog_ok I Q (sql op).
Proof. intros Hr Hq. apply prog_ok_sql. intros db Hdb. rewrite Hr. auto. Qed.

Lemma prog_ok_weaken {A} (P Q : A → Prop) p :
  (∀ a, P a → Q a) → prog_ok I P p → prog_ok I Q p.
Proof.
  intros HPQ. induction p as [[a|e]|R op k IH]; simpl; [auto|done|].
  intros [H1 H2]. split; [|auto]. intros db Hdb. destruct (H1 db Hdb). auto.
Qed.

Lemma step_preserves {A} (handler : prog A → Prop) s s' :
  (∀ p, handler p → prog_ok I (λ _, True) p) →
  step handler s s' →
  I s.1 ∧ Forall (prog_ok I (λ _, True)) s.2 →
  I s'.1 ∧ Forall (prog_ok I (λ _, True)) s'.2.
Proof.
  intros Hh Hs. destruct Hs as [db ps p Hp|db ps1 R op k ps2|db ps1 R op k e ps2|db ps1 r ps2];
    simpl; intros [Hdb Hps].
  - split; [done|]. constructor; auto.
  - apply Forall_app in Hps as [H1 H2]. inversion H2 as [|? ? Hc H2']; subst.
    destruct Hc as [Hop _], (Hop db Hdb). split; [done|]. apply Forall_app. by repeat constructor.
  - apply Forall_app in Hps as [H1 H2]. inversion H2 as [|? ? Hc H2']; subst.
    destruct Hc as [_ He]. split; [done|]. apply Forall_app. by repeat constructor.
  - apply Forall_app in Hps as [H1 H2]. inversion H2; subst.
    split; [done|]. by apply Forall_app.
Qed.

Lemma reachable_preserves {A} (handler : prog A → Prop) s s' :
  (∀ p, handler p → prog_ok I (λ _, True) p) →
  rtc (step handler) s s' →
  I s.1 ∧ Forall (prog_ok I (λ _, True)) s.2 → I s'.1.
Proof.
  intros Hh Hs. induction Hs as [s|s1 s2 s3 Hstep Hs IH]; [by intros [? _]|].
  intros Hok. apply IH. by eapply step_preserves.
Qed.

End logic.

(** ** The invariant of the tables *)

Section invariant.
Context `{SH : Sha256} `{ED : Ed25519} `{AR : Argon2} `{B6 : Base64} `{HX : Hex}.

Definition addressed (m : gmap string bytes) : Prop :=
  ∀ k d, m !! k = Some d → hex_encode (sha256 d) = k.

(** Rows have ascending positive ids up to the counter and bounded items. *)
Definition rows_ok (rows : list InboxRow) (last : Z) : Prop :=
  StronglySorted (λ a b, row_id a < row_id b) rows ∧
  Forall (λ r, 0 < row_id r <= last ∧ zlen (row_item r) <= MAX_INBOX_ITEM_BYTES) rows.

Record db_inv (db : Db) : Prop := {
  inv_cards : addressed (cards db);
  inv_slots : addressed (slots db);
  inv_scores : ∀ i s, identity_reputation db !! i = Some s → -20 <= s <= 100;
  inv_rows : rows_ok (inbox_items db) (inbox_last_id db);
  inv_last : 0 <= inbox_last_id db;
}.

Lemma db_inv_empty : db_inv db_empty.
Proof.
  split; simpl; try (intros ? ? Hx; by rewrite lookup_empty in Hx); [split; constructor|lia].
Qed.

Lemma addressed_insert m k d :
  addressed m → hex_encode (sha256 d) = k → addressed (<[k := d]> m).
Proof.
  intros Hm Hk k' d'. rewrite lookup_insert_Some. intros [[<- <-]|[_ Hl]]; [done|by apply Hm].
Qed.

Lemma rows_ok_snoc rows last key item t :
  rows_ok rows last → 0 <= last → zlen item <= MAX_INBOX_ITEM_BYTES →
  rows_ok (rows ++ [mkInboxRow (last + 1) key item (Some t)]) (last + 1).
Proof.
  intros [Hs Hf] Hl Hi. split.
  - apply StronglySorted_app; [done|repeat constructor|].
    intros x y Hx [<-|[]]. rewrite List.Forall_forall in Hf. specialize (Hf x Hx). simpl. lia.
  - apply Forall_app. split; [|repeat constructor; simpl; lia].
    eapply List.Forall_impl; [|exact Hf]. simpl. lia.
Qed.

Lemma snapshot_ok identity now limits :
  prog_ok db_inv (λ s, -20 <= reputation_score s <= 100)
    (load_rate_limit_snapshot identity now limits).
Proof.
  eapply (prog_ok_bind _ (λ _, True)); [by apply prog_ok_read|]. intros vol _.
  eapply (prog_ok_bind _ (λ o, ∀ s, o = Some s → -20 <= s <= 100)).
  - apply prog_ok_read; [done|]. intros db Hdb s. apply (inv_scores _ Hdb).
  - intros [s|] Hs; simpl; [by apply Hs|lia].
Qed.

Lemma record_request_log_ok ts identity ip slot n kind outcome :
  prog_ok db_inv (λ _, True) (record_request_log ts identity ip slot n kind outcome).
Proof. apply prog_ok_sql. intros db [H1 H2 H3 H4 H5]. split; [by split|done]. Qed.

Lemma next_reputation_bounds current outcome :
  -20 <= current <= 100 → -20 <= next_reputation current outcome <= 100.
Proof. destruct outcome; simpl; lia. Qed.

Lemma update_reputation_ok identity outcome :
  prog_ok db_inv (λ _, True) (update_reputation identity outcome).
Proof.
  eapply (prog_ok_bind _ (λ o, -20 <= default 0 o <= 100)).
  - apply prog_ok_read; [done|]. intros db Hdb. simpl.
    destruct (identity_reputation db !! identity) eqn:E; simpl; [by apply (inv_scores _ Hdb) in E|lia].
  - intros o Ho. apply prog_ok_sql. intros db [H1 H2 H3 H4 H5]. split; [|done].
    split; simpl; try done. intros i s. rewrite lookup_insert_Some.
    intros [[<- <-]|[_ Hl]]; [by apply next_reputation_bounds|by eapply H3].
Qed.

Lemma finish_request_ok now identity ip slot n kind outcome r :
  prog_ok db_inv (λ _, True) (finish_request now identity ip slot n kind outcome r).
Proof.
  eapply prog_ok_bind; [apply record_request_log_ok|]. intros _ _.
  eapply prog_ok_bind; [apply update_reputation_ok|]. intros _ _. by destruct r.
Qed.

Lemma validate_hash_Ok h d : validate_hash h d = Ok tt → hex_encode (sha256 d) = h.
Proof. unfold validate_hash. simpl. by case_decide. Qed.

Lemma store_entry_ok table key data :
  hex_encode (sha256 data) = key → prog_ok db_inv (λ _, True) (store_entry table key data).
Proof.
  intros Hk. apply prog_ok_sql. intros db [H1 H2 H3 H4 H5]. split; [|done].
  destruct table; split; simpl; auto using addressed_insert.
Qed.

Lemma store_inbox_item_ok key item t :
  zlen item <= MAX_INBOX_ITEM_BYTES →
  prog_ok db_inv (λ _, True) (store_inbox_item key item t).
Proof.
  intros Hi. eapply (prog_ok_bind _ (λ _, True)).
  - apply prog_ok_sql. intros db [H1 H2 H3 H4 H5]. split; [by split|done].
  - intros _ _. apply prog_ok_sql. intros db [H1 H2 H3 H4 H5]. split; [|done].
    split; simpl; try done; [by apply rows_ok_snoc|lia].
Qed.

Lemma done_ok {A} (I : Db → Prop) (r : result BridgeError A) : prog_ok I (λ _, True) (Done r).
Proof. by destruct r. Qed.

Hint Resolve done_ok finish_request_ok store_entry_ok validate_hash_Ok snapshot_ok : core.

Lemma put_card_ok limits now nb addr h payload :
  prog_ok db_inv (λ _, True) (put_card limits now nb addr h payload).
Proof.
  eapply prog_ok_bind; [apply done_ok|]. intros data _.
  eapply prog_ok_bind; [apply done_ok|]. intros identity _.
  eapply prog_ok_bind; [apply snapshot_ok|]. intros snap _. cbv zeta.
  destruct (enforce_rate_limits _ _ _) as [[]|]; [|auto].
  destruct (validate_grant_and_puzzle _ _ _ _ _) as [[]|]; [|auto].
  destruct (validate_hash h data) as [[]|] eqn:Eh; [|auto].
  eapply prog_ok_bind; [by apply store_entry_ok, validate_hash_Ok|]. auto.
Qed.

Lemma put_slot_ok limits now nb addr h payload :
  prog_ok db_inv (λ _, True) (put_slot limits now nb addr h payload).
Proof.
  eapply prog_ok_bind; [apply done_ok|]. intros data _. cbv zeta.
  destruct (validate_grant _ _) as [[]|]; [|auto].
  eapply prog_ok_bind; [apply snapshot_ok|]. intros snap _. cbv zeta.
  destruct (enforce_rate_limits _ _ _) as [[]|]; [|auto].
  destruct (validate_grant_and_puzzle _ _ _ _ _) as [[]|]; [|auto].
  destruct (validate_hash h data) as [[]|] eqn:Eh; [|auto].
  eapply prog_ok_bind; [by apply store_entry_ok, validate_hash_Ok|]. auto.
Qed.

Lemma put_inbox_ok limits now nb addr key payload :
  prog_ok db_inv (λ _, True) (put_inbox limits now nb addr key payload).
Proof.
  eapply prog_ok_bind; [apply done_ok|]. intros data _.
  eapply prog_ok_bind; [apply done_ok|]. intros identity _.
  eapply prog_ok_bind; [apply snapshot_ok|]. intros snap _. cbv zeta.
  destruct (validate_inbox_item_size _) as [[]|] eqn:Es; [|auto].
  destruct (enforce_rate_limits _ _ _) as [[]|]; [|auto].
  destruct (validate_grant_and_puzzle _ _ _ _ _) as [[]|]; [|auto].
  destruct (compute_inbox_expiration _ _) as [t|]; [|auto].
  unfold validate_inbox_item_size in Es. destruct (_ <? _) eqn:E; [done|]. bool_to_prop.
  eapply prog_ok_bind; [by apply store_inbox_item_ok|]. auto.
Qed.

Lemma get_entry_ok table key (f : option bytes → prog Response) :
  (∀ o, prog_ok db_inv (λ _, True) (f o)) →
  prog_ok db_inv (λ _, True) (pbind (load_entry table key) f).
Proof.
  intros Hf. eapply (prog_ok_bind _ (λ _, True)); [by apply prog_ok_read|]. auto.
Qed.

Lemma get_inbox_ok limits now key query :
  prog_ok db_inv (λ _, True) (get_inbox limits now key query).
Proof.
  eapply (prog_ok_bind _ (λ _, True)); [|intros [page|] _; done].
  eapply (prog_ok_bind _ (λ _, True)); [by apply prog_ok_read|]. intros [k|] _; [|done].
  eapply (prog_ok_bind _ (λ _, True)); [by apply prog_ok_read|]. intros rows _.
  by destruct (page_rows _ _ _ _ _ _) as [[items last] more].
Qed.

Lemma handled_ok limits p : handled limits p → prog_ok db_inv (λ _, True) p.
Proof.
  destruct 1; auto using put_card_ok, put_slot_ok, put_inbox_ok, get_inbox_ok.
  - apply get_entry_ok. by intros [].
  - apply get_entry_ok. by intros [].
Qed.

End invariant.

(** ** Requests run alone *)

Lemma run_bind {A B} (p : prog A) (f : A → prog B) db :
  run (pbind p f) [] db
  = match run p [] db with
    | (db', Ok a) => run (f a) [] db'
    | (db', Err e) => (db', Err e)
    end.
Proof.
  revert db. induction p as [[a|e]|R op k IH]; intros db; simpl; [done..|].
  destruct (op db) as [db' r]. apply IH.
Qed.

Definition window_start (now : Z) (limits : RateLimitConfig) : Z :=
  wrap_i 64 (saturating_sub now (window_seconds limits)).

(** The requests of an identity that count at [now], and their bytes. *)
Definition window (db : Db) (identity : string) (now : Z) (limits : RateLimitConfig)
    : list LogRow :=
  rows_in_window identity (window_start now limits) (request_logs db).

Definition bytes_of (rows : list LogRow) : Z := foldr Z.add 0 (map log_bytes rows).

Definition snapshot_of (db : Db) (identity : string) (now : Z) (limits : RateLimitConfig)
    : RateLimitSnapshot :=
  mkRateLimitSnapshot (wrap 64 (zlen (window db identity now limits)))
    (wrap 64 (bytes_of (window db identity now limits)))
    (default 0 (identity_reputation db !! identity)).

Lemma run_snapshot identity now limits db :
  run (load_rate_limit_snapshot identity now limits) [] db
  = (db, Ok (snapshot_of db identity now limits)).
Proof. done. Qed.

(** The tables after the audit row and the reputation of a request are written. *)
Definition logged (db : Db) (now : Z) (identity ip : string) (slot : option string) (n : Z)
    (kind : RequestKind) (outcome : RequestOutcome) : Db :=
  mkDb (cards db) (slots db) (inbox_keys db) (inbox_items db) (inbox_last_id db)
    (request_logs db ++ [mkLogRow (wrap_i 64 now) identity ip slot (wrap_i 64 n)
       (kind_as_str kind) (outcome_as_str outcome)])
    (<[identity := next_reputation (default 0 (identity_reputation db !! identity)) outcome]>
       (identity_reputation db)).

Lemma run_finish now identity ip slot n kind outcome r db :
  run (finish_request now identity ip slot n kind outcome r) [] db
  = (logged db now identity ip slot n kind outcome, r).
Proof. done. Qed.

Section requests.
Context `{SH : Sha256} `{ED : Ed25519} `{AR : Argon2} `{B6 : Base64} `{HX : Hex}.

(** The checks of [put_card] on the blocking thread. *)
Definition card_checks (limits : RateLimitConfig) (now_blocking : Z) (h : string)
    (payload : StorageRequest) (data : bytes) (snap : RateLimitSnapshot)
    : result BridgeError unit :=
  let? _ := enforce_rate_limits snap limits (zlen data) in
  let? _ := validate_grant_and_puzzle now_blocking (sr_grant payload) (sr_puzzle payload)
              (required_pow_params snap limits) true in
  validate_hash h data.

Lemma run_put_card limits now nb addr h payload db :
  run (put_card limits now nb addr h payload) [] db
  = match b_decode_base64 (sr_data payload), identity_from_grant (sr_grant payload) with
    | Err e, _ => (db, Err e)
    | Ok _, Err e => (db, Err e)
    | Ok data, Ok identity =>
        match card_checks limits nb h payload data (snapshot_of db identity now limits) with
        | Ok tt => (logged (upsert_entry TCards h data db).1 now identity (extract_ip addr) None
                      (zlen data) KCard Accepted, Ok NoContent)
        | Err e => (logged db now identity (extract_ip addr) None (zlen data) KCard Rejected,
                    Err e)
        end
    end.
Proof.
  unfold put_card. rewrite run_bind. cbn [run].
  destruct (b_decode_base64 (sr_data payload)) as [data|e]; [|done].
  rewrite run_bind. cbn [run].
  destruct (identity_from_grant (sr_grant payload)) as [identity|e]; [|done].
  rewrite run_bind, run_snapshot. cbv zeta. fold (card_checks limits nb h payload data
    (snapshot_of db identity now limits)).
  destruct (card_checks _ _ _ _ _ _) as [[]|e]; [|apply run_finish].
  rewrite run_bind. cbn [run store_entry sql]. apply run_finish.
Qed.

Lemma card_checks_Ok limits nb h payload data snap :
  card_checks limits nb h payload data snap = Ok tt →
  enforce_rate_limits snap limits (zlen data) = Ok tt ∧
  validate_grant nb (sr_grant payload) = Ok tt ∧
  validate_puzzle (sr_puzzle payload) (required_pow_params snap limits) = Ok tt ∧
  hex_encode (sha256 data) = h.
Proof.
  unfold card_checks, validate_grant_and_puzzle. intros Hc.
  destruct (enforce_rate_limits _ _ _) as [[]|]; [|done].
  destruct (validate_grant _ _) as [[]|]; [|done].
  destruct (validate_puzzle _ _) as [[]|]; [|done].
  by apply validate_hash_Ok in Hc.
Qed.

End requests.

(** Counts and sums stay far below the widths at which they wrap. *)
Definition logs_ok (logs : list LogRow) : Prop :=
  zlen logs < 2 ^ 62 ∧ Forall (λ r, 0 <= log_bytes r) logs ∧ bytes_of logs < 2 ^ 62.

Lemma bytes_of_app a b : bytes_of (a ++ b) = bytes_of a + bytes_of b.
Proof. unfold bytes_of. rewrite map_app, foldr_app. induction a; simpl; lia. Qed.

Lemma bytes_of_nonneg rows : Forall (λ r, 0 <= log_bytes r) rows → 0 <= bytes_of rows.
Proof. unfold bytes_of. induction 1; simpl; lia. Qed.

Lemma window_bounds identity ws logs :
  logs_ok logs →
  zlen (rows_in_window identity ws logs) <= zlen logs ∧
  0 <= bytes_of (rows_in_window identity ws logs) <= bytes_of logs.
Proof.
  intros (_ & Hf & _). unfold rows_in_window, zlen. split; [|split].
  - apply Nat2Z.inj_le. apply length_filter.
  - apply bytes_of_nonneg. rewrite List.Forall_forall in *. intros r Hr.
    apply list_elem_of_In, list_elem_of_filter in Hr as [_ Hr]. by apply Hf, list_elem_of_In.
  - unfold bytes_of. induction Hf as [|r rows Hr Hf IH]; [done|]. rewrite filter_cons.
    case_decide; simpl; lia.
Qed.

Lemma wrap_i_small z : 0 <= z < 2 ^ 63 → wrap_i 64 z = z.
Proof.
  intros Hz. unfold wrap_i. change (2 ^ (64 - 1)) with (2 ^ 63).
  rewrite Z.mod_small; lia.
Qed.

Lemma enforce_rate_limits_Ok snap limits n :
  0 <= recent_requests snap < 2 ^ 63 → 0 <= recent_bytes snap < 2 ^ 63 → 0 <= n < 2 ^ 62 →
  enforce_rate_limits snap limits n = Ok tt →
  recent_requests snap + 1 <= max_requests limits ∧ recent_bytes snap + n <= max_bytes limits.
Proof.
  unfold enforce_rate_limits, wadd, wrap. intros Hr Hb Hn.
  rewrite !Z.mod_small by lia.
  destruct (_ <? _) eqn:E1; [done|]. destruct (max_bytes limits <? _) eqn:E2; [done|].
  bool_to_prop. lia.
Qed.

Lemma window_logged db now identity ip slot n kind outcome limits :
  0 <= now < 2 ^ 63 → 0 <= n < 2 ^ 63 → 0 <= window_seconds limits →
  window (logged db now identity ip slot n kind outcome) identity now limits
  = window db identity now limits ++
    [mkLogRow now identity ip slot n (kind_as_str kind) (outcome_as_str outcome)].
Proof.
  intros Hnow Hn Hw. unfold window, logged, rows_in_window, window_start, saturating_sub.
  cbn [request_logs]. rewrite filter_app, filter_cons, filter_nil, !wrap_i_small by lia.
  rewrite decide_True by (split; [done|simpl; lia]). done.
Qed.

Lemma window_upsert table key data db identity now limits :
  window (upsert_entry table key data db).1 identity now limits = window db identity now limits.
Proof. by destruct table. Qed.

(** ** Paging *)

Definition live_rows (db : Db) (key : string) (now cursor : Z) : list InboxRow :=
  filter (λ r, row_live key now r ∧ cursor < row_id r) (inbox_items db).

Definition row_pair (r : InboxRow) : Z * bytes := (row_id r, row_item r).

(** What the loop takes from the fetched rows. *)
Lemma page_rows_spec rows limit mb items total last_id :
  ∃ taken rest,
    rows = taken ++ rest ∧
    page_rows rows limit mb items total last_id
    = (items ++ map snd taken,
       match last (map fst taken) with Some i => Some i | None => last_id end,
       negb (bool_decide (rest = []))) ∧
    (zlen items <= limit → zlen items + zlen taken <= limit) ∧
    (taken = [] → rest = [] ∨ limit <= zlen items ∨
       ∃ i b rest', rest = (i, b) :: rest' ∧ mb < total + zlen b).
Proof.
  revert items total last_id. induction rows as [|[i b] rows IH]; intros items total last_id.
  { exists [], []. simpl. rewrite app_nil_r. split; [done|]. split; [done|].
    split; [unfold zlen; simpl; lia|auto]. }
  cbn [page_rows]. destruct (limit <=? zlen items) eqn:E1; bool_to_prop.
  { exists [], ((i, b) :: rows). simpl. rewrite app_nil_r. split; [done|]. split; [done|].
    split; [unfold zlen; simpl; lia|auto]. }
  destruct (mb <? total + zlen b) eqn:E2; bool_to_prop.
  { exists [], ((i, b) :: rows). simpl. rewrite app_nil_r. split; [done|]. split; [done|].
    split; [unfold zlen; simpl; lia|eauto 10]. }
  destruct (IH (items ++ [b]) (total + zlen b) (Some i)) as (taken & rest & -> & -> & Hl & _).
  exists ((i, b) :: taken), rest. split; [done|]. split; [|split; [|done]].
  - rewrite <-app_assoc. cbn [map fst snd]. rewrite last_cons.
    by destruct (last (map fst taken)).
  - unfold zlen in *. rewrite length_app in Hl. simpl in *. lia.
Qed.

Lemma filter_all {A} (P : A → Prop) `{∀ x, Decision (P x)} l : Forall P l → filter P l = l.
Proof. induction 1; [done|]. rewrite filter_cons, decide_True by done. by f_equal. Qed.

Lemma filter_none {A} (P : A → Prop) `{∀ x, Decision (P x)} l :
  Forall (λ x, ~ P x) l → filter P l = [].
Proof. induction 1; [done|]. by rewrite filter_cons, decide_False. Qed.

Lemma StronglySorted_app_inv {A} (R : A → A → Prop) l1 l2 :
  StronglySorted R (l1 ++ l2) →
  StronglySorted R l1 ∧ StronglySorted R l2 ∧ (∀ x y, In x l1 → In y l2 → R x y).
Proof.
  induction l1 as [|a l1 IH]; simpl; intros Hs; [split; [constructor|done]|].
  inversion Hs as [|? ? Hs' Ha]; subst. apply Forall_app in Ha as [Ha1 Ha2].
  destruct (IH Hs') as (H1 & H2 & H3). split; [by constructor|]. split; [done|].
  rewrite List.Forall_forall in Ha2. intros x y [<-|Hx] Hy; auto.
Qed.

Lemma StronglySorted_filter {A} (R : A → A → Prop) (P : A → Prop) `{∀ x, Decision (P x)} l :
  StronglySorted R l → StronglySorted R (filter P l).
Proof.
  induction 1 as [|r rows Hs IH Hr]; [constructor|].
  rewrite filter_cons. case_decide; [|done]. constructor; [done|].
  rewrite List.Forall_forall in *. intros x Hx.
  apply list_elem_of_In, list_elem_of_filter in Hx as [_ Hx]. by apply Hr, list_elem_of_In.
Qed.

(** In an ascending list, the rows after the last of a prefix are the rest. *)
Lemma filter_after_prefix (rows taken rest : list InboxRow) i :
  StronglySorted (λ a b, row_id a < row_id b) rows →
  rows = taken ++ rest → last (map row_id taken) = Some i →
  filter (λ r, i < row_id r) rows = rest.
Proof.
  intros Hs -> Hlast. apply last_Some in Hlast as [l' Hl].
  apply map_eq_app in Hl as (t1 & t2 & -> & _ & Ht2).
  destruct t2 as [|r [|? ?]]; simplify_eq/=.
  apply StronglySorted_app_inv in Hs as (Ht & _ & Hlt).
  apply StronglySorted_app_inv in Ht as (_ & _ & Hle).
  rewrite filter_app, filter_none, filter_all; [done|..].
  - apply List.Forall_forall. intros x Hx. apply Hlt; [apply in_app_iff; simpl; auto|done].
  - apply List.Forall_forall. intros x [Hx|[<-|[]]]%in_app_iff; [|lia].
    specialize (Hle x r Hx (or_introl eq_refl)). lia.
Qed.

Lemma live_rows_after db key now c i taken rest :
  rows_ok (inbox_items db) (inbox_last_id db) → c <= i →
  live_rows db key now c = taken ++ rest → last (map row_id taken) = Some i →
  live_rows db key now i = rest.
Proof.
  intros [Hs _] Hci Hl Hlast.
  assert (live_rows db key now i = filter (λ r, i < row_id r) (live_rows db key now c)) as ->.
  { unfold live_rows. rewrite list_filter_filter. apply list_filter_iff. intros r.
    split; [|tauto]. intros [Hr Hi]. split; [done|]. split; [done|lia]. }
  apply (filter_after_prefix _ taken); [|done..].
  by apply StronglySorted_filter.
Qed.

Section paging.
Context `{SH : Sha256} `{ED : Ed25519} `{AR : Argon2} `{B6 : Base64} `{!Base64Laws} `{HX : Hex}.

Lemma take_map_prefix {A B} (f : A → B) (l : list A) n taken rest :
  take n (map f l) = taken ++ rest →
  ∃ l1 l2, l = l1 ++ l2 ∧ taken = map f l1 ∧ (rest = [] → (length taken < n)%nat → l2 = []) ∧
    (rest ≠ [] → l2 ≠ []).
Proof.
  intros Ht. exists (take (length taken) l), (drop (length taken) l).
  assert (length taken <= length l ∧ length taken <= n)%nat as [Hl Hn].
  { apply (f_equal length) in Ht. rewrite length_take, length_map, length_app in Ht. lia. }
  split; [by rewrite take_drop|]. split; [|split].
  - assert (take (length taken) (take n (map f l)) = taken) as <-.
    { rewrite Ht. by rewrite take_app_length. }
    rewrite take_take, Nat.min_l by done. rewrite length_take, length_map, Nat.min_l by done.
    by rewrite firstn_map.
  - intros -> Hlt. apply drop_ge. apply (f_equal length) in Ht.
    rewrite app_nil_r, length_take, length_map in Ht. lia.
  - intros Hne Hd. apply Hne. apply (f_equal length) in Hd. rewrite length_drop in Hd.
    simpl in Hd. apply (f_equal length) in Ht.
    rewrite length_take, length_map, length_app in Ht. destruct rest; [done|]. simpl in Ht. lia.
Qed.

(** The page at a cursor: a prefix of the live rows after it; a cursor to go on
    exactly when rows are left, and progress when every item fits. *)
Lemma run_load_inbox_items db key now cursor limit mb :
  key ∈ inbox_keys db → 1 <= limit < 2 ^ 62 →
  ∃ taken rest,
    live_rows db key (wrap_i 64 now) (default 0 cursor) = taken ++ rest ∧
    run (load_inbox_items key now cursor limit mb) [] db
    = (db, Ok (Some (mkInboxPage (map row_item taken)
        (if decide (rest = []) then None else last (map row_id taken))))) ∧
    (Forall (λ r, zlen (row_item r) <= mb) (live_rows db key (wrap_i 64 now) (default 0 cursor)) →
     taken = [] → rest = []).
Proof.
  intros Hkey Hlim. unfold load_inbox_items. rewrite run_bind.
  cbn [run sql select_inbox_key map_err]. rewrite decide_True by done.
  rewrite run_bind. cbn [run sql select_inbox_items map_err].
  unfold saturating_add. rewrite Z.min_l by (unfold umax; lia). rewrite (wrap_i_small (limit + 1)) by lia.
  fold (live_rows db key (wrap_i 64 now) (default 0 cursor)).
  set (L := live_rows _ _ _ _). fold row_pair.
  change (map (λ r, (row_id r, row_item r)) L) with (map row_pair L).
  destruct (page_rows_spec (take (Z.to_nat (limit + 1)) (map row_pair L)) limit mb [] 0 None)
    as (taken & rest & Ht & -> & Hl & Hp). unfold zlen in Hl; simpl in Hl.
  destruct (take_map_prefix _ _ _ _ _ Ht) as (l1 & l2 & HL & -> & Hdone & Hmore).
  exists l1, l2. split; [done|]. rewrite !map_map. simpl app.
  rewrite (map_ext _ row_item) by done. rewrite (map_ext (λ x, (row_pair x).1) row_id) by done.
  rewrite length_map in *. split.
  - cbn [run]. do 4 f_equal. case_bool_decide as Hr; simpl.
    + rewrite decide_True; [done|]. apply Hdone; [done|]. lia.
    + rewrite decide_False by auto. by destruct (last (map row_id l1)).
  - intros Hf ->. destruct (Hp eq_refl) as [->|[?|(i & b & rest' & -> & Hb)]].
    + apply Hdone; [done|]. simpl. lia.
    + unfold zlen in *; simpl in *; lia.
    + exfalso. simpl in Ht, HL. rewrite HL in Ht, Hf. destruct l2 as [|r l2].
      { simpl in Ht. by rewrite take_nil in Ht. }
      destruct (Z.to_nat (limit + 1)) eqn:En; [done|]. simpl in Ht.
      injection Ht as <- <- _. inversion Hf; subst. lia.
Qed.

(** The bridge as the client's HTTP peer, for the query the client sends. *)
Definition bridge_http (limits : RateLimitConfig) (now : Z) (key : string) (db : Db)
    (cursor : option Z) : result TransportError BridgeInboxResponse :=
  match (run (get_inbox limits now key
           (mkInboxQuery (Some DEFAULT_BRIDGE_PAGE_LIMIT) cursor None)) [] db).2 with
  | Ok (InboxResponse items next) => Ok (mkBridgeInboxResponse items next)
  | Ok _ => Err BridgePayload
  | Err e => Err (Http (into_response e).2)
  end.

Lemma decode_items (items : list bytes) :
  try_map (λ item, map_err (λ _, BridgePayload) (b64_decode item)) (map b64_encode items)
  = Ok items.
Proof.
  apply try_map_Ok. induction items as [|b items IH]; constructor; [|done].
  by rewrite b64_decode_encode.
Qed.

Lemma last_live db key now c taken rest i :
  live_rows db key now c = taken ++ rest → last (map row_id taken) = Some i → c < i.
Proof.
  intros Hl Hlast. apply last_Some in Hlast as [l' Hm].
  apply map_eq_app in Hm as (t1 & t2 & -> & _ & Ht2).
  destruct t2 as [|r [|? ?]]; simplify_eq/=.
  assert (r ∈ live_rows db key now c) as Hin.
  { rewrite Hl. apply list_elem_of_In. rewrite !in_app_iff. simpl. auto. }
  apply list_elem_of_filter in Hin as [[_ Hin] _]. done.
Qed.

Lemma scan_loop_live limits now key db fuel cursor acc :
  db_inv db → key ∈ inbox_keys db → MAX_INBOX_ITEM_BYTES <= max_bytes limits < 2 ^ 64 →
  (length (live_rows db key (wrap_i 64 now) (default 0%Z cursor)) < fuel)%nat →
  scan_inbox_loop (bridge_http limits now key db) fuel cursor acc
  = Some (Ok (mkInboxScanResponse
      (acc ++ map row_item (live_rows db key (wrap_i 64 now) (default 0 cursor))) SourceBridge)).
Proof.
  intros Hinv Hkey Hmb. revert cursor acc. induction fuel as [|fuel IH]; intros cursor acc Hf; [lia|].
  cbn [scan_inbox_loop]. unfold bridge_http at 1, get_inbox. rewrite run_bind.
  cbn [iq_limit iq_cursor iq_max_bytes normalize_inbox_limit].
  change (Z.min _ MAX_INBOX_PAGE_LIMIT) with DEFAULT_BRIDGE_PAGE_LIMIT.
  replace (if 0 <? DEFAULT_BRIDGE_PAGE_LIMIT then DEFAULT_BRIDGE_PAGE_LIMIT
           else DEFAULT_INBOX_PAGE_LIMIT) with DEFAULT_BRIDGE_PAGE_LIMIT by done.
  cbn [normalize_inbox_max_bytes]. unfold umax. rewrite Z.min_l by lia.
  destruct (run_load_inbox_items db key now cursor DEFAULT_BRIDGE_PAGE_LIMIT (max_bytes limits)
    Hkey ltac:(unfold DEFAULT_BRIDGE_PAGE_LIMIT; lia)) as (taken & rest & HL & -> & Hprog).
  cbn [run page_items page_next_cursor snd bir_items bir_next_cursor]. rewrite decode_items.
  rewrite HL in *. case_decide as Hr.
  { subst. by rewrite app_nil_r. }
  destruct (last (map row_id taken)) as [i|] eqn:Elast.
  - pose proof (last_live _ _ _ _ _ _ _ HL Elast) as Hci.
    assert (live_rows db key (wrap_i 64 now) i = rest) as Hrest.
    { eapply live_rows_after; [apply (inv_rows _ Hinv)| |done..]. lia. }
    rewrite (IH (Some i)).
    + simpl default. rewrite Hrest, map_app, app_assoc. done.
    + simpl default. rewrite Hrest. rewrite length_app in Hf.
      destruct taken; [done|]. simpl in Hf. lia.
  - exfalso. apply last_None in Elast. apply map_eq_nil in Elast as ->.
    apply Hr, Hprog; [|done]. apply List.Forall_forall. intros r Hin.
    assert (r ∈ inbox_items db) as Hin'.
    { rewrite <-HL in Hin. apply list_elem_of_In, list_elem_of_filter in Hin as [_ Hin]. done. }
    destruct (inv_rows _ Hinv) as [_ Hrows]. rewrite List.Forall_forall in Hrows.
    apply list_elem_of_In in Hin'. specialize (Hrows r Hin'). lia.
Qed.

Lemma live_rows_all db key now :
  db_inv db → live_rows db key now 0 = filter (row_live key now) (inbox_items db).
Proof.
  intros Hinv. destruct (inv_rows _ Hinv) as [_ Hrows]. unfold live_rows.
  induction Hrows as [|r rows Hr Hrows IH]; [done|]. rewrite !filter_cons.
  destruct (decide (row_live key now r)) as [Hl|Hl].
  - rewrite decide_True by (split; [done|lia]). by rewrite IH.
  - rewrite decide_False by tauto. done.
Qed.

End paging.

(** ** The audit export *)

Section audit.
Context `{SH : Sha256} `{HX : Hex}.

Definition kept (flt : AbuseLogFilter) (rows : list LogRow) : list LogRow :=
  filter (λ r, log_skipped flt r = false) rows.

Lemma export_rows_spec flt rows acc :
  export_rows flt rows acc
  = acc ++ map abuse_record
      (match af_limit flt with
       | Some limit => take (1 `max` (Z.to_nat limit - length acc)) (kept flt rows)
       | None => kept flt rows
       end).
Proof.
  revert acc. induction rows as [|r rows IH]; intros acc; cbn [export_rows].
  { unfold kept. rewrite filter_nil. destruct (af_limit flt); rewrite ?take_nil;
      by rewrite app_nil_r. }
  unfold kept in *. rewrite filter_cons. destruct (log_skipped flt r) eqn:E.
  - rewrite decide_False by done. apply IH.
  - rewrite decide_True by done. destruct (af_limit flt) as [limit|].
    + unfold zlen. rewrite length_app. cbn [length].
      destruct (limit <=? _) eqn:El; bool_to_prop.
      * replace (1 `max` (Z.to_nat limit - length acc))%nat with 1%nat by lia. done.
      * rewrite IH, length_app, <-app_assoc. cbn [length].
        replace (1 `max` (Z.to_nat limit - length acc))%nat
          with (S (1 `max` (Z.to_nat limit - (length acc + 1))))%nat by lia. done.
    + rewrite IH, <-app_assoc. done.
Qed.

End audit.

(** ** Every request leaves one audit row *)

Section charging.
Context `{SH : Sha256} `{ED : Ed25519} `{AR : Argon2} `{B6 : Base64} `{HX : Hex}.

Lemma put_card_window limits now nb addr h payload db data identity :
  0 <= now < 2 ^ 63 → 0 <= window_seconds limits → zlen data < 2 ^ 63 →
  b_decode_base64 (sr_data payload) = Ok data →
  identity_from_grant (sr_grant payload) = Ok identity →
  let db' := (run (put_card limits now nb addr h payload) [] db).1 in
  zlen (window db' identity now limits) = zlen (window db identity now limits) + 1 ∧
  zlen (request_logs db') = zlen (request_logs db) + 1.
Proof.
  intros Hnow Hw Hd Ed Ei. rewrite run_put_card, Ed, Ei. pose proof (zlen_nonneg data).
  destruct (card_checks _ _ _ _ _ _) as [[]|e]; cbn [fst];
    rewrite window_logged, ?window_upsert by lia; unfold zlen; rewrite length_app;
    cbn [request_logs logged upsert_entry]; rewrite length_app; simpl; lia.
Qed.

Lemma full_window_refuses limits now nb addr h payload db data identity :
  b_decode_base64 (sr_data payload) = Ok data →
  identity_from_grant (sr_grant payload) = Ok identity →
  max_requests limits <= zlen (window db identity now limits) < 2 ^ 63 →
  (run (put_card limits now nb addr h payload) [] db).2 = Err RateLimited.
Proof.
  intros Ed Ei Hw. rewrite run_put_card, Ed, Ei. unfold card_checks, enforce_rate_limits.
  cbn [recent_requests snapshot_of]. unfold wadd, wrap.
  pose proof (zlen_nonneg (window db identity now limits)).
  rewrite !Z.mod_small by (rewrite ?Z.mod_small; lia).
  replace (max_requests limits <? _) with true by lia. done.
Qed.

(** The tables after the same request was sent [n] times. *)
Fixpoint repeat_put_card (limits : RateLimitConfig) (now nb : Z) (addr : option IpAddr)
    (h : string) (payload : StorageRequest) (n : nat) (db : Db) : Db :=
  match n with
  | O => db
  | S n' => (run (put_card limits now nb addr h payload) []
               (repeat_put_card limits now nb addr h payload n' db)).1
  end.

Lemma zlen_window_le db identity now limits :
  zlen (window db identity now limits) <= zlen (request_logs db).
Proof. unfold window, rows_in_window, zlen. apply Nat2Z.inj_le, length_filter. Qed.

Lemma forged_card_unstored limits now nb addr h payload db :
  validate_grant nb (sr_grant payload) ≠ Ok tt →
  cards (run (put_card limits now nb addr h payload) [] db).1 = cards db.
Proof.
  intros Hg. rewrite run_put_card.
  destruct (b_decode_base64 _) as [data|]; [|done].
  destruct (identity_from_grant _) as [identity|]; [|done].
  destruct (card_checks _ _ _ _ _ _) as [[]|e] eqn:Ec; [|done].
  by apply card_checks_Ok in Ec as (_ & Hv & _).
Qed.

End charging.

(** ** Claims *)

Section claims.
Context `{SH : Sha256} `{ED : Ed25519} `{AR : Argon2} `{B6 : Base64} `{HX : Hex}.

(** C3: whatever requests arrive, however their statements interleave and
    whichever of them the database refuses: every stored card and slot is
    addressed by the hash of its data, every reputation is between -20 and 100,
    inbox ids are positive and strictly ascending, and no stored inbox item
    exceeds the size limit. *)
Theorem bridge_tables_invariant limits db ps :
  rtc (step (handled limits)) (db_empty, []) (db, ps) →
  (∀ h d, cards db !! h = Some d → hex_encode (sha256 d) = h) ∧
  (∀ h d, slots db !! h = Some d → hex_encode (sha256 d) = h) ∧
  (∀ i s, identity_reputation db !! i = Some s → -20 <= s <= 100) ∧
  StronglySorted (λ a b, row_id a < row_id b) (inbox_items db) ∧
  Forall (λ r, 0 < row_id r ∧ zlen (row_item r) <= MAX_INBOX_ITEM_BYTES) (inbox_items db).
Proof.
  intros Hr. apply (reachable_preserves db_inv) in Hr; [|apply handled_ok|].
  - simpl in Hr. destruct Hr as [H1 H2 H3 [Hs Hf] _]. repeat split; try done.
    + by eapply H3.
    + by eapply H3.
    + eapply List.Forall_impl; [|exact Hf]. simpl. lia.
  - split; [apply db_inv_empty|constructor].
Qed.


(** An accepted request keeps the identity within its limits: counting it,
    the window holds at most the allowed requests and bytes. *)
Theorem accepted_card_within_limits limits now nb addr h payload db db' identity data :
  0 <= now < 2 ^ 63 → 0 <= window_seconds limits → logs_ok (request_logs db) →
  zlen data < 2 ^ 62 →
  b_decode_base64 (sr_data payload) = Ok data →
  identity_from_grant (sr_grant payload) = Ok identity →
  run (put_card limits now nb addr h payload) [] db = (db', Ok NoContent) →
  zlen (window db' identity now limits) <= max_requests limits ∧
  bytes_of (window db' identity now limits) <= max_bytes limits.
Proof.
  intros Hnow Hw Hlogs Hd Ed Ei Hrun. rewrite run_put_card, Ed, Ei in Hrun.
  destruct (card_checks _ _ _ _ _ _) as [[]|] eqn:Ec; [|done].
  apply (f_equal fst) in Hrun. cbn [fst] in Hrun. subst db'.
  apply card_checks_Ok in Ec as (He & _). pose proof (zlen_nonneg data).
  destruct (window_bounds identity (window_start now limits) _ Hlogs) as [Hc Hb].
  fold (window db identity now limits) in Hc, Hb. destruct Hlogs as (Hl & _ & Hs).
  pose proof (zlen_nonneg (window db identity now limits)).
  apply enforce_rate_limits_Ok in He; cbn [recent_requests recent_bytes snapshot_of] in *;
    unfold wrap in *; rewrite ?Z.mod_small in * by lia; try lia.
  rewrite window_logged, window_upsert, bytes_of_app by lia. unfold zlen in *.
  rewrite length_app. unfold bytes_of at 2. simpl in *. lia.
Qed.

(** C18: the client's paging loop over the bridge returns every live item of
    the inbox exactly once, in the order of arrival, and stops. *)
Theorem inbox_scan_complete `{!Base64Laws} limits now key db fuel :
  db_inv db → key ∈ inbox_keys db → 0 <= now < 2 ^ 63 →
  MAX_INBOX_ITEM_BYTES <= max_bytes limits < 2 ^ 64 →
  (length (inbox_items db) < fuel)%nat →
  scan_inbox_loop (bridge_http limits now key db) fuel None []
  = Some (Ok (mkInboxScanResponse
      (map row_item (filter (row_live key now) (inbox_items db))) SourceBridge)).
Proof.
  intros Hinv Hkey Hnow Hmb Hf.
  rewrite scan_loop_live; [|done..|].
  - simpl default. by rewrite wrap_i_small, live_rows_all by done.
  - simpl default. rewrite wrap_i_small, live_rows_all by done.
    pose proof (length_filter (row_live key now) (inbox_items db)). lia.
Qed.

(** A reader that asks for fewer bytes than the first live item has gets
    an empty page without a cursor: the page is indistinguishable from that of
    an empty inbox, and the items behind it are never offered. *)
Theorem oversized_item_ends_paging limits now key db r rest mb cursor :
  key ∈ inbox_keys db → 0 < mb < zlen (row_item r) → mb <= max_bytes limits < 2 ^ 64 →
  live_rows db key (wrap_i 64 now) (default 0 cursor) = r :: rest →
  (run (get_inbox limits now key (mkInboxQuery None cursor (Some mb))) [] db).2
  = Ok (InboxResponse [] None).
Proof.
  intros Hkey Hmb Hmax HL. unfold get_inbox, load_inbox_items. rewrite !run_bind.
  cbn [run sql select_inbox_key map_err iq_limit iq_cursor iq_max_bytes].
  rewrite decide_True by done. rewrite run_bind.
  cbn [run sql select_inbox_items map_err normalize_inbox_limit normalize_inbox_max_bytes].
  fold (live_rows db key (wrap_i 64 now) (default 0 cursor)). rewrite HL.
  change (Z.to_nat (wrap_i 64 (saturating_add 64 DEFAULT_INBOX_PAGE_LIMIT 1))) with 101%nat.
  cbn [map take page_rows]. change (DEFAULT_INBOX_PAGE_LIMIT <=? zlen []) with false.
  replace (0 <? mb) with true by lia. unfold umax. rewrite !Z.min_l by lia.
  replace (mb <? 0 + zlen (row_item r)) with true by lia. done.
Qed.

(** The exported audit log is the request log in order, filtered, each
    identity replaced by its hash, cut at the limit; a limit of zero still
    yields one record. *)
Theorem abuse_export_is_filtered_log db flt :
  export_abuse_logs db flt
  = map abuse_record
      (match af_limit flt with
       | Some limit => take (1 `max` Z.to_nat limit) (kept flt (request_logs db))
       | None => kept flt (request_logs db)
       end).
Proof.
  unfold export_abuse_logs. rewrite export_rows_spec. rewrite app_nil_l.
  destruct (af_limit flt); [|done]. cbn [length]. by rewrite Nat.sub_0_r.
Qed.

(** C40: requests are charged to the identity they name before the grant is
    checked: as many forged cards as the limit allows, none of which is stored,
    make the bridge refuse the named user's own request. *)
Theorem forged_requests_lock_out_victim limits now nb addr h forged honest victim d1 d2 n db :
  0 <= now < 2 ^ 63 → 0 <= window_seconds limits → zlen d1 < 2 ^ 63 →
  zlen (request_logs db) + Z.of_nat n < 2 ^ 63 →
  max_requests limits <= Z.of_nat n →
  b_decode_base64 (sr_data forged) = Ok d1 → identity_from_grant (sr_grant forged) = Ok victim →
  validate_grant nb (sr_grant forged) ≠ Ok tt →
  b_decode_base64 (sr_data honest) = Ok d2 → identity_from_grant (sr_grant honest) = Ok victim →
  let attacked := repeat_put_card limits now nb addr h forged n db in
  cards attacked = cards db ∧
  (run (put_card limits now nb addr h honest) [] attacked).2 = Err RateLimited.
Proof.
  intros Hnow Hw Hd1 Hlen Hmax Ed1 Ei1 Hforged Ed2 Ei2 attacked.
  assert (cards attacked = cards db ∧
          Z.of_nat n <= zlen (window attacked victim now limits) ∧
          zlen (request_logs attacked) = zlen (request_logs db) + Z.of_nat n) as (Hc & Hn & Hl).
  { subst attacked. clear Hlen Hmax. induction n as [|n (IHc & IHn & IHl)].
    - simpl. pose proof (zlen_nonneg (window db victim now limits)). repeat split; lia.
    - cbn [repeat_put_card]. set (a := repeat_put_card _ _ _ _ _ _ n db) in *.
      destruct (put_card_window limits now nb addr h forged a d1 victim) as [Hw' Hl']; [done..|].
      rewrite forged_card_unstored, Hw', Hl' by done. split; [done|]. lia. }
  split; [done|]. eapply full_window_refuses; [done..|].
  pose proof (zlen_window_le attacked victim now limits). lia.
Qed.

End claims.

(** Every error of the bridge reaches the client as the matching transport
    error; the ones without a counterpart arrive with their message. *)
Theorem bridge_errors_reach_client e :
  publish_to_inbox_result (into_response e).1 (into_response e).2
  = Err match e with
        | BGrantExpired => TGrantExpired
        | BGrantInvalid => TGrantInvalid
        | PuzzleInvalid => TPowInvalid
        | InvalidRequest s =>
            if str_contains (bridge_error_to_string e) "invalid inbox ttl" then InvalidTtl
            else InvalidPayload (bridge_error_to_string e)
        | _ => InvalidPayload (bridge_error_to_string e)
        end.
Proof. destruct e; try reflexivity. unfold publish_to_inbox_result. simpl. by case_match. Qed.

(** The difficulty asked of an identity is never below the default, grows
    with its recent requests and bytes, and stays within 32 bits. *)
Theorem required_pow_monotone limits s1 s2 :
  0 < difficulty_step_requests limits → 0 < difficulty_step_bytes limits →
  0 < reputation_step limits < 2 ^ 31 →
  0 <= recent_requests s1 <= recent_requests s2 → recent_requests s2 < 2 ^ 32 →
  0 <= recent_bytes s1 <= recent_bytes s2 → recent_bytes s2 < 2 ^ 32 →
  reputation_score s2 <= reputation_score s1 →
  let p1 := required_pow_params s1 limits in
  let p2 := required_pow_params s2 limits in
  memory_kib pow_default <= memory_kib p1 <= memory_kib p2 ∧ memory_kib p2 < 2 ^ 32 ∧
  iterations pow_default <= iterations p1 <= iterations p2 ∧ iterations p2 < 2 ^ 32 ∧
  meets_minimum p1 = true.
Proof.
  intros Hr Hb Hs Hreq Hreq2 Hby Hby2 Hrep. unfold required_pow_params, wrap.
  rewrite (Z.mod_small (reputation_step limits)) by lia.
  set (bonus1 := Z.max (reputation_score s1) 0 / _).
  set (bonus2 := Z.max (reputation_score s2) 0 / _).
  assert (0 <= bonus2 <= bonus1).
  { split; [apply Z.div_pos; lia|]. apply Z.div_le_mono; lia. }
  set (v1 := Z.max (recent_requests s1 / _) _). set (v2 := Z.max (recent_requests s2 / _) _).
  assert (0 <= v1 <= v2 ∧ v2 < 2 ^ 32) as [Hv Hv2].
  { subst v1 v2.
    pose proof (Z.div_le_mono _ _ _ Hr (proj2 Hreq)). pose proof (Z.div_le_mono _ _ _ Hb (proj2 Hby)).
    pose proof (Z.div_pos (recent_requests s1) _ (proj1 Hreq) Hr).
    assert (recent_requests s2 / difficulty_step_requests limits <= recent_requests s2)
      by (apply Z.div_le_upper_bound; nia).
    assert (recent_bytes s2 / difficulty_step_bytes limits <= recent_bytes s2)
      by (apply Z.div_le_upper_bound; nia). lia. }
  cbv zeta. unfold saturating_sub. rewrite !Z.mod_small by lia.
  unfold saturating_add, saturating_mul, umax, meets_minimum, pow_default, pow_minimum.
  cbn [memory_kib iterations]. rewrite andb_true_iff, !Z.leb_le. lia.
Qed.

(** An inbox item is given an expiry strictly in the future and at most a
    week away, and a lifetime of zero or more than a week is refused. *)
Theorem inbox_expiration_bounds now ttl t :
  0 <= now → (∀ s, ttl = Some s → 0 <= s) →
  compute_inbox_expiration now ttl = Ok t →
  now < t <= now + MAX_INBOX_TTL_SECONDS ∧ t < 2 ^ 64.
Proof.
  intros Hnow Httl. unfold compute_inbox_expiration, checked_add, umax.
  assert (0 <= default DEFAULT_INBOX_TTL_SECONDS ttl) as Hd.
  { destruct ttl as [s|]; simpl; [by apply Httl|unfold DEFAULT_INBOX_TTL_SECONDS; lia]. }
  destruct (_ || _) eqn:E; [done|]. bool_to_prop.
  destruct (_ <=? _) eqn:El; [|done]. bool_to_prop. simpl. intros [= <-]. lia.
Qed.

(** ** Witnesses *)

(** A request run alone is one of the interleavings. *)
Lemma run_reachable {A} (handler : prog A → Prop) p db :
  rtc (step handler) (db, [p]) ((run p [] db).1, []).
Proof.
  revert db. induction p as [r|R op k IH]; intros db; cbn [run].
  - apply rtc_once. apply (step_answer handler db [] r []).
  - eapply rtc_l; [apply (step_call handler db [] R op k [])|]. simpl.
    destruct (op db) as [db' r]. apply IH.
Qed.

Lemma run_handled_reachable `{Sha256} `{Ed25519} `{Argon2} `{Base64} `{Hex} limits p :
  handled limits p → rtc (step (handled limits)) (db_empty, []) ((run p [] db_empty).1, []).
Proof.
  intros Hp. apply (rtc_l _ _ (db_empty, [p])); [by apply step_start | apply run_reachable].
Qed.

Lemma run_handled_inv `{Sha256} `{Ed25519} `{Argon2} `{Base64} `{Hex} limits p :
  handled limits p → db_inv (run p [] db_empty).1.
Proof.
  intros Hp%run_handled_reachable. apply (reachable_preserves db_inv) in Hp;
    [done|apply handled_ok|split; [apply db_inv_empty|constructor]].
Qed.

Lemma run_pair {A} (p : prog A) db r :
  (run p [] db).2 = r → run p [] db = ((run p [] db).1, r).
Proof. destruct (run p [] db). simpl. congruence. Qed.

Import Reference.

Definition card_bytes : bytes := [x09; x08].
Definition card_name : string := hex_encode (sha256 card_bytes).
Definition card_request : StorageRequest :=
  mkStorageRequest (b64_encode card_bytes) (bpr_grant sample_request) (bpr_puzzle sample_request).

Abbreviation card_prog :=
  (put_card rate_limit_default 110 110 (Some (V4 192 168 1 77)) card_name card_request).

Abbreviation inbox_prog :=
  (put_inbox rate_limit_default 110 110 None "00ff"
    (mkInboxStoreRequest (b64_encode card_bytes) (bpr_grant sample_request)
       (bpr_puzzle sample_request) (Some 60))).

Abbreviation db_card := (run card_prog [] db_empty).1.
Abbreviation db_inbox := (run inbox_prog [] db_empty).1.

Example card_accepted : (run card_prog [] db_empty).2 = Ok NoContent.
Proof. vm_compute. reflexivity. Qed.

Example inbox_accepted : (run inbox_prog [] db_empty).2 = Ok NoContent.
Proof. vm_compute. reflexivity. Qed.

Lemma card_prog_handled : handled rate_limit_default card_prog.
Proof. apply h_put_card. unfold fits. lia. Qed.

Lemma inbox_prog_handled : handled rate_limit_default inbox_prog.
Proof. apply h_put_inbox. unfold fits. lia. Qed.

Lemma elem_of_by_decide (X : gset string) k : bool_decide (k ∈ X) = true → k ∈ X.
Proof. apply bool_decide_eq_true_1. Qed.

Lemma inbox_key_stored : "00ff"%string ∈ inbox_keys db_inbox.
Proof. apply elem_of_by_decide. vm_compute. reflexivity. Qed.

Lemma bridge_tables_invariant_witness :
  cards db_card !! card_name = Some card_bytes ∧ hex_encode (sha256 card_bytes) = card_name.
Proof.
  assert (cards db_card !! card_name = Some card_bytes) as Hc by (vm_compute; reflexivity).
  split; [exact Hc|].
  destruct (bridge_tables_invariant rate_limit_default db_card []
    (run_handled_reachable _ card_prog card_prog_handled)) as [H _].
  exact (H card_name card_bytes Hc).
Defined.


Lemma accepted_card_within_limits_witness :
  zlen (window db_card (hex_encode (replicate 20 x01)) 110 rate_limit_default)
  <= max_requests rate_limit_default.
Proof.
  refine (proj1 (accepted_card_within_limits rate_limit_default 110 110
    (Some (V4 192 168 1 77)) card_name card_request db_empty db_card
    (hex_encode (replicate 20 x01)) card_bytes _ _ _ _ _ _ _)).
  - lia.
  - simpl. lia.
  - split; [reflexivity|]. split; [constructor|reflexivity].
  - reflexivity.
  - vm_compute. reflexivity.
  - vm_compute. reflexivity.
  - exact (run_pair card_prog db_empty (Ok NoContent) card_accepted).
Defined.

Lemma inbox_scan_complete_witness :
  scan_inbox_loop (bridge_http rate_limit_default 120 "00ff" db_inbox) 5 None []
  = Some (Ok (mkInboxScanResponse
      (map row_item (filter (row_live "00ff" 120) (inbox_items db_inbox))) SourceBridge)).
Proof.
  apply (inbox_scan_complete rate_limit_default 120 "00ff" db_inbox 5).
  - exact (run_handled_inv _ inbox_prog inbox_prog_handled).
  - exact inbox_key_stored.
  - lia.
  - unfold MAX_INBOX_ITEM_BYTES. simpl. lia.
  - apply Nat.ltb_lt. vm_compute. reflexivity.
Defined.

Example inbox_scan_items :
  scan_inbox_loop (bridge_http rate_limit_default 120 "00ff" db_inbox) 5 None []
  = Some (Ok (mkInboxScanResponse [card_bytes] SourceBridge)).
Proof. vm_compute. reflexivity. Qed.

Lemma oversized_item_ends_paging_witness :
  (run (get_inbox rate_limit_default 120 "00ff" (mkInboxQuery None None (Some 1))) [] db_inbox).2
  = Ok (InboxResponse [] None).
Proof.
  apply (oversized_item_ends_paging rate_limit_default 120 "00ff" db_inbox
    (mkInboxRow 1 "00ff" card_bytes (Some 170)) [] 1 None).
  - exact inbox_key_stored.
  - split; reflexivity.
  - simpl. lia.
  - vm_compute. reflexivity.
Defined.

(** The grant of the sample with a signature of another message. *)
Definition forged_request : StorageRequest :=
  mkStorageRequest (b64_encode card_bytes)
    (mkP2pGrantPayload (pg_user_id (bpr_grant sample_request)) 1 None (Some 130)
       (pg_verifying_key (bpr_grant sample_request)) (b64_encode (replicate 64 x00)))
    (bpr_puzzle sample_request).

Definition tight_limits : RateLimitConfig :=
  {| window_seconds := 60; max_requests := 2; max_bytes := 1048576;
     difficulty_step_requests := 20; difficulty_step_bytes := 262144; reputation_step := 25 |}.

Lemma forged_requests_lock_out_victim_witness :
  (run (put_card tight_limits 110 110 None card_name card_request) []
     (repeat_put_card tight_limits 110 110 None card_name forged_request 2 db_empty)).2
  = Err RateLimited.
Proof.
  refine (proj2 (forged_requests_lock_out_victim tight_limits 110 110 None card_name
    forged_request card_request (hex_encode (replicate 20 x01)) card_bytes card_bytes 2 db_empty
    _ _ _ _ _ _ _ _ _ _));
    try (vm_compute; congruence); try (vm_compute; split; congruence); vm_compute; reflexivity.
Defined.

Lemma required_pow_monotone_witness :
  memory_kib pow_default
  <= memory_kib (required_pow_params (mkRateLimitSnapshot 0 0 0) rate_limit_default)
  <= memory_kib (required_pow_params (mkRateLimitSnapshot 60 0 0) rate_limit_default).
Proof.
  apply (required_pow_monotone rate_limit_default (mkRateLimitSnapshot 0 0 0)
    (mkRateLimitSnapshot 60 0 0)); simpl; lia.
Defined.

Lemma inbox_expiration_bounds_witness : 100 < 160 <= 100 + MAX_INBOX_TTL_SECONDS ∧ 160 < 2 ^ 64.
Proof.
  apply (inbox_expiration_bounds 100 (Some 60) 160); [lia | intros s [= <-]; lia | reflexivity].
Defined.
