(* ===== verification/Startup.v ===== *)
(** * Startup of the bridge (spex-bridge/src/lib.rs, src/main.rs)

    What comes before the handlers of [Bridge]: the creation and migration of
    the database, the pool of connections the handlers draw from, and the main
    program.  The database is a map from table names to columns and rows; every
    statement can fail.  The pool is a step relation over the tasks that use it:
    the lock is released before a connection is opened, so that other tasks step
    in between.

    Tasks, connections and the rows of a table are opaque; the parsing of socket
    addresses and the binding of a listener are parameters. *)
From Stdlib Require Import ZArith Lia.
From stdpp Require Import base list gmap strings relations.
From S2P Require Import Prelude External Transport Ingest Bridge.

#[local] Open Scope Z_scope.

(** ** The database file *)

Section schema.
Context {V : Type} (null : V).

Record TableData := mkTableData { tb_columns : list string; tb_rows : list (list V) }.

Abbreviation Store := (gmap string TableData).

(** A sequence of statements; [faults] tells which of them fail. *)
Definition sqlm (A : Type) : Type :=
  list (option string) → Store → Store * list (option string) * result string A.

Definition sret {A} (x : A) : sqlm A := λ faults s, (s, faults, Ok x).

Definition sbind {A B} (m : sqlm A) (f : A → sqlm B) : sqlm B := λ faults s,
  match m faults s with
  | (s', faults', Ok x) => f x faults' s'
  | (s', faults', Err e) => (s', faults', Err e)
  end.

Definition stmt {A} (op : Store → Store * result string A) : sqlm A := λ faults s,
  match faults with
  | Some e :: faults' => (s, faults', Err e)
  | None :: faults' => match op s with (s', r) => (s', faults', r) end
  | [] => match op s with (s', r) => (s', [], r) end
  end.

(** A call that only reads. *)
Definition touch : sqlm unit := stmt (λ s, (s, Ok tt)).

(** [CREATE TABLE IF NOT EXISTS] *)
Definition create_table (name : string) (columns : list string) : sqlm unit :=
  stmt (λ s, (match s !! name with
              | Some _ => s
              | None => <[name := mkTableData columns []]> s
              end, Ok tt)).

(** [ALTER TABLE name ADD COLUMN column]: NULL in the rows there are. *)
Definition with_column (column : string) (t : TableData) : TableData :=
  mkTableData (tb_columns t ++ [column]) (map (λ row, row ++ [null]) (tb_rows t)).

Definition add_column (name column : string) : sqlm unit :=
  stmt (λ s, match s !! name with
             | None => (s, Err ("no such table: " +:+ name))
             | Some t =>
                 if bool_decide (column ∈ tb_columns t)
                 then (s, Err ("duplicate column name: " +:+ column))
                 else (<[name := with_column column t]> s, Ok tt)
             end).

(** [PRAGMA table_info(name)]: the names of the columns, none without the table. *)
Definition table_info (name : string) : sqlm (list string) :=
  stmt (λ s, (s, Ok (match s !! name with Some t => tb_columns t | None => [] end))).

(** The loop over the columns; fetching each can fail. *)
Fixpoint scan_columns (columns : list string) : sqlm bool :=
  match columns with
  | [] => sret false
  | c :: rest =>
      sbind touch (λ _, if bool_decide (c = "expires_at") then sret true else scan_columns rest)
  end.

Definition inbox_items_has_expires_column : sqlm bool :=
  sbind touch (λ _, sbind (table_info "inbox_items") scan_columns).

Definition ensure_inbox_items_expiration_column : sqlm unit :=
  sbind inbox_items_has_expires_column (λ has,
  if has : bool then sret tt else add_column "inbox_items" "expires_at").

Definition init_db : sqlm unit :=
  sbind touch (λ _,
  sbind (create_table "cards" ["card_hash"; "data"]) (λ _,
  sbind (create_table "slots" ["slot_id"; "data"]) (λ _,
  sbind (create_table "inbox_keys" ["inbox_key"]) (λ _,
  sbind (create_table "inbox_items" ["id"; "inbox_key"; "item"; "expires_at"]) (λ _,
  sbind ensure_inbox_items_expiration_column (λ _,
  sbind (create_table "request_logs"
           ["id"; "timestamp"; "identity"; "ip"; "slot_id"; "bytes"; "request_kind"; "outcome"])
    (λ _,
  create_table "identity_reputation" ["identity"; "score"]))))))).

(** *** The migrated database *)

(** The tables SPEX needs, with their columns. *)
Definition spex_tables : gmap string (list string) :=
  list_to_map [("cards", ["card_hash"; "data"]); ("slots", ["slot_id"; "data"]);
    ("inbox_keys", ["inbox_key"]); ("inbox_items", ["id"; "inbox_key"; "item"; "expires_at"]);
    ("request_logs",
      ["id"; "timestamp"; "identity"; "ip"; "slot_id"; "bytes"; "request_kind"; "outcome"]);
    ("identity_reputation", ["identity"; "score"])].

Definition expiring (t : TableData) : TableData :=
  if bool_decide ("expires_at" ∈ tb_columns t) then t else with_column "expires_at" t.

(** What becomes of a table: a missing one is created empty, [inbox_items] of
    an older version gets its column, any other stays. *)
Definition migrated (name : string) (t : option TableData) : option TableData :=
  match t with
  | Some t => Some (if bool_decide (name = "inbox_items") then expiring t else t)
  | None => (λ columns, mkTableData columns []) <$> spex_tables !! name
  end.

Lemma expiring_idem t : expiring (expiring t) = expiring t.
Proof.
  unfold expiring at 1. rewrite bool_decide_true; [done|]. unfold expiring.
  case_bool_decide; [done|]. cbn. apply elem_of_app. right. by left.
Qed.

Lemma migrated_idem n t : migrated n (migrated n t) = migrated n t.
Proof.
  destruct t as [t|]; unfold migrated; [case_bool_decide; by rewrite ?expiring_idem|].
  destruct (spex_tables !! n) as [cs|] eqn:E; [|done]. cbn [fmap option_fmap option_map].
  case_bool_decide as Hn; [|done]. subst n. vm_compute in E. injection E as <-. done.
Qed.

(** [s'] is on the way from [s] to the migrated database. *)
Definition underway (s s' : Store) : Prop := ∀ n, migrated n (s' !! n) = migrated n (s !! n).

#[export] Instance underway_preorder : PreOrder underway.
Proof. split; [by intros s n|]. intros s1 s2 s3 H1 H2 n. by rewrite H2. Qed.

Definition keeps_underway {A} (m : sqlm A) : Prop :=
  ∀ faults s s' faults' r, m faults s = (s', faults', r) → underway s s'.

Lemma keeps_ret {A} (x : A) : keeps_underway (sret x).
Proof. by intros faults s s' faults' r [= <- <- <-]. Qed.

Lemma keeps_bind {A B} (m : sqlm A) (f : A → sqlm B) :
  keeps_underway m → (∀ x, keeps_underway (f x)) → keeps_underway (sbind m f).
Proof.
  intros Hm Hf faults s s' faults' r. unfold sbind.
  destruct (m faults s) as [[s1 f1] [x|e]] eqn:E; intros He.
  - transitivity s1; [by eapply Hm|by eapply Hf].
  - injection He as <- <- <-. by eapply Hm.
Qed.

Lemma keeps_stmt {A} (op : Store → Store * result string A) :
  (∀ s, underway s (op s).1) → keeps_underway (stmt op).
Proof.
  intros Hop faults s s' faults' r. specialize (Hop s). unfold stmt.
  destruct faults as [|[e|] fs]; [|by intros [= <- <- <-]|];
    destruct (op s); by intros [= <- <- <-].
Qed.

Lemma keeps_touch : keeps_underway touch.
Proof. by apply keeps_stmt. Qed.

Lemma keeps_create n cs : spex_tables !! n = Some cs → keeps_underway (create_table n cs).
Proof.
  intros Hn. apply keeps_stmt. intros s k. cbn [fst]. destruct (s !! n) eqn:E; [done|].
  destruct (decide (n = k)) as [<-|]; [|by rewrite lookup_insert_ne].
  rewrite lookup_insert_eq, E. pose proof (migrated_idem n None) as Hi.
  unfold migrated in *. rewrite Hn in *. exact Hi.
Qed.

Lemma keeps_add_expires : keeps_underway (add_column "inbox_items" "expires_at").
Proof.
  apply keeps_stmt. intros s k. destruct (s !! "inbox_items") as [t|] eqn:E; [|done].
  case_bool_decide as Hc; [done|]. cbn [fst].
  destruct (decide ("inbox_items"%string = k)) as [<-|]; [|by rewrite lookup_insert_ne].
  rewrite lookup_insert_eq, E. unfold migrated. rewrite bool_decide_true by done.
  assert (with_column "expires_at" t = expiring t) as ->
    by (unfold expiring; by rewrite bool_decide_false).
  by rewrite expiring_idem.
Qed.

Lemma keeps_scan cs : keeps_underway (scan_columns cs).
Proof.
  induction cs as [|c cs IH]; cbn; [apply keeps_ret|].
  apply keeps_bind; [apply keeps_touch|]. intros _. case_bool_decide; [apply keeps_ret|done].
Qed.

Lemma keeps_ensure : keeps_underway ensure_inbox_items_expiration_column.
Proof.
  unfold ensure_inbox_items_expiration_column, inbox_items_has_expires_column.
  repeat (apply keeps_bind; [|intros]); auto using keeps_touch, keeps_scan.
  - by apply keeps_stmt.
  - destruct x; [apply keeps_ret|apply keeps_add_expires].
Qed.

(** However startup ends, the database is on the way. *)
Lemma init_db_underway : keeps_underway init_db.
Proof.
  unfold init_db. repeat (apply keeps_bind; [|intros _]);
    first [apply keeps_touch|apply keeps_ensure|by apply keeps_create].
Qed.

(** *** A startup without failures *)

(** [s'] has every table of [s] unchanged. *)
Definition extends (s s' : Store) : Prop := ∀ k t, s !! k = Some t → s' !! k = Some t.

Lemma create_clean n cs s :
  ∃ s', create_table n cs [] s = (s', [], Ok tt) ∧ is_Some (s' !! n) ∧ extends s s'.
Proof.
  unfold create_table, stmt. eexists. split; [done|]. destruct (s !! n) as [t|] eqn:E.
  - by split; [eauto|intros k t'].
  - split; [rewrite lookup_insert_eq; eauto|].
    intros k t Hk. rewrite lookup_insert_ne; [done|congruence].
Qed.

Lemma scan_clean cs s :
  scan_columns cs [] s = (s, [], Ok (bool_decide ("expires_at"%string ∈ cs))).
Proof.
  induction cs as [|c cs IH]; cbn [scan_columns]; [done|]. unfold sbind, touch, stmt.
  destruct (decide (c = "expires_at"%string)) as [->|Hc].
  - rewrite !bool_decide_true by (done || by left). done.
  - rewrite bool_decide_false by done. rewrite IH. do 2 f_equal.
    apply bool_decide_ext. rewrite elem_of_cons. split; [by right|by intros [<-|]].
Qed.

Lemma ensure_clean (s : Store) :
  is_Some (s !! "inbox_items"%string) →
  ∃ s' t, ensure_inbox_items_expiration_column [] s = (s', [], Ok tt) ∧
    s' !! "inbox_items"%string = Some t ∧ "expires_at"%string ∈ tb_columns t ∧
    ∀ k, k ≠ "inbox_items"%string → s' !! k = s !! k.
Proof.
  intros [t Ht]. unfold ensure_inbox_items_expiration_column, inbox_items_has_expires_column,
    sbind, touch, table_info, stmt. rewrite Ht, scan_clean. case_bool_decide as Hc.
  - by exists s, t.
  - unfold add_column, stmt. rewrite Ht, bool_decide_false by done.
    exists (<["inbox_items"%string := with_column "expires_at" t]> s), (with_column "expires_at" t).
    rewrite lookup_insert_eq. split_and!; [done..| |].
    + cbn. apply elem_of_app. right. by left.
    + intros k Hk. by rewrite lookup_insert_ne.
Qed.

Lemma spex_tables_names n : is_Some (spex_tables !! n) →
  n ∈ ["cards"; "slots"; "inbox_keys"; "inbox_items"; "request_logs"; "identity_reputation"]%string.
Proof.
  intros [cs Hn%elem_of_list_to_map_2]. by apply (list_elem_of_fmap_2 fst) in Hn.
Qed.

(** The tables are there and the inbox has its column: nothing is left to do. *)
Lemma settled (s : Store) t n :
  Forall (λ k, is_Some (s !! k))
    ["cards"; "slots"; "inbox_keys"; "inbox_items"; "request_logs"; "identity_reputation"]%string →
  s !! "inbox_items"%string = Some t → "expires_at"%string ∈ tb_columns t →
  migrated n (s !! n) = s !! n.
Proof.
  intros Hall Ht Hc. destruct (s !! n) as [u|] eqn:E; unfold migrated.
  - case_bool_decide as Hn; [|done]. subst n. assert (u = t) as -> by congruence.
    unfold expiring. by rewrite bool_decide_true.
  - destruct (spex_tables !! n) eqn:En; [|done].
    assert (is_Some (s !! n)) as [? ?]; [|congruence].
    eapply list.Forall_forall in Hall; [exact Hall|]. apply spex_tables_names. eauto.
Qed.

Lemma extends_present (s s' : Store) k : extends s s' → is_Some (s !! k) → is_Some (s' !! k).
Proof. intros He [t Ht%He]. eauto. Qed.

Lemma init_db_clean s :
  ∃ s', init_db [] s = (s', [], Ok tt) ∧ ∀ n, s' !! n = migrated n (s !! n).
Proof.
  assert (∃ s' t, init_db [] s = (s', [], Ok tt) ∧ s' !! "inbox_items"%string = Some t ∧
    "expires_at"%string ∈ tb_columns t ∧ Forall (λ k, is_Some (s' !! k))
    ["cards"; "slots"; "inbox_keys"; "inbox_items"; "request_logs"; "identity_reputation"]%string)
    as (s' & t & Hi & Ht & Hc & Hall).
  { unfold init_db, sbind. cbn [touch stmt].
    destruct (create_clean "cards" ["card_hash"; "data"] s) as (s1 & -> & H1 & E1).
    destruct (create_clean "slots" ["slot_id"; "data"] s1) as (s2 & -> & H2 & E2).
    destruct (create_clean "inbox_keys" ["inbox_key"] s2) as (s3 & -> & H3 & E3).
    destruct (create_clean "inbox_items" ["id"; "inbox_key"; "item"; "expires_at"] s3)
      as (s4 & -> & H4 & E4).
    destruct (ensure_clean s4 H4) as (s5 & t & -> & Ht & Hc & E5).
    destruct (create_clean "request_logs" ["id"; "timestamp"; "identity"; "ip"; "slot_id";
      "bytes"; "request_kind"; "outcome"] s5) as (s6 & -> & H6 & E6).
    destruct (create_clean "identity_reputation" ["identity"; "score"] s6) as (s7 & -> & H7 & E7).
    exists s7, t. split_and!; [done|by apply E7, E6|done|].
    repeat constructor; [..|done]; (apply (extends_present s6); [done|]);
      [..|done]; (apply (extends_present s5); [done|]); rewrite ?E5 by done;
      eauto using extends_present. }
  exists s'. split; [done|]. intros n. rewrite <-(init_db_underway _ _ _ _ _ Hi n).
  symmetry. by eapply settled.
Qed.

End schema.

(** ** The pool of connections *)

(** A connection is the number of the [Connection::open] that made it. *)
Record DbPool := mkDbPool {
  dp_path : string;
  dp_connections : list nat;
  dp_max_size : nat;
}.

Definition pool_new (path : string) (max_size : nat) : DbPool := mkDbPool path [] max_size.

Definition set_connections (p : DbPool) (l : list nat) : DbPool :=
  mkDbPool (dp_path p) l (dp_max_size p).

(** [conns.pop()] under the lock: the last of the vector. *)
Definition pool_pop (p : DbPool) : option (nat * DbPool) :=
  c ← list.last (dp_connections p);
  Some (c, set_connections p (removelast (dp_connections p))).

(** [put]: the pool afterwards, and the connection that is closed if it is full. *)
Definition pool_put (p : DbPool) (c : nat) : DbPool * option nat :=
  if (length (dp_connections p) <? dp_max_size p)%nat
  then (set_connections p (dp_connections p ++ [c]), None)
  else (p, Some c).

(** [Drop for PooledConnection]: the connection, taken out of the guard, is put
    back. *)
Definition guard_drop (conn : option nat) (p : DbPool) : DbPool * option nat :=
  match conn with Some c => pool_put p c | None => (p, None) end.

(** What a task does: it opens a connection of its own, or it holds a guard. *)
Inductive Task : Type :=
| Opening
| Holding (c : nat).

Record Sys := mkSys {
  sy_pool : DbPool;
  sy_tasks : gmap nat Task;
  sy_opened : nat;
  sy_closed : list nat;
}.

Definition sys_start (path : string) (max_size : nat) : Sys :=
  mkSys (pool_new path max_size) ∅ 0 [].

(** [get] takes the lock once; when the pool is empty it opens a connection
    after releasing it, which succeeds or fails later.  Dropping the guard puts
    the connection back. *)
Inductive pool_step : Sys → Sys → Prop :=
| get_pooled s t c p :
    sy_tasks s !! t = None → pool_pop (sy_pool s) = Some (c, p) →
    pool_step s (mkSys p (<[t := Holding c]> (sy_tasks s)) (sy_opened s) (sy_closed s))
| get_empty s t :
    sy_tasks s !! t = None → pool_pop (sy_pool s) = None →
    pool_step s (mkSys (sy_pool s) (<[t := Opening]> (sy_tasks s)) (sy_opened s) (sy_closed s))
| open_done s t :
    sy_tasks s !! t = Some Opening →
    pool_step s (mkSys (sy_pool s) (<[t := Holding (sy_opened s)]> (sy_tasks s))
                   (S (sy_opened s)) (sy_closed s))
| open_failed s t :
    sy_tasks s !! t = Some Opening →
    pool_step s (mkSys (sy_pool s) (delete t (sy_tasks s)) (sy_opened s) (sy_closed s))
| drop_guard s t c p closed :
    sy_tasks s !! t = Some (Holding c) → guard_drop (Some c) (sy_pool s) = (p, closed) →
    pool_step s (mkSys p (delete t (sy_tasks s)) (sy_opened s)
                   (sy_closed s ++ option_list closed)).

(** The connections in use. *)
Definition holds (t : Task) : option nat :=
  match t with Holding c => Some c | Opening => None end.

Definition held (m : gmap nat Task) : list nat := omap (λ x, holds x.2) (map_to_list m).

(** Every connection ever opened is idle, in use or closed, and in one place
    only; the idle ones are at most [max_size]. *)
Record pool_inv (max_size : nat) (s : Sys) : Prop := {
  pi_once : dp_connections (sy_pool s) ++ held (sy_tasks s) ++ sy_closed s ≡ₚ seq 0 (sy_opened s);
  pi_size : (length (dp_connections (sy_pool s)) <= max_size)%nat;
  pi_max : dp_max_size (sy_pool s) = max_size;
}.

Lemma held_insert m t x :
  m !! t = None → held (<[t := x]> m) ≡ₚ option_list (holds x) ++ held m.
Proof.
  intros Ht. unfold held. rewrite map_to_list_insert by done. cbn. by destruct (holds x).
Qed.

Lemma held_delete m t x :
  m !! t = Some x → held m ≡ₚ option_list (holds x) ++ held (delete t m).
Proof.
  intros Ht. rewrite <-held_insert by apply lookup_delete_eq. by rewrite insert_delete_id.
Qed.

Lemma held_replace m t x y :
  m !! t = Some x → holds x = None → held (<[t := y]> m) ≡ₚ option_list (holds y) ++ held m.
Proof.
  intros Ht Hx. rewrite <-insert_delete_eq, held_insert by apply lookup_delete_eq.
  by rewrite (held_delete _ _ _ Ht), Hx.
Qed.

Lemma pool_pop_Some p c p' :
  pool_pop p = Some (c, p') →
  dp_connections p = dp_connections p' ++ [c] ∧ dp_max_size p' = dp_max_size p.
Proof.
  unfold pool_pop. destruct (list.last (dp_connections p)) as [d|] eqn:E; [|done].
  cbn. intros [= <- <-]. apply last_Some in E as [l El]. cbn. rewrite El, removelast_last.
  done.
Qed.

Lemma pool_step_inv n s s' : pool_inv n s → pool_step s s' → pool_inv n s'.
Proof.
  intros [Ho Hs Hm]. destruct 1 as [s t c p Ht Hp|s t Ht Hp|s t Ht|s t Ht|s t c p cl Ht Hp];
    cbn in *.
  - apply pool_pop_Some in Hp as [Hc Hx]. rewrite Hc in Ho, Hs. rewrite length_app in Hs.
    split; cbn; [|lia|congruence]. rewrite <-Ho, held_insert by done. cbn.
    by rewrite <-(assoc_L (++)).
  - split; cbn; [|done..]. by rewrite held_insert by done.
  - split; cbn [sy_pool sy_tasks sy_opened sy_closed]; [|done..].
    rewrite (held_replace _ _ _ _ Ht) by done. cbn [holds option_list].
    rewrite seq_S, <-Ho. cbn [Nat.add]. solve_Permutation.
  - split; cbn; [|done..]. by rewrite <-Ho, (held_delete _ _ _ Ht).
  - unfold guard_drop, pool_put in Hp. destruct (Nat.ltb_spec (length (dp_connections (sy_pool s)))
      (dp_max_size (sy_pool s))); injection Hp as <- <-.
    + split; cbn; [|rewrite length_app; cbn; lia|done].
      rewrite <-Ho, (held_delete _ _ _ Ht), app_nil_r. cbn. solve_Permutation.
    + split; cbn; [|done..]. rewrite <-Ho, (held_delete _ _ _ Ht). cbn. solve_Permutation.
Qed.

Lemma pool_inv_start path n : pool_inv n (sys_start path n).
Proof. split; cbn; [done|lia|done]. Qed.

Lemma pool_inv_reached path n s : rtc pool_step (sys_start path n) s → pool_inv n s.
Proof.
  apply (rtc_ind_r (pool_inv n) (sys_start path n)); [apply pool_inv_start|].
  intros y z _ Hs Hy. by eapply pool_step_inv.
Qed.

(** ** The state of the application and the main program *)

Section main.
Context {V : Type} (null : V) {Addr : Type}.

(** A clock reads the seconds since the epoch off the system time, which can be
    before the epoch. *)
Definition BridgeClock : Type := Z → Z.

Definition SystemClock : BridgeClock := λ system_time, Z.max 0 system_time.

Record AppState := mkAppState {
  as_pool : DbPool;
  as_clock : BridgeClock;
  as_limits : RateLimitConfig;
}.

Definition init_state_with_clock (db_path : string) (clock : BridgeClock)
    (faults : list (option string)) (s : gmap string (TableData (V := V)))
    : gmap string TableData * result BridgeError AppState :=
  match init_db null faults s with
  | (s', _, Err e) => (s', Err (Storage e))
  | (s', _, Ok _) => (s', Ok (mkAppState (pool_new db_path 10) clock rate_limit_default))
  end.

Definition init_state (db_path : string) := init_state_with_clock db_path SystemClock.

Definition DEFAULT_BRIDGE_ADDR : string := "127.0.0.1:3000".

Definition bridge_addr_from_value (parse : string → result string Addr) (value : option string)
    : result string Addr := parse (default DEFAULT_BRIDGE_ADDR value).

(** [main] until it serves requests, over the database at the path it chooses:
    the environment's two variables, the parser of addresses and the listener. *)
Definition bridge_main (env_db env_addr : option string) (parse : string → result string Addr)
    (bind : Addr → result string unit) (faults : list (option string))
    (s : gmap string (TableData (V := V)))
    : gmap string TableData * result string (Addr * AppState) :=
  match init_state (default "spex-bridge.db"%string env_db) faults s with
  | (s', Err e) => (s', Err (bridge_error_to_string e))
  | (s', Ok state) =>
      (s', let? addr := bridge_addr_from_value parse env_addr in
           let? _ := bind addr in
           Ok (addr, state))
  end.

End main.

(** ** Claims *)

Section claims.
Context {V : Type} (null : V).

(** The database after startups that were interrupted by failures. *)
Definition after_startups (attempts : list (list (option string))) (s : gmap string TableData)
    : gmap string (TableData (V := V)) :=
  fold_left (λ s faults, (init_db null faults s).1.1) attempts s.

(** C22: however often the startup of the bridge is interrupted, by a failure at any
    statement, the next startup without failures succeeds and leaves the same
    database: every table SPEX needs is there, [inbox_items] of an older version
    has its expiry column with NULL in the old rows, and every other table and row
    is as it was. *)
Theorem interrupted_startup_resumes attempts s :
  ∃ s', init_db null [] (after_startups attempts s) = (s', [], Ok tt) ∧
    ∀ n, s' !! n = migrated null n (s !! n).
Proof.
  destruct (init_db_clean null (after_startups attempts s)) as (s' & Hi & Hs).
  exists s'. split; [done|]. intros n. rewrite Hs. clear Hi Hs s'. unfold after_startups.
  revert s. induction attempts as [|f fs IH]; intros s; [done|]. cbn [fold_left]. rewrite IH.
  destruct (init_db null f s) as [[s1 f1] r] eqn:E. by apply init_db_underway in E.
Qed.

End claims.

(** C15: in every interleaving of tasks that draw from the pool and put back, no two
    tasks hold the same connection, one in use is neither idle nor closed, the
    idle connections are distinct and at most [max_size], and once no task is left
    every connection ever opened is idle or closed: none leaks. *)
Theorem pool_connections_exclusive path max_size s :
  rtc pool_step (sys_start path max_size) s →
  (∀ t1 t2 c, sy_tasks s !! t1 = Some (Holding c) → sy_tasks s !! t2 = Some (Holding c) → t1 = t2) ∧
  (∀ t c, sy_tasks s !! t = Some (Holding c) →
     (c ∉ dp_connections (sy_pool s)) ∧ c ∉ sy_closed s) ∧
  NoDup (dp_connections (sy_pool s)) ∧ (length (dp_connections (sy_pool s)) <= max_size)%nat ∧
  (sy_tasks s = ∅ →
     (length (sy_closed s) + length (dp_connections (sy_pool s)) = sy_opened s)%nat).
Proof.
  intros [Ho Hs _]%pool_inv_reached.
  assert (NoDup (dp_connections (sy_pool s) ++ held (sy_tasks s) ++ sy_closed s)) as Hn
    by (rewrite Ho; apply NoDup_seq).
  pose proof Hn as (Hid & Hd1 & Hr)%list.NoDup_app.
  pose proof Hr as (Hh & Hd2 & _)%list.NoDup_app. split_and!.
  - intros t1 t2 c H1 H2. destruct (decide (t1 = t2)) as [|Hne]; [done|].
    rewrite (held_delete _ _ _ H1), (held_delete _ t2 (Holding c)) in Hh
      by (by rewrite lookup_delete_ne). cbn in Hh.
    apply list.NoDup_cons in Hh as [[]%not_elem_of_cons _]. done.
  - intros t c Hc. assert (c ∈ held (sy_tasks s)) as Hin
      by (rewrite (held_delete _ _ _ Hc); by left).
    split; [|by apply Hd2]. intros Hc'. apply (Hd1 c Hc'). apply elem_of_app. by left.
  - done.
  - done.
  - intros Ht. apply Permutation_length in Ho. rewrite !length_app, length_seq, Ht in Ho.
    change (length (held ∅)) with 0%nat in Ho. lia.
Qed.

(** [max_size] bounds the idle connections only: with enough requests at once,
    any number of connections is open and in use. *)
Theorem pool_opens_without_bound path max_size n :
  ∃ s, rtc pool_step (sys_start path max_size) s ∧ length (held (sy_tasks s)) = n.
Proof.
  assert (∃ s, rtc pool_step (sys_start path max_size) s ∧ length (held (sy_tasks s)) = n ∧
    dp_connections (sy_pool s) = [] ∧ ∀ t, (n <= t)%nat → sy_tasks s !! t = None)
    as (s & ? & ? & _); [|by exists s].
  induction n as [|n (s & Hr & Hh & Hp & Hf)].
  - by exists (sys_start path max_size).
  - assert (sy_tasks s !! n = None) as Hn by (apply Hf; lia).
    eexists. split_and!.
    + eapply rtc_r; [eapply rtc_r; [exact Hr|]|].
      * apply (get_empty s n); [done|]. unfold pool_pop. by rewrite Hp.
      * apply (open_done _ n). apply lookup_insert_eq.
    + cbn. rewrite insert_insert_eq, held_insert by done. cbn. by rewrite Hh.
    + done.
    + intros t Ht. cbn. rewrite !lookup_insert_ne by lia. apply Hf. lia.
Qed.

(** A startup that fails on the address the operator gave has set up the
    database all the same; without a failure the bridge listens where it was told,
    or on the loopback address, with an empty pool of ten connections. *)
Theorem bridge_main_outcome {V Addr : Type} (null : V) env_db env_addr
    (parse : string → result string Addr) bind s :
  ∃ s', (∀ n, s' !! n = migrated null n (s !! n)) ∧
    bridge_main null env_db env_addr parse bind [] s
    = (s', let? addr := parse (default "127.0.0.1:3000"%string env_addr) in
           let? _ := bind addr in
           Ok (addr, mkAppState (pool_new (default "spex-bridge.db"%string env_db) 10)
                       SystemClock rate_limit_default)).
Proof.
  destruct (init_db_clean null s) as (s' & Hi & Hs). exists s'. split; [done|].
  unfold bridge_main, init_state, init_state_with_clock. by rewrite Hi.
Qed.

(** ** Witnesses *)

Lemma pool_connections_exclusive_witness :
  NoDup (dp_connections (sy_pool (mkSys (mkDbPool "db" [0%nat] 10) ∅ 1 []))).
Proof.
  refine (proj1 (proj2 (proj2 (pool_connections_exclusive "db" 10
    (mkSys (mkDbPool "db" [0%nat] 10) ∅ 1 []) _)))).
  eapply rtc_l; [apply (get_empty _ 0%nat); reflexivity|].
  eapply rtc_l; [apply (open_done _ 0%nat); reflexivity|].
  eapply rtc_l; [apply (drop_guard _ 0%nat 0%nat (mkDbPool "db" [0%nat] 10) None); reflexivity|].
  apply rtc_refl.
Defined.
