(* ===== verification/Mls.v ===== *)
(** * Groups (spex-mls/src/lib.rs)

    The deterministic group state of SPEX: epochs, membership, the chain of
    group secrets, message encryption, recovery of missing commits, and the
    SPEX extensions carried in the MLS group context.  mls-rs is a parameter of
    the resynchronization code: a group state with its epoch and a processing
    function.

    Operations on a group return the group also when they fail, since the
    source mutates in place; [None] is the panic of the extension writer on a
    configuration hash longer than 255 bytes.

    The theorems are in [MlsFacts]. *)
From Stdlib Require Import ZArith Lia Ascii Strings.Byte.
From stdpp Require Import base list gmap strings sorting numbers.
From S2P Require Import Prelude External Cbor CborFacts Types Core.

#[local] Open Scope Z_scope.

#[export] Instance ProtoSuite_eq_dec : EqDecision ProtoSuite.
Proof. solve_decision. Defined.

(** ** State and errors *)

Record GroupContext := mkGroupContext {
  gc_proto_suite : ProtoSuite;
  gc_flags : Z;
  gc_cfg_hash_id : Z;
  gc_cfg_hash : bytes;
  gc_extensions : list bytes;
}.

Record GroupConfig := mkGroupConfig {
  cf_proto_suite : ProtoSuite;
  cf_flags : Z;
  cf_cfg_hash_id : Z;
  cf_cfg_hash : bytes;
  cf_initial_secret : option bytes;
}.

Definition config_new (proto_suite : ProtoSuite) (flags cfg_hash_id : Z) (cfg_hash : bytes)
    : GroupConfig := mkGroupConfig proto_suite flags cfg_hash_id cfg_hash None.

Record GroupSecrets := mkGroupSecrets { gs_epoch : Z; gs_group_secret : bytes }.

Record MemberSecret := mkMemberSecret { ms_member_id : string; ms_secret : bytes }.

Record Group := mkGroup {
  g_epoch : Z;
  g_context : GroupContext;
  g_members : list string;
  g_secrets : GroupSecrets;
  g_hash_id : HashId;
}.

Record Commit := mkCommit {
  cm_epoch : Z;
  cm_proto_suite : option ProtoSuite;
  cm_flags : option Z;
  cm_cfg_hash_id : option Z;
  cm_cfg_hash : option bytes;
  cm_group_secret : option bytes;
  cm_added_members : list string;
  cm_removed_members : list string;
}.

Definition commit_new (epoch : Z) : Commit := mkCommit epoch None None None None None [] [].

Record GroupMessage := mkGroupMessage {
  gm_epoch : Z;
  gm_cfg_hash : bytes;
  gm_proto_suite : ProtoSuite;
  gm_body : bytes;
}.

Inductive MlsValidationError : Type :=
| EpochMismatch (expected found : Z)
| CfgHashMismatch
| ProtoSuiteMismatch.

Record CommitOrderError := mkCommitOrderError { expected_epoch : Z; received_epoch : Z }.

Inductive EpochGap : Type :=
| GapCurrent
| GapNext
| GapStale (expected found : Z)
| GapGap (expected found : Z) (missing : list Z).

Inductive MlsError : Type :=
| UnsupportedHashId (v : Z)
| MlsValidation (e : MlsValidationError)
| UnknownMember (m : string)
| Encryption
| Decryption
| MlsSpex (e : SpexError)
| OutOfOrderCommit (e : CommitOrderError).

(** ** Derivations *)

Definition hash_id_from_u16 (hash_id : Z) : result MlsError HashId :=
  if hash_id =? 1 then Ok HashSha256 else Err (UnsupportedHashId hash_id).

(** [None] is the panic of [ext_cfg_hash_bytes]. *)
Definition mls_extensions (proto_suite : ProtoSuite) (flags cfg_hash_id : Z)
    (cfg_hash : bytes) : option (list bytes) :=
  cfg ← ext_cfg_hash_bytes cfg_hash_id cfg_hash;
  Some [ext_proto_suite_bytes (ps_major proto_suite) (ps_minor proto_suite)
          (ps_ciphersuite_id proto_suite) flags; cfg].

Definition rebuild_extensions (c : GroupContext) : option GroupContext :=
  ext ← mls_extensions (gc_proto_suite c) (gc_flags c) (gc_cfg_hash_id c) (gc_cfg_hash c);
  Some (mkGroupContext (gc_proto_suite c) (gc_flags c) (gc_cfg_hash_id c) (gc_cfg_hash c) ext).

(** [(a..b).collect()] *)
Definition range_u64 (a b : Z) : list Z :=
  map (λ i, a + Z.of_nat i) (seq 0 (Z.to_nat (b - a))).

Definition detect_epoch_gap (local_epoch received_epoch : Z) : EpochGap :=
  if received_epoch =? local_epoch then GapCurrent
  else if received_epoch =? wadd 64 local_epoch 1 then GapNext
  else if received_epoch <? local_epoch then GapStale (wadd 64 local_epoch 1) received_epoch
  else GapGap (wadd 64 local_epoch 1) received_epoch
         (range_u64 (wadd 64 local_epoch 1) received_epoch).

Section groups.
Context `{Sha256} `{Aead}.

Definition cfg_hash_for_thread_config (hash_id : HashId) (thread_config : ThreadConfig)
    : result MlsError bytes :=
  map_err MlsSpex (hash_ctap2_cbor_value hash_id thread_config).

Definition derive_initial_secret_seed (hash_id : HashId) (c : GroupContext) : bytes :=
  hash_bytes hash_id
    (gc_cfg_hash c ++ to_be_bytes 2 (ps_major (gc_proto_suite c)) ++
     to_be_bytes 2 (ps_minor (gc_proto_suite c)) ++
     to_be_bytes 2 (ps_ciphersuite_id (gc_proto_suite c)) ++ [byte_of_Z (gc_flags c)]).

Definition derive_group_secret (hash_id : HashId) (seed : bytes) (epoch : Z) : bytes :=
  hash_bytes hash_id (seed ++ to_be_bytes 8 epoch).

Definition derive_member_secret (hash_id : HashId) (group_secret : bytes) (member_id : string)
    : bytes :=
  hash_bytes hash_id (group_secret ++ as_bytes member_id).

Definition message_metadata (group_secret : bytes) (sender_id : string) (message_id : Z)
    (label : bytes) : bytes :=
  group_secret ++ as_bytes sender_id ++ to_be_bytes 8 message_id ++ label.

Definition derive_message_metadata_hash (hash_id : HashId) (group_secret : bytes)
    (sender_id : string) (message_id : Z) (label : bytes) : bytes :=
  hash_bytes hash_id (message_metadata group_secret sender_id message_id label).

(** [hash.get(..n)]. *)
Definition get_prefix (n : nat) (b : bytes) : option bytes :=
  if (n <=? length b)%nat then Some (take n b) else None.

Definition derive_aead_key (hash_id : HashId) (group_secret : bytes) (sender_id : string)
    (message_id : Z) : result MlsError bytes :=
  ok_or (get_prefix 32 (derive_message_metadata_hash hash_id group_secret sender_id message_id
                          (as_bytes "key"))) Encryption.

Definition derive_aead_nonce (hash_id : HashId) (group_secret : bytes) (sender_id : string)
    (message_id : Z) : result MlsError bytes :=
  ok_or (get_prefix 12 (derive_message_metadata_hash hash_id group_secret sender_id message_id
                          (as_bytes "nonce"))) Encryption.

(** ** Group operations *)

Definition group_create (config : GroupConfig) : option (result MlsError Group) :=
  match hash_id_from_u16 (cf_cfg_hash_id config) with
  | Err e => Some (Err e)
  | Ok hash_id =>
      context ← rebuild_extensions
        (mkGroupContext (cf_proto_suite config) (cf_flags config) (cf_cfg_hash_id config)
           (cf_cfg_hash config) []);
      let seed := match cf_initial_secret config with
                  | Some s => s
                  | None => derive_initial_secret_seed hash_id context
                  end in
      let group_secret := derive_group_secret hash_id seed 0 in
      Some (Ok (mkGroup 0 context [] (mkGroupSecrets 0 group_secret) hash_id))
  end.

(** [if !members.contains(&m) { members.push(m) }] *)
Definition push_member (members : list string) (m : string) : list string :=
  if decide (m ∈ members) then members else members ++ [m].

(** [members.retain(|member| member != &m)] *)
Definition retain_member (members : list string) (m : string) : list string :=
  filter (λ member, member ≠ m) members.

(** The assignments before and after the hash identifier is checked. *)
Definition commit_head (g : Group) (commit : Commit) : Group :=
  let c := g_context g in
  let suite := default (gc_proto_suite c) (cm_proto_suite commit) in
  let flags := default (gc_flags c) (cm_flags commit) in
  mkGroup (g_epoch g)
    (mkGroupContext suite flags (gc_cfg_hash_id c) (gc_cfg_hash c) (gc_extensions c))
    (g_members g) (g_secrets g) (g_hash_id g).

Definition next_secrets (hash_id : HashId) (s : GroupSecrets) (commit : Commit) : GroupSecrets :=
  match cm_group_secret commit with
  | Some secret => mkGroupSecrets (cm_epoch commit) secret
  | None =>
      if negb (cm_epoch commit =? gs_epoch s) then
        mkGroupSecrets (cm_epoch commit)
          (derive_group_secret hash_id (gs_group_secret s) (cm_epoch commit))
      else s
  end.

Definition commit_tail (g : Group) (hash_id : HashId) (cfg_hash_id : Z) (commit : Commit)
    : option Group :=
  let c := g_context g in
  let cfg_hash := default (gc_cfg_hash c) (cm_cfg_hash commit) in
  let members := fold_left push_member (cm_added_members commit) (g_members g) in
  let members := fold_left retain_member (cm_removed_members commit) members in
  let secrets := next_secrets hash_id (g_secrets g) commit in
  context ← rebuild_extensions
    (mkGroupContext (gc_proto_suite c) (gc_flags c) cfg_hash_id cfg_hash (gc_extensions c));
  Some (mkGroup (cm_epoch commit) context members secrets hash_id).

Definition apply_commit (g : Group) (commit : Commit)
    : option (Group * result MlsError GroupContext) :=
  if negb (cm_epoch commit =? wadd 64 (g_epoch g) 1) then
    Some (g, Err (OutOfOrderCommit
                    (mkCommitOrderError (wadd 64 (g_epoch g) 1) (cm_epoch commit))))
  else
    let g1 := commit_head g commit in
    match cm_cfg_hash_id commit with
    | None =>
        g2 ← commit_tail g1 (g_hash_id g1) (gc_cfg_hash_id (g_context g1)) commit;
        Some (g2, Ok (g_context g2))
    | Some id =>
        match hash_id_from_u16 id with
        | Err e => Some (g1, Err e)
        | Ok hash_id =>
            g2 ← commit_tail g1 hash_id id commit;
            Some (g2, Ok (g_context g2))
        end
    end.

(** The [for commit in missing_commits { self.apply_commit(commit)?; }] loop:
    the group reached and the error that stopped it, if any. *)
Fixpoint apply_commits (g : Group) (commits : list Commit) : option (Group * result MlsError unit) :=
  match commits with
  | [] => Some (g, Ok tt)
  | commit :: rest =>
      match apply_commit g commit with
      | None => None
      | Some (g', Err e) => Some (g', Err e)
      | Some (g', Ok _) => apply_commits g' rest
      end
  end.

Definition commit_leb (a b : Commit) : bool := cm_epoch a <=? cm_epoch b.

Definition apply_commit_with_recovery (g : Group) (target : Commit)
    (missing_commits : list Commit) : option (Group * result MlsError GroupContext) :=
  match detect_epoch_gap (g_epoch g) (cm_epoch target) with
  | GapCurrent | GapStale _ _ => apply_commit g target
  | GapNext => apply_commit g target
  | GapGap _ _ missing =>
      let commits := sort_by commit_leb missing_commits in
      if negb (bool_decide (map cm_epoch commits = missing)) then
        Some (g, Err (OutOfOrderCommit
                        (mkCommitOrderError (wadd 64 (g_epoch g) 1) (cm_epoch target))))
      else
        match apply_commits g commits with
        | None => None
        | Some (g', Err e) => Some (g', Err e)
        | Some (g', Ok _) => apply_commit g' target
        end
  end.

Definition add_member (g : Group) (member_id : string) : option (Group * result MlsError Commit) :=
  let commit := mkCommit (wadd 64 (g_epoch g) 1) None None None None None [member_id] [] in
  '(g', r) ← apply_commit g commit;
  Some (g', match r with Ok _ => Ok commit | Err e => Err e end).

Definition remove_member (g : Group) (member_id : string)
    : option (Group * result MlsError Commit) :=
  let commit := mkCommit (wadd 64 (g_epoch g) 1) None None None None None [] [member_id] in
  '(g', r) ← apply_commit g commit;
  Some (g', match r with Ok _ => Ok commit | Err e => Err e end).

Definition distribute_secrets (g : Group) : list MemberSecret :=
  map (λ m, mkMemberSecret m
              (derive_member_secret (g_hash_id g) (gs_group_secret (g_secrets g)) m)) (g_members g).

Definition ensure_member (g : Group) (member_id : string) : result MlsError unit :=
  if decide (member_id ∈ g_members g) then Ok tt else Err (UnknownMember member_id).

Definition validate_message (g : Group) (m : GroupMessage) : result MlsValidationError unit :=
  if negb (gm_epoch m =? g_epoch g) then Err (EpochMismatch (g_epoch g) (gm_epoch m))
  else if negb (bool_decide (gm_cfg_hash m = gc_cfg_hash (g_context g))) then Err CfgHashMismatch
  else if negb (bool_decide (gm_proto_suite m = gc_proto_suite (g_context g)))
  then Err ProtoSuiteMismatch
  else Ok tt.

Definition encrypt (g : Group) (sender_id : string) (message_id : Z) (plaintext : bytes)
    : result MlsError GroupMessage :=
  let? _ := ensure_member g sender_id in
  let? key := derive_aead_key (g_hash_id g) (gs_group_secret (g_secrets g)) sender_id message_id in
  let? nonce := derive_aead_nonce (g_hash_id g) (gs_group_secret (g_secrets g)) sender_id message_id in
  let? ciphertext := map_err (λ _, Encryption) (aead_encrypt key nonce [] plaintext) in
  Ok (mkGroupMessage (g_epoch g) (gc_cfg_hash (g_context g)) (gc_proto_suite (g_context g))
        ciphertext).

Definition decrypt (g : Group) (sender_id : string) (message_id : Z) (m : GroupMessage)
    : result MlsError bytes :=
  let? _ := ensure_member g sender_id in
  let? _ := map_err MlsValidation (validate_message g m) in
  let? key := derive_aead_key (g_hash_id g) (gs_group_secret (g_secrets g)) sender_id message_id in
  let? nonce := derive_aead_nonce (g_hash_id g) (gs_group_secret (g_secrets g)) sender_id message_id in
  map_err (λ _, Decryption) (aead_decrypt key nonce [] (gm_body m)).

End groups.

(** ** The mls-rs integration *)

Inductive MlsRsError : Type :=
| UnsupportedProtocolVersion (major minor : Z)
| UnsupportedCipherSuite (v : Z)
| UnsupportedCfgHashId (v : Z)
| InvalidExtension (reason : string)
| RsUnknownMember
| RsValidation (e : MlsValidationError)
| LibraryError (e : string)
| MalformedExternalCommit (e : string)
| RsOutOfOrderCommit (e : CommitOrderError).

(** [raw[i..j]] as a big-endian number. *)
Definition be_at (raw : bytes) (i n : nat) : Z := from_be_bytes (take n (drop i raw)).

Definition strip_extension_data (raw : bytes) (expected_type : Z) : result MlsRsError bytes :=
  if (length raw <? 4)%nat then Err (InvalidExtension "extension payload is too short")
  else if negb (be_at raw 0 2 =? expected_type) then
    Err (InvalidExtension "extension type mismatch")
  else if negb (zlen raw =? 4 + be_at raw 2 2) then
    Err (InvalidExtension "extension length mismatch")
  else Ok (drop 4 raw).

Definition parse_proto_suite_extension (data : bytes) : result MlsRsError (ProtoSuite * Z) :=
  if negb (length data =? 7)%nat then
    Err (InvalidExtension "proto suite extension length mismatch")
  else Ok (mkProtoSuite (be_at data 0 2) (be_at data 2 2) (be_at data 4 2), be_at data 6 1).

Definition parse_cfg_hash_extension (data : bytes) : result MlsRsError (Z * bytes) :=
  if (length data <? 3)%nat then Err (InvalidExtension "cfg_hash extension is too short")
  else if negb (zlen data =? 3 + be_at data 2 1) then
    Err (InvalidExtension "cfg_hash extension length mismatch")
  else Ok (be_at data 0 2, drop 3 data).

(** An [ExtensionList] as the data of each extension type. *)
Definition ExtensionList : Type := list (Z * bytes).

(** [list.set(ext)]: replaces the extension of that type or appends it. *)
Fixpoint ext_set (l : ExtensionList) (t : Z) (d : bytes) : ExtensionList :=
  match l with
  | [] => [(t, d)]
  | (t', d') :: l' => if t' =? t then (t, d) :: l' else (t', d') :: ext_set l' t d
  end.

Fixpoint ext_get (l : ExtensionList) (t : Z) : option bytes :=
  match l with
  | [] => None
  | (t', d) :: l' => if t' =? t then Some d else ext_get l' t
  end.

Definition build_group_context_extensions (config : GroupConfig)
    : option (result MlsRsError ExtensionList) :=
  if 255 <? zlen (cf_cfg_hash config) then
    Some (Err (InvalidExtension "cfg_hash length exceeds 255 bytes"))
  else
    let proto_extension := ext_proto_suite_bytes (ps_major (cf_proto_suite config))
      (ps_minor (cf_proto_suite config)) (ps_ciphersuite_id (cf_proto_suite config))
      (cf_flags config) in
    cfg_extension ← ext_cfg_hash_bytes (cf_cfg_hash_id config) (cf_cfg_hash config);
    Some (let? proto_data := strip_extension_data proto_extension EXT_SPEX_PROTO_SUITE in
          let? cfg_data := strip_extension_data cfg_extension EXT_SPEX_CFG_HASH in
          Ok (ext_set (ext_set [] EXT_SPEX_PROTO_SUITE proto_data) EXT_SPEX_CFG_HASH cfg_data)).

Definition group_config_from_context (extensions : ExtensionList)
    : result MlsRsError GroupConfig :=
  let? proto_ext := ok_or (ext_get extensions EXT_SPEX_PROTO_SUITE)
                      (InvalidExtension "missing proto suite extension") in
  let? cfg_ext := ok_or (ext_get extensions EXT_SPEX_CFG_HASH)
                    (InvalidExtension "missing cfg_hash extension") in
  let? ps := parse_proto_suite_extension proto_ext in
  let? ch := parse_cfg_hash_extension cfg_ext in
  Ok (config_new ps.1 ps.2 ch.1 ch.2).

Definition validate_group_context_extensions (extensions : ExtensionList) (config : GroupConfig)
    : result MlsRsError unit :=
  let? proto_ext := ok_or (ext_get extensions EXT_SPEX_PROTO_SUITE)
                      (InvalidExtension "missing proto suite extension") in
  let? cfg_ext := ok_or (ext_get extensions EXT_SPEX_CFG_HASH)
                    (InvalidExtension "missing cfg_hash extension") in
  let? ps := parse_proto_suite_extension proto_ext in
  if negb (bool_decide (ps.1 = cf_proto_suite config)) || negb (ps.2 =? cf_flags config)
  then Err (RsValidation ProtoSuiteMismatch)
  else
    let? ch := parse_cfg_hash_extension cfg_ext in
    if negb (ch.1 =? cf_cfg_hash_id config) || negb (bool_decide (ch.2 = cf_cfg_hash config))
    then Err (RsValidation CfgHashMismatch)
    else Ok tt.

Definition validate_cfg_hash_id (cfg_hash_id : Z) : result MlsRsError unit :=
  match hash_id_from_u16 cfg_hash_id with
  | Ok _ => Ok tt
  | Err _ => Err (UnsupportedCfgHashId cfg_hash_id)
  end.

(** [true] stands for [ProtocolVersion::MLS_10], the one version used. *)
Definition protocol_version_from_proto_suite (suite : ProtoSuite) : result MlsRsError bool :=
  if (ps_major suite =? 0) && (ps_minor suite =? 1) then Ok true
  else Err (UnsupportedProtocolVersion (ps_major suite) (ps_minor suite)).

(** *** Resynchronization *)

(** What the resynchronization code sees of an mls-rs group: its epoch and
    [process_commit_message], which answers with a description of the commit.
    The file [RsGroup] gives the instance of the wrapper around mls-rs. *)
Class MlsRs := {
  rs_group : Type;
  rs_message : Type;
  (** [mls_rs::group::CommitMessageDescription] *)
  rs_described : Type;
  rs_current_epoch : rs_group → Z;
  (** the effect of the commit is a new epoch for the local member *)
  rs_new_epoch : rs_described → bool;
  (** the group afterwards, also after an error *)
  rs_process_commit : rs_group → rs_message → rs_group * result MlsRsError rs_described;
}.

Section resync.
Context `{MlsRs}.

Record ExternalCommit := mkExternalCommit { xc_epoch : Z; xc_message : rs_message }.

(** [from_bytes] is [MlsMessage::from_bytes]. *)
Definition parse_external_commit (from_bytes : bytes → result string rs_message) (raw : bytes)
    (epoch : Z) : result MlsRsError ExternalCommit :=
  let? message := map_err MalformedExternalCommit (from_bytes raw) in
  Ok (mkExternalCommit epoch message).

Definition process_external_commit_explicit (g : rs_group) (c : ExternalCommit)
    : rs_group * result MlsRsError rs_described :=
  match detect_epoch_gap (rs_current_epoch g) (xc_epoch c) with
  | GapNext => rs_process_commit g (xc_message c)
  | _ => (g, Err (RsOutOfOrderCommit
                    (mkCommitOrderError (wadd 64 (rs_current_epoch g) 1) (xc_epoch c))))
  end.

Fixpoint process_external_commits (g : rs_group) (commits : list ExternalCommit)
    : rs_group * result MlsRsError unit :=
  match commits with
  | [] => (g, Ok tt)
  | c :: rest =>
      match process_external_commit_explicit g c with
      | (g', Ok _) => process_external_commits g' rest
      | (g', Err e) => (g', Err e)
      end
  end.

Definition process_external_commit_with_resync (g : rs_group) (c : ExternalCommit)
    (fetch_missing : Z → Z → result MlsRsError (list ExternalCommit))
    : rs_group * result MlsRsError rs_described :=
  match detect_epoch_gap (rs_current_epoch g) (xc_epoch c) with
  | GapCurrent | GapStale _ _ =>
      (g, Err (RsOutOfOrderCommit
                 (mkCommitOrderError (wadd 64 (rs_current_epoch g) 1) (xc_epoch c))))
  | GapNext => process_external_commit_explicit g c
  | GapGap expected found missing =>
      match fetch_missing expected found with
      | Err e => (g, Err e)
      | Ok fetched =>
          let commits := sort_by (λ a b, xc_epoch a <=? xc_epoch b) fetched in
          if negb (bool_decide (map xc_epoch commits = missing)) then
            (g, Err (RsOutOfOrderCommit (mkCommitOrderError expected found)))
          else
            match process_external_commits g commits with
            | (g', Ok _) => process_external_commit_explicit g' c
            | (g', Err e) => (g', Err e)
            end
      end
  end.

End resync.
