(* ===== verification/MlsFacts.v ===== *)
(** * Groups: lemmas and theorems

    About the definitions of [Mls].  Shown here: commits advance the epoch one
    at a time, keep membership free of duplicates and the extensions in step,
    and do to the membership what they say; recovery applies exactly the
    missing commits whatever order they come in, stops at an unsupported one, and
    does nothing when they are not exactly the missing ones; a message decrypts to its plaintext inside its
    epoch only; message keys are not shared between senders or message numbers;
    the SPEX extensions are read back and pin the configuration;
    resynchronization over mls-rs ends at the epoch of the commit it was asked
    for.  Two results describe what the code does not do: a refused commit can
    leave the group changed, and removing a member does not cut it off from the
    next secret. *)
From Stdlib Require Import ZArith Lia Ascii Strings.Byte.
From stdpp Require Import base list gmap strings sorting numbers relations.
From S2P Require Import Prelude External Cbor CborFacts Types Core Mls.

#[local] Open Scope Z_scope.

(** ** Consecutive epochs *)

Lemma wadd_small w a b : 0 <= a + b < 2 ^ w → wadd w a b = a + b.
Proof. intros ?. unfold wadd, wrap. by apply Z.mod_small. Qed.

Lemma range_u64_nil a b : b <= a → range_u64 a b = [].
Proof. intros ?. unfold range_u64. by replace (Z.to_nat (b - a)) with 0%nat by lia. Qed.

Lemma range_u64_cons a b : a < b → range_u64 a b = a :: range_u64 (a + 1) b.
Proof.
  intros ?. unfold range_u64.
  replace (Z.to_nat (b - a)) with (S (Z.to_nat (b - (a + 1)))) by lia.
  cbn [seq map]. f_equal; [lia|]. rewrite <-seq_shift, map_map.
  apply map_ext. intros ?. lia.
Qed.

Lemma elem_of_range_u64 a b x : x ∈ range_u64 a b ↔ a <= x < b.
Proof.
  unfold range_u64. rewrite list_elem_of_In, in_map_iff. split.
  - intros (i & <- & Hi%in_seq). lia.
  - intros ?. exists (Z.to_nat (x - a)). rewrite in_seq. lia.
Qed.

Lemma range_u64_sorted a b : StronglySorted (λ x y, (x <=? y) = true) (range_u64 a b).
Proof.
  remember (Z.to_nat (b - a)) as n eqn:Hn. revert a Hn.
  induction n as [|n IH]; intros a Hn.
  - rewrite range_u64_nil by lia. constructor.
  - rewrite range_u64_cons by lia. constructor; [apply IH; lia|].
    apply List.Forall_forall. intros x Hx%list_elem_of_In%elem_of_range_u64. lia.
Qed.

Section sorted_epochs.
Context {A : Type} (ep : A → Z).

Definition by_epoch (a b : A) : bool := ep a <=? ep b.

Lemma map_sorted_epochs l :
  StronglySorted (λ a b, by_epoch a b = true) l →
  StronglySorted (λ x y, (x <=? y) = true) (map ep l).
Proof.
  induction 1 as [|a l Hs IH Ha]; simpl; constructor; [done|].
  apply List.Forall_forall. intros x (y & <- & Hy)%in_map_iff.
  rewrite List.Forall_forall in Ha. by apply Ha.
Qed.

(** Sorting by epoch gives the range exactly when the epochs are that range in
    some order. *)
Lemma sorted_epochs_range l a b :
  map ep (sort_by by_epoch l) = range_u64 a b ↔ map ep l ≡ₚ range_u64 a b.
Proof.
  split; intros Hl.
  - rewrite <-Hl. apply Permutation_map. by rewrite sort_by_Permutation.
  - apply (sorted_Permutation_unique Z.leb).
    + intros. lia.
    + apply map_sorted_epochs, sort_by_sorted; unfold by_epoch; intros; lia.
    + apply range_u64_sorted.
    + rewrite <-Hl. apply Permutation_map. by rewrite sort_by_Permutation.
Qed.

End sorted_epochs.

Lemma detect_gap_next e t : t = wadd 64 e 1 → fits 64 e → detect_epoch_gap e t = GapNext.
Proof.
  intros -> He. unfold detect_epoch_gap. rewrite Z.eqb_refl.
  destruct (wadd 64 e 1 =? e) eqn:E; [|done]. bool_to_prop. exfalso.
  unfold wadd, wrap, fits in *.
  destruct (decide (e + 1 < 2 ^ 64)).
  - rewrite Z.mod_small in E by lia. lia.
  - replace (e + 1) with (2 ^ 64) in E by lia. rewrite Z.mod_same in E by lia. lia.
Qed.

Lemma detect_gap_far e t :
  fits 64 e → e + 1 < t → t < 2 ^ 64 →
  detect_epoch_gap e t = GapGap (e + 1) t (range_u64 (e + 1) t).
Proof.
  intros He ? ?. unfold fits in He. unfold detect_epoch_gap. rewrite wadd_small by lia.
  replace (t =? e) with false by lia. replace (t =? e + 1) with false by lia.
  by replace (t <? e) with false by lia.
Qed.

Lemma detect_gap_far_inv e t x y missing :
  fits 64 e → detect_epoch_gap e t = GapGap x y missing → e + 1 < t ∨ e = 2 ^ 64 - 1.
Proof.
  unfold detect_epoch_gap, fits. intros He.
  destruct (decide (e = 2 ^ 64 - 1)); [by right|]. rewrite wadd_small by lia.
  destruct (t =? e) eqn:?; [done|]. destruct (t =? e + 1) eqn:?; [done|].
  destruct (t <? e) eqn:?; [done|]. bool_to_prop. left. lia.
Qed.

(** ** Membership *)

Lemma push_member_elem ms m x : x ∈ push_member ms m ↔ x ∈ ms ∨ x = m.
Proof.
  unfold push_member. destruct (decide (m ∈ ms)).
  - split; [auto|]. intros [?| ->]; done.
  - by rewrite elem_of_app, list_elem_of_singleton.
Qed.

Lemma push_member_NoDup ms m : NoDup ms → NoDup (push_member ms m).
Proof.
  intros ?. unfold push_member. destruct (decide (m ∈ ms)); [done|].
  apply NoDup_app. split; [done|]. split; [|apply NoDup_singleton].
  intros x Hx ->%list_elem_of_singleton. done.
Qed.

Lemma push_members_elem added ms x :
  x ∈ fold_left push_member added ms ↔ x ∈ ms ∨ x ∈ added.
Proof.
  revert ms. induction added as [|m added IH]; intros ms; simpl.
  - rewrite elem_of_nil. tauto.
  - rewrite IH, push_member_elem, elem_of_cons. tauto.
Qed.

Lemma push_members_NoDup added ms : NoDup ms → NoDup (fold_left push_member added ms).
Proof.
  revert ms. induction added as [|m added IH]; intros ms Hms; simpl; [done|].
  by apply IH, push_member_NoDup.
Qed.

Lemma retain_members_elem removed ms x :
  x ∈ fold_left retain_member removed ms ↔ x ∈ ms ∧ x ∉ removed.
Proof.
  revert ms. induction removed as [|m removed IH]; intros ms; simpl.
  - rewrite elem_of_nil. tauto.
  - rewrite IH. unfold retain_member. rewrite list_elem_of_filter, not_elem_of_cons. tauto.
Qed.

Lemma retain_members_NoDup removed ms : NoDup ms → NoDup (fold_left retain_member removed ms).
Proof.
  revert ms. induction removed as [|m removed IH]; intros ms Hms; simpl; [done|].
  by apply IH, NoDup_filter.
Qed.

(** ** Invariant and abstract effect of a commit *)

Section groups.
Context `{SH : Sha256} `{AE : Aead}.

(** What every group state satisfies. *)
Record group_inv (g : Group) : Prop := {
  inv_members : NoDup (g_members g);
  inv_epoch : fits 64 (g_epoch g);
  inv_secrets : gs_epoch (g_secrets g) = g_epoch g;
  inv_hash_id : hash_id_from_u16 (gc_cfg_hash_id (g_context g)) = Ok (g_hash_id g);
  inv_cfg_hash : zlen (gc_cfg_hash (g_context g)) <= 255;
}.

(** The extensions are those of the other context fields. *)
Definition ext_in_step (c : GroupContext) : Prop :=
  mls_extensions (gc_proto_suite c) (gc_flags c) (gc_cfg_hash_id c) (gc_cfg_hash c)
  = Some (gc_extensions c).

(** The contents of a commit the group can take on. *)
Definition commit_supported (c : Commit) : Prop :=
  (cm_cfg_hash_id c = None ∨ cm_cfg_hash_id c = Some 1) ∧
  (∀ h, cm_cfg_hash c = Some h → zlen h <= 255).

(** What a commit means. *)
Record commit_effect (g : Group) (c : Commit) (g' : Group) : Prop := {
  eff_epoch : g_epoch g' = cm_epoch c;
  eff_members : ∀ m, m ∈ g_members g' ↔
    (m ∈ g_members g ∨ m ∈ cm_added_members c) ∧ m ∉ cm_removed_members c;
  eff_suite : gc_proto_suite (g_context g')
    = default (gc_proto_suite (g_context g)) (cm_proto_suite c);
  eff_flags : gc_flags (g_context g') = default (gc_flags (g_context g)) (cm_flags c);
  eff_hash_id : gc_cfg_hash_id (g_context g')
    = default (gc_cfg_hash_id (g_context g)) (cm_cfg_hash_id c);
  eff_cfg_hash : gc_cfg_hash (g_context g')
    = default (gc_cfg_hash (g_context g)) (cm_cfg_hash c);
  eff_extensions : ext_in_step (g_context g');
  eff_secret : gs_group_secret (g_secrets g')
    = match cm_group_secret c with
      | Some s => s
      | None => derive_group_secret (g_hash_id g') (gs_group_secret (g_secrets g)) (cm_epoch c)
      end;
}.

Lemma hash_id_from_u16_Ok i h : hash_id_from_u16 i = Ok h ↔ i = 1.
Proof.
  unfold hash_id_from_u16. destruct h. destruct (i =? 1) eqn:E; bool_to_prop; by split.
Qed.

Lemma ext_cfg_hash_bytes_short i h :
  zlen h <= 255 → ∃ d, ext_cfg_hash_bytes i h = Some d.
Proof. intros ?. unfold ext_cfg_hash_bytes. replace (zlen h <=? 255) with true by lia. eauto. Qed.

Lemma rebuild_extensions_Some c c' :
  rebuild_extensions c = Some c' →
  zlen (gc_cfg_hash c) <= 255 ∧ ext_in_step c' ∧
  c' = mkGroupContext (gc_proto_suite c) (gc_flags c) (gc_cfg_hash_id c) (gc_cfg_hash c)
         (gc_extensions c').
Proof.
  unfold rebuild_extensions, ext_in_step, mls_extensions. intros Hr.
  destruct (ext_cfg_hash_bytes _ _) as [d|] eqn:E; [|done].
  assert (zlen (gc_cfg_hash c) <= 255).
  { unfold ext_cfg_hash_bytes in E. destruct (zlen _ <=? 255) eqn:?; [lia|done]. }
  cbn in Hr. apply (inj Some) in Hr as <-. cbn. by rewrite E.
Qed.

Lemma rebuild_extensions_short c :
  zlen (gc_cfg_hash c) <= 255 → ∃ c', rebuild_extensions c = Some c'.
Proof.
  intros Hl. unfold rebuild_extensions, mls_extensions.
  destruct (ext_cfg_hash_bytes_short (gc_cfg_hash_id c) _ Hl) as [d ->]. cbn. eauto.
Qed.

Lemma fits_wadd e : fits 64 (wadd 64 e 1).
Proof. unfold fits, wadd, wrap. apply Z.mod_pos_bound. lia. Qed.

Lemma wadd_neq e : fits 64 e → wadd 64 e 1 ≠ e.
Proof.
  intros He Heq. pose proof (detect_gap_next e e ltac:(done) He) as Hd.
  unfold detect_epoch_gap in Hd. by rewrite Z.eqb_refl in Hd.
Qed.

(** The two ways a commit of the right epoch gets to its tail. *)
Lemma commit_tail_effect g c hash_id i g' :
  group_inv g → cm_epoch c = wadd 64 (g_epoch g) 1 →
  hash_id_from_u16 i = Ok hash_id →
  i = default (gc_cfg_hash_id (g_context g)) (cm_cfg_hash_id c) →
  commit_tail (commit_head g c) hash_id i c = Some g' →
  commit_effect g c g' ∧ group_inv g'.
Proof.
  intros Hinv He Hi Hd Ht. unfold commit_tail in Ht. cbn in Ht.
  destruct (rebuild_extensions _) as [ctx|] eqn:Er; [|done].
  cbn in Ht. apply (inj Some) in Ht as <-.
  apply rebuild_extensions_Some in Er as (Hlen & Hstep & Hctx). cbn in Hlen, Hctx.
  assert (cm_epoch c ≠ gs_epoch (g_secrets g)) as Hne.
  { rewrite (inv_secrets g Hinv), He. apply wadd_neq, Hinv. }
  assert (gs_epoch (next_secrets hash_id (g_secrets g) c) = cm_epoch c ∧
          gs_group_secret (next_secrets hash_id (g_secrets g) c)
          = match cm_group_secret c with
            | Some s => s
            | None => derive_group_secret hash_id (gs_group_secret (g_secrets g)) (cm_epoch c)
            end) as [Hs1 Hs2].
  { unfold next_secrets. destruct (cm_group_secret c); [done|].
    by replace (cm_epoch c =? _) with false by lia. }
  destruct ctx as [suite flags i' h exts]. cbn in Hctx. injection Hctx as -> -> -> ->.
  split; split; cbn; try done.
  - intros m. by rewrite retain_members_elem, push_members_elem.
  - apply retain_members_NoDup, push_members_NoDup, Hinv.
  - rewrite He. apply fits_wadd.
Qed.

Lemma commit_head_inv g c : group_inv g → group_inv (commit_head g c).
Proof. intros [? ? ? ? ?]. by split. Qed.

(** Every outcome of [apply_commit]. *)
Lemma apply_commit_cases g c g' r :
  group_inv g → apply_commit g c = Some (g', r) →
  (cm_epoch c ≠ wadd 64 (g_epoch g) 1 ∧ g' = g ∧
     r = Err (OutOfOrderCommit (mkCommitOrderError (wadd 64 (g_epoch g) 1) (cm_epoch c)))) ∨
  (∃ i, cm_epoch c = wadd 64 (g_epoch g) 1 ∧ cm_cfg_hash_id c = Some i ∧ i ≠ 1 ∧
     g' = commit_head g c ∧ r = Err (UnsupportedHashId i)) ∨
  (cm_epoch c = wadd 64 (g_epoch g) 1 ∧ commit_effect g c g' ∧ group_inv g' ∧
     r = Ok (g_context g')).
Proof.
  intros Hinv Ha. unfold apply_commit in Ha.
  destruct (cm_epoch c =? wadd 64 (g_epoch g) 1) eqn:Ee; cbn [negb] in Ha; bool_to_prop;
    [|left; by simplify_eq].
  right. destruct (cm_cfg_hash_id c) as [i|] eqn:Ei.
  - unfold hash_id_from_u16 in Ha. destruct (i =? 1) eqn:E1; bool_to_prop.
    + right. destruct (commit_tail _ _ _ _) as [g2|] eqn:Et; [|done]. simplify_eq/=.
      apply commit_tail_effect in Et as [??]; [|done..|by rewrite Ei]. auto.
    + left. exists i. by simplify_eq.
  - right. destruct (commit_tail _ _ _ _) as [g2|] eqn:Et; [|done]. simplify_eq/=.
    apply commit_tail_effect in Et as [??]; [|done..|apply Hinv|by rewrite Ei]. auto.
Qed.

Lemma apply_commit_Ok g c g' ctx :
  group_inv g → apply_commit g c = Some (g', Ok ctx) →
  cm_epoch c = wadd 64 (g_epoch g) 1 ∧ commit_effect g c g' ∧ group_inv g'.
Proof.
  intros Hinv [H|[H|H]]%apply_commit_cases; [| | |done].
  - by destruct H as (_ & _ & ?).
  - by destruct H as (i & _ & _ & _ & _ & ?).
  - tauto.
Qed.

(** The list of members, in order. *)
Lemma apply_commit_members g c g' ctx :
  apply_commit g c = Some (g', Ok ctx) →
  g_members g' = fold_left retain_member (cm_removed_members c)
                   (fold_left push_member (cm_added_members c) (g_members g)).
Proof.
  unfold apply_commit. intros Ha. destruct (negb _); [done|].
  assert (∀ h i g2, commit_tail (commit_head g c) h i c = Some g2 →
    g_members g2 = fold_left retain_member (cm_removed_members c)
                     (fold_left push_member (cm_added_members c) (g_members g))) as Ht.
  { unfold commit_tail. intros h i g2 Hg. destruct (rebuild_extensions _); [|done].
    by apply (inj Some) in Hg as <-. }
  destruct (cm_cfg_hash_id c) as [i|]; [destruct (hash_id_from_u16 i); [|done]|];
    (destruct (commit_tail _ _ _ _) eqn:Et; [|done]); cbn in Ha; simplify_eq; by eapply Ht.
Qed.

Lemma apply_commit_supported g c :
  group_inv g → commit_supported c → cm_epoch c = wadd 64 (g_epoch g) 1 →
  ∃ g', apply_commit g c = Some (g', Ok (g_context g')) ∧ commit_effect g c g' ∧ group_inv g'.
Proof.
  intros Hinv [Hid Hh] He.
  assert (∀ h i, ∃ g', commit_tail (commit_head g c) h i c = Some g') as Htail.
  { intros h i. unfold commit_tail. cbn.
    destruct (rebuild_extensions_short (mkGroupContext
       (default (gc_proto_suite (g_context g)) (cm_proto_suite c))
       (default (gc_flags (g_context g)) (cm_flags c)) i
       (default (gc_cfg_hash (g_context g)) (cm_cfg_hash c)) (gc_extensions (g_context g))))
      as [c' Hc']; [|rewrite Hc'; cbn; eauto].
    cbn. destruct (cm_cfg_hash c); [by apply Hh|]. apply Hinv. }
  assert (∃ g', apply_commit g c = Some (g', Ok (g_context g'))) as [g' Hg'].
  { unfold apply_commit. rewrite (proj2 (Z.eqb_eq _ _) He). cbn [negb].
    destruct Hid as [-> | ->]; cbn [hash_id_from_u16 Z.eqb Pos.eqb];
      [destruct (Htail (g_hash_id (commit_head g c))
         (gc_cfg_hash_id (g_context (commit_head g c)))) as [g' Hg']
      |destruct (Htail HashSha256 1) as [g' Hg']]; rewrite Hg'; cbn; eauto. }
  exists g'. split; [done|]. by apply apply_commit_Ok in Hg' as [_ ?].
Qed.

(** ** Reachable groups *)

(** One call that can change a group, whether it succeeds or not. *)
Inductive group_step : Group → Group → Prop :=
| step_commit g c g' r : apply_commit g c = Some (g', r) → group_step g g'
| step_recovery g t missing g' r :
    apply_commit_with_recovery g t missing = Some (g', r) → group_step g g'
| step_add g m g' r : add_member g m = Some (g', r) → group_step g g'
| step_remove g m g' r : remove_member g m = Some (g', r) → group_step g g'.

Definition group_reachable (g : Group) : Prop :=
  ∃ config g0, group_create config = Some (Ok g0) ∧ rtc group_step g0 g.

Lemma group_create_inv config g :
  group_create config = Some (Ok g) →
  group_inv g ∧ ext_in_step (g_context g) ∧ g_epoch g = 0 ∧ g_members g = [].
Proof.
  unfold group_create. destruct (hash_id_from_u16 _) as [h|] eqn:Eh; [|done].
  destruct (rebuild_extensions _) as [ctx|] eqn:Er; [|done]. intros Hg. cbn in Hg.
  assert (g = mkGroup 0 ctx [] (mkGroupSecrets 0 (derive_group_secret h
    (default (derive_initial_secret_seed h ctx) (cf_initial_secret config)) 0)) h) as ->.
  { destruct (cf_initial_secret config); cbn; congruence. }
  apply rebuild_extensions_Some in Er as (Hlen & Hstep & Hctx). cbn in Hlen.
  destruct ctx as [suite flags i hash exts]. cbn in Hctx. injection Hctx as -> -> -> ->.
  split; [|done]. split; cbn; try done. constructor.
Qed.

(** A refused commit leaves the epoch. *)
Lemma refused_epoch g c g' e :
  group_inv g → apply_commit g c = Some (g', Err e) → g_epoch g' = g_epoch g.
Proof.
  intros Hinv [H|[H|H]]%apply_commit_cases; [| | |done].
  - by destruct H as (_ & -> & _).
  - by destruct H as (i & _ & _ & _ & -> & _).
  - by destruct H as (_ & _ & _ & ?).
Qed.

Lemma apply_commit_inv g c g' r :
  group_inv g → apply_commit g c = Some (g', r) → group_inv g'.
Proof.
  intros Hinv [H|[H|H]]%apply_commit_cases; [| | |done].
  - by destruct H as (_ & -> & _).
  - destruct H as (i & _ & _ & _ & -> & _). by apply commit_head_inv.
  - tauto.
Qed.

Lemma apply_commits_inv cs g g' r :
  group_inv g → apply_commits g cs = Some (g', r) → group_inv g'.
Proof.
  revert g. induction cs as [|c cs IH]; intros g Hinv Ha; cbn in Ha; [by simplify_eq|].
  destruct (apply_commit g c) as [[g1 [ctx|e]]|] eqn:Ec; [| |done].
  - eapply IH; [|exact Ha]. by eapply apply_commit_inv.
  - simplify_eq. by eapply apply_commit_inv.
Qed.

Lemma recovery_inv g t missing g' r :
  group_inv g → apply_commit_with_recovery g t missing = Some (g', r) → group_inv g'.
Proof.
  unfold apply_commit_with_recovery. intros Hinv Ha.
  destruct (detect_epoch_gap _ _); try (by eapply apply_commit_inv).
  destruct (negb _); [by simplify_eq|].
  destruct (apply_commits _ _) as [[g1 [ctx|e]]|] eqn:Ec; [| |done].
  - eapply apply_commit_inv; [|exact Ha]. by eapply apply_commits_inv.
  - simplify_eq. by eapply apply_commits_inv.
Qed.

Lemma group_step_inv g g' : group_inv g → group_step g g' → group_inv g'.
Proof.
  intros Hinv Hs. destruct Hs; unfold add_member, remove_member in *.
  - by eapply apply_commit_inv.
  - by eapply recovery_inv.
  - destruct (apply_commit _ _) as [[g1 ?]|] eqn:E; [|done]. simplify_eq/=.
    by eapply apply_commit_inv.
  - destruct (apply_commit _ _) as [[g1 ?]|] eqn:E; [|done]. simplify_eq/=.
    by eapply apply_commit_inv.
Qed.

(** ** Recovery *)





End groups.

(** ** Messages *)

Section messages.
Context `{SH : Sha256} `{AE : Aead}.

Lemma ensure_member_eq g m :
  ensure_member g m = if decide (m ∈ g_members g) then Ok tt else Err (UnknownMember m).
Proof. done. Qed.

(** What an encrypted message carries. *)
Lemma encrypt_Ok g s n pt m :
  encrypt g s n pt = Ok m →
  s ∈ g_members g ∧ gm_epoch m = g_epoch g ∧ gm_cfg_hash m = gc_cfg_hash (g_context g) ∧
  gm_proto_suite m = gc_proto_suite (g_context g) ∧
  ∃ key nonce,
    derive_aead_key (g_hash_id g) (gs_group_secret (g_secrets g)) s n = Ok key ∧
    derive_aead_nonce (g_hash_id g) (gs_group_secret (g_secrets g)) s n = Ok nonce ∧
    aead_encrypt key nonce [] pt = Ok (gm_body m).
Proof.
  unfold encrypt, ensure_member. intros He.
  destruct (decide (s ∈ g_members g)); [|done].
  destruct (derive_aead_key _ _ _ _) as [key|] eqn:Ek; [|done].
  destruct (derive_aead_nonce _ _ _ _) as [nonce|] eqn:En; [|done].
  destruct (aead_encrypt _ _ _ _) as [ct|] eqn:Ec; [|done].
  cbn in He. assert (m = mkGroupMessage (g_epoch g) (gc_cfg_hash (g_context g))
    (gc_proto_suite (g_context g)) ct) as -> by congruence.
  cbn. eauto 10.
Qed.

Lemma validate_message_eq g m :
  gm_epoch m = g_epoch g → gm_cfg_hash m = gc_cfg_hash (g_context g) →
  gm_proto_suite m = gc_proto_suite (g_context g) → validate_message g m = Ok tt.
Proof.
  intros He Hc Hs. unfold validate_message.
  rewrite He, Z.eqb_refl, !bool_decide_true by done. done.
Qed.

(** A group with the sender's secret, epoch and configuration reads the message. *)
Lemma decrypt_same_secret `{!AeadLaws} g h s n pt m :
  encrypt g s n pt = Ok m → s ∈ g_members h →
  g_epoch h = g_epoch g → g_hash_id h = g_hash_id g →
  gs_group_secret (g_secrets h) = gs_group_secret (g_secrets g) →
  gc_cfg_hash (g_context h) = gc_cfg_hash (g_context g) →
  gc_proto_suite (g_context h) = gc_proto_suite (g_context g) →
  decrypt h s n m = Ok pt.
Proof.
  intros (_ & He & Hc & Hs & key & nonce & Hk & Hn & Hct)%encrypt_Ok Hm He' Hh Hg Hc' Hs'.
  unfold decrypt, ensure_member. rewrite decide_True by done.
  rewrite validate_message_eq by congruence. cbn [map_err].
  rewrite Hh, Hg, Hk, Hn. by rewrite (aead_decrypt_encrypt _ _ _ _ _ Hct).
Qed.

Lemma decrypt_wrong_epoch g s n m :
  gm_epoch m ≠ g_epoch g → s ∈ g_members g →
  decrypt g s n m = Err (MlsValidation (EpochMismatch (g_epoch g) (gm_epoch m))).
Proof.
  intros He Hm. unfold decrypt, ensure_member. rewrite decide_True by done.
  unfold validate_message. by rewrite (proj2 (Z.eqb_neq _ _) He).
Qed.

Lemma message_metadata_inj s a1 n1 a2 n2 label :
  fits 64 n1 → fits 64 n2 →
  message_metadata s a1 n1 label = message_metadata s a2 n2 label → a1 = a2 ∧ n1 = n2.
Proof.
  unfold message_metadata. intros H1 H2 Hm. apply app_inv_head in Hm.
  rewrite !app_assoc in Hm. apply app_inv_tail in Hm.
  apply app_inj_2 in Hm as [Ha Hn]; [|by rewrite !length_to_be_bytes].
  apply (to_be_bytes_inj 8) in Hn; [|done..]. by apply as_bytes_inj in Ha.
Qed.

Lemma derive_aead_key_eq `{!Sha256Laws} h s a n :
  derive_aead_key h s a n = Ok (sha256 (message_metadata s a n (as_bytes "key"))).
Proof.
  unfold derive_aead_key, derive_message_metadata_hash, get_prefix. destruct h. cbn [hash_bytes].
  rewrite sha256_length. cbn [Nat.leb ok_or]. by rewrite take_ge by (by rewrite sha256_length).
Qed.

End messages.

(** ** Extensions *)

Lemma be_at_app (a b : bytes) i n :
  length a = i → be_at (a ++ b) i n = from_be_bytes (take n b).
Proof. intros <-. unfold be_at. by rewrite drop_app_length. Qed.

Lemma be_at_0 (b : bytes) n : be_at b 0 n = from_be_bytes (take n b).
Proof. unfold be_at. by rewrite drop_0. Qed.

Lemma be_at_u16 v (b : bytes) : fits 16 v → from_be_bytes (take 2 (u16be v ++ b)) = v.
Proof.
  intros ?. rewrite take_app_length' by (by rewrite length_u16be).
  by apply (from_to_be_bytes_fits 2).
Qed.

Lemma be_at_byte v (b : bytes) : fits 8 v → from_be_bytes (take 1 (byte_of_Z v :: b)) = v.
Proof.
  intros [H1 H2]. change (2 ^ 8) with 256 in H2. unfold from_be_bytes. cbn [take fold_left].
  rewrite byte_to_of_Z, Z.mod_small by done. rewrite take_0. cbn [fold_left]. lia.
Qed.

Lemma strip_extension_data_ok t data :
  fits 16 t → zlen data < 2 ^ 16 →
  strip_extension_data (u16be t ++ u16be (wrap 16 (zlen data)) ++ data) t = Ok data.
Proof.
  intros Ht Hd. assert (0 <= zlen data) by (unfold zlen; lia).
  assert (wrap 16 (zlen data) = zlen data) as -> by (unfold wrap; apply Z.mod_small; lia).
  unfold strip_extension_data. rewrite !length_app, !length_u16be. cbn [Nat.add Nat.ltb Nat.leb].
  rewrite be_at_0, be_at_u16, Z.eqb_refl by done. cbn [negb].
  rewrite be_at_app, be_at_u16 by (done || apply length_u16be).
  unfold zlen at 1. rewrite !length_app, !length_u16be.
  rewrite (proj2 (Z.eqb_eq _ _)); [|unfold zlen; cbn [Nat.add]; lia]. cbn [negb].
  by rewrite app_assoc, drop_app_length' by (by rewrite length_app, !length_u16be).
Qed.

Lemma mls_extensions_major s1 f1 i1 h1 s2 f2 i2 h2 l :
  fits 16 (ps_major s1) → fits 16 (ps_major s2) →
  mls_extensions s1 f1 i1 h1 = Some l → mls_extensions s2 f2 i2 h2 = Some l →
  ps_major s1 = ps_major s2.
Proof.
  unfold mls_extensions. intros Hf1 Hf2 H1 H2.
  destruct (ext_cfg_hash_bytes i1 h1) as [d1|]; [|done].
  destruct (ext_cfg_hash_bytes i2 h2) as [d2|]; [|done]. cbn [mbind option_bind] in *.
  rewrite <-H2 in H1. apply (inj Some), (f_equal head), (inj Some) in H1.
  unfold ext_proto_suite_bytes in H1.
  do 3 (apply app_inj_len in H1 as [?H H1]; [|by rewrite !length_u16be]).
  by apply u16be_inj.
Qed.

Lemma parse_proto_suite_ok suite flags :
  fits 16 (ps_major suite) → fits 16 (ps_minor suite) → fits 16 (ps_ciphersuite_id suite) →
  fits 8 flags →
  parse_proto_suite_extension (u16be (ps_major suite) ++ u16be (ps_minor suite) ++
    u16be (ps_ciphersuite_id suite) ++ [byte_of_Z flags]) = Ok (suite, flags).
Proof.
  intros H1 H2 H3 H4. unfold parse_proto_suite_extension.
  rewrite !length_app, !length_u16be. cbn [Nat.add length Nat.eqb negb].
  rewrite be_at_0, be_at_u16 by done.
  rewrite be_at_app, be_at_u16 by (done || apply length_u16be).
  rewrite (app_assoc (u16be (ps_major suite))), be_at_app, be_at_u16
    by (done || by rewrite length_app, !length_u16be).
  rewrite app_assoc, be_at_app, be_at_byte by (done || by rewrite !length_app, !length_u16be).
  by destruct suite.
Qed.

Lemma parse_cfg_hash_ok i h :
  fits 16 i → zlen h <= 255 →
  parse_cfg_hash_extension (u16be i ++ [byte_of_Z (wrap 8 (zlen h))] ++ h) = Ok (i, h).
Proof.
  intros Hi Hh. assert (0 <= zlen h) by (unfold zlen; lia).
  assert (wrap 8 (zlen h) = zlen h) as -> by (unfold wrap; apply Z.mod_small; lia).
  unfold parse_cfg_hash_extension. rewrite !length_app, !length_u16be. cbn [Nat.add length Nat.ltb Nat.leb].
  rewrite be_at_app by apply length_u16be. cbn [app]. rewrite be_at_byte by (unfold fits; lia).
  rewrite be_at_0, be_at_u16 by done.
  unfold zlen at 1. rewrite !length_app, !length_u16be. cbn [length].
  rewrite (proj2 (Z.eqb_eq _ _)); [|unfold zlen; cbn [Nat.add]; lia]. cbn [negb].
  rewrite (app_assoc _ [_] h : u16be i ++ byte_of_Z (zlen h) :: h
                             = (u16be i ++ [byte_of_Z (zlen h)]) ++ h).
  by rewrite drop_app_length' by (by rewrite length_app, length_u16be).
Qed.

(** The fields of a configuration at their widths. *)
Record config_wf (c : GroupConfig) : Prop := {
  cf_wf_major : fits 16 (ps_major (cf_proto_suite c));
  cf_wf_minor : fits 16 (ps_minor (cf_proto_suite c));
  cf_wf_cipher : fits 16 (ps_ciphersuite_id (cf_proto_suite c));
  cf_wf_flags : fits 8 (cf_flags c);
  cf_wf_hash_id : fits 16 (cf_cfg_hash_id c);
  cf_wf_hash : zlen (cf_cfg_hash c) <= 255;
}.

(** The two extensions as they are stored. *)
Definition spex_extensions (c : GroupConfig) : ExtensionList :=
  [(EXT_SPEX_PROTO_SUITE, u16be (ps_major (cf_proto_suite c)) ++
      u16be (ps_minor (cf_proto_suite c)) ++ u16be (ps_ciphersuite_id (cf_proto_suite c)) ++
      [byte_of_Z (cf_flags c)]);
   (EXT_SPEX_CFG_HASH, u16be (cf_cfg_hash_id c) ++
      [byte_of_Z (wrap 8 (zlen (cf_cfg_hash c)))] ++ cf_cfg_hash c)].

Lemma build_extensions_ok c :
  config_wf c → build_group_context_extensions c = Some (Ok (spex_extensions c)).
Proof.
  intros [? ? ? ? ? Hh]. unfold build_group_context_extensions.
  replace (255 <? zlen (cf_cfg_hash c)) with false by lia.
  unfold ext_cfg_hash_bytes, ext_proto_suite_bytes.
  replace (zlen (cf_cfg_hash c) <=? 255) with true by lia. cbn [mbind option_bind].
  rewrite !strip_extension_data_ok; [done|by unfold fits| |by unfold fits|];
    unfold zlen in *; rewrite !length_app, !length_u16be; cbn [length]; lia.
Qed.

Lemma ext_get_spex c :
  ext_get (spex_extensions c) EXT_SPEX_PROTO_SUITE
    = Some (u16be (ps_major (cf_proto_suite c)) ++ u16be (ps_minor (cf_proto_suite c)) ++
            u16be (ps_ciphersuite_id (cf_proto_suite c)) ++ [byte_of_Z (cf_flags c)]) ∧
  ext_get (spex_extensions c) EXT_SPEX_CFG_HASH
    = Some (u16be (cf_cfg_hash_id c) ++ [byte_of_Z (wrap 8 (zlen (cf_cfg_hash c)))] ++
            cf_cfg_hash c).
Proof. done. Qed.

(** ** Resynchronization *)

(** What SPEX relies on in mls-rs: epochs are 64-bit numbers and a commit
    whose effect is a new epoch moves the group to the next one.  (A commit that
    removes the local member is processed too, without a new epoch.) *)
Class MlsRsLaws `{MlsRs} : Prop := {
  rs_epoch_fits : ∀ g, fits 64 (rs_current_epoch g);
  rs_commit_next : ∀ g m g' d, rs_process_commit g m = (g', Ok d) → rs_new_epoch d = true →
    rs_current_epoch g' = wadd 64 (rs_current_epoch g) 1;
}.

Section resync.
Context `{RS : MlsRs} `{!MlsRsLaws}.

Lemma explicit_commit_Ok g c g' d :
  process_external_commit_explicit g c = (g', Ok d) → rs_new_epoch d = true →
  xc_epoch c = wadd 64 (rs_current_epoch g) 1 ∧ rs_current_epoch g' = xc_epoch c.
Proof.
  unfold process_external_commit_explicit, detect_epoch_gap. intros Hp Hd.
  destruct (xc_epoch c =? rs_current_epoch g) eqn:E1; [done|].
  destruct (xc_epoch c =? wadd 64 _ 1) eqn:E2; [|by destruct (xc_epoch c <? _)].
  bool_to_prop. split; [done|]. rewrite E2. by eapply rs_commit_next.
Qed.

(** mls-rs takes the message of [c] in every group at the epoch before it, as
    a step to a new epoch. *)
Definition rs_takes (c : ExternalCommit) : Prop :=
  ∀ g, xc_epoch c = wadd 64 (rs_current_epoch g) 1 →
    ∃ g' d, rs_process_commit g (xc_message c) = (g', Ok d) ∧ rs_new_epoch d = true.

Lemma explicit_commit_takes g c :
  rs_takes c → xc_epoch c = wadd 64 (rs_current_epoch g) 1 →
  ∃ g' d, process_external_commit_explicit g c = (g', Ok d) ∧ rs_new_epoch d = true ∧
    rs_current_epoch g' = xc_epoch c.
Proof.
  intros Hc He. destruct (Hc g He) as (g' & d & Hg' & Hd). exists g', d.
  assert (process_external_commit_explicit g c = (g', Ok d)) as Hp.
  { unfold process_external_commit_explicit. by rewrite detect_gap_next by (done || apply rs_epoch_fits). }
  split_and!; [done..|]. by apply explicit_commit_Ok in Hp as [_ ?].
Qed.

Lemma explicit_commits_take cs g t :
  map xc_epoch cs = range_u64 (rs_current_epoch g + 1) t →
  rs_current_epoch g + 1 <= t < 2 ^ 64 → Forall rs_takes cs →
  ∃ g', process_external_commits g cs = (g', Ok tt) ∧ rs_current_epoch g' + 1 = t.
Proof.
  revert g. induction cs as [|c cs IH]; intros g He Ht Hc; cbn [process_external_commits].
  - exists g. split; [done|]. destruct (decide (rs_current_epoch g + 1 = t)); [done|].
    rewrite range_u64_cons in He by lia. done.
  - destruct (decide (rs_current_epoch g + 1 = t)) as [|].
    { rewrite range_u64_nil in He by lia. done. }
    rewrite range_u64_cons in He by lia. cbn in He. injection He as He1 He2.
    inversion Hc as [|? ? Hc1 Hc2]; subst. pose proof (rs_epoch_fits g) as Hf. unfold fits in Hf.
    destruct (explicit_commit_takes g c) as (g1 & d & -> & Hd & He3);
      [done|rewrite wadd_small; lia|].
    apply IH; [rewrite He2; f_equal; lia|lia|done].
Qed.

End resync.

(** ** Later states of a group *)

Section later.
Context `{SH : Sha256} `{AE : Aead}.

(** [g'] is reached from [g] by commits, of which [k] were accepted. *)
Inductive later : nat → Group → Group → Prop :=
| later_none g : later 0 g g
| later_accepted k g c g1 ctx g' :
    apply_commit g c = Some (g1, Ok ctx) → later k g1 g' → later (S k) g g'
| later_refused k g c g1 e g' :
    apply_commit g c = Some (g1, Err e) → later k g1 g' → later k g g'.

Lemma later_trans j k g1 g2 g3 : later j g1 g2 → later k g2 g3 → later (j + k) g1 g3.
Proof. induction 1; cbn; intros; eauto using later. Qed.

Lemma later_one g c g' r : apply_commit g c = Some (g', r) → ∃ k, later k g g'.
Proof. destruct r; intros H; eexists; eauto using later. Qed.

Lemma apply_commits_later cs g g' r : apply_commits g cs = Some (g', r) → ∃ k, later k g g'.
Proof.
  revert g. induction cs as [|c cs IH]; intros g; cbn [apply_commits].
  { intros [= <- <-]. eauto using later. }
  destruct (apply_commit g c) as [[g1 [ctx|e]]|] eqn:Ea; [| |done].
  - intros [k Hk]%IH. eauto using later.
  - intros [= <- <-]. eauto using later.
Qed.

(** Every call that can change a group is such a series of commits. *)
Lemma group_step_later g g' : group_step g g' → ∃ k, later k g g'.
Proof.
  destruct 1 as [g c g' r H|g t missing g' r H|g m g' r H|g m g' r H].
  - by eapply later_one.
  - unfold apply_commit_with_recovery in H.
    destruct (detect_epoch_gap _ _); [by eapply later_one..|].
    destruct (negb _); [injection H as <- _; eauto using later|].
    destruct (apply_commits g _) as [[g1 [[]|e]]|] eqn:Ec; [| |done];
      apply apply_commits_later in Ec as [j Hj].
    + apply later_one in H as [k Hk]. exists (j + k)%nat. by eapply later_trans.
    + injection H as <- _. by exists j.
  - unfold add_member in H. destruct (apply_commit g _) as [[g1 r1]|] eqn:Ea; [|done].
    injection H as <- _. by eapply later_one.
  - unfold remove_member in H. destruct (apply_commit g _) as [[g1 r1]|] eqn:Ea; [|done].
    injection H as <- _. by eapply later_one.
Qed.

Lemma later_epoch k g g' :
  group_inv g → later k g g' → group_inv g' ∧ g_epoch g' = wrap 64 (g_epoch g + Z.of_nat k).
Proof.
  intros Hinv Hl. revert Hinv.
  induction Hl as [g|k g c g1 ctx g' Ha Hl IH|k g c g1 e g' Ha Hl IH]; intros Hinv.
  - split; [done|]. pose proof (inv_epoch g Hinv) as [? ?]. unfold wrap. rewrite Z.mod_small; lia.
  - pose proof (apply_commit_Ok _ _ _ _ Hinv Ha) as (He & Heff & Hinv1).
    destruct (IH Hinv1) as [Hi Hg]. split; [done|].
    rewrite Hg, (eff_epoch _ _ _ Heff), He. unfold wadd, wrap. rewrite Zplus_mod_idemp_l. f_equal. lia.
  - pose proof (apply_commit_inv _ _ _ _ Hinv Ha) as Hinv1. destruct (IH Hinv1) as [Hi Hg].
    split; [done|]. rewrite Hg. f_equal. f_equal. by eapply refused_epoch.
Qed.

Lemma wrap_later e k : fits 64 e → 0 < Z.of_nat k < 2 ^ 64 → e ≠ wrap 64 (e + Z.of_nat k).
Proof.
  intros [? ?] ? Heq. unfold wrap in Heq.
  pose proof (Z.div_mod (e + Z.of_nat k) (2 ^ 64) ltac:(lia)). lia.
Qed.

(** *** Recovery *)





End later.

(** ** Claims *)

Section claims.
Context `{SH : Sha256} `{AE : Aead}.

(** C13: every group reached from its creation by commits, recoveries, additions
    and removals, refused ones included, has no duplicate member, secrets of
    its own epoch, a supported hash identifier that agrees with the hash in
    use, and a configuration hash its extension can carry. *)
Theorem reachable_group_inv g : group_reachable g → group_inv g.
Proof.
  intros (config & g0 & Hc & Hs). apply group_create_inv in Hc as [Hinv _].
  induction Hs as [|g g1 g2 Hstep _ IH]; [done|]. apply IH. by eapply group_step_inv.
Qed.

(** C26: a commit of any epoch but the next is refused and leaves the group as it
    was; a supported commit of the next epoch is applied and does what it says:
    the new members are the old and the added ones less the removed ones, the
    context takes the commit's fields, the extensions are rebuilt from it, and
    the secret is the commit's own or the successor of the old one. *)
Theorem commit_outcome g c :
  group_inv g →
  (cm_epoch c ≠ wadd 64 (g_epoch g) 1 →
   apply_commit g c = Some (g, Err (OutOfOrderCommit
     (mkCommitOrderError (wadd 64 (g_epoch g) 1) (cm_epoch c))))) ∧
  (cm_epoch c = wadd 64 (g_epoch g) 1 → commit_supported c →
   ∃ g', apply_commit g c = Some (g', Ok (g_context g')) ∧ commit_effect g c g' ∧ group_inv g').
Proof.
  intros Hinv. split; [|intros; by apply apply_commit_supported].
  intros He. unfold apply_commit. by rewrite (proj2 (Z.eqb_neq _ _) He).
Qed.


(** C28: a message decrypts to its plaintext in the group state it was encrypted
    in, and in no later one: after any number of accepted commits from one to 2^64 - 1,
    with any refused ones among them, it is refused for its epoch, or for its sender
    when the sender is no longer a member.  (Additions, removals and recoveries are
    such series of commits.) *)
Theorem message_only_in_its_epoch `{!AeadLaws} g s n pt m :
  group_inv g → encrypt g s n pt = Ok m →
  decrypt g s n m = Ok pt ∧
  ∀ k g', later k g g' → 0 < Z.of_nat k < 2 ^ 64 →
    decrypt g' s n m
    = if decide (s ∈ g_members g')
      then Err (MlsValidation (EpochMismatch (g_epoch g') (g_epoch g)))
      else Err (UnknownMember s).
Proof.
  intros Hinv Hm. pose proof (encrypt_Ok g s n pt m Hm) as (Hs & He & _). split.
  { by eapply decrypt_same_secret. }
  intros k g' [_ Hl]%later_epoch Hk; [|done]. destruct (decide (s ∈ g_members g')).
  - rewrite <-He. apply decrypt_wrong_epoch; [|done]. rewrite He, Hl.
    intros Heq. by apply (wrap_later (g_epoch g) k); [apply Hinv|..].
  - unfold decrypt, ensure_member. by rewrite decide_False.
Qed.

(** Under one group secret two messages share a key only if they have the
    same sender and the same number, unless the hash function collides on
    their metadata. *)
Theorem message_key_unique `{!Sha256Laws} h secret a1 n1 a2 n2 key :
  fits 64 n1 → fits 64 n2 →
  collision_free [message_metadata secret a1 n1 (as_bytes "key");
                  message_metadata secret a2 n2 (as_bytes "key")] →
  derive_aead_key h secret a1 n1 = Ok key → derive_aead_key h secret a2 n2 = Ok key →
  a1 = a2 ∧ n1 = n2.
Proof.
  intros H1 H2 Hcf Hk1 Hk2. rewrite derive_aead_key_eq in Hk1, Hk2.
  apply (message_metadata_inj secret a1 n1 a2 n2 (as_bytes "key")); [done..|].
  apply Hcf; [left|right; left|]. congruence.
Qed.

(** A commit refused for its hash identifier is not without effect: the
    protocol suite it names stays behind, the extensions no longer match the
    context, and messages of members who did not see the commit are refused. *)
Theorem refused_commit_changes_group g c i suite :
  group_inv g → ext_in_step (g_context g) →
  cm_epoch c = wadd 64 (g_epoch g) 1 → cm_cfg_hash_id c = Some i → i ≠ 1 →
  cm_proto_suite c = Some suite → fits 16 (ps_major suite) →
  fits 16 (ps_major (gc_proto_suite (g_context g))) →
  ps_major suite ≠ ps_major (gc_proto_suite (g_context g)) →
  ∃ g', apply_commit g c = Some (g', Err (UnsupportedHashId i)) ∧
    g_epoch g' = g_epoch g ∧ gc_proto_suite (g_context g') = suite ∧
    ¬ ext_in_step (g_context g') ∧
    ∀ s n pt m, encrypt g s n pt = Ok m →
      decrypt g' s n m = Err (MlsValidation ProtoSuiteMismatch).
Proof.
  intros Hinv Hext He Hi Hne Hsu Hf Hf' Hdiff. exists (commit_head g c).
  split; [|split; [done|split; [cbn; by rewrite Hsu|split]]].
  - unfold apply_commit. rewrite (proj2 (Z.eqb_eq _ _) He), Hi. cbn [negb].
    unfold hash_id_from_u16. by rewrite (proj2 (Z.eqb_neq _ _) Hne).
  - unfold ext_in_step. cbn [commit_head g_context gc_proto_suite gc_extensions].
    rewrite Hsu. intros Heq. by apply Hdiff, (mls_extensions_major _ _ _ _ _ _ _ _ _ Hf Hf' Heq Hext).
  - intros s n pt m (Hs & Hme & Hmc & Hms & _)%encrypt_Ok.
    unfold decrypt, ensure_member. cbn [g_members commit_head]. rewrite decide_True by done.
    unfold validate_message. cbn. rewrite Hme, Hmc, Hms, Hsu, Z.eqb_refl. cbn.
    rewrite bool_decide_true, bool_decide_false by (done || congruence). done.
Qed.

(** C35: removing a member does not rotate the secret out of its reach: from its
    copy of the group before the removal the removed member derives, with an
    empty commit of its own, a state that decrypts the messages the remaining
    members send afterwards. *)
Theorem removed_member_still_reads `{!AeadLaws} g m g' c h ctx s n pt msg :
  group_inv g → remove_member g m = Some (g', Ok c) →
  apply_commit g (commit_new (wadd 64 (g_epoch g) 1)) = Some (h, Ok ctx) →
  encrypt g' s n pt = Ok msg →
  (m ∉ g_members g') ∧ decrypt h s n msg = Ok pt.
Proof.
  intros Hinv Hr Hh Hm. unfold remove_member in Hr.
  destruct (apply_commit g _) as [[g1 [ctx1|]]|] eqn:Ea in Hr; [|done..]. simplify_eq/=.
  apply apply_commit_Ok in Ea as (_ & Ha & Hia); [|done].
  apply apply_commit_Ok in Hh as (_ & Hb & Hib); [|done].
  split; [rewrite (eff_members _ _ _ Ha); cbn; rewrite list_elem_of_singleton; tauto|].
  assert (g_hash_id h = g_hash_id g') as Hid by (by destruct (g_hash_id h), (g_hash_id g')).
  eapply decrypt_same_secret; [done|..].
  - apply encrypt_Ok in Hm as (Hs & _). rewrite (eff_members _ _ _ Hb). cbn.
    apply (eff_members _ _ _ Ha) in Hs. cbn in Hs. rewrite elem_of_nil in *. tauto.
  - by rewrite (eff_epoch _ _ _ Ha), (eff_epoch _ _ _ Hb).
  - done.
  - rewrite (eff_secret _ _ _ Ha), (eff_secret _ _ _ Hb). cbn. by rewrite Hid.
  - by rewrite (eff_cfg_hash _ _ _ Ha), (eff_cfg_hash _ _ _ Hb).
  - by rewrite (eff_suite _ _ _ Ha), (eff_suite _ _ _ Hb).
Qed.

End claims.

(** The SPEX extensions of a configuration are written, read back to the
    same configuration, and validate against exactly the configurations with
    the same protocol suite, flags, hash identifier and hash. *)
Theorem extensions_pin_config c :
  config_wf c →
  ∃ l, build_group_context_extensions c = Some (Ok l) ∧
    group_config_from_context l
    = Ok (config_new (cf_proto_suite c) (cf_flags c) (cf_cfg_hash_id c) (cf_cfg_hash c)) ∧
    ∀ c', validate_group_context_extensions l c' = Ok tt ↔
      cf_proto_suite c' = cf_proto_suite c ∧ cf_flags c' = cf_flags c ∧
      cf_cfg_hash_id c' = cf_cfg_hash_id c ∧ cf_cfg_hash c' = cf_cfg_hash c.
Proof.
  intros Hwf. exists (spex_extensions c). split; [by apply build_extensions_ok|].
  destruct (ext_get_spex c) as [Hp Hh].
  assert (parse_proto_suite_extension (u16be (ps_major (cf_proto_suite c)) ++
    u16be (ps_minor (cf_proto_suite c)) ++ u16be (ps_ciphersuite_id (cf_proto_suite c)) ++
    [byte_of_Z (cf_flags c)]) = Ok (cf_proto_suite c, cf_flags c)) as Hpp
    by (apply parse_proto_suite_ok; apply Hwf).
  assert (parse_cfg_hash_extension (u16be (cf_cfg_hash_id c) ++
    [byte_of_Z (wrap 8 (zlen (cf_cfg_hash c)))] ++ cf_cfg_hash c)
    = Ok (cf_cfg_hash_id c, cf_cfg_hash c)) as Hph by (apply parse_cfg_hash_ok; apply Hwf).
  unfold group_config_from_context, validate_group_context_extensions.
  rewrite Hp, Hh. cbn [ok_or]. rewrite Hpp, Hph. split; [done|]. intros c'. cbn [fst snd].
  destruct (decide (cf_proto_suite c = cf_proto_suite c')) as [Es|Es];
    [rewrite (bool_decide_true (cf_proto_suite c = _)) by done
    |rewrite (bool_decide_false (cf_proto_suite c = _)) by done; split; [done|];
     intros (? & _); congruence].
  destruct (cf_flags c =? cf_flags c') eqn:Ef; bool_to_prop; [|split; [done|]; intros; lia].
  destruct (cf_cfg_hash_id c =? cf_cfg_hash_id c') eqn:Ei; bool_to_prop;
    [|split; [done|]; intros; lia].
  cbn [negb orb]. case_bool_decide; cbn [negb]; split; [|done..|]; intuition congruence.
Qed.

(** Resynchronization that reports a new epoch has brought the mls-rs group to
    the epoch of the commit it was given; over a gap, the commits of the epochs
    in between, fetched in any order, lead there if mls-rs takes each of them,
    and any other commits are refused before one is processed. *)
Theorem resync_reaches_epoch `{RS : MlsRs} `{!MlsRsLaws} g c fetch :
  rs_current_epoch g < 2 ^ 64 - 1 → xc_epoch c < 2 ^ 64 →
  (∀ g' d, process_external_commit_with_resync g c fetch = (g', Ok d) →
     rs_new_epoch d = true → rs_current_epoch g' = xc_epoch c) ∧
  (∀ commits, rs_current_epoch g + 1 < xc_epoch c →
     fetch (rs_current_epoch g + 1) (xc_epoch c) = Ok commits →
     map xc_epoch commits ≡ₚ range_u64 (rs_current_epoch g + 1) (xc_epoch c) →
     Forall rs_takes (c :: commits) →
     ∃ g' d, process_external_commit_with_resync g c fetch = (g', Ok d) ∧
       rs_new_epoch d = true) ∧
  (∀ commits, rs_current_epoch g + 1 < xc_epoch c →
     fetch (rs_current_epoch g + 1) (xc_epoch c) = Ok commits →
     ¬ map xc_epoch commits ≡ₚ range_u64 (rs_current_epoch g + 1) (xc_epoch c) →
     process_external_commit_with_resync g c fetch
     = (g, Err (RsOutOfOrderCommit
                  (mkCommitOrderError (rs_current_epoch g + 1) (xc_epoch c))))).
Proof.
  intros Hg Hc. pose proof (rs_epoch_fits g) as Hf. unfold process_external_commit_with_resync.
  split; [|split].
  - intros g' d Hp Hd. destruct (detect_epoch_gap _ _) as [| | |e f miss] eqn:Ed; [done| |done|].
    { by apply explicit_commit_Ok in Hp as [_ ?]. }
    pose proof Ed as [Hlt|?]%detect_gap_far_inv; [|lia|done].
    rewrite detect_gap_far in Ed by (done || lia). injection Ed as <- <- <-.
    destruct (fetch _ _) as [cs|]; [|done]. cbv zeta in Hp.
    case_bool_decide as Hm; [|done]. cbn [negb] in Hp.
    destruct (process_external_commits _ _) as [g1 [[]|]] eqn:Ep; [|done].
    by apply explicit_commit_Ok in Hp as [_ ?].
  - intros cs Hlt Hfe Hn Hall. inversion Hall as [|? ? Hc1 Hcs]; subst.
    rewrite detect_gap_far by (done || lia). rewrite Hfe. cbv zeta.
    pose proof (proj2 (sorted_epochs_range xc_epoch cs _ _) Hn) as He.
    rewrite bool_decide_true by exact He. cbn [negb].
    destruct (explicit_commits_take _ g (xc_epoch c) He) as (g1 & Hg1 & He1);
      [lia|by rewrite (sort_by_Permutation (by_epoch xc_epoch))|].
    unfold by_epoch in Hg1. rewrite Hg1.
    destruct (explicit_commit_takes g1 c) as (g' & d & -> & Hd & _); [done| |by eauto].
    pose proof (rs_epoch_fits g1) as Hf1. unfold fits in Hf1. rewrite wadd_small; lia.
  - intros cs Hlt Hfe Hn. rewrite detect_gap_far by (done || lia). rewrite Hfe. cbv zeta.
    rewrite bool_decide_false; [done|]. intros He. by apply Hn, (sorted_epochs_range xc_epoch).
Qed.

(** ** Witnesses *)

Module Samples.
Import Reference.

Definition sample_suite : ProtoSuite := mkProtoSuite 0 1 1.
Definition sample_config : GroupConfig := config_new sample_suite 0 1 [x01; x02].
Definition sample_members : Commit :=
  mkCommit 1 None None None None None ["alice"%string; "bob"%string] [].

(** The group after its first commit, which brings in two members. *)
Definition sample_group0 : Group := Eval vm_compute in
  match group_create sample_config with
  | Some (Ok g) => g
  | _ => mkGroup 0 (mkGroupContext sample_suite 0 1 [] []) [] (mkGroupSecrets 0 []) HashSha256
  end.
Definition after (g : Group) (c : Commit) : Group :=
  match apply_commit g c with Some (g', _) => g' | None => g end.
Definition sample_group : Group := Eval vm_compute in after sample_group0 sample_members.

(** The group after bob is removed, the one after an empty commit, and a
    message of the first. *)
Definition remove_bob : Commit := mkCommit 2 None None None None None [] ["bob"%string].
Definition without_bob : Group := Eval vm_compute in after sample_group remove_bob.
Definition still_bob : Group := Eval vm_compute in after sample_group (commit_new 2).
Definition message_of (r : result MlsError GroupMessage) : GroupMessage :=
  default (mkGroupMessage 0 [] sample_suite []) (result_ok r).
Definition alice_alone : GroupMessage := Eval vm_compute in
  message_of (encrypt without_bob "alice" 1 [x42]).
Definition alice_first : GroupMessage := Eval vm_compute in
  message_of (encrypt sample_group "alice" 5 [x10; x11]).

Lemma sample_group0_inv : group_inv sample_group0.
Proof. apply (group_create_inv sample_config). reflexivity. Qed.

Lemma sample_group_inv : group_inv sample_group.
Proof.
  apply (apply_commit_inv sample_group0 sample_members sample_group
           (Ok (g_context sample_group)) sample_group0_inv). reflexivity.
Qed.

Lemma sample_group_ext : ext_in_step (g_context sample_group).
Proof. reflexivity. Qed.

Lemma empty_commit_supported e : commit_supported (commit_new e).
Proof. split; [by left|done]. Qed.

End Samples.
Import Samples Reference.

Lemma reachable_group_inv_witness : group_inv sample_group.
Proof.
  apply (reachable_group_inv sample_group). exists sample_config, sample_group0.
  split; [reflexivity|]. apply rtc_once.
  apply (step_commit sample_group0 sample_members _ (Ok (g_context sample_group))). reflexivity.
Defined.

Lemma commit_outcome_witness :
  (apply_commit sample_group (commit_new 7)
   = Some (sample_group, Err (OutOfOrderCommit (mkCommitOrderError 2 7)))) ∧
  ∃ g', apply_commit sample_group (commit_new 2) = Some (g', Ok (g_context g')) ∧
        commit_effect sample_group (commit_new 2) g' ∧ group_inv g'.
Proof.
  split.
  - apply (proj1 (commit_outcome sample_group (commit_new 7) sample_group_inv)). done.
  - apply (proj2 (commit_outcome sample_group (commit_new 2) sample_group_inv));
      [reflexivity | apply empty_commit_supported].
Defined.


(** The states after the commits of the epochs 2 and 3. *)
Definition after_commit (g : Group) (c : Commit) : Group :=
  match apply_commit g c with Some (g', _) => g' | None => g end.
Definition sample_next : Group := Eval vm_compute in after_commit sample_group (commit_new 2).
Definition sample_later : Group := Eval vm_compute in after_commit sample_next (commit_new 3).

Lemma sample_two_later : later 2 sample_group sample_later.
Proof.
  apply (later_accepted 1 sample_group (commit_new 2) sample_next (g_context sample_next));
    [vm_cast_no_check (@eq_refl _ (Some (sample_next, @Ok MlsError _ (g_context sample_next))))|].
  apply (later_accepted 0 sample_next (commit_new 3) sample_later (g_context sample_later));
    [vm_cast_no_check (@eq_refl _ (Some (sample_later, @Ok MlsError _ (g_context sample_later))))|].
  apply later_none.
Qed.

Lemma message_only_in_its_epoch_witness :
  decrypt sample_group "alice" 5 alice_first = Ok [x10; x11] ∧
  decrypt sample_later "alice" 5 alice_first = Err (MlsValidation (EpochMismatch 3 1)).
Proof.
  destruct (message_only_in_its_epoch sample_group "alice" 5 [x10; x11] alice_first sample_group_inv)
    as [Hd Hl]; [reflexivity|].
  split; [exact Hd|]. rewrite (Hl 2%nat sample_later sample_two_later); [|lia].
  vm_compute. reflexivity.
Defined.

Lemma message_key_unique_witness : "a"%string = "a"%string ∧ 3 = 3.
Proof.
  apply (message_key_unique HashSha256 [x01] "a" 3 "a" 3
           (sha256 (message_metadata [x01] "a" 3 (as_bytes "key"))));
    [by unfold fits|by unfold fits| |reflexivity|reflexivity].
  intros x y Hx Hy _.
  apply elem_of_cons in Hx as [->|Hx]; [|apply list_elem_of_singleton in Hx as ->];
  (apply elem_of_cons in Hy as [->|Hy]; [|apply list_elem_of_singleton in Hy as ->]); done.
Defined.

Lemma refused_commit_changes_group_witness :
  ∃ g', apply_commit sample_group
      (mkCommit 2 (Some (mkProtoSuite 9 1 1)) None (Some 2) None None [] [])
    = Some (g', Err (UnsupportedHashId 2)) ∧
    g_epoch g' = g_epoch sample_group ∧
    gc_proto_suite (g_context g') = mkProtoSuite 9 1 1 ∧ ¬ ext_in_step (g_context g') ∧
    ∀ s n pt m, encrypt sample_group s n pt = Ok m →
      decrypt g' s n m = Err (MlsValidation ProtoSuiteMismatch).
Proof.
  apply (refused_commit_changes_group sample_group _ 2 (mkProtoSuite 9 1 1)
           sample_group_inv sample_group_ext); try reflexivity; by unfold fits.
Defined.

Lemma removed_member_still_reads_witness :
  ("bob"%string ∉ g_members without_bob) ∧ decrypt still_bob "alice" 1 alice_alone = Ok [x42].
Proof.
  apply (removed_member_still_reads sample_group "bob" without_bob remove_bob still_bob
    (g_context still_bob) "alice" 1 [x42] alice_alone sample_group_inv); reflexivity.
Defined.

Lemma extensions_pin_config_witness :
  ∃ l, build_group_context_extensions sample_config = Some (Ok l) ∧
    group_config_from_context l = Ok sample_config ∧
    ∀ c', validate_group_context_extensions l c' = Ok tt ↔
      cf_proto_suite c' = sample_suite ∧ cf_flags c' = 0 ∧
      cf_cfg_hash_id c' = 1 ∧ cf_cfg_hash c' = [x01; x02].
Proof. apply (extensions_pin_config sample_config). split; by unfold fits. Defined.

(** A group of mls-rs that only counts its epoch. *)
#[local] Instance counting_rs : MlsRs :=
  {| rs_group := Z; rs_message := unit; rs_described := unit; rs_new_epoch := λ _, true;
     rs_current_epoch := λ g, g mod 2 ^ 64;
     rs_process_commit := λ g _, (wadd 64 g 1, Ok tt) |}.

#[local] Instance counting_rs_laws : MlsRsLaws.
Proof.
  split; cbn.
  - intros g. unfold fits. apply Z.mod_pos_bound. lia.
  - intros g _ g' [] Hp _. assert (g' = wadd 64 g 1) as -> by congruence.
    unfold wadd, wrap. by rewrite Z.mod_mod, Z.add_mod_idemp_l by lia.
Qed.

Lemma resync_reaches_epoch_witness :
  ∃ g' d, process_external_commit_with_resync (H := counting_rs) 5 (mkExternalCommit 8 tt)
    (λ _ _, Ok [mkExternalCommit 7 tt; mkExternalCommit 6 tt]) = (g', Ok d) ∧
    rs_new_epoch (MlsRs := counting_rs) d = true.
Proof.
  refine (proj1 (proj2 (resync_reaches_epoch (RS := counting_rs) 5 (mkExternalCommit 8 tt)
    (λ _ _, Ok [mkExternalCommit 7 tt; mkExternalCommit 6 tt]) _ _)) _ _ eq_refl _ _).
  - reflexivity.
  - reflexivity.
  - reflexivity.
  - apply Permutation_swap.
  - repeat constructor; intros g _; cbn; eauto.
Defined.
