(* ===== verification/RsGroup.v ===== *)
(** * Groups of mls-rs (spex-mls/src/lib.rs, [MlsRsClient] and [MlsRsGroup])

    The wrappers SPEX puts around the clients and groups of mls-rs.  The library
    itself is a parameter, the class [MlsLib]: the calls the wrappers make, each
    with the state it reads and changes.  Randomness and the stores of the
    clients are the [lib_world] that is threaded through; a group is mutated in
    place, so that an operation returns it also when it fails.

    The wrapper is an instance of [MlsRs], the interface the resynchronization
    code of [Mls] is written against.

    The theorems are in [RsGroupFacts]. *)
From Stdlib Require Import ZArith Lia.
From stdpp Require Import base list strings numbers pretty.
From S2P Require Import Prelude External Types Core Mls.

#[local] Open Scope Z_scope.

(** ** Error messages *)

(** [{err:?}] of a [ValidationError] *)
Definition validation_error_debug (e : MlsValidationError) : string :=
  match e with
  | EpochMismatch expected found =>
      "EpochMismatch { expected: " +:+ pretty expected +:+ ", found: " +:+ pretty found +:+ " }"
  | CfgHashMismatch => "CfgHashMismatch"
  | ProtoSuiteMismatch => "ProtoSuiteMismatch"
  end.

Definition mls_rs_error_to_string (e : MlsRsError) : string :=
  match e with
  | UnsupportedProtocolVersion major minor =>
      "unsupported protocol version " +:+ pretty major +:+ "." +:+ pretty minor
  | UnsupportedCipherSuite v => "unsupported cipher suite: " +:+ pretty v
  | UnsupportedCfgHashId v => "unsupported cfg_hash id: " +:+ pretty v
  | InvalidExtension reason => "invalid MLS extension: " +:+ reason
  | RsUnknownMember => "unknown MLS member"
  | RsValidation err => "validation error: " +:+ validation_error_debug err
  | LibraryError err => "mls-rs error: " +:+ err
  | MalformedExternalCommit err => "malformed external commit: " +:+ err
  | RsOutOfOrderCommit err =>
      "out-of-order external commit: expected epoch " +:+ pretty (expected_epoch err)
      +:+ ", received " +:+ pretty (received_epoch err)
  end.

(** ** The library *)

(** A member of the roster: its leaf index and, for a basic credential, the
    identifier in it. *)
Record Member := mkMember { mb_index : Z; mb_basic : option bytes }.

(** [mls_rs::group::ReceivedMessage]: SPEX only tells commits from the rest. *)
Inductive ReceivedMessage (D : Type) : Type :=
| ReceivedCommit (d : D)
| ReceivedOther.
Arguments ReceivedCommit {D} d.
Arguments ReceivedOther {D}.

(** The calls of mls-rs 0.55 and of its RustCrypto provider that SPEX makes.
    Errors are the texts of the library's errors. *)
Class MlsLib := {
  lib_world : Type;
  lib_client : Type;
  lib_group : Type;
  lib_message : Type;
  lib_tree : Type;
  lib_keys : Type;
  lib_proposal : Type;
  lib_ext_builder : Type;
  lib_commit : Type;
  lib_described : Type;
  (** the crypto provider *)
  lib_cipher_suites : list Z;
  lib_suite_provider : Z → bool;
  lib_key_generate : lib_world → Z → lib_world * result string lib_keys;
  (** clients; the extension types, the version, the identity and the keys *)
  lib_build_client : list Z → bool → bytes → lib_keys → Z → lib_client;
  lib_key_package : lib_world → lib_client → lib_world * result string lib_message;
  lib_create_group : lib_world → lib_client → ExtensionList → lib_world * result string lib_group;
  lib_join_group : lib_world → lib_client → option lib_tree → lib_message →
    lib_world * result string lib_group;
  lib_external_builder : lib_client → result string lib_ext_builder;
  lib_with_tree : lib_ext_builder → lib_tree → lib_ext_builder;
  lib_external_build : lib_world → lib_ext_builder → lib_message →
    lib_world * result string (lib_group * lib_message);
  (** groups; a commit builder is the list of its proposals *)
  lib_add_proposal : lib_group → lib_message → result string lib_proposal;
  lib_remove_proposal : lib_group → Z → result string lib_proposal;
  lib_build : lib_world → lib_group → list lib_proposal →
    lib_world * lib_group * result string lib_commit;
  lib_apply_pending : lib_group → lib_group * result string lib_described;
  lib_process : lib_world → lib_group → lib_message →
    lib_world * lib_group * result string (ReceivedMessage lib_described);
  lib_group_info : lib_world → lib_group → bool → lib_world * result string lib_message;
  lib_export_tree : lib_group → lib_tree;
  (** what can be read off a group and a commit *)
  lib_epoch : lib_group → Z;
  lib_extensions : lib_group → ExtensionList;
  lib_roster : lib_group → list Member;
  lib_new_epoch : lib_described → bool;
  lib_welcomes : lib_commit → list lib_message;
  lib_commit_message : lib_commit → lib_message;
}.

(** ** Sequencing *)

(** A computation over a state that can fail; the state survives a failure. *)
Definition eff (S A : Type) : Type := S → S * result MlsRsError A.

Definition eret {S A} (x : A) : eff S A := λ s, (s, Ok x).

Definition ebind {S A B} (m : eff S A) (f : A → eff S B) : eff S B := λ s,
  match m s with
  | (s', Ok x) => f x s'
  | (s', Err e) => (s', Err e)
  end.

Definition eresult {S A} (r : result MlsRsError A) : eff S A := λ s, (s, r).

(** [?] on a result of the library *)
Definition elib {S A} (m : S → S * result string A) : eff S A := λ s,
  match m s with (s', r) => (s', map_err LibraryError r) end.

Declare Scope eff_scope.
Delimit Scope eff_scope with eff.
Notation "'let*' x ':=' m 'in' k" := (ebind m (λ x, k))
  (at level 10, x name, m at level 100, k at level 200) : eff_scope.
#[local] Open Scope eff_scope.

Section wrappers.
Context `{LB : MlsLib}.

(** ** Clients *)

Record MlsRsClient := mkMlsRsClient { mc_client : lib_client; mc_proto_suite : ProtoSuite }.

Record MlsRsGroup := mkMlsRsGroup { rg_group : lib_group; rg_config : GroupConfig }.

Definition cipher_suite_from_proto_suite (suite : ProtoSuite) : result MlsRsError Z :=
  if bool_decide (ps_ciphersuite_id suite ∈ lib_cipher_suites)
  then Ok (ps_ciphersuite_id suite)
  else Err (UnsupportedCipherSuite (ps_ciphersuite_id suite)).

Definition client_new (suite : ProtoSuite) (identifier : bytes) : eff lib_world MlsRsClient :=
  let* cipher_suite := eresult (cipher_suite_from_proto_suite suite) in
  let* version := eresult (protocol_version_from_proto_suite suite) in
  let* _ := eresult (if lib_suite_provider cipher_suite then Ok tt
                     else Err (UnsupportedCipherSuite (ps_ciphersuite_id suite))) in
  let* keys := elib (λ w, lib_key_generate w cipher_suite) in
  eret (mkMlsRsClient
          (lib_build_client [EXT_SPEX_PROTO_SUITE; EXT_SPEX_CFG_HASH] version identifier keys
             cipher_suite) suite).

Definition key_package_message (c : MlsRsClient) : eff lib_world lib_message :=
  elib (λ w, lib_key_package w (mc_client c)).

(** [None] is the panic of [ext_cfg_hash_bytes]. *)
Definition create_group (c : MlsRsClient) (config : GroupConfig)
    : option (eff lib_world MlsRsGroup) :=
  match validate_cfg_hash_id (cf_cfg_hash_id config) with
  | Err e => Some (eresult (Err e))
  | Ok _ =>
      if negb (bool_decide (cf_proto_suite config = mc_proto_suite c))
      then Some (eresult (Err (RsValidation ProtoSuiteMismatch)))
      else
        extensions ← build_group_context_extensions config;
        Some (let* exts := eresult extensions in
              let* g := elib (λ w, lib_create_group w (mc_client c) exts) in
              eret (mkMlsRsGroup g config))
  end.

Definition join_group (c : MlsRsClient) (welcome : lib_message) (tree : option lib_tree)
    : eff lib_world MlsRsGroup :=
  let* g := elib (λ w, lib_join_group w (mc_client c) tree welcome) in
  let* config := eresult (group_config_from_context (lib_extensions g)) in
  eret (mkMlsRsGroup g config).

Definition resync_from_group_info (c : MlsRsClient) (group_info : lib_message)
    (tree : option lib_tree) : eff lib_world (MlsRsGroup * lib_message) :=
  let* builder := eresult (map_err LibraryError (lib_external_builder (mc_client c))) in
  let* gm := elib (λ w, lib_external_build w
                     match tree with Some t => lib_with_tree builder t | None => builder end
                     group_info) in
  let* config := eresult (group_config_from_context (lib_extensions gm.1)) in
  eret (mkMlsRsGroup gm.1 config, gm.2).

(** ** Groups *)

(** The state of a method of a group: the library's and the group itself. *)
Abbreviation gstate := (lib_world * MlsRsGroup)%type.

Definition epoch (g : MlsRsGroup) : Z := lib_epoch (rg_group g).

Definition member_identities (g : MlsRsGroup) : list bytes :=
  omap mb_basic (lib_roster (rg_group g)).

(** [find_map] over the roster *)
Fixpoint find_identity (members : list Member) (identifier : bytes) : option Z :=
  match members with
  | [] => None
  | m :: rest =>
      if bool_decide (mb_basic m = Some identifier) then Some (mb_index m)
      else find_identity rest identifier
  end.

Definition member_index_by_identity (g : MlsRsGroup) (identifier : bytes) : option Z :=
  find_identity (lib_roster (rg_group g)) identifier.

Definition validate_cfg_hash_proto_suite (g : MlsRsGroup) : result MlsRsError unit :=
  validate_group_context_extensions (lib_extensions (rg_group g)) (rg_config g).

Definition detect_external_commit_gap (g : MlsRsGroup) (incoming_epoch : Z) : EpochGap :=
  detect_epoch_gap (epoch g) incoming_epoch.

Definition set_group (s : gstate) (g : lib_group) : gstate :=
  (s.1, mkMlsRsGroup g (rg_config s.2)).

(** A step of the library on the state and on the group. *)
Definition on_world {A} (m : lib_world → lib_world * A) : gstate → gstate * A := λ s,
  match m s.1 with (w, r) => ((w, s.2), r) end.

Definition on_group {A} (m : lib_world → lib_group → lib_world * lib_group * A)
    : gstate → gstate * A := λ s,
  match m s.1 (rg_group s.2) with
  | (w, g, r) => (set_group (w, s.2) g, r)
  end.

(** [commit_builder() ... build()?] and [apply_pending_commit()?] *)
Definition commit_and_apply (proposals : list lib_proposal) : eff gstate lib_commit :=
  let* commit := elib (on_group (λ w g, lib_build w g proposals)) in
  let* _ := elib (on_group (λ w g, match lib_apply_pending g with (g', r) => (w, g', r) end)) in
  eret commit.

Definition rs_add_member (member : MlsRsClient) : eff gstate lib_commit :=
  let* key_package := on_world (key_package_message member) in
  let* proposal := (λ s, eresult (map_err LibraryError
                           (lib_add_proposal (rg_group s.2) key_package)) s) in
  commit_and_apply [proposal].

Definition remove_member_by_identity (identifier : bytes) : eff gstate lib_commit :=
  let* index := (λ s, eresult (ok_or (member_index_by_identity s.2 identifier)
                                 RsUnknownMember) s) in
  let* proposal := (λ s, eresult (map_err LibraryError
                           (lib_remove_proposal (rg_group s.2) index)) s) in
  commit_and_apply [proposal].

Definition self_update : eff gstate lib_commit := commit_and_apply [].

Definition process_commit_message (message : lib_message) : eff gstate lib_described :=
  let* received := elib (on_group (λ w g, lib_process w g message)) in
  eresult (match received with
           | ReceivedCommit description => Ok description
           | ReceivedOther => Err (LibraryError "unexpected MLS message type")
           end).

Definition group_info_message_allowing_external_commit (include_tree : bool)
    : eff gstate lib_message := λ s,
  elib (on_world (λ w, lib_group_info w (rg_group s.2) include_tree)) s.

Definition export_tree (g : MlsRsGroup) : lib_tree := lib_export_tree (rg_group g).

(** ** The interface of the resynchronization code *)

#[export] Instance rs_wrapper : MlsRs := {|
  rs_group := gstate;
  rs_message := lib_message;
  rs_described := lib_described;
  rs_current_epoch := λ s, epoch s.2;
  rs_new_epoch := lib_new_epoch;
  rs_process_commit := λ s m, process_commit_message m s;
|}.

End wrappers.
