(* ===== verification/RsGroupFacts.v ===== *)
(** * Properties of the mls-rs wrappers

    What SPEX relies on in mls-rs is the class [MlsLibLaws], over a few
    observations of the library's values ([MlsLibView]): which change a proposal
    makes, which proposals a group has received and not yet committed.  Under
    these laws: groups are created with the configuration asked for and keep it
    under the wrapper's own commits, as do those who join and those who follow; the
    removal of a member by identity; and what becomes of
    a proposal that [process_commit_message] refuses.  The module [RsLibrary] is
    a small library with all the laws, used by the witnesses. *)
From Stdlib Require Import ZArith Lia Strings.Byte.
From stdpp Require Import base list relations strings numbers.
From S2P Require Import Prelude External Types Core Mls MlsFacts RsGroup.

#[local] Open Scope Z_scope.
#[local] Open Scope eff_scope.

(** ** What is relied on in mls-rs *)

(** What a proposal does to the group. *)
Inductive Change : Type :=
| AddsMember (identifier : bytes)
| RemovesMember (index : Z)
| SetsExtensions (l : ExtensionList)
| OtherChange.

Definition sets_extensions (c : Change) : option ExtensionList :=
  match c with SetsExtensions l => Some l | _ => None end.

Definition added_member (c : Change) : option bytes :=
  match c with AddsMember i => Some i | _ => None end.

Definition removed_index (c : Change) : option Z :=
  match c with RemovesMember i => Some i | _ => None end.

(** The group context extensions after a list of changes. *)
Definition extensions_after (cs : list Change) (e : ExtensionList) : ExtensionList :=
  default e (list.last (omap sets_extensions cs)).

Class MlsLibView `{MlsLib} := {
  (** the identifier in the basic credential of a client and of a key package *)
  lib_identity : lib_client → bytes;
  lib_package_identity : lib_message → option bytes;
  lib_change : lib_proposal → Change;
  (** the proposals received and not yet committed *)
  lib_received : lib_group → list lib_proposal;
  (** a received proposal that can still be committed next to the given ones *)
  lib_committable : lib_group → list lib_proposal → lib_proposal → bool;
}.

Section view.
Context `{LB : MlsLib} `{LV : !MlsLibView}.

Definition view (g : lib_group) : Z * ExtensionList * list Member :=
  (lib_epoch g, lib_extensions g, lib_roster g).

(** A commit carries the proposals received before, by reference, and the
    proposals of the builder. *)
Definition committed (g : lib_group) (ps : list lib_proposal) : list Change :=
  map lib_change (base.filter (λ p, lib_committable g ps p = true) (lib_received g) ++ ps).

Record commits_to (g : lib_group) (ps : list lib_proposal) (g' : lib_group) : Prop := {
  ct_epoch : lib_epoch g' = wadd 64 (lib_epoch g) 1;
  ct_extensions : lib_extensions g' = extensions_after (committed g ps) (lib_extensions g);
  ct_roster : ∃ added,
    lib_roster g' ≡ₚ base.filter (λ m, mb_index m ∉ omap removed_index (committed g ps))
                       (lib_roster g) ++ added ∧
    map mb_basic added = map Some (omap added_member (committed g ps));
  ct_received : lib_received g' = [];
}.

End view.

(** The documented behaviour of mls-rs (RFC 9420). *)
Class MlsLibLaws `{LB : MlsLib} `{LV : !MlsLibView} : Prop := {
  lib_epoch_fits : ∀ g, fits 64 (lib_epoch g);
  lib_roster_index : ∀ g, NoDup (map mb_index (lib_roster g));
  lib_client_identity : ∀ ts v i k cs, lib_identity (lib_build_client ts v i k cs) = i;
  lib_package_of_client : ∀ w c w' m,
    lib_key_package w c = (w', Ok m) → lib_package_identity m = Some (lib_identity c);
  lib_created : ∀ w c l w' g, lib_create_group w c l = (w', Ok g) →
    lib_epoch g = 0 ∧ lib_extensions g = l ∧
    lib_roster g = [mkMember 0 (Some (lib_identity c))] ∧ lib_received g = [];
  lib_add_change : ∀ g m p, lib_add_proposal g m = Ok p →
    ∃ i, lib_package_identity m = Some i ∧ lib_change p = AddsMember i;
  lib_remove_change : ∀ g i p, lib_remove_proposal g i = Ok p → lib_change p = RemovesMember i;
  (** building a commit leaves it pending; only applying it moves the group *)
  lib_build_pending : ∀ w g ps w' g' r, lib_build w g ps = (w', g', r) →
    view g' = view g ∧ lib_received g' = lib_received g;
  lib_apply_fails : ∀ g g' e, lib_apply_pending g = (g', Err e) →
    view g' = view g ∧ lib_received g' = lib_received g;
  lib_applied : ∀ w g ps w' g1 c g2 d,
    lib_build w g ps = (w', g1, Ok c) → lib_apply_pending g1 = (g2, Ok d) → commits_to g ps g2;
  (** who joins by a welcome or follows a commit is where its author is *)
  lib_welcomed : ∀ w g ps w' g1 c g2 d w1 cl t m w2 h,
    lib_build w g ps = (w', g1, Ok c) → lib_apply_pending g1 = (g2, Ok d) →
    m ∈ lib_welcomes c → lib_join_group w1 cl t m = (w2, Ok h) →
    view h = view g2 ∧ lib_received h = [];
  lib_followed : ∀ w g ps w' g1 c g2 d w1 f w2 f' d',
    lib_build w g ps = (w', g1, Ok c) → lib_apply_pending g1 = (g2, Ok d) →
    lib_process w1 f (lib_commit_message c) = (w2, f', Ok (ReceivedCommit d')) →
    lib_new_epoch d' = true →
    lib_extensions f = lib_extensions g ∧ view f' = view g2 ∧ lib_received f' = [];
  lib_commit_epoch : ∀ w g m w' g' d, lib_process w g m = (w', g', Ok (ReceivedCommit d)) →
    lib_new_epoch d = true → lib_epoch g' = wadd 64 (lib_epoch g) 1;
  lib_other_message : ∀ w g m w' g', lib_process w g m = (w', g', Ok ReceivedOther) →
    view g' = view g;
  lib_external_commit : ∀ w g b w' m w1 bl w2 h cm,
    lib_group_info w g b = (w', Ok m) → lib_external_build w1 bl m = (w2, Ok (h, cm)) →
    lib_epoch h = wadd 64 (lib_epoch g) 1 ∧ lib_extensions h = lib_extensions g ∧
    lib_received h = [];
}.

(** ** Configurations *)

(** A configuration without its initial secret, as a context shows it. *)
Definition public_config (c : GroupConfig) : GroupConfig :=
  config_new (cf_proto_suite c) (cf_flags c) (cf_cfg_hash_id c) (cf_cfg_hash c).

(** Validation against a configuration is reading that configuration. *)
Lemma validate_reads_config l c :
  validate_group_context_extensions l c = Ok tt ↔
  group_config_from_context l = Ok (public_config c).
Proof.
  unfold validate_group_context_extensions, group_config_from_context, public_config, config_new.
  destruct (ok_or (ext_get l EXT_SPEX_PROTO_SUITE) _) as [pe|]; [|done].
  destruct (ok_or (ext_get l EXT_SPEX_CFG_HASH) _) as [ce|]; [|done].
  destruct (parse_proto_suite_extension pe) as [[suite fl]|]; [|done]. cbn [fst snd].
  destruct (parse_cfg_hash_extension ce) as [[i h]|]; cbn [fst snd];
    [|by destruct (negb _ || negb _)].
  repeat case_bool_decide; destruct (Z.eqb_spec fl (cf_flags c)), (Z.eqb_spec i (cf_cfg_hash_id c));
    cbn [negb orb]; split; congruence.
Qed.

Lemma validate_same_config l c d :
  public_config c = public_config d →
  validate_group_context_extensions l c = validate_group_context_extensions l d.
Proof.
  destruct c, d. unfold public_config, config_new. cbn. intros [= -> -> -> ->]. reflexivity.
Qed.

Lemma validated_agree l c d :
  validate_group_context_extensions l c = Ok tt →
  validate_group_context_extensions l d = Ok tt → public_config c = public_config d.
Proof. rewrite !validate_reads_config. congruence. Qed.

Lemma built_validates c l :
  config_wf c → build_group_context_extensions c = Some (Ok l) →
  validate_group_context_extensions l c = Ok tt.
Proof.
  intros Hwf Hb. rewrite build_extensions_ok in Hb by done. injection Hb as <-.
  apply validate_reads_config. unfold group_config_from_context.
  destruct (ext_get_spex c) as [-> ->]. cbn [ok_or].
  by rewrite parse_proto_suite_ok, parse_cfg_hash_ok by apply Hwf.
Qed.

Lemma extensions_after_none cs e :
  Forall (λ c, sets_extensions c = None) cs → extensions_after cs e = e.
Proof.
  intros Hn. unfold extensions_after. assert (omap sets_extensions cs = []) as ->; [|done].
  induction Hn as [|c cs Hc _ IH]; [done|]. cbn. by rewrite Hc.
Qed.

(** ** Commits of the wrapper *)

(** The commits the wrapper makes itself. *)
Inductive own_commit `{MlsLib} : eff (lib_world * MlsRsGroup) lib_commit → Prop :=
| own_add c : own_commit (rs_add_member c)
| own_remove i : own_commit (remove_member_by_identity i)
| own_update : own_commit self_update.

Section commits.
Context `{LB : MlsLib} `{LV : !MlsLibView} `{LL : !MlsLibLaws}.

Definition no_extension_change (ps : list lib_proposal) : Prop :=
  Forall (λ p, sets_extensions (lib_change p) = None) ps.

(** [g'] comes from [g] by building and applying a commit. *)
Definition made (g : lib_group) (ps : list lib_proposal) (c : lib_commit) (g' : lib_group) : Prop :=
  ∃ w w' g1 d, lib_build w g ps = (w', g1, Ok c) ∧ lib_apply_pending g1 = (g', Ok d).

Lemma commit_and_apply_cases ps s s' r :
  commit_and_apply ps s = (s', r) →
  rg_config s'.2 = rg_config s.2 ∧
  match r with
  | Ok c => made (rg_group s.2) ps c (rg_group s'.2)
  | Err _ => view (rg_group s'.2) = view (rg_group s.2) ∧
             lib_received (rg_group s'.2) = lib_received (rg_group s.2)
  end.
Proof.
  destruct s as [w [g cf]]. unfold commit_and_apply, ebind, elib, on_group. cbn.
  destruct (lib_build w g ps) as [[w1 g1] [c|e]] eqn:Eb; cbn.
  - destruct (lib_apply_pending g1) as [g2 [d|e]] eqn:Ea; cbn; intros [= <- <-]; cbn.
    + split; [done|]. by exists w, w1, g1, d.
    + split; [done|]. apply lib_build_pending in Eb as [<- <-]. by eapply lib_apply_fails.
  - intros [= <- <-]. cbn. split; [done|]. by eapply lib_build_pending.
Qed.

Lemma own_commit_cases op s s' r :
  own_commit op → op s = (s', r) →
  rg_config s'.2 = rg_config s.2 ∧
  match r with
  | Ok c => ∃ ps, no_extension_change ps ∧ made (rg_group s.2) ps c (rg_group s'.2)
  | Err _ => view (rg_group s'.2) = view (rg_group s.2) ∧
             lib_received (rg_group s'.2) = lib_received (rg_group s.2)
  end.
Proof.
  assert (∀ s0 ps, rg_group s0.2 = rg_group s.2 → rg_config s0.2 = rg_config s.2 →
    no_extension_change ps → commit_and_apply ps s0 = (s', r) →
    rg_config s'.2 = rg_config s.2 ∧
    match r with
    | Ok c => ∃ ps, no_extension_change ps ∧ made (rg_group s.2) ps c (rg_group s'.2)
    | Err _ => view (rg_group s'.2) = view (rg_group s.2) ∧
               lib_received (rg_group s'.2) = lib_received (rg_group s.2)
    end) as Hgo.
  { intros s0 ps Hg Hc Hps Ho. apply commit_and_apply_cases in Ho. rewrite Hg, Hc in Ho.
    destruct Ho as [? Ho]. split; [done|]. destruct r; eauto. }
  destruct s as [w [g cf]]. intros [c|i|] Ho.
  - unfold rs_add_member, ebind, on_world, key_package_message, elib, eresult in Ho. cbn in Ho.
    destruct (lib_key_package w (mc_client c)) as [w1 [kp|]] eqn:Ek; cbn in Ho;
      [|by injection Ho as <- <-].
    destruct (lib_add_proposal g kp) as [p|] eqn:Ep; cbn in Ho; [|by injection Ho as <- <-].
    apply (Hgo (w1, mkMlsRsGroup g cf) [p]); [done..| |done]. constructor; [|done].
    apply lib_add_change in Ep as (? & _ & ->). done.
  - unfold remove_member_by_identity, ebind, eresult in Ho. cbn in Ho.
    destruct (member_index_by_identity _ i) as [j|]; cbn in Ho; [|by injection Ho as <- <-].
    destruct (lib_remove_proposal g j) as [p|] eqn:Ep; cbn in Ho; [|by injection Ho as <- <-].
    apply (Hgo (w, mkMlsRsGroup g cf) [p]); [done..| |done]. constructor; [|done].
    by rewrite (lib_remove_change _ _ _ Ep).
  - by apply (Hgo (w, mkMlsRsGroup g cf) []); [..|constructor|].
Qed.

Lemma made_keeps_extensions g ps c g' :
  no_extension_change ps → no_extension_change (lib_received g) → made g ps c g' →
  lib_extensions g' = lib_extensions g ∧ lib_received g' = [].
Proof.
  intros Hps Hg (w & w' & g1 & d & Hb & Ha). pose proof (lib_applied _ _ _ _ _ _ _ _ Hb Ha) as Ht.
  split; [|apply Ht]. rewrite (ct_extensions _ _ _ Ht). apply extensions_after_none.
  unfold committed. apply Forall_map, Forall_app. split; [|done].
  apply list.Forall_forall. intros p [_ Hp]%list_elem_of_filter.
  by eapply list.Forall_forall in Hg.
Qed.

(** ** The groups of one creation *)

(** The states of the members of a group that was created with [cfg]: its
    creator, whoever commits, joins, follows or comes back by group information
    through the wrapper.  Members handed a proposal, and followers of an external
    commit, are not among them. *)
Inductive spex_group (cfg : GroupConfig) : lib_world * MlsRsGroup → Prop :=
| sg_created c run w w' g :
    config_wf cfg → create_group c cfg = Some run → run w = (w', Ok g) → spex_group cfg (w', g)
| sg_committed s op s' r :
    spex_group cfg s → own_commit op → op s = (s', r) → spex_group cfg s'
| sg_joined s op s' commit c m t w w' h :
    spex_group cfg s → own_commit op → op s = (s', Ok commit) →
    m ∈ lib_welcomes commit → join_group c m t w = (w', Ok h) → spex_group cfg (w', h)
| sg_followed s op s' commit f f' d :
    spex_group cfg s → own_commit op → op s = (s', Ok commit) → spex_group cfg f →
    process_commit_message (lib_commit_message commit) f = (f', Ok d) → lib_new_epoch d = true →
    spex_group cfg f'
| sg_resynced s b s' m c t w w' h cm :
    spex_group cfg s → group_info_message_allowing_external_commit b s = (s', Ok m) →
    resync_from_group_info c m t w = (w', Ok (h, cm)) → spex_group cfg (w', h).

(** The context carries the configuration, and no proposal that waits to be
    committed changes it. *)
Record carries (cfg : GroupConfig) (g : MlsRsGroup) : Prop := {
  ca_valid : validate_group_context_extensions (lib_extensions (rg_group g)) cfg = Ok tt;
  ca_config : public_config (rg_config g) = public_config cfg;
  ca_quiet : no_extension_change (lib_received (rg_group g));
}.

Lemma created_carries cfg c run w w' g :
  config_wf cfg → create_group c cfg = Some run → run w = (w', Ok g) →
  carries cfg g ∧ rg_config g = cfg ∧ cf_proto_suite cfg = mc_proto_suite c ∧
  lib_epoch (rg_group g) = 0 ∧
  lib_roster (rg_group g) = [mkMember 0 (Some (lib_identity (mc_client c)))].
Proof.
  intros Hwf Hc Hr. unfold create_group in Hc.
  destruct (validate_cfg_hash_id _); [|by injection Hc as <-].
  destruct (negb _) eqn:En; [by injection Hc as <-|]. apply negb_false_iff, bool_decide_eq_true in En.
  destruct (build_group_context_extensions cfg) as [[l|]|] eqn:Eb; [| |done];
    injection Hc as <-; [|done].
  unfold ebind, elib, eresult in Hr.
  destruct (lib_create_group w (mc_client c) l) as [w1 [g1|]] eqn:Eg; cbn in Hr; [|done].
  injection Hr as <- <-. apply lib_created in Eg as (He & Hl & Hro & Hre).
  split_and!; [|done..]. split; cbn; [|done|].
  - rewrite Hl. by apply built_validates.
  - rewrite Hre. constructor.
Qed.

Lemma own_commit_carries cfg op s s' r :
  own_commit op → op s = (s', r) → carries cfg s.2 → carries cfg s'.2.
Proof.
  intros Hop Ho [Hv Hc Hq]. apply own_commit_cases in Ho as [Hcf Hr]; [|done].
  destruct r as [c|e].
  - destruct Hr as (ps & Hps & Hm). apply made_keeps_extensions in Hm as [He Hre]; [|done..].
    split; [by rewrite He|congruence|rewrite Hre; constructor].
  - destruct Hr as [[= _ He _] Hre]. split; [by rewrite He|congruence|by rewrite Hre].
Qed.

Lemma joined_carries cfg s op s' commit c m t w w' h :
  own_commit op → op s = (s', Ok commit) → carries cfg s.2 → m ∈ lib_welcomes commit →
  lib_join_group w (mc_client c) t m = (w', Ok h) →
  view h = view (rg_group s'.2) ∧
  join_group c m t w = (w', Ok (mkMlsRsGroup h (public_config cfg))) ∧
  carries cfg (mkMlsRsGroup h (public_config cfg)).
Proof.
  intros Hop Ho Hs Hm Hj. pose proof (own_commit_carries _ _ _ _ _ Hop Ho Hs) as [Hv _ _].
  apply own_commit_cases in Ho as [_ (ps & _ & w0 & w1 & g1 & d & Hb & Ha)]; [|done].
  destruct (lib_welcomed _ _ _ _ _ _ _ _ _ _ _ _ _ _ Hb Ha Hm Hj) as [Hvw Hre].
  split; [done|]. injection Hvw as _ He _. rewrite <-He in Hv. split.
  - unfold join_group, ebind, elib, eresult. rewrite Hj. cbn.
    by rewrite (proj1 (validate_reads_config _ _) Hv).
  - split; [done|by destruct cfg|cbn; rewrite Hre; constructor].
Qed.

Lemma followed_carries cfg s op s' commit f f' d :
  own_commit op → op s = (s', Ok commit) → carries cfg s.2 → carries cfg f.2 →
  process_commit_message (lib_commit_message commit) f = (f', Ok d) → lib_new_epoch d = true →
  view (rg_group f'.2) = view (rg_group s'.2) ∧ carries cfg f'.2.
Proof.
  intros Hop Ho Hs [_ Hfc _] Hp Hd. pose proof (own_commit_carries _ _ _ _ _ Hop Ho Hs) as [Hv _ _].
  apply own_commit_cases in Ho as [_ (ps & _ & w0 & w1 & g1 & d1 & Hb & Ha)]; [|done].
  destruct f as [w [fg fc]]. unfold process_commit_message, ebind, elib, on_group, eresult in Hp.
  cbn in Hp. destruct (lib_process w fg _) as [[w2 f1] [[d2|]|]] eqn:Ep; cbn in Hp; [|done..].
  injection Hp as <- <-. cbn.
  destruct (lib_followed _ _ _ _ _ _ _ _ _ _ _ _ _ Hb Ha Ep Hd) as (_ & Hvw & Hre).
  split; [done|]. injection Hvw as _ He _. split; cbn; [by rewrite He|done|rewrite Hre; constructor].
Qed.

Lemma resynced_carries cfg s b s' m c t w w' h cm :
  carries cfg s.2 → group_info_message_allowing_external_commit b s = (s', Ok m) →
  resync_from_group_info c m t w = (w', Ok (h, cm)) →
  carries cfg h ∧ lib_epoch (rg_group h) = wadd 64 (lib_epoch (rg_group s.2)) 1.
Proof.
  intros [Hv _ _] Hi Hr. destruct s as [w0 [g cf]].
  unfold group_info_message_allowing_external_commit, elib, on_world in Hi. cbn in Hi.
  destruct (lib_group_info w0 g b) as [w1 [m'|]] eqn:Eg; [|done]. cbn in Hi.
  injection Hi as <- ->. unfold resync_from_group_info, ebind, elib, eresult in Hr. cbn in Hr.
  destruct (lib_external_builder (mc_client c)) as [bl|]; [|done]. cbn in Hr.
  destruct (lib_external_build w _ m) as [w2 [[h' cm']|]] eqn:Eb; [|done]. cbn in Hr.
  destruct (group_config_from_context _) as [cfg'|] eqn:Ec; [|done]. injection Hr as <- <- <-.
  destruct (lib_external_commit _ _ _ _ _ _ _ _ _ _ Eg Eb) as (He & Hl & Hre). cbn in Hv |- *.
  split; [|done]. rewrite Hl in Ec. split; cbn; [by rewrite Hl| |rewrite Hre; constructor].
  apply validate_reads_config in Hv. assert (cfg' = public_config cfg) as -> by congruence.
  by destruct cfg.
Qed.

Lemma spex_group_carries cfg s : spex_group cfg s → carries cfg s.2.
Proof.
  induction 1 as [c run w w' g Hwf Hc Hr|s op s' r ? IH Hop Ho
    |s op s' commit c m t w w' h ? IH Hop Ho Hm Hj|s op s' commit f f' d ? IH Hop Ho ? IHf Hp Hd
    |s b s' m c t w w' h cm ? IH Hi Hr]; cbn.
  - by apply (created_carries _ _ _ _ _ _ Hwf Hc Hr).
  - by eapply own_commit_carries.
  - destruct (lib_join_group w (mc_client c) t m) as [w1 [h1|]] eqn:Ej.
    + destruct (joined_carries _ _ _ _ _ _ _ _ _ _ _ Hop Ho IH Hm Ej) as (_ & Hj' & ?).
      rewrite Hj in Hj'. by injection Hj' as -> ->.
    + unfold join_group, ebind, elib in Hj. by rewrite Ej in Hj.
  - by eapply followed_carries.
  - by eapply resynced_carries.
Qed.

End commits.

(** ** Looking up members *)

Lemma find_identity_Some ms i j :
  find_identity ms i = Some j →
  ∃ pre m post, ms = pre ++ m :: post ∧ mb_basic m = Some i ∧ mb_index m = j ∧
    Forall (λ m, mb_basic m ≠ Some i) pre.
Proof.
  induction ms as [|m ms IH]; cbn; [done|]. case_bool_decide as Hb.
  - intros [= <-]. by exists [], m, ms.
  - intros (pre & m' & post & -> & Hm & Hj & Hpre)%IH. exists (m :: pre), m', post. auto.
Qed.

Lemma find_identity_None ms i : find_identity ms i = None ↔ i ∉ omap mb_basic ms.
Proof.
  induction ms as [|m ms IH]; cbn; [by split; [intros _; apply not_elem_of_nil|]|].
  case_bool_decide as Hb.
  - rewrite Hb. split; [done|]. rewrite not_elem_of_cons. by intros [].
  - rewrite IH. destruct (mb_basic m) as [k|]; [|done]. rewrite not_elem_of_cons.
    split; [intros; split; congruence|by intros []].
Qed.

(** With distinct indices, dropping an index drops one member. *)
Lemma drop_other_index j ms :
  j ∉ map mb_index ms → base.filter (λ x, mb_index x ∉ [j]) ms = ms.
Proof.
  induction ms as [|m ms IH]; [done|]. cbn [map]. rewrite not_elem_of_cons. intros [Hj Hms].
  rewrite filter_cons_True, IH by (done || rewrite list_elem_of_singleton; congruence). done.
Qed.

Lemma drop_member pre m post :
  NoDup (map mb_index (pre ++ m :: post)) →
  base.filter (λ x, mb_index x ∉ [mb_index m]) (pre ++ m :: post) = pre ++ post.
Proof.
  intros Hn. rewrite map_app in Hn. cbn in Hn. apply list.NoDup_app in Hn as (_ & Hd & Hn).
  apply list.NoDup_cons in Hn as [Hp _].
  rewrite list.filter_app, filter_cons_False by (rewrite list_elem_of_singleton; by intros []).
  rewrite !drop_other_index; [done..|]. intros Hj%Hd. by apply Hj; left.
Qed.

(** ** Proposals of the wrapper *)

Lemma omap_map_Some ms (is_ : list bytes) :
  map mb_basic ms = map Some is_ → omap mb_basic ms = is_.
Proof.
  revert is_. induction ms as [|m ms IH]; intros [|i is_]; cbn; [done..|].
  intros [= -> ->%IH]. done.
Qed.

Lemma filter_nothing (ms : list Member) : base.filter (λ m, mb_index m ∉ []) ms = ms.
Proof.
  induction ms as [|m ms IH]; [done|]. rewrite filter_cons_True, IH by apply not_elem_of_nil. done.
Qed.

Section proposals.
Context `{LB : MlsLib} `{LV : !MlsLibView} `{LL : !MlsLibLaws}.

Lemma added_by_proposal c s s' commit :
  rs_add_member c s = (s', Ok commit) →
  ∃ p w, lib_change p = AddsMember (lib_identity (mc_client c)) ∧
    commit_and_apply [p] (w, s.2) = (s', Ok commit).
Proof.
  destruct s as [w g]. unfold rs_add_member, ebind, on_world, key_package_message, elib, eresult.
  cbn. destruct (lib_key_package w (mc_client c)) as [w1 [kp|]] eqn:Ek; cbn; [|done].
  destruct (lib_add_proposal _ kp) as [p|] eqn:Ep; cbn; [|done]. intros Hc. exists p, w1.
  split; [|done]. apply lib_add_change in Ep as (i & Hi & ->).
  apply lib_package_of_client in Ek. congruence.
Qed.

Lemma removed_by_proposal i s s' commit :
  remove_member_by_identity i s = (s', Ok commit) →
  ∃ j p, find_identity (lib_roster (rg_group s.2)) i = Some j ∧
    lib_change p = RemovesMember j ∧ commit_and_apply [p] s = (s', Ok commit).
Proof.
  unfold remove_member_by_identity, ebind, eresult, member_index_by_identity.
  destruct (find_identity _ i) as [j|]; cbn; [|done].
  destruct (lib_remove_proposal _ j) as [p|] eqn:Ep; cbn; [|done]. intros Hc. exists j, p.
  split_and!; [done| |done]. by apply lib_remove_change in Ep.
Qed.

End proposals.

(** ** Clients *)

Section clients.
Context `{LB : MlsLib} `{LV : !MlsLibView} `{LL : !MlsLibLaws}.

Lemma client_new_Ok suite i w w' c :
  client_new suite i w = (w', Ok c) →
  mc_proto_suite c = suite ∧ lib_identity (mc_client c) = i ∧
  ps_major suite = 0 ∧ ps_minor suite = 1 ∧ ps_ciphersuite_id suite ∈ lib_cipher_suites.
Proof.
  unfold client_new, ebind, eresult, cipher_suite_from_proto_suite,
    protocol_version_from_proto_suite, elib.
  case_bool_decide as Hs; [|done]. destruct (_ && _) eqn:Ev; [|done].
  destruct (lib_suite_provider _); [|done].
  destruct (lib_key_generate w _) as [w1 [k|]]; cbn; [|done]. intros [= <- <-]. cbn.
  bool_to_prop. rewrite lib_client_identity. by split_and!.
Qed.

(** The hash is checked before the extension writer that would panic on it. *)
Lemma build_extensions_total cfg :
  ∃ r, build_group_context_extensions cfg = Some r ∧
    (255 < zlen (cf_cfg_hash cfg) →
       r = Err (InvalidExtension "cfg_hash length exceeds 255 bytes")).
Proof.
  unfold build_group_context_extensions, ext_cfg_hash_bytes.
  destruct (Z.ltb_spec 255 (zlen (cf_cfg_hash cfg))) as [Hl|Hl]; [by eexists|].
  rewrite (proj2 (Z.leb_le _ _)) by lia. cbn [mbind option_bind]. eexists. split; [done|lia].
Qed.

Lemma create_group_total c cfg : is_Some (create_group c cfg).
Proof.
  unfold create_group. destruct (validate_cfg_hash_id _); [|done]. destruct (negb _); [done|].
  destruct (build_extensions_total cfg) as (r & -> & _). done.
Qed.

End clients.

(** ** Claims *)

Section claims.
Context `{LB : MlsLib} `{LV : !MlsLibView} `{LL : !MlsLibLaws}.

(** The wrapper meets what the resynchronization code relies on. *)
#[export] Instance rs_wrapper_laws : MlsRsLaws (H := rs_wrapper).
Proof.
  split; cbn.
  - intros s. apply lib_epoch_fits.
  - intros [w [g cf]] m s' d Hp Hd. unfold process_commit_message, ebind, elib, on_group, eresult in Hp.
    cbn in Hp. destruct (lib_process w g m) as [[w1 g1] [[d1|]|]] eqn:Ep; cbn in Hp; [|done..].
    injection Hp as <- <-. by eapply lib_commit_epoch.
Qed.

(** C14: a member of a group created with a configuration holds a context that
    validates, and that very configuration up to the initial secret, as long as
    the group is only changed through the wrapper: by creating it, committing,
    joining by the welcome of such a commit, following such a commit, and coming
    back by an external commit.  It is not claimed of a member who is handed a
    proposal as if it were a commit, nor of one who follows an external commit of
    another member. *)
Theorem spex_members_keep_config cfg s :
  spex_group cfg s →
  validate_cfg_hash_proto_suite s.2 = Ok tt ∧ public_config (rg_config s.2) = public_config cfg.
Proof.
  intros [Hv Hc _]%spex_group_carries. split; [|done].
  unfold validate_cfg_hash_proto_suite. by rewrite (validate_same_config _ _ _ Hc).
Qed.

(** Creating a group answers every configuration without a panic: an
    unsupported hash identifier, another protocol suite than the client's or a
    hash of more than 255 bytes is refused before the library is called, in this
    order; a group that is created is at epoch 0 with its creator as only member,
    and validates. *)
Theorem created_group_outcome suite i w0 w1 c cfg :
  client_new suite i w0 = (w1, Ok c) →
  ∃ run, create_group c cfg = Some run ∧ ∀ w,
    (cf_cfg_hash_id cfg ≠ 1 → run w = (w, Err (UnsupportedCfgHashId (cf_cfg_hash_id cfg)))) ∧
    (cf_cfg_hash_id cfg = 1 → cf_proto_suite cfg ≠ suite →
       run w = (w, Err (RsValidation ProtoSuiteMismatch))) ∧
    (cf_cfg_hash_id cfg = 1 → cf_proto_suite cfg = suite → 255 < zlen (cf_cfg_hash cfg) →
       run w = (w, Err (InvalidExtension "cfg_hash length exceeds 255 bytes"))) ∧
    (∀ w' g, config_wf cfg → run w = (w', Ok g) →
       cf_proto_suite cfg = suite ∧ ps_major suite = 0 ∧ ps_minor suite = 1 ∧
       ps_ciphersuite_id suite ∈ lib_cipher_suites ∧
       rg_config g = cfg ∧ epoch g = 0 ∧ member_identities g = [i] ∧
       validate_cfg_hash_proto_suite g = Ok tt).
Proof.
  intros (Hs & Hi & Hmaj & Hmin & Hcs)%client_new_Ok.
  destruct (create_group_total c cfg) as [run Hrun]. exists run. split; [done|].
  intros w. split_and!.
  1-3: unfold create_group, validate_cfg_hash_id, hash_id_from_u16 in Hrun.
  - intros Hid. rewrite (proj2 (Z.eqb_neq _ _)) in Hrun by done. by injection Hrun as <-.
  - intros Hid Hne. rewrite Hid, Hs, bool_decide_false in Hrun by done. by injection Hrun as <-.
  - intros Hid Hsu Hlen. rewrite Hid, Hs, bool_decide_true in Hrun by done. cbn in Hrun.
    destruct (build_extensions_total cfg) as (r & Hr & Hlong). rewrite Hr, Hlong in Hrun by done.
    by injection Hrun as <-.
  - intros w' g Hwf Hg.
    destruct (created_carries _ _ _ _ _ _ Hwf Hrun Hg) as ([Hv _ _] & Hcf & Hsu & He & Hro).
    unfold epoch, member_identities, validate_cfg_hash_proto_suite. rewrite Hro, Hcf, <-Hi.
    split_and!; [congruence|done..].
Qed.

(** Adding a client puts its identity among the members; when no received
    proposal is committed along with it, the other members stay as they were. *)
Theorem added_member_listed c s s' commit :
  rs_add_member c s = (s', Ok commit) →
  lib_identity (mc_client c) ∈ member_identities s'.2 ∧
  (lib_received (rg_group s.2) = [] →
     member_identities s'.2 ≡ₚ lib_identity (mc_client c) :: member_identities s.2).
Proof.
  intros (p & w & Hch & Hc)%added_by_proposal.
  apply commit_and_apply_cases in Hc as [_ (w0 & w1 & g1 & d & Hb & Ha)]. cbn in Hb.
  destruct (ct_roster _ _ _ (lib_applied _ _ _ _ _ _ _ _ Hb Ha)) as (new & Hro & Hnew).
  unfold member_identities. rewrite Hro, omap_app.
  assert (omap mb_basic new = omap added_member (committed (rg_group s.2) [p])) as ->.
  { by apply omap_map_Some. }
  unfold committed. rewrite map_app. cbn [map]. rewrite Hch, (omap_app added_member). split.
  - apply elem_of_app. right. apply elem_of_app. right. by left.
  - intros ->. rewrite filter_nil. cbn. rewrite Permutation_app_comm. cbn.
    f_equiv. by rewrite filter_nothing.
Qed.

(** Removal by identity: an identity that no member has is refused and nothing
    changes.  Otherwise, when no received proposal is committed along with it, the
    first member with that identity is gone at the next epoch and no other, so
    that the identity is gone unless a second member has it. *)
Theorem removal_outcome i s s' r :
  remove_member_by_identity i s = (s', r) →
  (i ∉ member_identities s.2 → s' = s ∧ r = Err RsUnknownMember) ∧
  (∀ commit, r = Ok commit → lib_received (rg_group s.2) = [] →
     epoch s'.2 = wadd 64 (epoch s.2) 1 ∧
     ∃ pre m post, lib_roster (rg_group s.2) = pre ++ m :: post ∧ mb_basic m = Some i ∧
       Forall (λ m, mb_basic m ≠ Some i) pre ∧
       lib_roster (rg_group s'.2) ≡ₚ pre ++ post ∧
       (i ∉ member_identities s'.2 ↔ i ∉ omap mb_basic post)).
Proof.
  intros Ho. split.
  - intros Hn%find_identity_None. unfold remove_member_by_identity, ebind, eresult in Ho.
    unfold member_index_by_identity in Ho. rewrite Hn in Ho. by injection Ho as <- <-.
  - intros commit -> Hre. apply removed_by_proposal in Ho as (j & p & Hj & Hch & Hc).
    apply commit_and_apply_cases in Hc as [_ (w0 & w1 & g1 & d & Hb & Ha)].
    pose proof (lib_applied _ _ _ _ _ _ _ _ Hb Ha) as Ht. split; [apply Ht|].
    apply find_identity_Some in Hj as (pre & m & post & Hl & Hm & <- & Hpre).
    exists pre, m, post. destruct (ct_roster _ _ _ Ht) as (new & Hro & Hnew).
    unfold committed in Hro, Hnew. rewrite Hre, filter_nil in Hro, Hnew. cbn in Hro, Hnew.
    rewrite Hch in Hro, Hnew. cbn in Hro, Hnew. apply map_eq_nil in Hnew as ->.
    rewrite app_nil_r, Hl, drop_member in Hro by (rewrite <-Hl; apply lib_roster_index).
    split_and!; [done..|]. unfold member_identities. rewrite Hro, omap_app, not_elem_of_app.
    assert (i ∉ omap mb_basic pre); [|tauto].
    intros (x & Hx & Hi)%list_elem_of_omap. by eapply list.Forall_forall in Hpre.
Qed.

(** C36: a proposal handed to [process_commit_message] is reported as an error, yet
    the library has taken it: if it changes the extensions of the group context,
    the next key rotation commits it, and the group no longer carries the
    configuration it still holds unless the new extensions spell it too. *)
Theorem refused_proposal_committed s m w g p l :
  lib_process s.1 (rg_group s.2) m = (w, g, Ok ReceivedOther) →
  lib_received g = [p] → lib_change p = SetsExtensions l → lib_committable g [] p = true →
  validate_cfg_hash_proto_suite s.2 = Ok tt →
  ∃ s1, process_commit_message m s = (s1, Err (LibraryError "unexpected MLS message type")) ∧
    validate_cfg_hash_proto_suite s1.2 = Ok tt ∧
    ∀ s2 commit, self_update s1 = (s2, Ok commit) →
      lib_extensions (rg_group s2.2) = l ∧ rg_config s2.2 = rg_config s.2 ∧
      (validate_cfg_hash_proto_suite s2.2 = Ok tt ↔
       group_config_from_context l = Ok (public_config (rg_config s.2))).
Proof.
  intros Hp Hre Hch Hcm Hv. exists (w, mkMlsRsGroup g (rg_config s.2)).
  pose proof (lib_other_message _ _ _ _ _ Hp) as Hview. injection Hview as _ He _. split_and!.
  - unfold process_commit_message, ebind, elib, on_group. by rewrite Hp.
  - unfold validate_cfg_hash_proto_suite in *. cbn. by rewrite He.
  - intros s2 commit Hu. apply commit_and_apply_cases in Hu as [Hcf (w0 & w1 & g1 & d & Hb & Ha)].
    pose proof (ct_extensions _ _ _ (lib_applied _ _ _ _ _ _ _ _ Hb Ha)) as Hx. cbn in Hcf, Hx.
    unfold committed in Hx. rewrite Hre, filter_cons_True, filter_nil in Hx by done. cbn in Hx.
    rewrite Hch in Hx. cbn in Hx. split_and!; [done..|].
    unfold validate_cfg_hash_proto_suite. rewrite Hx, Hcf. apply validate_reads_config.
Qed.

End claims.

(** ** A small library with these laws *)

Module RsLibrary.

(** Leaves of the tree in order, blank where a member was removed. *)
Record state := mkState {
  st_epoch : Z;
  st_exts : ExtensionList;
  st_leaves : list (option bytes);
  st_received : list Change;
  st_pending : option (list Change);
}.

Inductive message : Type :=
| MPackage (i : bytes)
| MWelcome (s : state)
| MCommit (before : state) (cs : list Change)
| MProposal (c : Change)
| MInfo (s : state).

Fixpoint roster_from (i : Z) (leaves : list (option bytes)) : list Member :=
  match leaves with
  | [] => []
  | Some b :: rest => mkMember i (Some b) :: roster_from (i + 1) rest
  | None :: rest => roster_from (i + 1) rest
  end.

Fixpoint blank (removed : list Z) (i : Z) (leaves : list (option bytes)) : list (option bytes) :=
  match leaves with
  | [] => []
  | l :: rest => (if bool_decide (i ∈ removed) then None else l) :: blank removed (i + 1) rest
  end.

Definition advance (g : state) (cs : list Change) : state :=
  mkState (wadd 64 (st_epoch g) 1) (extensions_after cs (st_exts g))
    (blank (omap removed_index cs) 0 (st_leaves g) ++ map Some (omap added_member cs)) [] None.

Definition build (w : nat) (g : state) (ps : list Change) :
    nat * state * result string (state * list Change) :=
  match st_pending g with
  | Some _ => (w, g, Err "existing pending commit"%string)
  | None =>
      let cs := st_received g ++ ps in
      (S w, mkState (st_epoch g) (st_exts g) (st_leaves g) (st_received g) (Some cs),
       Ok (g, cs))
  end.

Definition apply_pending (g : state) : state * result string bool :=
  match st_pending g with
  | None => (g, Err "no pending commit"%string)
  | Some cs => (advance g cs, Ok true)
  end.

Definition process (w : nat) (g : state) (m : message)
    : nat * state * result string (ReceivedMessage bool) :=
  match m with
  | MCommit b cs =>
      if bool_decide (st_epoch g = st_epoch b) && bool_decide (st_exts g = st_exts b) &&
         bool_decide (st_leaves g = st_leaves b)
      then (w, advance g cs, Ok (ReceivedCommit true)) else (w, g, Err "wrong epoch"%string)
  | MProposal c =>
      (w, mkState (st_epoch g) (st_exts g) (st_leaves g) (st_received g ++ [c]) (st_pending g),
       Ok ReceivedOther)
  | _ => (w, g, Err "unexpected message"%string)
  end.

#[export] Instance library : MlsLib := {|
  lib_world := nat; lib_client := bytes; lib_group := state; lib_message := message;
  lib_tree := unit; lib_keys := unit; lib_proposal := Change; lib_ext_builder := bytes;
  lib_commit := state * list Change; lib_described := bool;
  lib_cipher_suites := [1; 2; 3];
  lib_suite_provider := λ _, true;
  lib_key_generate := λ w _, (S w, Ok tt);
  lib_build_client := λ _ _ i _ _, i;
  lib_key_package := λ w c, (S w, Ok (MPackage c));
  lib_create_group := λ w c l, (S w, Ok (mkState 0 l [Some c] [] None));
  lib_join_group := λ w _ _ m,
    match m with MWelcome s => (w, Ok s) | _ => (w, Err "not a welcome"%string) end;
  lib_external_builder := λ c, Ok c;
  lib_with_tree := λ b _, b;
  lib_external_build := λ w b m,
    match m with
    | MInfo s => (w, Ok (advance s [AddsMember b], MCommit s [AddsMember b]))
    | _ => (w, Err "not a group info"%string)
    end;
  lib_add_proposal := λ _ m,
    match m with MPackage i => Ok (AddsMember i) | _ => Err "not a key package"%string end;
  lib_remove_proposal := λ _ i, Ok (RemovesMember i);
  lib_build := build;
  lib_apply_pending := apply_pending;
  lib_process := process;
  lib_group_info := λ w g _, (w, Ok (MInfo g));
  lib_export_tree := λ _, tt;
  lib_epoch := λ g, st_epoch g mod 2 ^ 64;
  lib_extensions := st_exts;
  lib_roster := λ g, roster_from 0 (st_leaves g);
  lib_new_epoch := λ d, d;
  lib_welcomes := λ c, [MWelcome (advance c.1 c.2)];
  lib_commit_message := λ c, MCommit c.1 c.2;
|}.

#[export] Instance library_view : MlsLibView (H := library) := {|
  lib_identity := λ c, c;
  lib_package_identity := λ m, match m with MPackage i => Some i | _ => None end;
  lib_change := λ c, c;
  lib_received := st_received;
  lib_committable := λ _ _ _, true;
|}.

Lemma roster_index_ge i l m : m ∈ roster_from i l → i <= mb_index m.
Proof.
  revert i. induction l as [|[b|] l IH]; intros i; cbn; [by intros ?%elem_of_nil| |].
  - intros [->|?%IH]%elem_of_cons; cbn; lia.
  - intros ?%IH. lia.
Qed.

Lemma roster_index i l : NoDup (map mb_index (roster_from i l)).
Proof.
  revert i. induction l as [|[b|] l IH]; intros i; cbn; [constructor| |apply IH].
  constructor; [|apply IH]. intros (m & Hi & Hm)%list_elem_of_fmap. apply roster_index_ge in Hm. lia.
Qed.

Lemma roster_app i l1 l2 :
  roster_from i (l1 ++ l2) = roster_from i l1 ++ roster_from (i + zlen l1) l2.
Proof.
  revert i. unfold zlen. induction l1 as [|[b|] l1 IH]; intros i; cbn [app roster_from length].
  - f_equal. lia.
  - cbn. f_equal. rewrite IH. do 2 f_equal. lia.
  - rewrite IH. do 2 f_equal. lia.
Qed.

Lemma roster_some i l : map mb_basic (roster_from i (map Some l)) = map Some l.
Proof. revert i. induction l as [|b l IH]; intros i; cbn; [done|]. by rewrite IH. Qed.

Lemma roster_blank R i l :
  roster_from i (blank R i l) = base.filter (λ m, mb_index m ∉ R) (roster_from i l).
Proof.
  revert i. induction l as [|[b|] l IH]; intros i; cbn [roster_from blank]; [done| |].
  - case_bool_decide; cbn [roster_from].
    + rewrite filter_cons_False by (by intros []). apply IH.
    + rewrite filter_cons_True by done. by rewrite IH.
  - by case_bool_decide.
Qed.

Lemma advance_epoch g cs :
  lib_epoch (MlsLib := library) (advance g cs) = wadd 64 (lib_epoch (MlsLib := library) g) 1.
Proof. cbn. unfold wadd, wrap. by rewrite Z.mod_mod, Z.add_mod_idemp_l by lia. Qed.

Lemma committed_all (g : state) ps :
  committed (LB := library) g ps = st_received g ++ ps.
Proof.
  unfold committed. cbn. rewrite map_id. f_equal.
  induction (st_received g) as [|c l IH]; [done|]. rewrite filter_cons_True by done. by rewrite IH.
Qed.

Lemma build_Ok w g ps w' g1 c g2 d :
  build w g ps = (w', g1, Ok c) → apply_pending g1 = (g2, Ok d) →
  c = (g, st_received g ++ ps) ∧ g2 = advance g (st_received g ++ ps).
Proof.
  unfold build, apply_pending. destruct (st_pending g); [done|]. intros [= <- <- <-]. cbn.
  by intros [= <- <-].
Qed.

#[export] Instance library_laws : MlsLibLaws (LB := library).
Proof.
  split; cbn.
  - intros g. unfold fits. apply Z.mod_pos_bound. lia.
  - intros g. apply roster_index.
  - done.
  - by intros w c w' m [= <- <-].
  - by intros w c l w' g [= <- <-].
  - intros g [] p; try done. intros [= <-]. eauto.
  - by intros g i p [= <-].
  - intros w g ps w' g' r. unfold build. destruct (st_pending g); by intros [= <- <- <-].
  - intros g g' e. unfold apply_pending. destruct (st_pending g); by intros [= <- _].
  - intros w g ps w' g1 c g2 d Hb Ha. destruct (build_Ok _ _ _ _ _ _ _ _ Hb Ha) as [_ ->].
    split; rewrite ?committed_all; [apply advance_epoch|done| |done]. cbn.
    rewrite roster_app, roster_blank. eexists. split; [done|]. apply roster_some.
  - intros w g ps w' g1 c g2 d w1 cl t m w2 h Hb Ha Hm.
    destruct (build_Ok _ _ _ _ _ _ _ _ Hb Ha) as [-> ->].
    apply list_elem_of_singleton in Hm as ->. by intros [= <- <-].
  - intros w g ps w' g1 c g2 d w1 f w2 f' d' Hb Ha.
    destruct (build_Ok _ _ _ _ _ _ _ _ Hb Ha) as [-> ->]. cbn.
    do 3 (case_bool_decide; [|done]). cbn. intros [= <- <- <-] _. split_and!; [done| |done].
    unfold view, advance. cbn. congruence.
  - intros w g [] w' g' d; cbn; try done. destruct (_ && _ && _); [|done].
    intros [= <- <- <-] _. apply advance_epoch.
  - intros w g [] w' g'; cbn; try done; [by destruct (_ && _ && _)|]. by intros [= <- <-].
  - intros w g b w' m w1 bl w2 h cm [= <- <-] [= <- <- <-]. split_and!; [|done..].
    apply advance_epoch.
Qed.

End RsLibrary.

(** ** Witnesses *)

Module RsSamples.
Import RsLibrary Samples.

Definition alice_id : bytes := [x61].
Definition bob_id : bytes := [x62].
Definition alice : MlsRsClient (LB := library) := mkMlsRsClient (LB := library) alice_id sample_suite.
Definition bob : MlsRsClient (LB := library) := mkMlsRsClient (LB := library) bob_id sample_suite.

Definition sample_exts : ExtensionList := Eval vm_compute in spex_extensions sample_config.

Definition alone : state := mkState 0 sample_exts [Some alice_id] [] None.
Definition both : state := mkState 1 sample_exts [Some alice_id; Some bob_id] [] None.
Definition rotated : state := mkState 2 sample_exts [Some alice_id; Some bob_id] [] None.
Definition gone : state := mkState 2 sample_exts [Some alice_id; None] [] None.

(** Mallory has proposed extensions without the configuration. *)
Definition proposed : state :=
  mkState 1 sample_exts [Some alice_id; Some bob_id] [SetsExtensions []] None.
Definition changed : state := mkState 2 [] [Some alice_id; Some bob_id] [] None.

(** A state of the library's world. *)
Definition wd (n : nat) : lib_world (MlsLib := library) := n.

(** A member in a state of the library. *)
Definition at_state (w : nat) (g : state) : lib_world (MlsLib := library) * MlsRsGroup :=
  (w, mkMlsRsGroup (LB := library) g sample_config).

(** Alice creates a group, adds Bob and rotates her keys; Bob joins and follows. *)
Lemma sample_config_wf : config_wf sample_config.
Proof. split; by unfold fits. Qed.

Lemma alice_alone_group : spex_group sample_config (at_state 1 alone).
Proof.
  apply (sg_created _ alice (λ w : lib_world (MlsLib := library), (S w, Ok (at_state 0 alone).2)) (wd 0));
    [apply sample_config_wf|reflexivity|reflexivity].
Qed.

Lemma alice_both_group : spex_group sample_config (at_state 3 both).
Proof. exact (sg_committed _ _ _ _ _ alice_alone_group (own_add bob) eq_refl). Qed.

Lemma bob_both_group : spex_group sample_config (at_state 0 both).
Proof.
  refine (sg_joined _ _ _ _ _ bob (MWelcome both) None (wd 0) (wd 0) _ alice_alone_group
    (own_add bob) eq_refl _ eq_refl). left.
Qed.

End RsSamples.

Import RsLibrary RsSamples Samples.

Lemma spex_members_keep_config_witness :
  validate_cfg_hash_proto_suite (at_state 0 rotated).2 = Ok tt ∧
  public_config sample_config = public_config sample_config.
Proof.
  apply (spex_members_keep_config (LB := library) sample_config (at_state 0 rotated)).
  exact (sg_followed _ _ _ _ _ (at_state 0 both) _ true alice_both_group own_update eq_refl
    bob_both_group eq_refl eq_refl).
Defined.

Lemma created_group_outcome_witness :
  ∃ run, create_group alice sample_config = Some run ∧
    ∀ w' g, run (wd 1) = (w', Ok g) → member_identities g = [alice_id].
Proof.
  destruct (created_group_outcome sample_suite alice_id (wd 0) (wd 1) alice sample_config eq_refl)
    as (run & Hr & Hw).
  exists run. split; [exact Hr|]. intros w' g Hg.
  destruct (Hw (wd 1)) as (_ & _ & _ & Ho).
  destruct (Ho w' g sample_config_wf Hg) as (_ & _ & _ & _ & _ & _ & Hm & _). exact Hm.
Defined.

Lemma added_member_listed_witness :
  bob_id ∈ member_identities (at_state 3 both).2.
Proof. exact (proj1 (added_member_listed bob (at_state 1 alone) (at_state 3 both) _ eq_refl)). Defined.

Lemma removal_outcome_witness : epoch (at_state 4 gone).2 = 2.
Proof.
  exact (proj1 (proj2 (removal_outcome bob_id (at_state 3 both) (at_state 4 gone) _ eq_refl)
    _ eq_refl eq_refl)).
Defined.

Lemma refused_proposal_committed_witness :
  ∃ s1, process_commit_message (MProposal (SetsExtensions [])) (at_state 3 both)
        = (s1, Err (LibraryError "unexpected MLS message type")) ∧
    ∃ s2 c, self_update s1 = (s2, Ok c) ∧ validate_cfg_hash_proto_suite s2.2 ≠ Ok tt.
Proof.
  destruct (refused_proposal_committed (at_state 3 both) (MProposal (SetsExtensions [])) (wd 3)
    proposed (SetsExtensions []) []) as (s1 & Hs1 & _ & Hu); [reflexivity..|].
  exists s1. split; [exact Hs1|].
  assert (s1 = at_state 3 proposed) as -> by exact (eq_sym (f_equal fst Hs1)).
  exists (at_state 4 changed), (proposed, [SetsExtensions []]). split; [reflexivity|].
  rewrite (proj2 (proj2 (Hu (at_state 4 changed) (proposed, [SetsExtensions []]) eq_refl))). done.
Defined.
