(* ===== verification/Client.v ===== *)
(** * The client: identities, contacts, requests (spex-client/src/lib.rs)

    The local state of a client and its operations on identities, the
    checkpoint log, contact cards, access requests and grants.  Threads and
    messages are in [Threads].  The state is passed explicitly; an operation
    that can fail half-way returns the state it leaves as well.  The clock and
    the operating system's generator are arguments: the value each call of
    [now_unix] or [SysRng] returns.  A [HashMap] is a [gmap].

    serde_json is a parameter, a writer and a reader for the two token types.

    The theorems are in [ClientFacts]. *)
From Stdlib Require Import ZArith Lia Ascii Strings.Byte.
From stdpp Require Import base list gmap strings sorting numbers.
From S2P Require Import Prelude External Cbor CborFacts Types Core Log Transport Ingest Mls.

#[local] Open Scope Z_scope.

(** ** Errors *)

Inductive ClientError : Type :=
| ClIo (e : string)
| ClJson (e : string)
| ClCbor (e : string)
| ClHex (e : string)
| ClMissingIdentity
| ClInvalidCard
| ClSignatureInvalid
| ClRequestTargetMismatch
| ClRequestStale
| ClRequestReplay
| ClThreadNotFound
| ClTransport (e : string)
| ClLog (e : string)
| ClMls (e : string)
| ClCrypto (e : string)
| ClInvalidPuzzle
| ClGrantInvalid
| ClGrantExpired
| ClInvalidAeadPayload
| ClMissingSignature
| ClUnknownSender (s : string)
| ClUnauthorizedSender
| ClInvalidMessageEncoding
| ClPermissionDenied
| ClRevokedKeyNotFound
| ClRecoveryKeyInvalidOrExpired
| ClCore (e : string)
| ClStateEncryption (e : string).

Inductive ClientFailureReason : Type :=
| FrGrantExpired
| FrPowTooWeak
| FrCfgMismatch
| FrEpochMismatch
| FrKeyChanged
| FrNetworkError
| FrProtocolError
| FrSecurityViolation
| FrInvalidFormat
| FrInternalError
| FrUnknown.

Definition failure_reason (err : ClientError) : ClientFailureReason :=
  match err with
  | ClIo _ | ClTransport _ => FrNetworkError
  | ClJson _ | ClCbor _ | ClHex _ | ClInvalidCard | ClInvalidMessageEncoding => FrInvalidFormat
  | ClSignatureInvalid | ClMissingSignature | ClUnauthorizedSender | ClRequestTargetMismatch
  | ClRequestStale | ClRequestReplay | ClGrantInvalid => FrSecurityViolation
  | ClGrantExpired => FrGrantExpired
  | ClInvalidPuzzle => FrPowTooWeak
  | ClMls msg =>
      if str_contains msg "epoch" then FrEpochMismatch
      else if str_contains msg "config" || str_contains msg "cfg" then FrCfgMismatch
      else FrProtocolError
  | ClCore _ | ClCrypto _ | ClStateEncryption _ | ClInvalidAeadPayload => FrProtocolError
  | ClMissingIdentity | ClThreadNotFound | ClUnknownSender _ | ClLog _ => FrInternalError
  | ClPermissionDenied | ClRevokedKeyNotFound | ClRecoveryKeyInvalidOrExpired =>
      FrSecurityViolation
  end.

(** [From<SpexError>]. *)
Definition client_core {A} (r : result SpexError A) : result ClientError A :=
  map_err (λ e, ClCore (spex_error_to_string e)) r.

Definition client_log {A} (r : result SpexError A) : result ClientError A :=
  map_err (λ e, ClLog (spex_error_to_string e)) r.

(** ** State *)

Record IdentityState := mkIdentityState {
  id_user_id_hex : string;
  id_signing_key_hex : string;
  id_verifying_key_hex : string;
  id_device_id_hex : string;
  id_device_nonce_hex : string;
}.

Record ContactState := mkContactState {
  ct_user_id_hex : string;
  ct_verifying_key_hex : string;
  ct_fingerprint : string;
  ct_device_id_hex : string;
  ct_last_seen_at : Z;
}.

Record MessageState := mkMessageState {
  msg_sender_user_id : string;
  msg_text : string;
  msg_sent_at : Z;
}.

Record ThreadState := mkThreadState {
  th_thread_id_hex : string;
  th_members : list string;
  th_created_at : Z;
  th_messages : list MessageState;
  th_proto_major : Z;
  th_proto_minor : Z;
  th_ciphersuite_id : Z;
  th_cfg_hash_id : Z;
  th_cfg_hash_hex : string;
  th_flags : Z;
  th_initial_secret_hex : string;
  th_next_seq : Z;
  th_epoch : Z;
}.

Record PuzzleToken := mkPuzzleToken {
  pt_recipient_key : string;
  pt_puzzle_input : string;
  pt_puzzle_output : string;
  pt_params : PowParamsPayload;
}.

Record RequestToken := mkRequestToken {
  rq_from_user_id : string;
  rq_to_user_id : string;
  rq_role : Z;
  rq_created_at : Z;
  rq_puzzle : option PuzzleToken;
}.

Record RequestState := mkRequestState {
  rs_token_base64 : string;
  rs_to_user_id : string;
  rs_role : Z;
  rs_created_at : Z;
  rs_puzzle : option PuzzleToken;
}.

Record GrantState := mkGrantState {
  gst_token_base64 : string;
  gst_from_user_id : string;
  gst_role : Z;
  gst_created_at : Z;
  gst_signature_base64 : option string;
}.

Record SignedGrantToken := mkSignedGrantToken {
  sg_user_id : string;
  sg_role : Z;
  sg_flags : option Z;
  sg_expires_at : option Z;
  sg_verifying_key : string;
  sg_signature : string;
}.

Record InboxItem := mkInboxItem { ii_received_at : Z; ii_payload_base64 : string }.

Record TransportChunkDescriptorState := mkTransportChunkDescriptorState {
  tds_index : Z;
  tds_hash_hex : string;
}.

Record TransportManifestState := mkTransportManifestState {
  tms_total_len : Z;
  tms_chunks : list TransportChunkDescriptorState;
}.

Record TransportChunkState := mkTransportChunkState {
  tcs_index : Z;
  tcs_hash_hex : string;
  tcs_data_base64 : string;
}.

Record TransportOutboxItem := mkTransportOutboxItem {
  ob_thread_id_hex : string;
  ob_manifest : TransportManifestState;
  ob_chunks : list TransportChunkState;
  ob_published_at : Z;
}.

Record KeyRotationState := mkKeyRotationState {
  kr_rotated_at : Z;
  kr_old_verifying_key_hex : string;
  kr_new_verifying_key_hex : string;
}.

(** [checkpoint_log] is the base64 text of [CheckpointLogState]. *)
Record LocalState := mkLocalState {
  ls_identity : option IdentityState;
  ls_contacts : gmap string ContactState;
  ls_threads : gmap string ThreadState;
  ls_inbox : list InboxItem;
  ls_requests : list RequestState;
  ls_grants : list GrantState;
  ls_checkpoint_log : string;
  ls_transport_outbox : list TransportOutboxItem;
  ls_p2p_inbox : gmap string (list string);
  ls_transport_gossip : gmap string (list string);
  ls_transport_chunk_store : gmap string string;
  ls_key_rotations : list KeyRotationState;
  ls_accepted_request_ids : list string;
}.

Definition local_state_default : LocalState :=
  mkLocalState None ∅ ∅ [] [] [] "" [] ∅ ∅ ∅ [] [].

(** Field assignments. *)
Definition set_identity (i : option IdentityState) (s : LocalState) : LocalState :=
  mkLocalState i (ls_contacts s) (ls_threads s) (ls_inbox s) (ls_requests s) (ls_grants s)
    (ls_checkpoint_log s) (ls_transport_outbox s) (ls_p2p_inbox s) (ls_transport_gossip s)
    (ls_transport_chunk_store s) (ls_key_rotations s) (ls_accepted_request_ids s).
Definition set_contacts (c : gmap string ContactState) (s : LocalState) : LocalState :=
  mkLocalState (ls_identity s) c (ls_threads s) (ls_inbox s) (ls_requests s) (ls_grants s)
    (ls_checkpoint_log s) (ls_transport_outbox s) (ls_p2p_inbox s) (ls_transport_gossip s)
    (ls_transport_chunk_store s) (ls_key_rotations s) (ls_accepted_request_ids s).
Definition set_threads (t : gmap string ThreadState) (s : LocalState) : LocalState :=
  mkLocalState (ls_identity s) (ls_contacts s) t (ls_inbox s) (ls_requests s) (ls_grants s)
    (ls_checkpoint_log s) (ls_transport_outbox s) (ls_p2p_inbox s) (ls_transport_gossip s)
    (ls_transport_chunk_store s) (ls_key_rotations s) (ls_accepted_request_ids s).
Definition set_requests (r : list RequestState) (s : LocalState) : LocalState :=
  mkLocalState (ls_identity s) (ls_contacts s) (ls_threads s) (ls_inbox s) r (ls_grants s)
    (ls_checkpoint_log s) (ls_transport_outbox s) (ls_p2p_inbox s) (ls_transport_gossip s)
    (ls_transport_chunk_store s) (ls_key_rotations s) (ls_accepted_request_ids s).
Definition set_grants (g : list GrantState) (s : LocalState) : LocalState :=
  mkLocalState (ls_identity s) (ls_contacts s) (ls_threads s) (ls_inbox s) (ls_requests s) g
    (ls_checkpoint_log s) (ls_transport_outbox s) (ls_p2p_inbox s) (ls_transport_gossip s)
    (ls_transport_chunk_store s) (ls_key_rotations s) (ls_accepted_request_ids s).
Definition set_checkpoint_log (l : string) (s : LocalState) : LocalState :=
  mkLocalState (ls_identity s) (ls_contacts s) (ls_threads s) (ls_inbox s) (ls_requests s)
    (ls_grants s) l (ls_transport_outbox s) (ls_p2p_inbox s) (ls_transport_gossip s)
    (ls_transport_chunk_store s) (ls_key_rotations s) (ls_accepted_request_ids s).
Definition set_transport_outbox (o : list TransportOutboxItem) (s : LocalState) : LocalState :=
  mkLocalState (ls_identity s) (ls_contacts s) (ls_threads s) (ls_inbox s) (ls_requests s)
    (ls_grants s) (ls_checkpoint_log s) o (ls_p2p_inbox s) (ls_transport_gossip s)
    (ls_transport_chunk_store s) (ls_key_rotations s) (ls_accepted_request_ids s).
Definition set_p2p_inbox (p : gmap string (list string)) (s : LocalState) : LocalState :=
  mkLocalState (ls_identity s) (ls_contacts s) (ls_threads s) (ls_inbox s) (ls_requests s)
    (ls_grants s) (ls_checkpoint_log s) (ls_transport_outbox s) p (ls_transport_gossip s)
    (ls_transport_chunk_store s) (ls_key_rotations s) (ls_accepted_request_ids s).
Definition set_transport_gossip (g : gmap string (list string)) (s : LocalState) : LocalState :=
  mkLocalState (ls_identity s) (ls_contacts s) (ls_threads s) (ls_inbox s) (ls_requests s)
    (ls_grants s) (ls_checkpoint_log s) (ls_transport_outbox s) (ls_p2p_inbox s) g
    (ls_transport_chunk_store s) (ls_key_rotations s) (ls_accepted_request_ids s).
Definition set_transport_chunk_store (c : gmap string string) (s : LocalState) : LocalState :=
  mkLocalState (ls_identity s) (ls_contacts s) (ls_threads s) (ls_inbox s) (ls_requests s)
    (ls_grants s) (ls_checkpoint_log s) (ls_transport_outbox s) (ls_p2p_inbox s)
    (ls_transport_gossip s) c (ls_key_rotations s) (ls_accepted_request_ids s).
Definition set_key_rotations (k : list KeyRotationState) (s : LocalState) : LocalState :=
  mkLocalState (ls_identity s) (ls_contacts s) (ls_threads s) (ls_inbox s) (ls_requests s)
    (ls_grants s) (ls_checkpoint_log s) (ls_transport_outbox s) (ls_p2p_inbox s)
    (ls_transport_gossip s) (ls_transport_chunk_store s) k (ls_accepted_request_ids s).
Definition set_accepted_request_ids (a : list string) (s : LocalState) : LocalState :=
  mkLocalState (ls_identity s) (ls_contacts s) (ls_threads s) (ls_inbox s) (ls_requests s)
    (ls_grants s) (ls_checkpoint_log s) (ls_transport_outbox s) (ls_p2p_inbox s)
    (ls_transport_gossip s) (ls_transport_chunk_store s) (ls_key_rotations s) a.

(** ** Policies *)

Definition REQUEST_POW_CONTEXT : bytes := as_bytes "spex.request.pow.v1".
Definition DEFAULT_REQUEST_MAX_AGE_SECONDS : Z := 5 * 60.
Definition DEFAULT_REQUEST_FUTURE_SKEW_SECONDS : Z := 30.

(** [PowParamsPayload] of the client has the fields of the one in [Ingest]. *)
Definition payload_of_params (p : PowParams) : PowParamsPayload :=
  mkPowParamsPayload (memory_kib p) (iterations p) (parallelism p) (output_len p).

Definition client_pow_minimum : PowParamsPayload := payload_of_params pow_minimum.

Record RequestPowPolicy := mkRequestPowPolicy {
  rp_requires_pow : bool;
  rp_minimum_params : PowParamsPayload;
  rp_max_age_seconds : Z;
  rp_max_future_skew_seconds : Z;
}.

Definition request_policy_default : RequestPowPolicy :=
  mkRequestPowPolicy true client_pow_minimum DEFAULT_REQUEST_MAX_AGE_SECONDS
    DEFAULT_REQUEST_FUTURE_SKEW_SECONDS.

(** [bytes.try_into()] for an array of [N] bytes. *)
Definition try_into_fixed (N : nat) (err : ClientError) (bs : bytes) : result ClientError bytes :=
  if decide (length bs = N) then Ok bs else Err err.

(** serde_json on the two token types. *)
Class TokenJson := {
  request_to_json : RequestToken → result string bytes;
  request_from_json : bytes → result string RequestToken;
  grant_to_json : SignedGrantToken → result string bytes;
}.

Class TokenJsonLaws `{TokenJson} : Prop :=
  request_json_roundtrip : ∀ r b, request_to_json r = Ok b → request_from_json b = Ok r.

Section client.
Context `{Sha256} `{Ed25519} `{Argon2} `{Hex} `{Base64} `{Ciborium} `{LogSerde} `{TokenJson}.

Definition client_hex (s : string) : result ClientError bytes := map_err ClHex (hex_decode s).

Definition fingerprint_hex (bs : bytes) : string := hex_encode (hash_bytes HashSha256 bs).

(** ** Checkpoint log *)

Definition load_checkpoint_log (s : LocalState) : result ClientError CheckpointLog :=
  if decide (ls_checkpoint_log s = ""%string) then Ok log_new
  else client_log (import_base64 (ls_checkpoint_log s)).

Definition save_checkpoint_log (s : LocalState) (log : CheckpointLog)
    : result ClientError LocalState :=
  let? encoded := client_log (export_base64 log) in
  Ok (set_checkpoint_log encoded s).

Definition create_recovery_entry (identity : IdentityState) (random : bytes) (now : Z)
    : result ClientError RecoveryKey :=
  let? user_id := client_hex (id_user_id_hex identity) in
  Ok {| rk_user_id := user_id; rk_recovery_key := random; rk_issued_at := now |}.

Definition create_checkpoint_entry (identity : IdentityState) (now : Z)
    : result ClientError KeyCheckpoint :=
  let? user_id := client_hex (id_user_id_hex identity) in
  let? verifying_key := client_hex (id_verifying_key_hex identity) in
  let? device_id := client_hex (id_device_id_hex identity) in
  Ok {| kc_user_id := user_id; kc_verifying_key := verifying_key; kc_device_id := device_id;
        kc_issued_at := now |}.

Definition create_revocation_entry (identity : IdentityState) (revoked_key_hex : string)
    (recovery_hex reason : option string) (now : Z) : result ClientError RevocationDeclaration :=
  let? revoked_key := client_hex revoked_key_hex in
  let revoked_key_hash := hash_bytes HashSha256 revoked_key in
  let? recovery_key_hash :=
    match recovery_hex with
    | Some value =>
        let? k := client_hex value in
        Ok (Some (hash_bytes HashSha256 k))
    | None => Ok None
    end in
  let? user_id := client_hex (id_user_id_hex identity) in
  Ok {| rv_user_id := user_id; rv_revoked_key_hash := revoked_key_hash; rv_revoked_at := now;
        rv_recovery_key_hash := recovery_key_hash; rv_reason := reason |}.

Definition key_issued (entry : RevocationDeclaration) (candidate : CheckpointEntry) : bool :=
  match candidate with
  | CKey key =>
      bool_decide (kc_user_id key = rv_user_id entry) &&
      bool_decide (hash_bytes HashSha256 (kc_verifying_key key) = rv_revoked_key_hash entry)
  | _ => false
  end.

Definition same_revocation (entry : RevocationDeclaration) (candidate : CheckpointEntry) : bool :=
  match candidate with
  | CRevocation existing =>
      bool_decide (rv_user_id existing = rv_user_id entry) &&
      bool_decide (rv_revoked_key_hash existing = rv_revoked_key_hash entry)
  | _ => false
  end.

Definition recovery_valid (entry : RevocationDeclaration) (recovery_hash : bytes)
    (now max_age : Z) (candidate : CheckpointEntry) : bool :=
  match candidate with
  | CRecovery recovery =>
      bool_decide (rk_user_id recovery = rv_user_id entry) &&
      bool_decide (hash_bytes HashSha256 (rk_recovery_key recovery) = recovery_hash) &&
      (saturating_sub now (rk_issued_at recovery) <=? max_age)
  | _ => false
  end.

Definition append_revocation_entry_checked (log : CheckpointLog) (identity : IdentityState)
    (entry : RevocationDeclaration) (recovery_max_age_seconds now : Z)
    : result ClientError (CheckpointLog * bool) :=
  let? identity_user_id := client_hex (id_user_id_hex identity) in
  if negb (bool_decide (rv_user_id entry = identity_user_id)) then Err ClPermissionDenied
  else if negb (existsb (key_issued entry) (entries log)) then Err ClRevokedKeyNotFound
  else if existsb (same_revocation entry) (entries log) then Ok (log, false)
  else
    let append :=
      let? log' := client_log (log_append log (CRevocation entry)) in
      Ok (log', true) in
    match rv_recovery_key_hash entry with
    | Some recovery_hash =>
        if negb (existsb (recovery_valid entry recovery_hash now recovery_max_age_seconds)
                   (entries log))
        then Err ClRecoveryKeyInvalidOrExpired
        else append
    | None => append
    end.

Definition log_consistency (local remote : CheckpointLog) : LogConsistency :=
  compare_with local remote.

(** ** Identities *)

Definition create_identity (seed user_id device_id device_nonce : bytes) : IdentityState :=
  mkIdentityState (hex_encode user_id) (hex_encode seed)
    (hex_encode (ed_verifying_key seed)) (hex_encode device_id) (hex_encode device_nonce).

Definition create_identity_in_state (s : LocalState) (seed user_id device_id device_nonce : bytes)
    : LocalState * IdentityState :=
  let identity := create_identity seed user_id device_id device_nonce in
  (set_identity (Some identity) s, identity).

Definition rotate_identity (identity : IdentityState) (seed device_nonce : bytes)
    : IdentityState :=
  mkIdentityState (id_user_id_hex identity) (hex_encode seed)
    (hex_encode (ed_verifying_key seed)) (id_device_id_hex identity) (hex_encode device_nonce).

Definition signing_key_from_hex (signing_key_hex : string) : result ClientError bytes :=
  let? key_bytes := client_hex signing_key_hex in
  try_into_fixed 32 ClSignatureInvalid key_bytes.

(** [now1] and [now2] are the two readings of the clock. *)
Definition append_rotation_checkpoint (s : LocalState) (identity : IdentityState)
    (old_verifying_key_hex : string) (now1 now2 : Z) : result ClientError LocalState :=
  let? revoked_key := client_hex old_verifying_key_hex in
  let revoked_key_hash := hash_bytes HashSha256 revoked_key in
  let? user_id := client_hex (id_user_id_hex identity) in
  let revocation := {| rv_user_id := user_id; rv_revoked_key_hash := revoked_key_hash;
                       rv_revoked_at := now1; rv_recovery_key_hash := None;
                       rv_reason := Some "key rotation"%string |} in
  let? verifying_key := client_hex (id_verifying_key_hex identity) in
  let? device_id := client_hex (id_device_id_hex identity) in
  let checkpoint := {| kc_user_id := user_id; kc_verifying_key := verifying_key;
                       kc_device_id := device_id; kc_issued_at := now2 |} in
  let? log := load_checkpoint_log s in
  let? log := client_log (log_append log (CRevocation revocation)) in
  let? log := client_log (log_append log (CKey checkpoint)) in
  save_checkpoint_log s log.

(** The state also when the log cannot be written: the identity is rotated and
    the rotation recorded before the log is touched. *)
Definition rotate_identity_in_state (s : LocalState) (seed device_nonce : bytes)
    (now0 now1 now2 : Z) : LocalState * result ClientError (string * IdentityState) :=
  match ls_identity s with
  | None => (s, Err ClMissingIdentity)
  | Some identity =>
      let old_verifying_key_hex := id_verifying_key_hex identity in
      let rotated := rotate_identity identity seed device_nonce in
      let s1 := set_identity (Some rotated) s in
      let s2 := set_key_rotations (ls_key_rotations s1 ++
                  [mkKeyRotationState now0 old_verifying_key_hex (id_verifying_key_hex rotated)])
                  s1 in
      match append_rotation_checkpoint s2 rotated old_verifying_key_hex now1 now2 with
      | Ok s3 => (s3, Ok (old_verifying_key_hex, rotated))
      | Err e => (s2, Err e)
      end
  end.

(** ** Contact cards *)

Definition set_card_signature (c : ContactCard) (sig : option bytes) : ContactCard :=
  mkContactCard (card_user_id c) (card_verifying_key c) (card_device_id c) (card_device_nonce c)
    (card_issued_at c) (card_invite c) sig (card_extensions c).

Definition sign_contact_card (identity : IdentityState) (card : ContactCard)
    : result ClientError bytes :=
  let? signing_key := signing_key_from_hex (id_signing_key_hex identity) in
  let? payload := client_core (ctap2_bytes_of card) in
  let digest := hash_bytes HashSha256 payload in
  Ok (ed25519_sign_hash signing_key digest).

Definition build_contact_card (identity : IdentityState) (now : Z)
    : result ClientError ContactCard :=
  let? user_id := client_hex (id_user_id_hex identity) in
  let? verifying_key := client_hex (id_verifying_key_hex identity) in
  let? device_id := client_hex (id_device_id_hex identity) in
  let? device_nonce := client_hex (id_device_nonce_hex identity) in
  let card := mkContactCard user_id verifying_key device_id device_nonce now None None [] in
  let? signature := sign_contact_card identity card in
  Ok (set_card_signature card (Some signature)).

Definition verify_contact_card_signature (card : ContactCard) (signature : bytes)
    : result ClientError unit :=
  let? verifying_key := try_into_fixed 32 ClSignatureInvalid (card_verifying_key card) in
  let? _ := map_err (λ _, ClSignatureInvalid) (ed_key_from_bytes verifying_key) in
  let? payload := client_core (ctap2_bytes_of (set_card_signature card None)) in
  let digest := hash_bytes HashSha256 payload in
  let? signature := try_into_fixed 64 ClSignatureInvalid signature in
  map_err (λ _, ClSignatureInvalid) (ed25519_verify_hash verifying_key digest signature).

Definition expect_bytes (value : Value) : result ClientError bytes :=
  match value with VBytes b => Ok b | _ => Err ClInvalidCard end.

Definition expect_u64 (value : Value) : result ClientError Z :=
  match value with
  | VInteger n => if fits_b 64 n then Ok n else Err ClInvalidCard
  | _ => Err ClInvalidCard
  end.

Definition card_default : ContactCard := mkContactCard [] [] [] [] 0 None None [].

(** One turn of the loop of [parse_contact_card]. *)
Definition card_entry (card : ContactCard) (kv : Value * Value) : result ClientError ContactCard :=
  let '(mkContactCard u v d n t i g x) := card in
  match kv.1 with
  | VInteger key =>
      let value := kv.2 in
      if key =? 0 then let? b := expect_bytes value in Ok (mkContactCard b v d n t i g x)
      else if key =? 1 then let? b := expect_bytes value in Ok (mkContactCard u b d n t i g x)
      else if key =? 2 then let? b := expect_bytes value in Ok (mkContactCard u v b n t i g x)
      else if key =? 3 then let? b := expect_bytes value in Ok (mkContactCard u v d b t i g x)
      else if key =? 4 then let? z := expect_u64 value in Ok (mkContactCard u v d n z i g x)
      else if key =? 6 then let? b := expect_bytes value in Ok (mkContactCard u v d n t i (Some b) x)
      else Ok card
  | _ => Ok card
  end.

Definition parse_contact_card (bs : bytes) : result ClientError ContactCard :=
  let? value := map_err ClCbor (cib_from_reader bs) in
  match value with
  | VMap map =>
      let? card := try_fold card_entry card_default map in
      if bool_decide (card_user_id card = []) || bool_decide (card_verifying_key card = [])
      then Err ClInvalidCard
      else Ok card
  | _ => Err ClInvalidCard
  end.

Definition create_contact_card_payload (identity : IdentityState) (now : Z)
    : result ClientError string :=
  let? card := build_contact_card identity now in
  let? card_bytes := client_core (ctap2_bytes_of card) in
  Ok (b64_encode card_bytes).

Definition redeem_contact_card_payload (payload : string) : result ClientError ContactCard :=
  let? card_bytes := map_err (λ _, ClInvalidCard) (b64_decode payload) in
  let? card := parse_contact_card card_bytes in
  match card_signature card with
  | Some signature =>
      let? _ := verify_contact_card_signature card signature in
      Ok card
  | None => Ok card
  end.

Record ContactRedeemOutcome := mkContactRedeemOutcome {
  cr_contact : ContactState;
  cr_previous_fingerprint : option string;
  cr_key_changed : bool;
}.

Definition redeem_failure_reason (o : ContactRedeemOutcome) : option ClientFailureReason :=
  if cr_key_changed o then Some FrKeyChanged else None.

Definition redeem_contact_card_to_state (s : LocalState) (payload : string) (now : Z)
    : result ClientError (LocalState * ContactRedeemOutcome) :=
  let? card := redeem_contact_card_payload payload in
  let user_id_hex := hex_encode (card_user_id card) in
  let verifying_hex := hex_encode (card_verifying_key card) in
  let fingerprint := fingerprint_hex (card_verifying_key card) in
  let previous := option_map ct_fingerprint (ls_contacts s !! user_id_hex) in
  let key_changed := match previous with
                     | Some existing => negb (bool_decide (existing = fingerprint))
                     | None => false
                     end in
  let contact := mkContactState user_id_hex verifying_hex fingerprint
                   (hex_encode (card_device_id card)) now in
  Ok (set_contacts (<[user_id_hex := contact]> (ls_contacts s)) s,
      mkContactRedeemOutcome contact previous key_changed).

(** ** Grants *)

Definition decode_base64_field (value : string) : result ClientError bytes :=
  map_err (λ _, ClGrantInvalid) (b64_decode value).

Definition decode_fixed_base64 (N : nat) (value : string) : result ClientError bytes :=
  let? bs := decode_base64_field value in
  try_into_fixed N ClGrantInvalid bs.

Definition validate_signed_grant (grant : SignedGrantToken) (now : Z)
    : result ClientError GrantToken :=
  let? user_id := decode_base64_field (sg_user_id grant) in
  let? verifying_key := decode_fixed_base64 32 (sg_verifying_key grant) in
  let? signature := decode_fixed_base64 64 (sg_signature grant) in
  let? _ := map_err (λ _, ClGrantInvalid) (ed_key_from_bytes verifying_key) in
  let token := mkGrantToken user_id (sg_role grant) (sg_flags grant) (sg_expires_at grant) [] in
  match validate_grant_token now token verifying_key signature with
  | Ok _ => Ok token
  | Err GrantInvalid => Err ClGrantInvalid
  | Err GrantExpired => Err ClGrantExpired
  | Err err => Err (ClCrypto (validation_error_to_string err))
  end.

Definition sign_grant (identity : IdentityState) (grant : GrantToken)
    : result ClientError SignedGrantToken :=
  let? signing_key := signing_key_from_hex (id_signing_key_hex identity) in
  let verifying_key := ed25519_verify_key signing_key in
  let? hash := client_core (hash_ctap2_cbor_value HashSha256 grant) in
  let signature := ed25519_sign_hash signing_key hash in
  Ok (mkSignedGrantToken (b64_encode (grant_user_id grant)) (grant_role grant)
        (grant_flags grant) (grant_expires_at grant) (b64_encode verifying_key)
        (b64_encode signature)).

(** ** Requests *)

Definition parse_request_token (token : string) : result ClientError RequestToken :=
  let? payload := map_err (λ _, ClInvalidCard) (b64_decode token) in
  map_err ClJson (request_from_json payload).

Definition build_request_puzzle_with_binding (recipient_key request_binding : bytes)
    (os_rng : Z → bytes) : result ClientError PuzzleToken :=
  let params := pow_default in
  let nonce := generate_pow_nonce os_rng pow_nonce_default in
  let puzzle_input := build_puzzle_input nonce request_binding in
  let? puzzle_output := map_err (λ e, ClCrypto (spex_error_to_string e))
    (generate_puzzle_output recipient_key puzzle_input params) in
  Ok (mkPuzzleToken (b64_encode recipient_key) (b64_encode puzzle_input)
        (b64_encode puzzle_output) (payload_of_params params)).

Definition build_request_puzzle (recipient_key : bytes) (os_rng : Z → bytes)
    : result ClientError PuzzleToken :=
  build_request_puzzle_with_binding recipient_key recipient_key os_rng.

(** [puzzle_input.len() == nonce_len + binding.len()] and the tail is the binding. *)
Definition input_bound (puzzle_input binding : bytes) : bool :=
  (zlen puzzle_input =? saturating_add 64 (nonce_len pow_nonce_default) (zlen binding)) &&
  bool_decide (drop (Z.to_nat (nonce_len pow_nonce_default)) puzzle_input = binding).

Definition validate_request_puzzle_internal (puzzle : PuzzleToken) (recipient_key : bytes)
    (minimum_params : PowParamsPayload) (expected_binding : option bytes)
    : result ClientError unit :=
  let? recipient_bytes := map_err (λ _, ClInvalidPuzzle) (b64_decode (pt_recipient_key puzzle)) in
  if negb (bool_decide (recipient_bytes = recipient_key)) then Err ClInvalidPuzzle
  else
    let? puzzle_input := map_err (λ _, ClInvalidPuzzle) (b64_decode (pt_puzzle_input puzzle)) in
    let? puzzle_output := map_err (λ _, ClInvalidPuzzle) (b64_decode (pt_puzzle_output puzzle)) in
    if match expected_binding with
       | Some binding => negb (input_bound puzzle_input binding)
       | None => false
       end
    then Err ClInvalidPuzzle
    else
      match validate_pow_puzzle recipient_key puzzle_input puzzle_output
              (to_params (pt_params puzzle)) (to_params minimum_params) with
      | Ok _ => Ok tt
      | Err PowTooWeak | Err PowInvalid => Err ClInvalidPuzzle
      | Err err => Err (ClCrypto (validation_error_to_string err))
      end.

Definition validate_request_puzzle_with_policy (puzzle : PuzzleToken) (recipient_key : bytes)
    (minimum_params : PowParamsPayload) : result ClientError unit :=
  validate_request_puzzle_internal puzzle recipient_key minimum_params None.

Definition validate_request_puzzle (puzzle : PuzzleToken) (recipient_key : bytes)
    : result ClientError unit :=
  validate_request_puzzle_with_policy puzzle recipient_key client_pow_minimum.

Definition build_request_pow_binding (from_user_id_hex to_user_id_hex : string)
    (role created_at : Z) : result ClientError bytes :=
  let? from_user_id := client_hex from_user_id_hex in
  let? to_user_id := client_hex to_user_id_hex in
  if negb (zlen from_user_id =? 32) || negb (zlen to_user_id =? 32) then Err ClInvalidPuzzle
  else Ok (REQUEST_POW_CONTEXT ++ from_user_id ++ to_user_id ++ to_be_bytes 8 role ++
           to_be_bytes 8 created_at).

Definition validate_request_freshness (request : RequestToken) (policy : RequestPowPolicy)
    (now : Z) : result ClientError unit :=
  if (saturating_add 64 now (rp_max_future_skew_seconds policy) <? rq_created_at request)
     || (rp_max_age_seconds policy <? saturating_sub now (rq_created_at request))
  then Err ClRequestStale
  else Ok tt.

Definition request_replay_id (request : RequestToken) : result ClientError string :=
  let? normalized := map_err ClJson (request_to_json request) in
  Ok (hex_encode (hash_bytes HashSha256 normalized)).

Definition create_request_payload (identity : IdentityState) (to_user_id_hex : string)
    (role : Z) (os_rng : Z → bytes) (now : Z) : result ClientError (RequestToken * string) :=
  let created_at := now in
  let? recipient_key := client_hex to_user_id_hex in
  let? request_binding :=
    build_request_pow_binding (id_user_id_hex identity) to_user_id_hex role created_at in
  let? puzzle := build_request_puzzle_with_binding recipient_key request_binding os_rng in
  let? _ := validate_request_puzzle_internal puzzle recipient_key client_pow_minimum
              (Some request_binding) in
  let request := mkRequestToken (id_user_id_hex identity) to_user_id_hex role created_at
                   (Some puzzle) in
  let? payload := map_err ClJson (request_to_json request) in
  Ok (request, b64_encode payload).

Definition clone_identity_from_state (s : LocalState) : result ClientError IdentityState :=
  ok_or (ls_identity s) ClMissingIdentity.

Definition create_request_for_state (s : LocalState) (to_user_id_hex : string) (role : Z)
    (os_rng : Z → bytes) (now : Z) : result ClientError (LocalState * (RequestToken * string)) :=
  let? identity := clone_identity_from_state s in
  let? rt := create_request_payload identity to_user_id_hex role os_rng now in
  let '(request, token) := rt in
  Ok (set_requests (ls_requests s ++
        [mkRequestState token to_user_id_hex role (rq_created_at request) (rq_puzzle request)]) s,
      (request, token)).

Definition accept_request_payload_with_policy (identity : IdentityState)
    (request_payload : string) (policy : RequestPowPolicy) (now : Z)
    : result ClientError (RequestToken * SignedGrantToken) :=
  let? request_token := parse_request_token request_payload in
  if negb (bool_decide (rq_to_user_id request_token = id_user_id_hex identity))
  then Err ClRequestTargetMismatch
  else
    let? _ := validate_request_freshness request_token policy now in
    let? request_binding := build_request_pow_binding (rq_from_user_id request_token)
      (rq_to_user_id request_token) (rq_role request_token) (rq_created_at request_token) in
    let? _ :=
      match rq_puzzle request_token with
      | Some puzzle =>
          let? recipient_key := client_hex (id_user_id_hex identity) in
          validate_request_puzzle_internal puzzle recipient_key (rp_minimum_params policy)
            (Some request_binding)
      | None => if rp_requires_pow policy then Err ClInvalidPuzzle else Ok tt
      end in
    let? user_id := client_hex (rq_from_user_id request_token) in
    let grant := mkGrantToken user_id (rq_role request_token) None None [] in
    let? signed_grant := sign_grant identity grant in
    Ok (request_token, signed_grant).

Definition accept_request_payload (identity : IdentityState) (request_payload : string)
    (now : Z) : result ClientError (RequestToken * SignedGrantToken) :=
  accept_request_payload_with_policy identity request_payload request_policy_default now.

(** [now'] is the reading of the clock that stamps the grant. *)
Definition accept_request_for_state_with_policy (s : LocalState) (request_payload : string)
    (policy : RequestPowPolicy) (now now' : Z)
    : result ClientError (LocalState * (RequestToken * string)) :=
  let? identity := clone_identity_from_state s in
  let? rg := accept_request_payload_with_policy identity request_payload policy now in
  let '(request_token, signed_grant) := rg in
  let? request_id := request_replay_id request_token in
  if bool_decide (request_id ∈ ls_accepted_request_ids s) then Err ClRequestReplay
  else
    let? json := map_err ClJson (grant_to_json signed_grant) in
    let grant_token := b64_encode json in
    let s1 := set_grants (ls_grants s ++
      [mkGrantState grant_token (rq_from_user_id request_token) (rq_role request_token) now'
         (Some (sg_signature signed_grant))]) s in
    let s2 := set_accepted_request_ids (ls_accepted_request_ids s1 ++ [request_id]) s1 in
    Ok (s2, (request_token, grant_token)).

Definition accept_request_for_state (s : LocalState) (request_payload : string) (now now' : Z)
    : result ClientError (LocalState * (RequestToken * string)) :=
  accept_request_for_state_with_policy s request_payload request_policy_default now now'.

End client.
