(* ===== verification/ClientFacts.v ===== *)
(** * The client: lemmas and theorems

    About the definitions of [Client].  Shown here: a request made for a
    receiver is accepted by it inside the freshness window and the grant it
    gets back validates; an accepted request is addressed to the receiver,
    fresh, and paid for by work bound to its own fields, so that a puzzle
    cannot be moved to another request; accepting the same request again is
    refused.  A contact card is redeemed with the fields it was made from, and
    a changed key is reported.  Revocations are appended once, only for keys
    the log has seen and by their owner; a rotation leaves the log extended by
    the revocation of the old key and the checkpoint of the new one.  Two
    results describe gaps: a request whose sender is spelled in another letter
    case is accepted again with the same work, and a card without a signature
    replaces a known contact's key. *)
From Stdlib Require Import ZArith Lia Ascii Strings.Byte.
From stdpp Require Import base list gmap strings sorting numbers.
From S2P Require Import Prelude External Cbor CborFacts Types Core Log Transport Ingest Mls Client.

#[local] Open Scope Z_scope.

Section requests.
Context `{SH : Sha256} `{ED : Ed25519} `{AR : Argon2} `{HX : Hex} `{B6 : Base64} `{TJ : TokenJson}.

(** ** Proof of work of a request *)

Lemma input_bound_iff input binding :
  zlen binding + 32 < 2 ^ 64 →
  input_bound input binding = true ↔
  ∃ nonce, length nonce = 32%nat ∧ input = nonce ++ binding.
Proof.
  intros Hb. unfold input_bound, saturating_add, umax. cbn [nonce_len pow_nonce_default].
  rewrite Z.min_l by (unfold zlen in *; lia). change (Z.to_nat 32) with 32%nat.
  rewrite andb_true_iff, bool_decide_eq_true, Z.eqb_eq. split.
  - intros [Hl Hd]. exists (take 32 input). rewrite <-Hd at 1. rewrite take_drop.
    split; [|done]. rewrite length_take. unfold zlen in Hl. lia.
  - intros (nonce & Hn & ->). unfold zlen. rewrite length_app, Hn, drop_app_length' by done.
    split; [lia|done].
Qed.

Lemma request_puzzle_iff puzzle rk minimum binding :
  validate_request_puzzle_internal puzzle rk minimum (Some binding) = Ok tt ↔
  ∃ input out, b64_decode (pt_recipient_key puzzle) = Ok rk ∧
    b64_decode (pt_puzzle_input puzzle) = Ok input ∧
    b64_decode (pt_puzzle_output puzzle) = Ok out ∧ input_bound input binding = true ∧
    validate_pow_puzzle rk input out (to_params (pt_params puzzle)) (to_params minimum) = Ok tt.
Proof.
  unfold validate_request_puzzle_internal. split.
  - intros Hv. destruct (b64_decode (pt_recipient_key puzzle)) as [rb|]; [|done]. cbn [map_err] in Hv.
    case_bool_decide as Hr; [|done]. cbn [negb] in Hv. subst rb.
    destruct (b64_decode (pt_puzzle_input puzzle)) as [input|]; [|done].
    destruct (b64_decode (pt_puzzle_output puzzle)) as [out|]; [|done]. cbn [map_err] in Hv.
    destruct (input_bound input binding) eqn:Eb; [|done]. cbn [negb] in Hv.
    exists input, out. repeat (split; [done|]).
    destruct (validate_pow_puzzle _ _ _ _ _) as [[]|[]]; done.
  - intros (input & out & -> & -> & -> & Hb & Hp). cbn [map_err].
    rewrite bool_decide_true by done. cbn [negb]. by rewrite Hb, Hp.
Qed.

Lemma request_binding_iff from to role created b :
  build_request_pow_binding from to role created = Ok b ↔
  ∃ f t, hex_decode from = Ok f ∧ hex_decode to = Ok t ∧ length f = 32%nat ∧ length t = 32%nat ∧
    b = REQUEST_POW_CONTEXT ++ f ++ t ++ to_be_bytes 8 role ++ to_be_bytes 8 created.
Proof.
  unfold build_request_pow_binding, client_hex. split.
  - destruct (hex_decode from) as [f|]; [|done]. destruct (hex_decode to) as [t|]; [|done].
    cbn [map_err]. destruct (zlen f =? 32) eqn:Ef; [|done]. destruct (zlen t =? 32) eqn:Et; [|done].
    cbn [negb orb]. intros Hb. exists f, t. unfold zlen in *. bool_to_prop.
    repeat split; try lia. congruence.
  - intros (f & t & -> & -> & Hf & Ht & ->). cbn [map_err]. unfold zlen. by rewrite Hf, Ht.
Qed.

Lemma request_binding_length from to role created b :
  build_request_pow_binding from to role created = Ok b → zlen b + 32 < 2 ^ 64.
Proof.
  intros (f & t & _ & _ & Hf & Ht & ->)%request_binding_iff. unfold zlen.
  rewrite !length_app, !length_to_be_bytes, Hf, Ht. cbn. lia.
Qed.

(** The binding determines sender, receiver, role and time. *)
Lemma request_binding_inj f1 t1 r1 c1 f2 t2 r2 c2 b :
  fits 64 r1 → fits 64 r2 → fits 64 c1 → fits 64 c2 →
  build_request_pow_binding f1 t1 r1 c1 = Ok b →
  build_request_pow_binding f2 t2 r2 c2 = Ok b →
  hex_decode f1 = hex_decode f2 ∧ hex_decode t1 = hex_decode t2 ∧ r1 = r2 ∧ c1 = c2.
Proof.
  intros Hr1 Hr2 Hc1 Hc2 (x1 & y1 & Ex1 & Ey1 & Lx1 & Ly1 & ->)%request_binding_iff
    (x2 & y2 & Ex2 & Ey2 & Lx2 & Ly2 & Hb)%request_binding_iff.
  apply app_inv_head in Hb.
  apply app_inj_len in Hb as [-> Hb]; [|congruence].
  apply app_inj_len in Hb as [-> Hb]; [|congruence].
  apply app_inj_len in Hb as [Hr Hc]; [|by rewrite !length_to_be_bytes].
  apply (to_be_bytes_inj 8) in Hr; [|done..]. apply (to_be_bytes_inj 8) in Hc; [|done..].
  by rewrite Ex1, Ex2, Ey1, Ey2.
Qed.

Lemma request_fresh_iff req policy now :
  fits 64 now → fits 64 (rq_created_at req) → 0 <= rp_max_age_seconds policy →
  validate_request_freshness req policy now = Ok tt ↔
  rq_created_at req <= now + rp_max_future_skew_seconds policy ∧
  now <= rq_created_at req + rp_max_age_seconds policy.
Proof.
  intros [??] [??] ?. unfold validate_request_freshness, saturating_add, saturating_sub, umax.
  destruct (_ || _) eqn:E.
  - split; [done|]. intros [??]. apply orb_true_iff in E as [E|E]; bool_to_prop; lia.
  - bool_to_prop. split; [|done]. intros _. lia.
Qed.

(** ** Acceptance *)

Lemma accept_payload_iff identity payload policy now req sg :
  accept_request_payload_with_policy identity payload policy now = Ok (req, sg) ↔
  parse_request_token payload = Ok req ∧ rq_to_user_id req = id_user_id_hex identity ∧
  validate_request_freshness req policy now = Ok tt ∧
  (∃ binding, build_request_pow_binding (rq_from_user_id req) (rq_to_user_id req) (rq_role req)
                (rq_created_at req) = Ok binding ∧
     match rq_puzzle req with
     | Some p => ∃ rk, hex_decode (id_user_id_hex identity) = Ok rk ∧
         validate_request_puzzle_internal p rk (rp_minimum_params policy) (Some binding) = Ok tt
     | None => rp_requires_pow policy = false
     end) ∧
  (∃ from, hex_decode (rq_from_user_id req) = Ok from ∧
     sign_grant identity (mkGrantToken from (rq_role req) None None []) = Ok sg).
Proof.
  unfold accept_request_payload_with_policy, client_hex. split.
  - intros Ha. destruct (parse_request_token payload) as [r|]; [|done].
    case_bool_decide as Ht; [|done]. cbn [negb] in Ha.
    destruct (validate_request_freshness _ _ _) as [[]|] eqn:Ef; [|done].
    destruct (build_request_pow_binding _ _ _ _) as [b|] eqn:Eb; [|done].
    destruct (match rq_puzzle r with Some _ => _ | None => _ end) as [[]|] eqn:Ep; [|done].
    destruct (hex_decode (rq_from_user_id r)) as [from|] eqn:Eh; [|done]. cbn [map_err] in Ha.
    destruct (sign_grant _ _) as [sg'|] eqn:Es; [|done].
    assert (r = req ∧ sg' = sg) as [-> ->] by (split; congruence).
    split; [done|]. split; [done|]. split; [done|]. split; [exists b|by exists from].
    split; [done|]. destruct (rq_puzzle req).
    + destruct (hex_decode (id_user_id_hex identity)) as [rk|]; [|done]. by exists rk.
    + by destruct (rp_requires_pow policy).
  - intros (-> & Ht & Hf & (b & Hb & Hp) & (from & Hfr & Hs)).
    rewrite bool_decide_true by done. cbn [negb]. rewrite Hf, Hb, Hfr. cbn [map_err].
    destruct (rq_puzzle req) as [p|].
    + destruct Hp as (rk & -> & Hv). cbn [map_err]. by rewrite Hv, Hs.
    + by rewrite Hp, Hs.
Qed.

Lemma accept_state_iff s payload policy now now' s' req gt :
  accept_request_for_state_with_policy s payload policy now now' = Ok (s', (req, gt)) ↔
  ∃ identity sg rid json, ls_identity s = Some identity ∧
    accept_request_payload_with_policy identity payload policy now = Ok (req, sg) ∧
    request_replay_id req = Ok rid ∧ (rid ∉ ls_accepted_request_ids s) ∧
    grant_to_json sg = Ok json ∧ gt = b64_encode json ∧
    s' = set_accepted_request_ids (ls_accepted_request_ids s ++ [rid])
           (set_grants (ls_grants s ++ [mkGrantState gt (rq_from_user_id req) (rq_role req) now'
              (Some (sg_signature sg))]) s).
Proof.
  unfold accept_request_for_state_with_policy, clone_identity_from_state. split.
  - intros Ha. destruct (ls_identity s) as [identity|]; [|done]. cbn [ok_or] in Ha.
    destruct (accept_request_payload_with_policy _ _ _ _) as [[r sg]|] eqn:Ep; [|done].
    destruct (request_replay_id r) as [rid|] eqn:Er; [|done].
    case_bool_decide as Hin; [done|]. destruct (grant_to_json sg) as [json|] eqn:Ej; [|done].
    cbn [map_err] in Ha. assert (r = req) as -> by congruence.
    exists identity, sg, rid, json. repeat (split; [done|]). injection Ha as <- <-. done.
  - intros (identity & sg & rid & json & -> & Ep & Er & Hin & Ej & -> & ->). cbn [ok_or].
    rewrite Ep, Er. rewrite bool_decide_false by done. by rewrite Ej.
Qed.

(** ** Grants *)

Lemma simple_grant_ok u role :
  length u = 32%nat → fits 64 role →
  value_ok (to_cbor_value (mkGrantToken u role None None [])) = true.
Proof.
  intros Hu [??]. unfold to_cbor_value, GrantToken_cbor, GrantToken_map. cbn.
  unfold zlen. rewrite Hu. cbn. rewrite !andb_true_iff, !Z.leb_le, !Z.ltb_lt. lia.
Qed.

Lemma signing_key_iff h sk :
  signing_key_from_hex h = Ok sk ↔ hex_decode h = Ok sk ∧ length sk = 32%nat.
Proof.
  unfold signing_key_from_hex, client_hex, try_into_fixed. destruct (hex_decode h) as [b|]; cbn;
    [|by split; [|intros [??]]].
  case_decide; split; [intros [= <-]|intros [[= ->] _]| |intros [[= ->] ?]]; done.
Qed.

Lemma sign_grant_Ok `{!Ed25519Laws} `{!Base64Laws} identity sk g :
  signing_key_from_hex (id_signing_key_hex identity) = Ok sk →
  value_ok (to_cbor_value g) = true → grant_extensions g = [] →
  ∃ sg, sign_grant identity g = Ok sg ∧
    ∀ now, validate_signed_grant sg now
           = if grant_live now g then Ok g else Err ClGrantExpired.
Proof.
  intros Hk Hok Hx. unfold sign_grant. rewrite Hk, grant_hash by done. cbn [client_core map_err].
  eexists. split; [done|]. intros now. unfold validate_signed_grant, decode_fixed_base64,
    decode_base64_field. cbn [sg_user_id sg_verifying_key sg_signature sg_role sg_flags sg_expires_at].
  apply signing_key_iff in Hk as [_ Hk]. unfold ed25519_verify_key, ed25519_sign_hash.
  rewrite !b64_decode_encode. cbn [map_err]. unfold try_into_fixed.
  rewrite !decide_True by (by apply ed_verifying_key_length || by apply ed_sign_length).
  rewrite ed_key_valid by done. cbn [map_err].
  assert (mkGrantToken (grant_user_id g) (grant_role g) (grant_flags g) (grant_expires_at g) [] = g)
    as -> by (destruct g; cbn in *; by subst).
  rewrite validate_grant_token_eq by done. destruct (grant_live now g); cbn [negb]; [|done].
  by rewrite ed_sign_verifies.
Qed.

End requests.

(** ** Claims: requests *)

Section request_claims.
Context `{SH : Sha256} `{ED : Ed25519} `{AR : Argon2} `{HX : Hex} `{B6 : Base64} `{TJ : TokenJson}.

(** C27: a request made for a receiver is accepted by it under the default policy
    at every moment of the freshness window, and the grant it gets back
    validates, names the requester and carries the requested role. *)
Theorem created_request_accepted `{!Ed25519Laws} `{!Base64Laws} `{!TokenJsonLaws}
    sender receiver sk role rng now now2 req token :
  create_request_payload sender (id_user_id_hex receiver) role rng now = Ok (req, token) →
  signing_key_from_hex (id_signing_key_hex receiver) = Ok sk →
  fits 64 role → fits 64 now → fits 64 now2 →
  now <= now2 + DEFAULT_REQUEST_FUTURE_SKEW_SECONDS →
  now2 <= now + DEFAULT_REQUEST_MAX_AGE_SECONDS →
  ∃ sg from, accept_request_payload receiver token now2 = Ok (req, sg) ∧
    hex_decode (id_user_id_hex sender) = Ok from ∧
    ∀ t, validate_signed_grant sg t = Ok (mkGrantToken from role None None []).
Proof.
  intros Hc Hk Hr Hn Hn2 Hf1 Hf2. unfold create_request_payload, client_hex in Hc.
  destruct (hex_decode (id_user_id_hex receiver)) as [rk|] eqn:Erk; [|done]. cbn [map_err] in Hc.
  destruct (build_request_pow_binding _ _ _ _) as [b|] eqn:Eb; [|done].
  destruct (build_request_puzzle_with_binding _ _ _) as [p|] eqn:Ep; [|done].
  destruct (validate_request_puzzle_internal _ _ _ _) as [[]|] eqn:Ev; [|done].
  destruct (request_to_json _) as [js|] eqn:Ej; [|done]. cbn [map_err] in Hc.
  assert (req = mkRequestToken (id_user_id_hex sender) (id_user_id_hex receiver) role now (Some p))
    as -> by congruence.
  assert (token = b64_encode js) as -> by congruence. clear Hc.
  pose proof Eb as (from & t & Hfrom & _ & Lf & _ & _)%request_binding_iff.
  destruct (sign_grant_Ok receiver sk (mkGrantToken from role None None []) Hk) as (sg & Hs & Hval);
    [by apply simple_grant_ok|done|].
  exists sg, from. split; [|by split].
  apply accept_payload_iff. split; [|split; [done|split; [|split]]].
  - unfold parse_request_token. rewrite b64_decode_encode. cbn [map_err].
    by rewrite (request_json_roundtrip _ _ Ej).
  - apply request_fresh_iff; done.
  - exists b. split; [done|]. by exists rk.
  - by exists from.
Qed.


(** The work of a request cannot be moved to another one: two requests
    accepted with the same puzzle agree in sender, receiver, role and time. *)
Theorem puzzle_not_transferable i1 i2 p1 p2 policy1 policy2 now1 now2 r1 r2 sg1 sg2 puzzle :
  accept_request_payload_with_policy i1 p1 policy1 now1 = Ok (r1, sg1) →
  accept_request_payload_with_policy i2 p2 policy2 now2 = Ok (r2, sg2) →
  rq_puzzle r1 = Some puzzle → rq_puzzle r2 = Some puzzle →
  fits 64 (rq_role r1) → fits 64 (rq_role r2) →
  fits 64 (rq_created_at r1) → fits 64 (rq_created_at r2) →
  hex_decode (rq_from_user_id r1) = hex_decode (rq_from_user_id r2) ∧
  hex_decode (rq_to_user_id r1) = hex_decode (rq_to_user_id r2) ∧
  rq_role r1 = rq_role r2 ∧ rq_created_at r1 = rq_created_at r2.
Proof.
  intros (_ & _ & _ & (b1 & Hb1 & Hp1) & _)%accept_payload_iff
    (_ & _ & _ & (b2 & Hb2 & Hp2) & _)%accept_payload_iff E1 E2 ????.
  rewrite E1 in Hp1. rewrite E2 in Hp2.
  destruct Hp1 as (rk1 & _ & (in1 & o1 & _ & Ein1 & _ & Bd1 & _)%request_puzzle_iff).
  destruct Hp2 as (rk2 & _ & (in2 & o2 & _ & Ein2 & _ & Bd2 & _)%request_puzzle_iff).
  apply input_bound_iff in Bd1 as (n1 & L1 & ->); [|by eapply request_binding_length].
  apply input_bound_iff in Bd2 as (n2 & L2 & ->); [|by eapply request_binding_length].
  assert (n1 ++ b1 = n2 ++ b2) as Hbb by congruence.
  apply app_inj_len in Hbb as [_ ->]; [|congruence].
  by eapply request_binding_inj.
Qed.

(** The replay check compares the text of a request while its work is bound
    to the decoded identifiers: the accepted request with its sender spelled
    in upper case is accepted a second time with the same work, and an equal
    grant is issued again. *)
Theorem recased_request_replayed `{!HexCaseLaws} s payload policy now now' s' req gt payload' rid' :
  accept_request_for_state_with_policy s payload policy now now' = Ok (s', (req, gt)) →
  let req' := mkRequestToken (upper_hex (rq_from_user_id req)) (rq_to_user_id req) (rq_role req)
                (rq_created_at req) (rq_puzzle req) in
  parse_request_token payload' = Ok req' →
  request_replay_id req' = Ok rid' → (rid' ∉ ls_accepted_request_ids s') →
  ∃ s'', accept_request_for_state_with_policy s' payload' policy now now' = Ok (s'', (req', gt)).
Proof.
  intros (identity & sg & rid & json & Hid & Hp & Hr & Hin & Hj & -> & ->)%accept_state_iff
    req' Hpp Hr' Hin'.
  apply accept_payload_iff in Hp as (_ & Ht & Hf & (b & Hb & Hp) & (from & Hfr & Hs)).
  assert (hex_decode (upper_hex (rq_from_user_id req)) = Ok from) as Hup by (by apply hex_decode_upper).
  eexists. apply accept_state_iff. exists identity, sg, rid', json.
  split; [done|]. split; [|done]. apply accept_payload_iff.
  split; [done|]. split; [done|]. split; [done|]. split; [|by exists from].
  exists b. split; [|done]. apply request_binding_iff in Hb as (f & t & Hf1 & Ht1 & Lf & Lt & ->).
  apply request_binding_iff. exists f, t. cbn. repeat (split; [congruence|]). done.
Qed.

End request_claims.

(** ** Contact cards *)

Section cards.
Context `{SH : Sha256} `{ED : Ed25519} `{HX : Hex} `{B6 : Base64} `{CB : Ciborium}.

(** A card as the client makes it, signed or not. *)
Definition plain_card (u v d n : bytes) (t : Z) (sig : option bytes) : ContactCard :=
  mkContactCard u v d n t None sig [].

(** The fields of a card at the sizes Rust can hold. *)
Definition card_sized (u v d n : bytes) (t : Z) (sig : option bytes) : Prop :=
  zlen u < 2 ^ 64 ∧ zlen v < 2 ^ 64 ∧ zlen d < 2 ^ 64 ∧ zlen n < 2 ^ 64 ∧ fits 64 t ∧
  zlen (default [] sig) < 2 ^ 64.

Definition card_fields (u v d n : bytes) (t : Z) (sig : option bytes) : list (Z * Value) :=
  [(0, VBytes u); (1, VBytes v); (2, VBytes d); (3, VBytes n); (4, VInteger t)] ++
  match sig with Some g => [(6, VBytes g)] | None => [] end.

Lemma plain_card_map u v d n t sig :
  to_cbor_value (plain_card u v d n t sig) = map_value (card_fields u v d n t sig).
Proof. by destruct sig. Qed.

Lemma card_fields_ok u v d n t sig : fields_ok (card_fields u v d n t sig).
Proof.
  split; destruct sig; unfold btree_ok; repeat constructor; unfold fits; cbn; lia.
Qed.

Lemma plain_card_decodable u v d n t sig :
  card_sized u v d n t sig → decodable (to_cbor_value (plain_card u v d n t sig)) = true.
Proof.
  intros (Hu & Hv & Hd & Hn & [Ht1 Ht2] & Hs). rewrite plain_card_map.
  unfold decodable. rewrite !andb_true_iff. split; [split|]; destruct sig; try done; cbn in *;
    rewrite ?andb_true_iff, ?Z.leb_le, ?Z.ltb_lt; repeat split; try done; lia.
Qed.

Lemma parse_plain_card `{!CiboriumLaws} u v d n t sig :
  card_sized u v d n t sig → u ≠ [] → v ≠ [] →
  parse_contact_card (enc (to_cbor_value (plain_card u v d n t sig)))
  = Ok (plain_card u v d n t sig).
Proof.
  intros Hsz Hu Hv. pose proof (plain_card_decodable _ _ _ _ _ _ Hsz) as Hdec.
  pose proof (reader_enc _ [] Hdec) as Hr. rewrite app_nil_r in Hr.
  unfold parse_contact_card. rewrite Hr, plain_card_map.
  rewrite canon_map_value by apply card_fields_ok.
  assert (canon_fields (card_fields u v d n t sig) = card_fields u v d n t sig) as ->
    by (by destruct sig).
  destruct Hsz as (_ & _ & _ & _ & [Ht1 Ht2] & _).
  assert (fits_b 64 t = true) as Hf by (unfold fits_b; apply andb_true_iff; lia).
  destruct sig; cbn -[fits_b]; rewrite Hf; cbn;
    by rewrite (bool_decide_false (u = [])), (bool_decide_false (v = [])).
Qed.

Lemma redeem_to_state_eq s payload now card :
  redeem_contact_card_payload payload = Ok card →
  ∃ s' out, redeem_contact_card_to_state s payload now = Ok (s', out) ∧
    ls_contacts s' !! hex_encode (card_user_id card) = Some (cr_contact out) ∧
    ct_verifying_key_hex (cr_contact out) = hex_encode (card_verifying_key card) ∧
    (∀ k, k ≠ hex_encode (card_user_id card) → ls_contacts s' !! k = ls_contacts s !! k) ∧
    (cr_key_changed out = true ↔ ∃ old, ls_contacts s !! hex_encode (card_user_id card) = Some old ∧
       ct_fingerprint old ≠ fingerprint_hex (card_verifying_key card)).
Proof.
  intros Hr. unfold redeem_contact_card_to_state. rewrite Hr. eexists _, _. split; [done|].
  cbn [ls_contacts set_contacts cr_contact ct_verifying_key_hex cr_key_changed].
  split; [by rewrite lookup_insert_eq|]. split; [done|].
  split; [intros k Hk; by rewrite lookup_insert_ne|].
  destruct (ls_contacts s !! hex_encode (card_user_id card)) as [old|]; cbn.
  - rewrite negb_true_iff, bool_decide_eq_false. split; [by eauto|]. by intros (? & [= <-] & ?).
  - split; [done|]. by intros (? & ? & _).
Qed.

(** The card of an identity and its signature. *)
Definition card_sig (u d n sk : bytes) (t : Z) : bytes :=
  ed_sign sk (sha256 (enc (to_cbor_value (plain_card u (ed_verifying_key sk) d n t None)))).

Definition signed_card (u d n sk : bytes) (t : Z) : ContactCard :=
  plain_card u (ed_verifying_key sk) d n t (Some (card_sig u d n sk t)).

Lemma signed_card_sized `{!Ed25519Laws} u d n sk t :
  length sk = 32%nat → zlen u < 2 ^ 64 → zlen d < 2 ^ 64 → zlen n < 2 ^ 64 → fits 64 t →
  card_sized u (ed_verifying_key sk) d n t None ∧
  card_sized u (ed_verifying_key sk) d n t (Some (card_sig u d n sk t)).
Proof.
  intros Lk Lu Ld Ln Ht.
  assert (zlen (ed_verifying_key sk) < 2 ^ 64)
    by (unfold zlen; rewrite ed_verifying_key_length by done; lia).
  split; repeat (split; [done|]); [done|]. change (zlen (card_sig u d n sk t) < 2 ^ 64).
  unfold zlen, card_sig. rewrite ed_sign_length by done. lia.
Qed.

Lemma signed_card_redeems `{!Ed25519Laws} `{!Base64Laws} `{!CiboriumLaws} u d n sk t :
  length sk = 32%nat → u ≠ [] →
  zlen u < 2 ^ 64 → zlen d < 2 ^ 64 → zlen n < 2 ^ 64 → fits 64 t →
  redeem_contact_card_payload (b64_encode (enc (to_cbor_value (signed_card u d n sk t))))
  = Ok (signed_card u d n sk t).
Proof.
  intros Lk Hne Lu Ld Ln Ht. destruct (signed_card_sized u d n sk t) as [Hsz0 Hsz]; [done..|].
  destruct (decodable_parts _ (plain_card_decodable _ _ _ _ _ _ Hsz0)) as [Hok0 _].
  assert (ed_verifying_key sk ≠ []) as Hvne.
  { intros He. pose proof (ed_verifying_key_length sk Lk) as Hl. by rewrite He in Hl. }
  unfold redeem_contact_card_payload. rewrite b64_decode_encode. cbn [map_err].
  unfold signed_card. rewrite parse_plain_card by done. cbn [card_signature plain_card].
  unfold verify_contact_card_signature, try_into_fixed. cbn [card_verifying_key plain_card].
  rewrite decide_True by (by apply ed_verifying_key_length).
  rewrite ed_key_valid by done. cbn [map_err].
  change (set_card_signature _ None) with (plain_card u (ed_verifying_key sk) d n t None).
  unfold ctap2_bytes_of. rewrite ctap2_bytes_enc by done. cbn [client_core map_err].
  rewrite decide_True by (by apply ed_sign_length).
  unfold ed25519_verify_hash, card_sig. cbn [hash_bytes]. by rewrite ed_sign_verifies.
Qed.

(** ** Claims: cards *)

(** The card a client makes is redeemed with the fields it was made from;
    the contact is stored under its user, other contacts are untouched, and a
    key change is reported exactly when another key was known. *)
Theorem contact_card_redeems `{!Ed25519Laws} `{!Base64Laws} `{!CiboriumLaws}
    identity u d n sk now :
  hex_decode (id_user_id_hex identity) = Ok u → u ≠ [] →
  signing_key_from_hex (id_signing_key_hex identity) = Ok sk →
  hex_decode (id_verifying_key_hex identity) = Ok (ed_verifying_key sk) →
  hex_decode (id_device_id_hex identity) = Ok d →
  hex_decode (id_device_nonce_hex identity) = Ok n →
  zlen u < 2 ^ 64 → zlen d < 2 ^ 64 → zlen n < 2 ^ 64 → fits 64 now →
  ∃ payload sig, create_contact_card_payload identity now = Ok payload ∧
    redeem_contact_card_payload payload
    = Ok (plain_card u (ed_verifying_key sk) d n now (Some sig)) ∧
    ∀ s t, ∃ s' out, redeem_contact_card_to_state s payload t = Ok (s', out) ∧
      ls_contacts s' !! hex_encode u = Some (cr_contact out) ∧
      ct_verifying_key_hex (cr_contact out) = hex_encode (ed_verifying_key sk) ∧
      (∀ k, k ≠ hex_encode u → ls_contacts s' !! k = ls_contacts s !! k) ∧
      (cr_key_changed out = true ↔ ∃ old, ls_contacts s !! hex_encode u = Some old ∧
         ct_fingerprint old ≠ fingerprint_hex (ed_verifying_key sk)).
Proof.
  intros Hu Hne Hsk Hvk Hd Hn Lu Ld Ln Ht. pose proof Hsk as [_ Lk]%signing_key_iff.
  destruct (signed_card_sized u d n sk now) as [Hsz0 Hsz]; [done..|].
  destruct (decodable_parts _ (plain_card_decodable _ _ _ _ _ _ Hsz0)) as [Hok0 _].
  destruct (decodable_parts _ (plain_card_decodable _ _ _ _ _ _ Hsz)) as [Hok _].
  pose proof (signed_card_redeems u d n sk now Lk Hne Lu Ld Ln Ht) as Hred.
  exists (b64_encode (enc (to_cbor_value (signed_card u d n sk now)))), (card_sig u d n sk now).
  split; [|split; [done|intros s t; apply (redeem_to_state_eq s _ t _ Hred)]].
  unfold create_contact_card_payload, build_contact_card, client_hex.
  rewrite Hu, Hvk, Hd, Hn. cbn [map_err]. unfold sign_contact_card. rewrite Hsk.
  unfold ctap2_bytes_of. fold (plain_card u (ed_verifying_key sk) d n now None).
  rewrite ctap2_bytes_enc by done. cbn [client_core map_err].
  change (set_card_signature _ (Some _)) with (signed_card u d n sk now).
  by rewrite ctap2_bytes_enc.
Qed.

(** A signature is checked only if there is one: a card without a signature
    naming any user and any key is redeemed, and replaces the key of a contact
    already known under that name. *)
Theorem unsigned_card_replaces_key `{!Base64Laws} `{!CiboriumLaws} u vk d n t s now :
  card_sized u vk d n t None → u ≠ [] → vk ≠ [] →
  ∃ s' out, redeem_contact_card_to_state s
      (b64_encode (enc (to_cbor_value (plain_card u vk d n t None)))) now = Ok (s', out) ∧
    ls_contacts s' !! hex_encode u = Some (cr_contact out) ∧
    ct_verifying_key_hex (cr_contact out) = hex_encode vk.
Proof.
  intros Hsz Hu Hv.
  destruct (redeem_to_state_eq s (b64_encode (enc (to_cbor_value (plain_card u vk d n t None)))) now
    (plain_card u vk d n t None)) as (s' & out & H1 & H2 & H3 & _); [|by exists s', out].
  unfold redeem_contact_card_payload. rewrite b64_decode_encode. cbn [map_err].
  by rewrite parse_plain_card.
Qed.

End cards.

(** ** The checkpoint log of a client *)

Section logs.
Context `{SH : Sha256} `{ED : Ed25519} `{HX : Hex} `{B6 : Base64} `{CB : Ciborium} `{LS : LogSerde}.

(** What a revocation must satisfy to be appended. *)
Record revocation_allowed (log : CheckpointLog) (identity : IdentityState)
    (entry : RevocationDeclaration) (max_age now : Z) : Prop := {
  ra_owner : hex_decode (id_user_id_hex identity) = Ok (rv_user_id entry);
  ra_issued : ∃ key, CKey key ∈ entries log ∧ kc_user_id key = rv_user_id entry ∧
    sha256 (kc_verifying_key key) = rv_revoked_key_hash entry;
  ra_recovery : ∀ h, rv_recovery_key_hash entry = Some h →
    ∃ rec, CRecovery rec ∈ entries log ∧ rk_user_id rec = rv_user_id entry ∧
      sha256 (rk_recovery_key rec) = h ∧ now - rk_issued_at rec <= max_age;
}.

Definition revoked_in (log : CheckpointLog) (entry : RevocationDeclaration) : Prop :=
  ∃ old, CRevocation old ∈ entries log ∧ rv_user_id old = rv_user_id entry ∧
    rv_revoked_key_hash old = rv_revoked_key_hash entry.

Lemma existsb_elem {A} (f : A → bool) l :
  existsb f l = true ↔ ∃ x, x ∈ l ∧ f x = true.
Proof.
  rewrite existsb_exists. split; intros (x & Hx & Hf); exists x; split; try done;
    by apply list_elem_of_In.
Qed.

Lemma same_revocation_iff log entry :
  existsb (same_revocation entry) (entries log) = true ↔ revoked_in log entry.
Proof.
  rewrite existsb_elem. split.
  - intros ([| |old] & Hin & Hs); [done..|]. cbn in Hs. rewrite andb_true_iff in Hs.
    destruct Hs as [H1%bool_decide_eq_true H2%bool_decide_eq_true]. by exists old.
  - intros (old & Hin & H1 & H2). exists (CRevocation old). split; [done|]. cbn.
    by rewrite !bool_decide_true.
Qed.

Lemma key_issued_iff log entry :
  existsb (key_issued entry) (entries log) = true →
  ∃ key, CKey key ∈ entries log ∧ kc_user_id key = rv_user_id entry ∧
    sha256 (kc_verifying_key key) = rv_revoked_key_hash entry.
Proof.
  rewrite existsb_elem. intros ([key| |] & Hin & Hs); [|done..]. cbn in Hs.
  rewrite andb_true_iff in Hs. destruct Hs as [H1%bool_decide_eq_true H2%bool_decide_eq_true].
  by exists key.
Qed.

Lemma recovery_valid_iff log entry h now max_age :
  existsb (recovery_valid entry h now max_age) (entries log) = true →
  ∃ rec, CRecovery rec ∈ entries log ∧ rk_user_id rec = rv_user_id entry ∧
    sha256 (rk_recovery_key rec) = h ∧ now - rk_issued_at rec <= max_age.
Proof.
  rewrite existsb_elem. intros ([|rec|] & Hin & Hs); [done| |done]. cbn in Hs.
  rewrite !andb_true_iff in Hs.
  destruct Hs as [[H1%bool_decide_eq_true H2%bool_decide_eq_true] H3%Z.leb_le].
  exists rec. unfold saturating_sub in H3. repeat (split; [done|]). lia.
Qed.

(** A revocation is appended only by the owner of the key, for a key the log
    has seen, and with a recovery key that is in the log and not too old if one
    is named; the log grows by exactly that entry.  A key already revoked
    leaves the log as it is.  Either way the key is revoked afterwards and
    repeating the call changes nothing, whatever the clock says. *)
Theorem revocation_checked_once log identity entry max_age now log' appended :
  append_revocation_entry_checked log identity entry max_age now = Ok (log', appended) →
  (if appended
   then revocation_allowed log identity entry max_age now ∧ ¬ revoked_in log entry ∧
        entries log' = entries log ++ [CRevocation entry]
   else log' = log ∧ revoked_in log entry) ∧
  revoked_in log' entry ∧
  ∀ max_age' now',
    append_revocation_entry_checked log' identity entry max_age' now' = Ok (log', false).
Proof.
  unfold append_revocation_entry_checked at 1, client_hex. intros Ha.
  destruct (hex_decode (id_user_id_hex identity)) as [u|] eqn:Eu; [|done]. cbn [map_err] in Ha.
  case_bool_decide as Hu; [|done]. cbn [negb] in Ha. subst u.
  destruct (existsb (key_issued entry) (entries log)) eqn:Ei; [|done]. cbn [negb] in Ha.
  assert (∀ l, (∃ suffix, entries l = entries log ++ suffix) → revoked_in l entry →
    ∀ m n, append_revocation_entry_checked l identity entry m n = Ok (l, false)) as Hrep.
  { intros l [suffix Hl] Hrev m n. unfold append_revocation_entry_checked, client_hex.
    rewrite Eu. cbn [map_err]. rewrite bool_decide_true by done. cbn [negb].
    rewrite Hl, existsb_app, Ei, <-Hl. cbn [orb negb].
    by rewrite (proj2 (same_revocation_iff l entry) Hrev). }
  destruct (existsb (same_revocation entry) (entries log)) eqn:Es.
  { injection Ha as <- <-. apply same_revocation_iff in Es.
    split; [done|]. split; [done|]. apply Hrep; [|done]. exists []. by rewrite app_nil_r. }
  assert ((∀ h, rv_recovery_key_hash entry = Some h →
             existsb (recovery_valid entry h now max_age) (entries log) = true) ∧
          appended = true ∧ log_append log (CRevocation entry) = Ok log') as (Hrec & -> & Hl).
  { destruct (rv_recovery_key_hash entry) as [h|].
    - destruct (existsb (recovery_valid _ _ _ _) _) eqn:Er; [|done]. cbn [negb] in Ha.
      destruct (log_append _ _) as [l|]; [|done]. cbn in Ha. injection Ha as <- <-.
      split; [|done]. by intros h' [= <-].
    - destruct (log_append _ _) as [l|]; [|done]. cbn in Ha. by injection Ha as <- <-. }
  apply log_append_entries in Hl. assert (revoked_in log' entry) as Hrev.
  { exists entry. rewrite Hl. split; [|done]. apply elem_of_app. right. by left. }
  split; [|split; [done|apply Hrep; [by eexists|done]]].
  split; [|split; [by rewrite <-same_revocation_iff, Es|done]].
  split; [done|by apply key_issued_iff|]. intros h Hh. apply recovery_valid_iff. by apply Hrec.
Qed.

(** Saving a log and loading it again. *)
Lemma save_load_log `{!CiboriumLaws} `{!LogSerdeLaws} `{!Base64Laws} s log :
  (∀ b, b ≠ [] → b64_encode b ≠ ""%string) →
  log_ok log → entries_ok (entries log) → decodable (log_ser (entries log)) = true →
  ∃ s' log', save_checkpoint_log s log = Ok s' ∧ s' = set_checkpoint_log (ls_checkpoint_log s') s ∧
    load_checkpoint_log s' = Ok log' ∧ entries log' = entries log ∧
    merkle_root log' = merkle_root log.
Proof.
  intros Hb Hok He Hd. unfold save_checkpoint_log.
  assert (export_base64 log = Ok (b64_encode (enc (log_ser (entries log))))) as Hx.
  { unfold export_base64, to_cbor_bytes. by rewrite to_canonical_enc. }
  rewrite Hx. cbn [client_log map_err].
  destruct (import_export_ok log _ Hok He Hd Hx) as (log' & Hi & Hes & _ & Hr).
  eexists _, log'. split; [done|]. split; [done|]. split; [|done].
  unfold load_checkpoint_log. cbn [ls_checkpoint_log set_checkpoint_log].
  rewrite decide_False; [by rewrite Hi|]. apply Hb. intros Hn.
  pose proof (raw_enc_nonempty (canon (log_ser (entries log)))) as Hl.
  rewrite <-enc_raw, Hn in Hl. cbn in Hl. lia.
Qed.

(** Rotating an identity keeps the user and the device, installs the new
    key, and leaves a log that extends the old one by the revocation of the
    old key and the checkpoint of the new one, in this order. *)
Theorem rotation_recorded `{!CiboriumLaws} `{!LogSerdeLaws} `{!Base64Laws} `{!HexLaws}
    s identity log seed nonce t0 t1 t2 u d old :
  (∀ b, b ≠ [] → b64_encode b ≠ ""%string) →
  ls_identity s = Some identity → load_checkpoint_log s = Ok log → log_ok log →
  hex_decode (id_user_id_hex identity) = Ok u → hex_decode (id_device_id_hex identity) = Ok d →
  hex_decode (id_verifying_key_hex identity) = Ok old →
  let revocation := CRevocation (mkRevocationDeclaration u (sha256 old) t1 None
                                   (Some "key rotation"%string)) in
  let checkpoint := CKey (mkKeyCheckpoint u (ed_verifying_key seed) d t2) in
  entries_ok (entries log ++ [revocation; checkpoint]) →
  decodable (log_ser (entries log ++ [revocation; checkpoint])) = true →
  ∃ s' identity' log', rotate_identity_in_state s seed nonce t0 t1 t2
      = (s', Ok (id_verifying_key_hex identity, identity')) ∧
    ls_identity s' = Some identity' ∧ id_user_id_hex identity' = id_user_id_hex identity ∧
    id_signing_key_hex identity' = hex_encode seed ∧
    id_verifying_key_hex identity' = hex_encode (ed_verifying_key seed) ∧
    load_checkpoint_log s' = Ok log' ∧
    entries log' = entries log ++ [revocation; checkpoint].
Proof.
  intros Hb Hid Hload Hok Hu Hd Hold rev chk Hes Hdec. unfold rotate_identity_in_state.
  rewrite Hid. cbv zeta. set (i' := rotate_identity identity seed nonce).
  set (s2 := set_key_rotations _ _).
  assert (entries_ok (entries log ++ [rev])) as Hes1.
  { destruct Hes as [[Hf1 Hf2]%Forall_app Hl]. inversion Hf2; subst. split.
    - apply Forall_app. split; [done|]. by constructor; [|constructor].
    - unfold zlen in *. rewrite !length_app in *. cbn in *. lia. }
  destruct (log_append_ok log rev Hok Hes1) as (l1 & Hl1 & Hok1 & He1).
  destruct (log_append_ok l1 chk Hok1) as (l2 & Hl2 & Hok2 & He2);
    [by rewrite He1, <-app_assoc|].
  assert (entries l2 = entries log ++ [rev; chk]) as He by (by rewrite He2, He1, <-app_assoc).
  destruct (save_load_log s2 l2) as (s3 & l3 & Hsave & Hs3 & Hl3 & He3 & _); [done..|by rewrite He|by rewrite He|].
  assert (append_rotation_checkpoint s2 i' (id_verifying_key_hex identity) t1 t2 = Ok s3) as ->.
  { unfold append_rotation_checkpoint, client_hex, i'. cbn [rotate_identity id_user_id_hex
      id_verifying_key_hex id_device_id_hex]. rewrite Hold, Hu, Hd, hex_decode_encode. cbn [map_err].
    change (load_checkpoint_log s2) with (load_checkpoint_log s). rewrite Hload.
    change (hash_bytes HashSha256 old) with (sha256 old). fold rev chk.
    rewrite Hl1. cbn [client_log map_err]. by rewrite Hl2. }
  assert (ls_identity s3 = Some i') as Hi3 by (by rewrite Hs3).
  exists s3, i', l3. repeat (split; [done|]). congruence.
Qed.

End logs.

(** ** Witnesses *)

#[export] Instance PowParamsPayload_eq_dec : EqDecision PowParamsPayload.
Proof. solve_decision. Defined.
#[export] Instance PuzzleToken_eq_dec : EqDecision PuzzleToken.
Proof. solve_decision. Defined.
#[export] Instance RequestToken_eq_dec : EqDecision RequestToken.
Proof. solve_decision. Defined.

Module ClientSamples.
Import Reference.

Definition alice : IdentityState :=
  create_identity (replicate 32 x07) (replicate 32 xab) [x01] [x02].
Definition bob : IdentityState :=
  create_identity (replicate 32 x08) (replicate 32 xcd) [x03] [x04].

Definition client_rng (n : Z) : bytes := replicate (Z.to_nat n) x55.

Definition sample_binding : bytes :=
  REQUEST_POW_CONTEXT ++ replicate 32 xab ++ replicate 32 xcd ++ to_be_bytes 8 2 ++
  to_be_bytes 8 1000.

Definition sample_puzzle : PuzzleToken :=
  mkPuzzleToken (b64_encode (replicate 32 xcd)) (b64_encode (replicate 32 x55 ++ sample_binding))
    (b64_encode (default [] (result_ok (generate_puzzle_output (replicate 32 xcd)
       (replicate 32 x55 ++ sample_binding) pow_default)))) (payload_of_params pow_default).

Definition lower_request : RequestToken :=
  mkRequestToken (id_user_id_hex alice) (id_user_id_hex bob) 2 1000 (Some sample_puzzle).
Definition upper_request : RequestToken :=
  mkRequestToken (upper_hex (id_user_id_hex alice)) (id_user_id_hex bob) 2 1000
    (Some sample_puzzle).

(** A writer and reader that know these two requests. *)
#[export] Instance two_requests : TokenJson := {|
  request_to_json r := if decide (r = lower_request) then Ok [x01]
                       else if decide (r = upper_request) then Ok [x02] else Err "unknown"%string;
  request_from_json b := if decide (b = [x01]) then Ok lower_request
                         else if decide (b = [x02]) then Ok upper_request else Err "eof"%string;
  grant_to_json _ := Ok [x7b; x7d];
|}.

#[export] Instance two_requests_laws : TokenJsonLaws.
Proof.
  intros r b. cbn [request_to_json request_from_json two_requests].
  case_decide as H1; [intros [= <-]; by subst|]. case_decide as H2; [|done].
  intros [= <-]. by subst.
Qed.

Definition bob_state : LocalState := set_identity (Some bob) local_state_default.

Definition accepted (s : LocalState) (payload : string) : LocalState :=
  match accept_request_for_state_with_policy s payload request_policy_default 1100 1101 with
  | Ok (s', _) => s'
  | Err _ => s
  end.

End ClientSamples.
Import Reference ClientSamples.

Lemma created_request_accepted_witness :
  ∃ sg from, accept_request_payload bob (b64_encode [x01]) 1100 = Ok (lower_request, sg) ∧
    hex_decode (id_user_id_hex alice) = Ok from ∧
    ∀ t, validate_signed_grant sg t = Ok (mkGrantToken from 2 None None []).
Proof.
  apply (created_request_accepted alice bob (replicate 32 x08) 2 client_rng 1000 1100);
    try (vm_compute; reflexivity);
    unfold fits, DEFAULT_REQUEST_FUTURE_SKEW_SECONDS, DEFAULT_REQUEST_MAX_AGE_SECONDS; lia.
Defined.


Lemma puzzle_not_transferable_witness :
  hex_decode (rq_from_user_id lower_request) = hex_decode (rq_from_user_id upper_request).
Proof.
  eapply (puzzle_not_transferable bob bob (b64_encode [x01]) (b64_encode [x02])
    request_policy_default request_policy_default 1100 1100 lower_request upper_request
    _ _ sample_puzzle);
    [vm_compute; reflexivity|vm_compute; reflexivity|reflexivity|reflexivity|fits_eval..].
Defined.

Lemma recased_request_replayed_witness :
  ∃ s'', accept_request_for_state_with_policy (accepted bob_state (b64_encode [x01]))
    (b64_encode [x02]) request_policy_default 1100 1101
    = Ok (s'', (upper_request, b64_encode [x7b; x7d])).
Proof.
  apply (recased_request_replayed bob_state (b64_encode [x01]) request_policy_default 1100 1101
    (accepted bob_state (b64_encode [x01])) lower_request (b64_encode [x7b; x7d])
    (b64_encode [x02]) (hex_encode (sha256 [x02])));
    [vm_compute; reflexivity|vm_compute; reflexivity|vm_compute; reflexivity|].
  refine (bool_decide_eq_false_1 _ _). vm_compute. reflexivity.
Defined.

Lemma contact_card_redeems_witness :
  ∃ payload sig, create_contact_card_payload alice 1000 = Ok payload ∧
    redeem_contact_card_payload payload
    = Ok (plain_card (replicate 32 xab) (ed_verifying_key (replicate 32 x07)) [x01] [x02] 1000
            (Some sig)).
Proof.
  destruct (contact_card_redeems alice (replicate 32 xab) [x01] [x02] (replicate 32 x07) 1000)
    as (payload & sig & H1 & H2 & _);
    [vm_compute; reflexivity|discriminate|vm_compute; reflexivity|vm_compute; reflexivity
    |vm_compute; reflexivity|vm_compute; reflexivity|vm_compute; reflexivity|vm_compute; reflexivity
    |vm_compute; reflexivity|fits_eval|].
  exists payload, sig. split; assumption.
Defined.

Lemma unsigned_card_replaces_key_witness :
  ∃ s' out, redeem_contact_card_to_state bob_state
      (b64_encode (enc (to_cbor_value (plain_card (replicate 32 xab) [x66] [] [] 5 None)))) 9
    = Ok (s', out) ∧ ls_contacts s' !! hex_encode (replicate 32 xab) = Some (cr_contact out) ∧
    ct_verifying_key_hex (cr_contact out) = hex_encode [x66].
Proof.
  apply (unsigned_card_replaces_key (replicate 32 xab) [x66] [] [] 5 bob_state 9); [|done..].
  repeat (split; [first [reflexivity|fits_eval]|]). reflexivity.
Defined.

Import DerivedSerde.

Definition alice_key : KeyCheckpoint :=
  mkKeyCheckpoint (replicate 32 xab) (replicate 32 x07) [x01] 10.
Definition alice_revocation : RevocationDeclaration :=
  mkRevocationDeclaration (replicate 32 xab) (sha256 (replicate 32 x07)) 20 None None.
Definition alice_log : CheckpointLog :=
  match log_append log_new (CKey alice_key) with Ok l => l | Err _ => log_new end.

Lemma revocation_checked_once_witness :
  ∃ log', append_revocation_entry_checked alice_log alice alice_revocation 100 20
          = Ok (log', true) ∧
    ∀ max_age' now',
      append_revocation_entry_checked log' alice alice_revocation max_age' now' = Ok (log', false).
Proof.
  eexists. split; [vm_compute; reflexivity|].
  eapply (revocation_checked_once alice_log alice alice_revocation 100 20). vm_compute. reflexivity.
Defined.

Definition alice_state : LocalState := set_identity (Some alice) local_state_default.

Lemma hex_enc_nonempty b : b ≠ [] → hex_enc b ≠ ""%string.
Proof. by destruct b. Qed.

Lemma rotation_recorded_witness :
  ∃ s' identity' log', rotate_identity_in_state alice_state (replicate 32 x09) [x05] 30 31 32
      = (s', Ok (id_verifying_key_hex alice, identity')) ∧
    load_checkpoint_log s' = Ok log' ∧
    entries log' = [CRevocation (mkRevocationDeclaration (replicate 32 xab)
                      (sha256 (replicate 32 x07)) 31 None (Some "key rotation"%string));
                    CKey (mkKeyCheckpoint (replicate 32 xab) (replicate 32 x09) [x01] 32)].
Proof.
  destruct (rotation_recorded alice_state alice log_new (replicate 32 x09) [x05] 30 31 32
    (replicate 32 xab) [x01] (replicate 32 x07)) as (s' & i' & l' & H1 & _ & _ & _ & _ & H2 & H3);
    [exact hex_enc_nonempty|reflexivity|reflexivity|intros _; reflexivity|vm_compute; reflexivity
    |vm_compute; reflexivity|vm_compute; reflexivity| |vm_compute; reflexivity|].
  - split; [|vm_compute; reflexivity].
    constructor; [|constructor; [|constructor]]; (split; [vm_compute; reflexivity|fits_eval]).
  - exists s', i', l'. split; [exact H1|]. split; [exact H2|exact H3].
Defined.
