(* ===== verification/Threads.v ===== *)
(** * The client: threads and messages (spex-client/src/lib.rs)

    Thread state, the group a thread stands for, the sealed envelope, the
    staging of a message in the local transport cache and its reception.  The
    group of a thread is rebuilt from its stored metadata for every message:
    [None] is the panic of the group's extension writer on a configuration hash
    longer than 255 bytes, and of cutting a payload into chunks of size zero.
    Operations that can fail half-way return the state they leave.

    The theorems are in [ThreadsFacts]. *)
From Stdlib Require Import ZArith Lia Ascii Strings.Byte.
From stdpp Require Import base list gmap strings sorting numbers.
From S2P Require Import Prelude External Cbor CborFacts Types Core Log Transport Ingest Mls Client.

#[local] Open Scope Z_scope.

(** ** Messages of the errors *)

(** The derived [Debug] of [ValidationError]. *)
Definition mls_validation_debug (e : MlsValidationError) : string :=
  match e with
  | EpochMismatch expected found =>
      "EpochMismatch { expected: " +:+ show_Z expected +:+ ", found: " +:+ show_Z found +:+ " }"
  | CfgHashMismatch => "CfgHashMismatch"
  | ProtoSuiteMismatch => "ProtoSuiteMismatch"
  end.

Definition out_of_order (expected received : Z) : string :=
  "out-of-order commit: expected epoch " +:+ show_Z expected +:+ ", received " +:+
  show_Z received.

Definition mls_error_to_string (e : MlsError) : string :=
  match e with
  | UnsupportedHashId v => "unsupported hash id: " +:+ show_Z v
  | MlsValidation e => "validation error: " +:+ mls_validation_debug e
  | UnknownMember m => "unknown member: " +:+ m
  | Encryption => "encryption error"
  | Decryption => "decryption error"
  | MlsSpex e => "spex error: " +:+ spex_error_to_string e
  | OutOfOrderCommit e => out_of_order (expected_epoch e) (received_epoch e)
  end.

Definition client_transport {A} (r : result TransportError A) : result ClientError A :=
  map_err (λ e, ClTransport (transport_error_to_string e)) r.

(** ** [String::from_utf8] *)

Definition in_range (lo hi : Z) (b : byte) : bool := (lo <=? byte_to_Z b) && (byte_to_Z b <=? hi).

(** Well-formed UTF-8 by the ranges of the Unicode standard; the fuel is the
    number of bytes, one is consumed at least. *)
Fixpoint utf8_valid (fuel : nat) (bs : bytes) : bool :=
  match fuel, bs with
  | _, [] => true
  | O, _ => false
  | S f, a :: r =>
      if in_range 0 127 a then utf8_valid f r
      else match r with
      | b :: r2 =>
          if in_range 0xC2 0xDF a then in_range 0x80 0xBF b && utf8_valid f r2
          else match r2 with
          | c :: r3 =>
              if in_range 0xE0 0xEF a then
                in_range (if byte_to_Z a =? 0xE0 then 0xA0 else 0x80)
                         (if byte_to_Z a =? 0xED then 0x9F else 0xBF) b &&
                in_range 0x80 0xBF c && utf8_valid f r3
              else match r3 with
              | d :: r4 =>
                  in_range 0xF0 0xF4 a &&
                  in_range (if byte_to_Z a =? 0xF0 then 0x90 else 0x80)
                           (if byte_to_Z a =? 0xF4 then 0x8F else 0xBF) b &&
                  in_range 0x80 0xBF c && in_range 0x80 0xBF d && utf8_valid f r4
              | [] => false
              end
          | [] => false
          end
      | [] => false
      end
  end.

Definition from_utf8 (bs : bytes) : option string :=
  if utf8_valid (length bs) bs then Some (String.string_of_list_byte bs) else None.

(** ** Thread state *)

Definition thread_proto_suite (t : ThreadState) : ProtoSuite :=
  mkProtoSuite (th_proto_major t) (th_proto_minor t) (th_ciphersuite_id t).

Definition set_members_epoch (members : list string) (epoch : Z) (t : ThreadState) : ThreadState :=
  mkThreadState (th_thread_id_hex t) members (th_created_at t) (th_messages t)
    (th_proto_major t) (th_proto_minor t) (th_ciphersuite_id t) (th_cfg_hash_id t)
    (th_cfg_hash_hex t) (th_flags t) (th_initial_secret_hex t) (th_next_seq t) epoch.

Definition set_seq_epoch (seq epoch : Z) (t : ThreadState) : ThreadState :=
  mkThreadState (th_thread_id_hex t) (th_members t) (th_created_at t) (th_messages t)
    (th_proto_major t) (th_proto_minor t) (th_ciphersuite_id t) (th_cfg_hash_id t)
    (th_cfg_hash_hex t) (th_flags t) (th_initial_secret_hex t) seq epoch.

Definition push_message (m : MessageState) (t : ThreadState) : ThreadState :=
  mkThreadState (th_thread_id_hex t) (th_members t) (th_created_at t) (th_messages t ++ [m])
    (th_proto_major t) (th_proto_minor t) (th_ciphersuite_id t) (th_cfg_hash_id t)
    (th_cfg_hash_hex t) (th_flags t) (th_initial_secret_hex t) (th_next_seq t) (th_epoch t).

(** ** Commits *)

Inductive MlsThreadEventKind : Type := Rekey | MembershipUpdated | MembershipRemoved.

Record MlsThreadEvent := mkMlsThreadEvent {
  te_thread_id_hex : string;
  te_epoch : Z;
  te_kind : MlsThreadEventKind;
  te_member_id : option string;
}.

(** [position] and [remove]: the first occurrence goes. *)
Fixpoint remove_first (m : string) (l : list string) : list string :=
  match l with
  | [] => []
  | x :: l' => if decide (x = m) then l' else x :: remove_first m l'
  end.

(** The two loops, with the events in the order they are emitted. *)
Definition add_with_event (tid : string) (epoch : Z) (acc : list string * list MlsThreadEvent)
    (m : string) : list string * list MlsThreadEvent :=
  if decide (m ∈ acc.1) then acc
  else (acc.1 ++ [m], acc.2 ++ [mkMlsThreadEvent tid epoch MembershipUpdated (Some m)]).

Definition remove_with_event (tid : string) (epoch : Z) (acc : list string * list MlsThreadEvent)
    (m : string) : list string * list MlsThreadEvent :=
  if decide (m ∈ acc.1)
  then (remove_first m acc.1, acc.2 ++ [mkMlsThreadEvent tid epoch MembershipRemoved (Some m)])
  else acc.

(** The thread, the events handed to the callback, and the outcome. *)
Definition apply_thread_commit_with_events (t : ThreadState) (commit : Commit)
    : ThreadState * list MlsThreadEvent * result ClientError unit :=
  if negb (cm_epoch commit =? wadd 64 (th_epoch t) 1) then
    (t, [], Err (ClMls (out_of_order (wadd 64 (th_epoch t) 1) (cm_epoch commit))))
  else
    let tid := th_thread_id_hex t in
    let acc := fold_left (add_with_event tid (cm_epoch commit)) (cm_added_members commit)
                 (th_members t, []) in
    let acc := fold_left (remove_with_event tid (cm_epoch commit)) (cm_removed_members commit) acc in
    (set_members_epoch acc.1 (cm_epoch commit) t,
     acc.2 ++ [mkMlsThreadEvent tid (cm_epoch commit) Rekey None], Ok tt).

Section threads.
Context `{Sha256} `{Ed25519} `{Hex} `{Base64} `{Ciborium} `{Aead} `{Network}.

(** ** The group of a thread *)

Definition build_thread_cfg_hash (thread_id_hex : string) (suite : ProtoSuite)
    : result ClientError bytes :=
  let? thread_id := client_hex thread_id_hex in
  let thread_config := mkThreadConfig (ps_major suite) (ps_minor suite) (ps_ciphersuite_id suite)
                         0 thread_id [] [] in
  map_err (λ e, ClMls (mls_error_to_string e))
    (cfg_hash_for_thread_config HashSha256 thread_config).

Fixpoint add_members (g : Group) (members : list string) : option (result ClientError Group) :=
  match members with
  | [] => Some (Ok g)
  | m :: rest =>
      match add_member g m with
      | None => None
      | Some (_, Err e) => Some (Err (ClMls (mls_error_to_string e)))
      | Some (g', Ok _) => add_members g' rest
      end
  end.

Definition build_group_for_members (members : list string) (cfg_hash : bytes)
    (initial_secret_hex : string) (suite : ProtoSuite) : option (result ClientError Group) :=
  match client_hex initial_secret_hex with
  | Err e => Some (Err e)
  | Ok initial_secret =>
      match group_create (mkGroupConfig suite 0 (hash_id_as_u16 HashSha256) cfg_hash
                            (Some initial_secret)) with
      | None => None
      | Some (Err e) => Some (Err (ClMls (mls_error_to_string e)))
      | Some (Ok group) => add_members group members
      end
  end.

Definition rebuild_thread_group (t : ThreadState) : option (result ClientError Group) :=
  match client_hex (th_cfg_hash_hex t) with
  | Err e => Some (Err e)
  | Ok cfg_hash =>
      build_group_for_members (th_members t) cfg_hash (th_initial_secret_hex t)
        (thread_proto_suite t)
  end.

(** [thread_id] and [initial_secret] are the two random strings, [now] the clock. *)
Definition create_thread_state (identity : IdentityState) (members : list string)
    (thread_id initial_secret : bytes) (now : Z) : option (result ClientError ThreadState) :=
  let members := if decide (id_user_id_hex identity ∈ members) then members
                 else members ++ [id_user_id_hex identity] in
  let thread_id := hex_encode thread_id in
  let suite := mkProtoSuite 1 1 0x0001 in
  match build_thread_cfg_hash thread_id suite with
  | Err e => Some (Err e)
  | Ok cfg_hash =>
      let initial_secret := hex_encode initial_secret in
      let!? group := build_group_for_members members cfg_hash initial_secret suite in
      Some (Ok (mkThreadState thread_id members now [] (ps_major suite) (ps_minor suite)
                  (ps_ciphersuite_id suite) (hash_id_as_u16 HashSha256) (hex_encode cfg_hash) 0
                  initial_secret 0 (g_epoch group)))
  end.

Definition create_thread_for_state (s : LocalState) (members : list string)
    (thread_id initial_secret : bytes) (now : Z)
    : option (result ClientError (LocalState * string)) :=
  match clone_identity_from_state s with
  | Err e => Some (Err e)
  | Ok identity =>
      let!? thread := create_thread_state identity members thread_id initial_secret now in
      let tid := th_thread_id_hex thread in
      Some (Ok (set_threads (<[tid := thread]> (ls_threads s)) s, tid))
  end.

Definition inbox_keys_for_thread (t : ThreadState) (sender_user_id_hex : string)
    : result ClientError (list bytes) :=
  try_map client_hex (filter (λ m, m ≠ sender_user_id_hex) (th_members t)).

(** ** Sealing *)

(** [ChaCha20Poly1305::new_from_slice]: the key must have 32 bytes. *)
Definition cipher_key (key : bytes) : result ClientError bytes :=
  if decide (length key = 32%nat) then Ok key else Err (ClCrypto "Invalid Length").

Definition encrypt_payload_with_aead (group_secret plaintext ad nonce : bytes)
    : result ClientError bytes :=
  let? key := cipher_key (hash_bytes HashSha256 group_secret) in
  let? ciphertext := map_err (λ _, ClCrypto "aead::Error") (aead_encrypt key nonce ad plaintext) in
  Ok (nonce ++ ciphertext).

Definition decrypt_payload_with_aead (group_secret ciphertext ad : bytes)
    : result ClientError bytes :=
  if zlen ciphertext <? 12 then Err ClInvalidAeadPayload
  else
    let? key := cipher_key (hash_bytes HashSha256 group_secret) in
    let nonce := take 12 ciphertext in
    let payload := drop 12 ciphertext in
    map_err (λ _, ClCrypto "aead::Error") (aead_decrypt key nonce ad payload).

Definition derive_sender_ad_id (sender_id : bytes) : bytes :=
  take 20 (hash_bytes HashSha256 sender_id).

Definition set_signature (e : Envelope) (sig : option bytes) : Envelope :=
  mkEnvelope (env_thread_id e) (env_epoch e) (env_seq e) (env_sender_user_id e)
    (env_ciphertext e) sig (env_extensions e).

Definition build_envelope (identity : IdentityState) (t : ThreadState) (epoch seq : Z)
    (ciphertext : bytes) : result ClientError Envelope :=
  let? thread_id := client_hex (th_thread_id_hex t) in
  let? sender := client_hex (id_user_id_hex identity) in
  let envelope := mkEnvelope thread_id epoch seq sender ciphertext None [] in
  let? signing_key := signing_key_from_hex (id_signing_key_hex identity) in
  let? hash := client_core (hash_ctap2_cbor_value HashSha256 envelope) in
  let signature := ed25519_sign_hash signing_key hash in
  Ok (set_signature envelope (Some signature)).

(** The part after the counters have moved. *)
Definition seal_message (identity : IdentityState) (t : ThreadState) (group : Group)
    (epoch seq : Z) (plaintext nonce : bytes) : result ClientError (Envelope * bytes) :=
  let? thread_id_bytes := client_hex (th_thread_id_hex t) in
  let? thread_id := client_core (to_fixed 32 thread_id_bytes) in
  let? cfg_hash_bytes := client_hex (th_cfg_hash_hex t) in
  let? cfg_hash := client_core (to_fixed 32 cfg_hash_bytes) in
  let? sender_id_bytes := client_hex (id_user_id_hex identity) in
  let sender_ad_id := derive_sender_ad_id sender_id_bytes in
  let ad := build_ad thread_id epoch cfg_hash (thread_proto_suite t) seq sender_ad_id in
  let? ciphertext := encrypt_payload_with_aead (gs_group_secret (g_secrets group)) plaintext ad
                       nonce in
  let? envelope := build_envelope identity t epoch seq ciphertext in
  let? payload := client_core (ctap2_bytes_of envelope) in
  Ok (envelope, payload).

Definition encrypt_and_chunk_message (identity : IdentityState) (t : ThreadState)
    (plaintext nonce : bytes)
    : option (ThreadState * result ClientError (Envelope * ChunkManifest * list Chunk)) :=
  match rebuild_thread_group t with
  | None => None
  | Some (Err e) => Some (t, Err e)
  | Some (Ok group) =>
      if negb (g_epoch group <? 2 ^ 32) then Some (t, Err ClInvalidAeadPayload)
      else
        let epoch := g_epoch group in
        let seq := th_next_seq t in
        let t := set_seq_epoch (saturating_add 64 (th_next_seq t) 1) (g_epoch group) t in
        match seal_message identity t group epoch seq plaintext nonce with
        | Err e => Some (t, Err e)
        | Ok (envelope, payload) =>
            chunks ← chunk_data chunking_default payload;
            Some (t, Ok (envelope, manifest_of chunks payload, chunks))
        end
  end.

Definition send_thread_message (identity : IdentityState) (t : ThreadState)
    (plaintext nonce : bytes)
    : option (ThreadState * result ClientError (Envelope * ChunkManifest * list Chunk)) :=
  encrypt_and_chunk_message identity t plaintext nonce.

Definition manifest_state (m : ChunkManifest) : TransportManifestState :=
  mkTransportManifestState (cm_total_len m)
    (map (λ d, mkTransportChunkDescriptorState (cd_index d) (hex_encode (cd_hash d)))
       (cm_chunks m)).

Definition chunk_states (chunks : list Chunk) : list TransportChunkState :=
  map (λ c, mkTransportChunkState (ch_index c) (hex_encode (ch_hash c)) (b64_encode (ch_data c)))
    chunks.

Definition outbox_item (t : ThreadState) (m : ChunkManifest) (chunks : list Chunk) (now : Z)
    : TransportOutboxItem :=
  mkTransportOutboxItem (th_thread_id_hex t) (manifest_state m) (chunk_states chunks) now.

Definition publish_thread_message_transport (identity : IdentityState) (t : ThreadState)
    (plaintext nonce : bytes) (now : Z)
    : option (ThreadState * result ClientError
                (Envelope * ChunkManifest * list Chunk * TransportOutboxItem)) :=
  '(t', r) ← encrypt_and_chunk_message identity t plaintext nonce;
  Some (t', match r with
            | Ok (envelope, m, chunks) => Ok (envelope, m, chunks, outbox_item t' m chunks now)
            | Err e => Err e
            end).

Definition publish_thread_message (identity : IdentityState) (t : ThreadState)
    (plaintext nonce : bytes) (now : Z)
    : option (ThreadState * result ClientError (Envelope * TransportOutboxItem)) :=
  '(t', r) ← encrypt_and_chunk_message identity t plaintext nonce;
  Some (t', match r with
            | Ok (envelope, m, chunks) => Ok (envelope, outbox_item t' m chunks now)
            | Err e => Err e
            end).

(** ** The local transport cache *)

(** [map.entry(key).or_default().push(v)] *)
Definition push_entry (m : gmap string (list string)) (key v : string)
    : gmap string (list string) := <[key := default [] (m !! key) ++ [v]]> m.

Definition member_key (member_bytes : bytes) : string :=
  hex_encode (scan_hashed_key (derive_inbox_scan_key HashSha256 member_bytes)).

(** Pushes [v] under the inbox key of every member but the sender; what was
    pushed before an undecodable member stays. *)
Fixpoint stage_members (members : list string) (sender v : string)
    (m : gmap string (list string)) : gmap string (list string) * result ClientError unit :=
  match members with
  | [] => (m, Ok tt)
  | member :: rest =>
      if decide (member = sender) then stage_members rest sender v m
      else match client_hex member with
           | Err e => (m, Err e)
           | Ok b => stage_members rest sender v (push_entry m (member_key b) v)
           end
  end.

Definition stage_p2p_inbox_delivery (s : LocalState) (t : ThreadState) (sender : string)
    (envelope : Envelope) : LocalState * result ClientError unit :=
  match client_core (ctap2_bytes_of envelope) with
  | Err e => (s, Err e)
  | Ok payload =>
      let '(m, r) := stage_members (th_members t) sender (b64_encode payload) (ls_p2p_inbox s) in
      (set_p2p_inbox m s, r)
  end.

(** [store.entry(hash).or_insert_with(..)] *)
Definition stage_chunk (store : gmap string string) (c : Chunk) : gmap string string :=
  match store !! hex_encode (ch_hash c) with
  | Some _ => store
  | None => <[hex_encode (ch_hash c) := b64_encode (ch_data c)]> store
  end.

Definition stage_transport_delivery_for_members (s : LocalState) (members : list string)
    (sender : string) (manifest : ChunkManifest) (chunks : list Chunk)
    : LocalState * result ClientError unit :=
  match client_transport (manifest_payload manifest) with
  | Err e => (s, Err e)
  | Ok payload =>
      let '(m, r) := stage_members members sender (b64_encode payload) (ls_transport_gossip s) in
      let s := set_transport_gossip m s in
      match r with
      | Err e => (s, Err e)
      | Ok _ => (set_transport_chunk_store
                   (fold_left stage_chunk chunks (ls_transport_chunk_store s)) s, Ok tt)
      end
  end.

Definition stage_transport_delivery (s : LocalState) (t : ThreadState) (sender : string)
    (manifest : ChunkManifest) (chunks : list Chunk) : LocalState * result ClientError unit :=
  stage_transport_delivery_for_members s (th_members t) sender manifest chunks.

Definition transport_inbox_has_items (s : LocalState) (inbox_scan_key : bytes) : bool :=
  match ls_transport_gossip s !! member_key inbox_scan_key with
  | Some items => negb (bool_decide (items = []))
  | None => false
  end.

Record ThreadMessageDispatch := mkThreadMessageDispatch {
  td_thread_id_hex : string;
  td_sender_user_id_hex : string;
  td_envelope : Envelope;
  td_manifest : ChunkManifest;
  td_chunks : list Chunk;
  td_chunk_count : Z;
  td_recipient_inbox_keys : list bytes;
}.

Definition put_thread (key : string) (t : ThreadState) (s : LocalState) : LocalState :=
  set_threads (<[key := t]> (ls_threads s)) s.

Definition send_thread_message_for_state (s : LocalState) (thread_id_hex text : string)
    (nonce : bytes) (now now' : Z)
    : option (LocalState * result ClientError ThreadMessageDispatch) :=
  match clone_identity_from_state s with
  | Err e => Some (s, Err e)
  | Ok identity =>
      match ls_threads s !! thread_id_hex with
      | None => Some (s, Err ClThreadNotFound)
      | Some t =>
          '(t1, r) ← publish_thread_message_transport identity t (as_bytes text) nonce now;
          match r with
          | Err e => Some (put_thread thread_id_hex t1 s, Err e)
          | Ok (envelope, manifest, chunks, item) =>
              match inbox_keys_for_thread t1 (id_user_id_hex identity) with
              | Err e => Some (put_thread thread_id_hex t1 s, Err e)
              | Ok keys =>
                  let t2 := push_message (mkMessageState (id_user_id_hex identity) text now') t1 in
                  let s2 := put_thread thread_id_hex t2 s in
                  let s3 := set_transport_outbox (ls_transport_outbox s2 ++ [item]) s2 in
                  let '(s4, staged) := stage_transport_delivery_for_members s3 (th_members t2)
                                         (id_user_id_hex identity) manifest chunks in
                  Some (s4, match staged with
                            | Err e => Err e
                            | Ok _ => Ok (mkThreadMessageDispatch (th_thread_id_hex t2)
                                (id_user_id_hex identity) envelope manifest chunks (zlen chunks) keys)
                            end)
              end
          end
      end
  end.

(** ** Opening *)

Definition parse_envelope_payload (payload : bytes) : result ClientError Envelope :=
  client_core (from_ctap2_canonical_slice Envelope_deserialize payload).

Definition resolve_sender_verifying_key (s : LocalState) (sender : string)
    : result ClientError bytes :=
  let from_contacts :=
    let? contact := ok_or (ls_contacts s !! sender) (ClUnknownSender sender) in
    let? b := client_hex (ct_verifying_key_hex contact) in
    try_into_fixed 32 ClSignatureInvalid b in
  match ls_identity s with
  | Some identity =>
      if decide (id_user_id_hex identity = sender) then
        let? b := client_hex (id_verifying_key_hex identity) in
        try_into_fixed 32 ClSignatureInvalid b
      else from_contacts
  | None => from_contacts
  end.

Definition verify_envelope_signature (envelope : Envelope) (verifying_key : bytes)
    : result ClientError unit :=
  let? signature := ok_or (env_signature envelope) ClMissingSignature in
  let? signature := try_into_fixed 64 ClSignatureInvalid signature in
  let? _ := map_err (λ _, ClSignatureInvalid) (ed_key_from_bytes verifying_key) in
  let? hash := client_core (hash_ctap2_cbor_value HashSha256 (set_signature envelope None)) in
  map_err (λ _, ClSignatureInvalid) (ed25519_verify_hash verifying_key hash signature).

(** The checks before the group is rebuilt, and the decryption after. *)
Definition check_envelope (s : LocalState) (t : ThreadState) (envelope : Envelope)
    : result ClientError unit :=
  if negb (bool_decide (th_thread_id_hex t = hex_encode (env_thread_id envelope)))
  then Err ClThreadNotFound
  else
    let sender := hex_encode (env_sender_user_id envelope) in
    if negb (bool_decide (sender ∈ th_members t)) then Err ClUnauthorizedSender
    else
      let? verifying_key := resolve_sender_verifying_key s sender in
      verify_envelope_signature envelope verifying_key.

Definition open_message (t : ThreadState) (group : Group) (envelope : Envelope)
    : result ClientError bytes :=
  let? thread_id_bytes := client_hex (th_thread_id_hex t) in
  let? thread_id := client_core (to_fixed 32 thread_id_bytes) in
  let? cfg_hash_bytes := client_hex (th_cfg_hash_hex t) in
  let? cfg_hash := client_core (to_fixed 32 cfg_hash_bytes) in
  let sender_ad_id := derive_sender_ad_id (env_sender_user_id envelope) in
  let ad := build_ad thread_id (env_epoch envelope) cfg_hash (thread_proto_suite t)
              (env_seq envelope) sender_ad_id in
  decrypt_payload_with_aead (gs_group_secret (g_secrets group)) (env_ciphertext envelope) ad.

Definition decrypt_thread_envelope (s : LocalState) (t : ThreadState) (envelope : Envelope)
    : option (result ClientError bytes) :=
  match check_envelope s t envelope with
  | Err e => Some (Err e)
  | Ok _ =>
      let!? group := rebuild_thread_group t in
      Some (open_message t group envelope)
  end.

Record DecryptedInboxItem := mkDecryptedInboxItem {
  di_thread_id_hex : string;
  di_sender_user_id_hex : string;
  di_plaintext : bytes;
}.

(** Parsing, lookup of the thread and decryption of one payload. *)
Definition open_payload (s : LocalState) (payload : bytes)
    : option (result ClientError DecryptedInboxItem) :=
  match parse_envelope_payload payload with
  | Err e => Some (Err e)
  | Ok envelope =>
      let thread_id_hex := hex_encode (env_thread_id envelope) in
      match ls_threads s !! thread_id_hex with
      | None => Some (Err ClThreadNotFound)
      | Some t =>
          let!? plaintext := decrypt_thread_envelope s t envelope in
          Some (Ok (mkDecryptedInboxItem thread_id_hex
                      (hex_encode (env_sender_user_id envelope)) plaintext))
      end
  end.

Definition add_stored_chunk (s : LocalState) (store : gmap bytes bytes) (d : ChunkDescriptor)
    : result ClientError (gmap bytes bytes) :=
  let hash_hex := hex_encode (cd_hash d) in
  let? data_base64 := ok_or (ls_transport_chunk_store s !! hash_hex)
                        (ClTransport ("missing transport chunk " +:+ hash_hex)) in
  let? data := map_err (λ _, ClTransport "invalid transport chunk encoding")
                 (b64_decode data_base64) in
  Ok (<[cd_hash d := data]> store).

Definition build_transport_chunk_store (s : LocalState) (manifest : ChunkManifest)
    : result ClientError (gmap bytes bytes) :=
  try_fold (add_stored_chunk s) ∅ (cm_chunks manifest).

(** From one gossip entry to the payload it announces. *)
Definition recover_payload (s : LocalState) (payload_base64 : string)
    : result ClientError bytes :=
  let? payload := map_err (λ _, ClTransport "invalid manifest payload encoding")
                    (b64_decode payload_base64) in
  let? manifest := client_transport (recover_manifest_from_gossip [payload]) in
  let? store := build_transport_chunk_store s manifest in
  let? chunks := client_transport (recover_chunks_from_store manifest store transport_default) in
  client_transport (reassemble_chunks_with_manifest manifest chunks transport_default).

Fixpoint receive_entries (s : LocalState) (entries : list string)
    : option (result ClientError (list DecryptedInboxItem)) :=
  match entries with
  | [] => Some (Ok [])
  | entry :: rest =>
      match recover_payload s entry with
      | Err e => Some (Err e)
      | Ok payload =>
          let!? item := open_payload s payload in
          let!? items := receive_entries s rest in
          Some (Ok (item :: items))
      end
  end.

(** The gossip entries are taken out of the state first. *)
Definition receive_transport_messages (s : LocalState) (inbox_scan_key : bytes)
    : option (LocalState * result ClientError (list DecryptedInboxItem)) :=
  let key_hex := member_key inbox_scan_key in
  let entries := default [] (ls_transport_gossip s !! key_hex) in
  let s := set_transport_gossip (delete key_hex (ls_transport_gossip s)) s in
  r ← receive_entries s entries;
  Some (s, r).

(** ** The inbox *)

(** [scan] is the bridge client's scan of the inbox, if there is a bridge. *)
Definition resolve_inbox_from_state (s : LocalState) (inbox_scan_key : bytes)
    (scan : option (bytes → result TransportError InboxScanResponse))
    : LocalState * result ClientError InboxScanResponse :=
  let key_hex := member_key inbox_scan_key in
  match ls_p2p_inbox s !! key_hex with
  | Some items =>
      (set_p2p_inbox (delete key_hex (ls_p2p_inbox s)) s,
       Ok (mkInboxScanResponse (omap (λ item, result_ok (b64_decode item)) items) SourceKademlia))
  | None =>
      (s, match scan with
          | Some client => client_transport (client inbox_scan_key)
          | None => Ok (mkInboxScanResponse [] SourceKademlia)
          end)
  end.

Definition receive_inbox_payloads (s : LocalState) (inbox_scan_key : bytes)
    (scan : option (bytes → result TransportError InboxScanResponse))
    : LocalState * result ClientError InboxScanResponse :=
  resolve_inbox_from_state s inbox_scan_key scan.

Fixpoint open_payloads (s : LocalState) (payloads : list bytes)
    : option (result ClientError (list DecryptedInboxItem)) :=
  match payloads with
  | [] => Some (Ok [])
  | payload :: rest =>
      let!? item := open_payload s payload in
      let!? items := open_payloads s rest in
      Some (Ok (item :: items))
  end.

Definition receive_inbox_messages (s : LocalState) (inbox_scan_key : bytes)
    (scan : option (bytes → result TransportError InboxScanResponse))
    : option (LocalState * result ClientError (list DecryptedInboxItem * InboxSource)) :=
  let '(s, r) := resolve_inbox_from_state s inbox_scan_key scan in
  match r with
  | Err e => Some (s, Err e)
  | Ok response =>
      opened ← open_payloads s (scan_items response);
      Some (s, match opened with
               | Err e => Err e
               | Ok items => Ok (items, scan_source response)
               end)
  end.

Record InboxMessageReceipt := mkInboxMessageReceipt {
  rc_thread_id_hex : string;
  rc_sender_user_id_hex : string;
  rc_text : string;
}.

(** One item recorded in its thread. *)
Definition record_item (s : LocalState) (item : DecryptedInboxItem) (now : Z)
    : result ClientError (LocalState * InboxMessageReceipt) :=
  let? text := ok_or (from_utf8 (di_plaintext item)) ClInvalidMessageEncoding in
  let? t := ok_or (ls_threads s !! di_thread_id_hex item) ClThreadNotFound in
  Ok (put_thread (di_thread_id_hex item)
        (push_message (mkMessageState (di_sender_user_id_hex item) text now) t) s,
      mkInboxMessageReceipt (di_thread_id_hex item) (di_sender_user_id_hex item) text).

Fixpoint record_inbox_messages (s : LocalState) (items : list DecryptedInboxItem) (now : Z)
    : LocalState * result ClientError (list InboxMessageReceipt) :=
  match items with
  | [] => (s, Ok [])
  | item :: rest =>
      match record_item s item now with
      | Err e => (s, Err e)
      | Ok (s', receipt) =>
          let '(s'', r) := record_inbox_messages s' rest now in
          (s'', match r with Ok receipts => Ok (receipt :: receipts) | Err e => Err e end)
      end
  end.

Fixpoint ingest_inbox_payloads (s : LocalState) (payloads : list bytes) (now : Z)
    : option (LocalState * result ClientError (list InboxMessageReceipt)) :=
  match payloads with
  | [] => Some (s, Ok [])
  | payload :: rest =>
      match open_payload s payload with
      | None => None
      | Some (Err e) => Some (s, Err e)
      | Some (Ok item) =>
          match record_item s item now with
          | Err e => Some (s, Err e)
          | Ok (s', receipt) =>
              '(s'', r) ← ingest_inbox_payloads s' rest now;
              Some (s'', match r with Ok receipts => Ok (receipt :: receipts) | Err e => Err e end)
          end
      end
  end.

End threads.
