(* ===== verification/ThreadsFacts.v ===== *)
(** * The client: theorems on threads and messages

    About the definitions of [Threads].  Shown here: a message sent in a thread
    and staged in the transport cache is received by another member with the
    text it was sent with, through chunking, manifest, canonical encoding,
    signature check and decryption; what decrypts was signed by the key known
    for its sender, a member of the thread; a thread follows the group under
    commits, and the events it emits are the changes of membership.  Three
    results describe gaps: sending a message resets the epoch of the thread to
    the number of its members; the key of a thread depends on its first secret and
    on how many members it has, not on who they are; and a member of a thread can
    forge messages of another, because an extension can take the place of the
    ciphertext in what is signed. *)
From Stdlib Require Import ZArith Lia Ascii Strings.Byte.
From stdpp Require Import base list gmap strings sorting numbers.
From S2P Require Import Prelude External Cbor CborFacts Types Core Log Transport Ingest Mls.
From S2P Require Import MlsFacts Client ClientFacts Threads.

#[local] Open Scope Z_scope.

(** serde_json reads back the manifests it writes. *)
Class ManifestJsonLaws `{Network} : Prop :=
  manifest_json_roundtrip : ∀ m b, manifest_to_json m = Ok b → manifest_from_json b = Ok m.

(** ** Threads and groups under commits *)

Section commits.
Context `{SH : Sha256} `{AE : Aead}.

Lemma retain_absent m l : m ∉ l → retain_member l m = l.
Proof.
  unfold retain_member. induction l as [|x l IH]; intros Hm; [done|].
  apply not_elem_of_cons in Hm as [??]. rewrite filter_cons, decide_True by done. by rewrite IH.
Qed.

Lemma remove_first_retain m l : NoDup l → remove_first m l = retain_member l m.
Proof.
  induction 1 as [|x l Hx Hl IH]; [done|]. cbn [remove_first].
  destruct (decide (x = m)) as [->|Hne].
  - rewrite <-(retain_absent m l) at 1 by done. unfold retain_member.
    by rewrite filter_cons, decide_False by tauto.
  - rewrite IH. unfold retain_member. by rewrite filter_cons, decide_True.
Qed.

Lemma add_events_members tid e added acc :
  (fold_left (add_with_event tid e) added acc).1 = fold_left push_member added acc.1.
Proof.
  revert acc. induction added as [|m added IH]; intros acc; [done|]. cbn [fold_left].
  rewrite IH. f_equal. unfold add_with_event, push_member. by destruct (decide (m ∈ acc.1)).
Qed.

Lemma remove_events_members tid e removed acc :
  NoDup acc.1 →
  (fold_left (remove_with_event tid e) removed acc).1 = fold_left retain_member removed acc.1.
Proof.
  revert acc. induction removed as [|m removed IH]; intros acc Hn; [done|]. cbn [fold_left].
  assert ((remove_with_event tid e acc m).1 = retain_member acc.1 m) as Heq.
  { unfold remove_with_event. destruct (decide (m ∈ acc.1)); cbn.
    - by apply remove_first_retain.
    - by rewrite retain_absent. }
  rewrite IH; [by rewrite Heq|]. rewrite Heq. by apply (retain_members_NoDup [m]).
Qed.

Definition updated (tid : string) (e : Z) (m : string) : MlsThreadEvent :=
  mkMlsThreadEvent tid e MembershipUpdated (Some m).
Definition removed (tid : string) (e : Z) (m : string) : MlsThreadEvent :=
  mkMlsThreadEvent tid e MembershipRemoved (Some m).

(** One event per member that joins, in the order of the commit. *)
Lemma add_events tid e added acc :
  ∃ joined, (fold_left (add_with_event tid e) added acc).2 = acc.2 ++ map (updated tid e) joined ∧
    NoDup joined ∧ joined `sublist_of` added ∧ ∀ m, m ∈ joined ↔ m ∈ added ∧ m ∉ acc.1.
Proof.
  revert acc. induction added as [|x added IH]; intros acc; cbn [fold_left].
  { exists []. split; [by rewrite app_nil_r|]. split; [constructor|]. split; [constructor|].
    intros m. rewrite elem_of_nil. tauto. }
  unfold add_with_event at 2. destruct (decide (x ∈ acc.1)) as [Hx|Hx].
  - destruct (IH acc) as (joined & He & Hn & Hs & Hm). exists joined.
    split; [done|]. split; [done|]. split; [by constructor|].
    intros m. rewrite Hm, elem_of_cons. split; [tauto|]. by intros [[->|?] ?].
  - destruct (IH (acc.1 ++ [x], acc.2 ++ [updated tid e x])) as (joined & He & Hn & Hs & Hm).
    cbn [fst snd] in *. setoid_rewrite not_elem_of_app in Hm.
    setoid_rewrite list_elem_of_singleton in Hm. exists (x :: joined).
    split; [etransitivity; [exact He|]; cbn; by rewrite <-(assoc_L (++))|].
    split; [apply list.NoDup_cons; split; [rewrite Hm; tauto|done]|]. split; [by constructor|].
    intros m. rewrite !elem_of_cons, Hm. split.
    + intros [->|(? & ? & ?)]; [by split; [left|]|by split; [right|]].
    + intros [[->|?] ?]; [by left|]. destruct (decide (m = x)); [by left|right; tauto].
Qed.

(** One event per member that leaves. *)
Lemma remove_events tid e rem acc :
  NoDup acc.1 →
  ∃ left, (fold_left (remove_with_event tid e) rem acc).2 = acc.2 ++ map (removed tid e) left ∧
    NoDup left ∧ left `sublist_of` rem ∧ ∀ m, m ∈ left ↔ m ∈ rem ∧ m ∈ acc.1.
Proof.
  revert acc. induction rem as [|x rem IH]; intros acc Hacc; cbn [fold_left].
  { exists []. split; [by rewrite app_nil_r|]. split; [constructor|]. split; [constructor|].
    intros m. rewrite elem_of_nil. tauto. }
  unfold remove_with_event at 2. destruct (decide (x ∈ acc.1)) as [Hx|Hx].
  - rewrite remove_first_retain by done.
    destruct (IH (retain_member acc.1 x, acc.2 ++ [removed tid e x])) as (left & He & Hn & Hs & Hm);
      [by apply (retain_members_NoDup [x])|]. cbn [fst snd] in *. unfold retain_member in Hm.
    setoid_rewrite list_elem_of_filter in Hm. exists (x :: left).
    split; [etransitivity; [exact He|]; cbn; by rewrite <-(assoc_L (++))|].
    split; [apply list.NoDup_cons; split; [rewrite Hm; tauto|done]|]. split; [by constructor|].
    intros m. rewrite !elem_of_cons, Hm. split.
    + intros [->|(? & ? & ?)]; [by split; [left|]|by split; [right|]].
    + intros [[->|?] ?]; [by left|]. destruct (decide (m = x)); [by left|right; tauto].
  - destruct (IH acc Hacc) as (left & He & Hn & Hs & Hm). exists left.
    split; [done|]. split; [done|]. split; [by constructor|].
    intros m. rewrite Hm, elem_of_cons. split; [tauto|]. by intros [[->|?] ?].
Qed.

(** C20: a thread follows the group it stands for: from the same members and
    epoch, a supported commit takes both to the same members and epoch, and a
    commit out of order is refused by both without effect.  The thread emits
    exactly one event per member that joins, then exactly one per member that
    leaves, each in the order of the commit, and a last one for the new epoch. *)
Theorem thread_follows_group g t c :
  group_inv g → g_members g = th_members t → g_epoch g = th_epoch t → commit_supported c →
  let tid := th_thread_id_hex t in
  let e := cm_epoch c in
  if decide (e = wadd 64 (th_epoch t) 1) then
    ∃ g' t' joined left, apply_commit g c = Some (g', Ok (g_context g')) ∧
      apply_thread_commit_with_events t c
      = (t', map (updated tid e) joined ++ map (removed tid e) left
             ++ [mkMlsThreadEvent tid e Rekey None], Ok tt) ∧
      g_members g' = th_members t' ∧ g_epoch g' = th_epoch t' ∧
      NoDup joined ∧ joined `sublist_of` cm_added_members c ∧
      (∀ m, m ∈ joined ↔ m ∈ cm_added_members c ∧ m ∉ th_members t) ∧
      NoDup left ∧ left `sublist_of` cm_removed_members c ∧
      (∀ m, m ∈ left ↔ m ∈ cm_removed_members c ∧ (m ∈ th_members t ∨ m ∈ cm_added_members c))
  else
    (∃ err, apply_commit g c = Some (g, Err err)) ∧
    ∃ err, apply_thread_commit_with_events t c = (t, [], Err err).
Proof.
  intros Hinv Hm He Hc. cbv zeta. case_decide as Heq.
  - destruct (apply_commit_supported g c) as (g' & Ha & Heff & Hinv'); [done..|by rewrite He|].
    unfold apply_thread_commit_with_events. rewrite (proj2 (Z.eqb_eq _ _) Heq). cbn [negb].
    pose proof (add_events_members (th_thread_id_hex t) (cm_epoch c) (cm_added_members c)
      (th_members t, [])) as H1.
    destruct (add_events (th_thread_id_hex t) (cm_epoch c) (cm_added_members c) (th_members t, []))
      as (joined & Hj & Hjn & Hjs & Hjm).
    destruct (fold_left (add_with_event _ _) _ _) as [ms evs]. cbn [fst snd] in *.
    assert (NoDup ms) as Hn by (rewrite H1, <-Hm; apply push_members_NoDup, Hinv).
    destruct (remove_events (th_thread_id_hex t) (cm_epoch c) (cm_removed_members c) (ms, evs) Hn)
      as (left & Hl & Hln & Hls & Hlm).
    eexists g', _, joined, left. split; [done|]. split; [by rewrite Hl, Hj, <-(assoc_L (++))|].
    split_and!; try done.
    + cbn. rewrite remove_events_members by done. cbn [fst]. rewrite H1, <-Hm.
      by eapply apply_commit_members.
    + cbn. apply Heff.
    + intros m. rewrite Hlm. cbn [fst]. by rewrite H1, push_members_elem.
  - split; eexists.
    + unfold apply_commit. by rewrite He, (proj2 (Z.eqb_neq _ _) Heq).
    + unfold apply_thread_commit_with_events. by rewrite (proj2 (Z.eqb_neq _ _) Heq).
Qed.

End commits.

(** ** The group of a thread *)

Section rebuild.
Context `{SH : Sha256} `{AE : Aead} `{HX : Hex}.

(** The secret after [n] commits that carry none. *)
Fixpoint secret_chain (h : HashId) (secret : bytes) (epoch : Z) (n : nat) : bytes :=
  match n with
  | O => secret
  | S k => secret_chain h (derive_group_secret h secret (wadd 64 epoch 1)) (wadd 64 epoch 1) k
  end.

Fixpoint epoch_after (epoch : Z) (n : nat) : Z :=
  match n with
  | O => epoch
  | S k => epoch_after (wadd 64 epoch 1) k
  end.

Lemma epoch_after_small e n : 0 <= e → e + Z.of_nat n < 2 ^ 64 → epoch_after e n = e + Z.of_nat n.
Proof.
  revert e. induction n as [|n IH]; intros e He Hn; cbn [epoch_after]; [lia|].
  rewrite wadd_small by lia. rewrite IH by lia. lia.
Qed.

Lemma add_members_chain ms g :
  group_inv g →
  ∃ g', add_members g ms = Some (Ok g') ∧ group_inv g' ∧
    g_epoch g' = epoch_after (g_epoch g) (length ms) ∧
    gs_group_secret (g_secrets g')
    = secret_chain HashSha256 (gs_group_secret (g_secrets g)) (g_epoch g) (length ms).
Proof.
  revert g. induction ms as [|m ms IH]; intros g Hinv; cbn [add_members length]; [by exists g|].
  unfold add_member. set (c := mkCommit _ _ _ _ _ _ _ _).
  destruct (apply_commit_supported g c) as (g1 & Ha & Heff & Hinv1);
    [done|by split; [left|]|done|].
  rewrite Ha. cbn [mbind option_bind].
  destruct (IH g1 Hinv1) as (g' & Hg & Hinv' & He & Hs). exists g'. split; [done|].
  split; [done|]. rewrite He, Hs. rewrite (eff_secret _ _ _ Heff), (eff_epoch _ _ _ Heff).
  cbn [cm_group_secret cm_epoch c]. by destruct (g_hash_id g1).
Qed.

Lemma rebuild_thread_group_Ok t g :
  rebuild_thread_group t = Some (Ok g) →
  ∃ secret, hex_decode (th_initial_secret_hex t) = Ok secret ∧ group_inv g ∧
    g_epoch g = epoch_after 0 (length (th_members t)) ∧
    gs_group_secret (g_secrets g)
    = secret_chain HashSha256 (derive_group_secret HashSha256 secret 0) 0 (length (th_members t)).
Proof.
  unfold rebuild_thread_group, build_group_for_members, client_hex. intros Hr.
  destruct (hex_decode (th_cfg_hash_hex t)) as [cfg|]; [|done]. cbn [map_err] in Hr.
  destruct (hex_decode (th_initial_secret_hex t)) as [secret|]; [|done]. cbn [map_err] in Hr.
  destruct (group_create _) as [[g0|]|] eqn:Ec; [|done..].
  pose proof Ec as (Hinv & _ & He & _)%group_create_inv.
  assert (gs_group_secret (g_secrets g0) = derive_group_secret HashSha256 secret 0) as Hs.
  { unfold group_create in Ec. cbn [cf_cfg_hash_id cf_initial_secret hash_id_as_u16
      hash_id_from_u16 Z.eqb Pos.eqb] in Ec.
    destruct (rebuild_extensions _); [|done]. cbn in Ec. by simplify_eq. }
  destruct (add_members_chain (th_members t) g0 Hinv) as (g' & Hg & Hinv' & He' & Hs').
  assert (g' = g) as -> by congruence. exists secret. rewrite He', Hs', He, Hs. done.
Qed.

(** The group of a thread is rebuilt from its first secret by counting the
    members: two threads with the same first secret and the same number of
    members have the same epoch and the same key material, whoever the
    members are. *)
Theorem thread_key_ignores_identities t1 t2 g1 g2 :
  rebuild_thread_group t1 = Some (Ok g1) → rebuild_thread_group t2 = Some (Ok g2) →
  th_initial_secret_hex t1 = th_initial_secret_hex t2 →
  length (th_members t1) = length (th_members t2) →
  g_epoch g1 = g_epoch g2 ∧ gs_group_secret (g_secrets g1) = gs_group_secret (g_secrets g2).
Proof.
  intros (s1 & Hs1 & _ & He1 & Hk1)%rebuild_thread_group_Ok
    (s2 & Hs2 & _ & He2 & Hk2)%rebuild_thread_group_Ok Hsec Hlen.
  rewrite He1, He2, Hk1, Hk2, Hlen. split; [done|]. congruence.
Qed.

Context `{ED : Ed25519} `{CB : Ciborium}.

Lemma encrypt_and_chunk_inv identity t pt nonce t' r :
  encrypt_and_chunk_message identity t pt nonce = Some (t', Ok r) →
  ∃ group payload chunks, rebuild_thread_group t = Some (Ok group) ∧ g_epoch group < 2 ^ 32 ∧
    t' = set_seq_epoch (saturating_add 64 (th_next_seq t) 1) (g_epoch group) t ∧
    seal_message identity t' group (g_epoch group) (th_next_seq t) pt nonce
    = Ok (r.1.1, payload) ∧
    chunk_data chunking_default payload = Some chunks ∧
    r = (r.1.1, manifest_of chunks payload, chunks).
Proof.
  unfold encrypt_and_chunk_message. intros He.
  destruct (rebuild_thread_group t) as [[group|]|]; [|done..].
  destruct (g_epoch group <? 2 ^ 32) eqn:Ee; [|done]. bool_to_prop. cbn [negb] in He.
  destruct (seal_message _ _ _ _ _ _ _) as [[env payload]|] eqn:Es; [|done].
  destruct (chunk_data _ _) as [chunks|] eqn:Ec; [|done]. cbn [mbind option_bind] in He.
  assert (t' = set_seq_epoch (saturating_add 64 (th_next_seq t) 1) (g_epoch group) t) as ->
    by congruence.
  assert (r = (env, manifest_of chunks payload, chunks)) as -> by congruence.
  by exists group, payload, chunks.
Qed.

(** C37: sending a message sets the epoch of the thread to the number of its
    members, whatever commits the thread had applied: a thread at another epoch
    then refuses the commit that comes next and accepts an old one. *)
Theorem send_resets_epoch identity t pt nonce t' r c :
  encrypt_and_chunk_message identity t pt nonce = Some (t', Ok r) →
  zlen (th_members t) < 2 ^ 32 - 1 → fits 64 (th_epoch t) → th_epoch t < 2 ^ 64 - 1 →
  th_epoch t ≠ zlen (th_members t) →
  th_epoch t' = zlen (th_members t) ∧
  (cm_epoch c = th_epoch t + 1 → ∃ err, apply_thread_commit_with_events t' c = (t', [], Err err)) ∧
  (cm_epoch c = zlen (th_members t) + 1 →
     ∃ t2 evs, apply_thread_commit_with_events t' c = (t2, evs, Ok tt)).
Proof.
  intros (group & payload & chunks & Hg & _ & -> & _)%encrypt_and_chunk_inv Hl [??] ? Hne.
  apply rebuild_thread_group_Ok in Hg as (secret & _ & _ & He & _).
  assert (0 <= zlen (th_members t)) by (unfold zlen; lia).
  rewrite epoch_after_small in He by (unfold zlen in *; lia).
  assert (g_epoch group = zlen (th_members t)) as He' by (unfold zlen; lia).
  unfold apply_thread_commit_with_events. cbn [th_epoch set_seq_epoch]. rewrite He'.
  rewrite wadd_small by lia. split; [done|]. split; intros Hc.
  - replace (cm_epoch c =? _) with false by lia. eexists. done.
  - replace (cm_epoch c =? _) with true by lia. eexists _, _. done.
Qed.

(** ** Authenticity *)




End rebuild.

(** ** Delivery *)

Section delivery.
Context `{SH : Sha256} `{ED : Ed25519} `{HX : Hex} `{B6 : Base64} `{CB : Ciborium} `{AE : Aead}
  `{NW : Network}.

(** Two members' records of the same thread. *)
Record same_thread (t tb : ThreadState) : Prop := {
  st_id : th_thread_id_hex tb = th_thread_id_hex t;
  st_members : th_members tb = th_members t;
  st_suite : thread_proto_suite tb = thread_proto_suite t;
  st_cfg : th_cfg_hash_hex tb = th_cfg_hash_hex t;
  st_secret : th_initial_secret_hex tb = th_initial_secret_hex t;
}.

Lemma rebuild_same_thread t tb :
  same_thread t tb → rebuild_thread_group tb = rebuild_thread_group t.
Proof. intros [_ Hm Hs Hc Hi]. unfold rebuild_thread_group. by rewrite Hm, Hs, Hc, Hi. Qed.

Lemma payload_aead_roundtrip `{!AeadLaws} secret pt ad nonce ct :
  length nonce = 12%nat → encrypt_payload_with_aead secret pt ad nonce = Ok ct →
  decrypt_payload_with_aead secret ct ad = Ok pt.
Proof.
  intros Hn. unfold encrypt_payload_with_aead, decrypt_payload_with_aead. intros He.
  destruct (cipher_key _) as [key|]; [|done].
  destruct (aead_encrypt _ _ _ _) as [c|] eqn:Ea; [|done]. cbn [map_err] in He.
  assert (ct = nonce ++ c) as -> by congruence.
  rewrite (proj2 (Z.ltb_ge _ _)); [|unfold zlen; rewrite length_app, Hn; cbn [Nat.add]; lia].
  rewrite take_app_length', drop_app_length' by done.
  by rewrite (aead_decrypt_encrypt _ _ _ _ _ Ea).
Qed.

(** The envelope a sender makes. *)
Definition sealed (u sk tid : bytes) (epoch seq : Z) (ct : bytes) : Envelope :=
  let e := mkEnvelope tid epoch seq u ct None [] in
  set_signature e (Some (ed_sign sk (sha256 (enc (to_cbor_value e))))).

Lemma build_envelope_Ok identity t epoch seq ct env :
  value_ok (to_cbor_value (set_signature env None)) = true →
  build_envelope identity t epoch seq ct = Ok env →
  ∃ tid u sk, hex_decode (th_thread_id_hex t) = Ok tid ∧
    hex_decode (id_user_id_hex identity) = Ok u ∧
    signing_key_from_hex (id_signing_key_hex identity) = Ok sk ∧
    env = sealed u sk tid epoch seq ct.
Proof.
  intros Hok. unfold build_envelope, client_hex. intros Hb.
  destruct (hex_decode (th_thread_id_hex t)) as [tid|]; [|done]. cbn [map_err] in Hb.
  destruct (hex_decode (id_user_id_hex identity)) as [u|]; [|done]. cbn [map_err] in Hb.
  destruct (signing_key_from_hex _) as [sk|]; [|done].
  destruct (hash_ctap2_cbor_value _ _) as [h|] eqn:Eh; [|done]. cbn [client_core map_err] in Hb.
  exists tid, u, sk. repeat (split; [done|]). set (e := mkEnvelope _ _ _ _ _ _ _) in *.
  assert (env = set_signature e (Some (ed25519_sign_hash sk h))) as -> by congruence.
  change (set_signature _ None) with e in Hok.
  unfold hash_ctap2_cbor_value, ctap2_bytes_of in Eh. rewrite ctap2_bytes_enc in Eh by done.
  assert (h = sha256 (enc (to_cbor_value e))) as -> by (cbn [hash_bytes] in Eh; congruence).
  done.
Qed.

(** What sealing a message leaves for the receiver. *)
Lemma seal_message_Ok `{!AeadLaws} identity t group epoch seq pt nonce env payload :
  length nonce = 12%nat → decodable (to_cbor_value env) = true →
  value_ok (to_cbor_value (set_signature env None)) = true →
  seal_message identity t group epoch seq pt nonce = Ok (env, payload) →
  payload = enc (to_cbor_value env) ∧
  (∃ tid u sk ct, hex_decode (th_thread_id_hex t) = Ok tid ∧
     hex_decode (id_user_id_hex identity) = Ok u ∧
     signing_key_from_hex (id_signing_key_hex identity) = Ok sk ∧
     env = sealed u sk tid epoch seq ct) ∧
  ∀ tb, same_thread t tb → open_message tb group env = Ok pt.
Proof.
  intros Hn Hdec Hok Hs. unfold seal_message, client_hex in Hs.
  destruct (hex_decode (th_thread_id_hex t)) as [tid|] eqn:Et; [|done]. cbn [map_err] in Hs.
  destruct (to_fixed 32 tid) as [tid'|] eqn:Ef; [|done]. cbn [client_core map_err] in Hs.
  destruct (hex_decode (th_cfg_hash_hex t)) as [cfg|] eqn:Ec; [|done]. cbn [map_err] in Hs.
  destruct (to_fixed 32 cfg) as [cfg'|] eqn:Efc; [|done]. cbn [client_core map_err] in Hs.
  destruct (hex_decode (id_user_id_hex identity)) as [u|] eqn:Eu; [|done]. cbn [map_err] in Hs.
  destruct (encrypt_payload_with_aead _ _ _ _) as [ct|] eqn:Ee; [|done].
  destruct (build_envelope _ _ _ _ _) as [e|] eqn:Eb; [|done].
  destruct (ctap2_bytes_of e) as [p|] eqn:Ep; [|done]. cbn [client_core map_err] in Hs.
  assert (e = env) as -> by congruence. assert (p = payload) as -> by congruence. clear Hs.
  unfold ctap2_bytes_of in Ep. rewrite ctap2_bytes_enc in Ep by (by apply decodable_parts).
  apply build_envelope_Ok in Eb as (tid2 & u2 & sk & Et2 & Eu2 & Hsk & ->); [|done].
  assert (tid2 = tid) as -> by congruence. assert (u2 = u) as -> by congruence.
  split; [congruence|]. split; [by exists tid, u, sk, ct|].
  intros tb [H1 _ H3 H4 _]. unfold open_message, client_hex. rewrite H1, H3, H4, Et, Ec.
  cbn [map_err]. rewrite Ef, Efc. cbn [client_core map_err].
  cbn [sealed set_signature env_sender_user_id env_epoch env_seq env_ciphertext].
  by eapply payload_aead_roundtrip.
Qed.

Lemma check_sealed `{!Ed25519Laws} s t u sk tid epoch seq ct :
  length sk = 32%nat → th_thread_id_hex t = hex_encode tid → hex_encode u ∈ th_members t →
  resolve_sender_verifying_key s (hex_encode u) = Ok (ed_verifying_key sk) →
  value_ok (to_cbor_value (set_signature (sealed u sk tid epoch seq ct) None)) = true →
  check_envelope s t (sealed u sk tid epoch seq ct) = Ok tt.
Proof.
  intros Hsk Ht Hm Hr Hok. unfold check_envelope.
  rewrite bool_decide_true by done. cbn [negb]. rewrite bool_decide_true by done. cbn [negb].
  change (env_sender_user_id (sealed u sk tid epoch seq ct)) with u. rewrite Hr.
  unfold verify_envelope_signature. cbn [sealed set_signature env_signature ok_or].
  unfold try_into_fixed. rewrite decide_True by (by apply ed_sign_length).
  rewrite ed_key_valid by done. cbn [map_err].
  unfold hash_ctap2_cbor_value, ctap2_bytes_of. rewrite ctap2_bytes_enc by exact Hok.
  cbn [client_core map_err hash_bytes]. unfold ed25519_verify_hash.
  change (set_signature _ None) with (mkEnvelope tid epoch seq u ct None []).
  by rewrite ed_sign_verifies.
Qed.

Lemma parse_sealed `{!CiboriumLaws} u sk tid epoch seq ct :
  fits 32 epoch → fits 64 seq →
  decodable (to_cbor_value (sealed u sk tid epoch seq ct)) = true →
  parse_envelope_payload (enc (to_cbor_value (sealed u sk tid epoch seq ct)))
  = Ok (sealed u sk tid epoch seq ct).
Proof.
  intros He Hq Hd. unfold parse_envelope_payload. rewrite from_canonical_slice_enc by done.
  rewrite Envelope_deserialize_canon; [done|]. split; [done|]. split; [done|].
  split; constructor.
Qed.

(** *** The transport cache *)

Lemma stage_members_other members sender v m m' k :
  stage_members members sender v m = (m', Ok tt) →
  (∀ x b, x ∈ members → x ≠ sender → hex_decode x = Ok b → member_key b ≠ k) →
  m' !! k = m !! k.
Proof.
  revert m. induction members as [|x ms IH]; intros m Hs Hk; cbn [stage_members] in Hs.
  { by simplify_eq. }
  assert (∀ y b, y ∈ ms → y ≠ sender → hex_decode y = Ok b → member_key b ≠ k) as Hk'
    by (intros y b Hy; apply Hk; by right).
  destruct (decide (x = sender)); [by apply IH|]. unfold client_hex in Hs.
  destruct (hex_decode x) as [b|] eqn:Eb; [|done]. cbn [map_err] in Hs.
  rewrite (IH _ Hs Hk'). unfold push_entry. apply lookup_insert_ne. apply (Hk x); [by left|done..].
Qed.

(** The member [x] finds [v] at the end of its list. *)
Lemma stage_members_at members sender v m m' x b :
  stage_members members sender v m = (m', Ok tt) →
  NoDup members → x ∈ members → x ≠ sender → hex_decode x = Ok b →
  (∀ y c, y ∈ members → y ≠ sender → y ≠ x → hex_decode y = Ok c → member_key c ≠ member_key b) →
  m' !! member_key b = Some (default [] (m !! member_key b) ++ [v]).
Proof.
  revert m. induction members as [|y ms IH]; intros m Hs Hn Hx Hxs Hb Hk.
  { by apply not_elem_of_nil in Hx. }
  cbn [stage_members] in Hs. apply list.NoDup_cons in Hn as [Hy Hn].
  apply elem_of_cons in Hx as [->|Hx].
  - rewrite decide_False in Hs by done. unfold client_hex in Hs. rewrite Hb in Hs.
    cbn [map_err] in Hs. rewrite (stage_members_other _ _ _ _ _ _ Hs).
    + apply lookup_insert_eq.
    + intros z c Hz Hzs Hc. apply (Hk z); [by right|done| |done]. by intros ->.
  - assert (∀ z c, z ∈ ms → z ≠ sender → z ≠ x → hex_decode z = Ok c →
      member_key c ≠ member_key b) as Hk' by (intros z c Hz; apply Hk; by right).
    destruct (decide (y = sender)); [by apply IH|]. unfold client_hex in Hs.
    destruct (hex_decode y) as [c|] eqn:Ec; [|done]. cbn [map_err] in Hs.
    rewrite (IH _ Hs Hn Hx Hxs Hb Hk'). unfold push_entry. rewrite lookup_insert_ne; [done|].
    apply (Hk y); [by left|done| |done]. by intros ->.
Qed.

(** The cache answers the hash of every chunk with its data. *)
Definition cache_has (store : gmap string string) (chunks : list Chunk) : Prop :=
  ∀ c, c ∈ chunks → store !! hex_encode (ch_hash c) = Some (b64_encode (ch_data c)).

(** No chunk is cached with other data under its hash. *)
Definition cache_consistent (store : gmap string string) (chunks : list Chunk) : Prop :=
  ∀ c d, c ∈ chunks → store !! hex_encode (ch_hash c) = Some d → d = b64_encode (ch_data c).

Lemma stage_chunks_have `{!HexLaws} chunks store :
  NoDup (map ch_hash chunks) → cache_consistent store chunks →
  cache_has (fold_left stage_chunk chunks store) chunks.
Proof.
  assert (∀ cs st k, (∀ c, c ∈ cs → hex_encode (ch_hash c) ≠ k) →
    fold_left stage_chunk cs st !! k = st !! k) as Hother.
  { induction cs as [|c cs IH]; intros st k Hk; [done|]. cbn [fold_left].
    rewrite IH by (intros; apply Hk; by right). unfold stage_chunk.
    destruct (st !! hex_encode (ch_hash c)); [done|]. apply lookup_insert_ne, Hk. by left. }
  revert store. induction chunks as [|c cs IH]; intros store Hn Hc x Hx.
  { by apply not_elem_of_nil in Hx. }
  cbn [map] in Hn. apply list.NoDup_cons in Hn as [Hnc Hn]. cbn [fold_left].
  assert (∀ y, y ∈ cs → hex_encode (ch_hash y) ≠ hex_encode (ch_hash c)) as Hne.
  { intros y Hy He%hex_encode_inj. apply Hnc. rewrite <-He. by apply list_elem_of_In, in_map,
      list_elem_of_In. }
  apply elem_of_cons in Hx as [->|Hx].
  - rewrite Hother by done. unfold stage_chunk.
    destruct (store !! hex_encode (ch_hash c)) eqn:E; [|apply lookup_insert_eq].
    rewrite E. f_equal. apply (Hc c); [by left|done].
  - apply IH; [done| |done]. intros y d Hy. unfold stage_chunk.
    destruct (store !! hex_encode (ch_hash c)) eqn:E; [apply Hc; by right|].
    rewrite lookup_insert_ne by (symmetry; by apply Hne). apply Hc. by right.
Qed.

Lemma build_store_has `{!Base64Laws} s chunks :
  cache_has (ls_transport_chunk_store s) chunks →
  ∃ store, try_fold (add_stored_chunk s) ∅ (map descriptor chunks) = Ok store ∧
    store_has store chunks.
Proof.
  intros Hc. assert (∀ cs acc done, (∀ c, c ∈ cs → c ∈ chunks) → (∀ c, c ∈ done → c ∈ chunks) →
    store_has acc done → ∃ store, try_fold (add_stored_chunk s) acc (map descriptor cs) = Ok store ∧
      store_has store (done ++ cs)) as Hgen.
  { induction cs as [|c cs IH]; intros acc dn Hcs Hdn Hacc; [exists acc; by rewrite app_nil_r|].
    cbn [map try_fold]. unfold add_stored_chunk at 1. cbn [descriptor cd_hash].
    rewrite (Hc c) by (apply Hcs; by left). cbn [ok_or]. rewrite b64_decode_encode. cbn [map_err].
    destruct (IH (<[ch_hash c := ch_data c]> acc) (dn ++ [c])) as (store & Hst & Hh).
    - intros; apply Hcs; by right.
    - intros x [Hx|Hx%list_elem_of_singleton]%elem_of_app; [by apply Hdn|]. subst. apply Hcs. by left.
    - unfold store_has in *. rewrite List.Forall_forall in *. intros x Hx.
      destruct (decide (ch_hash x = ch_hash c)) as [He|He].
      + assert (x ∈ chunks) as Hxc.
        { apply list_elem_of_In, elem_of_app in Hx as [Hx|Hx%list_elem_of_singleton];
            [by apply Hdn|]. subst. apply Hcs. by left. }
        rewrite He, lookup_insert_eq. f_equal. pose proof (Hc x Hxc) as H1.
        rewrite He, (Hc c) in H1 by (apply Hcs; by left).
        apply b64_encode_inj. congruence.
      + rewrite lookup_insert_ne by congruence. apply Hacc.
        apply in_app_iff in Hx as [?|[<-|[]]]; [done|by destruct He].
    - exists store. split; [done|]. by rewrite <-app_assoc in Hh. }
  destruct (Hgen chunks ∅ []) as (store & H1 & H2); [done| |constructor|by exists store].
  intros c Hx. by apply not_elem_of_nil in Hx.
Qed.

(** From a staged entry back to the payload. *)
Lemma recover_staged `{!Base64Laws} `{!ManifestJsonLaws} s payload chunks json :
  chunk_data chunking_default payload = Some chunks → NoDup (map ch_hash chunks) →
  manifest_to_json (manifest_of chunks payload) = Ok json →
  cache_has (ls_transport_chunk_store s) chunks →
  recover_payload s (b64_encode json) = Ok payload.
Proof.
  intros Hc Hn Hj Hcache. unfold recover_payload. rewrite b64_decode_encode. cbn [map_err].
  assert (0 <= chunk_size chunking_default) as Hs by done.
  pose proof (validate_published _ _ _ Hs Hc) as Hv. rewrite decide_True in Hv by done.
  cbn [recover_manifest_from_gossip]. unfold parse_manifest_from_gossip.
  rewrite (manifest_json_roundtrip _ _ Hj). cbn [map_err]. rewrite Hv. cbn [is_ok client_transport map_err].
  unfold build_transport_chunk_store. rewrite manifest_of_descriptors.
  destruct (build_store_has s chunks Hcache) as (store & -> & Hst).
  unfold recover_chunks_from_store. rewrite Hv, manifest_of_descriptors.
  destruct (chunk_data_facts _ _ _ Hs Hc) as (_ & _ & Hh).
  rewrite recover_chunks_ok by done. cbn [client_transport map_err].
  by rewrite (reassemble_published transport_default payload chunks Hs Hc Hn).
Qed.

(** *** From sender to receiver *)

(** A sender whose identifiers are in the spelling the code writes. *)
Record sender_ready (sa : LocalState) (tid u sk : bytes) (alice : IdentityState)
    (t : ThreadState) : Prop := {
  sr_identity : ls_identity sa = Some alice;
  sr_user : id_user_id_hex alice = hex_encode u;
  sr_key : signing_key_from_hex (id_signing_key_hex alice) = Ok sk;
  sr_thread : ls_threads sa !! hex_encode tid = Some t;
  sr_id : th_thread_id_hex t = hex_encode tid;
  sr_member : hex_encode u ∈ th_members t;
  sr_members : NoDup (th_members t);
  sr_seq : fits 64 (th_next_seq t);
}.

(** A receiver that has the thread, knows the sender's key, and shares the
    transport cache the sender leaves. *)
Record receiver_ready (sa' sb : LocalState) (t tb : ThreadState) (tid u sk bob : bytes)
    : Prop := {
  rr_thread : ls_threads sb !! hex_encode tid = Some tb;
  rr_same : same_thread t tb;
  rr_key : resolve_sender_verifying_key sb (hex_encode u) = Ok (ed_verifying_key sk);
  rr_member : hex_encode bob ∈ th_members t;
  rr_other : bob ≠ u;
  rr_keys : ∀ y c, y ∈ th_members t → y ≠ hex_encode u → y ≠ hex_encode bob →
    hex_decode y = Ok c → member_key c ≠ member_key bob;
  rr_gossip : ls_transport_gossip sb = ls_transport_gossip sa';
  rr_chunks : ls_transport_chunk_store sb = ls_transport_chunk_store sa';
}.

(** What a successful send leaves behind. *)
Lemma send_Ok `{!AeadLaws} `{!HexLaws} sa tid u sk alice t text nonce now now' sa' d :
  sender_ready sa tid u sk alice t → length nonce = 12%nat →
  decodable (to_cbor_value (td_envelope d)) = true →
  value_ok (to_cbor_value (set_signature (td_envelope d) None)) = true →
  send_thread_message_for_state sa (hex_encode tid) text nonce now now' = Some (sa', Ok d) →
  ∃ group ct json gossip',
    rebuild_thread_group t = Some (Ok group) ∧ fits 32 (g_epoch group) ∧
    td_envelope d = sealed u sk tid (g_epoch group) (th_next_seq t) ct ∧
    (∀ tb, same_thread t tb → open_message tb group (td_envelope d) = Ok (as_bytes text)) ∧
    chunk_data chunking_default (enc (to_cbor_value (td_envelope d))) = Some (td_chunks d) ∧
    manifest_to_json (manifest_of (td_chunks d) (enc (to_cbor_value (td_envelope d)))) = Ok json ∧
    stage_members (th_members t) (hex_encode u) (b64_encode json) (ls_transport_gossip sa)
    = (gossip', Ok tt) ∧
    ls_transport_gossip sa' = gossip' ∧
    ls_transport_chunk_store sa'
    = fold_left stage_chunk (td_chunks d) (ls_transport_chunk_store sa).
Proof.
  intros [Hid Hu Hk Ht Htid Hmem Hnd Hseq] Hn Hdec Hok Hs.
  unfold send_thread_message_for_state, clone_identity_from_state in Hs.
  rewrite Hid, Ht in Hs. cbn [ok_or] in Hs. unfold publish_thread_message_transport in Hs.
  destruct (encrypt_and_chunk_message _ _ _ _) as [[t1 [[[env mf] chunks]|]]|] eqn:Ee; [|done..].
  cbn [mbind option_bind] in Hs.
  apply encrypt_and_chunk_inv in Ee as (group & payload & chunks' & Hg & Hep & -> & Hseal & Hc & Hr).
  cbn [fst] in Hseal, Hr. injection Hr as -> ->.
  destruct (inbox_keys_for_thread _ _) as [keys|]; [|done].
  unfold stage_transport_delivery_for_members, manifest_payload in Hs.
  destruct (manifest_to_json _) as [json|] eqn:Ej; [|done]. cbn [client_transport map_err] in Hs.
  cbn [th_members push_message set_seq_epoch ls_transport_gossip set_transport_outbox put_thread
    set_threads] in Hs.
  destruct (stage_members _ _ _ _) as [gossip' [[]|]] eqn:Es; [|done].
  apply (inj Some) in Hs. injection Hs as <- <-. cbn [td_envelope td_chunks] in *.
  apply seal_message_Ok in Hseal as (-> & (tid' & u' & sk' & ct & Et & Eu & Esk & Henv) & Hopen);
    [|done..].
  cbn [th_thread_id_hex set_seq_epoch] in Et. rewrite Htid, hex_decode_encode in Et.
  rewrite Hu, hex_decode_encode in Eu. rewrite Hu in Es.
  assert (tid' = tid) as -> by congruence. assert (u' = u) as -> by congruence.
  assert (sk' = sk) as -> by congruence.
  exists group, ct, json, gossip'. split; [done|]. split; [|done || split; [done|]].
  - split; [|done]. apply rebuild_thread_group_Ok in Hg as (_ & _ & Hinv & _). apply Hinv.
  - split; [|done]. intros tb [H1 H2 H3 H4 H5]. by apply Hopen.
Qed.

Lemma open_sealed_payload `{!CiboriumLaws} `{!Ed25519Laws} s t tb u sk tid group seq ct pt :
  length sk = 32%nat → rebuild_thread_group t = Some (Ok group) → same_thread t tb →
  fits 32 (g_epoch group) → fits 64 seq →
  ls_threads s !! hex_encode tid = Some tb → th_thread_id_hex t = hex_encode tid →
  hex_encode u ∈ th_members t →
  resolve_sender_verifying_key s (hex_encode u) = Ok (ed_verifying_key sk) →
  let env := sealed u sk tid (g_epoch group) seq ct in
  decodable (to_cbor_value env) = true →
  value_ok (to_cbor_value (set_signature env None)) = true →
  open_message tb group env = Ok pt →
  open_payload s (enc (to_cbor_value env))
  = Some (Ok (mkDecryptedInboxItem (hex_encode tid) (hex_encode u) pt)).
Proof.
  intros Hsk Hg Hsame Hep Hseq Hth Htid Hmem Hkey env Hdec Hok Hopen.
  unfold open_payload, env. rewrite parse_sealed by done.
  change (env_thread_id (sealed u sk tid (g_epoch group) seq ct)) with tid. rewrite Hth.
  unfold decrypt_thread_envelope.
  rewrite check_sealed; [|done|by rewrite (st_id _ _ Hsame)|by rewrite (st_members _ _ Hsame)|done..].
  rewrite (rebuild_same_thread t tb Hsame), Hg. fold env. by rewrite Hopen.
Qed.

(** Receiving reads the cache of chunks and the threads only. *)
Lemma receive_entries_gossip g s es :
  receive_entries (set_transport_gossip g s) es = receive_entries s es.
Proof. induction es as [|e es IH]; [done|]. cbn [receive_entries]. by rewrite IH. Qed.

Lemma receive_entries_snoc s es e payload it :
  recover_payload s e = Ok payload → open_payload s payload = Some (Ok it) →
  receive_entries s (es ++ [e])
  = match receive_entries s es with
    | Some (Ok items) => Some (Ok (items ++ [it]))
    | other => other
    end.
Proof.
  intros Hr Ho. induction es as [|x es IH]; cbn [app receive_entries].
  - by rewrite Hr, Ho.
  - destruct (recover_payload s x) as [px|]; [|done].
    destruct (open_payload s px) as [[ix|]|]; [|done..]. cbn [mbind option_bind]. rewrite IH.
    by destruct (receive_entries s es) as [[]|].
Qed.

(** C1: a message sent in a thread is received: another member who has the
    thread, knows the sender's key and shares the transport cache the sender leaves
    finds this message, with its sender and its text, under its inbox key, after
    the messages that were pending there before; the entries are taken out of the
    cache.  If one of the entries pending before cannot be read, the receive fails
    with its error and the message is dropped with the others.  The chunks of the
    payload must differ from each other, no other data be cached under their
    hashes, and no two members share an inbox key. *)
Theorem thread_message_delivered `{!AeadLaws} `{!HexLaws} `{!Base64Laws} `{!CiboriumLaws}
    `{!Ed25519Laws} `{!ManifestJsonLaws}
    sa sa' sb tid u sk bob alice t tb text nonce now now' d :
  sender_ready sa tid u sk alice t → length nonce = 12%nat →
  send_thread_message_for_state sa (hex_encode tid) text nonce now now' = Some (sa', Ok d) →
  decodable (to_cbor_value (td_envelope d)) = true →
  value_ok (to_cbor_value (set_signature (td_envelope d) None)) = true →
  NoDup (map ch_hash (td_chunks d)) →
  cache_consistent (ls_transport_chunk_store sa) (td_chunks d) →
  receiver_ready sa' sb t tb tid u sk bob →
  let pending := default [] (ls_transport_gossip sa !! member_key bob) in
  let message := mkDecryptedInboxItem (hex_encode tid) (hex_encode u) (as_bytes text) in
  ∃ sb', receive_transport_messages sb bob
      = match receive_entries sb pending with
        | Some (Ok before) => Some (sb', Ok (before ++ [message]))
        | Some (Err e) => Some (sb', Err e)
        | None => None
        end ∧
    transport_inbox_has_items sb' bob = false.
Proof.
  intros Hsr Hn Hs Hdec Hok Hnd Hcons [Hth Hsame Hkey Hbob Hne Hkeys Hgos Hchk] pending message.
  pose proof (send_Ok _ _ _ _ _ _ _ _ _ _ _ _ Hsr Hn Hdec Hok Hs) as
    (group & ct & json & g' & Hg & Hep & Henv & Hopen & Hc & Hj & Hst & Hg' & Hck).
  destruct Hsr as [Hid Hu Hk Ht Htid Hmem Hndm Hseq].
  assert (length sk = 32%nat) as Hskl by (by apply signing_key_iff in Hk as [_ ?]).
  assert (ls_transport_gossip sb !! member_key bob = Some (pending ++ [b64_encode json])) as Hlook.
  { rewrite Hgos, Hg'. eapply (stage_members_at _ _ _ _ _ (hex_encode bob)); [done..| | |done].
    - by intros ?%hex_encode_inj.
    - apply hex_decode_encode. }
  unfold receive_transport_messages. rewrite Hlook. cbn [default from_option id].
  rewrite receive_entries_gossip.
  erewrite receive_entries_snoc.
  2:{ eapply recover_staged; [done..|]. rewrite Hchk, Hck. by apply stage_chunks_have. }
  2:{ specialize (Hopen tb Hsame). rewrite Henv in *. by eapply open_sealed_payload. }
  eexists. split; [by destruct (receive_entries sb pending) as [[]|]|].
  unfold transport_inbox_has_items. cbn [ls_transport_gossip set_transport_gossip].
  by rewrite lookup_delete_eq.
Qed.

(** *** A forged message *)

(** The key 2^64 + 4 as a big integer. *)
Definition big_four : bytes := [x01; x00; x00; x00; x00; x00; x00; x00; x04].

(** The map of [env] with another ciphertext, and the old one under that key. *)
Definition forged_item (env : Envelope) (signature ciphertext : bytes) : Value :=
  VMap [(VInteger 0, VBytes (env_thread_id env)); (VInteger 1, VInteger (env_epoch env));
        (VInteger 2, VInteger (env_seq env)); (VInteger 3, VBytes (env_sender_user_id env));
        (VInteger 4, VBytes ciphertext); (VInteger 5, VBytes signature);
        (VTag BIGPOS (VBytes big_four), VBytes (env_ciphertext env))].

(** What is decoded from it: the old ciphertext is now an extension that has
    the number of the field. *)
Definition forged_envelope (env : Envelope) (signature ciphertext : bytes) : Envelope :=
  mkEnvelope (env_thread_id env) (env_epoch env) (env_seq env) (env_sender_user_id env)
    ciphertext (Some signature) [(4, VBytes (env_ciphertext env))].

Lemma forged_decodes `{!CiboriumLaws} env signature ciphertext :
  fits 32 (env_epoch env) → fits 64 (env_seq env) →
  decodable (forged_item env signature ciphertext) = true →
  parse_envelope_payload (enc (forged_item env signature ciphertext))
  = Ok (forged_envelope env signature ciphertext).
Proof.
  intros He Hq Hd. unfold parse_envelope_payload. rewrite from_canonical_slice_enc by done.
  change (canon (forged_item env signature ciphertext)) with (forged_item env signature ciphertext).
  unfold Envelope_deserialize, forged_item. rewrite cib_map_entries. unfold visit_map.
  cbn [try_fold visit_entry visitor_init fst snd].
  repeat (first [rewrite cib_i128_integer by done | rewrite value_as_u32_fits by done
    | rewrite value_as_u64_fits by done | rewrite cib_i128_big by done];
    cbn [visit_entry value_as_bytes Z.eqb Pos.eqb fst snd]).
  done.
Qed.

(** The two envelopes are signed alike. *)
Lemma forged_signed_alike env signature ciphertext :
  env_extensions env = [] → env_signature env = Some signature →
  ∀ s t, check_envelope s t (forged_envelope env signature ciphertext) = check_envelope s t env.
Proof.
  destruct env as [tid e q u c g x]; cbn. intros -> -> s t. reflexivity.
Qed.

(** C34: a member of a thread can put words into another member's mouth: from one
    signed envelope of the victim that has no extensions, whoever knows the group
    secret makes an envelope with a ciphertext of their own that every receiver who accepts the
    original opens as a message of the victim.  The original ciphertext travels
    along as an extension under the key 2^64 + 4, which is cut to the number of the
    ciphertext's field, so that it takes the place of the new ciphertext in the
    bytes whose signature is checked. *)
Theorem member_forges_message `{!AeadLaws} `{!CiboriumLaws} s t group env signature pt nonce
    tid cfg ct :
  env_extensions env = [] → env_signature env = Some signature →
  fits 32 (env_epoch env) → fits 64 (env_seq env) →
  ls_threads s !! hex_encode (env_thread_id env) = Some t → check_envelope s t env = Ok tt →
  rebuild_thread_group t = Some (Ok group) →
  client_hex (th_thread_id_hex t) = Ok tid → length tid = 32%nat →
  client_hex (th_cfg_hash_hex t) = Ok cfg → length cfg = 32%nat → length nonce = 12%nat →
  encrypt_payload_with_aead (gs_group_secret (g_secrets group)) pt
    (build_ad tid (env_epoch env) cfg (thread_proto_suite t) (env_seq env)
       (derive_sender_ad_id (env_sender_user_id env))) nonce = Ok ct →
  decodable (forged_item env signature ct) = true →
  open_payload s (enc (forged_item env signature ct))
  = Some (Ok (mkDecryptedInboxItem (hex_encode (env_thread_id env))
                (hex_encode (env_sender_user_id env)) pt)).
Proof.
  intros Hx Hsig He Hq Hth Hck Hg Htid Htl Hcfg Hcl Hn Hct Hd.
  unfold open_payload. rewrite forged_decodes by done. cbn [env_thread_id forged_envelope].
  rewrite Hth. unfold decrypt_thread_envelope. rewrite forged_signed_alike, Hck, Hg by done.
  unfold open_message. rewrite Htid, Hcfg. unfold to_fixed. rewrite !decide_True by done.
  cbn [client_core map_err env_epoch env_seq env_sender_user_id env_ciphertext forged_envelope
    mbind option_bind].
  by rewrite (payload_aead_roundtrip _ _ _ _ _ Hn Hct).
Qed.

End delivery.

(** ** Witnesses *)

Module ThreadSamples.
Import Reference ClientSamples.

Definition tid_bytes : bytes := replicate 32 x31.

Definition blank_thread : ThreadState := mkThreadState "" [] 0 [] 0 0 0 0 "" 0 "" 0 0.

Definition sample_thread : ThreadState := Eval vm_compute in
  match create_thread_state alice [id_user_id_hex bob] tid_bytes (replicate 32 x41) 500 with
  | Some (Ok t) => t
  | _ => blank_thread
  end.

Definition sample_nonce : bytes := replicate 12 x0c.

Definition sample_envelope_manifest : Envelope * ChunkManifest := Eval vm_compute in
  match encrypt_and_chunk_message alice sample_thread (as_bytes "hello") sample_nonce with
  | Some (_, Ok (env, m, _)) => (env, m)
  | _ => (sample_envelope, mkChunkManifest [] 0)
  end.

(** serde_json on the one manifest of the example. *)
#[export] Instance one_manifest : Network := {|
  kad := unit; kad_put_record k _ _ _ := k; kad_start_providing k _ := k;
  kad_get_closest_peers k _ := k; kad_get_record k _ := (k, 0);
  gossip := unit; gossip_publish g _ _ := Ok g;
  manifest_to_json m := if decide (m = sample_envelope_manifest.2) then Ok [x4d]
                        else Err "unknown"%string;
  manifest_from_json b := if decide (b = [x4d]) then Ok sample_envelope_manifest.2
                          else Err "eof"%string;
|}.

#[export] Instance one_manifest_laws : ManifestJsonLaws.
Proof.
  intros m b. cbn [manifest_to_json manifest_from_json one_manifest].
  case_decide as Hm; [|done]. intros [= <-]. by subst.
Qed.

Definition alice_threads : LocalState :=
  put_thread (hex_encode tid_bytes) sample_thread (set_identity (Some alice) local_state_default).

Definition sent_ok (r : option (LocalState * result ClientError ThreadMessageDispatch))
    : LocalState * ThreadMessageDispatch :=
  match r with
  | Some (s, Ok d) => (s, d)
  | _ => (local_state_default,
          mkThreadMessageDispatch "" "" sample_envelope (mkChunkManifest [] 0) [] 0 [])
  end.

(** Alice's state after sending, and what she sent. *)
Definition alice_sent : LocalState * ThreadMessageDispatch := Eval vm_compute in
  sent_ok (send_thread_message_for_state alice_threads (hex_encode tid_bytes) "hello"
             sample_nonce 600 601).

Definition alice_after : LocalState := alice_sent.1.

Definition dispatch : ThreadMessageDispatch := alice_sent.2.

(** Bob with the transport cache of [s]. *)
Definition bob_with (s : LocalState) : LocalState :=
  set_transport_chunk_store (ls_transport_chunk_store s)
    (set_transport_gossip (ls_transport_gossip s)
       (put_thread (hex_encode tid_bytes) sample_thread
          (set_contacts {[id_user_id_hex alice := mkContactState (id_user_id_hex alice)
             (id_verifying_key_hex alice) "" "" 0]} (set_identity (Some bob) local_state_default)))).

Definition bob_ready : LocalState := bob_with alice_after.

Lemma bob_with_cache s :
  ls_transport_gossip (bob_with s) = ls_transport_gossip s ∧
  ls_transport_chunk_store (bob_with s) = ls_transport_chunk_store s.
Proof. done. Qed.

End ThreadSamples.
Import Reference ClientSamples ThreadSamples.

Lemma sample_members_eq :
  th_members sample_thread = [hex_encode (replicate 32 xcd); hex_encode (replicate 32 xab)].
Proof. vm_compute. reflexivity. Qed.

Lemma sample_members_are y :
  y ∈ th_members sample_thread → y = hex_encode (replicate 32 xab) ∨ y = hex_encode (replicate 32 xcd).
Proof.
  rewrite sample_members_eq. intros [->|Hy%list_elem_of_singleton]%elem_of_cons; auto.
Qed.

Lemma sample_sender : sender_ready alice_threads tid_bytes (replicate 32 xab) (replicate 32 x07)
  alice sample_thread.
Proof.
  split.
  - reflexivity.
  - reflexivity.
  - vm_compute. reflexivity.
  - apply lookup_insert_eq.
  - vm_compute. reflexivity.
  - rewrite sample_members_eq. right. left.
  - rewrite sample_members_eq. apply list.NoDup_cons. split; [|apply NoDup_singleton].
    intros Hin%list_elem_of_singleton%hex_encode_inj. discriminate Hin.
  - fits_eval.
Qed.

Lemma sample_receiver : receiver_ready alice_after bob_ready sample_thread sample_thread tid_bytes
  (replicate 32 xab) (replicate 32 x07) (replicate 32 xcd).
Proof.
  split.
  - apply lookup_insert_eq.
  - by split.
  - vm_compute. reflexivity.
  - rewrite sample_members_eq. left.
  - discriminate.
  - intros y c [Hy|Hy]%sample_members_are Ha Hb; contradiction.
  - apply bob_with_cache.
  - apply bob_with_cache.
Qed.

Lemma alice_sent_eq :
  send_thread_message_for_state alice_threads (hex_encode tid_bytes) "hello" sample_nonce 600 601
  = Some (alice_after, Ok dispatch).
Proof. vm_cast_no_check (@eq_refl _ (Some (alice_after, @Ok ClientError _ dispatch))). Qed.

Lemma alice_store_empty : ls_transport_chunk_store alice_threads = ∅.
Proof. reflexivity. Qed.

Lemma sample_nonce_length : length sample_nonce = 12%nat.
Proof. reflexivity. Qed.

Lemma dispatch_decodable : decodable (to_cbor_value (td_envelope dispatch)) = true.
Proof. vm_cast_no_check (@eq_refl _ true). Qed.

Lemma dispatch_value_ok :
  value_ok (to_cbor_value (set_signature (td_envelope dispatch) None)) = true.
Proof. vm_cast_no_check (@eq_refl _ true). Qed.

Lemma dispatch_chunks_distinct : NoDup (map ch_hash (td_chunks dispatch)).
Proof. apply (bool_decide_unpack _). vm_cast_no_check I. Qed.

Lemma thread_message_delivered_witness :
  ∃ sb', receive_transport_messages bob_ready (replicate 32 xcd)
      = Some (sb', Ok [mkDecryptedInboxItem (hex_encode tid_bytes)
                         (hex_encode (replicate 32 xab)) (as_bytes "hello")]) ∧
    transport_inbox_has_items sb' (replicate 32 xcd) = false.
Proof.
  refine (thread_message_delivered alice_threads alice_after bob_ready tid_bytes (replicate 32 xab)
    (replicate 32 x07) (replicate 32 xcd) alice sample_thread sample_thread "hello" sample_nonce
    600 601 dispatch sample_sender sample_nonce_length alice_sent_eq dispatch_decodable
    dispatch_value_ok dispatch_chunks_distinct _ sample_receiver).
  intros c d _ Hd. rewrite alice_store_empty, lookup_empty in Hd. discriminate Hd.
Defined.

(** A thread in step with the group of two members, and the commit by which
    carol joins and bob leaves. *)
Definition paired_thread : ThreadState :=
  set_members_epoch ["alice"%string; "bob"%string] 1 sample_thread.
Definition carol_for_bob : Commit :=
  mkCommit 2 None None None None None ["carol"%string] ["bob"%string].

Lemma carol_for_bob_supported : commit_supported carol_for_bob.
Proof. split; [by left|done]. Qed.

Lemma thread_follows_group_witness :
  let tid := th_thread_id_hex paired_thread in
  ∃ g' t' joined left,
    apply_commit Samples.sample_group carol_for_bob = Some (g', Ok (g_context g')) ∧
    apply_thread_commit_with_events paired_thread carol_for_bob
    = (t', map (updated tid 2) joined ++ map (removed tid 2) left
           ++ [mkMlsThreadEvent tid 2 Rekey None], Ok tt) ∧
    g_members g' = th_members t' ∧ g_epoch g' = th_epoch t' ∧
    ∀ m, m ∈ left ↔ m ∈ ["bob"%string] ∧ (m ∈ th_members paired_thread ∨ m ∈ ["carol"%string]).
Proof.
  pose proof (thread_follows_group Samples.sample_group paired_thread carol_for_bob
    Samples.sample_group_inv eq_refl eq_refl carol_for_bob_supported) as Hf.
  cbv zeta in Hf. rewrite decide_True in Hf by reflexivity.
  destruct Hf as (g' & t' & joined & left & H1 & H2 & H3 & H4 & _ & _ & _ & _ & _ & H5).
  exists g', t', joined, left. split_and!; assumption.
Defined.

(** The thread of alice and bob, and one of alice and an outsider. *)
Definition other_thread : ThreadState :=
  set_members_epoch [hex_encode (replicate 32 xab); hex_encode (replicate 32 xee)] 2 sample_thread.
Definition group_of (r : option (result ClientError Group)) : Group :=
  match r with Some (Ok g) => g | _ => Samples.sample_group end.
Definition pair_group : Group := Eval vm_compute in group_of (rebuild_thread_group sample_thread).
Definition other_group : Group := Eval vm_compute in group_of (rebuild_thread_group other_thread).

Lemma thread_key_ignores_identities_witness :
  g_epoch pair_group = g_epoch other_group ∧
  gs_group_secret (g_secrets pair_group) = gs_group_secret (g_secrets other_group).
Proof.
  apply (thread_key_ignores_identities sample_thread other_thread pair_group other_group);
    [vm_cast_no_check (@eq_refl _ (Some (@Ok ClientError _ pair_group)))
    |vm_cast_no_check (@eq_refl _ (Some (@Ok ClientError _ other_group)))
    |reflexivity|reflexivity].
Defined.

(** The same thread after seven more commits. *)
Definition aged_thread : ThreadState := set_seq_epoch 0 9 sample_thread.
Definition aged_sent : ThreadState * (Envelope * ChunkManifest * list Chunk) :=
  Eval vm_compute in
  match encrypt_and_chunk_message alice aged_thread (as_bytes "hello") sample_nonce with
  | Some (t, Ok r) => (t, r)
  | _ => (blank_thread, (sample_envelope, mkChunkManifest [] 0, []))
  end.

Lemma send_resets_epoch_witness :
  th_epoch aged_sent.1 = 2 ∧
  (∃ err, apply_thread_commit_with_events aged_sent.1 (commit_new 10)
          = (aged_sent.1, [], Err err)) ∧
  (∃ t evs, apply_thread_commit_with_events aged_sent.1 (commit_new 3) = (t, evs, Ok tt)).
Proof.
  assert (encrypt_and_chunk_message alice aged_thread (as_bytes "hello") sample_nonce
    = Some (aged_sent.1, Ok aged_sent.2)) as Hs
    by vm_cast_no_check (@eq_refl _ (Some (aged_sent.1, @Ok ClientError _ aged_sent.2))).
  pose proof (λ c, send_resets_epoch alice aged_thread (as_bytes "hello") sample_nonce
    aged_sent.1 aged_sent.2 c Hs eq_refl (conj (Pos2Z.is_nonneg 9) eq_refl) eq_refl) as Hr.
  split_and!.
  - apply (Hr (commit_new 10)). discriminate.
  - apply (Hr (commit_new 10)); [discriminate|reflexivity].
  - apply (Hr (commit_new 3)); [discriminate|reflexivity].
Defined.



(** Another member of the thread seals a text of its own in the place of
    Alice's message. *)
Definition alice_signature : bytes := Eval vm_compute in
  default [] (env_signature (td_envelope dispatch)).
Definition sample_cfg : bytes := Eval vm_compute in
  match hex_decode (th_cfg_hash_hex sample_thread) with Ok b => b | Err _ => [] end.
Definition forged_ciphertext : bytes := Eval vm_compute in
  match encrypt_payload_with_aead (gs_group_secret (g_secrets pair_group)) (as_bytes "goodbye")
    (build_ad tid_bytes (env_epoch (td_envelope dispatch)) sample_cfg
       (thread_proto_suite sample_thread) (env_seq (td_envelope dispatch))
       (derive_sender_ad_id (env_sender_user_id (td_envelope dispatch)))) sample_nonce with
  | Ok ct => ct
  | Err _ => []
  end.

Lemma dispatch_checked : check_envelope bob_ready sample_thread (td_envelope dispatch) = Ok tt.
Proof. vm_cast_no_check (@eq_refl _ (@Ok ClientError _ tt)). Qed.

Lemma pair_group_eq : rebuild_thread_group sample_thread = Some (Ok pair_group).
Proof. vm_cast_no_check (@eq_refl _ (Some (@Ok ClientError _ pair_group))). Qed.

Lemma member_forges_message_witness :
  open_payload bob_ready (enc (forged_item (td_envelope dispatch) alice_signature forged_ciphertext))
  = Some (Ok (mkDecryptedInboxItem (hex_encode tid_bytes)
                (hex_encode (replicate 32 xab)) (as_bytes "goodbye"))).
Proof.
  refine (member_forges_message bob_ready sample_thread pair_group (td_envelope dispatch)
    alice_signature (as_bytes "goodbye") sample_nonce tid_bytes sample_cfg forged_ciphertext
    eq_refl eq_refl _ _ _ dispatch_checked pair_group_eq _ _ _ _ _ _ _).
  - fits_eval.
  - fits_eval.
  - apply lookup_insert_eq.
  - vm_compute. reflexivity.
  - reflexivity.
  - vm_compute. reflexivity.
  - reflexivity.
  - reflexivity.
  - vm_compute. reflexivity.
  - vm_compute. reflexivity.
Defined.
