(* ===== verification/Vault.v ===== *)
(** * The client: encrypted state file (spex-client/src/lib.rs)

    Where the local state lives on disk, how it is encrypted under a key derived
    from a passphrase file or kept in the keychain, and how it is loaded.  The
    code that talks to the system is a program of [Files]; a program stops early
    with an error of the client or with a panic ([Stop]).  Random bytes are
    arguments ([StateRng]), so are the home directory ([HomeDir]) and serde_json
    ([StateJson]).  [Entry::new] and [get_password] of the keyring crate fail in
    the same way, so that one system call stands for both.

    The theorems are in [VaultFacts]. *)
From Stdlib Require Import ZArith Lia Ascii Strings.Byte.
From stdpp Require Import base list gmap strings sorting numbers.
From S2P Require Import Prelude External Cbor CborFacts Types Core Transport Files Mls Client Threads.

#[local] Open Scope Z_scope.

(** ** Strings and paths of the standard library *)

(** The UTF-8 encodings of the characters with the property White_Space. *)
Definition ascii_spaces : list bytes := [[x09]; [x0a]; [x0b]; [x0c]; [x0d]; [x20]].
Definition wide_spaces : list bytes :=
  [[xc2; x85]; [xc2; xa0]; [xe1; x9a; x80];
   [xe2; x80; x80]; [xe2; x80; x81]; [xe2; x80; x82]; [xe2; x80; x83]; [xe2; x80; x84];
   [xe2; x80; x85]; [xe2; x80; x86]; [xe2; x80; x87]; [xe2; x80; x88]; [xe2; x80; x89];
   [xe2; x80; x8a]; [xe2; x80; xa8]; [xe2; x80; xa9]; [xe2; x80; xaf]; [xe2; x81; x9f];
   [xe3; x80; x80]].
Definition white_space : list bytes := ascii_spaces ++ wide_spaces.

(** The rest of [bs] after the first of [prefixes] it starts with. *)
Fixpoint strip_one (prefixes : list bytes) (bs : bytes) : option bytes :=
  match prefixes with
  | [] => None
  | p :: ps => if decide (take (length p) bs = p) then Some (drop (length p) bs) else strip_one ps bs
  end.

(** One byte at least is consumed per step. *)
Fixpoint strip_all (fuel : nat) (prefixes : list bytes) (bs : bytes) : bytes :=
  match fuel with
  | O => bs
  | S f => match strip_one prefixes bs with Some bs' => strip_all f prefixes bs' | None => bs end
  end.

(** [str::trim]: in well-formed UTF-8 an encoding that ends the text is a
    character. *)
Definition trim (s : string) : string :=
  let bs := as_bytes s in
  let bs := strip_all (length bs) white_space bs in
  String.string_of_list_byte
    (reverse (strip_all (length bs) (map reverse white_space) (reverse bs))).

(** [PathBuf::from], as its components: repeated separators and dots inside
    the path do not count. *)
Fixpoint split_slash (s acc : string) : list string :=
  match s with
  | EmptyString => [acc]
  | String c r =>
      if decide (c = "/"%char) then acc :: split_slash r EmptyString
      else split_slash r (acc +:+ String c EmptyString)
  end.

Definition path_from (s : string) : Path :=
  let normal := filter (λ c, c ≠ "" ∧ c ≠ ".") in
  match split_slash s EmptyString with
  | first :: rest =>
      if decide (first = "") then (if decide (rest = []) then [] else "/"%string :: normal rest)
      else first :: normal rest
  | [] => []
  end.

(** [fs::read_to_string]. *)
Definition read_to_string (r : result string bytes) : result string string :=
  let? b := r in ok_or (from_utf8 b) "stream did not contain valid UTF-8"%string.

(** ** Data *)

Record EncryptedStateFile := mkEncryptedStateFile {
  ef_format : string;
  ef_version : Z;
  ef_kdf : string;
  ef_salt_base64 : string;
  ef_nonce_base64 : string;
  ef_ciphertext_base64 : string;
}.

Inductive StateKeySource : Type :=
| Passphrase (s : string)
| Keychain (key : bytes).

Definition STATE_ENCRYPTION_FORMAT : string := "spex_encrypted_state".
Definition STATE_ENCRYPTION_VERSION : Z := 1.
Definition STATE_ENCRYPTION_AAD : bytes := as_bytes "spex-local-state".
Definition STATE_PASSPHRASE_FILE_ENV : string := "SPEX_STATE_PASSPHRASE_FILE".
Definition STATE_SALT_BYTES : nat := 16.

(** An early end; [Waiting] is a loop for which no further event is given. *)
Inductive Stop : Type :=
| Failed (e : ClientError)
| Panicked
| Waiting.

Definition encryption_error (e : string) : Stop := Failed (ClStateEncryption e).

(** What the random number generator of the system delivers: the nonce and the
    new keychain key, filled in one call each, which panic when the generator
    fails, and the words the salt is made of. *)
Record StateRng := mkStateRng {
  rg_nonce : option bytes;
  rg_key : option bytes;
  rg_words : list (result string Z);
}.

Definition expect {A} (x : option A) : result Stop A := ok_or x Panicked.

Class HomeDir := home_dir : option Path.

(** serde_json on the state and on the wrapper. *)
Class StateJson := {
  state_to_json : LocalState → result string bytes;
  state_from_json : bytes → result string LocalState;
  wrapper_to_json : EncryptedStateFile → result string string;
  wrapper_from_json : string → result string EncryptedStateFile;
}.

Section vault.
Context `{AE : Aead} `{AR : Argon2} `{B64 : Base64} `{HD : HomeDir} `{SJ : StateJson}.

Definition state_path : io (result Stop Path) :=
  EnvVar "SPEX_STATE_PATH" (λ v,
    match v with
    | Some path => Ret (Ok (path_from path))
    | None =>
        Ret (match home_dir with
             | Some home => Ok (home ++ [".spex"; "state.json"]%string)
             | None => Err (Failed (ClIo "home directory not found"))
             end)
    end).

Definition parse_encrypted_state_file (contents : string) : option EncryptedStateFile :=
  match wrapper_from_json contents with
  | Ok parsed => if decide (ef_format parsed = STATE_ENCRYPTION_FORMAT) then Some parsed else None
  | Err _ => None
  end.

Definition resolve_passphrase_from_file : io (result Stop string) :=
  EnvVar STATE_PASSPHRASE_FILE_ENV (λ v,
    match v with
    | None => Ret (Err (encryption_error "missing passphrase file variable"))
    | Some path =>
        ReadFile (path_from path) (λ r,
          Ret (let? contents := map_err (λ e, Failed (ClIo e)) (read_to_string r) in
               let passphrase := trim contents in
               if decide (passphrase = "") then Err (encryption_error "passphrase file is empty")
               else Ok passphrase))
    end).

(** [Argon2::default()]: 19 MiB, two iterations, one lane. *)
Definition derive_key_from_passphrase (passphrase : string) (salt : bytes) : result Stop bytes :=
  map_err encryption_error (argon2_hash 19456 2 1 32 (as_bytes passphrase) salt).

(** The low byte of one word per byte of the salt. *)
Definition generate_state_salt (rg : StateRng) : result Stop bytes :=
  try_map (λ w, let? value := map_err encryption_error w in Ok (byte_of_Z (wrap 8 value)))
    (take STATE_SALT_BYTES (rg_words rg)).

Definition resolve_keychain_key (rg : StateRng) : io (result Stop bytes) :=
  GetPassword (λ r,
    match r with
    | Ok password => Ret (map_err encryption_error (b64_decode password))
    | Err NoEntry =>
        let*? key := Ret (expect (rg_key rg)) in
        let*? _ := sys encryption_error (SetPassword (b64_encode key)) in
        Ret (Ok key)
    | Err (KeyringFailure e) => Ret (Err (encryption_error e))
    end).

Definition parse_keychain_key (key : bytes) : result Stop bytes :=
  if zlen key =? 32 then Ok key else Err (encryption_error "keychain key must be 32 bytes").

Definition resolve_state_key_source (rg : StateRng) : io (result Stop StateKeySource) :=
  EnvVar STATE_PASSPHRASE_FILE_ENV (λ v,
    match v with
    | Some _ => let*? passphrase := resolve_passphrase_from_file in Ret (Ok (Passphrase passphrase))
    | None => let*? key := resolve_keychain_key rg in Ret (Ok (Keychain key))
    end).

(** The name of the key derivation, the encoded salt and the key. *)
Definition state_key (rg : StateRng) (source : StateKeySource) : result Stop (string * string * bytes) :=
  match source with
  | Passphrase passphrase =>
      let? salt := generate_state_salt rg in
      let? key := derive_key_from_passphrase passphrase salt in
      Ok ("argon2id"%string, b64_encode salt, key)
  | Keychain key_bytes =>
      let? key := parse_keychain_key key_bytes in
      Ok ("raw"%string, ""%string, key)
  end.

(** [Nonce::from_slice] panics unless it is given 12 bytes. *)
Definition nonce_from_slice (nonce : bytes) : result Stop bytes :=
  if zlen nonce =? 12 then Ok nonce else Err Panicked.

Definition seal_state (rg : StateRng) (plaintext nonce : bytes) (source : StateKeySource)
    : result Stop string :=
  let? derived := state_key rg source in
  let '(kdf, salt_base64, key) := derived in
  let? slice := nonce_from_slice nonce in
  let? ciphertext := map_err (λ _, encryption_error "aead::Error")
                       (aead_encrypt key slice STATE_ENCRYPTION_AAD plaintext) in
  map_err (λ e, Failed (ClJson e))
    (wrapper_to_json (mkEncryptedStateFile STATE_ENCRYPTION_FORMAT STATE_ENCRYPTION_VERSION kdf
       salt_base64 (b64_encode nonce) (b64_encode ciphertext))).

Definition encrypt_state_file (rg : StateRng) (state : LocalState) : io (result Stop string) :=
  let*? plaintext := Ret (map_err (λ e, Failed (ClJson e)) (state_to_json state)) in
  let*? nonce := Ret (expect (rg_nonce rg)) in
  let*? source := resolve_state_key_source rg in
  Ret (seal_state rg plaintext nonce source).

(** The key a wrapper asks for. *)
Definition wrapper_key (rg : StateRng) (f : EncryptedStateFile) : io (result Stop bytes) :=
  if decide (ef_kdf f = "argon2id"%string) then
    let*? passphrase := resolve_passphrase_from_file in
    Ret (let? salt := map_err encryption_error (b64_decode (ef_salt_base64 f)) in
         derive_key_from_passphrase passphrase salt)
  else if decide (ef_kdf f = "raw"%string) then
    let*? key_bytes := resolve_keychain_key rg in
    Ret (parse_keychain_key key_bytes)
  else Ret (Err (encryption_error ("unknown kdf " +:+ ef_kdf f))).

Definition open_state (key nonce ciphertext : bytes) : result Stop LocalState :=
  let? slice := nonce_from_slice nonce in
  let? plaintext := map_err (λ _, encryption_error "aead::Error")
                      (aead_decrypt key slice STATE_ENCRYPTION_AAD ciphertext) in
  map_err (λ e, Failed (ClJson e)) (state_from_json plaintext).

Definition decrypt_state_file (rg : StateRng) (f : EncryptedStateFile) : io (result Stop LocalState) :=
  if decide (ef_version f = STATE_ENCRYPTION_VERSION) then
    let*? nonce := Ret (map_err encryption_error (b64_decode (ef_nonce_base64 f))) in
    let*? ciphertext := Ret (map_err encryption_error (b64_decode (ef_ciphertext_base64 f))) in
    let*? key := wrapper_key rg f in
    Ret (open_state key nonce ciphertext)
  else Ret (Err (encryption_error ("unsupported state version " +:+ show_Z (ef_version f)))).

Definition load_contents (rg : StateRng) (contents : string) : io (result Stop LocalState) :=
  match parse_encrypted_state_file contents with
  | Some encrypted => decrypt_state_file rg encrypted
  | None => Ret (map_err (λ e, Failed (ClJson e)) (state_from_json (as_bytes contents)))
  end.

Definition load_state (rg : StateRng) : io (result Stop LocalState) :=
  let*? path := state_path in
  PathExists path (λ b,
    if b then
      ReadFile path (λ r,
        match read_to_string r with
        | Err e => Ret (Err (Failed (ClIo e)))
        | Ok contents => load_contents rg contents
        end)
    else Ret (Ok local_state_default)).

Definition save_state (rg : StateRng) (state : LocalState) : io (result Stop unit) :=
  let*? path := state_path in
  let io_error := λ e, Failed (ClIo e) in
  let*? _ := (match path_parent path with
              | Some parent => sys io_error (CreateDirAll parent)
              | None => Ret (Ok tt)
              end) in
  let*? contents := encrypt_state_file rg state in
  let*? _ := sys io_error (WriteFile path (as_bytes contents)) in
  Ret (Ok tt).

End vault.
