(* ===== verification/VaultFacts.v ===== *)
(** * The client: lemmas and theorems on the encrypted state file

    About the definitions of [Vault].  Shown here: a state that was saved is
    loaded again, with a passphrase and with the keychain, whether or not the
    key had to be created.  Three results describe gaps: a save that is
    interrupted can leave a file that cannot be loaded, in contrast to the
    snapshots of [Files]; a file whose nonce has the wrong length makes the
    client panic; a file that is not encrypted is loaded without any key. *)
From Stdlib Require Import ZArith Lia Ascii Strings.Byte.
From stdpp Require Import base list gmap strings sorting numbers.
From S2P Require Import Prelude External Cbor CborFacts Types Core Transport Files Ingest Mls Client Threads.
From S2P Require Import Vault.

#[local] Open Scope Z_scope.

(** ** Running and executing sequences *)

Lemma run_io_try {E A B} (m : io (result E A)) (f : A → io (result E B)) o :
  run_io (io_try m f) o
  = match (run_io m o).2 with
    | Ok a => run_io (f a) (run_io m o).1
    | Err e => ((run_io m o).1, Err e)
    end.
Proof. unfold io_try. rewrite run_io_bind. destruct (run_io m o) as [o1 [a|e]]; done. Qed.

Lemma run_try_Ok {E A B} (m : io (result E A)) (f : A → io (result E B)) o o' b :
  run_io (io_try m f) o = (o', Ok b) →
  ∃ o1 a, run_io m o = (o1, Ok a) ∧ run_io (f a) o1 = (o', Ok b).
Proof.
  rewrite run_io_try. destruct (run_io m o) as [o1 [a|e]] eqn:Hm; cbn [fst snd]; [|done].
  intros Hf. by exists o1, a.
Qed.

Lemma exec_bind {A B} (m : io A) (f : A → io B) o o1 o' a r :
  exec m o o1 (Some a) → exec (f a) o1 o' r → exec (io_bind m f) o o' r.
Proof.
  intros Hm Hf. remember (Some a) as x eqn:Hx. revert Hf.
  induction Hm; simplify_eq; intros Hf; cbn [io_bind]; [done|..];
    solve [econstructor; eauto | eapply exec_read_fails; eauto | eapply exec_password_fails; eauto
          | eapply exec_sys_fails; eauto].
Qed.

(** What was run can be executed before something else. *)
Lemma exec_try_run {E A B} (m : io (result E A)) (f : A → io (result E B)) o o1 o' a r :
  run_io m o = (o1, Ok a) → exec (f a) o1 o' r → exec (io_try m f) o o' r.
Proof.
  intros Hm Hf. pose proof (run_io_exec m o) as He. rewrite Hm in He.
  exact (exec_bind _ _ _ _ _ (Ok a) _ He Hf).
Qed.

Section vault_facts.
Context `{AE : Aead} `{AR : Argon2} `{B64 : Base64} `{HD : HomeDir} `{SJ : StateJson}.

(** serde_json reads back what it writes, writes Unicode, and does not read
    the empty text. *)
Class StateJsonLaws : Prop := {
  state_json_roundtrip : ∀ s b, state_to_json s = Ok b → state_from_json b = Ok s;
  wrapper_json_roundtrip : ∀ w s, wrapper_to_json w = Ok s → wrapper_from_json s = Ok w;
  wrapper_json_utf8 : ∀ w s, wrapper_to_json w = Ok s → from_utf8 (as_bytes s) = Some s;
  wrapper_json_empty : wrapper_from_json "" = Err "EOF while parsing a value"%string;
  state_json_empty : state_from_json [] = Err "EOF while parsing a value"%string;
}.

(** ** The parts of a save *)

Lemma run_state_path o : (run_io state_path o).1 = o.
Proof. unfold state_path. cbn [run_io]. by destruct (os_env o !! _). Qed.

Lemma state_path_env o o' :
  os_env o' = os_env o → (run_io state_path o').2 = (run_io state_path o).2.
Proof. intros He. unfold state_path. cbn [run_io]. rewrite He. by destruct (os_env o !! _). Qed.

Lemma run_passphrase o : (run_io resolve_passphrase_from_file o).1 = o.
Proof. unfold resolve_passphrase_from_file. cbn [run_io]. by destruct (os_env o !! _). Qed.

(** The passphrase depends on the environment and on the file it names. *)
Lemma passphrase_same o o' :
  os_env o' = os_env o →
  (∀ f, os_env o !! STATE_PASSPHRASE_FILE_ENV = Some f →
     os_files o' !! path_from f = os_files o !! path_from f) →
  (run_io resolve_passphrase_from_file o').2 = (run_io resolve_passphrase_from_file o).2.
Proof.
  intros He Hf. unfold resolve_passphrase_from_file. cbn [run_io]. rewrite He.
  destruct (os_env o !! _) as [f|]; [|done]. cbn [run_io snd]. unfold read_result. by rewrite Hf.
Qed.

Lemma keychain_resolved `{!Base64Laws} rg o o1 key :
  run_io (resolve_keychain_key rg) o = (o1, Ok key) →
  touches_only [] o (mkOs (os_files o1) (os_env o1) (os_keychain o)) ∧
  ∃ pw, os_keychain o1 = Some pw ∧ b64_decode pw = Ok key.
Proof.
  unfold resolve_keychain_key. cbn [run_io]. unfold password_result.
  destruct (os_keychain o) as [pw|] eqn:Hk; cbn [ok_or run_io].
  - destruct (b64_decode pw) as [k|e] eqn:Hd; [|done]. cbn [map_err]. intros Hr.
    assert (o1 = o ∧ k = key) as [-> ->] by (split; congruence).
    split; [by split|]. by exists pw.
  - intros (o2 & k & Hk' & Hr)%run_try_Ok. cbn [run_io] in Hk'.
    assert (o2 = o) as -> by congruence.
    unfold io_try, sys in Hr. cbn [io_bind run_io sys_effect map_err] in Hr.
    assert (o1 = mkOs (os_files o) (os_env o) (Some (b64_encode k)) ∧ k = key) as [-> ->]
      by (split; congruence).
    split; [by split|]. exists (b64_encode key). split; [done|]. apply b64_decode_encode.
Qed.

(** Where the key of a save came from; it can be found there afterwards. *)
Lemma source_resolved `{!Base64Laws} rg o o1 source :
  run_io (resolve_state_key_source rg) o = (o1, Ok source) →
  os_files o1 = os_files o ∧ os_env o1 = os_env o ∧
  match source with
  | Passphrase p => (run_io resolve_passphrase_from_file o).2 = Ok p
  | Keychain key => ∃ pw, os_keychain o1 = Some pw ∧ b64_decode pw = Ok key
  end.
Proof.
  unfold resolve_state_key_source. cbn [run_io]. destruct (os_env o !! _) as [f|].
  - intros (o2 & p & Hp & Hr)%run_try_Ok. cbn [run_io] in Hr. pose proof (run_passphrase o) as Ho.
    rewrite Hp in *. cbn [fst snd] in *. subst o2.
    assert (o1 = o ∧ source = Passphrase p) as [-> ->] by (split; congruence). done.
  - intros (o2 & k & Hk & Hr)%run_try_Ok. cbn [run_io] in Hr.
    assert (o2 = o1 ∧ source = Keychain k) as [-> ->] by (split; congruence).
    apply keychain_resolved in Hk as [[F E _] Hpw]. split; [|done]. apply map_eq. intros i.
    apply (F i), not_elem_of_nil.
Qed.

(** ** The parts of a load *)

Lemma sealed_opens `{!StateJsonLaws, !AeadLaws, !Base64Laws} rg st plaintext nonce source contents :
  state_to_json st = Ok plaintext → seal_state rg plaintext nonce source = Ok contents →
  ∃ f key ciphertext, parse_encrypted_state_file contents = Some f ∧
    from_utf8 (as_bytes contents) = Some contents ∧ ef_version f = STATE_ENCRYPTION_VERSION ∧
    b64_decode (ef_nonce_base64 f) = Ok nonce ∧ b64_decode (ef_ciphertext_base64 f) = Ok ciphertext ∧
    open_state key nonce ciphertext = Ok st ∧
    match source with
    | Passphrase p => ef_kdf f = "argon2id"%string ∧
        ∃ salt, b64_decode (ef_salt_base64 f) = Ok salt ∧ derive_key_from_passphrase p salt = Ok key
    | Keychain k => ef_kdf f = "raw"%string ∧ parse_keychain_key k = Ok key
    end.
Proof.
  intros Hst. unfold seal_state.
  destruct (state_key rg source) as [[[kdf salt64] key]|] eqn:Hkey; [|done].
  destruct (nonce_from_slice nonce) as [slice|] eqn:Hn; [|done].
  assert (slice = nonce) as -> by (unfold nonce_from_slice in Hn; destruct (_ =? _); congruence).
  destruct (aead_encrypt key nonce _ plaintext) as [ct|] eqn:Hct; [|done]. cbn [map_err].
  destruct (wrapper_to_json _) as [s|] eqn:Hw; [|done]. cbn [map_err]. intros [= <-].
  pose proof (wrapper_json_roundtrip _ _ Hw) as Hrt. pose proof (wrapper_json_utf8 _ _ Hw) as Hu.
  eexists _, key, ct. unfold parse_encrypted_state_file. rewrite Hrt. cbn [ef_format].
  rewrite decide_True by done. split; [done|]. split; [done|].
  cbn [ef_version ef_nonce_base64 ef_ciphertext_base64 ef_kdf ef_salt_base64].
  split; [done|]. split; [apply b64_decode_encode|]. split; [apply b64_decode_encode|]. split.
  - unfold open_state. rewrite Hn, (aead_decrypt_encrypt _ _ _ _ _ Hct). cbn [map_err].
    by rewrite (state_json_roundtrip _ _ Hst).
  - unfold state_key in Hkey. destruct source as [p|k].
    + destruct (generate_state_salt rg) as [salt|]; [|done].
      destruct (derive_key_from_passphrase p salt) as [key'|] eqn:Hd; [|done].
      injection Hkey as <- <- <-. split; [done|]. exists salt. split; [apply b64_decode_encode|done].
    + destruct (parse_keychain_key k) as [key'|] eqn:Hd; [|done]. by injection Hkey as <- <- <-.
Qed.

Lemma run_decrypt rg f key nonce ciphertext o :
  ef_version f = STATE_ENCRYPTION_VERSION → b64_decode (ef_nonce_base64 f) = Ok nonce →
  b64_decode (ef_ciphertext_base64 f) = Ok ciphertext → run_io (wrapper_key rg f) o = (o, Ok key) →
  run_io (decrypt_state_file rg f) o = (o, open_state key nonce ciphertext).
Proof.
  intros Hv Hn Hc Hk. unfold decrypt_state_file. rewrite decide_True by done.
  rewrite Hn, Hc. rewrite run_io_try. cbn [map_err run_io fst snd]. rewrite run_io_try.
  cbn [map_err run_io fst snd]. rewrite run_io_try, Hk. done.
Qed.

Lemma run_load rg o path b contents :
  (run_io state_path o).2 = Ok path → os_files o !! path = Some b → from_utf8 b = Some contents →
  run_io (load_state rg) o = run_io (load_contents rg contents) o.
Proof.
  intros Hp Hf Hu. unfold load_state. rewrite run_io_try, Hp, run_state_path. cbn [run_io].
  rewrite bool_decide_eq_true_2 by (by rewrite Hf). cbn [run_io]. unfold read_result. rewrite Hf.
  unfold read_to_string. cbn [ok_or]. by rewrite Hu.
Qed.

(** ** Saving and loading *)

(** The steps of a save that succeeds. *)
Lemma save_steps rg st o o' :
  run_io (save_state rg st) o = (o', Ok tt) →
  ∃ path contents o1, (run_io state_path o).2 = Ok path ∧
    run_io (encrypt_state_file rg st) o = (o1, Ok contents) ∧ o' = put_file path (as_bytes contents) o1.
Proof.
  unfold save_state. intros (o0 & path & Hp & Hr)%run_try_Ok. pose proof (run_state_path o) as Ho.
  rewrite Hp in Ho. cbn [fst] in Ho. subst o0. apply run_try_Ok in Hr as (o2 & [] & Hd & Hr).
  assert (o2 = o) as -> by (destruct (path_parent path); cbn in Hd; congruence).
  apply run_try_Ok in Hr as (o1 & contents & He & Hr). exists path, contents, o1.
  split; [by rewrite Hp|]. split; [done|]. unfold io_try, sys in Hr. cbn in Hr. congruence.
Qed.

Lemma encrypt_steps rg st o o1 contents :
  run_io (encrypt_state_file rg st) o = (o1, Ok contents) →
  ∃ plaintext nonce source, state_to_json st = Ok plaintext ∧
    run_io (resolve_state_key_source rg) o = (o1, Ok source) ∧
    seal_state rg plaintext nonce source = Ok contents.
Proof.
  unfold encrypt_state_file. intros (o2 & pt & Hpt & Hr)%run_try_Ok. cbn [run_io] in Hpt.
  destruct (state_to_json st) as [pt'|] eqn:Hst; [|done]. cbn [map_err] in Hpt.
  assert (o2 = o ∧ pt' = pt) as [-> ->] by (split; congruence).
  apply run_try_Ok in Hr as (o3 & nonce & Hn & Hr). cbn [run_io] in Hn. assert (o3 = o) as -> by congruence.
  apply run_try_Ok in Hr as (o4 & source & Hs & Hr). cbn [run_io] in Hr.
  assert (o4 = o1) as -> by congruence. exists pt, nonce, source. split; [done|]. split; [done|]. congruence.
Qed.

(** The file with the passphrase is not the state file. *)
Definition passphrase_apart (o : Os) : Prop :=
  ∀ f, os_env o !! STATE_PASSPHRASE_FILE_ENV = Some f → (run_io state_path o).2 ≠ Ok (path_from f).

(** The key a save used is found by the load that follows. *)
Lemma wrapper_key_found `{!Base64Laws} rg rg' f key source o o1 o' :
  run_io (resolve_state_key_source rg) o = (o1, Ok source) →
  os_env o' = os_env o1 → os_keychain o' = os_keychain o1 →
  (∀ g, os_env o !! STATE_PASSPHRASE_FILE_ENV = Some g → os_files o' !! path_from g = os_files o1 !! path_from g) →
  match source with
  | Passphrase p => ef_kdf f = "argon2id"%string ∧
      ∃ salt, b64_decode (ef_salt_base64 f) = Ok salt ∧ derive_key_from_passphrase p salt = Ok key
  | Keychain k => ef_kdf f = "raw"%string ∧ parse_keychain_key k = Ok key
  end →
  run_io (wrapper_key rg' f) o' = (o', Ok key).
Proof.
  intros (F & E & Hs)%source_resolved He Hk Hf Hsrc. unfold wrapper_key. destruct source as [p|k].
  - destruct Hsrc as (-> & salt & Hsalt & Hder). rewrite decide_True, run_io_try, run_passphrase by done.
    rewrite (passphrase_same o o'), Hs; [|congruence|by rewrite <- F].
    cbn [run_io]. rewrite Hsalt. cbn [map_err]. by rewrite Hder.
  - destruct Hsrc as (-> & Hkey), Hs as (pw & Hpw & Hd). rewrite decide_False, decide_True by done.
    rewrite run_io_try. unfold resolve_keychain_key. cbn [run_io]. unfold password_result.
    rewrite Hk, Hpw. cbn [ok_or run_io]. rewrite Hd. cbn [map_err fst snd run_io]. by rewrite Hkey.
Qed.

(** C23: a saved state is loaded again: after a save that succeeded, with a
    passphrase or with the keychain, whether its entry existed or was created
    by the save, loading gives the same state and changes nothing; the
    passphrase must not be kept in the state file itself. *)
Theorem saved_state_loads `{!StateJsonLaws, !AeadLaws, !Base64Laws} rg rg' st o o' :
  passphrase_apart o → run_io (save_state rg st) o = (o', Ok tt) →
  run_io (load_state rg') o' = (o', Ok st).
Proof.
  intros Hap (path & contents & o1 & Hp & He & ->)%save_steps.
  apply encrypt_steps in He as (pt & nonce & source & Hst & Hsrc & Hseal).
  pose proof (source_resolved _ _ _ _ Hsrc) as (F & E & _).
  destruct (sealed_opens _ _ _ _ _ _ Hst Hseal) as (f & key & ct & Hparse & Hu & Hv & Hn & Hct & Hopen & Hkey).
  set (o' := put_file path (as_bytes contents) o1).
  rewrite (run_load rg' o' path (as_bytes contents) contents);
    [|rewrite (state_path_env o); [done|exact E]|apply lookup_insert_eq|done].
  unfold load_contents. rewrite Hparse, (run_decrypt rg' f key nonce ct o'), Hopen; [done..|].
  apply (wrapper_key_found rg rg' f key source o o1 o' Hsrc); [done..| |done].
  intros g Hg. cbn. apply lookup_insert_ne. intros ->. by apply (Hap g).
Qed.

(** C39: an interrupted save can lose the state: whenever a save would succeed,
    the process can also die during it with an empty state file, whatever the
    file held before, and no later load reads it. *)
Theorem interrupted_save_loses_state `{!StateJsonLaws, !Base64Laws} rg st o :
  (run_io (save_state rg st) o).2 = Ok tt →
  ∃ o' path, exec (save_state rg st) o o' None ∧ (run_io state_path o).2 = Ok path ∧
    os_files o' !! path = Some [] ∧
    ∀ rg', run_io (load_state rg') o' = (o', Err (Failed (ClJson "EOF while parsing a value"))).
Proof.
  destruct (run_io (save_state rg st) o) as [o2 r] eqn:Hs. cbn [snd]. intros ->.
  apply save_steps in Hs as (path & contents & o1 & Hp & He & ->).
  exists (put_file path [] o1), path. split; [|split; [done|]].
  - unfold save_state. pose proof (run_state_path o) as Ho.
    eapply exec_try_run; [rewrite (surjective_pairing (run_io state_path o)), Ho, Hp; done|].
    eapply (exec_try_run _ _ _ o); [by destruct (path_parent path)|].
    eapply exec_try_run; [exact He|]. unfold io_try, sys. cbn [io_bind].
    apply exec_sys_dies. apply (torn_prefix path (as_bytes contents) 0 o1).
  - assert (os_files (put_file path [] o1) !! path = Some []) as Hf by apply lookup_insert_eq.
    apply encrypt_steps in He as (_ & _ & source & _ & Hsrc & _).
    apply source_resolved in Hsrc as (_ & Henv & _). split; [done|]. intros rg'. rewrite (run_load rg' _ path [] "");
      [|by rewrite (state_path_env o)|done|done].
    unfold load_contents, parse_encrypted_state_file. rewrite wrapper_json_empty.
    change (as_bytes "") with ([] : bytes). cbn [run_io]. by rewrite state_json_empty.
Qed.

(** A state file whose nonce does not decode to 12 bytes makes the client
    panic, for whatever the rest of the file says, once its key is found. *)
Theorem bad_nonce_panics rg o path b contents f key nonce ciphertext :
  (run_io state_path o).2 = Ok path → os_files o !! path = Some b → from_utf8 b = Some contents →
  parse_encrypted_state_file contents = Some f → ef_version f = STATE_ENCRYPTION_VERSION →
  b64_decode (ef_nonce_base64 f) = Ok nonce → b64_decode (ef_ciphertext_base64 f) = Ok ciphertext →
  run_io (wrapper_key rg f) o = (o, Ok key) → zlen nonce ≠ 12 →
  run_io (load_state rg) o = (o, Err Panicked).
Proof.
  intros Hp Hf Hu Hparse Hv Hn Hc Hk Hlen. rewrite (run_load rg o path b contents) by done.
  unfold load_contents. rewrite Hparse, (run_decrypt rg f key nonce ciphertext) by done.
  unfold open_state, nonce_from_slice. by rewrite (proj2 (Z.eqb_neq _ _) Hlen).
Qed.

(** A state file that is not encrypted is loaded as it is, without a
    passphrase and without the keychain. *)
Theorem plain_state_accepted rg o path b contents e st :
  (run_io state_path o).2 = Ok path → os_files o !! path = Some b → from_utf8 b = Some contents →
  wrapper_from_json contents = Err e → state_from_json (as_bytes contents) = Ok st →
  run_io (load_state rg) o = (o, Ok st).
Proof.
  intros Hp Hf Hu Hw Hst. rewrite (run_load rg o path b contents) by done.
  unfold load_contents, parse_encrypted_state_file. rewrite Hw. cbn [run_io]. by rewrite Hst.
Qed.

End vault_facts.

(** ** Samples and witnesses *)

Module VaultSamples.
Export Reference.

#[export] Instance IdentityState_eq_dec : EqDecision IdentityState.
Proof. solve_decision. Defined.
#[export] Instance ContactState_eq_dec : EqDecision ContactState.
Proof. solve_decision. Defined.
#[export] Instance MessageState_eq_dec : EqDecision MessageState.
Proof. solve_decision. Defined.
#[export] Instance ThreadState_eq_dec : EqDecision ThreadState.
Proof. solve_decision. Defined.
#[export] Instance PowParamsPayload_eq_dec : EqDecision PowParamsPayload.
Proof. solve_decision. Defined.
#[export] Instance PuzzleToken_eq_dec : EqDecision PuzzleToken.
Proof. solve_decision. Defined.
#[export] Instance RequestState_eq_dec : EqDecision RequestState.
Proof. solve_decision. Defined.
#[export] Instance GrantState_eq_dec : EqDecision GrantState.
Proof. solve_decision. Defined.
#[export] Instance InboxItem_eq_dec : EqDecision InboxItem.
Proof. solve_decision. Defined.
#[export] Instance TransportChunkDescriptorState_eq_dec : EqDecision TransportChunkDescriptorState.
Proof. solve_decision. Defined.
#[export] Instance TransportManifestState_eq_dec : EqDecision TransportManifestState.
Proof. solve_decision. Defined.
#[export] Instance TransportChunkState_eq_dec : EqDecision TransportChunkState.
Proof. solve_decision. Defined.
#[export] Instance TransportOutboxItem_eq_dec : EqDecision TransportOutboxItem.
Proof. solve_decision. Defined.
#[export] Instance KeyRotationState_eq_dec : EqDecision KeyRotationState.
Proof. solve_decision. Defined.
#[export] Instance LocalState_eq_dec : EqDecision LocalState.
Proof. solve_decision. Defined.
#[export] Instance EncryptedStateFile_eq_dec : EqDecision EncryptedStateFile.
Proof. solve_decision. Defined.

Definition sample_home : Path := ["/"; "home"; "ada"]%string.
#[export] Instance sample_home_dir : HomeDir := Some sample_home.
Definition sample_path : Path := sample_home ++ [".spex"; "state.json"]%string.

(** A state, the key and the nonce it is saved with, and its wrapper. *)
Definition sample_state : LocalState := set_checkpoint_log "log" local_state_default.
Definition sample_rng : StateRng :=
  mkStateRng (Some (replicate 12 x07)) (Some (replicate 32 x01)) [].
Definition sample_wrapper : EncryptedStateFile := Eval vm_compute in
  mkEncryptedStateFile STATE_ENCRYPTION_FORMAT STATE_ENCRYPTION_VERSION "raw" ""
    (b64_encode (replicate 12 x07))
    (match aead_encrypt (replicate 32 x01) (replicate 12 x07) STATE_ENCRYPTION_AAD [x31] with
     | Ok ct => b64_encode ct
     | Err _ => ""%string
     end).
Definition short_nonce_wrapper : EncryptedStateFile :=
  mkEncryptedStateFile STATE_ENCRYPTION_FORMAT STATE_ENCRYPTION_VERSION "raw" "" (b64_encode [x07]) "".

(** serde_json on one state and on these wrappers. *)
Definition one_state (st : LocalState) : StateJson := {|
  state_to_json s := if decide (s = st) then Ok [x31] else Err "unknown"%string;
  state_from_json b := if decide (b = [x31]) then Ok st else Err "EOF while parsing a value"%string;
  wrapper_to_json w := if decide (w = sample_wrapper) then Ok "2"%string else Err "unknown"%string;
  wrapper_from_json s :=
    if decide (s = "2"%string) then Ok sample_wrapper
    else if decide (s = "3"%string) then Ok short_nonce_wrapper
    else Err "EOF while parsing a value"%string;
|}.

Lemma one_state_laws st : StateJsonLaws (SJ := one_state st).
Proof.
  split; cbn.
  - intros s b. case_decide; [|done]. intros [= <-]. by subst.
  - intros w s. case_decide; [|done]. intros [= <-]. by subst.
  - intros w s. case_decide; [|done]. by intros [= <-].
  - done.
  - done.
Qed.

#[export] Instance sample_json : StateJson := one_state sample_state.
#[export] Instance sample_json_laws : StateJsonLaws := one_state_laws sample_state.

(** A system without a state file, and without an entry in the keychain. *)
Definition empty_os : Os := mkOs ∅ ∅ None.
Definition with_state (b : bytes) : Os :=
  mkOs {[sample_path := b]} ∅ (Some (b64_encode (replicate 32 x01))).

Lemma empty_os_apart : passphrase_apart empty_os.
Proof. intros f Hf. done. Qed.

End VaultSamples.
Import VaultSamples.

Lemma saved_state_loads_witness :
  let o' := (run_io (save_state sample_rng sample_state) empty_os).1 in
  run_io (load_state sample_rng) o' = (o', Ok sample_state) ∧ os_files o' !! sample_path = Some [x32].
Proof.
  split; [|vm_compute; reflexivity].
  apply (saved_state_loads sample_rng sample_rng sample_state empty_os _ empty_os_apart).
  vm_compute. reflexivity.
Defined.

(** The state that was there before is lost. *)
Lemma interrupted_save_loses_state_witness :
  (run_io (load_state sample_rng) (with_state [x32])).2 = Ok sample_state ∧
  ∃ o' path, exec (save_state sample_rng sample_state) (with_state [x32]) o' None ∧
    (run_io state_path (with_state [x32])).2 = Ok path ∧ os_files o' !! path = Some [] ∧
    ∀ rg', run_io (load_state rg') o' = (o', Err (Failed (ClJson "EOF while parsing a value"))).
Proof.
  split; [vm_compute; reflexivity|].
  apply (interrupted_save_loses_state sample_rng sample_state (with_state [x32])).
  vm_compute. reflexivity.
Defined.

Lemma bad_nonce_panics_witness :
  run_io (load_state sample_rng) (with_state [x33]) = (with_state [x33], Err Panicked).
Proof.
  apply (bad_nonce_panics sample_rng (with_state [x33]) sample_path [x33] "3" short_nonce_wrapper
    (replicate 32 x01) [x07] []); by vm_compute.
Defined.

Lemma plain_state_accepted_witness :
  run_io (load_state sample_rng) (with_state [x31]) = (with_state [x31], Ok sample_state).
Proof.
  apply (plain_state_accepted sample_rng (with_state [x31]) sample_path [x31] "1"
    "EOF while parsing a value"); by vm_compute.
Defined.

Example trim_unicode :
  trim (String.string_of_list_byte [x20; xe2; x80; x83; x61; x20; x62; xc2; xa0; x0a]) = "a b"%string.
Proof. reflexivity. Qed.

Example path_from_absolute : path_from "/home//ada/./x.json" = ["/"; "home"; "ada"; "x.json"]%string.
Proof. reflexivity. Qed.
