(* ===== verification/Cli.v ===== *)
(** * The command line (spex-cli/main.rs, spex-client/src/lib.rs)

    One process of the command line: the state is loaded, one command runs on
    it, and the state is saved if the command succeeded.  Arguments are parsed
    by clap; [Commands] is its result.  A command returns the lines it printed
    and the new state, or the reason it stopped.

    What the process gets from outside is [World]: readings of the clock, random
    bytes, the answers of the bridge, the events of the peer-to-peer node (built
    by [Peers.p2p_new] and driven by the loops of [Fetch]) and the database an
    abuse log is exported from.  [publish_via_bridge] of the client library is
    here as well, with the messages of the client's errors.

    The theorems are in [CliFacts]. *)
From Stdlib Require Import ZArith Lia Ascii Strings.Byte.
From stdpp Require Import base list gmap strings sorting numbers.
From S2P Require Import Prelude External Cbor CborFacts Types Core Log Transport Files Ingest Metrics.
From S2P Require Import Peers Fetch Bridge Mls Client Threads Vault.

#[local] Open Scope Z_scope.

(** ** Messages of the client's errors *)

Definition client_error_to_string (e : ClientError) : string :=
  match e with
  | ClIo e => "io error: " +:+ e
  | ClJson e => "json error: " +:+ e
  | ClCbor e => "cbor error: " +:+ e
  | ClHex e => "hex error: " +:+ e
  | ClMissingIdentity => "missing identity"
  | ClInvalidCard => "invalid card payload"
  | ClSignatureInvalid => "signature verification failed"
  | ClRequestTargetMismatch => "request target does not match local identity"
  | ClRequestStale => "request timestamp is outside the accepted window"
  | ClRequestReplay => "request has already been accepted"
  | ClThreadNotFound => "thread not found"
  | ClTransport e => "transport error: " +:+ e
  | ClLog e => "log error: " +:+ e
  | ClMls e => "mls error: " +:+ e
  | ClCrypto e => "crypto error: " +:+ e
  | ClInvalidPuzzle => "invalid request puzzle"
  | ClGrantInvalid => "grant signature invalid"
  | ClGrantExpired => "grant expired"
  | ClInvalidAeadPayload => "invalid aead payload"
  | ClMissingSignature => "missing envelope signature"
  | ClUnknownSender s => "unknown sender: " +:+ s
  | ClUnauthorizedSender => "sender not authorized for thread"
  | ClInvalidMessageEncoding => "invalid message encoding"
  | ClPermissionDenied => "permission denied for checkpoint operation"
  | ClRevokedKeyNotFound => "revoked key not found in checkpoint history"
  | ClRecoveryKeyInvalidOrExpired => "recovery key invalid or expired"
  | ClCore e => "core error: " +:+ e
  | ClStateEncryption e => "state encryption error: " +:+ e
  end.

Definition failure_reason_to_string (r : ClientFailureReason) : string :=
  match r with
  | FrGrantExpired => "The access grant has expired."
  | FrPowTooWeak => "Proof of work puzzle is too weak or invalid."
  | FrCfgMismatch => "Thread configuration mismatch detected."
  | FrEpochMismatch => "Encryption epoch mismatch detected."
  | FrKeyChanged => "Identity key has changed since last contact."
  | FrNetworkError => "Network transport or I/O error occurred."
  | FrProtocolError => "Protocol violation or state inconsistency."
  | FrSecurityViolation => "Security check failed (signature/auth)."
  | FrInvalidFormat => "Data format is invalid or corrupted."
  | FrInternalError => "Internal client error."
  | FrUnknown => "Unknown error occurred."
  end.

(** ** Arguments *)

(** The options of the commands that can use the peer-to-peer network. *)
Record P2pFlags := mkP2pFlags {
  pf_p2p : bool;
  pf_peer : list string;
  pf_bootstrap : list string;
  pf_listen_addr : list string;
  pf_wait_secs : Z;
}.

Inductive IdentityCommand : Type := IdentityNew | IdentityRotate.
Inductive CardCommand : Type := CardCreate | CardRedeem (card : string).
Inductive RequestCommand : Type := RequestSend (to : string) (role : Z).
Inductive GrantCommand : Type := GrantAccept (request : string) | GrantDeny (request : string).
Inductive ThreadCommand : Type := ThreadNew (members : list string).
Inductive MsgCommand : Type :=
| MsgSend (thread text : string) (bridge_url : option string) (ttl_seconds : option Z)
    (flags : P2pFlags).
Inductive InboxCommand : Type :=
| InboxPoll (bridge_url inbox_key : option string) (flags : P2pFlags).
Inductive LogCommand : Type :=
| LogAppendCheckpoint
| LogCreateRecoveryKey
| LogRevokeKey (key_hex : string) (recovery_hex reason : option string)
| LogExport (path : string)
| LogExportAbuse (db_path path : string) (filter : AbuseLogFilter)
| LogImport (path : string)
| LogGossipVerify (path : string)
| LogInfo.

Inductive Commands : Type :=
| CmdIdentity (c : IdentityCommand)
| CmdCard (c : CardCommand)
| CmdRequest (c : RequestCommand)
| CmdGrant (c : GrantCommand)
| CmdThread (c : ThreadCommand)
| CmdMsg (c : MsgCommand)
| CmdInbox (c : InboxCommand)
| CmdLog (c : LogCommand).

(** ** Pieces *)

Definition should_use_p2p (f : P2pFlags) : bool :=
  pf_p2p f || negb (bool_decide (pf_peer f = [])) || negb (bool_decide (pf_bootstrap f = []))
  || negb (bool_decide (pf_listen_addr f = [])).

(** The first 16 characters. *)
Definition digest_prefix `{Sha256} `{Hex} (value : string) : string :=
  String.substring 0 16 (hex_encode (hash_bytes HashSha256 (as_bytes value))).

(** [chars().count()]: the bytes that start a character. *)
Definition char_count (s : string) : Z :=
  zlen (filter (λ b, in_range 0x80 0xBF b = false) (as_bytes s)).

Definition str_len (s : string) : Z := Z.of_nat (String.length s).

Definition source_debug (s : InboxSource) : string :=
  match s with SourceKademlia => "Kademlia" | SourceBridge => "Bridge" end.

Definition consistency_text (c : LogConsistency) : string :=
  match c with
  | Identical => "identical"
  | LocalBehind => "local-behind"
  | LocalAhead => "local-ahead"
  | Diverged => "diverged"
  end.

Definition lift {A} (r : result ClientError A) : result Stop A := map_err Failed r.

Definition build_p2p_config `{PeerIds} (listen_addrs peers bootstrap_nodes : list Multiaddr)
    (publish_wait manifest_wait query_timeout : Z) : P2pNodeConfig :=
  let d := node_config_default in
  mkP2pNodeConfig (if decide (listen_addrs = []) then pc_listen_addrs d else listen_addrs)
    peers bootstrap_nodes publish_wait query_timeout manifest_wait (pc_persistence_path d)
    (pc_peer_ban_duration d) (pc_peer_probation_duration d) (pc_score_recovery_per_minute d)
    (pc_probation_score_threshold d) (pc_ban_score_threshold d) (pc_probation_clear_score d)
    (pc_invalid_payload_ban_threshold d) (pc_inconsistent_response_ban_threshold d).

(** The lines printed, and the new state or the reason the command stopped. *)
Abbreviation Outcome := (list string * result Stop LocalState)%type.

(** serde_json on a record of the abuse log. *)
Class RecordJson := abuse_record_to_json : AbuseLogRecord → result string string.

Section cli.
Context `{SH : Sha256} `{ED : Ed25519} `{AR : Argon2} `{HX : Hex} `{B64 : Base64} `{CB : Ciborium}
  `{LS : LogSerde} `{TJ : TokenJson} `{AE : Aead} `{NW : Network} `{PI : PeerIds} `{LP : !P2pSwarm}
  `{SJ : SnapshotJson} `{HD : HomeDir} `{STJ : StateJson} `{RJ : RecordJson}.

(** What the peer-to-peer node of a process meets. *)
Record P2pWorld := mkP2pWorld {
  pw_clock : Clock;
  pw_swarm : result TransportError swarm;
  pw_kad : kad;
  pw_topics : nat → TopicRun;
  pw_subscribed : result string unit;
  pw_resubscriptions : nat;
  pw_messages : list (bytes * FetchRun);
  pw_elapsed : Z;
  pw_addr_error : string → string;
}.

(** What a process gets from outside; the clock readings, keys and nonces are
    those of the calls that need them. *)
Record World := mkWorld {
  wd_load : StateRng;
  wd_save : StateRng;
  wd_now : nat → Z;
  wd_seed : bytes;
  wd_user_id : bytes;
  wd_device_id : bytes;
  wd_device_nonce : bytes;
  wd_os_rng : nat → Z → bytes;
  wd_thread_id : bytes;
  wd_initial_secret : bytes;
  wd_nonce : bytes;
  wd_recovery_key : bytes;
  wd_put : string → nat → bytes → BridgePublishRequest → result TransportError unit;
  wd_scan : string → bytes → result TransportError InboxScanResponse;
  wd_database : string → result string Db;
  wd_p2p : P2pWorld;
}.

(** [publish_via_bridge]: the inbox key and the request that are sent. *)
Definition bridge_call (os_rng : Z → bytes) (now : Z) (identity : IdentityState)
    (recipient_inbox_key_seed : bytes) (envelope : Envelope) (ttl_seconds : option Z)
    : result ClientError (bytes * BridgePublishRequest) :=
  let? payload := client_core (ctap2_bytes_of envelope) in
  let? sender_user_id := client_hex (id_user_id_hex identity) in
  let? signing_key := signing_key_from_hex (id_signing_key_hex identity) in
  let? request := client_transport (build_bridge_publish_request os_rng signing_key
    {| bi_sender_user_id := sender_user_id; bi_recipient_key_seed := recipient_inbox_key_seed;
       bi_envelope := payload; bi_role := 1; bi_flags := None; bi_now_unix := now;
       bi_grant_ttl_seconds := 300; bi_inbox_ttl_seconds := ttl_seconds;
       bi_pow_params := pow_default |}) in
  Ok (scan_hashed_key (derive_inbox_scan_key HashSha256 recipient_inbox_key_seed), request).

Definition publish_via_bridge (os_rng : Z → bytes) (now : Z) (identity : IdentityState)
    (recipient_inbox_key_seed : bytes) (envelope : Envelope)
    (put : bytes → BridgePublishRequest → result TransportError unit) (ttl_seconds : option Z)
    : result ClientError unit :=
  let? call := bridge_call os_rng now identity recipient_inbox_key_seed envelope ttl_seconds in
  client_transport (put call.1 call.2).

(** One publication per recipient, up to the first that fails; [i] numbers
    them. *)
Fixpoint publish_all (w : World) (url : string) (identity : IdentityState) (envelope : Envelope)
    (ttl_seconds : option Z) (i : nat) (keys : list bytes) : result ClientError unit :=
  match keys with
  | [] => Ok tt
  | key :: rest =>
      let? _ := publish_via_bridge (wd_os_rng w i) (wd_now w (2 + i)) identity key envelope
                  (wd_put w url i) ttl_seconds in
      publish_all w url identity envelope ttl_seconds (S i) rest
  end.

Definition parse_multiaddrs (p : P2pWorld) (values : list string) : result ClientError (list Multiaddr) :=
  try_map (λ value, ok_or (addr_parse value)
             (ClTransport ("invalid multiaddr: " +:+ pw_addr_error p value))) values.

Definition build_p2p_transport (p : P2pWorld) (f : P2pFlags)
    : io (result Stop (P2pNodeConfig * P2pTransport)) :=
  let wait_duration := seconds (pf_wait_secs f) in
  let*? node_config := Ret (lift (
    let? listen_addrs := parse_multiaddrs p (pf_listen_addr f) in
    let? peers := parse_multiaddrs p (pf_peer f) in
    let? bootstrap_nodes := parse_multiaddrs p (pf_bootstrap f) in
    Ok (build_p2p_config listen_addrs peers bootstrap_nodes wait_duration wait_duration
          wait_duration))) in
  let*? sw := Ret (lift (client_transport (pw_swarm p))) in
  let* r := p2p_new (pw_clock p) node_config sw in
  Ret (match r with
       | None => Err Panicked
       | Some r => let? n := lift (client_transport r) in Ok (node_config, n)
       end).

Definition recover_payloads_with_fallback (recovered : result TransportError (list bytes))
    (bridge : option (result TransportError InboxScanResponse)) : result ClientError InboxScanResponse :=
  match recovered with
  | Err err =>
      match bridge with
      | Some response => client_transport response
      | None => Err (ClTransport (transport_error_to_string err))
      end
  | Ok payloads =>
      if negb (bool_decide (payloads = [])) then Ok (mkInboxScanResponse payloads SourceKademlia)
      else match bridge with
           | Some response => client_transport response
           | None => Ok (mkInboxScanResponse [] SourceKademlia)
           end
  end.

Definition export_abuse_log_file (path : string) (records : list AbuseLogRecord) : io (result Stop unit) :=
  let*? lines := Ret (lift (try_map (λ r, map_err ClJson (abuse_record_to_json r)) records)) in
  sys (λ e, Failed (ClIo e))
    (WriteFile (path_from path) (as_bytes (String.concat (String "010"%char EmptyString) lines))).

(** ** Commands *)

Definition set_inbox (items : list InboxItem) (s : LocalState) : LocalState :=
  mkLocalState (ls_identity s) (ls_contacts s) (ls_threads s) items (ls_requests s) (ls_grants s)
    (ls_checkpoint_log s) (ls_transport_outbox s) (ls_p2p_inbox s) (ls_transport_gossip s)
    (ls_transport_chunk_store s) (ls_key_rotations s) (ls_accepted_request_ids s).

Definition stopped (e : ClientError) : Outcome := ([], Err (Failed e)).

Definition run_identity (w : World) (c : IdentityCommand) (s : LocalState) : Outcome :=
  match c with
  | IdentityNew =>
      let '(s, self) := create_identity_in_state s (wd_seed w) (wd_user_id w) (wd_device_id w)
                              (wd_device_nonce w) in
      match client_hex (id_verifying_key_hex self) with
      | Err e => stopped e
      | Ok key =>
          (["identity created"%string;
            "user_id digest: " +:+ digest_prefix (id_user_id_hex self);
            "fingerprint: " +:+ fingerprint_hex key], Ok s)
      end
  | IdentityRotate =>
      match rotate_identity_in_state s (wd_seed w) (wd_device_nonce w) (wd_now w 0) (wd_now w 1)
              (wd_now w 2) with
      | (_, Err e) => stopped e
      | (s, Ok (_, self)) =>
          let lines := ["identity rotated"%string;
                        "new user_id digest: " +:+ digest_prefix (id_user_id_hex self)] in
          match client_hex (id_verifying_key_hex self) with
          | Err e => (lines, Err (Failed e))
          | Ok key => (lines ++ ["new fingerprint: " +:+ fingerprint_hex key], Ok s)
          end
      end
  end.

(** [what] generated, with the length and the digest of its text. *)
Definition generated (what token : string) : string :=
  what +:+ " generated (base64_len: " +:+ show_Z (str_len token) +:+ ", sha256: "
  +:+ digest_prefix token +:+ ")".

Definition run_card (w : World) (c : CardCommand) (s : LocalState) : Outcome :=
  match c with
  | CardCreate =>
      match ls_identity s with
      | None => stopped ClMissingIdentity
      | Some self =>
          match create_contact_card_payload self (wd_now w 0) with
          | Err e => stopped e
          | Ok payload => ([generated "card" payload], Ok s)
          end
      end
  | CardRedeem card =>
      match redeem_contact_card_to_state s card (wd_now w 0) with
      | Err e => stopped e
      | Ok (s, outcome) =>
          let contact := cr_contact outcome in
          let alert :=
            match redeem_failure_reason outcome, cr_previous_fingerprint outcome with
            | Some reason, Some previous =>
                ["ALERT: " +:+ failure_reason_to_string reason +:+ " (old " +:+ previous
                 +:+ ", new " +:+ ct_fingerprint contact +:+ ")"]
            | _, _ => []
            end in
          (alert ++ ["contact saved digest: " +:+ digest_prefix (ct_user_id_hex contact);
                     "fingerprint: " +:+ ct_fingerprint contact], Ok s)
      end
  end.

Definition run_request (w : World) (c : RequestCommand) (s : LocalState) : Outcome :=
  match c with
  | RequestSend to role =>
      match create_request_for_state s to role (wd_os_rng w 0) (wd_now w 0) with
      | Err e => stopped e
      | Ok (s, (_, token)) => ([generated "request" token], Ok s)
      end
  end.

Definition run_grant (w : World) (c : GrantCommand) (s : LocalState) : Outcome :=
  match c with
  | GrantAccept request =>
      match accept_request_for_state s request (wd_now w 0) (wd_now w 1) with
      | Err e => stopped e
      | Ok (s, (_, token)) => ([generated "grant" token], Ok s)
      end
  | GrantDeny request =>
      match parse_request_token request with
      | Err e => stopped e
      | Ok token => (["request denied (role " +:+ show_Z (rq_role token) +:+ ")"], Ok s)
      end
  end.

Definition run_thread (w : World) (c : ThreadCommand) (s : LocalState) : Outcome :=
  match c with
  | ThreadNew members =>
      match create_thread_for_state s members (wd_thread_id w) (wd_initial_secret w) (wd_now w 0) with
      | None => ([], Err Panicked)
      | Some (Err e) => stopped e
      | Some (Ok (s, tid)) => (["thread: " +:+ tid], Ok s)
      end
  end.

(** Building the node and announcing a message on it. *)
Definition p2p_publish (p : P2pWorld) (f : P2pFlags) (dispatch : ThreadMessageDispatch)
    : io (result Stop unit) :=
  let*? built := build_p2p_transport p f in
  let '(cfg, n) := built in
  let keys := imap (λ i k, (k, pw_topics p i)) (td_recipient_inbox_keys dispatch) in
  match publish_to_inboxes (pw_clock p) transport_default (ar_max_retries (adaptive_retry cfg))
          (pw_elapsed p) keys (td_manifest dispatch) (td_chunks dispatch) (pw_kad p) n with
  | None => Ret (Err Waiting)
  | Some (_, m) => let* (_, r) := m in Ret (lift (client_transport r))
  end.

Definition run_msg (w : World) (c : MsgCommand) (s : LocalState) : io Outcome :=
  match c with
  | MsgSend thread text bridge_url ttl_seconds flags =>
      match ls_identity s with
      | None => Ret (stopped ClMissingIdentity)
      | Some sender_identity =>
          match send_thread_message_for_state s thread text (wd_nonce w) (wd_now w 0) (wd_now w 1) with
          | None => Ret ([], Err Panicked)
          | Some (_, Err e) => Ret (stopped e)
          | Some (s, Ok dispatch) =>
              let inboxes := show_Z (zlen (td_recipient_inbox_keys dispatch)) +:+ " inboxes" in
              let published := "message published via transport (" +:+
                show_Z (td_chunk_count dispatch) +:+ " chunks)" in
              match (match bridge_url with
                     | None => Ok []
                     | Some url =>
                         let? _ := publish_all w url sender_identity (td_envelope dispatch)
                                     ttl_seconds 0 (td_recipient_inbox_keys dispatch) in
                         Ok ["bridge: published envelope to " +:+ inboxes]
                     end) with
              | Err e => Ret (stopped e)
              | Ok lines =>
                  if should_use_p2p flags then
                    let* r := p2p_publish (wd_p2p w) flags dispatch in
                    Ret (match r with
                         | Err e => (lines, Err e)
                         | Ok _ => (lines ++ ["p2p: published manifest to " +:+ inboxes; published], Ok s)
                         end)
                  else Ret (lines ++ [published], Ok s)
              end
          end
      end
  end.

Definition receipt_lines (receipts : list InboxMessageReceipt) (source : InboxSource) : list string :=
  map (λ r, "message: sender_digest=" +:+ digest_prefix (rc_sender_user_id_hex r) +:+ " chars="
            +:+ show_Z (char_count (rc_text r))) receipts
  ++ ["inbox: " +:+ show_Z (zlen receipts) +:+ " items (source: " +:+ source_debug source +:+ ")"].

(** Building the node and listening on the inbox topic. *)
Definition p2p_recover (p : P2pWorld) (f : P2pFlags) (inbox_key : bytes)
    : io (result Stop (result TransportError (list bytes))) :=
  let*? built := build_p2p_transport p f in
  let '(cfg, n) := built in
  match recover_payloads_for_inbox (pw_clock p) transport_default (ar_max_retries (adaptive_retry cfg))
          inbox_key (pw_subscribed p) (pw_resubscriptions p) (pw_messages p) (pw_elapsed p)
          (pw_kad p) n with
  | None => Ret (Err Waiting)
  | Some (_, m) => let* (_, r) := m in Ret (Ok r)
  end.

(** The poll of an inbox without the peer-to-peer network. *)
Definition poll_local (w : World) (bridge_url : option string) (inbox_key : bytes) (s : LocalState)
    : Outcome :=
  let received :=
    if transport_inbox_has_items s inbox_key then
      '(s, r) ← receive_transport_messages s inbox_key;
      Some (s, let? items := r in Ok (items, SourceKademlia))
    else receive_inbox_messages s inbox_key (wd_scan w <$> bridge_url) in
  match received with
  | None => ([], Err Panicked)
  | Some (_, Err e) => stopped e
  | Some (s, Ok (items, source)) =>
      match record_inbox_messages s items (wd_now w 0) with
      | (_, Err e) => stopped e
      | (s, Ok receipts) => (receipt_lines receipts source, Ok s)
      end
  end.

Definition run_inbox (w : World) (c : InboxCommand) (s : LocalState) : io Outcome :=
  match c with
  | InboxPoll bridge_url None _ =>
      Ret (["local inbox: " +:+ show_Z (zlen (ls_inbox s)) +:+ " items"], Ok (set_inbox [] s))
  | InboxPoll bridge_url (Some inbox_key) flags =>
      match client_hex inbox_key with
      | Err e => Ret (stopped e)
      | Ok key =>
          if should_use_p2p flags then
            let* r := p2p_recover (wd_p2p w) flags key in
            Ret (match r with
                 | Err e => ([], Err e)
                 | Ok recovered =>
                     match recover_payloads_with_fallback recovered
                             ((λ url, wd_scan w url key) <$> bridge_url) with
                     | Err e => stopped e
                     | Ok response =>
                         match ingest_inbox_payloads s (scan_items response) (wd_now w 0) with
                         | None => ([], Err Panicked)
                         | Some (_, Err e) => stopped e
                         | Some (s, Ok receipts) =>
                             (receipt_lines receipts (scan_source response), Ok s)
                         end
                     end
                 end)
          else Ret (poll_local w bridge_url key s)
      end
  end.

(** Appends an entry to the log of the state. *)
Definition append_to_log (s : LocalState) (entry : CheckpointEntry)
    : result ClientError (LocalState * CheckpointLog) :=
  let? log := load_checkpoint_log s in
  let? log := client_log (log_append log entry) in
  let? s := save_checkpoint_log s log in
  Ok (s, log).

Definition appended (log : CheckpointLog) : string :=
  "checkpoint appended (len: " +:+ show_Z (zlen (entries log)) +:+ ")".

Definition read_log (path : string) : io (result Stop CheckpointLog) :=
  ReadFile (path_from path) (λ r,
    Ret (lift (let? encoded := map_err ClIo (read_to_string r) in
               client_log (import_base64 (trim encoded))))).

Definition verify_lines (local remote : CheckpointLog) : result ClientError (list string) :=
  let? local_root := client_log (merkle_root local) in
  let? remote_root := client_log (merkle_root remote) in
  Ok ["local entries: " +:+ show_Z (zlen (entries local));
      "remote entries: " +:+ show_Z (zlen (entries remote));
      "local root: " +:+ hex_encode local_root;
      "remote root: " +:+ hex_encode remote_root;
      "consistency: " +:+ consistency_text (log_consistency local remote)].

Definition run_revoke (w : World) (key_hex : string) (recovery_hex reason : option string)
    (s : LocalState) : result ClientError (list string * LocalState) :=
  let? identity := ok_or (ls_identity s) ClMissingIdentity in
  let? log := load_checkpoint_log s in
  let? entry := create_revocation_entry identity key_hex recovery_hex reason (wd_now w 0) in
  let? appended := append_revocation_entry_checked log identity entry (60 * 60 * 24 * 365) (wd_now w 1) in
  let '(log, changed) := appended in
  let len := " (len: " +:+ show_Z (zlen (entries log)) +:+ ")" in
  if changed : bool then
    let? s := save_checkpoint_log s log in
    Ok (["revocation appended" +:+ len], s)
  else Ok (["revocation already present" +:+ len], s).

(** Ends a command with the lines of a result and the state it left. *)
Definition finish (r : result ClientError (list string * LocalState)) : io Outcome :=
  Ret (match r with Ok (lines, s) => (lines, Ok s) | Err e => stopped e end).

(** The same after calls of the system. *)
Definition finish_io (m : io (result Stop (list string * LocalState))) : io Outcome :=
  let* r := m in
  Ret (match r with Ok (lines, s) => (lines, Ok s) | Err e => ([], Err e) end).

Definition run_log (w : World) (c : LogCommand) (s : LocalState) : io Outcome :=
  match c with
  | LogAppendCheckpoint =>
      finish (let? identity := ok_or (ls_identity s) ClMissingIdentity in
              let? entry := create_checkpoint_entry identity (wd_now w 0) in
              let? appended_log := append_to_log s (CKey entry) in
              Ok ([appended appended_log.2], appended_log.1))
  | LogCreateRecoveryKey =>
      finish (let? identity := ok_or (ls_identity s) ClMissingIdentity in
              let? entry := create_recovery_entry identity (wd_recovery_key w) (wd_now w 0) in
              let? appended_log := append_to_log s (CRecovery entry) in
              let recovery_hex := hex_encode (rk_recovery_key entry) in
              Ok (["recovery key generated (hex_len: " +:+ show_Z (str_len recovery_hex)
                   +:+ ", sha256: " +:+ digest_prefix recovery_hex +:+ ")";
                   appended appended_log.2], appended_log.1))
  | LogRevokeKey key_hex recovery_hex reason => finish (run_revoke w key_hex recovery_hex reason s)
  | LogExport path =>
      finish_io (
        let*? encoded := Ret (lift (let? log := load_checkpoint_log s in
                                    client_log (export_base64 log))) in
        let*? _ := sys (λ e, Failed (ClIo e)) (WriteFile (path_from path) (as_bytes encoded)) in
        Ret (Ok (["log exported"%string], s)))
  | LogExportAbuse db_path path filter =>
      finish_io (
        let*? records := Ret (lift (map_err (λ e, ClLog (bridge_error_to_string (Storage e)))
                               (let? db := wd_database w db_path in Ok (export_abuse_logs db filter)))) in
        let*? _ := export_abuse_log_file path records in
        Ret (Ok (["abuse log exported (records: " +:+ show_Z (zlen records) +:+ ")"], s)))
  | LogImport path =>
      finish_io (
        let*? log := read_log path in
        let*? s := Ret (lift (save_checkpoint_log s log)) in
        Ret (Ok (["log imported (len: " +:+ show_Z (zlen (entries log)) +:+ ")"], s)))
  | LogGossipVerify path =>
      finish_io (
        let*? remote := read_log path in
        Ret (lift (let? local := load_checkpoint_log s in
                   let? lines := verify_lines local remote in
                   Ok (lines, s))))
  | LogInfo =>
      finish (let? log := load_checkpoint_log s in
              let? root := client_log (merkle_root log) in
              Ok (["entries: " +:+ show_Z (zlen (entries log)); "root: " +:+ hex_encode root], s))
  end.

Definition run_command (w : World) (c : Commands) (s : LocalState) : io Outcome :=
  match c with
  | CmdIdentity c => Ret (run_identity w c s)
  | CmdCard c => Ret (run_card w c s)
  | CmdRequest c => Ret (run_request w c s)
  | CmdGrant c => Ret (run_grant w c s)
  | CmdThread c => Ret (run_thread w c s)
  | CmdMsg c => run_msg w c s
  | CmdInbox c => run_inbox w c s
  | CmdLog c => run_log w c s
  end.

(** ** The process *)

Definition run_cli (w : World) (c : Commands) : io (list string * result Stop unit) :=
  let* loaded := load_state (wd_load w) in
  match loaded with
  | Err e => Ret ([], Err e)
  | Ok state =>
      let* (lines, r) := run_command w c state in
      match r with
      | Err e => Ret (lines, Err e)
      | Ok state => let* saved := save_state (wd_save w) state in Ret (lines, saved)
      end
  end.

(** [main]: the lines on the standard output, those on the standard error, and
    the exit status; a process that waits has none. *)
Definition main (w : World) (c : Commands) : io (list string * list string * option Z) :=
  let* (lines, r) := run_cli w c in
  Ret (match r with
       | Ok _ => (lines, [], Some 0)
       | Err (Failed err) =>
           (lines, ["Error: " +:+ failure_reason_to_string (failure_reason err);
                    "Details: " +:+ client_error_to_string err], Some 1)
       | Err Panicked => (lines, [], Some 101)
       | Err Waiting => (lines, [], None)
       end).

End cli.
