(* ===== verification/CliFacts.v ===== *)
(** * The command line: lemmas and theorems

    About the definitions of [Cli].  Shown here: a series of processes on one
    state file does what the same commands do on a state in memory, each
    reporting success exactly when it took effect and leaving everything as it
    was when it did not; a process that fails before it saves changes no file.
    Three results describe gaps: a message that reached some of its recipients
    and failed at another is forgotten, so that its sequence number is used
    again; a poll that falls back to the bridge reads another inbox than the
    one messages are published to; importing a log replaces the local one,
    however the two compare. *)
From Stdlib Require Import ZArith Lia Ascii Strings.Byte.
From stdpp Require Import base list gmap strings sorting numbers.
From S2P Require Import Prelude External Cbor CborFacts Types Core Log Transport Files Ingest Metrics.
From S2P Require Import Peers PeersFacts Fetch Bridge Mls Client ClientFacts Threads ThreadsFacts Vault VaultFacts Cli.

#[local] Open Scope Z_scope.

(** ** Programs that do not depend on the system *)

(** [gives P m]: the program leaves the system alone and returns the same
    value on every system, one in [P]. *)
Definition gives {A} (P : A → Prop) (m : io A) : Prop := ∃ a, P a ∧ ∀ o, run_io m o = (o, a).

Definition any {A} (_ : A) : Prop := True.

Lemma gives_ret {A} (P : A → Prop) a : P a → gives P (Ret a).
Proof. intros. by exists a. Qed.

Lemma gives_bind {A B} (P : A → Prop) (Q : B → Prop) m f :
  gives P m → (∀ a, P a → gives Q (f a)) → gives Q (io_bind m f).
Proof.
  intros (a & Ha & Hm) Hf. destruct (Hf a Ha) as (b & Hb & Hfa). exists b. split; [done|].
  intros o. by rewrite run_io_bind, Hm.
Qed.

Lemma gives_try {E A B} (P : A → Prop) (Q : result E B → Prop) m (f : A → io (result E B)) :
  gives (λ r, match r with Ok a => P a | Err e => Q (Err e) end) m → (∀ a, P a → gives Q (f a)) →
  gives Q (io_try m f).
Proof.
  intros Hm Hf. eapply gives_bind; [exact Hm|]. intros [a|e] Ha; [by apply Hf|by apply gives_ret].
Qed.

Lemma gives_mono {A} (P Q : A → Prop) m : (∀ a, P a → Q a) → gives P m → gives Q m.
Proof. intros HPQ (a & Ha & Hm). exists a. auto. Qed.

Section cli_facts.
Context `{SH : Sha256} `{ED : Ed25519} `{AR : Argon2} `{HX : Hex} `{B64 : Base64} `{CB : Ciborium}
  `{LS : LogSerde} `{TJ : TokenJson} `{AE : Aead} `{NW : Network} `{PI : PeerIds} `{LP : !P2pSwarm}
  `{SJ : SnapshotJson} `{HD : HomeDir} `{STJ : StateJson} `{RJ : RecordJson}.

(** A node that keeps no snapshot. *)
Definition unpersisted (n : P2pTransport) : Prop := pc_persistence_path (nd_config n) = None.

Lemma persist_nothing ck n : unpersisted n → persist_state ck n = Ret (Ok tt).
Proof. unfold unpersisted, persist_state. by intros ->. Qed.

Lemma configure_addresses_config ck addrs : ∀ bootstrap n,
  nd_config (configure_addresses ck addrs bootstrap n).1 = nd_config n.
Proof.
  induction addrs as [|addr addrs IH]; intros bootstrap n; cbn [configure_addresses]; [done|].
  destruct (split_peer_addr addr) as [[p base]|]; [|done].
  destruct (is_peer_banned n _ p); [apply IH|]. unfold connect_peer.
  destruct (sw_dial _ _) as [sw [|]]; cbn [map_err]; [|done]. rewrite IH. done.
Qed.

Lemma configure_peers_gives ck n :
  unpersisted n → gives (λ r, unpersisted r.1) (configure_peers ck n).
Proof.
  intros Hn. unfold configure_peers.
  pose proof (configure_addresses_config ck (pc_peers (nd_config n) ++ pc_bootstrap_nodes (nd_config n)
    ++ persisted_bootstrap_addrs n) [] n) as Hc.
  destruct (configure_addresses _ _ _ _) as [n1 [ps|e]]; cbn [fst] in Hc;
    [|apply gives_ret; unfold unpersisted; cbn; by rewrite Hc].
  set (n2 := match ps with [] => _ | _ => _ end).
  assert (unpersisted n2) as Hn2 by (unfold unpersisted, n2; destruct ps; cbn; by rewrite Hc).
  rewrite persist_nothing by done. cbn [io_bind]. by apply gives_ret.
Qed.

Lemma p2p_new_gives ck cfg sw :
  pc_persistence_path cfg = None →
  gives (λ r, match r with Some (Ok n) => unpersisted n | _ => True end) (p2p_new ck cfg sw).
Proof.
  intros Hc. unfold p2p_new. destruct (listen_all sw _) as [sw' [|e]]; [|by apply gives_ret].
  unfold load_persisted_state. cbn [nd_config node_new]. rewrite Hc. cbn [io_bind].
  eapply gives_bind; [by apply configure_peers_gives|]. intros [n [|e]] Hn; [|by apply gives_ret].
  rewrite persist_nothing by done. by apply gives_ret.
Qed.

Lemma build_p2p_transport_gives p f :
  gives (λ r, match r with Ok x => unpersisted x.2 | Err _ => True end) (build_p2p_transport p f).
Proof.
  unfold build_p2p_transport. eapply (gives_try (λ cfg, pc_persistence_path cfg = None)).
  { apply gives_ret. unfold lift. destruct (parse_multiaddrs p (pf_listen_addr f)); [|done].
    destruct (parse_multiaddrs p (pf_peer f)); [|done].
    by destruct (parse_multiaddrs p (pf_bootstrap f)). }
  intros cfg Hcfg. eapply (gives_try any).
  { apply gives_ret. unfold lift, client_transport. by destruct (pw_swarm p). }
  intros sw _. eapply gives_bind; [by apply p2p_new_gives|].
  intros [[n|e]|] Hn; by apply gives_ret.
Qed.

Lemma p2p_publish_gives p f dispatch : gives any (p2p_publish p f dispatch).
Proof.
  unfold p2p_publish. eapply (gives_try (λ x, unpersisted x.2)).
  { eapply gives_mono; [|apply build_p2p_transport_gives]. by intros [x|]. }
  intros [cfg n] Hn. cbn [snd] in Hn. unfold publish_to_inboxes.
  destruct (manifest_payload _) as [b|e]; [|by apply gives_ret].
  destruct (publish_topics _ _ _) as [[m [|e]]|]; cbn [mbind option_bind]; [|by apply gives_ret..].
  rewrite persist_nothing by done. by apply gives_ret.
Qed.

Lemma p2p_recover_gives p f key : gives any (p2p_recover p f key).
Proof.
  unfold p2p_recover. eapply (gives_try (λ x, unpersisted x.2)).
  { eapply gives_mono; [|apply build_p2p_transport_gives]. by intros [x|]. }
  intros [cfg n] Hn. cbn [snd] in Hn. unfold recover_payloads_for_inbox.
  destruct (pw_subscribed p) as [|e]; [|by apply gives_ret].
  destruct (recover_inbox _ _ _ _ _ _ _) as [[[k m] rec]|]; cbn [mbind option_bind]; [|by apply gives_ret].
  rewrite persist_nothing by done. by apply gives_ret.
Qed.

(** The commands that neither read nor write a file of their own. *)
Definition uses_file (c : Commands) : bool :=
  match c with
  | CmdLog (LogExport _ | LogExportAbuse _ _ _ | LogImport _ | LogGossipVerify _) => true
  | _ => false
  end.

Lemma run_command_gives w c s : uses_file c = false → gives any (run_command w c s).
Proof.
  intros Hc. destruct c as [c|c|c|c|c|c|c|c]; cbn [run_command]; try (by apply gives_ret).
  - destruct c as [thread text url ttl flags]. cbn [run_msg].
    destruct (ls_identity s); [|by apply gives_ret].
    destruct (send_thread_message_for_state _ _ _ _ _ _) as [[s' [d|]]|]; [|by apply gives_ret..].
    destruct (match url with Some _ => _ | None => _ end); [|by apply gives_ret].
    destruct (should_use_p2p flags); [|by apply gives_ret].
    eapply gives_bind; [apply p2p_publish_gives|]. intros r _. by apply gives_ret.
  - destruct c as [url [key|] flags]; cbn [run_inbox]; [|by apply gives_ret].
    destruct (client_hex key); [|by apply gives_ret].
    destruct (should_use_p2p flags); [|by apply gives_ret].
    eapply gives_bind; [apply p2p_recover_gives|]. intros r _. by apply gives_ret.
  - destruct c; try done; cbn [run_log]; by apply gives_ret.
Qed.

(** ** Saving with a settled key *)

(** A passphrase file is named, or the keychain has an entry. *)
Definition key_settled (o : Os) : Prop :=
  is_Some (os_env o !! STATE_PASSPHRASE_FILE_ENV) ∨ is_Some (os_keychain o).

Lemma resolve_settled rg o : key_settled o → (run_io (resolve_state_key_source rg) o).1 = o.
Proof.
  intros Hk. unfold resolve_state_key_source. cbn [run_io].
  destruct (os_env o !! _) as [f|] eqn:Hf.
  - rewrite run_io_try, run_passphrase. by destruct (run_io resolve_passphrase_from_file o).2.
  - destruct Hk as [[? ?]|[pw Hpw]]; [congruence|]. rewrite run_io_try.
    unfold resolve_keychain_key. cbn [run_io]. unfold password_result. rewrite Hpw.
    cbn [ok_or run_io fst snd]. by destruct (map_err _ (b64_decode pw)).
Qed.

Lemma encrypt_settled rg s o : key_settled o → (run_io (encrypt_state_file rg s) o).1 = o.
Proof.
  intros Hk. unfold encrypt_state_file. rewrite run_io_try. cbn [run_io fst snd].
  destruct (map_err _ (state_to_json s)); [|done]. rewrite run_io_try. cbn [run_io fst snd].
  destruct (expect (rg_nonce rg)); [|done]. rewrite run_io_try, (resolve_settled rg o Hk).
  by destruct (run_io (resolve_state_key_source rg) o).2.
Qed.

(** A save writes the state file and reports success, or does nothing. *)
Lemma save_settled rg s o :
  key_settled o →
  (∃ path b, (run_io state_path o).2 = Ok path ∧ run_io (save_state rg s) o = (put_file path b o, Ok tt)) ∨
  ∃ e, run_io (save_state rg s) o = (o, Err e).
Proof.
  intros Hk. unfold save_state. rewrite run_io_try, run_state_path.
  destruct (run_io state_path o).2 as [path|e]; [|right; by exists e].
  rewrite run_io_try.
  assert (run_io (match path_parent path with
                  | Some parent => sys (λ e, Failed (ClIo e)) (CreateDirAll parent)
                  | None => Ret (Ok tt)
                  end) o = (o, Ok tt)) as -> by (by destruct (path_parent path)).
  cbn [fst snd]. rewrite run_io_try, (encrypt_settled rg s o Hk).
  destruct (run_io (encrypt_state_file rg s) o).2 as [b|e]; [|right; by exists e].
  left. exists path, (as_bytes b). done.
Qed.

(** ** One process *)

(** The state file holds [s], and reading it changes nothing. *)
Definition on_disk (o : Os) (s : LocalState) : Prop := ∀ rg, run_io (load_state rg) o = (o, Ok s).

(** The system as a session needs it. *)
Record ready (o : Os) (s : LocalState) : Prop := {
  rd_key : key_settled o;
  rd_apart : passphrase_apart o;
  rd_state : on_disk o s;
}.

(** What a command does to a state in memory. *)
Definition command_outcome (w : World) (c : Commands) (s : LocalState) : Outcome :=
  (run_io (run_command w c s) (mkOs ∅ ∅ None)).2.

Lemma run_command_outcome w c s o :
  uses_file c = false → run_io (run_command w c s) o = (o, command_outcome w c s).
Proof.
  intros Hc. destruct (run_command_gives w c s Hc) as (a & _ & Ha).
  unfold command_outcome. by rewrite !Ha.
Qed.

(** Writing the state file keeps the system ready for the written state. *)
Lemma ready_saved `{!StateJsonLaws, !AeadLaws, !Base64Laws} rg o s s' path b :
  ready o s → (run_io state_path o).2 = Ok path →
  run_io (save_state rg s') o = (put_file path b o, Ok tt) → ready (put_file path b o) s'.
Proof.
  intros [Hk Ha _] Hp Hs. split.
  - exact Hk.
  - intros f Hf. rewrite (state_path_env o) by done. by apply Ha.
  - intros rg'. by apply (saved_state_loads rg rg' s' o).
Qed.

(** One process: it saves what its command made of the stored state and
    reports success, or it changes nothing. *)
Lemma run_cli_step `{!StateJsonLaws, !AeadLaws, !Base64Laws} w c o s :
  ready o s → uses_file c = false →
  let '(o', (lines, r)) := run_io (run_cli w c) o in
  lines = (command_outcome w c s).1 ∧
  match r with
  | Ok _ => ∃ s', (command_outcome w c s).2 = Ok s' ∧ ready o' s'
  | Err _ => o' = o
  end.
Proof.
  intros Hr Hc. unfold run_cli. rewrite run_io_bind, (rd_state _ _ Hr).
  rewrite run_io_bind, (run_command_outcome w c s o Hc).
  destruct (command_outcome w c s) as [lines [s'|e]]; cbn [fst snd]; [|done].
  rewrite run_io_bind.
  destruct (save_settled (wd_save w) s' o (rd_key _ _ Hr)) as [(path & b & Hp & Hs)|[e Hs]];
    rewrite Hs; cbn [run_io]; [|done].
  split; [done|]. exists s'. split; [done|]. by eapply ready_saved.
Qed.

(** ** Sessions *)

(** One process after the other, with what they report. *)
Fixpoint session (ps : list (World * Commands)) (o : Os) : Os * list (result Stop unit) :=
  match ps with
  | [] => (o, [])
  | p :: ps' =>
      let '(o1, (_, r)) := run_io (run_cli p.1 p.2) o in
      let '(o2, rs) := session ps' o1 in
      (o2, r :: rs)
  end.

(** The same commands on a state in memory: those that reported success take
    effect, the others do not. *)
Inductive follows : LocalState → list (World * Commands * result Stop unit) → LocalState → Prop :=
| follows_nil s : follows s [] s
| follows_ok w c s s' l s'' :
    (command_outcome w c s).2 = Ok s' → follows s' l s'' → follows s ((w, c, Ok tt) :: l) s''
| follows_err w c s e l s'' : follows s l s'' → follows s ((w, c, Err e) :: l) s''.

(** C7: on a system whose calls do not fail, a series of processes on one state file
    does what the commands do on a state in memory: at the end the file holds the
    state reached by the commands that reported success, in their order, and those
    that reported an error, from the command or from sealing the state, had no effect.
    The key of the state file is settled before the first process and its passphrase is
    in another file; the commands are those that touch no file of their own (not the
    export and import of logs, the verification of a log from a file, and the export of
    abuse records).  Writes that fail half-way are the subject of
    [interrupted_save_loses_state]. *)
Theorem session_refines `{!StateJsonLaws, !AeadLaws, !Base64Laws} ps o s :
  ready o s → Forall (λ p, uses_file p.2 = false) ps →
  ∃ s', follows s (zip ps (session ps o).2) s' ∧ ready (session ps o).1 s'.
Proof.
  intros Hr Hps. revert o s Hr. induction Hps as [|[w c] ps Hc _ IH]; intros o s Hr; cbn [session fst snd].
  { exists s. split; [constructor|done]. }
  pose proof (run_cli_step w c o s Hr Hc) as Hstep.
  destruct (run_io (run_cli w c) o) as [o1 [lines [[]|e]]]; destruct Hstep as [_ Hstep].
  - destruct Hstep as (s1 & Hs1 & Hr1). destruct (IH o1 s1 Hr1) as (s' & Hf & Hr').
    destruct (session ps o1) as [o2 rs]. exists s'. split; [|done]. by eapply follows_ok.
  - subst o1. destruct (IH o s Hr) as (s' & Hf & Hr'). destruct (session ps o) as [o2 rs].
    exists s'. split; [|done]. by apply follows_err.
Qed.

(** ** Sequence numbers *)

Lemma build_envelope_seq identity t epoch seq ct env :
  build_envelope identity t epoch seq ct = Ok env → env_seq env = seq.
Proof.
  unfold build_envelope. intros He.
  repeat match type of He with
  | (match ?x with Ok _ => _ | Err _ => _ end) = Ok _ => destruct x; [|done]
  end.
  by injection He as <-.
Qed.

Lemma send_seq s tid text nonce now now' s' d :
  send_thread_message_for_state s tid text nonce now now' = Some (s', Ok d) →
  ∃ t, ls_threads s !! tid = Some t ∧ env_seq (td_envelope d) = th_next_seq t.
Proof.
  unfold send_thread_message_for_state, publish_thread_message_transport.
  destruct (clone_identity_from_state s) as [identity|]; [|done].
  destruct (ls_threads s !! tid) as [t|] eqn:Ht; [|done].
  destruct (encrypt_and_chunk_message _ _ _ _) as [[t1 [[[env m] chunks]|e]]|] eqn:He;
    cbn [mbind option_bind]; try done.
  destruct (inbox_keys_for_thread _ _) as [keys|]; [|done].
  destruct (stage_transport_delivery_for_members _ _ _ _ _) as [s4 [|]]; [|done].
  intros Hs. exists t. split; [done|].
  apply encrypt_and_chunk_inv in He as (group & payload & chunks' & _ & _ & _ & Hseal & _ & _).
  cbn [fst] in Hseal. injection Hs as _ <-. cbn [td_envelope].
  unfold seal_message in Hseal.
  destruct (client_hex (th_thread_id_hex t1)); [|done]. destruct (client_core (to_fixed 32 _)); [|done].
  destruct (client_hex (th_cfg_hash_hex t1)); [|done]. destruct (client_core (to_fixed 32 _)); [|done].
  destruct (client_hex (id_user_id_hex identity)); [|done].
  destruct (encrypt_payload_with_aead _ _ _ _); [|done].
  destruct (build_envelope _ _ _ _ _) as [e|] eqn:Hb; [|done].
  destruct (client_core (ctap2_bytes_of e)); [|done].
  assert (e = env) as -> by congruence. by eapply build_envelope_seq.
Qed.

(** A message that reached one recipient over the bridge and failed at the
    next is forgotten: the process reports the error and changes nothing, so
    the next message of the thread carries the same sequence number as the one
    that was delivered. *)
Theorem failed_publish_repeats_sequence `{!StateJsonLaws, !AeadLaws, !Base64Laws}
    w url ttl flags thread text o s me s1 d key rest e text2 nonce2 now2 now2' s2 d2 :
  ready o s → ls_identity s = Some me →
  send_thread_message_for_state s thread text (wd_nonce w) (wd_now w 0) (wd_now w 1) = Some (s1, Ok d) →
  td_recipient_inbox_keys d = key :: rest →
  publish_via_bridge (wd_os_rng w 0) (wd_now w 2) me key (td_envelope d) (wd_put w url 0) ttl = Ok tt →
  publish_all w url me (td_envelope d) ttl 1 rest = Err e →
  send_thread_message_for_state s thread text2 nonce2 now2 now2' = Some (s2, Ok d2) →
  run_io (run_cli w (CmdMsg (MsgSend thread text (Some url) ttl flags))) o = (o, ([], Err (Failed e))) ∧
  on_disk o s ∧ env_seq (td_envelope d2) = env_seq (td_envelope d).
Proof.
  intros Hr Hme Hsend Hkeys Hfirst Hrest Hsend2. split; [|split; [apply Hr|]].
  - unfold run_cli. rewrite run_io_bind, (rd_state _ _ Hr), run_io_bind. cbn [run_command run_msg].
    rewrite Hme, Hsend, Hkeys. cbn [publish_all Nat.add]. rewrite Hfirst, Hrest. done.
  - apply send_seq in Hsend as (t & Ht & ->), Hsend2 as (t2 & Ht2 & ->). congruence.
Qed.

(** Messages published over the bridge for an inbox key are not found by
    polling that key over the bridge: they are stored under its hash, and the
    poll asks for the key itself. *)
Theorem bridge_poll_reads_other_inbox rng now me key env ttl published req w url inboxes s :
  bridge_call rng now me key env ttl = Ok (published, req) →
  (∀ k, k ≠ published → inboxes k = []) →
  wd_scan w url = (λ k, Ok (mkInboxScanResponse (inboxes k) SourceBridge)) →
  sha256 key ≠ key → transport_inbox_has_items s key = false → ls_p2p_inbox s !! member_key key = None →
  poll_local w (Some url) key s = (["inbox: 0 items (source: Bridge)"%string], Ok s).
Proof.
  unfold bridge_call. intros Hcall Hin Hscan Hne Hcache Hp2p.
  destruct (client_core _) as [payload|]; [|done]. destruct (client_hex _) as [sender|]; [|done].
  destruct (signing_key_from_hex _) as [sk|]; [|done]. destruct (client_transport _) as [r|]; [|done].
  assert (published = sha256 key) as -> by (cbn in Hcall; congruence).
  unfold poll_local. rewrite Hcache. unfold receive_inbox_messages, resolve_inbox_from_state.
  rewrite Hp2p. cbn [fmap option_fmap option_map]. rewrite Hscan. unfold client_transport. cbn [map_err].
  by rewrite Hin.
Qed.

(** Importing a log replaces the log of the state by the imported one,
    whatever the local log was and however the two compare. *)
Theorem import_replaces_log `{!CiboriumLaws, !LogSerdeLaws, !Base64Laws} w path o s b text log enc :
  os_files o !! path_from path = Some b → from_utf8 b = Some text → import_base64 (trim text) = Ok log →
  log_ok log → entries_ok (entries log) → decodable (log_ser (entries log)) = true →
  export_base64 log = Ok enc → enc ≠ ""%string →
  ∃ lines s' log', run_io (run_command w (CmdLog (LogImport path)) s) o = (o, (lines, Ok s')) ∧
    load_checkpoint_log s' = Ok log' ∧ entries log' = entries log.
Proof.
  intros Hf Hu Hi Hok Hes Hdec Hexp Hne.
  destruct (import_export_ok _ _ Hok Hes Hdec Hexp) as (log' & Himp & Hent & _).
  eexists _, (set_checkpoint_log enc s), log'. split; [|split; [|done]].
  - cbn [run_command run_log]. unfold finish_io. rewrite run_io_bind, run_io_try.
    unfold read_log. cbn [run_io]. unfold read_result, read_to_string. rewrite Hf. cbn [ok_or].
    rewrite Hu. cbn [ok_or map_err]. rewrite Hi. cbn [client_log map_err lift fst snd].
    rewrite run_io_try. unfold save_checkpoint_log. cbn [run_io]. rewrite Hexp. done.
  - unfold load_checkpoint_log. cbn [ls_checkpoint_log set_checkpoint_log]. rewrite decide_False by done.
    by rewrite Himp.
Qed.

End cli_facts.

(** ** Samples and witnesses *)

Module CliSamples.
Export Reference ClientSamples DerivedSerde.
Export VaultSamples.

#[export] Existing Instance PeerSamples.named_peers.
#[export] Existing Instance PeerSamples.recording_swarm.
#[export] Existing Instance PeerSamples.four_snapshots.

#[export] Instance no_records : RecordJson := λ _, Ok "{}"%string.

(** A network that is not used: manifests are all written the same. *)
#[export] Instance silent_network : Network := {|
  kad := unit; kad_put_record k _ _ _ := k; kad_start_providing k _ := k;
  kad_get_closest_peers k _ := k; kad_get_record k _ := (k, 0);
  gossip := unit; gossip_publish g _ _ := Ok g;
  manifest_to_json m := Ok [x4d]; manifest_from_json b := Err "eof"%string;
|}.

Definition no_network : P2pWorld := {|
  pw_clock := PeerSamples.sample_clock; pw_swarm := Err (Libp2p "no swarm"); pw_kad := tt;
  pw_topics _ := mkTopicRun (Ok tt) 0 []; pw_subscribed := Ok tt; pw_resubscriptions := 0;
  pw_messages := []; pw_elapsed := 0; pw_addr_error s := s;
|}.

(** A process with a bridge of which only the first publication succeeds, and
    that serves [inboxes]. *)
Definition world (inboxes : bytes → list bytes) : World := {|
  wd_load := sample_rng; wd_save := sample_rng; wd_now i := 600 + Z.of_nat i;
  wd_seed := replicate 32 x05; wd_user_id := replicate 32 x06; wd_device_id := [x01];
  wd_device_nonce := [x02]; wd_os_rng _ := client_rng; wd_thread_id := replicate 32 x31;
  wd_initial_secret := replicate 32 x41; wd_nonce := replicate 12 x0c;
  wd_recovery_key := replicate 32 x09;
  wd_put _ i _ _ := match i with O => Ok tt | _ => Err (InvalidPayload "rate limited") end;
  wd_scan _ k := Ok (mkInboxScanResponse (inboxes k) SourceBridge);
  wd_database _ := Err "no database"%string; wd_p2p := no_network;
|}.

Definition no_flags : P2pFlags := mkP2pFlags false [] [] [] 2.

(** Two processes on the state of [VaultSamples]: one that succeeds and one
    that lacks an identity. *)
Definition two_processes : list (World * Commands) :=
  [(world (λ _, []), CmdInbox (InboxPoll None None no_flags));
   (world (λ _, []), CmdCard CardCreate)].

Lemma sample_ready `{SJ : !StateJson} st :
  SJ = one_state st → ready (with_state [x32]) st.
Proof.
  intros ->. split.
  - right. by eexists.
  - intros f Hf. done.
  - intros rg. by vm_compute.
Qed.

(** Alice in a thread with Bob and Carol. *)
Definition carol_id : string := hex_encode (replicate 32 xef).
Definition group_thread : ThreadState := Eval vm_compute in
  match create_thread_state alice [id_user_id_hex bob; carol_id] (replicate 32 x31) (replicate 32 x41) 500 with
  | Some (Ok t) => t
  | _ => mkThreadState "" [] 0 [] 0 0 0 0 "" 0 "" 0 0
  end.
Definition group_id : string := hex_encode (replicate 32 x31).
Definition alice_state : LocalState :=
  put_thread group_id group_thread (set_identity (Some alice) local_state_default).

Definition sent (text : string) : LocalState * ThreadMessageDispatch :=
  match send_thread_message_for_state alice_state group_id text (replicate 12 x0c) 600 601 with
  | Some (s, Ok d) => (s, d)
  | _ => (local_state_default, mkThreadMessageDispatch "" "" sample_envelope (mkChunkManifest [] 0) [] 0 [])
  end.
Definition sent_first : LocalState * ThreadMessageDispatch := Eval vm_compute in sent "hello".
Definition sent_second : LocalState * ThreadMessageDispatch := Eval vm_compute in sent "again".

(** The exported text of a log, and the log an import makes of it. *)
Definition log_text : string := Eval vm_compute in
  match export_base64 sample_log with Ok t => t | Err _ => ""%string end.
Definition imported_log : CheckpointLog := Eval vm_compute in
  match import_base64 log_text with Ok l => l | Err _ => log_new end.

(** What is sent to the bridge for Bob. *)
Definition call_of (r : result ClientError (bytes * BridgePublishRequest)) : bytes * BridgePublishRequest :=
  match r with
  | Ok call => call
  | Err _ => ([], {| bpr_data := ""; bpr_grant := mkP2pGrantPayload "" 0 None None "" "";
                     bpr_puzzle := mkP2pPuzzlePayload "" "" "" None; bpr_ttl_seconds := None |})
  end.
Definition bob_call : bytes * BridgePublishRequest := Eval vm_compute in
  call_of (bridge_call client_rng 600 alice (replicate 32 xcd) (td_envelope sent_first.2) None).

End CliSamples.
Import CliSamples.

Ltac vm_eq := match goal with |- _ = ?r => vm_cast_no_check (@eq_refl _ r) end.

Lemma session_refines_witness :
  ∃ s', follows sample_state (zip two_processes (session two_processes (with_state [x32])).2) s' ∧
        ready (session two_processes (with_state [x32])).1 s'.
Proof.
  apply (session_refines two_processes (with_state [x32]) sample_state).
  - by apply sample_ready.
  - by repeat constructor.
Defined.

Lemma failed_publish_repeats_sequence_witness :
  env_seq (td_envelope sent_second.2) = env_seq (td_envelope sent_first.2).
Proof.
  pose (J := one_state alice_state). pose proof (one_state_laws alice_state : StateJsonLaws (SJ := J)).
  assert (ready (STJ := J) (with_state [x32]) alice_state) as Hr by (by apply sample_ready).
  apply (failed_publish_repeats_sequence (STJ := J) (world (λ _, [])) "http://bridge" None no_flags group_id "hello"
    (with_state [x32]) alice_state alice sent_first.1 sent_first.2 (replicate 32 xcd) [replicate 32 xef]
    (ClTransport (transport_error_to_string (InvalidPayload "rate limited"))) "again" (replicate 12 x0c) 600 601
    sent_second.1 sent_second.2 Hr); [vm_eq..].
Defined.

(** What Bob is sent over the bridge is stored under the hash of his key. *)
Lemma bridge_poll_reads_other_inbox_witness :
  let k := replicate 32 xcd in
  poll_local (world (λ key, if decide (key = sha256 k) then [[x01]] else [])) (Some "http://bridge"%string)
    k local_state_default = (["inbox: 0 items (source: Bridge)"%string], Ok local_state_default).
Proof.
  apply (bridge_poll_reads_other_inbox client_rng 600 alice (replicate 32 xcd) (td_envelope sent_first.2)
    None bob_call.1 bob_call.2 _ _ (λ key, if decide (key = sha256 (replicate 32 xcd)) then [[x01]] else []));
    [vm_eq|intros key Hk; apply decide_False; intros ->; apply Hk; vm_eq|reflexivity| |vm_eq..].
  apply (bool_decide_eq_true_1 _). vm_eq.
Defined.

(** A fresh client takes over the imported log. *)
Lemma import_replaces_log_witness :
  ∃ lines s' log',
    run_io (run_command (world (λ _, [])) (CmdLog (LogImport "/tmp/log")) local_state_default)
      (put_file ["/"; "tmp"; "log"]%string (as_bytes log_text) empty_os)
    = (put_file ["/"; "tmp"; "log"]%string (as_bytes log_text) empty_os, (lines, Ok s')) ∧
    load_checkpoint_log s' = Ok log' ∧ entries log' = entries imported_log.
Proof.
  apply (import_replaces_log (world (λ _, [])) "/tmp/log"
    (put_file ["/"; "tmp"; "log"]%string (as_bytes log_text) empty_os) local_state_default
    (as_bytes log_text) log_text imported_log log_text).
  - vm_compute. reflexivity.
  - vm_compute. reflexivity.
  - vm_compute. reflexivity.
  - intros _. vm_compute. reflexivity.
  - split; [|reflexivity]. repeat constructor; vm_compute; congruence.
  - vm_compute. reflexivity.
  - vm_compute. reflexivity.
  - discriminate.
Defined.
