(* ===== verification/Delivery.v ===== *)
(** * Delivery over the bridge

    The client of [Cli] and [Ingest] against the server of [Bridge]: the routes
    of the server (spex-bridge/src/lib.rs, [app]), the client's publication
    (spex-transport/src/inbox.rs, [publish_to_inbox]) as the answer of the routed
    handler, and the theorem that joins both sides: what a client publishes is
    what every later scan of that inbox brings back, whatever other requests the
    server handles in between.

    axum's part is the splitting and decoding of the path, the extractors and the
    method; they are the fields of [HttpRequest].  The JSON of the two sides has
    the same fields ([wire_request]). *)
From Stdlib Require Import ZArith Lia Ascii Strings.Byte.
From stdpp Require Import base list gmap strings sorting numbers relations.
From S2P Require Import Prelude External Cbor CborFacts Types Core Log Transport Files Ingest Metrics.
From S2P Require Import Bridge BridgeFacts Mls MlsFacts Client ClientFacts Threads ThreadsFacts Cli.

#[local] Open Scope Z_scope.

(** ** Routes *)

Inductive Method : Type := MGet | MHead | MPut | MOther.

Record HttpRequest := mkHttpRequest {
  hr_method : Method;
  (** the decoded segments of the path *)
  hr_path : list string;
  (** what the extractors make of the body and the query, or the status code
      they refuse it with *)
  hr_storage : result Z StorageRequest;
  hr_inbox_store : result Z InboxStoreRequest;
  hr_query : result Z InboxQuery;
  hr_client_addr : option IpAddr;
}.

(** A request that reaches a handler, or axum's own answer. *)
Inductive Routed : Type :=
| Handle (p : prog Response)
| RejectedInput (status : Z)
| MethodNotAllowed
| NoRoute.

Definition extracted {A} (r : result Z A) (f : A → prog Response) : Routed :=
  match r with Ok a => Handle (f a) | Err status => RejectedInput status end.

(** The methods of one route: [put(...).get(...)]; GET also answers HEAD. *)
Definition method_routes (m : Method) (put get : Routed) : Routed :=
  match m with
  | MPut => put
  | MGet | MHead => get
  | MOther => MethodNotAllowed
  end.

(** A path parameter matches one segment that is not empty. *)
Definition param (segment : string) (r : Routed) : Routed :=
  if decide (segment = "") then NoRoute else r.

Section delivery.
Context `{SH : Sha256} `{ED : Ed25519} `{AR : Argon2} `{B6 : Base64} `{HX : Hex}.

Definition app (limits : RateLimitConfig) (now now_blocking : Z) (r : HttpRequest) : Routed :=
  match hr_path r with
  | ["cards"; card_hash] =>
      param card_hash (method_routes (hr_method r)
        (extracted (hr_storage r)
           (put_card limits now now_blocking (hr_client_addr r) card_hash))
        (Handle (get_card card_hash)))
  | ["slot"; slot_id] =>
      param slot_id (method_routes (hr_method r)
        (extracted (hr_storage r)
           (put_slot limits now now_blocking (hr_client_addr r) slot_id))
        (Handle (get_slot slot_id)))
  | ["inbox"; key] =>
      param key (method_routes (hr_method r)
        (extracted (hr_inbox_store r)
           (put_inbox limits now now_blocking (hr_client_addr r) key))
        (extracted (hr_query r) (get_inbox limits now key)))
  | _ => NoRoute
  end%string.

(** The status code and the error text of an answer. *)
Definition http_answer (r : result BridgeError Response) : Z * string :=
  match r with
  | Ok NoContent => (204, "")
  | Ok _ => (200, "")
  | Err e => into_response e
  end%string.

(** axum's own answers have no JSON body with an error. *)
Definition serve (routed : Routed) (db : Db) : Db * (Z * string) :=
  match routed with
  | Handle p => let '(db', r) := run p [] db in (db', http_answer r)
  | RejectedInput status => (db, (status, ""))
  | MethodNotAllowed => (db, (405, ""))
  | NoRoute => (db, (404, ""))
  end%string.

(** ** Publishing *)

Definition wire_request (r : BridgePublishRequest) : InboxStoreRequest :=
  mkInboxStoreRequest (bpr_data r) (bpr_grant r) (bpr_puzzle r) (bpr_ttl_seconds r).

(** [publish_to_inbox] against a server with the tables [db]. *)
Definition publish_to_inbox (limits : RateLimitConfig) (now now_blocking : Z)
    (addr : option IpAddr) (db : Db) (inbox_scan_key : bytes) (request : BridgePublishRequest)
    : Db * result TransportError unit :=
  let encoded_key := hex_encode inbox_scan_key in
  let '(db', (status, body)) :=
    serve (app limits now now_blocking
             (mkHttpRequest MPut ["inbox"%string; encoded_key] (Err 415) (Ok (wire_request request))
                (Ok (mkInboxQuery None None None)) addr)) db in
  (db', publish_to_inbox_result status body).

(** [scan_inbox] against a server with the tables [db]; a page holds at least one
    row, so that one page more than there are rows is enough. *)
Definition scan_inbox (limits : RateLimitConfig) (now : Z) (db : Db) (inbox_scan_key : bytes)
    : option (result TransportError InboxScanResponse) :=
  let encoded_key := hex_encode inbox_scan_key in
  scan_inbox_loop (bridge_http limits now encoded_key db) (S (length (inbox_items db))) None [].

(** ** What handlers leave of an inbox *)

(** Rows are only appended, keys only added. *)
Definition grows (db0 db : Db) : Prop :=
  (∃ more, inbox_items db = inbox_items db0 ++ more) ∧ inbox_keys db0 ⊆ inbox_keys db.

Lemma grows_refl db : grows db db.
Proof. split; [exists []; by rewrite app_nil_r|done]. Qed.

Lemma grows_same db0 db db' :
  inbox_items db' = inbox_items db → inbox_keys db' = inbox_keys db → grows db0 db → grows db0 db'.
Proof. unfold grows. by intros -> ->. Qed.

Lemma grows_item db0 db key item t : grows db0 db → grows db0 (insert_inbox_item key item t db).1.
Proof.
  intros [[more Hm] Hk]. split; [|done]. cbn. rewrite Hm, <-(assoc_L (++)). by eexists.
Qed.

Lemma grows_key db0 db key : grows db0 db → grows db0 (insert_inbox_key key db).1.
Proof. intros [Hm Hk]. split; [done|]. cbn. by apply union_subseteq_r'. Qed.

(** A statement that does not touch the inbox. *)
Lemma sql_grows {R} db0 (op : Db → Db * R) :
  (∀ db, inbox_items (op db).1 = inbox_items db ∧ inbox_keys (op db).1 = inbox_keys db) →
  prog_ok (grows db0) (λ _, True) (sql op).
Proof.
  intros Hop. apply prog_ok_sql. intros db Hdb. split; [|done]. destruct (Hop db).
  by eapply grows_same.
Qed.

Lemma bind_grows {A B} db0 (p : prog A) (f : A → prog B) :
  prog_ok (grows db0) (λ _, True) p → (∀ a, prog_ok (grows db0) (λ _, True) (f a)) →
  prog_ok (grows db0) (λ _, True) (pbind p f).
Proof. intros Hp Hf. eapply prog_ok_bind; [exact Hp|auto]. Qed.

Lemma snapshot_grows db0 identity now limits :
  prog_ok (grows db0) (λ _, True) (load_rate_limit_snapshot identity now limits).
Proof. repeat (apply bind_grows; [by apply sql_grows|intros]). done. Qed.

Lemma finish_grows db0 now identity ip slot n kind outcome r :
  prog_ok (grows db0) (λ _, True) (finish_request now identity ip slot n kind outcome r).
Proof.
  apply bind_grows; [by apply sql_grows|intros _].
  apply bind_grows; [|intros _; apply done_ok].
  apply bind_grows; [by apply sql_grows|intros]. by apply sql_grows.
Qed.

Lemma store_entry_grows db0 table key data :
  prog_ok (grows db0) (λ _, True) (store_entry table key data).
Proof. apply sql_grows. by destruct table. Qed.

Lemma store_item_grows db0 key item t :
  prog_ok (grows db0) (λ _, True) (store_inbox_item key item t).
Proof.
  apply bind_grows; [|intros _]; apply prog_ok_sql; intros db Hdb; split; try done;
    [by apply grows_key|by apply grows_item].
Qed.

#[local] Hint Resolve done_ok snapshot_grows finish_grows store_entry_grows store_item_grows
  bind_grows : core.

(** Follows a handler through its checks. *)
Ltac walk :=
  repeat first
    [ progress cbv zeta
    | apply bind_grows; [by auto|intros]
    | by auto
    | match goal with
      | |- prog_ok _ _ (match ?x with _ => _ end) => destruct x as [[]|]
      | |- prog_ok _ _ (match ?x with _ => _ end) => destruct x
      end ].

Lemma handled_grows limits db0 p : handled limits p → prog_ok (grows db0) (λ _, True) p.
Proof.
  destruct 1.
  - unfold put_card. walk.
  - apply bind_grows; [by apply sql_grows|]. by intros [].
  - unfold put_slot. walk.
  - apply bind_grows; [by apply sql_grows|]. by intros [].
  - unfold put_inbox. walk.
  - apply bind_grows; [|by intros []]. apply bind_grows; [by apply sql_grows|intros [k|]; [|done]].
    apply bind_grows; [by apply sql_grows|]. intros rows.
    by destruct (page_rows _ _ _ _ _ _) as [[items last] more].
Qed.

(** ** A built request at the bridge *)

Section admission.
Context `{!Ed25519Laws} `{!Argon2Laws} `{!Base64Laws}.

Lemma b_decode_encode b : b_decode_base64 (b64_encode b) = Ok b.
Proof. unfold b_decode_base64. by rewrite b64_decode_encode. Qed.

Lemma b_decode_fixed_encode n b : length b = n → b_decode_fixed_bytes n (b64_encode b) = Ok b.
Proof. intros Hl. unfold b_decode_fixed_bytes. rewrite b_decode_encode. by rewrite decide_True. Qed.

Lemma built_grant_admitted rng sk input req nb :
  length sk = 32%nat → value_ok (to_cbor_value (publish_grant input)) = true →
  build_bridge_publish_request rng sk input = Ok req →
  nb < saturating_add 64 (bi_now_unix input) (bi_grant_ttl_seconds input) →
  validate_grant nb (bpr_grant req) = Ok tt ∧
  identity_from_grant (bpr_grant req) = Ok (hex_encode (bi_sender_user_id input)).
Proof.
  intros Hsk Hok Hb Hnb. destruct (build_request_inv _ _ _ _ Hok Hb) as (out & _ & _ & -> & _).
  unfold validate_grant, identity_from_grant, b_decode_verifying_key, b_decode_signature.
  cbn [pg_user_id pg_verifying_key pg_signature pg_role pg_flags pg_expires_at].
  rewrite b_decode_encode. split; [|done].
  rewrite b_decode_fixed_encode by (by apply ed_verifying_key_length). rewrite ed_key_valid by done.
  cbn [map_err]. rewrite b_decode_fixed_encode by (by apply ed_sign_length).
  change (mkGrantToken (bi_sender_user_id input) (bi_role input) (bi_flags input)
    (grant_expires_at (publish_grant input)) []) with (publish_grant input).
  rewrite validate_grant_token_eq by done. unfold grant_live, publish_grant at 1.
  cbn [grant_expires_at]. replace (nb <? _) with true by lia. cbn. by rewrite ed_sign_verifies.
Qed.

Lemma built_ttl rng sk input req :
  build_bridge_publish_request rng sk input = Ok req → bpr_ttl_seconds req = bi_inbox_ttl_seconds input.
Proof.
  unfold build_bridge_publish_request. destruct (hash_ctap2_cbor_value _ _); [|done]. cbn [map_err].
  destruct (generate_puzzle_output _ _ _); [|done]. cbn [map_err].
  destruct (validate_pow_puzzle _ _ _ _ _); [|done]. cbn [map_err]. by intros [= <-].
Qed.

Lemma built_puzzle_admitted rng sk input req :
  value_ok (to_cbor_value (publish_grant input)) = true →
  build_bridge_publish_request rng sk input = Ok req →
  validate_puzzle (bpr_puzzle req) (bi_pow_params input) = Ok tt.
Proof.
  intros Hok Hb. destruct (build_request_inv _ _ _ _ Hok Hb) as (out & Hv & _ & _ & Hr & Hi & Ho & Hp).
  unfold validate_puzzle. rewrite Hr, Hi, Ho, !b_decode_encode.
  destruct (pz_params (bpr_puzzle req)) as [pp|]; [|done]. injection Hp as Hp.
  apply validate_pow_puzzle_iff in Hv as (_ & _ & _ & _ & Hm & Hg). rewrite Hp.
  rewrite (proj2 (validate_pow_puzzle_iff _ _ _ _ _)); [done|]. split_and!; done || lia.
Qed.

(** The tables after an accepted item. *)
Definition item_stored (db : Db) (now : Z) (identity ip key : string) (data : bytes)
    (expires_at : Z) : Db :=
  logged (insert_inbox_item key data (wrap_i 64 expires_at) (insert_inbox_key key db).1).1
    now identity ip None (zlen data) KInbox Accepted.

Lemma run_put_inbox limits now nb addr key payload db data identity expires_at :
  b_decode_base64 (isr_data payload) = Ok data →
  identity_from_grant (isr_grant payload) = Ok identity →
  zlen data <= MAX_INBOX_ITEM_BYTES →
  enforce_rate_limits (snapshot_of db identity now limits) limits (zlen data) = Ok tt →
  validate_grant nb (isr_grant payload) = Ok tt →
  validate_puzzle (isr_puzzle payload)
    (required_pow_params (snapshot_of db identity now limits) limits) = Ok tt →
  compute_inbox_expiration now (isr_ttl_seconds payload) = Ok expires_at →
  run (put_inbox limits now nb addr key payload) [] db
  = (item_stored db now identity (extract_ip addr) key data expires_at, Ok NoContent).
Proof.
  intros Hd Hi Hs He Hg Hz Hx. unfold put_inbox. rewrite run_bind, Hd. cbn [run].
  rewrite run_bind, Hi. cbn [run]. rewrite run_bind, run_snapshot. cbv zeta.
  unfold validate_inbox_item_size. replace (MAX_INBOX_ITEM_BYTES <? zlen data) with false by lia.
  rewrite He. unfold validate_grant_and_puzzle. rewrite Hg, Hz, Hx.
  rewrite run_bind. unfold store_inbox_item. rewrite run_bind. cbn [run sql map_err].
  apply run_finish.
Qed.

End admission.

End delivery.

(** ** Claims *)

Section claims.
Context `{SH : Sha256} `{ED : Ed25519} `{AR : Argon2} `{B6 : Base64} `{HX : Hex} `{CB : Ciborium}.
Context `{AE : Aead} `{NW : Network}.
Context `{!Ed25519Laws} `{!Argon2Laws} `{!Base64Laws} `{!CiboriumLaws} `{!AeadLaws} `{!HexLaws}.

(** What [publish_via_bridge] fills in for an envelope. *)
Definition message_input (uid seed payload : bytes) (now : Z) (ttl : option Z)
    : BridgeEnvelopePublishInput :=
  mkBridgeEnvelopePublishInput uid seed payload 1 None now 300 ttl pow_default.

Lemma bridge_call_inv rng now me seed env ttl key req :
  bridge_call rng now me seed env ttl = Ok (key, req) →
  ∃ payload uid sk,
    ctap2_bytes_of env = Ok payload ∧ hex_decode (id_user_id_hex me) = Ok uid ∧
    length sk = 32%nat ∧ key = sha256 seed ∧
    build_bridge_publish_request rng sk (message_input uid seed payload now ttl) = Ok req.
Proof.
  unfold bridge_call, client_core, client_hex, signing_key_from_hex, client_transport, message_input.
  destruct (ctap2_bytes_of env) as [payload|]; [|done]. cbn [map_err].
  destruct (hex_decode (id_user_id_hex me)) as [uid|]; [|done]. cbn [map_err].
  destruct (client_hex _) as [kb|]; [|done]. unfold try_into_fixed.
  destruct (decide (length kb = 32%nat)); [|done].
  destruct (build_bridge_publish_request _ _ _) as [r|] eqn:Eb; [|done]. cbn [map_err].
  intros [= <- <-]. by exists payload, uid, kb.
Qed.

(** What a server with the tables [db] asks of a publication: the sender is
    within the limits and not loaded enough for more work than was done, the grant
    is not expired and its fields are within their widths, the item is small
    enough, the inbox has a name. *)
Record admissible (limits : RateLimitConfig) (db : Db) (now nb : Z) (key : bytes)
    (input : BridgeEnvelopePublishInput) (expires_at : Z) : Prop := {
  ad_inv : db_inv db;
  ad_pages : MAX_INBOX_ITEM_BYTES <= max_bytes limits < 2 ^ 64;
  ad_size : zlen (bi_envelope input) <= MAX_INBOX_ITEM_BYTES;
  ad_limits : enforce_rate_limits (snapshot_of db (hex_encode (bi_sender_user_id input)) now limits)
    limits (zlen (bi_envelope input)) = Ok tt;
  ad_work : required_pow_params (snapshot_of db (hex_encode (bi_sender_user_id input)) now limits)
    limits = bi_pow_params input;
  ad_grant : value_ok (to_cbor_value (publish_grant input)) = true;
  ad_fresh : nb < saturating_add 64 (bi_now_unix input) (bi_grant_ttl_seconds input);
  ad_expiry : compute_inbox_expiration now (bi_inbox_ttl_seconds input) = Ok expires_at;
  ad_range : 0 <= expires_at < 2 ^ 63;
  ad_key : hex_encode key ≠ ""%string;
}.

(** The tables after an admissible publication. *)
Definition with_item (db : Db) (now : Z) (addr : option IpAddr) (key : bytes)
    (input : BridgeEnvelopePublishInput) (expires_at : Z) : Db :=
  item_stored db now (hex_encode (bi_sender_user_id input)) (extract_ip addr) (hex_encode key)
    (bi_envelope input) expires_at.

Lemma admissible_stored rng sk input req limits db now nb addr key expires_at :
  length sk = 32%nat → build_bridge_publish_request rng sk input = Ok req →
  admissible limits db now nb key input expires_at →
  publish_to_inbox limits now nb addr db key req
  = (with_item db now addr key input expires_at, Ok tt).
Proof.
  intros Hsk Hb [Hdb Hmb Hs He Hw Hok Hnb Hx Hr Hk].
  destruct (built_grant_admitted _ _ _ _ nb Hsk Hok Hb Hnb) as [Hg Hi].
  pose proof (built_puzzle_admitted _ _ _ _ Hok Hb) as Hz.
  destruct (build_request_inv _ _ _ _ Hok Hb) as (out & _ & Hd & _).
  pose proof (built_ttl _ _ _ _ Hb) as Ht.
  unfold publish_to_inbox, app, param. cbn [hr_path hr_method method_routes hr_inbox_store extracted].
  rewrite decide_False by done. unfold serve.
  erewrite run_put_inbox; [done| | |done|done|done| |];
    cbn [wire_request isr_data isr_grant isr_puzzle isr_ttl_seconds].
  - by rewrite Hd, b_decode_encode.
  - done.
  - by rewrite Hw.
  - by rewrite Ht.
Qed.

(** A row, once stored, is in the tables after any further requests. *)
Lemma stored_row_stays limits db db2 ps r :
  rtc (step (handled limits)) (db, []) (db2, ps) →
  r ∈ inbox_items db → row_inbox_key r ∈ inbox_keys db →
  r ∈ inbox_items db2 ∧ row_inbox_key r ∈ inbox_keys db2.
Proof.
  intros Hr Hin Hk. apply (reachable_preserves (grows db)) in Hr;
    [|by apply handled_grows|by split; [apply grows_refl|constructor]].
  cbn [fst] in Hr. destruct Hr as [[more ->] Hsub]. split; [|by apply Hsub]. apply elem_of_app. by left.
Qed.

Lemma item_stored_inv db now identity ip key data t :
  db_inv db → zlen data <= MAX_INBOX_ITEM_BYTES → db_inv (item_stored db now identity ip key data t).
Proof.
  intros [H1' H2' H3' H4' H5'] Hd. split; cbn; [done|done| |by apply rows_ok_snoc|lia].
  intros i s. rewrite lookup_insert_Some. intros [[<- <-]|[_ Hl]]; [|by eapply H3'].
  destruct (identity_reputation db !! identity) as [score|] eqn:E; cbn; [|lia].
  pose proof (H3' _ _ E). lia.
Qed.

(** A scan of the client brings back the live rows of its inbox. *)
Lemma scan_inbox_live limits t db key :
  db_inv db → hex_encode key ∈ inbox_keys db → MAX_INBOX_ITEM_BYTES <= max_bytes limits < 2 ^ 64 →
  scan_inbox limits t db key = Some (Ok (mkInboxScanResponse
    (map row_item (live_rows db (hex_encode key) (wrap_i 64 t) 0)) SourceBridge)).
Proof.
  intros Hdb Hk Hmb. unfold scan_inbox. rewrite scan_loop_live; [done..|].
  pose proof (length_filter (λ r, row_live (hex_encode key) (wrap_i 64 t) r ∧ default 0 None < row_id r)
    (inbox_items db)). unfold live_rows. lia.
Qed.

(** An admissible item is in every later scan before it expires; what a scan
    brings are items of this inbox. *)
Lemma admitted_item_scanned limits db now nb addr key input expires_at db2 ps t :
  admissible limits db now nb key input expires_at →
  rtc (step (handled limits)) (with_item db now addr key input expires_at, []) (db2, ps) →
  0 <= t < expires_at →
  ∃ items,
    scan_inbox limits t db2 key = Some (Ok (mkInboxScanResponse items SourceBridge)) ∧
    bi_envelope input ∈ items ∧
    ∀ x, x ∈ items →
      ∃ r, r ∈ inbox_items db2 ∧ row_inbox_key r = hex_encode key ∧ x = row_item r.
Proof.
  intros [Hdb Hmb Hs _ _ _ _ _ Hx _] Hr Ht.
  set (r := mkInboxRow (inbox_last_id db + 1) (hex_encode key) (bi_envelope input) (Some expires_at)).
  destruct (stored_row_stays _ _ _ _ r Hr) as [Hin Hkey].
  { cbn. rewrite wrap_i_small by lia. apply elem_of_app. right. by left. }
  { cbn. apply elem_of_union_l. by apply elem_of_singleton. }
  apply (reachable_preserves db_inv) in Hr; [|apply handled_ok|].
  2:{ split; [by apply item_stored_inv|constructor]. }
  eexists. split; [by apply scan_inbox_live|]. split.
  - apply (list_elem_of_fmap_2 row_item _ r), list_elem_of_filter. split; [|done].
    rewrite wrap_i_small by lia. destruct (inv_rows _ Hr) as [_ Hrows].
    rewrite List.Forall_forall in Hrows. apply list_elem_of_In, Hrows in Hin. cbn in *.
    split; [split; cbn; [done|lia]|lia].
  - intros x (r' & -> & [[[Hk _] _] Hr']%list_elem_of_filter)%list_elem_of_fmap. by exists r'.
Qed.

(** ** Opening what a scan brings *)

Lemma open_payloads_Ok s payloads p it :
  (∀ x, x ∈ payloads → ∃ it, open_payload s x = Some (Ok it)) →
  p ∈ payloads → open_payload s p = Some (Ok it) →
  ∃ items, open_payloads s payloads = Some (Ok items) ∧ it ∈ items.
Proof.
  intros Hall Hp Hit. assert (∃ items, open_payloads s payloads = Some (Ok items)) as [items Hi].
  { clear Hp. induction payloads as [|x l IH]; cbn [open_payloads]; [by eexists|].
    destruct (Hall x) as [? ->]; [left|].
    destruct IH as [? ->]; [intros; apply Hall; by right|]. by eexists. }
  exists items. split; [done|]. clear Hall. revert items Hi.
  induction Hp as [x l|x y l Hp IH]; intros items; cbn [open_payloads].
  - rewrite Hit. cbn. destruct (open_payloads s _) as [[]|]; intros [= <-]. left.
  - destruct (open_payload s y) as [[]|]; [|done..]. cbn.
    destruct (open_payloads s l) as [[]|]; intros [= <-]. right. by apply IH.
Qed.

Lemma open_payloads_Err s payloads p e items :
  p ∈ payloads → open_payload s p = Some (Err e) → open_payloads s payloads ≠ Some (Ok items).
Proof.
  intros Hp He. revert items. induction Hp as [x l|x y l Hp IH]; intros items; cbn [open_payloads].
  - by rewrite He.
  - destruct (open_payload s y) as [[]|]; [|done..]. cbn.
    destruct (open_payloads s l) as [[l'|]|]; [|done..]. by destruct (IH He l').
Qed.

(** Without cached items a receiver opens what the bridge sends. *)
Lemma receive_scanned s key resp :
  ls_p2p_inbox s !! member_key key = None →
  receive_inbox_messages s key (Some (λ _, Ok resp))
  = (opened ← open_payloads s (scan_items resp);
     Some (s, match opened with Err e => Err e | Ok items => Ok (items, scan_source resp) end)).
Proof. intros Hc. unfold receive_inbox_messages, resolve_inbox_from_state. by rewrite Hc. Qed.

(** C2: a message published over the bridge arrives: the client reports success,
    and whatever other requests the bridge handles afterwards, in whatever
    interleaving and with whatever failures, a receiver with the thread and the
    sender's key who scans the inbox before the item expires obtains this message
    with its sender and its text.  The publication must be admissible (the sender
    within the bridge's limits and owing no more than the default work, the grant not
    expired, the item small enough); the receiver must have no items of this inbox in
    its own cache and be able to open the other items too. *)
Theorem bridge_message_received sa sa' sb tid u sk alice t tb text nonce n1 n2 d
    rng now_c seed ttl key req limits db now nb addr expires_at :
  let payload := enc (to_cbor_value (td_envelope d)) in
  sender_ready sa tid u sk alice t → length nonce = 12%nat →
  send_thread_message_for_state sa (hex_encode tid) text nonce n1 n2 = Some (sa', Ok d) →
  decodable (to_cbor_value (td_envelope d)) = true →
  value_ok (to_cbor_value (set_signature (td_envelope d) None)) = true →
  bridge_call rng now_c alice seed (td_envelope d) ttl = Ok (key, req) →
  admissible limits db now nb key (message_input u seed payload now_c ttl) expires_at →
  ls_threads sb !! hex_encode tid = Some tb → same_thread t tb →
  resolve_sender_verifying_key sb (hex_encode u) = Ok (ed_verifying_key sk) →
  ls_p2p_inbox sb !! member_key key = None →
  publish_via_bridge rng now_c alice seed (td_envelope d)
    (λ k r, (publish_to_inbox limits now nb addr db k r).2) ttl = Ok tt ∧
  ∀ db2 ps t2,
    rtc (step (handled limits)) ((publish_to_inbox limits now nb addr db key req).1, []) (db2, ps) →
    0 <= t2 < expires_at →
    (∀ r, r ∈ inbox_items db2 → row_inbox_key r = hex_encode key →
       ∃ it, open_payload sb (row_item r) = Some (Ok it)) →
    ∃ resp items,
      scan_inbox limits t2 db2 key = Some (Ok resp) ∧
      receive_inbox_messages sb key (Some (λ _, Ok resp)) = Some (sb, Ok (items, SourceBridge)) ∧
      mkDecryptedInboxItem (hex_encode tid) (hex_encode u) (as_bytes text) ∈ items.
Proof.
  intros payload Hsr Hn Hs Hdec Hok Hcall Had Hth Hsame Hkey Hcache.
  pose proof (send_Ok _ _ _ _ _ _ _ _ _ _ _ _ Hsr Hn Hdec Hok Hs) as
    (group & ct & json & g' & Hg & Hep & Henv & Hopen & _).
  destruct Hsr as [Hid Hu Hk Ht Htid Hmem Hndm Hseq].
  assert (length sk = 32%nat) as Hskl by (by apply signing_key_iff in Hk as [_ ?]).
  destruct (bridge_call_inv _ _ _ _ _ _ _ _ Hcall) as (p & uid & sk' & Hp & Hud & Hsk' & Hkeq & Hb).
  unfold ctap2_bytes_of in Hp. rewrite ctap2_bytes_enc in Hp by (by apply decodable_parts).
  assert (p = payload) as -> by (unfold payload; congruence). rewrite Hu, hex_decode_encode in Hud.
  assert (uid = u) as -> by congruence.
  pose proof (admissible_stored _ _ _ _ _ _ _ _ addr _ _ Hsk' Hb Had) as Hpub.
  split; [unfold publish_via_bridge; rewrite Hcall; cbn; by rewrite Hpub|].
  rewrite Hpub. cbn [fst]. intros db2 ps t2 Hr Ht2 Hall.
  destruct (admitted_item_scanned _ _ _ _ _ _ _ _ _ _ _ Had Hr Ht2) as (found & Hscan & Hin & Hrows).
  assert (open_payload sb payload = Some (Ok (mkDecryptedInboxItem (hex_encode tid) (hex_encode u)
    (as_bytes text)))) as Hpay.
  { specialize (Hopen tb Hsame). unfold payload. rewrite Henv in *. by eapply open_sealed_payload. }
  edestruct (open_payloads_Ok sb found payload) as (items & Hi & Hmsg);
    [intros x (r & Hr1 & Hr2 & ->)%Hrows; by apply Hall|exact Hin|exact Hpay|].
  eexists _, items. split; [done|]. rewrite receive_scanned by done. cbn [scan_items]. by rewrite Hi.
Qed.

(** C38: one item that is not an envelope blocks an inbox: anyone the bridge admits
    can store it, and then, until it expires, every receive of that inbox fails,
    for every receiver and whatever messages are there besides. *)
Theorem foreign_item_blocks_inbox rng sk input req limits db now nb addr key expires_at e :
  length sk = 32%nat → build_bridge_publish_request rng sk input = Ok req →
  admissible limits db now nb key input expires_at →
  parse_envelope_payload (bi_envelope input) = Err e →
  (publish_to_inbox limits now nb addr db key req).2 = Ok tt ∧
  ∀ db2 ps t s,
    rtc (step (handled limits)) ((publish_to_inbox limits now nb addr db key req).1, []) (db2, ps) →
    0 <= t < expires_at → ls_p2p_inbox s !! member_key key = None →
    ∃ resp, scan_inbox limits t db2 key = Some (Ok resp) ∧
      ∀ s' found, receive_inbox_messages s key (Some (λ _, Ok resp)) ≠ Some (s', Ok found).
Proof.
  intros Hsk Hb Had Hp. rewrite (admissible_stored _ _ _ _ _ _ _ _ addr _ _ Hsk Hb Had).
  split; [done|]. cbn [fst]. intros db2 ps t s Hr Ht Hcache.
  destruct (admitted_item_scanned _ _ _ _ _ _ _ _ _ _ _ Had Hr Ht) as (items & Hscan & Hin & _).
  eexists. split; [done|]. intros s' found. rewrite receive_scanned by done. cbn [scan_items].
  assert (open_payload s (bi_envelope input) = Some (Err e)) as He by (unfold open_payload; by rewrite Hp).
  pose proof (open_payloads_Err s items (bi_envelope input) e) as Hno.
  destruct (open_payloads s items) as [[l|]|]; [|done..]. by destruct (Hno l Hin He).
Qed.

(** Every request that the routes hand to a handler is one of those the
    invariants of the bridge speak about, and no other request touches the tables. *)
Theorem routed_requests_handled limits now nb r :
  fits 63 now →
  match app limits now nb r with
  | Handle p => handled limits p
  | other => ∀ db, (serve other db).1 = db
  end.
Proof.
  intros Hnow. unfold app, param, method_routes, extracted.
  repeat case_match; simplify_eq; try done; by constructor.
Qed.

End claims.

(** ** Witnesses *)

Module DeliverySamples.
Export Reference ClientSamples ThreadSamples.

(** Alice publishes the message of [dispatch] for bob. *)
Definition mail : bytes := Eval vm_compute in enc (to_cbor_value (td_envelope dispatch)).

Definition no_request : BridgePublishRequest :=
  {| bpr_data := ""; bpr_grant := mkP2pGrantPayload "" 0 None None "" "";
     bpr_puzzle := mkP2pPuzzlePayload "" "" "" None; bpr_ttl_seconds := None |}.

Definition mail_call : bytes * BridgePublishRequest := Eval vm_compute in
  match bridge_call client_rng 600 alice (replicate 32 xcd) (td_envelope dispatch) None with
  | Ok call => call
  | Err _ => ([], no_request)
  end.

Definition mail_input : BridgeEnvelopePublishInput :=
  message_input (replicate 32 xab) (replicate 32 xcd) mail 600 None.

(** Anyone else stores a byte that is no envelope. *)
Definition junk_input : BridgeEnvelopePublishInput :=
  message_input (replicate 32 xee) (replicate 32 xcd) [xff] 600 None.

Definition junk_request : BridgePublishRequest := Eval vm_compute in
  match build_bridge_publish_request client_rng (replicate 32 x09) junk_input with
  | Ok r => r
  | Err _ => no_request
  end.

Definition bob_fresh : LocalState := bob_with local_state_default.

Definition junk_error : ClientError := Eval vm_compute in
  match parse_envelope_payload (bi_envelope junk_input) with
  | Err e => e
  | Ok _ => ClThreadNotFound
  end.

Lemma mail_admissible :
  admissible rate_limit_default db_empty 610 610 mail_call.1 mail_input 87010.
Proof.
  split; [exact db_inv_empty|split; vm_compute; [discriminate|reflexivity]
    |vm_compute; discriminate|vm_compute; reflexivity..|lia|vm_compute; discriminate].
Qed.

Lemma junk_admissible :
  admissible rate_limit_default db_empty 610 610 mail_call.1 junk_input 87010.
Proof.
  split; [exact db_inv_empty|split; vm_compute; [discriminate|reflexivity]
    |vm_compute; discriminate|vm_compute; reflexivity..|lia|vm_compute; discriminate].
Qed.

End DeliverySamples.
Import DeliverySamples.

Lemma bridge_message_received_witness :
  ∃ resp items,
    scan_inbox rate_limit_default 700
      (publish_to_inbox rate_limit_default 610 610 None db_empty mail_call.1 mail_call.2).1
      mail_call.1 = Some (Ok resp) ∧
    receive_inbox_messages bob_fresh mail_call.1 (Some (λ _, Ok resp))
    = Some (bob_fresh, Ok (items, SourceBridge)) ∧
    mkDecryptedInboxItem (hex_encode tid_bytes) (hex_encode (replicate 32 xab)) (as_bytes "hello")
      ∈ items.
Proof.
  destruct (bridge_message_received alice_threads alice_after bob_fresh tid_bytes (replicate 32 xab)
    (replicate 32 x07) alice sample_thread sample_thread "hello" sample_nonce 600 601 dispatch
    client_rng 600 (replicate 32 xcd) None mail_call.1 mail_call.2 rate_limit_default db_empty 610 610
    None 87010 sample_sender sample_nonce_length alice_sent_eq dispatch_decodable dispatch_value_ok)
    as [_ Hscan].
  - vm_compute. reflexivity.
  - exact mail_admissible.
  - apply lookup_insert_eq.
  - split; reflexivity.
  - vm_compute. reflexivity.
  - apply lookup_empty.
  - apply (Hscan _ [] 700 (rtc_refl _ _)); [lia|].
    intros r Hr _. apply list_elem_of_In in Hr. vm_compute in Hr. destruct Hr as [<-|[]].
    eexists. vm_compute. reflexivity.
Defined.

Lemma foreign_item_blocks_inbox_witness :
  ∃ resp,
    scan_inbox rate_limit_default 700
      (publish_to_inbox rate_limit_default 610 610 None db_empty mail_call.1 junk_request).1
      mail_call.1 = Some (Ok resp) ∧
    ∀ s' found, receive_inbox_messages bob_fresh mail_call.1 (Some (λ _, Ok resp))
      ≠ Some (s', Ok found).
Proof.
  destruct (foreign_item_blocks_inbox client_rng (replicate 32 x09) junk_input junk_request
    rate_limit_default db_empty 610 610 None mail_call.1 87010
    junk_error) as [_ Hblock].
  - reflexivity.
  - vm_compute. reflexivity.
  - exact junk_admissible.
  - vm_compute. reflexivity.
  - apply (Hblock _ [] 700 bob_fresh (rtc_refl _ _)); [lia|apply lookup_empty].
Defined.

Lemma routed_requests_handled_witness :
  handled rate_limit_default (get_card "00").
Proof.
  exact (routed_requests_handled rate_limit_default 610 610
    (mkHttpRequest MGet ["cards"; "00"]%string (Err 415) (Err 415) (Err 400) None)
    (conj (proj1 (Z.leb_le 0 610) eq_refl) eq_refl)).
Defined.
